(* ===== verification/_CoqProject ===== *)
-Q . S2P
Prelude.v
Serializer.v
Protocol.v
TimingWheel.v
Buffer.v
Connection.v
ServiceRegistry.v
RpcServer.v
RpcConcurrent.v
RpcClient.v
ClientCalls.v
RpcSystem.v
LoadBalancer.v
Discovery.v
ConnectionPool.v
IoUring.v
Timeouts.v
Scheduler.v
EventLoop.v
LoopThreads.v
IdlParser.v
CodeGenerator.v
Task.v
TaskVoid.v
Concurrency.v
Runtime.v
Generator.v
Awaitable.v
TcpClient.v
TcpServer.v
Serving.v
Endpoints.v
Framework.v
