(* ===== verification/Prelude.v ===== *)
(** * A C++20 coroutine and io_uring RPC framework: verified model

    The repository is a header-only RPC framework.  Its parts, and how they call
    each other:

    - rpc/: [RpcClient] serialises a value (rpc/serializer.hpp), wraps it in a
      frame (rpc/protocol.hpp) and sends it; [RpcServer] reads frames, looks the
      method up in [ServiceRegistry] and answers.  rpc/loadbalance and
      rpc/registry choose the server.
    - net/: [Connection] is a socket with a state machine, [ConnectionPool]
      shares connections between threads, [Buffer] holds bytes; [TcpServer] and
      [TcpClient] sit between the rpc layer and the connections.
    - io/: [IoUring] wraps the kernel's queues, the awaiters of async_io.hpp
      suspend coroutines on it, [EventLoop] and [EventLoopPool] drive it,
      [TimingWheel] keeps timers.
    - coroutine/: tasks, generators, the work-stealing [Scheduler] and the
      coroutine mutex, semaphore and condition variable.
    - idl/: a parser for interface files and a code generator.

    ** Conventions

    This file holds the shared vocabulary.  A w-bit unsigned value is a [Z] and
    every C++ result that is stored goes through [wrap w] ([u8] to [u64]); signed
    conversions are [sint w] ([i8] to [i64]).  Strings and byte vectors are lists
    of [Z].  A call is an [outcome]: [Ret], [Throw] with the exception, or [Undef]
    for undefined behaviour (an access outside an object, a null or dead
    dereference, a division by zero); [let*] sequences them.  Memory is accessed
    with [read_at] and [write_at], which are [Undef] outside their object.

    Lists, maps and sets are stdpp's.  Code outside the sources is an argument:
    the clock ([now]), the random engine ([draw], with the documented range as
    the class [DrawInRange]), the kernel's results (socket descriptors, connect
    and submit results), uninitialised memory ([fresh], [pad]), handlers and
    callbacks of the application ([invoke], [cmds], [posts]).

    ** Files

    - Serializer.v (rpc/serializer.hpp): every [encode]/[decode] overload as a
      [Codec], [CodecLaws] as the contract of a codec, instances for each type
      and a universe of nested types.  Round trip, what a decoder does on arbitrary
      bytes (a value, a failure, the exception of a refused reserve, or the read of
      an uninitialised local), truncated data.
    - Protocol.v (rpc/protocol.hpp): header and metadata layouts,
      [RpcMessage_serialize] as the sequence of copies, [RpcMessage_deserialize]
      with every read checked.  Round trip, refusal of truncated frames, the
      condition under which reading is in bounds, and a frame that is read past
      its end.
    - TimingWheel.v (io/timer.hpp, [TimingWheel]): the wheel refines [timers], a
      slot-free list of pending timers, for every run of operations; a timer
      fires exactly at its tick; cancellation is exact; a zero delay is missed.
      Runs are bounded by 2^62 operations, ticks and milliseconds, so that no
      64-bit counter wraps.
    - Buffer.v (net/buffer.hpp): blocks in a heap because copies share them;
      [holds] relates a buffer to the byte queue it contains.  A buffer is a
      FIFO queue for contents up to 2^61 bytes (beyond, the capacity doubling
      leaves what [new] accepts); chains are concatenations; moved-from buffers.
    - Connection.v (net/connection.hpp): the state machine over [recv] and
      [send] with short results and errors; [Stream] and [StreamLaws] are the
      interface the rpc layer uses and [Connection] implements it.  Descriptors
      are closed at most once; write loops send prefixes; line reads terminate.
      The loops carry fuel: the bytes left to write, or to arrive, plus one.
    - ServiceRegistry.v (rpc/service_registry.hpp): finite maps; the registry
      answers by the last call that concerns a method.
    - RpcServer.v (rpc/rpc_server.hpp): [handle_message] and the connection
      loop, for any [Stream] and handlers that act on the application's state
      and may throw.  Every request is answered with its id; the loop, which is
      also stated over any function in the place of [handle_message], ends (fuel:
      the bytes left to arrive plus two, each iteration that goes on uses at least
      one) and stays in its buffer when that function does; short reads.
    - RpcConcurrent.v (rpc/rpc_server.hpp): the coroutines of many connections
      and of their handlers interleaving at their awaits, with the statistics
      shared.  Handlers may suspend and act on the application's state; when they
      leave the state alone and each connection alone ends well, each is served as
      [handle_connection] alone would serve it.
    - RpcClient.v (rpc/rpc_client.hpp): [call] for any [Stream] and any lawful
      codecs, and the end-to-end theorem over [handle_message].
    - ClientCalls.v (rpc/rpc_client.hpp): several calls in flight on one client,
      interleaving at their awaits; responses go to the calls in the order in
      which they read, when each reads header and body without another in between;
      with alternating reads a call gets a wrong result.
    - RpcSystem.v (rpc/rpc_client.hpp, rpc/rpc_server.hpp): any number of clients
      and the server on one loop, over connections that deliver each send whole.
      Remote calls of handlers that act on the state in one go, are never
      undefined and whose results fit a response are linearizable, and
      all return: seven turns of both ends are enough for a call.
    - LoadBalancer.v (rpc/loadbalance, rpc/registry): the abstract class as a
      type class with laws, three instances, fairness of the round robins, and
      the composition with service discovery.
    - Discovery.v (rpc/registry): the discovery interface as a type class with
      laws; every implementation answers by the history of its calls.
    - ConnectionPool.v (net/connection_pool.hpp): critical sections and atomic
      increments of any number of threads as a step relation; the counters agree
      with the connections up to the increments still to come, the limit is not
      kept; the manager and the guard.
    - IoUring.v (io/io_uring.hpp, io/async_io.hpp): queues, callback slots,
      awaiters; a completion reaches its own callback unless its slot number is
      0; [async_read_all] and [async_write_all].  [process_all_cqe] and
      [run_once] take fuel because a callback may post more work;
      [process_all_spec] gives the fuel that is enough when callbacks do not.
    - Timeouts.v (io/timer.hpp, awaiters): duration conversions, the timed
      receive and send and [with_timeout] as races between the completions of
      two operations, over the ring of IoUring.v.
    - Scheduler.v (coroutine/scheduler.hpp, coroutine/sync.hpp): interleaved
      deque operations conserve tasks; iterations of any workers, whose tasks may
      schedule others or themselves again, drain the queues; mutex, semaphore and condition variable with their await steps.
    - EventLoop.v (io/event_loop.hpp): tasks, timers in expiry order,
      cancellation, and the loop on the ring: a posted task runs in the next
      round.
    - LoopThreads.v (io/event_loop_pool.hpp): loop threads with a ring each,
      their life cycle, posting and messages between rings; the pool's start,
      stop and dispatch.  A loop blocks in [wait_cqe] while there is no completion;
      [ring_round] takes the number of completions plus one as fuel; four turns of
      a loop and the kernel are enough for a posted task to run and for a stopped
      loop to see its wake-up and leave.
    - IdlParser.v (idl/idl_parser.hpp): the line-based parser, total on every
      input, with a round trip for its own syntax.
    - CodeGenerator.v (idl/code_generator.hpp): the generated header as a text;
      its braces nest.  The printed code is not given a meaning: it does not
      compile against the library.
    - Task.v (coroutine/task.hpp, and [spawn] of io/event_loop.hpp): coroutine
      bodies as trees of awaits, frames in a heap; the frame machine refines
      ordinary nested calls.  [run] carries fuel; the theorems give an amount
      from which on the result is reached.  [spawn] and suspension, awaiting
      started or cancelled tasks.
    - TaskVoid.v (coroutine/task.hpp, coroutine/generator.hpp): [Task<void>] as
      a machine of its own, equivalent to a task with a unit result; [Owner] and
      [OwnerLaws] as the contract of the move-only handles, with the three
      classes as instances.
    - Concurrency.v (coroutine/task.hpp): any number of tasks on one heap of
      frames; launches, completions and destructions in any order refine the
      list of the tasks' bodies with the completions each received, as long as no
      completion arrives for a destroyed task: that one is undefined.  [holds]
      splits the heap into the frames of each task.
    - Runtime.v (io/io_uring.hpp, io/async_io.hpp, coroutine/task.hpp): the ring
      of IoUring.v with the coroutines of Concurrency.v as its callbacks refines
      a system in which every operation has an owner; destroyed tasks with an
      operation in flight; the wake-up lost at slot 0.  Fuel bounds the steps of
      a resumed coroutine; the theorems give an amount that is enough.
    - Generator.v (coroutine/generator.hpp): range-for loops over bodies that
      may yield for ever.
    - Awaitable.v (coroutine/awaitable.hpp): the awaiter completed from another
      thread, by interleaving; sleeping; polling a predicate, with the index of
      the call that answers true as fuel.
    - TcpClient.v (net/tcp_client.hpp): every operation over Connection.v and
      ConnectionPool.v in a process that gives the results of socket and
      connect; sequences of calls, descriptors, reconnection.
    - TcpServer.v (net/tcp_server.hpp): accept loops, handlers and the owner's
      calls as a step relation over Connection.v; the connection count.
    - Serving.v (net/tcp_server.hpp, io/event_loop.hpp): [TcpServer::start] on the
      event loop, the ring and the frames as they are: the accept coroutine is
      called on a lambda that is dead when the loop first resumes it, and [spawn]
      would destroy it at its first await.  Two units of fuel start it, one more
      per completion.
    - Endpoints.v (rpc/rpc_client.hpp, rpc/rpc_server.hpp): [RpcClient] on
      [TcpClient], which is an instance of [Stream], and [RpcServer] on
      [TcpServer]: the transport the client makes, with which no call can succeed;
      starting, with what [accept_loop] may throw, and stopping.
    - Framework.v (framework.hpp, examples/): [init], [shutdown] and [run] on the
      process-wide objects, and the three example programs.

    ** What the theorems show

    Most say that the code does what it means to: round trips, refinements of
    abstract objects ([timers], the byte queue, the registration history, the
    concatenation of a chain, nested calls, tasks and operations with owners,
    connections served one by one, calls made in one process), equivalences ([Task<void>] and
    [Task<unit>]), invariants under interleaving (pool counters, task
    conservation, descriptors, ownership of frames), termination of the loops
    and liveness (posted and scheduled tasks run, calls return).  The others
    prove how the code departs from its intent: frames read past their end,
    short reads, responses given to the wrong call, lost wake-ups, an unenforced connection limit, a mutex that
    never locks, a client whose default transport never connects, dropped
    completions, timers that cannot be cancelled, spawned coroutines destroyed at
    their first suspension and with them every started server, structs that
    swallow the rest of an interface file.

    ** What is not modelled

    Memory ordering (atomic operations are sequentially consistent), logging,
    allocation failure below PTRDIFF_MAX (except of the memory a vector's decoder
    reserves), big-endian hosts, the kernel's handling of socket options (the calls
    are modelled), the real scheduling of threads (any interleaving of the steps
    stated in each file; an access to a ring is one step even where threads share
    it without a lock).  A submission is accepted unless the operation has an
    argument [err] with the error it fails with.  The coroutines of
    RpcServer.v, RpcConcurrent.v, RpcClient.v, ClientCalls.v, RpcSystem.v,
    TcpClient.v and TcpServer.v are modelled as if their frames lived until they end, which [EventLoop::spawn]
    does not ensure (Task.v, Serving.v).  The umbrella headers have no logic of
    their own. *)

From Stdlib Require Import ZArith Lia.
From stdpp Require Export base tactics option list numbers gmap strings.

#[global] Open Scope Z_scope.

(** ** Machine integers

    A [w]-bit unsigned object is a [Z] in [0, 2^w); [wrap w] is the modular
    conversion every C++ arithmetic result goes through when it is stored.
    A signed object of width [w] is a [Z] in [-2^(w-1), 2^(w-1)) and
    [sint w] is the C++20 (two's complement) conversion to it. *)

Definition wrap (w z : Z) : Z := z mod 2 ^ w.

Definition sint (w z : Z) : Z :=
  let m := z mod 2 ^ w in if m <? 2 ^ (w - 1) then m else m - 2 ^ w.

Definition is_u (w z : Z) : Prop := 0 <= z < 2 ^ w.
Definition is_s (w z : Z) : Prop := - 2 ^ (w - 1) <= z < 2 ^ (w - 1).

#[global] Instance is_u_dec w z : Decision (is_u w z) := _.
#[global] Instance is_s_dec w z : Decision (is_s w z) := _.

Abbreviation u8 := (wrap 8) (only parsing).
Abbreviation u16 := (wrap 16) (only parsing).
Abbreviation u32 := (wrap 32) (only parsing).
Abbreviation u64 := (wrap 64) (only parsing).
Abbreviation i8 := (sint 8) (only parsing).
Abbreviation i16 := (sint 16) (only parsing).
Abbreviation i32 := (sint 32) (only parsing).
Abbreviation i64 := (sint 64) (only parsing).

(** A byte string: every element is the value of a [uint8_t].  Both
    [std::string] and [std::vector<uint8_t>] are such lists. *)
Abbreviation bytes_ok := (Forall (is_u 8)) (only parsing).

(** Length of a list as a [size_t] value. *)
Abbreviation zlen l := (Z.of_nat (length l)).

Create HintDb rpc.
Create Rewrite HintDb rpc.

Lemma wrap_range w z : 0 <= w -> 0 <= wrap w z < 2 ^ w.
Proof. intros. apply Z.mod_pos_bound. lia. Qed.

Lemma wrap_is_u w z : 0 <= w -> is_u w (wrap w z).
Proof. apply wrap_range. Qed.

Lemma wrap_small w z : is_u w z -> wrap w z = z.
Proof. apply Z.mod_small. Qed.

Lemma wrap_idemp w z : wrap w (wrap w z) = wrap w z.
Proof. unfold wrap. apply Zmod_mod. Qed.

Lemma pow2_split w : 0 < w -> 2 ^ w = 2 * 2 ^ (w - 1).
Proof. intros. rewrite <- Z.pow_succ_r by lia. f_equal. lia. Qed.

Lemma sint_is_s w z : 0 < w -> is_s w (sint w z).
Proof.
  intros Hw. unfold is_s, sint. pose proof (pow2_split w Hw).
  assert (0 <= z mod 2 ^ w < 2 ^ w) by (apply Z.mod_pos_bound; lia).
  destruct (Z.ltb_spec (z mod 2 ^ w) (2 ^ (w - 1))); lia.
Qed.

Lemma sint_small w z : 0 < w -> is_s w z -> sint w z = z.
Proof.
  intros Hw Hz. unfold is_s, sint in *. pose proof (pow2_split w Hw).
  destruct (Z.le_gt_cases 0 z).
  - rewrite Z.mod_small by lia. destruct (Z.ltb_spec z (2 ^ (w - 1))); lia.
  - replace (z mod 2 ^ w) with (z + 2 ^ w).
    + destruct (Z.ltb_spec (z + 2 ^ w) (2 ^ (w - 1))); lia.
    + symmetry. rewrite <- (Z.mod_small (z + 2 ^ w) (2 ^ w)) by lia.
      rewrite <- (Z.mul_1_l (2 ^ w)) at 2. now rewrite Z.mod_add by lia.
Qed.

Lemma sint_wrap w z : sint w (wrap w z) = sint w z.
Proof. unfold sint, wrap. now rewrite Zmod_mod. Qed.

Lemma wrap_sint w z : 0 < w -> wrap w (sint w z) = wrap w z.
Proof.
  intros Hw. unfold sint, wrap.
  destruct (_ <? _); [apply Zmod_mod|].
  rewrite Zminus_mod, Zmod_mod, Z_mod_same_full, Z.sub_0_r. apply Zmod_mod.
Qed.

Lemma is_u_mono v w z : v <= w -> is_u v z -> is_u w z.
Proof.
  intros Hvw [? Hz]. split; [done|]. eapply Z.lt_le_trans; [exact Hz|].
  destruct (Z.le_gt_cases 0 v); [apply Z.pow_le_mono_r; lia|].
  rewrite (Z.pow_neg_r 2 v) by done. apply Z.pow_nonneg. lia.
Qed.

(** *** Bitwise operations *)

Lemma wrap_lor w x y : 0 <= w -> wrap w (Z.lor x y) = Z.lor (wrap w x) (wrap w y).
Proof.
  intros. unfold wrap. rewrite <- !Z.land_ones by lia. apply Z.land_lor_distr_l.
Qed.

Lemma sint_eq w x y : wrap w x = wrap w y -> sint w x = sint w y.
Proof. intros E. rewrite <- (sint_wrap w x), <- (sint_wrap w y). by rewrite E. Qed.

(** Truncating an operand of [|] before the final truncation changes nothing. *)
Lemma sint_lor_r w x y : 0 < w -> sint w (Z.lor x (sint w y)) = sint w (Z.lor x y).
Proof.
  intros. apply sint_eq. rewrite !wrap_lor, wrap_sint by lia. done.
Qed.

Lemma sint_lor_l w x y : 0 < w -> sint w (Z.lor (sint w x) y) = sint w (Z.lor x y).
Proof. intros. rewrite !(Z.lor_comm _ y). by apply sint_lor_r. Qed.

(** Disjoint bit fields: [a | (b << n)] is an addition. *)
Lemma lor_shiftl_add a b n :
  0 <= n -> is_u n a -> Z.lor a (Z.shiftl b n) = a + 2 ^ n * b.
Proof.
  intros Hn Ha. rewrite (Z.mul_comm (2 ^ n)), <- Z.shiftl_mul_pow2 by done.
  rewrite <- Z.add_lor_land. replace (Z.land _ _) with 0; [lia|].
  symmetry. apply Z.bits_inj'. intros i Hi. rewrite Z.land_spec, Z.bits_0.
  destruct (Z.lt_ge_cases i n).
  - rewrite Z.shiftl_spec_low by done. apply andb_false_r.
  - replace a with (a mod 2 ^ n) by (apply Z.mod_small; done).
    by rewrite Z.mod_pow2_bits_high by lia.
Qed.

Lemma land_255 z : Z.land z 255 = z mod 256.
Proof. apply (Z.land_ones z 8). lia. Qed.

(** ** Little-endian object representation

    [std::memcpy] of an integer member copies its object representation; the
    framework targets Linux/io_uring hosts, which are little-endian. *)

Fixpoint le_bytes (n : nat) (z : Z) : list Z :=
  match n with
  | O => []
  | S n => z mod 256 :: le_bytes n (z / 256)
  end.

Fixpoint le_val (bs : list Z) : Z :=
  match bs with
  | [] => 0
  | b :: bs => b + 256 * le_val bs
  end.

Lemma length_le_bytes n z : length (le_bytes n z) = n.
Proof. revert z. induction n; simpl; auto. Qed.

Lemma le_bytes_ok n z : bytes_ok (le_bytes n z).
Proof.
  revert z. induction n; simpl; constructor; auto.
  split; apply Z.mod_pos_bound; lia.
Qed.

Lemma le_val_bytes n z : le_val (le_bytes n z) = z mod 256 ^ Z.of_nat n.
Proof.
  revert z. induction n as [|n IH]; intros z; [simpl; now rewrite Z.mod_1_r|].
  cbn [le_bytes le_val]. rewrite IH, Nat2Z.inj_succ, Z.pow_succ_r by lia.
  rewrite Z.rem_mul_r by lia. lia.
Qed.

Lemma le_val_bytes_small n w z :
  is_u w z -> w = 8 * Z.of_nat n -> le_val (le_bytes n z) = z.
Proof.
  intros Hz ->. rewrite le_val_bytes. apply Z.mod_small.
  unfold is_u in Hz. now rewrite Z.pow_mul_r in Hz by lia.
Qed.

Lemma le_val_is_u bs : bytes_ok bs -> is_u (8 * zlen bs) (le_val bs).
Proof.
  induction 1 as [|b bs Hb _ IH]; [done|].
  unfold is_u in *. cbn [le_val length].
  rewrite Nat2Z.inj_succ, Z.mul_succ_r, Z.pow_add_r by lia.
  change (2 ^ 8) with 256 in *. lia.
Qed.

Lemma le_bytes_val bs : bytes_ok bs -> le_bytes (length bs) (le_val bs) = bs.
Proof.
  induction 1 as [|b bs Hb _ IH]; [done|]. simpl.
  unfold is_u in Hb. change (2 ^ 8) with 256 in Hb.
  rewrite (Z.mul_comm 256), Z.mod_add, Z.mod_small by lia.
  rewrite Z.div_add, Z.div_small by lia. now rewrite Z.add_0_l, IH.
Qed.

#[export] Hint Resolve wrap_is_u sint_is_s le_bytes_ok : rpc.
#[export] Hint Rewrite length_le_bytes : rpc.

(** ** Effects

    A C++ call returns, throws, or has undefined behaviour (an access outside
    an object, a null dereference, a division by zero).  [Undef] absorbs the
    rest of the computation, as nothing can be said after it. *)

Inductive outcome (A : Type) : Type :=
| Ret (a : A)
| Throw (what : string)
| Undef.
Arguments Ret {A} a.
Arguments Throw {A} what.
Arguments Undef {A}.

#[global] Instance outcome_ret : MRet outcome := @Ret.
#[global] Instance outcome_bind : MBind outcome := fun A B f m =>
  match m with
  | Ret a => f a
  | Throw e => Throw e
  | Undef => Undef
  end.

Declare Scope rpc_scope.
Delimit Scope rpc_scope with rpc.
Notation "'let*' x ':=' m 'in' k" := (mbind (M := outcome) (fun x => k) m)
  (at level 10, x binder, m at level 100, k at level 200) : rpc_scope.
#[global] Open Scope rpc_scope.

Definition returns {A} (m : outcome A) : Prop := exists a, m = Ret a.

Lemma bind_Ret_inv {A B} (m : outcome A) (k : A -> outcome B) b :
  mbind (M := outcome) k m = Ret b -> exists a, m = Ret a /\ k a = Ret b.
Proof. destruct m; simpl; [eauto|done..]. Qed.

(** ** Memory accesses

    [read_at mem off n] is the [n] bytes a [memcpy] or a range [assign] reads
    at offset [off] of an allocation whose accessible bytes are [mem]. *)

Definition read_at (mem : list Z) (off n : Z) : outcome (list Z) :=
  if decide (0 <= off /\ 0 <= n /\ off + n <= zlen mem)
  then Ret (take (Z.to_nat n) (drop (Z.to_nat off) mem))
  else Undef.

(** [write_at mem off bs] is [memcpy(mem + off, bs, size)]. *)
Definition write_at (mem : list Z) (off : Z) (bs : list Z) : outcome (list Z) :=
  if decide (0 <= off /\ off + zlen bs <= zlen mem)
  then Ret (take (Z.to_nat off) mem ++ bs ++ drop (Z.to_nat off + length bs) mem)
  else Undef.

(** [std::vector::resize]: keeps a prefix, new elements are value-initialised. *)
Definition resize (l : list Z) (n : Z) : list Z :=
  take (Z.to_nat n) l ++ replicate (Z.to_nat n - length l) 0.

Lemma read_at_ok mem off n :
  0 <= off -> 0 <= n -> off + n <= zlen mem ->
  read_at mem off n = Ret (take (Z.to_nat n) (drop (Z.to_nat off) mem)).
Proof. intros. unfold read_at. by rewrite decide_True. Qed.

Lemma read_at_past mem off n : zlen mem < off + n -> read_at mem off n = Undef.
Proof. intros. unfold read_at. rewrite decide_False; [done|lia]. Qed.

(** The read of a field that sits between two known byte strings. *)
Lemma read_at_app a b c off n :
  off = zlen a -> n = zlen b -> read_at (a ++ b ++ c) off n = Ret b.
Proof.
  intros -> ->. rewrite read_at_ok by (rewrite ?length_app; lia).
  rewrite !Nat2Z.id, drop_app_length, take_app_length. done.
Qed.

Lemma read_at_length mem off n bs :
  read_at mem off n = Ret bs -> zlen bs = n.
Proof.
  unfold read_at. case_decide; [|done]. intros [= <-].
  rewrite length_take, length_drop. lia.
Qed.

Lemma read_at_bytes_ok mem off n bs :
  bytes_ok mem -> read_at mem off n = Ret bs -> bytes_ok bs.
Proof.
  unfold read_at. case_decide; [|done]. intros ? [= <-].
  by apply Forall_take, Forall_drop.
Qed.

Lemma write_at_length mem off bs mem' :
  write_at mem off bs = Ret mem' -> length mem' = length mem.
Proof.
  unfold write_at. case_decide; [|done]. intros [= <-].
  rewrite !length_app, length_take, length_drop. lia.
Qed.

(** Filling a zeroed buffer front to back. *)
Lemma write_at_zeros pre bs k off :
  off = zlen pre -> (length bs <= k)%nat ->
  write_at (pre ++ replicate k 0) off bs = Ret ((pre ++ bs) ++ replicate (k - length bs) 0).
Proof.
  intros -> Hk. unfold write_at.
  rewrite decide_True by (rewrite length_app, length_replicate; lia).
  rewrite Nat2Z.id, take_app_length, drop_app_add', drop_replicate, app_assoc; done.
Qed.

(** Overwriting a part that sits between two known byte strings. *)
Lemma write_at_app pre bs mid post off :
  off = zlen pre -> length bs = length mid ->
  write_at (pre ++ mid ++ post) off bs = Ret (pre ++ bs ++ post).
Proof.
  intros -> Hl. unfold write_at.
  rewrite decide_True by (rewrite !length_app; lia).
  rewrite Nat2Z.id, take_app_length, Hl, drop_app_add', drop_app_length; done.
Qed.

Lemma length_resize l n : 0 <= n -> zlen (resize l n) = n.
Proof. unfold resize. rewrite length_app, length_take, length_replicate. lia. Qed.

(** The receive buffer of a two-part read: the first part is stored, the buffer
    grows if it has to, the second part is stored after the first. *)
Lemma fill_two buf hb body total :
  zlen hb <= zlen buf -> total = zlen hb + zlen body ->
  exists buf1 tail, write_at buf 0 hb = Ret buf1 /\ read_at buf1 0 (zlen hb) = Ret hb /\
    write_at (if zlen buf1 <? total then resize buf1 total else buf1) (zlen hb) body
    = Ret (hb ++ body ++ tail).
Proof.
  intros Hb ->. exists (hb ++ drop (length hb) buf).
  assert (Hgrow : exists rest, (if zlen (hb ++ drop (length hb) buf) <? zlen hb + zlen body
                    then resize (hb ++ drop (length hb) buf) (zlen hb + zlen body)
                    else hb ++ drop (length hb) buf) = hb ++ rest /\ zlen body <= zlen rest).
  { rewrite length_app, length_drop. destruct (Z.ltb_spec (Z.of_nat (length hb + (length buf - length hb)))
      (zlen hb + zlen body)).
    - eexists. unfold resize. rewrite take_ge by (rewrite length_app, length_drop; lia).
      rewrite <- app_assoc. split; [done|].
      rewrite !length_app, length_replicate, length_drop. lia.
    - eexists. split; [done|]. rewrite length_drop. lia. }
  destruct Hgrow as (rest & -> & Hrest). exists (drop (length body) rest). split_and!.
  - unfold write_at. by rewrite decide_True by lia.
  - by apply (read_at_app []).
  - rewrite <- (take_drop (length body) rest) at 1. apply write_at_app; [done|].
    rewrite length_take. lia.
Qed.

(** *** Slices *)

Lemma take_plus {A} n m (l : list A) : take (n + m) l = take n l ++ take m (drop n l).
Proof. symmetry. apply take_take_drop. Qed.

Lemma take_length_take {A} n (l : list A) : take (length (take n l)) l = take n l.
Proof. revert l. induction n; intros [|x l]; simpl; f_equal; auto. Qed.

(** Dropping up to [off] inside the first [off + m] bytes, with another tail. *)
Lemma drop_take_tail {A} off m k (l rest : list A) :
  (off + m <= length l)%nat ->
  drop off (take (off + m + k) l ++ rest)
  = take m (drop off l) ++ take k (drop (off + m) l) ++ rest.
Proof.
  intros. rewrite !take_plus, <- !app_assoc.
  rewrite drop_app_length' by (rewrite length_take; lia). done.
Qed.

(** *** Filters *)

Section Filters.
Context {A : Type}.
Implicit Types (l : list A).

Lemma filter_ext_in (P Q : A -> Prop) `{!forall x, Decision (P x)} `{!forall x, Decision (Q x)} l :
  (forall x, x ∈ l -> P x <-> Q x) -> filter P l = filter Q l.
Proof.
  induction l as [|x l IH]; intros HPQ; [done|].
  rewrite !filter_cons. rewrite IH by (intros; apply HPQ; by right).
  destruct (HPQ x) as [H1 H2]; [by left|]. repeat case_decide; tauto || done.
Qed.

Lemma filter_id (P : A -> Prop) `{!forall x, Decision (P x)} l :
  (forall x, x ∈ l -> P x) -> filter P l = l.
Proof.
  induction l as [|x l IH]; intros HP; [done|].
  rewrite filter_cons, decide_True by (apply HP; by left). f_equal. apply IH.
  intros. apply HP. by right.
Qed.

Lemma filter_none (P : A -> Prop) `{!forall x, Decision (P x)} l :
  (forall x, x ∈ l -> ~ P x) -> filter P l = [].
Proof.
  induction l as [|x l IH]; intros HP; [done|].
  rewrite filter_cons, decide_False by (apply HP; by left). apply IH.
  intros. apply HP. by right.
Qed.

(** Nested filters that keep the same elements are equal. *)
Lemma filter2_ext_in (P Q P' Q' : A -> Prop)
    `{!forall x, Decision (P x)} `{!forall x, Decision (Q x)}
    `{!forall x, Decision (P' x)} `{!forall x, Decision (Q' x)} l :
  (forall x, x ∈ l -> P x /\ Q x <-> P' x /\ Q' x) ->
  filter P (filter Q l) = filter P' (filter Q' l).
Proof. intros HPQ. rewrite !list_filter_filter. by apply filter_ext_in. Qed.

Lemma NoDup_fmap_filter {B} (f : A -> B) (P : A -> Prop) `{!forall x, Decision (P x)} l :
  NoDup (f <$> l) -> NoDup (f <$> filter P l).
Proof.
  intros Hl. eapply sublist_NoDup; [exact Hl|]. apply fmap_sublist, sublist_filter.
Qed.

Lemma Forall_filter_sub (Q : A -> Prop) (P : A -> Prop) `{!forall x, Decision (P x)} l :
  Forall Q l -> Forall Q (filter P l).
Proof. rewrite !Forall_forall. intros HQ x [_ ?]%list_elem_of_filter. auto. Qed.

(** Taking out [P] first does not change what [R] keeps in all, when [P] is in [R]. *)
Lemma filter_partition (P R : A -> Prop) `{!forall x, Decision (P x)} `{!forall x, Decision (R x)} l :
  (forall x, P x -> R x) ->
  filter P l ++ filter R (filter (fun x => ~ P x) l) ≡ₚ filter R l.
Proof.
  intros HPR. induction l as [|x l IH]; [done|]. rewrite !filter_cons.
  destruct (decide (P x)); [rewrite (decide_False (P := ~ P x)) by tauto|
                            rewrite (decide_True (P := ~ P x)), filter_cons by done].
  - rewrite (decide_True (P := R x)) by auto. simpl. by rewrite IH.
  - case_decide; simpl; [|done]. by rewrite <- Permutation_middle, IH.
Qed.
End Filters.

(** ** Character literals *)

(** The bytes of a C++ string literal. *)
Fixpoint bytes_of_string (s : string) : list Z :=
  match s with
  | EmptyString => []
  | String c s => Z.of_N (Ascii.N_of_ascii c) :: bytes_of_string s
  end.

Lemma bytes_of_string_ok s : bytes_ok (bytes_of_string s).
Proof.
  induction s; simpl; constructor; auto.
  unfold is_u. pose proof (Ascii.N_ascii_bounded a). lia.
Qed.
#[export] Hint Resolve bytes_of_string_ok : rpc.
