(* ===== verification/Serializer.v ===== *)
(** * rpc/serializer.hpp: the binary serializer

    One definition per overload of [BinarySerializer::encode] and
    [BinarySerializer::decode]; C++ overload resolution becomes the choice of
    a [Codec].  [encode buffer value] is the buffer after the call.  A decoder
    gets the bytes [data[0..size)] and answers the [DecodeResult] with the
    value it stored on success ([None] on failure: the out-parameter is then
    not written).  The decoders of unsigned integers, floats and lengths read the
    local they had decoded into without a test: on short input that local is
    uninitialised and the read is undefined.  The decoder of a vector reserves
    memory for the length it has read: [alloc n] says whether [n] elements are
    granted, and an exception leaves it otherwise.  Other allocations succeed.

    [CodecLaws] is what the serializer promises to its clients (the RPC client
    and the structs of generated code); it is proved for every overload. *)

From Stdlib Require Import ZArith Lia.
From S2P Require Import Prelude.

(** ** [DecodeResult] and the two outcomes every decoder builds *)

Record DecodeResult := mkDecodeResult { bytes_read : Z; success : bool }.

#[global] Instance DecodeResult_eq_dec : EqDecision DecodeResult.
Proof. solve_decision. Defined.

Definition decoded (T : Type) : Type := DecodeResult * option T.

Definition decode_fail {T} : decoded T := (mkDecodeResult 0 false, None).
Definition decode_ok {T} (n : Z) (v : T) : decoded T := (mkDecodeResult n true, Some v).

Definition push_back {A} (buffer : list A) (b : A) : list A := buffer ++ [b].

(** ** Encoding *)

Definition encode_bool (buffer : list Z) (value : bool) : list Z :=
  push_back buffer (if value then 1 else 0).

Definition encode_int8 (buffer : list Z) (value : Z) : list Z :=
  push_back buffer (u8 value).

Definition encode_uint8 (buffer : list Z) (value : Z) : list Z :=
  push_back buffer value.

Definition encode_int16 (buffer : list Z) (value : Z) : list Z :=
  let buffer := push_back buffer (u8 (Z.land value 255)) in
  push_back buffer (u8 (Z.land (Z.shiftr value 8) 255)).

Definition encode_uint16 (buffer : list Z) (value : Z) : list Z :=
  encode_int16 buffer (i16 value).

Definition encode_int32 (buffer : list Z) (value : Z) : list Z :=
  let buffer := push_back buffer (u8 (Z.land value 255)) in
  let buffer := push_back buffer (u8 (Z.land (Z.shiftr value 8) 255)) in
  let buffer := push_back buffer (u8 (Z.land (Z.shiftr value 16) 255)) in
  push_back buffer (u8 (Z.land (Z.shiftr value 24) 255)).

Definition encode_uint32 (buffer : list Z) (value : Z) : list Z :=
  encode_int32 buffer (i32 value).

(** [for (int i = 0; i < 8; ++i)] *)
Definition encode_int64 (buffer : list Z) (value : Z) : list Z :=
  fold_left (fun buffer i => push_back buffer (u8 (Z.land (Z.shiftr value (i * 8)) 255)))
            (seqZ 0 8) buffer.

Definition encode_uint64 (buffer : list Z) (value : Z) : list Z :=
  encode_int64 buffer (i64 value).

(** A [float] (a [double]) is given by its 32-bit (64-bit) object
    representation, which is all [memcpy] lets the code see of it. *)
Definition encode_float (buffer : list Z) (bits : Z) : list Z :=
  encode_uint32 buffer bits.

Definition encode_double (buffer : list Z) (bits : Z) : list Z :=
  encode_uint64 buffer bits.

Definition encode_string (buffer : list Z) (value : list Z) : list Z :=
  let buffer := encode_uint32 buffer (u32 (zlen value)) in
  buffer ++ value.

(** The container templates take the element overload as an argument. *)
Definition encode_vector {T} (encode : list Z -> T -> list Z)
    (buffer : list Z) (value : list T) : list Z :=
  let buffer := encode_uint32 buffer (u32 (zlen value)) in
  fold_left encode value buffer.

(** A [std::map] is the list of its entries in iteration (key) order. *)
Definition encode_map {K V} (encode_k : list Z -> K -> list Z)
    (encode_v : list Z -> V -> list Z) (buffer : list Z) (value : list (K * V)) : list Z :=
  let buffer := encode_uint32 buffer (u32 (zlen value)) in
  fold_left (fun buffer '(k, v) => encode_v (encode_k buffer k) v) value buffer.

(** ** Decoding: matching [n] leading bytes is the guard [size < n] *)

Definition decode_bool (data : list Z) : outcome (decoded bool) :=
  match data with
  | d0 :: _ => Ret (decode_ok 1 (negb (d0 =? 0)))
  | _ => Ret decode_fail
  end.

Definition decode_int8 (data : list Z) : outcome (decoded Z) :=
  match data with
  | d0 :: _ => Ret (decode_ok 1 (i8 d0))
  | _ => Ret decode_fail
  end.

Definition decode_uint8 (data : list Z) : outcome (decoded Z) :=
  match data with
  | d0 :: _ => Ret (decode_ok 1 d0)
  | _ => Ret decode_fail
  end.

Definition decode_int16 (data : list Z) : outcome (decoded Z) :=
  match data with
  | d0 :: d1 :: _ => Ret (decode_ok 2 (i16 (Z.lor d0 (i32 (Z.shiftl d1 8)))))
  | _ => Ret decode_fail
  end.

(** [T v; auto ret = decode(data, size, v); value = static_cast<U>(v); return ret;]
    When the decoder has failed, [v] has no value. *)
Definition decode_cast {T U} (cast : T -> U) (ret : outcome (decoded T)) : outcome (decoded U) :=
  let* (ret : decoded T) := ret in
  match ret.2 with Some v => Ret (ret.1, Some (cast v)) | None => Undef end.

Definition decode_uint16 (data : list Z) : outcome (decoded Z) :=
  decode_cast u16 (decode_int16 data).

Definition decode_int32 (data : list Z) : outcome (decoded Z) :=
  match data with
  | d0 :: d1 :: d2 :: d3 :: _ =>
      Ret (decode_ok 4 (i32 (Z.lor (Z.lor (Z.lor d0 (i32 (Z.shiftl d1 8)))
                                     (i32 (Z.shiftl d2 16)))
                              (i32 (Z.shiftl d3 24)))))
  | _ => Ret decode_fail
  end.

Definition decode_uint32 (data : list Z) : outcome (decoded Z) :=
  decode_cast u32 (decode_int32 data).

(** [value |= static_cast<int64_t>(data[i]) << (i * 8)], [i] from 0 to 7 *)
Definition decode_int64 (data : list Z) : outcome (decoded Z) :=
  if zlen data <? 8 then Ret decode_fail
  else Ret (decode_ok 8 (fold_left (fun value '(i, d) =>
                                 i64 (Z.lor value (i64 (Z.shiftl d (i * 8)))))
                              (zip (seqZ 0 8) data) 0)).

Definition decode_uint64 (data : list Z) : outcome (decoded Z) :=
  decode_cast u64 (decode_int64 data).

(** [memcpy] of the bits, decoded as an unsigned integer. *)
Definition decode_float (data : list Z) : outcome (decoded Z) := decode_uint32 data.
Definition decode_double (data : list Z) : outcome (decoded Z) := decode_uint64 data.

Definition decode_string (data : list Z) : outcome (decoded (list Z)) :=
  let* (r : decoded Z) := decode_uint32 data in
  match r with
  | (ret, Some len) =>
      if negb (success ret) || (zlen data <? u64 (bytes_read ret + len)) then Ret decode_fail
      else Ret (decode_ok (u64 (bytes_read ret + len))
             (take (Z.to_nat len) (drop (Z.to_nat (bytes_read ret)) data)))
  | _ => Ret decode_fail
  end.

(** The element loop: [i] counts the elements still to read, [offset] never
    passes [size] (each element read lies inside the remaining bytes). *)
Fixpoint decode_items {T} (decode : list Z -> outcome (decoded T)) (i : nat)
    (data : list Z) (offset : Z) (value : list T) : outcome (decoded (list T)) :=
  match i with
  | O => Ret (decode_ok offset value)
  | S i =>
      let* (x : decoded T) := decode (drop (Z.to_nat offset) data) in
      match x with
      | (r, Some item) =>
          if success r
          then decode_items decode i data (offset + bytes_read r) (push_back value item)
          else Ret decode_fail
      | _ => Ret decode_fail
      end
  end.

Definition decode_vector {T} (alloc : Z -> bool) (decode : list Z -> outcome (decoded T)) (data : list Z)
  : outcome (decoded (list T)) :=
  let* (x : decoded Z) := decode_uint32 data in
  match x with
  | (ret, Some len) =>
      if success ret then
        if alloc len then decode_items decode (Z.to_nat len) data (bytes_read ret) []
        else Throw "std::bad_alloc"
      else Ret decode_fail
  | _ => Ret decode_fail
  end.

(** ** Codecs: what an overload pair of the serializer is to its clients *)

Record Codec (T : Type) := mkCodec {
  encode : list Z -> T -> list Z;
  decode : list Z -> outcome (decoded T);
}.
Arguments mkCodec {T}.
Arguments encode {T}.
Arguments decode {T}.

Definition serialize {T} (c : Codec T) (value : T) : list Z := encode c [] value.

Definition deserialize {T} (c : Codec T) (data : list Z) : outcome (bool * option T) :=
  let* (x : decoded T) := decode c data in Ret (success x.1, x.2).

Definition bool_codec := mkCodec encode_bool decode_bool.
Definition int8_codec := mkCodec encode_int8 decode_int8.
Definition uint8_codec := mkCodec encode_uint8 decode_uint8.
Definition int16_codec := mkCodec encode_int16 decode_int16.
Definition uint16_codec := mkCodec encode_uint16 decode_uint16.
Definition int32_codec := mkCodec encode_int32 decode_int32.
Definition uint32_codec := mkCodec encode_uint32 decode_uint32.
Definition int64_codec := mkCodec encode_int64 decode_int64.
Definition uint64_codec := mkCodec encode_uint64 decode_uint64.
Definition float_codec := mkCodec encode_float decode_float.
Definition double_codec := mkCodec encode_double decode_double.
Definition string_codec := mkCodec encode_string decode_string.
Definition vector_codec {T} (alloc : Z -> bool) (c : Codec T) : Codec (list T) :=
  mkCodec (encode_vector (encode c)) (decode_vector alloc (decode c)).

(** A decoder that stored no value failed reading nothing, or did not return. *)
Definition no_value {T} (o : outcome (decoded T)) : Prop :=
  match o with Ret d => d = decode_fail | _ => True end.

(** The promise.  [valid v]: [v] is a value of the C++ type that the format
    can carry (container sizes must fit the 32-bit length prefix). *)
Class CodecLaws {T} (c : Codec T) (valid : T -> Prop) : Prop := {
  codec_app buf v : encode c buf v = buf ++ serialize c v;
  codec_bytes v : valid v -> bytes_ok (serialize c v);
  codec_roundtrip v rest :
    valid v -> bytes_ok rest ->
    decode c (serialize c v ++ rest) = Ret (decode_ok (zlen (serialize c v)) v);
  codec_decode data :
    bytes_ok data ->
    no_value (decode c data) \/
    exists n v, decode c data = Ret (decode_ok n v) /\ 0 < n <= zlen data /\ valid v;
  codec_local data rest n v :
    bytes_ok data -> bytes_ok rest -> decode c data = Ret (decode_ok n v) ->
    decode c (take (Z.to_nat n) data ++ rest) = Ret (decode_ok n v);
}.

(** ** Fixed-width overloads *)

Section FixedWidth.
Context {T : Type} (c : Codec T) (valid : T -> Prop).
Context (n : nat) (to_bits : T -> Z) (of_bits : Z -> T).
Context (Hn : (0 < n)%nat).
Context (Happ : forall buf v, encode c buf v = buf ++ serialize c v).
Context (Henc : forall v, valid v -> serialize c v = le_bytes n (to_bits v)).
Context (short : outcome (decoded T)) (Hshort : no_value short).
Context (Hdec : forall data, bytes_ok data ->
  decode c data = if decide (n <= length data)%nat
                  then Ret (decode_ok (Z.of_nat n) (of_bits (le_val (take n data))))
                  else short).
Context (Hinv : forall v, valid v -> of_bits (wrap (8 * Z.of_nat n) (to_bits v)) = v).
Context (Hvalid : forall z, is_u (8 * Z.of_nat n) z -> valid (of_bits z)).

Lemma fixed_roundtrip v rest :
  valid v -> bytes_ok rest ->
  decode c (serialize c v ++ rest) = Ret (decode_ok (zlen (serialize c v)) v).
Proof.
  intros Hv Hr. rewrite Henc by done.
  rewrite Hdec by (apply Forall_app; auto with rpc).
  rewrite decide_True by (rewrite length_app, length_le_bytes; lia).
  rewrite length_le_bytes. rewrite take_app_length' by by rewrite length_le_bytes.
  rewrite le_val_bytes. unfold wrap in Hinv.
  change 256 with (2 ^ 8). rewrite <- Z.pow_mul_r by lia. by rewrite Hinv.
Qed.

Lemma fixed_laws : CodecLaws c valid.
Proof.
  split; [done|..].
  - intros v Hv. rewrite Henc by done. auto with rpc.
  - apply fixed_roundtrip.
  - intros data Hd. rewrite Hdec by done. case_decide as E; [right|by left].
    do 2 eexists. split; [done|]. split; [lia|]. apply Hvalid.
    replace n with (length (take n data)) at 1 by (rewrite length_take; lia).
    apply le_val_is_u. by apply Forall_take.
  - intros data rest m v Hd Hr. rewrite !Hdec by auto using Forall_app_2, Forall_take.
    case_decide as E; [|intros Hs; by rewrite Hs in Hshort]. intros [= <- <-].
    assert (length (take n data) = n) by (rewrite length_take; lia).
    rewrite Nat2Z.id, decide_True by (rewrite length_app; lia).
    by rewrite take_app_length' by done.
Qed.
End FixedWidth.

(** The shifts and masks of the encoders compute the little-endian bytes. *)

Lemma shiftr_byte z k : 0 <= k -> u8 (Z.land (Z.shiftr z k) 255) = z / 2 ^ k mod 256.
Proof.
  intros. rewrite land_255, Z.shiftr_div_pow2 by done. unfold wrap.
  change (2 ^ 8) with 256. apply Zmod_mod.
Qed.

Lemma low_byte z : u8 (Z.land z 255) = z / 2 ^ (0 * 8) mod 256.
Proof. rewrite <- (shiftr_byte z (0 * 8)) by lia. by rewrite Z.shiftr_0_r. Qed.

Lemma le_bytes_shift n z : le_bytes n z = (fun i => z / 2 ^ (i * 8) mod 256) <$> seqZ 0 (Z.of_nat n).
Proof.
  revert z. induction n as [|n IH]; intros z; [done|].
  rewrite Nat2Z.inj_succ, seqZ_cons, fmap_cons by lia. cbn [le_bytes].
  change (2 ^ (0 * 8)) with 1. rewrite Z.div_1_r. f_equal.
  rewrite IH, Z.pred_succ, <- (fmap_add_seqZ 1 0), <- list_fmap_compose.
  apply list_fmap_ext. intros i x Hx. apply lookup_seqZ in Hx as [-> Hx]. simpl.
  rewrite Z.div_div by lia. change 256 with (2 ^ 8) at 1. rewrite <- Z.pow_add_r by lia.
  do 3 f_equal. lia.
Qed.

Lemma encode_int16_le buf v : encode_int16 buf v = buf ++ le_bytes 2 v.
Proof.
  unfold encode_int16, push_back.
  rewrite low_byte, !shiftr_byte, le_bytes_shift, <- !app_assoc by lia. done.
Qed.

Lemma encode_int32_le buf v : encode_int32 buf v = buf ++ le_bytes 4 v.
Proof.
  unfold encode_int32, push_back.
  rewrite low_byte, !shiftr_byte, le_bytes_shift, <- !app_assoc by lia. done.
Qed.

Lemma fold_push_back {A B} (f : A -> B) l buf :
  fold_left (fun buf i => push_back buf (f i)) l buf = buf ++ (f <$> l).
Proof.
  revert buf. induction l as [|x l IH]; intros buf; simpl; [by rewrite app_nil_r|].
  rewrite IH. unfold push_back. by rewrite <- app_assoc.
Qed.

Lemma encode_int64_le buf v : encode_int64 buf v = buf ++ le_bytes 8 v.
Proof.
  unfold encode_int64. rewrite fold_push_back, le_bytes_shift. f_equal.
  apply list_fmap_ext. intros i x [-> _]%lookup_seqZ. apply shiftr_byte. lia.
Qed.

(** The shifts of the decoders recompute the value of those bytes. *)

Ltac byte_bounds :=
  decompose_Forall; unfold is_u, is_s in *; change (2 ^ 8) with 256 in *; simpl; lia.

Lemma decode_int16_le d0 d1 rest :
  bytes_ok [d0; d1] -> decode_int16 (d0 :: d1 :: rest) = Ret (decode_ok 2 (i16 (le_val [d0; d1]))).
Proof.
  intros Hb. unfold decode_int16. do 3 f_equal.
  rewrite (sint_small 32); [|done|rewrite Z.shiftl_mul_pow2 by lia; byte_bounds].
  rewrite lor_shiftl_add by byte_bounds. f_equal. byte_bounds.
Qed.

Lemma decode_int32_le d0 d1 d2 d3 rest :
  bytes_ok [d0; d1; d2; d3] ->
  decode_int32 (d0 :: d1 :: d2 :: d3 :: rest) = Ret (decode_ok 4 (i32 (le_val [d0; d1; d2; d3]))).
Proof.
  intros Hb. unfold decode_int32. do 2 f_equal. apply sint_eq.
  rewrite !wrap_lor, !wrap_sint, <- !wrap_lor by lia. f_equal.
  rewrite (lor_shiftl_add d0), (lor_shiftl_add _ d2), (lor_shiftl_add _ d3)
    by byte_bounds.
  byte_bounds.
Qed.

Lemma decode_int64_fold bs k a :
  0 <= k -> bytes_ok bs -> is_u (k * 8) a ->
  fold_left (fun value '(i, d) => i64 (Z.lor value (i64 (Z.shiftl d (i * 8)))))
            (zip (seqZ k (zlen bs)) bs) (i64 a)
  = i64 (a + 2 ^ (k * 8) * le_val bs).
Proof.
  intros Hk Hb. revert k a Hk. induction Hb as [|b bs Hb _ IH]; intros k a Hk Ha.
  - simpl. f_equal. lia.
  - cbn [length]. rewrite Nat2Z.inj_succ, seqZ_cons, Z.pred_succ by lia.
    cbn [zip_with fold_left]. rewrite sint_lor_l, sint_lor_r, lor_shiftl_add by (done || lia).
    rewrite IH.
    + f_equal. rewrite Z.mul_succ_l, Z.pow_add_r by lia. cbn [le_val].
      change (2 ^ 8) with 256. lia.
    + lia.
    + unfold is_u in *. rewrite Z.mul_succ_l, Z.pow_add_r by lia. nia.
Qed.

Lemma decode_int64_le data :
  bytes_ok data -> (8 <= length data)%nat ->
  decode_int64 data = Ret (decode_ok 8 (i64 (le_val (take 8 data)))).
Proof.
  intros Hb Hl. unfold decode_int64.
  rewrite (proj2 (Z.ltb_ge _ _)) by lia. do 2 f_equal.
  rewrite <- zip_with_take_r. replace (length (seqZ 0 8)) with 8%nat by done.
  assert (Hz : zlen (take 8 data) = 8) by (rewrite length_take; lia).
  pose proof (decode_int64_fold (take 8 data) 0 0) as E. rewrite Hz in E.
  change (i64 0) with 0 in E. change (2 ^ (0 * 8)) with 1 in E.
  rewrite Z.mul_1_l, Z.add_0_l in E. apply E; [done|by apply Forall_take|done].
Qed.

(** ** The promise holds for every overload *)

(** Decoders that read [n] bytes, in the form [fixed_laws] expects. *)

Lemma decode_int16_fixed data :
  bytes_ok data ->
  decode_int16 data = if decide (2 <= length data)%nat
                      then Ret (decode_ok 2 (i16 (le_val (take 2 data)))) else Ret decode_fail.
Proof.
  intros H. destruct data as [|d0 [|d1 data]]; [done..|].
  rewrite decide_True by (simpl; lia). apply decode_int16_le. by apply (Forall_take _ 2) in H.
Qed.

Lemma decode_int32_fixed data :
  bytes_ok data ->
  decode_int32 data = if decide (4 <= length data)%nat
                      then Ret (decode_ok 4 (i32 (le_val (take 4 data)))) else Ret decode_fail.
Proof.
  intros H. destruct data as [|d0 [|d1 [|d2 [|d3 data]]]]; [done..|].
  rewrite decide_True by (simpl; lia). apply decode_int32_le. by apply (Forall_take _ 4) in H.
Qed.

Lemma decode_int64_fixed data :
  bytes_ok data ->
  decode_int64 data = if decide (8 <= length data)%nat
                      then Ret (decode_ok 8 (i64 (le_val (take 8 data)))) else Ret decode_fail.
Proof.
  intros H. case_decide; [by apply decode_int64_le|].
  unfold decode_int64. by rewrite (proj2 (Z.ltb_lt _ _)) by lia.
Qed.

Lemma decode_cast_if {T U} (f : T -> U) (P : Prop) `{Decision P} n v :
  decode_cast f (if decide P then Ret (decode_ok n v) else Ret decode_fail)
  = if decide P then Ret (decode_ok n (f v)) else Undef.
Proof. by case_decide. Qed.

#[global] Instance bool_laws : CodecLaws bool_codec (fun _ => True).
Proof.
  apply (fixed_laws _ _ 1 Z.b2z (fun z => negb (z =? 0))) with (short := Ret decode_fail); try done; try lia.
  - by intros [].
  - intros [|d data] H; [done|]. simpl. by rewrite Z.add_0_r.
  - by intros [].
Qed.

#[global] Instance int8_laws : CodecLaws int8_codec (is_s 8).
Proof.
  apply (fixed_laws _ _ 1 id i8) with (short := Ret decode_fail); try done; try lia.
  - intros [|d data] H; [done|]. simpl. by rewrite Z.add_0_r.
  - intros v Hv. rewrite sint_wrap. by apply sint_small.
  - intros z _. by apply sint_is_s.
Qed.

#[global] Instance uint8_laws : CodecLaws uint8_codec (is_u 8).
Proof.
  apply (fixed_laws _ _ 1 id id) with (short := Ret decode_fail); try done; try lia.
  - intros v Hv. cbn. by rewrite Z.mod_small.
  - intros [|d data] H; [done|]. simpl. by rewrite Z.add_0_r.
  - intros v Hv. by apply wrap_small.
Qed.

Section IntegerCodecs.
Context (n : nat) (w : Z) (Hn : (0 < n)%nat) (Hw : w = 8 * Z.of_nat n).
Context (enc : list Z -> Z -> list Z) (dec : list Z -> outcome (decoded Z)).
Context (Henc : forall buf v, enc buf v = buf ++ le_bytes n v).
Context (Hdec : forall data, bytes_ok data ->
  dec data = if decide (n <= length data)%nat
             then Ret (decode_ok (Z.of_nat n) (sint w (le_val (take n data)))) else Ret decode_fail).

Lemma signed_laws : CodecLaws (mkCodec enc dec) (is_s w).
Proof.
  apply (fixed_laws _ _ n id (sint w)) with (short := Ret decode_fail); try done.
  - intros. unfold serialize. simpl. by rewrite !Henc.
  - intros. unfold serialize. simpl. by rewrite Henc.
  - intros v Hv. rewrite <- Hw, sint_wrap. apply sint_small; [lia|done].
  - intros z _. apply sint_is_s. lia.
Qed.

Lemma unsigned_laws :
  CodecLaws (mkCodec (fun buf v => enc buf (sint w v))
                     (fun data => decode_cast (wrap w) (dec data))) (is_u w).
Proof.
  apply (fixed_laws _ _ n (sint w) (fun z => wrap w (sint w z))) with (short := Undef); try done.
  - intros. unfold serialize. simpl. by rewrite !Henc.
  - intros. unfold serialize. simpl. by rewrite Henc.
  - intros data Hd. cbn [decode]. rewrite Hdec by done. apply decode_cast_if.
  - intros v Hv. rewrite <- Hw, !sint_wrap, !wrap_sint by lia. by apply wrap_small.
  - intros z _. apply wrap_is_u. lia.
Qed.
End IntegerCodecs.

#[global] Instance int16_laws : CodecLaws int16_codec (is_s 16).
Proof. by apply (signed_laws 2 16); [lia|..|apply encode_int16_le|apply decode_int16_fixed]. Qed.
#[global] Instance uint16_laws : CodecLaws uint16_codec (is_u 16).
Proof. by apply (unsigned_laws 2 16); [lia|..|apply encode_int16_le|apply decode_int16_fixed]. Qed.
#[global] Instance int32_laws : CodecLaws int32_codec (is_s 32).
Proof. by apply (signed_laws 4 32); [lia|..|apply encode_int32_le|apply decode_int32_fixed]. Qed.
#[global] Instance uint32_laws : CodecLaws uint32_codec (is_u 32).
Proof. by apply (unsigned_laws 4 32); [lia|..|apply encode_int32_le|apply decode_int32_fixed]. Qed.
#[global] Instance int64_laws : CodecLaws int64_codec (is_s 64).
Proof. by apply (signed_laws 8 64); [lia|..|apply encode_int64_le|apply decode_int64_fixed]. Qed.
#[global] Instance uint64_laws : CodecLaws uint64_codec (is_u 64).
Proof. by apply (unsigned_laws 8 64); [lia|..|apply encode_int64_le|apply decode_int64_fixed]. Qed.
#[global] Instance float_laws : CodecLaws float_codec (is_u 32) := uint32_laws.
#[global] Instance double_laws : CodecLaws double_codec (is_u 64) := uint64_laws.

(** ** The length prefix shared by strings and containers *)

Lemma encode_uint32_le buf v : encode_uint32 buf v = buf ++ le_bytes 4 (i32 v).
Proof. apply encode_int32_le. Qed.

Lemma length_prefix len : length (serialize uint32_codec len) = 4%nat.
Proof. unfold serialize. cbn [encode uint32_codec]. rewrite encode_uint32_le. apply length_le_bytes. Qed.

Lemma decode_prefix len rest :
  is_u 32 len -> bytes_ok rest ->
  decode_uint32 (serialize uint32_codec len ++ rest) = Ret (decode_ok 4 len).
Proof.
  intros H Hr. pose proof (codec_roundtrip (c := uint32_codec) len rest H Hr) as E.
  by rewrite length_prefix in E.
Qed.

(** The prefix is either missing, which is undefined, or four bytes holding a
    [uint32_t]. *)
Lemma decode_prefix_cases data :
  bytes_ok data ->
  (decode_uint32 data = Undef /\ (length data < 4)%nat) \/
  exists len, decode_uint32 data = Ret (decode_ok 4 len) /\ is_u 32 len /\ (4 <= length data)%nat /\
    forall rest, bytes_ok rest -> decode_uint32 (take 4 data ++ rest) = Ret (decode_ok 4 len).
Proof.
  intros Hd. assert (E : decode_uint32 data = if decide (4 <= length data)%nat
    then Ret (decode_ok 4 (u32 (i32 (le_val (take 4 data))))) else Undef).
  { unfold decode_uint32. rewrite decode_int32_fixed by done. apply decode_cast_if. }
  case_decide; [right|left; split; [done|lia]]. eexists. split; [exact E|]. split; [apply wrap_is_u; lia|].
  split; [done|]. intros rest Hr. by apply (codec_local (c := uint32_codec) data rest 4 _ Hd Hr E).
Qed.

(** ** Strings *)

(** A [std::string] the format can carry. *)
Definition string_valid (s : list Z) : Prop := bytes_ok s /\ is_u 32 (zlen s).

Lemma serialize_string s :
  is_u 32 (zlen s) -> serialize string_codec s = serialize uint32_codec (zlen s) ++ s.
Proof.
  intros H. unfold serialize. cbn [encode string_codec uint32_codec]. unfold encode_string.
  by rewrite (wrap_small 32).
Qed.

Lemma decode_string_prefix data len :
  is_u 32 len -> decode_uint32 data = Ret (decode_ok 4 len) ->
  decode_string data = if decide (4 + len <= zlen data)
                       then Ret (decode_ok (4 + len) (take (Z.to_nat len) (drop 4 data)))
                       else Ret decode_fail.
Proof.
  intros Hl E. unfold decode_string. rewrite E. cbn [mbind outcome_bind]. unfold decode_ok at 1.
  cbn [success bytes_read negb orb].
  rewrite wrap_small by (unfold is_u in *; lia).
  case_decide; [rewrite (proj2 (Z.ltb_ge _ _))|rewrite (proj2 (Z.ltb_lt _ _))]; (done || lia).
Qed.

#[global] Instance string_laws : CodecLaws string_codec string_valid.
Proof.
  split.
  - intros buf v. unfold serialize. cbn [encode string_codec]. unfold encode_string.
    rewrite !encode_uint32_le. by rewrite <- app_assoc.
  - intros v [Hb Hl]. rewrite serialize_string by done.
    apply Forall_app. split; [|done]. by apply codec_bytes.
  - intros v rest [Hb Hl] Hr. rewrite serialize_string by done.
    rewrite <- app_assoc. cbn [decode string_codec].
    rewrite (decode_string_prefix _ (zlen v));
      [|done|by apply decode_prefix; [|apply Forall_app]].
    rewrite decide_True by (rewrite !length_app, length_prefix; lia).
    rewrite length_app, length_prefix, Nat2Z.id, Nat2Z.inj_add.
    rewrite drop_app_length' by by rewrite length_prefix.
    by rewrite take_app_length.
  - intros data Hd. cbn [decode string_codec].
    destruct (decode_prefix_cases data Hd) as [[E _]|(len & E & Hl & ? & _)].
    { left. unfold decode_string. by rewrite E. }
    rewrite (decode_string_prefix _ len) by done. case_decide; [right|by left].
    do 2 eexists. split; [done|]. unfold is_u in Hl. split; [lia|]. split.
    + by apply Forall_take, Forall_drop.
    + rewrite length_take, length_drop. unfold is_u. lia.
  - intros data rest n v Hd Hr. cbn [decode string_codec].
    destruct (decode_prefix_cases data Hd) as [[E _]|(len & E & Hl & ? & Hloc)].
    { unfold decode_string. by rewrite E. }
    rewrite (decode_string_prefix _ len) by done. case_decide; [|done].
    intros [= <- <-]. unfold is_u in Hl.
    replace (Z.to_nat (4 + len)) with (4 + Z.to_nat len)%nat by lia.
    rewrite take_plus, <- app_assoc. set (t := take (Z.to_nat len) (drop 4 data)).
    assert (Ht : length t = Z.to_nat len) by (unfold t; rewrite length_take, length_drop; lia).
    rewrite (decode_string_prefix _ len); [|done|].
    + rewrite decide_True by (rewrite !length_app, length_take; lia).
      rewrite drop_app_length' by (rewrite length_take; lia).
      by rewrite take_app_length' by done.
    + apply Hloc, Forall_app. split; [|done]. by apply Forall_take, Forall_drop.
Qed.

(** ** Vectors *)

Section VectorCodec.
Context {T : Type} (alloc : Z -> bool) (c : Codec T) (valid : T -> Prop) `{Hc : !CodecLaws c valid}.

(** A [std::vector] the format can carry and the decoder finds memory for. *)
Definition vector_valid (l : list T) : Prop := Forall valid l /\ is_u 32 (zlen l) /\ alloc (zlen l) = true.

Lemma fold_encode l buf : fold_left (encode c) l buf = buf ++ concat (serialize c <$> l).
Proof.
  revert buf. induction l as [|x l IH]; intros buf; simpl; [by rewrite app_nil_r|].
  rewrite IH, codec_app. by rewrite <- app_assoc.
Qed.

Lemma serialize_vector l :
  is_u 32 (zlen l) ->
  serialize (vector_codec alloc c) l = serialize uint32_codec (zlen l) ++ concat (serialize c <$> l).
Proof.
  intros H. unfold serialize at 1. cbn [encode vector_codec]. unfold encode_vector.
  rewrite fold_encode. by rewrite (wrap_small 32).
Qed.

Lemma concat_bytes l : Forall valid l -> bytes_ok (concat (serialize c <$> l)).
Proof. induction 1; simpl; [done|]. apply Forall_app. eauto using codec_bytes. Qed.

(** The loop over a serialized list reads exactly that list. *)
Lemma decode_items_roundtrip l pre rest acc :
  bytes_ok rest -> Forall valid l ->
  decode_items (decode c) (length l) (pre ++ concat (serialize c <$> l) ++ rest) (zlen pre) acc
  = Ret (decode_ok (zlen pre + zlen (concat (serialize c <$> l))) (acc ++ l)).
Proof.
  intros Hr Hl. revert pre acc. induction Hl as [|x l Hx Hl IH]; intros pre acc.
  - simpl. by rewrite Z.add_0_r, app_nil_r.
  - cbn [length decode_items]. rewrite fmap_cons. cbn [concat].
    rewrite Nat2Z.id, drop_app_length, <- app_assoc.
    rewrite codec_roundtrip by (done || apply Forall_app; eauto using concat_bytes).
    cbn [mbind outcome_bind decode_ok fst snd success bytes_read].
    rewrite <- Nat2Z.inj_add, <- length_app, app_assoc, IH.
    unfold push_back. rewrite <- !app_assoc, !length_app. do 2 f_equal. lia.
Qed.

(** The loop stores a value or it does not. *)
Lemma decode_items_shape i data off acc :
  bytes_ok data ->
  no_value (decode_items (decode c) i data off acc) \/
  exists n l, decode_items (decode c) i data off acc = Ret (decode_ok n l).
Proof.
  intros Hd. revert off acc. induction i as [|i IH]; intros off acc; cbn [decode_items]; [eauto|].
  destruct (codec_decode (c := c) (drop (Z.to_nat off) data)) as [Hn|(m & v & -> & _)]; [by apply Forall_drop| |apply IH].
  left. destruct (decode c _) as [d| |]; [|done..]. by rewrite Hn.
Qed.

(** What a successful loop says of its input. *)
Lemma decode_items_inv i data off acc n l :
  bytes_ok data -> 0 <= off <= zlen data ->
  decode_items (decode c) i data off acc = Ret (decode_ok n l) ->
  off <= n <= zlen data /\
  (exists items, l = acc ++ items /\ length items = i /\ Forall valid items) /\
  (forall rest, bytes_ok rest ->
     decode_items (decode c) i (take (Z.to_nat n) data ++ rest) off acc = Ret (decode_ok n l)).
Proof.
  intros Hd. revert off acc. induction i as [|i IH]; intros off acc Hoff; cbn [decode_items].
  { intros [= <- <-]. split; [lia|]. split; [exists []; by rewrite app_nil_r|done]. }
  destruct (codec_decode (c := c) (drop (Z.to_nat off) data)) as [Hn|(m & v & E & Hm & Hv)];
    [by apply Forall_drop|destruct (decode c _) as [d| |]; [by rewrite Hn|done..]|].
  rewrite E. cbn [mbind outcome_bind decode_ok fst snd success bytes_read]. rewrite length_drop in Hm.
  intros Hrest. apply IH in Hrest as (Hn & (items & -> & Hlen & Hval) & Hloc); [|lia].
  split; [lia|]. split.
  { exists (v :: items). unfold push_back. rewrite <- app_assoc. simpl. auto. }
  intros rest Hr.
  replace (Z.to_nat n) with (Z.to_nat off + Z.to_nat m + Z.to_nat (n - off - m))%nat at 1 by lia.
  rewrite drop_take_tail by lia.
  rewrite (codec_local (c := c) (drop (Z.to_nat off) data) _ m v); [|by apply Forall_drop| |done].
  - by apply Hloc.
  - apply Forall_app. split; [|done]. by apply Forall_take, Forall_drop.
Qed.

#[global] Instance vector_laws : CodecLaws (vector_codec alloc c) vector_valid.
Proof.
  split.
  - intros buf v. unfold serialize. cbn [encode vector_codec]. unfold encode_vector.
    rewrite !fold_encode, !encode_uint32_le. by rewrite <- app_assoc.
  - intros v (Hb & Hl & _). rewrite serialize_vector by done. apply Forall_app.
    split; [by apply codec_bytes|by apply concat_bytes].
  - intros v rest (Hb & Hl & Ha) Hr. rewrite serialize_vector by done. rewrite <- app_assoc.
    cbn [decode vector_codec]. unfold decode_vector.
    rewrite decode_prefix by (done || apply Forall_app; auto using concat_bytes).
    cbn [mbind outcome_bind decode_ok fst snd success bytes_read]. rewrite Ha.
    rewrite Nat2Z.id. change 4 with (Z.of_nat 4). rewrite <- (length_prefix (zlen v)) at 1.
    rewrite decode_items_roundtrip by done. by rewrite length_app, Nat2Z.inj_add.
  - intros data Hd. cbn [decode vector_codec]. unfold decode_vector.
    destruct (decode_prefix_cases data Hd) as [[-> _]|(len & -> & Hl & Hlen & _)]; [by left|].
    cbn [mbind outcome_bind decode_ok fst snd success bytes_read]. destruct (alloc len) eqn:Ha; [|by left].
    destruct (decode_items_shape (Z.to_nat len) data 4 [] Hd) as [?|(n & l & E)]; [by left|].
    right. exists n, l. split; [done|].
    apply decode_items_inv in E as (Hn & (items & -> & Hi & Hv) & _); [|done|lia].
    assert (Hz : zlen items = len) by (unfold is_u in *; lia).
    split; [lia|]. split; [done|]. simpl. by rewrite Hz.
  - intros data rest n v Hd Hr. cbn [decode vector_codec]. unfold decode_vector.
    destruct (decode_prefix_cases data Hd) as [[-> _]|(len & -> & Hl & Hlen & Hloc)]; [done|].
    cbn [mbind outcome_bind decode_ok fst snd success bytes_read]. destruct (alloc len) eqn:Ha; [|done]. intros E.
    apply decode_items_inv in E as (Hn & _ & E); [|done|lia].
    replace (take (Z.to_nat n) data ++ rest)
      with (take 4 data ++ take (Z.to_nat (n - 4)) (drop 4 data) ++ rest).
    2:{ rewrite app_assoc, <- take_plus. do 2 f_equal. lia. }
    rewrite Hloc by (apply Forall_app; split; [|done]; by apply Forall_take, Forall_drop).
    cbn [mbind outcome_bind decode_ok fst snd success bytes_read]. rewrite Ha.
    rewrite app_assoc, <- take_plus. replace (4 + Z.to_nat (n - 4))%nat with (Z.to_nat n) by lia.
    by apply E.
Qed.
End VectorCodec.

(** ** All the types the serializer handles *)

(** The closed universe of types the overload set resolves: the scalars,
    [std::string] and [std::vector] of any of them, nested at will. *)
Inductive ctype :=
| TBool | TInt8 | TUint8 | TInt16 | TUint16 | TInt32 | TUint32 | TInt64 | TUint64
| TFloat | TDouble | TString | TVector (t : ctype).

Fixpoint denote (t : ctype) : Type :=
  match t with
  | TBool => bool
  | TString => list Z
  | TVector t => list (denote t)
  | _ => Z
  end.

Section Universe.
(** [alloc t n]: there is memory for a vector of [n] elements of type [t]. *)
Context (alloc : ctype -> Z -> bool).

Fixpoint codec_of (t : ctype) : Codec (denote t) :=
  match t with
  | TBool => bool_codec
  | TInt8 => int8_codec | TUint8 => uint8_codec
  | TInt16 => int16_codec | TUint16 => uint16_codec
  | TInt32 => int32_codec | TUint32 => uint32_codec
  | TInt64 => int64_codec | TUint64 => uint64_codec
  | TFloat => float_codec | TDouble => double_codec
  | TString => string_codec
  | TVector t => vector_codec (alloc t) (codec_of t)
  end.

Fixpoint valid_of (t : ctype) : denote t -> Prop :=
  match t with
  | TBool => fun _ => True
  | TInt8 => is_s 8 | TUint8 => is_u 8
  | TInt16 => is_s 16 | TUint16 => is_u 16
  | TInt32 => is_s 32 | TUint32 => is_u 32
  | TInt64 => is_s 64 | TUint64 => is_u 64
  | TFloat => is_u 32 | TDouble => is_u 64
  | TString => string_valid
  | TVector t => vector_valid (alloc t) (valid_of t)
  end.

#[global] Instance codec_of_laws t : CodecLaws (codec_of t) (valid_of t).
Proof. induction t; cbn; apply _. Qed.

Lemma deserialize_serialize {T} (c : Codec T) valid `{!CodecLaws c valid} v rest :
  valid v -> bytes_ok rest -> deserialize c (serialize c v ++ rest) = Ret (true, Some v).
Proof. intros. unfold deserialize. by rewrite codec_roundtrip. Qed.

(** A decoder that succeeds on a prefix gives the same answer on the whole. *)
Lemma decode_prefix_stable {T} (c : Codec T) valid `{!CodecLaws c valid} data k n v :
  bytes_ok data -> decode c (take k data) = Ret (decode_ok n v) ->
  decode c data = Ret (decode_ok n v) /\ n <= Z.of_nat k.
Proof.
  intros Hd E. assert (Hk : bytes_ok (take k data)) by by apply Forall_take.
  destruct (codec_decode (c := c) _ Hk) as [E'|(n' & v' & E' & Hn & _)];
    rewrite E in E'; [done|]. injection E' as <- <-. rewrite length_take in Hn.
  split; [|lia].
  rewrite <- (take_drop (Z.to_nat n) data).
  replace (take (Z.to_nat n) data) with (take (Z.to_nat n) (take k data))
    by (rewrite take_take; f_equal; lia).
  apply (codec_local (c := c)); [done|by apply Forall_drop|done].
Qed.

(** C1: for every type the serializer supports, [deserialize] applied to the
    bytes [serialize] wrote, followed by anything else, succeeds, gives back
    the value, and reports having consumed exactly the serialized bytes; memory
    for the value's vectors is granted. *)
Theorem serializer_roundtrip t (v : denote t) rest :
  valid_of t v -> bytes_ok rest ->
  deserialize (codec_of t) (serialize (codec_of t) v ++ rest) = Ret (true, Some v) /\
  decode (codec_of t) (serialize (codec_of t) v ++ rest) = Ret (decode_ok (zlen (serialize (codec_of t) v)) v).
Proof.
  intros Hv Hr. split; [by eapply deserialize_serialize; [apply _|..]|].
  by rewrite codec_roundtrip.
Qed.

(** ** Arbitrary input *)

(** No decoder the type needs reads a local the decoder below it left alone. *)
Definition checked (t : ctype) : bool :=
  match t with TBool | TInt8 | TUint8 | TInt16 | TInt32 | TInt64 => true | _ => false end.

(** A length for which some vector in the type has no memory. *)
Fixpoint refuses (t : ctype) : Prop :=
  match t with
  | TVector t => (exists len, is_u 32 len /\ alloc t len = false) \/ refuses t
  | _ => False
  end.

(** How decoding [t] can end without an answer. *)
Definition ends_as {T} (t : ctype) (o : outcome (decoded T)) : Prop :=
  match o with
  | Ret _ => True
  | Throw w => w = "std::bad_alloc"%string /\ refuses t
  | Undef => checked t = false
  end.

Lemma decode_items_ends {T} (dec : list Z -> outcome (decoded T)) t i : forall data off acc,
  (forall data, bytes_ok data -> ends_as t (dec data)) -> bytes_ok data ->
  ends_as (TVector t) (decode_items dec i data off acc).
Proof.
  induction i as [|i IH]; intros data off acc H Hd; cbn [decode_items]; [done|].
  specialize (H (drop (Z.to_nat off) data) ltac:(by apply Forall_drop)) as Hx.
  destruct (dec _) as [[r [v|]]|w|]; cbn [mbind outcome_bind]; [|done| |done].
  - destruct (success r); [by apply IH|done].
  - destruct Hx. split; [done|by right].
Qed.

Lemma decode_ends t : forall data, bytes_ok data -> ends_as t (decode (codec_of t) data).
Proof.
  assert (Hs : forall (o : outcome (decoded Z)) t f, checked t = false -> (exists d, o = Ret d) ->
            ends_as t (decode_cast (U := Z) f o)) by (by intros o t' f Ht [[r [v|]] ->]).
  assert (H2 : forall data, exists d, decode_int16 data = Ret d) by (intros [|? [|? ?]]; by eexists).
  assert (H4 : forall data, exists d, decode_int32 data = Ret d) by (intros [|? [|? [|? [|? ?]]]]; by eexists).
  assert (H8 : forall data, exists d, decode_int64 data = Ret d) by (intros d; unfold decode_int64; destruct (_ <? _); by eexists).
  induction t as [| | | | | | | | | | | |t IH]; intros data Hd; cbn [codec_of decode bool_codec int8_codec uint8_codec int16_codec
    uint16_codec int32_codec uint32_codec int64_codec uint64_codec float_codec double_codec string_codec vector_codec];
    try (by apply Hs); try (by destruct data).
  1: by destruct (H2 data) as [d ->].
  1: by destruct (H4 data) as [d ->].
  1: by destruct (H8 data) as [d ->].
  - destruct (decode_prefix_cases data Hd) as [[E _]|(len & E & Hl & _)]; [unfold decode_string; by rewrite E|].
    rewrite (decode_string_prefix data len) by done. by case_decide.
  - unfold decode_vector. destruct (decode_prefix_cases data Hd) as [[-> _]|(len & -> & Hl & _)]; [done|].
    cbn [mbind outcome_bind decode_ok fst snd success bytes_read]. destruct (alloc t len) eqn:Ha.
    + by apply decode_items_ends.
    + split; [done|]. left. by exists len.
Qed.

Lemma checked_false_nil t : checked t = false -> decode (codec_of t) [] = Undef.
Proof. by destruct t. Qed.

(** C16: on arbitrary input bytes a decoder either fails, reading nothing, or
    succeeds with a value of the C++ type read from a nonempty part of the
    input, and then it depends on no byte past the ones it reports; or it throws
    [bad_alloc], if there is a length for which the memory of a vector is refused,
    or it is undefined, which some input makes every type that has an unsigned
    integer of several bytes, a float or a length in it. *)
Theorem serializer_decode_safe t data :
  bytes_ok data ->
  match decode (codec_of t) data with
  | Ret (r, Some v) =>
      success r = true /\ 0 < bytes_read r <= zlen data /\ valid_of t v /\
      forall rest, bytes_ok rest ->
        decode (codec_of t) (take (Z.to_nat (bytes_read r)) data ++ rest) = Ret (r, Some v)
  | Ret (r, None) => r = mkDecodeResult 0 false
  | Throw w => w = "std::bad_alloc"%string /\ refuses t
  | Undef => checked t = false
  end /\
  (checked t = false -> exists data, bytes_ok data /\ decode (codec_of t) data = Undef).
Proof.
  intros Hd. split; [|intros Hc; exists []; split; [constructor|by apply checked_false_nil]].
  pose proof (decode_ends t data Hd) as He.
  destruct (codec_decode (c := codec_of t) data Hd) as [Hn|(n & v & E & ? & ?)].
  - destruct (decode (codec_of t) data) as [d| |]; [|done..]. simpl in Hn. by subst d.
  - rewrite E. split_and!; [done|simpl; lia..|done|]. intros rest Hr. by apply codec_local.
Qed.

(** Four bytes make the decoder of a vector throw, whatever follows: it asks for
    the memory of as many elements as they say before it looks at any. *)
Theorem hostile_length_throws t len rest :
  is_u 32 len -> bytes_ok rest -> alloc t len = false ->
  decode (codec_of (TVector t)) (serialize uint32_codec len ++ rest) = Throw "std::bad_alloc".
Proof.
  intros Hl Hr Ha. cbn [codec_of decode vector_codec]. unfold decode_vector. rewrite decode_prefix by done.
  cbn [mbind outcome_bind decode_ok success]. by rewrite Ha.
Qed.

(** A truncated encoding never decodes: on no strict prefix of the bytes of a
    value does the decoder give a value. *)
Theorem serializer_truncated t (v : denote t) k :
  valid_of t v -> (k < length (serialize (codec_of t) v))%nat ->
  no_value (decode (codec_of t) (take k (serialize (codec_of t) v))).
Proof.
  intros Hv Hk. pose proof (codec_bytes (c := codec_of t) v Hv) as Hb.
  destruct (codec_decode (c := codec_of t) (take k (serialize (codec_of t) v)))
    as [?|(n & v' & E & _)]; [by apply Forall_take|done|].
  apply (decode_prefix_stable (codec_of t) (valid_of t)) in E as [E ?]; [|done].
  pose proof (codec_roundtrip (c := codec_of t) v [] Hv (Forall_nil_2 _)) as R.
  rewrite app_nil_r, E in R. injection R as -> _. lia.
Qed.
End Universe.

(** Memory for every vector, and for vectors of up to a million elements. *)
Definition ample (t : ctype) (n : Z) : bool := true.
Definition scarce (t : ctype) (n : Z) : bool := n <=? 1000000.

Lemma serializer_roundtrip_witness :
  let v : denote (TVector TString) := [bytes_of_string "Hello"; []; [255; 0]] in
  deserialize (codec_of ample (TVector TString)) (serialize (codec_of ample (TVector TString)) v ++ [7])
    = Ret (true, Some v).
Proof. apply serializer_roundtrip; compute_done. Defined.

Lemma serializer_decode_safe_witness :
  let data := [2; 0; 0; 0; 9; 8; 7] in
  match decode (codec_of ample (TVector TUint8)) data with
  | Ret (r, Some v) => bytes_read r = 6 /\ v = [9; 8] /\
      forall rest, bytes_ok rest -> decode (codec_of ample (TVector TUint8)) (take 6 data ++ rest) = Ret (r, Some v)
  | _ => False
  end.
Proof.
  intros data. destruct (serializer_decode_safe ample (TVector TUint8) data ltac:(compute_done)) as [H _].
  vm_compute in H |- *. split; [done|]. split; [done|]. apply H.
Defined.

Lemma hostile_length_throws_witness :
  decode (codec_of scarce (TVector TInt32)) [255; 255; 255; 255] = Throw "std::bad_alloc".
Proof. apply (hostile_length_throws scarce TInt32 (2 ^ 32 - 1) []); compute_done. Defined.

Lemma serializer_truncated_witness :
  no_value (decode (codec_of ample TString) (take 5 (serialize (codec_of ample TString) (bytes_of_string "abc")))).
Proof. apply (serializer_truncated ample TString); compute_done. Defined.

(** ** Maps: an encoder without a decoder *)

(** Codes are prefix-free: a byte stream determines its first value. *)
Lemma codec_prefix_free {T} (c : Codec T) valid `{!CodecLaws c valid} v1 v2 r1 r2 :
  valid v1 -> valid v2 -> bytes_ok r1 -> bytes_ok r2 ->
  serialize c v1 ++ r1 = serialize c v2 ++ r2 -> v1 = v2 /\ r1 = r2.
Proof.
  intros H1 H2 Hr1 Hr2 E.
  pose proof (codec_roundtrip v1 r1 H1 Hr1) as R1. rewrite E in R1.
  rewrite codec_roundtrip in R1 by done. injection R1 as _ ->.
  split; [done|]. by apply app_inv_head in E.
Qed.

Section MapEncoding.
Context {K V : Type} (ck : Codec K) (cv : Codec V) (validk : K -> Prop) (validv : V -> Prop).
Context `{!CodecLaws ck validk, !CodecLaws cv validv}.

Definition entry_bytes (e : K * V) : list Z := serialize ck e.1 ++ serialize cv e.2.
Definition map_valid (m : list (K * V)) : Prop :=
  Forall (fun e => validk e.1 /\ validv e.2) m /\ is_u 32 (zlen m).

Lemma encode_map_bytes m buf :
  is_u 32 (zlen m) ->
  encode_map (encode ck) (encode cv) buf m
  = buf ++ serialize uint32_codec (zlen m) ++ concat (entry_bytes <$> m).
Proof.
  intros H. unfold encode_map. rewrite (wrap_small 32), (codec_app (c := uint32_codec)), app_assoc by done.
  generalize (buf ++ serialize uint32_codec (zlen m)). clear H.
  induction m as [|[k v] m IH]; intros b; simpl; [by rewrite app_nil_r|].
  rewrite IH, (codec_app (c := cv)), (codec_app (c := ck)). unfold entry_bytes.
  by rewrite <- !app_assoc.
Qed.

Lemma entries_bytes_ok m :
  Forall (fun e => validk e.1 /\ validv e.2) m -> bytes_ok (concat (entry_bytes <$> m)).
Proof.
  induction 1 as [|e m [? ?] _ IH]; simpl; [done|].
  unfold entry_bytes. rewrite !Forall_app. eauto using codec_bytes.
Qed.

Lemma entries_prefix_free m1 : forall m2 r1 r2,
  Forall (fun e => validk e.1 /\ validv e.2) m1 ->
  Forall (fun e => validk e.1 /\ validv e.2) m2 ->
  length m1 = length m2 -> bytes_ok r1 -> bytes_ok r2 ->
  concat (entry_bytes <$> m1) ++ r1 = concat (entry_bytes <$> m2) ++ r2 ->
  m1 = m2 /\ r1 = r2.
Proof.
  induction m1 as [|[k1 v1] m1 IH]; intros [|[k2 v2] m2] r1 r2 H1 H2 Hlen Hr1 Hr2 E;
    simplify_eq/=; [done|].
  apply Forall_cons in H1 as [[Hk1 Hv1] Hm1]. apply Forall_cons in H2 as [[Hk2 Hv2] Hm2].
  unfold entry_bytes at 1 3 in E. simpl in E. rewrite <- !app_assoc in E.
  apply (codec_prefix_free ck validk) in E as [-> E]; simpl; [|done|done|..];
    try (rewrite !Forall_app; eauto using codec_bytes, entries_bytes_ok).
  apply (codec_prefix_free cv validv) in E as [-> E]; simpl; [|done|done|..];
    try (rewrite !Forall_app; eauto using codec_bytes, entries_bytes_ok).
  apply IH in E as [-> ->]; auto.
Qed.

(** The [std::map] encoding is unambiguous although the serializer has no
    decoder for it: two maps whose encodings start the same byte stream are
    equal, and so is what follows them. *)
Theorem encode_map_unambiguous m1 m2 r1 r2 :
  map_valid m1 -> map_valid m2 -> bytes_ok r1 -> bytes_ok r2 ->
  encode_map (encode ck) (encode cv) [] m1 ++ r1
    = encode_map (encode ck) (encode cv) [] m2 ++ r2 ->
  m1 = m2 /\ r1 = r2.
Proof.
  intros [H1 L1] [H2 L2] Hr1 Hr2 E.
  rewrite !encode_map_bytes, !app_nil_l, <- !app_assoc in E by done.
  apply (codec_prefix_free uint32_codec (is_u 32)) in E as [Hlen E]; [|done|done|..];
    try (apply Forall_app; auto using entries_bytes_ok).
  apply entries_prefix_free in E; auto. lia.
Qed.
End MapEncoding.

Lemma encode_map_unambiguous_witness :
  let m := [(bytes_of_string "a", 1); (bytes_of_string "b", 2)] in
  m = m /\ [5] = [5].
Proof.
  apply (encode_map_unambiguous string_codec int32_codec string_valid (is_s 32));
    try compute_done; reflexivity.
Defined.
