(* ===== verification/Protocol.v ===== *)
(** * rpc/protocol.hpp: the wire protocol

    [ProtocolHeader], [RequestMeta] and [ResponseMeta] are records with the
    source's fields; [std::memcpy] to and from them is their object
    representation ([*_bytes], [*_of_bytes]), padding included.
    [RpcMessage_serialize] and [RpcMessage_deserialize] follow the two member
    functions statement by statement; every read goes through [read_at], so a
    read past the allocation is [Undef]. *)

From Stdlib Require Import ZArith Lia.
From S2P Require Import Prelude.

(** ** Enumerations *)

(** [enum class MessageType : uint8_t]: any 8-bit value is a value of the type. *)
Inductive MessageType :=
| Request | Response | Heartbeat | Error | Stream | StreamEnd
| MessageType_other (v : Z).

Definition MessageType_to_u8 (t : MessageType) : Z :=
  match t with
  | Request => 0 | Response => 1 | Heartbeat => 2 | Error => 3 | Stream => 4 | StreamEnd => 5
  | MessageType_other v => v
  end.

Definition MessageType_of_u8 (v : Z) : MessageType :=
  if v =? 0 then Request else if v =? 1 then Response else if v =? 2 then Heartbeat
  else if v =? 3 then Error else if v =? 4 then Stream else if v =? 5 then StreamEnd
  else MessageType_other v.

(** [enum class ErrorCode : int32_t]: the underlying value with its enumerators. *)
Module ErrorCode.
Definition OK : Z := 0.
Definition Unknown : Z := -1.
Definition InvalidRequest : Z := -2.
Definition ServiceNotFound : Z := -3.
Definition MethodNotFound : Z := -4.
Definition SerializationError : Z := -5.
Definition Timeout : Z := -6.
Definition ConnectionError : Z := -7.
Definition ServerBusy : Z := -8.
End ErrorCode.

(** ** [struct ProtocolHeader] *)

Record ProtocolHeader := mkHeader {
  magic : Z;        (* uint16_t *)
  version : Z;      (* uint8_t *)
  type_ : Z;        (* uint8_t *)
  meta_len : Z;     (* uint32_t *)
  payload_len : Z;  (* uint32_t *)
  reserved : Z;     (* uint32_t *)
}.

Definition kMagic : Z := 0x5250.
Definition kVersion : Z := 1.

(** [ProtocolHeader header_{}] *)
Definition header_zero : ProtocolHeader := mkHeader 0 0 0 0 0 0.

Definition header_valid (h : ProtocolHeader) : bool := magic h =? kMagic.

Definition header_init (t : MessageType) : ProtocolHeader :=
  mkHeader kMagic kVersion (MessageType_to_u8 t) 0 0 0.

Definition sizeof_ProtocolHeader : Z := 16.

Definition header_bytes (h : ProtocolHeader) : list Z :=
  le_bytes 2 (magic h) ++ le_bytes 1 (version h) ++ le_bytes 1 (type_ h) ++
  le_bytes 4 (meta_len h) ++ le_bytes 4 (payload_len h) ++ le_bytes 4 (reserved h).

(** A field of an object representation. *)
Definition field (bs : list Z) (off n : nat) : Z := le_val (take n (drop off bs)).

Definition header_of_bytes (bs : list Z) : ProtocolHeader :=
  mkHeader (field bs 0 2) (field bs 2 1) (field bs 3 1) (field bs 4 4) (field bs 8 4) (field bs 12 4).

(** ** [struct RequestMeta]: 28 bytes of members, padded to the alignment of [uint64_t] *)

Record RequestMeta := mkRequestMeta {
  rq_request_id : Z;   (* uint64_t *)
  rq_timestamp : Z;    (* uint64_t *)
  rq_timeout_ms : Z;   (* uint32_t *)
  rq_service_len : Z;  (* uint32_t *)
  rq_method_len : Z;   (* uint32_t *)
}.

Definition sizeof_RequestMeta : Z := 32.

(** [pad]: the four padding bytes, whose value the language leaves open. *)
Definition request_meta_bytes (pad : list Z) (m : RequestMeta) : list Z :=
  le_bytes 8 (rq_request_id m) ++ le_bytes 8 (rq_timestamp m) ++ le_bytes 4 (rq_timeout_ms m) ++
  le_bytes 4 (rq_service_len m) ++ le_bytes 4 (rq_method_len m) ++ pad.

Definition request_meta_of_bytes (bs : list Z) : RequestMeta :=
  mkRequestMeta (field bs 0 8) (field bs 8 8) (field bs 16 4) (field bs 20 4) (field bs 24 4).

(** ** [struct ResponseMeta] *)

Record ResponseMeta := mkResponseMeta {
  rs_request_id : Z;  (* uint64_t *)
  rs_error_code : Z;  (* int32_t *)
  rs_error_len : Z;   (* uint32_t *)
}.

Definition sizeof_ResponseMeta : Z := 16.

Definition response_meta_bytes (m : ResponseMeta) : list Z :=
  le_bytes 8 (rs_request_id m) ++ le_bytes 4 (rs_error_code m) ++ le_bytes 4 (rs_error_len m).

Definition response_meta_of_bytes (bs : list Z) : ResponseMeta :=
  mkResponseMeta (field bs 0 8) (i32 (field bs 8 4)) (field bs 12 4).

(** ** [class RpcMessage] *)

Record RpcMessage := mkMessage {
  header_ : ProtocolHeader;
  request_id_ : Z;
  service_ : list Z;
  method_ : list Z;
  payload_ : list Z;
  error_code_ : Z;
  error_message_ : list Z;
  timeout_ms_ : Z;
  timestamp_ : Z;
}.

(** [RpcMessage() = default] *)
Definition RpcMessage_new : RpcMessage :=
  mkMessage header_zero 0 [] [] [] ErrorCode.OK [] 30000 0.

Definition message_type (m : RpcMessage) : MessageType := MessageType_of_u8 (type_ (header_ m)).

Definition RpcMessage_valid (m : RpcMessage) : bool := header_valid (header_ m).

Definition total_size (m : RpcMessage) : Z :=
  u64 (sizeof_ProtocolHeader + meta_len (header_ m) + payload_len (header_ m)).

(** [now] is the microsecond count of [steady_clock::now()]. *)
Definition create_request (now request_id : Z) (service method payload : list Z)
    (timeout_ms : Z) : RpcMessage :=
  mkMessage (header_init Request) request_id service method payload ErrorCode.OK [] timeout_ms (u64 now).

Definition create_response (request_id : Z) (payload : list Z) (error : Z) : RpcMessage :=
  mkMessage (header_init Response) request_id [] [] payload error [] 30000 0.

Definition create_error (request_id : Z) (error : Z) (message : list Z) : RpcMessage :=
  mkMessage (header_init Response) request_id [] [] [] error message 30000 0.

Definition is_request (t : MessageType) : bool :=
  match t with Request => true | _ => false end.
Definition is_response (t : MessageType) : bool :=
  match t with Response => true | _ => false end.

(** The size computation at the top of [serialize]. *)
Definition meta_size (m : RpcMessage) : Z :=
  if is_request (message_type m)
  then sizeof_RequestMeta + zlen (service_ m) + zlen (method_ m)
  else sizeof_ResponseMeta + zlen (error_message_ m).

Definition header_with_lens (h : ProtocolHeader) (ml pl : Z) : ProtocolHeader :=
  mkHeader (magic h) (version h) (type_ h) ml pl (reserved h).

(** [RpcMessage::serialize]: [buffer.resize(total)], then one [memcpy] per
    part at the moving [ptr]; a copy past the buffer would be [Undef]. *)
Definition write_meta (pad : list Z) (m : RpcMessage) (buffer : list Z) (ptr : Z)
  : outcome (list Z * Z) :=
  if is_request (message_type m) then
    let meta := mkRequestMeta (request_id_ m) (timestamp_ m) (timeout_ms_ m)
                  (u32 (zlen (service_ m))) (u32 (zlen (method_ m))) in
    let* buffer := write_at buffer ptr (request_meta_bytes pad meta) in
    let ptr := ptr + sizeof_RequestMeta in
    let* buffer := write_at buffer ptr (service_ m) in
    let ptr := ptr + zlen (service_ m) in
    let* buffer := write_at buffer ptr (method_ m) in
    Ret (buffer, ptr + zlen (method_ m))
  else
    let meta := mkResponseMeta (request_id_ m) (error_code_ m) (u32 (zlen (error_message_ m))) in
    let* buffer := write_at buffer ptr (response_meta_bytes meta) in
    let ptr := ptr + sizeof_ResponseMeta in
    if negb (bool_decide (error_message_ m = [])) then
      let* buffer := write_at buffer ptr (error_message_ m) in
      Ret (buffer, ptr + zlen (error_message_ m))
    else Ret (buffer, ptr).

Definition RpcMessage_serialize (pad : list Z) (m : RpcMessage) : outcome (list Z) :=
  let total := sizeof_ProtocolHeader + meta_size m + zlen (payload_ m) in
  let buffer := resize [] total in
  let header := header_with_lens (header_ m) (u32 (meta_size m)) (u32 (zlen (payload_ m))) in
  let* buffer := write_at buffer 0 (header_bytes header) in
  let* r := write_meta pad m buffer sizeof_ProtocolHeader in
  let '(buffer, ptr) := r in
  if negb (bool_decide (payload_ m = []))
  then write_at buffer ptr (payload_ m)
  else Ret buffer.

(** The state [deserialize] leaves in [msg] as it fills it. *)
Definition set_header (m : RpcMessage) (h : ProtocolHeader) : RpcMessage :=
  mkMessage h (request_id_ m) (service_ m) (method_ m) (payload_ m) (error_code_ m)
            (error_message_ m) (timeout_ms_ m) (timestamp_ m).
Definition set_request (m : RpcMessage) (q : RequestMeta) (service method : list Z) : RpcMessage :=
  mkMessage (header_ m) (rq_request_id q) service method (payload_ m) (error_code_ m)
            (error_message_ m) (rq_timeout_ms q) (rq_timestamp q).
Definition set_response (m : RpcMessage) (r : ResponseMeta) (error_message : list Z) : RpcMessage :=
  mkMessage (header_ m) (rs_request_id r) (service_ m) (method_ m) (payload_ m)
            (rs_error_code r) error_message (timeout_ms_ m) (timestamp_ m).
Definition set_payload (m : RpcMessage) (payload : list Z) : RpcMessage :=
  mkMessage (header_ m) (request_id_ m) (service_ m) (method_ m) payload (error_code_ m)
            (error_message_ m) (timeout_ms_ m) (timestamp_ m).

(** [RpcMessage::deserialize(data, size, msg)].  [mem]: the bytes from [data]
    to the end of its allocation ([size] may be less: the server passes a
    reused buffer).  The answer is the returned [bool] and [msg] afterwards;
    [ptr] is the offset of the read pointer from [data]. *)
Definition read_meta (mem : list Z) (m : RpcMessage) : outcome (RpcMessage * Z) :=
  let ptr := sizeof_ProtocolHeader in
  if is_request (message_type m) then
    let* bs := read_at mem ptr sizeof_RequestMeta in
    let q := request_meta_of_bytes bs in
    let ptr := ptr + sizeof_RequestMeta in
    let* service := read_at mem ptr (rq_service_len q) in
    let ptr := ptr + rq_service_len q in
    let* method := read_at mem ptr (rq_method_len q) in
    Ret (set_request m q service method, ptr + rq_method_len q)
  else if is_response (message_type m) then
    let* bs := read_at mem ptr sizeof_ResponseMeta in
    let r := response_meta_of_bytes bs in
    let ptr := ptr + sizeof_ResponseMeta in
    if 0 <? rs_error_len r then
      let* message := read_at mem ptr (rs_error_len r) in
      Ret (set_response m r message, ptr + rs_error_len r)
    else Ret (set_response m r (error_message_ m), ptr)
  else Ret (m, ptr).

Definition RpcMessage_deserialize (mem : list Z) (size : Z) (msg : RpcMessage)
  : outcome (bool * RpcMessage) :=
  if size <? sizeof_ProtocolHeader then Ret (false, msg) else
  let* hb := read_at mem 0 sizeof_ProtocolHeader in
  let msg := set_header msg (header_of_bytes hb) in
  if negb (RpcMessage_valid msg) then Ret (false, msg) else
  let expected := u64 (sizeof_ProtocolHeader + meta_len (header_ msg) + payload_len (header_ msg)) in
  if size <? expected then Ret (false, msg) else
  let* r := read_meta mem msg in
  let '(msg, ptr) := r in
  if 0 <? payload_len (header_ msg) then
    let* payload := read_at mem ptr (payload_len (header_ msg)) in
    Ret (true, set_payload msg payload)
  else Ret (true, msg).

(** ** The frame: what the copies of [serialize] amount to *)

Definition frame_meta (pad : list Z) (m : RpcMessage) : list Z :=
  if is_request (message_type m)
  then request_meta_bytes pad
         (mkRequestMeta (request_id_ m) (timestamp_ m) (timeout_ms_ m)
            (u32 (zlen (service_ m))) (u32 (zlen (method_ m))))
       ++ service_ m ++ method_ m
  else response_meta_bytes
         (mkResponseMeta (request_id_ m) (error_code_ m) (u32 (zlen (error_message_ m))))
       ++ error_message_ m.

Definition frame_header (m : RpcMessage) : ProtocolHeader :=
  header_with_lens (header_ m) (u32 (meta_size m)) (u32 (zlen (payload_ m))).

Definition frame (pad : list Z) (m : RpcMessage) : list Z :=
  header_bytes (frame_header m) ++ frame_meta pad m ++ payload_ m.

Lemma length_header_bytes h : length (header_bytes h) = 16%nat.
Proof. unfold header_bytes. by rewrite !length_app, !length_le_bytes. Qed.

Lemma length_request_meta pad q :
  length pad = 4%nat -> length (request_meta_bytes pad q) = 32%nat.
Proof. intros H. unfold request_meta_bytes. by rewrite !length_app, !length_le_bytes, H. Qed.

Lemma length_response_meta r : length (response_meta_bytes r) = 16%nat.
Proof. unfold response_meta_bytes. by rewrite !length_app, !length_le_bytes. Qed.

Lemma length_frame_meta pad m : length pad = 4%nat -> zlen (frame_meta pad m) = meta_size m.
Proof.
  intros Hp. unfold frame_meta, meta_size, sizeof_RequestMeta, sizeof_ResponseMeta.
  destruct (is_request _);
    rewrite ?length_app, ?length_request_meta, ?length_response_meta by done; lia.
Qed.

Lemma Ret_pair_eq {A B} (a a' : A) (b b' : B) :
  a = a' -> b = b' -> Ret (a, b) = Ret (a', b').
Proof. by intros -> ->. Qed.

Lemma write_meta_frame pad m pre k :
  length pad = 4%nat -> (Z.to_nat (meta_size m) <= k)%nat ->
  write_meta pad m (pre ++ replicate k 0) (zlen pre)
  = Ret ((pre ++ frame_meta pad m) ++ replicate (k - Z.to_nat (meta_size m)) 0,
         zlen pre + meta_size m).
Proof.
  intros Hp Hk. unfold write_meta, frame_meta, meta_size, sizeof_RequestMeta, sizeof_ResponseMeta in *.
  destruct (is_request _).
  - rewrite write_at_zeros by (rewrite ?length_request_meta by done; lia). cbn [mbind outcome_bind].
    rewrite write_at_zeros by (rewrite ?length_app, ?length_request_meta by done; lia).
    cbn [mbind outcome_bind].
    rewrite write_at_zeros by (rewrite ?length_app, ?length_request_meta by done; lia).
    cbn [mbind outcome_bind]. rewrite length_request_meta by done.
    apply Ret_pair_eq; [|lia]. rewrite <- !app_assoc. do 5 f_equal. lia.
  - rewrite write_at_zeros by (rewrite ?length_response_meta; lia).
    cbn [mbind outcome_bind]. rewrite length_response_meta.
    case_bool_decide as E; cbn [negb].
    + rewrite E, app_nil_r. by apply Ret_pair_eq; [f_equal|simpl; lia].
    + rewrite write_at_zeros by (rewrite ?length_app, ?length_response_meta; lia).
      cbn [mbind outcome_bind]. rewrite <- !app_assoc.
      apply Ret_pair_eq; [|lia]. do 4 f_equal. lia.
Qed.

(** [serialize] stays inside its buffer and writes the frame. *)
Lemma serialize_frame pad m :
  length pad = 4%nat -> RpcMessage_serialize pad m = Ret (frame pad m).
Proof.
  intros Hp. unfold RpcMessage_serialize, frame.
  pose proof (length_frame_meta pad m Hp) as Hm.
  unfold resize. rewrite take_nil, app_nil_l, Nat.sub_0_r.
  change (replicate ?n 0) with ([] ++ replicate n 0).
  unfold sizeof_ProtocolHeader.
  replace (Z.to_nat _) with (16 + (Z.to_nat (meta_size m) + length (payload_ m)))%nat by lia.
  rewrite write_at_zeros; [|done|rewrite length_header_bytes; lia].
  cbn [mbind outcome_bind]. rewrite app_nil_l, length_header_bytes.
  fold (frame_header m).
  replace 16 with (zlen (header_bytes (frame_header m))) by by rewrite length_header_bytes.
  rewrite write_meta_frame by (done || lia).
  cbn [mbind outcome_bind].
  replace (_ - 16 - Z.to_nat (meta_size m))%nat with (length (payload_ m)) by lia.
  case_bool_decide as E; cbn [negb].
  - rewrite E. by rewrite !app_nil_r.
  - rewrite write_at_zeros; [|rewrite length_app, length_header_bytes; lia|lia].
    by rewrite Nat.sub_diag, app_nil_r, <- app_assoc.
Qed.

(** ** Well-formed messages and what a receiver reads *)

(** Every field holds a value of its C++ type and the two lengths that go into
    the header fit their 32 bits. *)
Record message_ok (m : RpcMessage) : Prop := {
  ok_magic : magic (header_ m) = kMagic;
  ok_version : is_u 8 (version (header_ m));
  ok_type : is_u 8 (type_ (header_ m));
  ok_reserved : is_u 32 (reserved (header_ m));
  ok_id : is_u 64 (request_id_ m);
  ok_service : bytes_ok (service_ m);
  ok_method : bytes_ok (method_ m);
  ok_payload : bytes_ok (payload_ m);
  ok_error : is_s 32 (error_code_ m);
  ok_error_message : bytes_ok (error_message_ m);
  ok_timeout : is_u 32 (timeout_ms_ m);
  ok_timestamp : is_u 64 (timestamp_ m);
  ok_meta_size : is_u 32 (meta_size m);
  ok_payload_size : is_u 32 (zlen (payload_ m));
}.

Definition header_ok (h : ProtocolHeader) : Prop :=
  is_u 16 (magic h) /\ is_u 8 (version h) /\ is_u 8 (type_ h) /\
  is_u 32 (meta_len h) /\ is_u 32 (payload_len h) /\ is_u 32 (reserved h).

Lemma header_roundtrip h : header_ok h -> header_of_bytes (header_bytes h) = h.
Proof.
  destruct h. unfold header_ok. simpl. intros (? & ? & ? & ? & ? & ?).
  unfold header_of_bytes. f_equal;
    [apply (le_val_bytes_small 2 16)|apply (le_val_bytes_small 1 8)|apply (le_val_bytes_small 1 8)
    |apply (le_val_bytes_small 4 32)..]; done.
Qed.

Lemma request_meta_roundtrip pad q :
  is_u 64 (rq_request_id q) -> is_u 64 (rq_timestamp q) -> is_u 32 (rq_timeout_ms q) ->
  is_u 32 (rq_service_len q) -> is_u 32 (rq_method_len q) ->
  request_meta_of_bytes (request_meta_bytes pad q) = q.
Proof.
  destruct q; simpl; intros. unfold request_meta_of_bytes. f_equal;
    solve [by apply (le_val_bytes_small 8 64)|by apply (le_val_bytes_small 4 32)].
Qed.

Lemma response_meta_roundtrip r :
  is_u 64 (rs_request_id r) -> is_s 32 (rs_error_code r) -> is_u 32 (rs_error_len r) ->
  response_meta_of_bytes (response_meta_bytes r) = r.
Proof.
  destruct r as [id code len]; simpl; intros. unfold response_meta_of_bytes. f_equal.
  - by apply (le_val_bytes_small 8 64).
  - transitivity (i32 (le_val (le_bytes 4 code))); [done|].
    rewrite le_val_bytes. change (256 ^ Z.of_nat 4) with (2 ^ 32).
    change (code mod 2 ^ 32) with (wrap 32 code). rewrite sint_wrap. by apply sint_small.
  - by apply (le_val_bytes_small 4 32).
Qed.

(** What a receiver with a fresh [RpcMessage] reconstructs from the frame of [m]. *)
Definition received (m : RpcMessage) : RpcMessage :=
  if is_request (message_type m)
  then mkMessage (frame_header m) (request_id_ m) (service_ m) (method_ m) (payload_ m)
         ErrorCode.OK [] (timeout_ms_ m) (timestamp_ m)
  else mkMessage (frame_header m) (request_id_ m) [] [] (payload_ m)
         (error_code_ m) (error_message_ m) 30000 0.

Lemma frame_header_ok m : message_ok m -> header_ok (frame_header m).
Proof.
  intros []. unfold header_ok, frame_header. simpl. rewrite ok_magic0.
  repeat split; try apply wrap_range; unfold is_u in *; lia || done.
Qed.

(** The guards of [deserialize] on a buffer that starts with a valid header. *)
Lemma deserialize_after_header h tail size msg :
  header_ok h -> magic h = kMagic -> sizeof_ProtocolHeader <= size ->
  RpcMessage_deserialize (header_bytes h ++ tail) size msg =
  (if size <? sizeof_ProtocolHeader + meta_len h + payload_len h
   then Ret (false, set_header msg h) else
   let* r := read_meta (header_bytes h ++ tail) (set_header msg h) in
   let '(msg, ptr) := r in
   if 0 <? payload_len (header_ msg) then
     let* payload := read_at (header_bytes h ++ tail) ptr (payload_len (header_ msg)) in
     Ret (true, set_payload msg payload)
   else Ret (true, msg)).
Proof.
  intros Hh Hm Hs. unfold RpcMessage_deserialize.
  rewrite (proj2 (Z.ltb_ge _ _)) by done.
  rewrite (read_at_app [] (header_bytes h) tail)
    by (rewrite ?length_header_bytes; done).
  cbn [mbind outcome_bind]. rewrite header_roundtrip by done.
  unfold RpcMessage_valid, header_valid. cbn [header_ set_header]. rewrite Hm, Z.eqb_refl.
  cbn [negb]. unfold wrap. rewrite Z.mod_small; [done|].
  destruct Hh as (_ & _ & _ & ? & ? & _). unfold is_u, sizeof_ProtocolHeader in *. lia.
Qed.

Lemma read_meta_request pad h q service method tail msg :
  length pad = 4%nat ->
  is_u 64 (rq_request_id q) -> is_u 64 (rq_timestamp q) -> is_u 32 (rq_timeout_ms q) ->
  rq_service_len q = zlen service -> rq_method_len q = zlen method ->
  is_u 32 (zlen service) -> is_u 32 (zlen method) ->
  header_ msg = h -> is_request (message_type msg) = true ->
  read_meta (header_bytes h ++ request_meta_bytes pad q ++ service ++ method ++ tail) msg
  = Ret (set_request msg q service method, 48 + zlen service + zlen method).
Proof.
  intros Hp ? ? ? Hs Hm ? ? Hh Hr. unfold read_meta. rewrite Hr.
  unfold sizeof_ProtocolHeader, sizeof_RequestMeta.
  rewrite read_at_app by (rewrite ?length_header_bytes, ?length_request_meta; done).
  cbn [mbind outcome_bind]. rewrite request_meta_roundtrip by (congruence || done).
  rewrite Hs, Hm. change (16 + 32) with 48.
  rewrite (app_assoc (header_bytes h)).
  rewrite (read_at_app (_ ++ _) service _ 48)
    by (rewrite ?length_app, ?length_header_bytes, ?length_request_meta by done; lia).
  cbn [mbind outcome_bind].
  rewrite (app_assoc (header_bytes h ++ request_meta_bytes pad q)).
  rewrite (read_at_app (_ ++ service) method tail)
    by (rewrite ?length_app, ?length_header_bytes, ?length_request_meta by done; lia).
  done.
Qed.

Lemma read_meta_response h r message tail msg :
  is_u 64 (rs_request_id r) -> is_s 32 (rs_error_code r) -> rs_error_len r = zlen message ->
  is_u 32 (zlen message) -> header_ msg = h -> error_message_ msg = [] ->
  is_request (message_type msg) = false -> is_response (message_type msg) = true ->
  read_meta (header_bytes h ++ response_meta_bytes r ++ message ++ tail) msg
  = Ret (set_response msg r message, 32 + zlen message).
Proof.
  intros ? ? Hl ? Hh He Hr Hr'. unfold read_meta. rewrite Hr, Hr'.
  unfold sizeof_ProtocolHeader, sizeof_ResponseMeta.
  rewrite read_at_app by (rewrite ?length_header_bytes, ?length_response_meta; done).
  cbn [mbind outcome_bind]. rewrite response_meta_roundtrip by (congruence || done).
  rewrite Hl, He. change (16 + 16) with 32.
  destruct (Z.ltb_spec 0 (zlen message)).
  - rewrite (app_assoc (header_bytes h)).
    rewrite (read_at_app (_ ++ _) message)
      by (rewrite ?length_app, ?length_header_bytes, ?length_response_meta; lia).
    done.
  - destruct message; [|simpl in *; lia]. done.
Qed.

Lemma read_payload pre payload rest ptr msg :
  ptr = zlen pre -> payload_len (header_ msg) = zlen payload -> payload_ msg = [] ->
  (if 0 <? payload_len (header_ msg) then
     let* bs := read_at (pre ++ payload ++ rest) ptr (payload_len (header_ msg)) in
     Ret (true, set_payload msg bs)
   else Ret (true, msg)) = Ret (true, set_payload msg payload).
Proof.
  intros -> -> He. destruct (Z.ltb_spec 0 (zlen payload)).
  - by rewrite read_at_app.
  - destruct payload; [|simpl in *; lia]. destruct msg. simpl in He. by rewrite He.
Qed.

Lemma message_ok_lens m :
  message_ok m ->
  u32 (meta_size m) = meta_size m /\ u32 (zlen (payload_ m)) = zlen (payload_ m) /\
  (is_request (message_type m) = true ->
     is_u 32 (zlen (service_ m)) /\ is_u 32 (zlen (method_ m))) /\
  (is_request (message_type m) = false -> is_u 32 (zlen (error_message_ m))).
Proof.
  intros []. rewrite !wrap_small by done. split; [done|]. split; [done|].
  unfold meta_size, sizeof_RequestMeta, sizeof_ResponseMeta, is_u in *.
  split; intros E; rewrite E in *; lia.
Qed.

Lemma length_frame pad m :
  length pad = 4%nat -> zlen (frame pad m) = 16 + meta_size m + zlen (payload_ m).
Proof.
  intros Hp. unfold frame. rewrite !length_app, length_header_bytes.
  pose proof (length_frame_meta pad m Hp). lia.
Qed.

Lemma deserialize_frame pad m rest size :
  length pad = 4%nat -> message_ok m ->
  is_request (message_type m) = true \/ is_response (message_type m) = true ->
  zlen (frame pad m) <= size ->
  RpcMessage_deserialize (frame pad m ++ rest) size RpcMessage_new = Ret (true, received m).
Proof.
  intros Hp Hm Ht Hs. pose proof (length_frame pad m Hp) as Hl.
  destruct (message_ok_lens m Hm) as (Eml & Epl & Hreq & Hresp).
  assert (0 <= meta_size m) by apply (ok_meta_size m Hm).
  unfold frame. rewrite <- !app_assoc, deserialize_after_header;
    [|by apply frame_header_ok|apply Hm|unfold sizeof_ProtocolHeader; lia].
  rewrite (proj2 (Z.ltb_ge _ _)); [|simpl; rewrite Eml, Epl; unfold sizeof_ProtocolHeader; lia].
  unfold received, frame_meta.
  assert (Ety : message_type (set_header RpcMessage_new (frame_header m)) = message_type m) by done.
  destruct (is_request (message_type m)) eqn:Er.
  - destruct Hreq as [? ?]; [done|]. rewrite <- !app_assoc.
    rewrite read_meta_request by (done || apply Hm || by apply wrap_small).
    cbn [mbind outcome_bind].
    rewrite !app_assoc, <- (app_assoc _ (payload_ m)).
    rewrite read_payload; [done| |exact Epl|done].
    rewrite !length_app, length_header_bytes, length_request_meta by done. lia.
  - destruct Ht as [|Ht]; [done|]. specialize (Hresp eq_refl). rewrite <- !app_assoc.
    rewrite read_meta_response by (done || apply Hm || by apply wrap_small).
    cbn [mbind outcome_bind].
    rewrite !app_assoc, <- (app_assoc _ (payload_ m)).
    rewrite read_payload; [done| |exact Epl|done].
    rewrite !length_app, length_header_bytes, length_response_meta. lia.
Qed.

(** ** Properties *)

(** C11: [serialize] never writes outside the buffer it allocates, and a
    receiver that has at least the serialized bytes gets the message back:
    type, id, names, payload and (for responses) error survive, and
    [total_size] of the received message is the number of bytes on the wire.
    It holds for requests and responses whose lengths fit the 32-bit header
    fields, whatever the padding bytes are and whatever follows. *)
Theorem protocol_roundtrip pad m rest size :
  length pad = 4%nat -> message_ok m ->
  is_request (message_type m) = true \/ is_response (message_type m) = true ->
  16 + meta_size m + zlen (payload_ m) <= size ->
  exists bs, RpcMessage_serialize pad m = Ret bs /\
    zlen bs = total_size (received m) /\
    RpcMessage_deserialize (bs ++ rest) size RpcMessage_new = Ret (true, received m).
Proof.
  intros Hp Hm Ht Hs. exists (frame pad m). rewrite serialize_frame by done.
  pose proof (length_frame pad m Hp) as Hl. split; [done|]. split.
  - rewrite Hl. unfold total_size, received.
    destruct (message_ok_lens m Hm) as (Eml & Epl & _). destruct Hm.
    destruct (is_request _); simpl; rewrite Eml, Epl; symmetry; apply wrap_small;
      unfold sizeof_ProtocolHeader, is_u in *; lia.
  - apply deserialize_frame; (done || lia).
Qed.

(** An [add] request, as the calculator example sends it. *)
Definition example_request : RpcMessage :=
  create_request 123456 7 (bytes_of_string "Calculator") (bytes_of_string "add")
    [1; 0; 0; 0; 2; 0; 0; 0] 30000.

Lemma example_request_ok : message_ok example_request.
Proof. split; compute_done. Qed.

Lemma protocol_roundtrip_witness :
  exists bs, RpcMessage_serialize [0; 0; 0; 0] example_request = Ret bs /\
    zlen bs = total_size (received example_request) /\
    RpcMessage_deserialize (bs ++ [1; 2]) 69 RpcMessage_new = Ret (true, received example_request).
Proof.
  apply (protocol_roundtrip [0; 0; 0; 0] example_request [1; 2] 69);
    [reflexivity|apply example_request_ok|left; reflexivity|vm_compute; discriminate].
Defined.

(** C23: a truncated frame is refused without an out-of-bounds read: whatever the
    message type, every strict prefix of a serialized message makes
    [deserialize] answer [false]. *)
Theorem protocol_truncated pad m k msg :
  length pad = 4%nat -> message_ok m -> (k < length (frame pad m))%nat ->
  RpcMessage_serialize pad m = Ret (frame pad m) /\
  exists msg', RpcMessage_deserialize (take k (frame pad m)) (Z.of_nat k) msg = Ret (false, msg').
Proof.
  intros Hp Hm Hk. split; [by apply serialize_frame|].
  destruct (message_ok_lens m Hm) as (Eml & Epl & _).
  pose proof (length_frame pad m Hp). unfold frame in *.
  destruct (decide (k < 16)%nat).
  - unfold RpcMessage_deserialize. rewrite (proj2 (Z.ltb_lt _ _)); [by eexists|].
    unfold sizeof_ProtocolHeader. lia.
  - rewrite take_app_ge by (rewrite length_header_bytes; lia).
    rewrite deserialize_after_header; [|by apply frame_header_ok|apply Hm|unfold sizeof_ProtocolHeader; lia].
    rewrite (proj2 (Z.ltb_lt _ _)); [by eexists|].
    simpl. rewrite Eml, Epl. unfold sizeof_ProtocolHeader. lia.
Qed.

Lemma protocol_truncated_witness :
  RpcMessage_serialize [9; 9; 9; 9] example_request = Ret (frame [9; 9; 9; 9] example_request) /\
  exists msg', RpcMessage_deserialize (take 40 (frame [9; 9; 9; 9] example_request)) 40
                 RpcMessage_new = Ret (false, msg').
Proof.
  apply (protocol_truncated [9; 9; 9; 9] example_request 40 RpcMessage_new);
    [reflexivity|apply example_request_ok|vm_compute; lia].
Defined.

(** The lengths inside the metadata agree with the header: what a receiver
    would have to check before it trusts [service_len], [method_len] and
    [error_len]. *)
Definition meta_consistent (mem : list Z) : Prop :=
  let h := header_of_bytes (take 16 mem) in
  let body := drop 16 mem in
  match MessageType_of_u8 (type_ h) with
  | Request =>
      let q := request_meta_of_bytes (take 32 body) in
      sizeof_RequestMeta + rq_service_len q + rq_method_len q <= meta_len h
  | Response =>
      let r := response_meta_of_bytes (take 16 body) in
      sizeof_ResponseMeta + rs_error_len r <= meta_len h
  | _ => True
  end.

#[global] Instance meta_consistent_dec mem : Decision (meta_consistent mem).
Proof. unfold meta_consistent. simpl. case_match; apply _. Defined.

Lemma field_nonneg bs off n : bytes_ok bs -> 0 <= field bs off n.
Proof. intros. apply (le_val_is_u (take n (drop off bs))). by apply Forall_take, Forall_drop. Qed.

Lemma field_is_u32 bs off : bytes_ok bs -> is_u 32 (field bs off 4).
Proof.
  intros H. assert (Hb : bytes_ok (take 4 (drop off bs))) by by apply Forall_take, Forall_drop.
  eapply is_u_mono; [|apply (le_val_is_u _ Hb)]. rewrite length_take. lia.
Qed.

Lemma read_meta_consistent mem msg :
  bytes_ok mem -> header_ msg = header_of_bytes (take 16 mem) -> meta_consistent mem ->
  16 + meta_len (header_ msg) <= zlen mem ->
  exists msg' ptr, read_meta mem msg = Ret (msg', ptr) /\ header_ msg' = header_ msg /\
    16 <= ptr <= 16 + meta_len (header_ msg).
Proof.
  intros Hb Hh Hc Hl.
  assert (Hb' : bytes_ok (drop 16 mem)) by by apply Forall_drop.
  assert (Hml : 0 <= meta_len (header_ msg)).
  { rewrite Hh. simpl. apply field_nonneg. by apply Forall_take. }
  unfold meta_consistent in Hc. cbv zeta in Hc. rewrite <- Hh in Hc. unfold read_meta, message_type.
  destruct (MessageType_of_u8 _) eqn:Et; cbn [is_request is_response];
    try (do 2 eexists; split_and!; done || (unfold sizeof_ProtocolHeader; lia)).
  - set (q := request_meta_of_bytes (take 32 (drop 16 mem))) in *.
    assert (0 <= rq_service_len q /\ 0 <= rq_method_len q) as [? ?]
      by (split; apply field_nonneg; by apply Forall_take).
    unfold sizeof_ProtocolHeader, sizeof_RequestMeta in *.
    rewrite (read_at_ok mem 16) by lia. cbn [mbind outcome_bind].
    change (request_meta_of_bytes _) with q.
    rewrite (read_at_ok mem (16 + 32)) by lia. cbn [mbind outcome_bind].
    rewrite read_at_ok by lia. cbn [mbind outcome_bind].
    do 2 eexists. split_and!; [done|done|lia|lia].
  - set (r := response_meta_of_bytes (take 16 (drop 16 mem))) in *.
    assert (0 <= rs_error_len r) by (apply field_nonneg; by apply Forall_take).
    unfold sizeof_ProtocolHeader, sizeof_ResponseMeta in *.
    rewrite (read_at_ok mem 16) by lia. cbn [mbind outcome_bind].
    change (response_meta_of_bytes _) with r.
    destruct (0 <? _); [rewrite read_at_ok by lia; cbn [mbind outcome_bind]|];
      do 2 eexists; split_and!; done || lia.
Qed.

(** C24: [deserialize] is memory safe on every input whose metadata lengths stay
    within the [meta_len] of its header: it returns (true or false), whatever
    the other bytes are. *)
Theorem deserialize_safe mem size msg :
  bytes_ok mem -> size <= zlen mem -> meta_consistent mem ->
  returns (RpcMessage_deserialize mem size msg).
Proof.
  intros Hb Hs Hc. unfold RpcMessage_deserialize.
  destruct (Z.ltb_spec size sizeof_ProtocolHeader) as [|H16]; [by eexists|].
  unfold sizeof_ProtocolHeader in *.
  rewrite (read_at_ok mem 0 16) by lia. cbn [mbind outcome_bind].
  change (drop (Z.to_nat 0) mem) with mem. change (Z.to_nat 16) with 16%nat.
  set (h := header_of_bytes (take 16 mem)).
  destruct (negb _); [by eexists|].
  assert (bytes_ok (take 16 mem)) by by apply Forall_take.
  assert (is_u 32 (meta_len h) /\ is_u 32 (payload_len h)) as [Hml Hpl]
    by (split; by apply field_is_u32).
  unfold is_u in *. cbn [header_ set_header]. rewrite wrap_small by (unfold is_u; lia).
  destruct (Z.ltb_spec size (16 + meta_len h + payload_len h)); [by eexists|].
  destruct (read_meta_consistent mem (set_header msg h)) as (msg' & ptr & -> & Hh' & Hptr);
    [done|done|done|cbn [header_ set_header]; lia|].
  cbn [mbind outcome_bind]. rewrite Hh'. cbn [header_ set_header] in *.
  destruct (0 <? payload_len h); [|by eexists].
  rewrite read_at_ok by lia. by eexists.
Qed.

Lemma deserialize_safe_witness :
  returns (RpcMessage_deserialize (frame [0; 0; 0; 0] example_request) 69 RpcMessage_new).
Proof. apply deserialize_safe; vm_compute; try discriminate; compute_done. Defined.

(** Nothing compares the metadata lengths with [meta_len].  A
    request frame of a valid header whose [meta_len + payload_len] is less
    than [sizeof(RequestMeta)] passes every check and, when the buffer ends
    where the frame does, is read past its end. *)
Theorem deserialize_overread h body msg :
  header_ok h -> magic h = kMagic -> type_ h = MessageType_to_u8 Request ->
  zlen body = meta_len h + payload_len h -> zlen body < sizeof_RequestMeta ->
  RpcMessage_deserialize (header_bytes h ++ body) (16 + zlen body) msg = Undef.
Proof.
  intros Hh Hm Ht Hb Hlt. unfold sizeof_RequestMeta in *.
  rewrite deserialize_after_header by (done || unfold sizeof_ProtocolHeader; lia).
  rewrite (proj2 (Z.ltb_ge _ _)) by (unfold sizeof_ProtocolHeader; lia).
  unfold read_meta, message_type. cbn [header_ set_header]. rewrite Ht. change (is_request _) with true. cbv iota.
  rewrite (read_at_past _ sizeof_ProtocolHeader); [done|].
  rewrite length_app, length_header_bytes. unfold sizeof_ProtocolHeader, sizeof_RequestMeta. lia.
Qed.

Lemma deserialize_overread_witness :
  RpcMessage_deserialize (header_bytes (header_init Request)) 16 RpcMessage_new = Undef.
Proof.
  rewrite <- (app_nil_r (header_bytes _)).
  apply (deserialize_overread (header_init Request) []); compute_done.
Defined.

(** [serialize] writes a [ResponseMeta] for every type that is not
    [Request], but [deserialize] reads one for [Response] only: the receiver
    of a heartbeat, error or stream message sees request id 0 and takes the
    first bytes of the metadata for the payload. *)
Theorem other_types_lose_id pad m rest :
  length pad = 4%nat -> message_ok m ->
  is_request (message_type m) = false -> is_response (message_type m) = false ->
  let body := frame_meta pad m ++ payload_ m ++ rest in
  RpcMessage_serialize pad m = Ret (frame pad m) /\
  RpcMessage_deserialize (frame pad m ++ rest) (zlen (frame pad m)) RpcMessage_new
  = Ret (true, set_payload (set_header RpcMessage_new (frame_header m))
                 (take (length (payload_ m)) body)).
Proof.
  intros Hp Hm Hq Hr body. split; [by apply serialize_frame|].
  pose proof (length_frame pad m Hp) as Hl. pose proof (length_frame_meta pad m Hp) as Hl'.
  destruct (message_ok_lens m Hm) as (Eml & Epl & _).
  assert (0 <= meta_size m) by apply (ok_meta_size m Hm). rewrite Hl.
  unfold frame. rewrite <- !app_assoc. fold body.
  rewrite deserialize_after_header; [|by apply frame_header_ok|apply Hm|unfold sizeof_ProtocolHeader; lia].
  rewrite (proj2 (Z.ltb_ge _ _)); [|simpl; rewrite Eml, Epl; unfold sizeof_ProtocolHeader; lia].
  unfold read_meta.
  change (message_type (set_header RpcMessage_new (frame_header m))) with (message_type m).
  rewrite Hq, Hr. cbn [mbind outcome_bind]. unfold sizeof_ProtocolHeader.
  rewrite <- (take_drop (length (payload_ m)) body) at 1.
  assert (Hlen : length (take (length (payload_ m)) body) = length (payload_ m))
    by (rewrite length_take; unfold body; rewrite !length_app; lia).
  rewrite read_payload; [done|by rewrite length_header_bytes| |done].
  rewrite Hlen. exact Epl.
Qed.

Definition example_heartbeat : RpcMessage :=
  mkMessage (header_init Heartbeat) 42 [] [] [] ErrorCode.OK [] 30000 0.

Lemma other_types_lose_id_witness :
  let m := example_heartbeat in
  let body := frame_meta [0; 0; 0; 0] m ++ payload_ m ++ [] in
  RpcMessage_serialize [0; 0; 0; 0] m = Ret (frame [0; 0; 0; 0] m) /\
  RpcMessage_deserialize (frame [0; 0; 0; 0] m ++ []) (zlen (frame [0; 0; 0; 0] m)) RpcMessage_new
  = Ret (true, set_payload (set_header RpcMessage_new (frame_header m))
                 (take (length (payload_ m)) body)).
Proof.
  apply (other_types_lose_id [0; 0; 0; 0] example_heartbeat []); try reflexivity.
  split; compute_done.
Defined.
