(* ===== verification/TimingWheel.v ===== *)
(** * io/timer.hpp: the hashed timing wheel

    [TimingWheel] is the class with its members; [add_timer], [cancel_timer],
    [tick] and [advance] follow the member functions.  [tick] is split where
    the source releases its lock: [tick_collect] is the critical section,
    [run_callbacks] runs the collected callbacks, which may call [add_timer]
    and [cancel_timer] themselves; the commands a callback issues are given by
    [cmds].

    [timers] is the abstract object the wheel implements: one list of pending
    timers and a clock, with no slots.  The wheel is proved to refine it. *)

From Stdlib Require Import ZArith Lia.
From S2P Require Import Prelude.

Record TimerEntry (CB : Type) := mkEntry {
  te_id : Z;           (* TimerId *)
  te_expire_tick : Z;  (* size_t *)
  te_callback : CB;
}.
Arguments mkEntry {CB}.
Arguments te_id {CB}.
Arguments te_expire_tick {CB}.
Arguments te_callback {CB}.

Record TimingWheel (CB : Type) := mkWheel {
  slots_ : Z;
  tick_ms_ : Z;
  current_tick_ : Z;
  next_id_ : Z;
  wheels_ : list (list (TimerEntry CB));
  timer_slot_ : gmap Z Z;
}.
Arguments mkWheel {CB}.
Arguments slots_ {CB}.
Arguments tick_ms_ {CB}.
Arguments current_tick_ {CB}.
Arguments next_id_ {CB}.
Arguments wheels_ {CB}.
Arguments timer_slot_ {CB}.

(** What a callback may do to the wheel that runs it. *)
Inductive timer_cmd (CB : Type) :=
| CmdAdd (delay_ms : Z) (cb : CB)
| CmdCancel (id : Z).
Arguments CmdAdd {CB}.
Arguments CmdCancel {CB}.

Section Wheel.
Context {CB : Type} (cmds : CB -> list (timer_cmd CB)).
Implicit Types (w : TimingWheel CB) (e : TimerEntry CB).

Definition TimingWheel_new (slots tick_ms : Z) : TimingWheel CB :=
  mkWheel slots tick_ms 0 1 (replicate (Z.to_nat slots) []) ∅.

(** [size_t] arithmetic wraps; the divisions by [tick_ms_] and [slots_] are
    undefined for a zero divisor. *)
Definition add_timer (delay_ms : Z) (callback : CB) w : outcome (Z * TimingWheel CB) :=
  let id := next_id_ w in
  if tick_ms_ w =? 0 then Undef else
  let ticks := u64 (delay_ms + tick_ms_ w - 1) / tick_ms_ w in
  let expire_tick := u64 (current_tick_ w + ticks - 1) in
  if slots_ w =? 0 then Undef else
  let slot := expire_tick mod slots_ w in
  Ret (id, mkWheel (slots_ w) (tick_ms_ w) (current_tick_ w) (u64 (id + 1))
             (alter (fun l => l ++ [mkEntry id expire_tick callback]) (Z.to_nat slot) (wheels_ w))
             (<[id := slot]> (timer_slot_ w))).

Definition cancel_timer (id : Z) w : bool * TimingWheel CB :=
  match timer_slot_ w !! id with
  | None => (false, w)
  | Some slot =>
      (true, mkWheel (slots_ w) (tick_ms_ w) (current_tick_ w) (next_id_ w)
               (alter (filter (fun e => te_id e <> id)) (Z.to_nat slot) (wheels_ w))
               (delete id (timer_slot_ w)))
  end.

(** The critical section of [tick]: the expired entries of the current slot
    leave the slot and [timer_slot_], and the clock advances. *)
Definition tick_collect w : outcome (list (TimerEntry CB) * TimingWheel CB) :=
  if slots_ w =? 0 then Undef else
  let i := Z.to_nat (current_tick_ w mod slots_ w) in
  match wheels_ w !! i with
  | None => Undef
  | Some slot =>
      let expired := filter (fun e => te_expire_tick e <= current_tick_ w) slot in
      Ret (expired,
           mkWheel (slots_ w) (tick_ms_ w) (u64 (current_tick_ w + 1)) (next_id_ w)
             (<[i := filter (fun e => ~ te_expire_tick e <= current_tick_ w) slot]> (wheels_ w))
             (fold_left (fun m e => delete (te_id e) m) expired (timer_slot_ w)))
  end.

Definition run_cmd w (c : timer_cmd CB) : outcome (TimingWheel CB) :=
  match c with
  | CmdAdd d cb => let* r := add_timer d cb w in Ret r.2
  | CmdCancel id => Ret (cancel_timer id w).2
  end.

Fixpoint run_cmds w (cs : list (timer_cmd CB)) : outcome (TimingWheel CB) :=
  match cs with
  | [] => Ret w
  | c :: cs => let* w := run_cmd w c in run_cmds w cs
  end.

(** [for (auto& cb : expired) cb();] *)
Fixpoint run_callbacks w (expired : list (TimerEntry CB)) : outcome (TimingWheel CB) :=
  match expired with
  | [] => Ret w
  | e :: expired => let* w := run_cmds w (cmds (te_callback e)) in run_callbacks w expired
  end.

(** [tick]: the number of callbacks run, which ones, and the wheel after them. *)
Definition tick w : outcome (Z * list (TimerEntry CB) * TimingWheel CB) :=
  let* r := tick_collect w in
  let '(expired, w) := r in
  let* w := run_callbacks w expired in
  Ret (zlen expired, expired, w).

(** [advance(ticks)]: the loop runs [i] times. *)
Fixpoint advance_loop (i : nat) (total : Z) (fired : list (TimerEntry CB)) w
  : outcome (Z * list (TimerEntry CB) * TimingWheel CB) :=
  match i with
  | O => Ret (total, fired, w)
  | S i =>
      let* r := tick w in
      let '(n, es, w) := r in
      advance_loop i (u64 (total + n)) (fired ++ es) w
  end.

Definition advance (ticks : Z) w := advance_loop (Z.to_nat ticks) 0 [] w.

(** ** The abstract timer service *)

Record timers := mkTimers {
  now : Z;
  next : Z;
  pending : list (TimerEntry CB);
}.

Definition timers_add (tick_ms delay_ms : Z) (cb : CB) (s : timers) : Z * timers :=
  (next s, mkTimers (now s) (next s + 1)
    (pending s ++ [mkEntry (next s) (now s + (delay_ms + tick_ms - 1) / tick_ms - 1) cb])).

Definition timers_cancel (id : Z) (s : timers) : bool * timers :=
  (bool_decide (id ∈ te_id <$> pending s),
   mkTimers (now s) (next s) (filter (fun e => te_id e <> id) (pending s))).

(** A tick fires the timers that expire now, oldest first. *)
Definition timers_tick (s : timers) : list (TimerEntry CB) * timers :=
  (filter (fun e => te_expire_tick e = now s) (pending s),
   mkTimers (now s + 1) (next s) (filter (fun e => te_expire_tick e <> now s) (pending s))).

End Wheel.

(** ** Refinement: the wheel is the pending list hashed by expiry *)

Section Refinement.
Context {CB : Type}.
Implicit Types (w : TimingWheel CB) (e : TimerEntry CB) (s : timers (CB := CB)).

Definition bucket (slots i : Z) (l : list (TimerEntry CB)) : list (TimerEntry CB) :=
  filter (fun e => te_expire_tick e mod slots = i) l.

Record refines w s : Prop := {
  rf_slots : 0 < slots_ w;
  rf_tick_ms : 0 < tick_ms_ w;
  rf_now : current_tick_ w = now s;
  rf_next : next_id_ w = next s;
  rf_nonneg : 0 <= now s;
  rf_len : length (wheels_ w) = Z.to_nat (slots_ w);
  rf_wheel i : 0 <= i < slots_ w -> wheels_ w !! Z.to_nat i = Some (bucket (slots_ w) i (pending s));
  rf_map id sl : timer_slot_ w !! id = Some sl <->
    exists e, e ∈ pending s /\ te_id e = id /\ sl = te_expire_tick e mod slots_ w;
  rf_nodup : NoDup (te_id <$> pending s);
  rf_ids : Forall (fun e => te_id e < next s) (pending s);
  rf_due : Forall (fun e => now s <= te_expire_tick e) (pending s);
}.

Lemma refines_new slots tick_ms :
  0 < slots -> 0 < tick_ms -> refines (TimingWheel_new slots tick_ms) (mkTimers 0 1 []).
Proof.
  intros. split; simpl; try done.
  - by rewrite length_replicate.
  - intros i Hi. apply lookup_replicate. split; [done|lia].
  - intros id sl. rewrite lookup_empty. split; [done|]. by intros (e & ?%elem_of_nil & _).
  - constructor.
Qed.

Lemma bucket_app slots i l1 l2 : bucket slots i (l1 ++ l2) = bucket slots i l1 ++ bucket slots i l2.
Proof. apply filter_app. Qed.

(** Updating the slot an entry hashes to is the update of the pending list. *)
Lemma slot_alter f slots (ws : list (list (TimerEntry CB))) (l l' : list (TimerEntry CB)) k :
  0 <= k < slots -> length ws = Z.to_nat slots ->
  (forall i, 0 <= i < slots -> ws !! Z.to_nat i = Some (bucket slots i l)) ->
  bucket slots k l' = f (bucket slots k l) ->
  (forall i, i <> k -> bucket slots i l' = bucket slots i l) ->
  forall i, 0 <= i < slots -> alter f (Z.to_nat k) ws !! Z.to_nat i = Some (bucket slots i l').
Proof.
  intros Hk Hlen Hws Hf Ho i Hi. destruct (decide (i = k)) as [->|Hne].
  - rewrite list_lookup_alter_eq, Hws by done. simpl. by rewrite Hf.
  - rewrite list_lookup_alter_ne by lia. rewrite Hws, Ho by done. done.
Qed.

(** The tick count of a delay, and the exact condition for it to be at least one. *)
Lemma ceil_div_pos d t : 0 < t -> 0 < d -> 1 <= (d + t - 1) / t <= d.
Proof.
  intros. split.
  - apply Z.div_le_lower_bound; lia.
  - apply Z.div_le_upper_bound; nia.
Qed.

Lemma refines_add w s d cb :
  refines w s -> 0 < d -> d + tick_ms_ w <= 2 ^ 64 -> now s + d <= 2 ^ 64 ->
  next s + 1 < 2 ^ 64 -> 0 <= next s ->
  exists w', add_timer d cb w = Ret ((timers_add (tick_ms_ w) d cb s).1, w') /\
    refines w' (timers_add (tick_ms_ w) d cb s).2 /\ tick_ms_ w' = tick_ms_ w.
Proof.
  intros R Hd Hdt Hnd Hnx Hnx0. destruct R.
  pose proof (ceil_div_pos d (tick_ms_ w) rf_tick_ms0 Hd) as Hceil.
  unfold add_timer. rewrite (proj2 (Z.eqb_neq _ _)), (proj2 (Z.eqb_neq (slots_ w) _)) by lia.
  rewrite (wrap_small 64 (d + _ - 1)) by (unfold is_u; lia).
  rewrite rf_now0, rf_next0, !wrap_small by (unfold is_u; lia).
  set (ex := now s + _ - 1). eexists. split; [done|]. split; [|done].
  assert (Hk : 0 <= ex mod slots_ w < slots_ w) by (apply Z.mod_pos_bound; lia).
  split; simpl; try done; try lia.
  - by rewrite length_alter.
  - apply (slot_alter _ _ _ (pending s)); try done.
    + rewrite bucket_app. f_equal. unfold bucket. by rewrite filter_cons_True, filter_nil.
    + intros i Hi. rewrite bucket_app. unfold bucket at 2.
      rewrite filter_cons_False by (intros E; by apply Hi). by rewrite filter_nil, app_nil_r.
  - intros id sl. setoid_rewrite elem_of_app. setoid_rewrite list_elem_of_singleton.
    destruct (decide (id = next s)) as [->|Hne].
    + rewrite lookup_insert_eq. split.
      * intros [= <-]. eexists. eauto.
      * intros (e & [He| ->] & Hid & ->); [|done].
        rewrite Forall_forall in rf_ids0. apply rf_ids0 in He. lia.
    + rewrite lookup_insert_ne, rf_map0 by done.
      split; [intros (e & ? & ? & ?); eauto 6|].
      intros (e & [He| ->] & Hid & ->); [eauto 6|simpl in *; lia].
  - rewrite fmap_app. apply NoDup_app. split; [done|]. split; [|apply NoDup_singleton].
    intros x (e & -> & He)%list_elem_of_fmap Hx. apply list_elem_of_singleton in Hx. simpl in Hx.
    rewrite Forall_forall in rf_ids0. apply rf_ids0 in He. lia.
  - apply Forall_app. split; [|by repeat constructor; simpl; lia].
    eapply Forall_impl; [exact rf_ids0|]. simpl. lia.
  - apply Forall_app. split; [done|]. repeat constructor. simpl. lia.
Qed.

Lemma refines_entry_unique w s e1 e2 :
  refines w s -> e1 ∈ pending s -> e2 ∈ pending s -> te_id e1 = te_id e2 -> e1 = e2.
Proof.
  intros [] H1 H2 E. apply list_elem_of_lookup in H1 as [i Hi], H2 as [j Hj].
  assert (i = j) as ->.
  { eapply NoDup_lookup; [exact rf_nodup0|..]; rewrite list_lookup_fmap.
    - by rewrite Hi.
    - by rewrite Hj, E. }
  congruence.
Qed.

Lemma refines_cancel w s id :
  refines w s ->
  (cancel_timer id w).1 = (timers_cancel id s).1 /\
  refines (cancel_timer id w).2 (timers_cancel id s).2 /\
  tick_ms_ (cancel_timer id w).2 = tick_ms_ w.
Proof.
  intros R. pose proof (fun e1 e2 => refines_entry_unique w s e1 e2 R) as U. unfold cancel_timer, timers_cancel.
  destruct (timer_slot_ w !! id) as [sl|] eqn:E; simpl.
  - apply R in E as Hsl. destruct Hsl as (e & He & <- & ->).
    rewrite bool_decide_eq_true_2 by (by apply list_elem_of_fmap_2). split; [done|].
    split; [|done]. destruct R.
    split; simpl; try done.
    + by rewrite length_alter.
    + apply (slot_alter _ _ _ (pending s)); try done.
      * apply Z.mod_pos_bound. lia.
      * apply filter2_ext_in. tauto.
      * intros i Hi. unfold bucket. rewrite list_filter_filter. apply filter_ext_in.
        intros x Hx. split; [tauto|]. intros <-. split; [done|]. intros Ex. apply Hi.
        by rewrite (U x e).
    + intros id' sl'. destruct (decide (id' = te_id e)) as [->|Hne].
      * rewrite lookup_delete_eq. split; [done|].
        intros (x & [? ?]%list_elem_of_filter & ? & _). done.
      * rewrite lookup_delete_ne, rf_map0 by done.
        setoid_rewrite list_elem_of_filter.
        split; [intros (x & Hx & <- & ->)|intros (x & [_ Hx] & ? & ?)]; eauto 6.
    + by apply NoDup_fmap_filter.
    + by apply Forall_filter_sub.
    + by apply Forall_filter_sub.
  - assert (Hno : forall x, x ∈ pending s -> te_id x <> id).
    { intros x Hx <-. assert (timer_slot_ w !! te_id x = Some (te_expire_tick x mod slots_ w)) by
        (apply R; eauto). congruence. }
    rewrite bool_decide_eq_false_2.
    2:{ intros (x & -> & Hx)%list_elem_of_fmap. by apply (Hno x). }
    split; [done|]. split; [|done]. rewrite filter_id by done. by destruct s.
Qed.

Lemma lookup_fold_delete (es : list (TimerEntry CB)) (m : gmap Z Z) id sl :
  fold_left (fun m e => delete (te_id e) m) es m !! id = Some sl <->
  m !! id = Some sl /\ id ∉ te_id <$> es.
Proof.
  revert m. induction es as [|e es IH]; intros m; simpl.
  - split; [intros; split; [done|apply not_elem_of_nil]|tauto].
  - rewrite IH, not_elem_of_cons, lookup_delete_Some.
    split; [intros [[? ?] ?]|intros (? & ? & ?)]; auto.
Qed.

Lemma refines_tick w s :
  refines w s -> now s + 1 < 2 ^ 64 ->
  exists w', tick_collect w = Ret ((timers_tick s).1, w') /\
    refines w' (timers_tick s).2 /\ tick_ms_ w' = tick_ms_ w.
Proof.
  intros R Hb. pose proof (fun e1 e2 => refines_entry_unique w s e1 e2 R) as U. destruct R.
  rewrite Forall_forall in rf_due0.
  set (k := now s mod slots_ w).
  assert (Hk : 0 <= k < slots_ w) by (apply Z.mod_pos_bound; lia).
  assert (Hfired : filter (fun e => te_expire_tick e <= now s) (bucket (slots_ w) k (pending s))
                   = (timers_tick s).1).
  { unfold bucket. rewrite list_filter_filter. apply filter_ext_in. intros x Hx.
    apply rf_due0 in Hx. split; [lia|]. unfold k. intros <-. split; [lia|done]. }
  unfold tick_collect. rewrite (proj2 (Z.eqb_neq _ _)), rf_now0 by lia. fold k.
  rewrite rf_wheel0, Hfired by done. rewrite wrap_small by (unfold is_u; lia).
  eexists. split; [done|]. split; [|done].
  split; simpl; try done; try lia.
  - by rewrite length_insert.
  - intros i Hi. destruct (decide (i = k)) as [->|Hne].
    + rewrite list_lookup_insert_eq by lia. f_equal. apply filter2_ext_in.
      intros x Hx. apply rf_due0 in Hx. split; intros [? ?]; split; lia || done.
    + rewrite list_lookup_insert_ne, rf_wheel0 by lia. f_equal. unfold bucket.
      rewrite list_filter_filter. apply filter_ext_in. intros x Hx.
      split; [|tauto]. intros <-. split; [done|]. intros E. apply Hne. unfold k. by rewrite E.
  - intros id sl. rewrite lookup_fold_delete, rf_map0. setoid_rewrite list_elem_of_filter.
    split.
    + intros [(e & He & <- & ->) Hno]. exists e. split_and!; try done. intros E. apply Hno.
      apply list_elem_of_fmap_2, list_elem_of_filter. done.
    + intros (e & [Hne He] & <- & ->). split; [eauto|].
      intros (x & Ex & [? Hx]%list_elem_of_filter)%list_elem_of_fmap. apply Hne.
      by rewrite (U e x).
  - by apply NoDup_fmap_filter.
  - by apply Forall_filter_sub.
  - apply Forall_forall. intros x [? Hx]%list_elem_of_filter. apply rf_due0 in Hx. lia.
Qed.
End Refinement.

(** ** Runs: any interleaving of operations, callbacks' own calls included *)

(** The operations one after the other.  [add_timer] reads [current_tick_]
    before it takes the lock; its steps are not interleaved with a [tick] of
    another thread here.  A [tick] whose callbacks call back into the wheel is an
    [OpTick] followed by the operations the callbacks issue. *)
Inductive timer_op (CB : Type) :=
| OpAdd (delay_ms : Z) (cb : CB)
| OpCancel (id : Z)
| OpTick.
Arguments OpAdd {CB}.
Arguments OpCancel {CB}.
Arguments OpTick {CB}.

Inductive timer_out (CB : Type) :=
| OutId (id : Z)
| OutBool (b : bool)
| OutFired (fired : list (TimerEntry CB)).
Arguments OutId {CB}.
Arguments OutBool {CB}.
Arguments OutFired {CB}.

Section Runs.
Context {CB : Type}.
Implicit Types (w : TimingWheel CB) (e : TimerEntry CB) (s : timers (CB := CB)).
Implicit Types (op : timer_op CB) (ops : list (timer_op CB)).

Definition wheel_op w op : outcome (timer_out CB * TimingWheel CB) :=
  match op with
  | OpAdd d cb => let* r := add_timer d cb w in Ret (OutId r.1, r.2)
  | OpCancel id => let r := cancel_timer id w in Ret (OutBool r.1, r.2)
  | OpTick => let* r := tick_collect w in Ret (OutFired r.1, r.2)
  end.

Fixpoint wheel_run w ops : outcome (list (timer_out CB) * TimingWheel CB) :=
  match ops with
  | [] => Ret ([], w)
  | op :: ops =>
      let* r := wheel_op w op in
      let* rs := wheel_run r.2 ops in
      Ret (r.1 :: rs.1, rs.2)
  end.

Definition timers_op (tick_ms : Z) s op : timer_out CB * timers :=
  match op with
  | OpAdd d cb => let r := timers_add tick_ms d cb s in (OutId r.1, r.2)
  | OpCancel id => let r := timers_cancel id s in (OutBool r.1, r.2)
  | OpTick => let r := timers_tick s in (OutFired r.1, r.2)
  end.

Fixpoint timers_run (tick_ms : Z) s ops : list (timer_out CB) * timers :=
  match ops with
  | [] => ([], s)
  | op :: ops =>
      let r := timers_op tick_ms s op in
      let rs := timers_run tick_ms r.2 ops in
      (r.1 :: rs.1, rs.2)
  end.

(** Delays from 1 ms to 2^62 ms; [delay_ms = 0] is [zero_delay_skips_next_tick]. *)
Definition op_ok op : Prop :=
  match op with OpAdd d _ => 0 < d <= 2 ^ 62 | _ => True end.

#[global] Instance op_ok_dec op : Decision (op_ok op).
Proof. destruct op; simpl; apply _. Defined.

(** Bounds that keep the 64-bit counters from wrapping for [n] more operations. *)
Definition run_bounds w s (n : nat) : Prop :=
  tick_ms_ w <= 2 ^ 62 /\ now s + Z.of_nat n <= 2 ^ 62 /\
  0 <= next s /\ next s + Z.of_nat n <= 2 ^ 62.

Lemma refines_op w s op n :
  refines w s -> op_ok op -> run_bounds w s (S n) ->
  exists w', wheel_op w op = Ret ((timers_op (tick_ms_ w) s op).1, w') /\
    refines w' (timers_op (tick_ms_ w) s op).2 /\ tick_ms_ w' = tick_ms_ w /\
    run_bounds w' (timers_op (tick_ms_ w) s op).2 n.
Proof.
  intros R Hop (Ht & Hn & Hx & Hx'). unfold run_bounds. destruct op as [d cb|id|]; simpl in *.
  - destruct (refines_add w s d cb) as (w' & -> & R' & E); [done|lia..|].
    exists w'. rewrite E. split_and!; (done || simpl; lia).
  - destruct (refines_cancel w s id R) as (E1 & R' & E2).
    eexists. rewrite E1. rewrite E2. split_and!; (done || simpl; lia).
  - destruct (refines_tick w s R) as (w' & -> & R' & E); [lia|].
    exists w'. rewrite E. split_and!; (done || simpl; lia).
Qed.

Lemma refines_run ops n : forall w s,
  refines w s -> Forall op_ok ops -> run_bounds w s (length ops + n) ->
  exists w', wheel_run w ops = Ret ((timers_run (tick_ms_ w) s ops).1, w') /\
    refines w' (timers_run (tick_ms_ w) s ops).2 /\ tick_ms_ w' = tick_ms_ w /\
    run_bounds w' (timers_run (tick_ms_ w) s ops).2 n.
Proof.
  induction ops as [|op ops IH]; intros w s R Hops Hb; simpl; [eauto|].
  apply Forall_cons in Hops as [Hop Hops].
  destruct (refines_op w s op (length ops + n)) as (w1 & -> & R1 & E1 & B1); [done..|].
  destruct (IH w1 _ R1 Hops B1) as (w2 & E2 & R2 & T2 & B2). rewrite E1 in E2, R2, T2, B2.
  cbn [mbind outcome_bind fst snd]. rewrite E2. cbn [mbind outcome_bind fst snd]. eauto 6.
Qed.

(** ** When a timer fires *)

(** The batches of timers fired by the successive ticks of a run. *)
Fixpoint fired_by_tick (outs : list (timer_out CB)) : list (list (TimerEntry CB)) :=
  match outs with
  | [] => []
  | OutFired l :: outs => l :: fired_by_tick outs
  | _ :: outs => fired_by_tick outs
  end.

Lemma timers_absent tick_ms id ops : forall s,
  (forall x, x ∈ pending s -> te_id x <> id) -> id < next s ->
  forall n l x, fired_by_tick (timers_run tick_ms s ops).1 !! n = Some l -> x ∈ l -> te_id x <> id.
Proof.
  induction ops as [|op ops IH]; intros s Hno Hid n l x; [done|].
  destruct op as [d cb|id'|]; simpl.
  - apply IH; simpl; [|lia]. intros y [Hy|Hy%list_elem_of_singleton]%elem_of_app; [auto|].
    subst y. simpl. lia.
  - apply IH; simpl; [|done]. intros y [_ Hy]%list_elem_of_filter. auto.
  - destruct n as [|n]; simpl.
    + intros [= <-] [_ Hx]%list_elem_of_filter. auto.
    + apply IH; simpl; [|done]. intros y [_ Hy]%list_elem_of_filter. auto.
Qed.

(** A pending timer fires at the tick its expiry names, once, unless cancelled. *)
Lemma timers_fire tick_ms e ops : forall s,
  e ∈ pending s -> (forall x, x ∈ pending s -> te_id x = te_id e -> x = e) ->
  te_id e < next s -> now s <= te_expire_tick e -> OpCancel (te_id e) ∉ ops ->
  forall n l, fired_by_tick (timers_run tick_ms s ops).1 !! n = Some l ->
    (e ∈ l <-> te_expire_tick e = now s + Z.of_nat n) /\
    (forall x, x ∈ l -> te_id x = te_id e -> x = e).
Proof.
  induction ops as [|op ops IH]; intros s He Hu Hid Hdue Hc n l; [done|].
  apply not_elem_of_cons in Hc as [Hc Hcs]. destruct op as [d cb|id'|]; simpl.
  - intros Hl. apply IH in Hl; simpl in *; try done; try lia.
    + apply elem_of_app. by left.
    + intros x [Hx|Hx%list_elem_of_singleton]%elem_of_app; [auto|]. subst x. simpl. lia.
  - intros Hl. apply IH in Hl; simpl in *; try done.
    + apply list_elem_of_filter. split; [congruence|done].
    + intros x [_ Hx]%list_elem_of_filter. auto.
  - destruct n as [|n]; simpl.
    + intros [= <-]. setoid_rewrite list_elem_of_filter. rewrite Z.add_0_r.
      split; [tauto|]. intros x [_ Hx]. auto.
    + destruct (decide (te_expire_tick e = now s)) as [Heq|Hne].
      * intros Hl. assert (Hno : forall x, x ∈ l -> te_id x <> te_id e).
        { intros x. eapply (timers_absent _ _ ops); [..|exact Hl]; simpl; [|done].
          intros y [Hy Hy']%list_elem_of_filter Ey. apply Hy. by rewrite (Hu y). }
        split; [|intros x Hx Ex; by apply Hno in Hx].
        split; [intros He'; by apply Hno in He'|lia].
      * intros Hl. apply IH in Hl; simpl in *; try done; try lia.
        -- destruct Hl as [-> ?]. split; [lia|done].
        -- apply list_elem_of_filter. done.
        -- intros x [_ Hx]%list_elem_of_filter. auto.
Qed.
End Runs.

(** ** Properties *)

Section Properties.
Context {CB : Type}.
Implicit Types (w : TimingWheel CB) (e : TimerEntry CB) (s : timers (CB := CB)).
Implicit Types (ops : list (timer_op CB)).

Lemma new_run_bounds slots tick_ms n :
  tick_ms <= 2 ^ 62 -> Z.of_nat n < 2 ^ 62 ->
  run_bounds (TimingWheel_new (CB := CB) slots tick_ms) (mkTimers 0 1 []) n.
Proof. unfold run_bounds. simpl. lia. Qed.

Lemma timers_run_app tick_ms ops1 ops2 s :
  timers_run tick_ms s (ops1 ++ ops2) =
  ((timers_run tick_ms s ops1).1 ++ (timers_run tick_ms (timers_run tick_ms s ops1).2 ops2).1,
   (timers_run tick_ms (timers_run tick_ms s ops1).2 ops2).2).
Proof.
  revert s. induction ops1 as [|op ops1 IH]; intros s; simpl; [by destruct timers_run|].
  by rewrite IH.
Qed.

Lemma timers_run_length tick_ms ops s :
  (length (pending (timers_run tick_ms s ops).2) <= length (pending s) + length ops)%nat.
Proof.
  revert s. induction ops as [|op ops IH]; intros s; simpl; [lia|].
  etrans; [apply IH|]. destruct op; simpl.
  - rewrite length_app. simpl. lia.
  - pose proof (length_filter (fun e => te_id e <> id) (pending s)). lia.
  - pose proof (length_filter (fun e => te_expire_tick e <> now s) (pending s)). lia.
Qed.

Lemma wheel_run_slots ops : forall w outs w',
  wheel_run w ops = Ret (outs, w') -> slots_ w' = slots_ w.
Proof.
  induction ops as [|op ops IH]; intros w outs w'; simpl; [congruence|].
  intros ([out w1] & E1 & ([outs1 w2] & E2 & [= _ <-])%bind_Ret_inv)%bind_Ret_inv. simpl in *.
  rewrite (IH _ _ _ E2). destruct op as [d cb|id|]; simpl in E1.
  - apply bind_Ret_inv in E1 as (r & Er & [= _ <-]). unfold add_timer in Er.
    repeat (destruct (_ =? 0); [done|]). by injection Er as <-.
  - injection E1 as _ <-. unfold cancel_timer. by destruct (_ !! id).
  - apply bind_Ret_inv in E1 as (r & Er & [= _ <-]). unfold tick_collect in Er.
    destruct (_ =? 0); [done|]. destruct (_ !! _); [|done]. by injection Er as <-.
Qed.

(** The expiry of a zero delay shares the current slot only when it wrapped. *)
Lemma zero_delay_slot slots now :
  1 < slots -> 0 <= now < 2 ^ 64 -> u64 (now + 0 - 1) mod slots = now mod slots ->
  now < u64 (now + 0 - 1).
Proof.
  intros Hs Hnow. destruct (decide (now = 0)) as [->|Hne]; [done|].
  rewrite wrap_small by (unfold is_u; lia). intros E. exfalso.
  assert (Hd : (now - (now + 0 - 1)) mod slots = 0) by
    (rewrite Zminus_mod, E, Z.sub_diag; apply Z.mod_0_l; lia).
  replace (now - _) with 1 in Hd by lia. rewrite Z.mod_small in Hd; lia.
Qed.

(** A run from a fresh wheel, with room for [n] more operations after it. *)
Lemma fresh_run slots tick_ms ops n :
  0 < slots -> 0 < tick_ms <= 2 ^ 62 -> Forall op_ok ops -> zlen ops + Z.of_nat n < 2 ^ 62 ->
  let s := (timers_run tick_ms (mkTimers 0 1 []) ops).2 in
  exists w, wheel_run (TimingWheel_new slots tick_ms) ops
            = Ret ((timers_run tick_ms (mkTimers 0 1 []) ops).1, w) /\
    refines w s /\ tick_ms_ w = tick_ms /\ run_bounds w s n.
Proof.
  intros Hs Ht Hops Hn.
  destruct (refines_run ops n (TimingWheel_new slots tick_ms) (mkTimers 0 1 []))
    as (w & E & R & T & B); [apply refines_new; lia|done|apply new_run_bounds; lia|].
  simpl in *. eauto 6.
Qed.

(** C30: for timers with positive delays the hashed wheel refines the slot-free
    timer service: from a fresh wheel, every sequence of [add_timer] with a
    positive delay, [cancel_timer] and [tick] critical sections runs without
    undefined behaviour and gives the same ids, the same answers and the same
    batches of fired timers, in order. *)
Theorem wheel_refines_timers slots tick_ms ops :
  0 < slots -> 0 < tick_ms <= 2 ^ 62 -> Forall op_ok ops -> zlen ops < 2 ^ 62 ->
  exists w, wheel_run (TimingWheel_new slots tick_ms) ops
            = Ret ((timers_run tick_ms (mkTimers 0 1 []) ops).1, w).
Proof.
  intros Hs Ht Hops Hn.
  destruct (fresh_run slots tick_ms ops 0) as (w & E & _); [done..|lia|]. eauto.
Qed.

(** C12: a timer fires exactly on time.  In any state reached from a fresh wheel,
    a timer added with [delay_ms > 0] is fired by the [ceil(delay_ms / tick_ms)]-th
    [tick] that follows and by no other one, whatever other timers are added,
    cancelled or fired in between, as long as it is not cancelled itself. *)
Theorem timer_fires_exactly slots tick_ms ops0 d (cb : CB) ops :
  0 < slots -> 0 < tick_ms <= 2 ^ 62 -> 0 < d <= 2 ^ 62 ->
  Forall op_ok ops0 -> Forall op_ok ops -> zlen ops0 + zlen ops + 1 < 2 ^ 62 ->
  exists w id w1,
    wheel_run (TimingWheel_new slots tick_ms) ops0
      = Ret ((timers_run tick_ms (mkTimers 0 1 []) ops0).1, w) /\
    add_timer d cb w = Ret (id, w1) /\
    (OpCancel id ∉ ops ->
     exists outs w2, wheel_run w1 ops = Ret (outs, w2) /\
       forall n l, fired_by_tick outs !! n = Some l ->
         (exists e, e ∈ l /\ te_id e = id /\ te_callback e = cb) <->
         Z.of_nat n + 1 = (d + tick_ms - 1) / tick_ms).
Proof.
  intros Hs Ht Hd H0 H1 Hn.
  destruct (fresh_run slots tick_ms ops0 (S (length ops))) as (w & E & R & T & B); [done..|lia|].
  set (s := (timers_run tick_ms (mkTimers 0 1 []) ops0).2) in *. rewrite <- T in *.
  destruct (refines_op w s (OpAdd d cb) (length ops) R Hd B) as (w1 & E1 & R1 & T1 & B1).
  apply bind_Ret_inv in E1 as ([id w1'] & E1 & [= Eid Ew]); subst w1'. simpl in *.
  exists w, id, w1. split_and!; [done..|]. intros Hc.
  destruct (refines_run ops 0 w1 _ R1 H1) as (w2 & E2 & _); [by rewrite Nat.add_0_r|].
  rewrite T1 in E2. eexists _, w2. split; [exact E2|]. intros n l Hl.
  subst id. destruct R1 as [_ _ _ _ _ _ _ _ Hnd Hids Hdue]; simpl in *.
  set (e := mkEntry (next s) (now s + (d + tick_ms_ w - 1) / tick_ms_ w - 1) cb) in *.
  rewrite Forall_app, Forall_singleton in Hdue, Hids.
  pose proof Hl as Hl'. eapply (timers_fire _ e) in Hl' as [Hiff Huniq]; simpl in *.
  - split.
    + intros (x & Hx & Ex & _). rewrite (Huniq x) in Hx by done. apply Hiff in Hx. lia.
    + intros En. exists e. split; [apply Hiff; lia|done].
  - apply elem_of_app. right. by left.
  - intros x [Hx|Hx%list_elem_of_singleton]%elem_of_app Ex; [|done].
    rewrite fmap_app in Hnd. apply NoDup_app in Hnd as (_ & Hnd & _). exfalso.
    apply (Hnd (te_id x)); [by apply list_elem_of_fmap_2|]. rewrite Ex. by left.
  - lia.
  - tauto.
  - done.
Qed.

(** Cancellation is exact.  In any reachable state [cancel_timer] returns
    true iff the timer sits in the wheel; afterwards a second cancellation
    returns false and, once the id has been issued, no later [tick] fires it. *)
Theorem cancel_stops_timer slots tick_ms ops0 id ops :
  0 < slots -> 0 < tick_ms <= 2 ^ 62 ->
  Forall op_ok ops0 -> Forall op_ok ops -> zlen ops0 + zlen ops < 2 ^ 62 ->
  exists outs0 w, wheel_run (TimingWheel_new (CB := CB) slots tick_ms) ops0 = Ret (outs0, w) /\
    ((cancel_timer id w).1 = true <-> exists l e, l ∈ wheels_ w /\ e ∈ l /\ te_id e = id) /\
    (cancel_timer id (cancel_timer id w).2).1 = false /\
    exists outs w2, wheel_run (cancel_timer id w).2 ops = Ret (outs, w2) /\
      (id < next_id_ w -> forall n l x, fired_by_tick outs !! n = Some l -> x ∈ l -> te_id x <> id).
Proof.
  intros Hs Ht H0 H1 Hn.
  destruct (fresh_run slots tick_ms ops0 (length ops)) as (w & E & R & T & B); [done..|lia|].
  set (s := (timers_run tick_ms (mkTimers 0 1 []) ops0).2) in *.
  destruct (refines_cancel w s id R) as (C1 & R1 & T1).
  destruct (refines_cancel _ _ id R1) as (C2 & _ & _).
  eexists _, w. split_and!; [exact E|..].
  - rewrite C1. simpl. rewrite bool_decide_eq_true. split.
    + intros (e & -> & He)%list_elem_of_fmap.
      assert (Hk : 0 <= te_expire_tick e mod slots_ w < slots_ w) by
        (apply Z.mod_pos_bound, R).
      eexists _, e. split_and!; [eapply list_elem_of_lookup_2, (rf_wheel w s R), Hk| |done].
      by apply list_elem_of_filter.
    + intros (l & e & [i Hi]%list_elem_of_lookup & He & <-).
      assert (Hlen : (i < length (wheels_ w))%nat) by (eapply lookup_lt_Some; eauto).
      rewrite (rf_len w s R) in Hlen. rewrite <- (Nat2Z.id i), (rf_wheel w s R) in Hi by lia.
      injection Hi as <-. apply list_elem_of_filter in He as [_ He]. by apply list_elem_of_fmap_2.
  - rewrite C2. apply bool_decide_eq_false. simpl.
    by intros (e & -> & [? ?]%list_elem_of_filter)%list_elem_of_fmap.
  - destruct (refines_run ops 0 _ _ R1 H1) as (w2 & E2 & _).
    { rewrite Nat.add_0_r. unfold run_bounds in *. by rewrite T1. }
    eexists _, w2. split; [exact E2|]. intros Hid. rewrite (rf_next w s R) in Hid.
    apply timers_absent; [|done]. by intros x [? ?]%list_elem_of_filter.
Qed.

(** *** [advance] with callbacks that leave the wheel alone *)

Lemma run_callbacks_inert (cmds : CB -> list (timer_cmd CB)) es w :
  (forall cb, cmds cb = []) -> run_callbacks cmds w es = Ret w.
Proof. intros Hc. induction es as [|e es IH]; simpl; [done|]. by rewrite Hc. Qed.

Lemma advance_inert (cmds : CB -> list (timer_cmd CB)) n : forall w s total fired,
  (forall cb, cmds cb = []) -> refines w s -> now s + Z.of_nat n < 2 ^ 64 ->
  exists new w', advance_loop cmds n total fired w
      = Ret (fold_left (fun t l => u64 (t + zlen l)) new total, fired ++ concat new, w') /\
    length new = n /\
    concat new ≡ₚ filter (fun e => te_expire_tick e < now s + Z.of_nat n) (pending s).
Proof.
  induction n as [|n IH]; intros w s total fired Hc R Hb.
  - exists [], w. simpl. rewrite app_nil_r. split_and!; [done..|].
    rewrite filter_none; [done|]. intros e He. pose proof (rf_due w s R) as Hd.
    rewrite Forall_forall in Hd. apply Hd in He. lia.
  - destruct (refines_tick w s R) as (w1 & E1 & R1 & _); [lia|].
    destruct (IH w1 _ (u64 (total + zlen (timers_tick s).1)) (fired ++ (timers_tick s).1) Hc R1)
      as (new & w2 & E2 & L2 & P2); [simpl; lia|].
    exists ((timers_tick s).1 :: new), w2. cbn [advance_loop]. unfold tick. rewrite E1.
    cbn [mbind outcome_bind]. rewrite run_callbacks_inert by done. cbn [mbind outcome_bind].
    rewrite E2, <- app_assoc. split_and!; [done|simpl; lia|]. cbn [concat]. rewrite P2. simpl.
    rewrite (filter_ext_in (fun e => te_expire_tick e < now s + 1 + Z.of_nat n)
                           (fun e => te_expire_tick e < now s + Z.of_nat (S n))) by (intros; lia).
    apply filter_partition. lia.
Qed.

Lemma fold_wrap_total (new : list (list (TimerEntry CB))) t :
  0 <= t -> t + zlen (concat new) < 2 ^ 64 ->
  fold_left (fun t l => u64 (t + zlen l)) new t = t + zlen (concat new).
Proof.
  revert t. induction new as [|l new IH]; intros t Ht Hb; simpl in *; [lia|].
  rewrite length_app in *. rewrite wrap_small by (unfold is_u; lia). rewrite IH; lia.
Qed.

(** [advance(n)] fires exactly the timers due within the next [n] ticks, each
    once, and returns how many they are (callbacks that leave the wheel alone). *)
Theorem advance_fires_due slots tick_ms ops (cmds : CB -> list (timer_cmd CB)) n :
  0 < slots -> 0 < tick_ms <= 2 ^ 62 -> Forall op_ok ops -> zlen ops < 2 ^ 62 ->
  0 <= n <= 2 ^ 62 -> (forall cb, cmds cb = []) ->
  let s := (timers_run tick_ms (mkTimers 0 1 []) ops).2 in
  exists outs w fired w',
    wheel_run (TimingWheel_new slots tick_ms) ops = Ret (outs, w) /\
    advance cmds n w = Ret (zlen fired, fired, w') /\
    fired ≡ₚ filter (fun e => te_expire_tick e < current_tick_ w + n) (pending s).
Proof.
  intros Hs Ht Hops Hn Hadv Hc s.
  destruct (fresh_run slots tick_ms ops 0) as (w & E & R & T & B); [done..|lia|]. fold s in R, B.
  destruct B as (_ & B & _ & B').
  destruct (advance_inert cmds (Z.to_nat n) w s 0 [] Hc R) as (new & w' & E' & _ & P); [lia|].
  assert (Hlen : (length (pending s) <= length ops)%nat) by
    apply (timers_run_length tick_ms ops (mkTimers 0 1 [])).
  assert (Hfl : (length (concat new) <= length (pending s))%nat) by
    (rewrite P; apply length_filter).
  exists (timers_run tick_ms (mkTimers 0 1 []) ops).1, w, (concat new), w'.
  split; [done|]. split.
  - unfold advance. rewrite E', fold_wrap_total; [done|lia..].
  - rewrite P, (rf_now w s R), Z2Nat.id by lia. done.
Qed.

(** A zero delay is not due at the next tick.  [expire_tick] is
    [current_tick_ + 0 - 1], the slot the wheel has just left (and [SIZE_MAX] on
    a fresh wheel), so with two slots or more the [tick] after
    [add_timer(0, cb)] does not fire it, in any reachable state. *)
Theorem zero_delay_skips_next_tick slots tick_ms ops (cb : CB) :
  1 < slots -> 0 < tick_ms <= 2 ^ 62 -> Forall op_ok ops -> zlen ops < 2 ^ 62 ->
  exists outs w id w1 fired w2,
    wheel_run (TimingWheel_new slots tick_ms) ops = Ret (outs, w) /\
    add_timer 0 cb w = Ret (id, w1) /\ tick_collect w1 = Ret (fired, w2) /\
    id ∉ te_id <$> fired.
Proof.
  intros Hs Ht Hops Hn.
  destruct (fresh_run slots tick_ms ops 0) as (w & E & R & T & B); [lia|done..|lia|].
  pose proof (wheel_run_slots ops _ _ _ E) as Sl. simpl in Sl.
  set (s := (timers_run tick_ms (mkTimers 0 1 []) ops).2) in *. destruct R. destruct B as (_ & B & _).
  assert (Hadd : exists w1, add_timer 0 cb w = Ret (next_id_ w, w1) /\ slots_ w1 = slots_ w /\
     current_tick_ w1 = current_tick_ w /\
     wheels_ w1 = alter (fun l => l ++ [mkEntry (next_id_ w) (u64 (current_tick_ w + 0 - 1)) cb])
                    (Z.to_nat (u64 (current_tick_ w + 0 - 1) mod slots_ w)) (wheels_ w)).
  { unfold add_timer.
    rewrite (proj2 (Z.eqb_neq (tick_ms_ w) 0)), (proj2 (Z.eqb_neq (slots_ w) 0)) by lia.
    rewrite (wrap_small 64 (0 + _ - 1)), (Z.div_small (0 + _ - 1)) by (unfold is_u; lia). eauto. }
  destruct Hadd as (w1 & E1 & Sl1 & C1 & W1).
  eexists _, w, (next_id_ w), w1. unfold tick_collect. rewrite Sl1, C1, W1.
  set (ex := u64 (_ + 0 - 1)). set (k := ex mod slots_ w).
  rewrite (proj2 (Z.eqb_neq (slots_ w) 0)) by lia.
  set (i := current_tick_ w mod slots_ w).
  assert (Hi : 0 <= i < slots_ w) by (apply Z.mod_pos_bound; lia).
  assert (Hk : 0 <= k < slots_ w) by (apply Z.mod_pos_bound; lia).
  assert (Hold : forall x, x ∈ bucket (slots_ w) i (pending s) -> te_id x <> next_id_ w).
  { intros x [_ Hx]%list_elem_of_filter. rewrite Forall_forall in rf_ids0. apply rf_ids0 in Hx. lia. }
  destruct (decide (k = i)) as [Eki|Hne].
  - assert (Hex : current_tick_ w < ex) by (apply (zero_delay_slot (slots_ w)); [lia..|done]).
    rewrite Eki, list_lookup_alter_eq, rf_wheel0 by done. simpl.
    eexists _, _. split_and!; [done..|].
    intros (x & Ex & [Hx [Hx'|Hx'%list_elem_of_singleton]%elem_of_app]%list_elem_of_filter)%list_elem_of_fmap;
      [by apply (Hold x)|subst x; simpl in Hx; lia].
  - rewrite list_lookup_alter_ne, rf_wheel0 by lia.
    eexists _, _. split_and!; [done..|].
    intros (x & Ex & [_ Hx]%list_elem_of_filter)%list_elem_of_fmap. by apply (Hold x).
Qed.
End Properties.

(** [tick] and its callbacks are one run of critical sections: the theorems on
    runs cover callbacks that add and cancel timers. *)
Section Reentrant.
Context {CB : Type} (cmds : CB -> list (timer_cmd CB)).

Definition cmd_op (c : timer_cmd CB) : timer_op CB :=
  match c with CmdAdd d cb => OpAdd d cb | CmdCancel id => OpCancel id end.

Lemma wheel_run_app ops1 ops2 (w : TimingWheel CB) :
  wheel_run w (ops1 ++ ops2) =
  let* r := wheel_run w ops1 in let* r' := wheel_run r.2 ops2 in Ret (r.1 ++ r'.1, r'.2).
Proof.
  revert w. induction ops1 as [|op ops1 IH]; intros w; simpl.
  - by destruct (wheel_run w ops2) as [[]| |].
  - destruct (wheel_op w op) as [r| |]; simpl; [|done..]. rewrite IH.
    destruct (wheel_run r.2 ops1) as [r1| |]; simpl; [|done..].
    by destruct (wheel_run r1.2 ops2).
Qed.

Lemma run_cmds_run cs w w' :
  run_cmds w cs = Ret w' -> exists outs, wheel_run w (cmd_op <$> cs) = Ret (outs, w').
Proof.
  revert w. induction cs as [|c cs IH]; intros w; cbn [run_cmds]; [intros [= <-]; by eexists|].
  intros (w1 & E1 & E2)%bind_Ret_inv. apply IH in E2 as [outs E2].
  rewrite fmap_cons. cbn [wheel_run].
  assert (E1' : exists o, wheel_op w (cmd_op c) = Ret (o, w1)).
  { destruct c as [d cb|id]; simpl in *; [|injection E1 as <-; eauto].
    apply bind_Ret_inv in E1 as (r & -> & [= <-]). simpl. eauto. }
  destruct E1' as [o ->]. cbn [mbind outcome_bind fst snd]. rewrite E2. by eexists.
Qed.

Lemma run_callbacks_run es w w' :
  run_callbacks cmds w es = Ret w' ->
  exists outs, wheel_run w (cmd_op <$> concat ((fun e => cmds (te_callback e)) <$> es)) = Ret (outs, w').
Proof.
  revert w. induction es as [|e es IH]; intros w; cbn [run_callbacks]; [intros [= <-]; by eexists|].
  intros (w1 & E1 & E2)%bind_Ret_inv. apply run_cmds_run in E1 as [outs1 E1].
  apply IH in E2 as [outs2 E2]. rewrite fmap_cons. cbn [concat].
  rewrite fmap_app, wheel_run_app, E1.
  cbn [mbind outcome_bind fst snd]. rewrite E2. by eexists.
Qed.

(** A [tick] whose callbacks call [add_timer] and [cancel_timer] on the same
    wheel is the run of its critical section followed by those calls in firing
    order; it returns the number of timers its critical section collected. *)
Theorem tick_is_run w n es w' :
  tick cmds w = Ret (n, es, w') ->
  n = zlen es /\ exists outs,
    wheel_run w (OpTick :: (cmd_op <$> concat ((fun e => cmds (te_callback e)) <$> es)))
    = Ret (OutFired es :: outs, w').
Proof.
  unfold tick. intros ([es1 w1] & E1 & (w2 & E2 & [= <- <- <-])%bind_Ret_inv)%bind_Ret_inv.
  apply run_callbacks_run in E2 as [outs E2]. split; [done|]. exists outs.
  cbn [wheel_run wheel_op]. rewrite E1. cbn [mbind outcome_bind fst snd]. by rewrite E2.
Qed.
End Reentrant.

(** ** Witnesses *)

Lemma wheel_refines_timers_witness :
  exists w : TimingWheel unit,
    wheel_run (TimingWheel_new 4 10) [OpAdd 15 tt; OpTick; OpAdd 45 tt; OpCancel 2; OpTick]
    = Ret ([OutId 1; OutFired []; OutId 2; OutBool true; OutFired [mkEntry 1 1 tt]], w).
Proof. 
  apply (wheel_refines_timers 4 10 [OpAdd 15 tt; OpTick; OpAdd 45 tt; OpCancel 2; OpTick]);
    [lia|lia|compute_done|simpl; lia].
Defined.

Lemma timer_fires_exactly_witness :
  exists (w : TimingWheel bool) id w1,
    wheel_run (TimingWheel_new 2 10) [OpTick; OpAdd 10 false] = Ret ([OutFired []; OutId 1], w) /\
    add_timer 25 true w = Ret (id, w1) /\
    (OpCancel (CB := bool) id ∉ [OpTick; OpTick; OpTick] ->
     exists outs w2, wheel_run w1 [OpTick; OpTick; OpTick] = Ret (outs, w2) /\
       forall n l, fired_by_tick outs !! n = Some l ->
         (exists e, e ∈ l /\ te_id e = id /\ te_callback e = true) <->
         Z.of_nat n + 1 = (25 + 10 - 1) / 10).
Proof.
  apply (timer_fires_exactly 2 10 [OpTick; OpAdd 10 false] 25 true [OpTick; OpTick; OpTick]);
    [lia|lia|lia|compute_done|compute_done|simpl; lia].
Defined.

Lemma cancel_stops_timer_witness :
  exists outs0 (w : TimingWheel unit),
    wheel_run (TimingWheel_new 2 10) [OpAdd 10 tt] = Ret (outs0, w) /\
    ((cancel_timer 1 w).1 = true <-> exists l e, l ∈ wheels_ w /\ e ∈ l /\ te_id e = 1) /\
    (cancel_timer 1 (cancel_timer 1 w).2).1 = false /\
    exists outs w2, wheel_run (cancel_timer 1 w).2 [OpTick; OpTick] = Ret (outs, w2) /\
      (1 < next_id_ w -> forall n l x, fired_by_tick outs !! n = Some l -> x ∈ l -> te_id x <> 1).
Proof.
  apply (cancel_stops_timer 2 10 [OpAdd 10 tt] 1 [OpTick; OpTick]);
    [lia|lia|compute_done|compute_done|simpl; lia].
Defined.

Lemma advance_fires_due_witness :
  exists outs (w : TimingWheel unit) fired w',
    wheel_run (TimingWheel_new 2 10) [OpAdd 10 tt; OpAdd 35 tt; OpAdd 20 tt] = Ret (outs, w) /\
    advance (fun _ => []) 2 w = Ret (zlen fired, fired, w') /\
    fired ≡ₚ filter (fun e => te_expire_tick e < current_tick_ w + 2)
      [mkEntry 1 0 tt; mkEntry 2 3 tt; mkEntry 3 1 tt].
Proof.
  apply (advance_fires_due 2 10 [OpAdd 10 tt; OpAdd 35 tt; OpAdd 20 tt] (fun _ => []) 2);
    [lia|lia|compute_done|simpl; lia|lia|done].
Defined.

Lemma zero_delay_skips_next_tick_witness :
  exists outs (w : TimingWheel unit) id w1 fired w2,
    wheel_run (TimingWheel_new 4 10) [OpTick] = Ret (outs, w) /\
    add_timer 0 tt w = Ret (id, w1) /\ tick_collect w1 = Ret (fired, w2) /\
    id ∉ te_id <$> fired.
Proof.
  apply (zero_delay_skips_next_tick 4 10 [OpTick] tt); [lia|lia|compute_done|simpl; lia].
Defined.

Lemma tick_is_run_witness :
  exists n es (w' : TimingWheel nat),
    tick (fun k => match k with O => [] | S k => [CmdAdd 10 k] end)
      (mkWheel 2 10 0 2 [[mkEntry 1 0 1%nat]; []] {[1 := 0]}) = Ret (n, es, w') /\ n = zlen es.
Proof.
  set (cmds := fun k => match k with O => [] | S k => [CmdAdd 10 k] end).
  set (w := mkWheel _ _ _ _ _ _).
  destruct (tick cmds w) as [[[n es] w']| |] eqn:E; [|by vm_compute in E..].
  exists n, es, w'. split; [done|]. exact (proj1 (tick_is_run cmds w n es w' E)).
Defined.
