(* ===== verification/Buffer.v ===== *)
(** * net/buffer.hpp: reference-counted blocks, Buffer and BufferChain

    Blocks live in a [heap] because copies of a [Buffer] share theirs: a
    pointer is an index into the heap, a dead block is [None].  A [Buffer] is
    its [shared_ptr] and its two positions.  [fresh] gives the indeterminate
    bytes of [new char[n]].

    The abstract object is the byte queue [content]: the bytes between the
    two positions. *)

From Stdlib Require Import ZArith Lia.
From S2P Require Import Prelude.

(** ** Data *)

Record BufferBlock := mkBlock {
  data_ : list Z;
  capacity_ : Z;
  size_ : Z;
  ref_count_ : Z;  (* std::atomic<int> *)
}.

Abbreviation heap := (list (option BufferBlock)).

Record Buffer := mkBuffer {
  block_ : option nat;
  read_pos_ : Z;
  write_pos_ : Z;
}.

(** Largest array size [new char[n]] accepts (PTRDIFF_MAX). *)
Definition max_alloc : Z := 2 ^ 63 - 1.

Section Ops.
Context (fresh : Z -> Z).
Implicit Types (h : heap) (b : Buffer).

(** ** BufferBlock *)

Definition BufferBlock_new (capacity : Z) h : outcome (nat * heap) :=
  if capacity <=? max_alloc
  then Ret (length h, h ++ [Some (mkBlock (fresh <$> seqZ 0 capacity) capacity 0 1)])
  else Throw "std::bad_array_new_length".

(** Dereferencing a block pointer: null and dead blocks are undefined. *)
Definition deref h (p : option nat) : outcome (nat * BufferBlock) :=
  match p with
  | None => Undef
  | Some i => match h !! i with Some (Some k) => Ret (i, k) | _ => Undef end
  end.

Definition with_data (k : BufferBlock) (d : list Z) : BufferBlock :=
  mkBlock d (capacity_ k) (size_ k) (ref_count_ k).

Definition add_ref (i : nat) h : outcome heap :=
  let* r := deref h (Some i) in
  let k := r.2 in
  Ret (<[i := Some (mkBlock (data_ k) (capacity_ k) (size_ k) (i32 (ref_count_ k + 1)))]> h).

(** [if (ref_count_.fetch_sub(1) == 1) delete this;] *)
Definition release (i : nat) h : outcome heap :=
  let* r := deref h (Some i) in
  let k := r.2 in
  Ret (<[i := if ref_count_ k =? 1 then None
              else Some (mkBlock (data_ k) (capacity_ k) (size_ k) (i32 (ref_count_ k - 1)))]> h).

Definition set_size (i : nat) (s : Z) h : outcome heap :=
  let* r := deref h (Some i) in
  let k := r.2 in
  Ret (<[i := Some (mkBlock (data_ k) (capacity_ k) s (ref_count_ k))]> h).

(** ** Buffer: positions *)

Definition Buffer_default : Buffer := mkBuffer None 0 0.

Definition Buffer_new (capacity : Z) h : outcome (heap * Buffer) :=
  let* r := BufferBlock_new capacity h in
  Ret (r.2, mkBuffer (Some r.1) 0 0).

(** The implicit copy shares the block; the implicit move leaves the source
    with a null block and its old positions. *)
Definition Buffer_copy b : Buffer := b.
Definition Buffer_move b : Buffer * Buffer := (b, mkBuffer None (read_pos_ b) (write_pos_ b)).

Definition readable b : Z := u64 (write_pos_ b - read_pos_ b).

Definition writable h b : outcome Z :=
  match block_ b with
  | None => Ret 0
  | Some _ => let* r := deref h (block_ b) in Ret (u64 (capacity_ r.2 - write_pos_ b))
  end.

Definition Buffer_empty b : bool := readable b =? 0.

Definition Buffer_capacity h b : outcome Z :=
  match block_ b with
  | None => Ret 0
  | Some _ => let* r := deref h (block_ b) in Ret (capacity_ r.2)
  end.

Definition skip (n : Z) b : Buffer :=
  mkBuffer (block_ b) (u64 (read_pos_ b + Z.min n (readable b))) (write_pos_ b).

Definition retreat (n : Z) b : Buffer :=
  mkBuffer (block_ b) (u64 (read_pos_ b - Z.min n (read_pos_ b))) (write_pos_ b).

Definition Buffer_reset b : Buffer := mkBuffer (block_ b) 0 0.
Definition Buffer_clear b : Buffer := mkBuffer (block_ b) 0 0.

(** ** Buffer: memory *)

(** [n] bytes at [block_->data() + off]. *)
Definition block_read h (p : option nat) (off n : Z) : outcome (list Z) :=
  let* r := deref h p in read_at (data_ r.2) off n.

Definition block_write h (p : option nat) (off : Z) (bs : list Z) : outcome heap :=
  let* r := deref h p in
  let* d := write_at (data_ r.2) off bs in
  Ret (<[r.1 := Some (with_data r.2 d)]> h).

Definition compact h b : outcome (heap * Buffer) :=
  if 0 <? read_pos_ b then
    let size := readable b in
    let* bs := block_read h (block_ b) (read_pos_ b) size in
    let* h := block_write h (block_ b) 0 bs in
    Ret (h, mkBuffer (block_ b) 0 size)
  else Ret (h, b).

Definition ensure_writable (size : Z) h b : outcome (heap * Buffer) :=
  match block_ b with
  | None =>
      let* r := BufferBlock_new (Z.max size 4096) h in
      Ret (r.2, mkBuffer (Some r.1) (read_pos_ b) (write_pos_ b))
  | Some _ =>
      let* room := writable h b in
      if size <=? room then Ret (h, b) else
      let* hb := compact h b in
      let '(h, b) := hb in
      let* room := writable h b in
      if size <=? room then Ret (h, b) else
      let* cap := Buffer_capacity h b in
      let new_capacity := Z.max (u64 (cap * 2)) (u64 (write_pos_ b + size)) in
      let* r := BufferBlock_new new_capacity h in
      let '(new_block, h) := r in
      let* bs := block_read h (block_ b) 0 (write_pos_ b) in
      let* h := block_write h (Some new_block) 0 bs in
      Ret (h, mkBuffer (Some new_block) (read_pos_ b) (write_pos_ b))
  end.

(** [write(data, size)], the source bytes being [bs] ([size = zlen bs]). *)
Definition write (bs : list Z) h b : outcome (heap * Buffer) :=
  let* hb := ensure_writable (zlen bs) h b in
  let '(h, b) := hb in
  let* h := block_write h (block_ b) (write_pos_ b) bs in
  Ret (h, mkBuffer (block_ b) (read_pos_ b) (u64 (write_pos_ b + zlen bs))).

(** [read(data, size)]: the bytes stored at [data]; their number is the result. *)
Definition read (size : Z) h b : outcome (list Z * Buffer) :=
  let size := Z.min size (readable b) in
  let* bs := block_read h (block_ b) (read_pos_ b) size in
  Ret (bs, mkBuffer (block_ b) (u64 (read_pos_ b + size)) (write_pos_ b)).

(** [read<T>()]: [value] is the indeterminate object the bytes are copied over. *)
Definition read_T (value : list Z) h b : outcome (list Z * Buffer) :=
  let* r := read (zlen value) h b in
  Ret (r.1 ++ drop (length r.1) value, r.2).

(** [as_span], [as_string] *)
Definition as_string h b : outcome (list Z) :=
  block_read h (block_ b) (read_pos_ b) (readable b).

(** [Buffer(const char*, size_t)], [Buffer(const std::string&)] *)
Definition Buffer_of (bs : list Z) h : outcome (heap * Buffer) :=
  let* hb := Buffer_new (zlen bs) h in
  write bs hb.1 hb.2.

(** ** BufferChain *)

Definition BufferChain := list Buffer.

Definition chain_append (buffer : Buffer) (c : BufferChain) : BufferChain := c ++ [buffer].

Definition chain_append_string (str : list Z) h (c : BufferChain) : outcome (heap * BufferChain) :=
  let* hb := Buffer_of str h in
  Ret (hb.1, c ++ [hb.2]).

Definition chain_total_size (c : BufferChain) : Z :=
  fold_left (fun total buf => u64 (total + readable buf)) c 0.

Fixpoint chain_append_all h (c : BufferChain) (result : list Z) : outcome (list Z) :=
  match c with
  | [] => Ret result
  | buf :: c =>
      let* bs := as_string h buf in
      chain_append_all h c (result ++ bs)
  end.

(** [to_string]: [reserve] throws beyond [max_size]. *)
Definition chain_to_string h (c : BufferChain) : outcome (list Z) :=
  if chain_total_size c <=? max_alloc then chain_append_all h c []
  else Throw "std::length_error".

Record iovec := mkIovec { iov_block : nat; iov_off : Z; iov_len : Z }.

Fixpoint chain_to_iovec h (c : BufferChain) : outcome (list iovec) :=
  match c with
  | [] => Ret []
  | buf :: c =>
      if 0 <? readable buf then
        let* r := deref h (block_ buf) in
        let* vecs := chain_to_iovec h c in
        Ret (mkIovec r.1 (read_pos_ buf) (readable buf) :: vecs)
      else chain_to_iovec h c
  end.

Definition chain_clear (c : BufferChain) : BufferChain := [].
Definition chain_empty (c : BufferChain) : bool := match c with [] => true | _ => false end.
Definition chain_count (c : BufferChain) : Z := zlen c.

(** What the kernel gathers from an iovec array (writev). *)
Fixpoint gather h (vecs : list iovec) : outcome (list Z) :=
  match vecs with
  | [] => Ret []
  | v :: vecs =>
      let* bs := block_read h (Some (iov_block v)) (iov_off v) (iov_len v) in
      let* rest := gather h vecs in
      Ret (bs ++ rest)
  end.
End Ops.

(** ** Representation: a buffer holds a byte queue *)

Section Rep.
Context (fresh : Z -> Z).
Implicit Types (h : heap) (b : Buffer) (q : list Z).

(** The capacity bound keeps [capacity * 2] representable and allocatable. *)
Definition max_capacity : Z := 2 ^ 62.

(** The block is live and reads [pre ++ q ++ post], [read_pos_] after [pre] and
    [write_pos_] after [q]; a buffer without a block is empty. *)
Definition holds h b q : Prop :=
  match block_ b with
  | None => read_pos_ b = 0 /\ write_pos_ b = 0 /\ q = []
  | Some i => exists k pre post,
      h !! i = Some (Some k) /\ data_ k = pre ++ q ++ post /\
      capacity_ k = zlen (data_ k) /\ capacity_ k <= max_capacity /\
      read_pos_ b = zlen pre /\ write_pos_ b = zlen pre + zlen q
  end.

(** [h'] extends [h] and changes no live block but [own]. *)
Definition keeps (own : option nat) h h' : Prop :=
  (length h <= length h')%nat /\
  forall j, (j < length h)%nat -> own <> Some j -> h' !! j = h !! j.

Lemma keeps_refl own h : keeps own h h.
Proof. by split. Qed.

Lemma keeps_trans own own' h h1 h2 :
  keeps own h h1 -> keeps own' h1 h2 ->
  (own' = own \/ exists i, own' = Some i /\ (length h <= i)%nat) -> keeps own h h2.
Proof.
  intros [L1 K1] [L2 K2] Hown. split; [lia|]. intros j Hj Hne.
  rewrite K2, K1; [done..|lia|]. destruct Hown as [->|(i & -> & Hi)]; [done|]. intros [= ->]. lia.
Qed.

Lemma keeps_insert i k h : keeps (Some i) h (<[i := k]> h).
Proof.
  split; [by rewrite length_insert|]. intros j Hj Hne. apply list_lookup_insert_ne. congruence.
Qed.

Lemma keeps_app own h l : keeps own h (h ++ l).
Proof.
  split; [rewrite length_app; lia|]. intros j Hj _. by apply lookup_app_l.
Qed.

(** A buffer on another block keeps its content. *)
Lemma holds_keeps own h h' b q :
  keeps own h h' -> holds h b q -> (block_ b = None \/ own <> block_ b) -> holds h' b q.
Proof.
  intros [L K]. unfold holds. destruct (block_ b) as [i|]; [|tauto].
  intros (k & pre & post & E & Hrest) [?|Hne]; [done|]. exists k, pre, post.
  split; [|done]. rewrite K; [done| |done]. eapply lookup_lt_Some; eauto.
Qed.

Lemma holds_readable h b q : holds h b q -> readable b = zlen q.
Proof.
  unfold holds, readable. destruct (block_ b) as [i|].
  - intros (k & pre & post & _ & Hd & Hc & Hm & -> & ->).
    rewrite wrap_small; [lia|]. unfold max_capacity in Hm. rewrite Hc, Hd, !length_app in Hm.
    unfold is_u. lia.
  - by intros (-> & -> & ->).
Qed.

Lemma block_read_eq h i k off n :
  h !! i = Some (Some k) -> block_read h (Some i) off n = read_at (data_ k) off n.
Proof. unfold block_read. simpl. by intros ->. Qed.

Lemma block_write_eq h i k off bs d :
  h !! i = Some (Some k) -> write_at (data_ k) off bs = Ret d ->
  block_write h (Some i) off bs = Ret (<[i := Some (with_data k d)]> h).
Proof. unfold block_write. simpl. intros -> Hw. simpl. by rewrite Hw. Qed.

Lemma as_string_holds h b q :
  holds h b q -> block_ b <> None -> as_string h b = Ret q.
Proof.
  intros Hb Hsome. unfold as_string. rewrite (holds_readable h b q Hb).
  unfold holds in Hb. destruct (block_ b) as [i|]; [|done].
  destruct Hb as (k & pre & post & E & Hd & _ & _ & -> & _).
  rewrite (block_read_eq _ _ _ _ _ E), Hd. by apply read_at_app.
Qed.

Lemma read_holds n h b q :
  holds h b q -> block_ b <> None -> 0 <= n ->
  exists b', read n h b = Ret (take (Z.to_nat n) q, b') /\ holds h b' (drop (Z.to_nat n) q) /\
    block_ b' = block_ b.
Proof.
  intros Hb Hsome Hn. unfold read. rewrite (holds_readable h b q Hb).
  unfold holds in *. destruct (block_ b) as [i|]; [|done].
  destruct Hb as (k & pre & post & E & Hd & Hc & Hm & -> & ->).
  assert (Hd' : data_ k = pre ++ take (Z.to_nat n) q ++ drop (Z.to_nat n) q ++ post).
  { by rewrite Hd, (app_assoc (take _ _)), take_drop. }
  rewrite (block_read_eq _ _ _ _ _ E), Hd', (read_at_app pre) by (rewrite ?length_take; lia). simpl.
  eexists. split; [done|]. split; [|done]. simpl.
  exists k, (pre ++ take (Z.to_nat n) q), post. unfold max_capacity in *.
  rewrite Hc, Hd, !length_app in Hm.
  assert (Z.min n (zlen q) = zlen (take (Z.to_nat n) q)) as -> by (rewrite length_take; lia).
  rewrite wrap_small by (unfold is_u; rewrite length_take; lia).
  split_and!; try done.
  - by rewrite Hd', !app_assoc.
  - rewrite Hc, Hd, !length_app. lia.
  - rewrite length_app. lia.
  - rewrite length_app, length_take, length_drop. lia.
Qed.

Lemma skip_holds n h b q :
  holds h b q -> 0 <= n -> holds h (skip n b) (drop (Z.to_nat n) q).
Proof.
  intros Hb Hn. destruct (decide (block_ b = None)) as [E|E].
  - pose proof Hb as Hb'. unfold skip, holds in *. rewrite (holds_readable h b q Hb').
    rewrite E in *. destruct Hb as (-> & -> & ->). simpl. rewrite drop_nil.
    split_and!; try done. rewrite Z.min_r by lia. done.
  - destruct (read_holds n h b q Hb E Hn) as (b' & Hr & Hb' & _). unfold read in Hr.
    apply bind_Ret_inv in Hr as (bs & _ & [= _ <-]). done.
Qed.

Lemma compact_holds h b q :
  holds h b q ->
  exists h' b', compact h b = Ret (h', b') /\ holds h' b' q /\ keeps (block_ b) h h' /\
    block_ b' = block_ b /\ read_pos_ b' = 0 /\ write_pos_ b' = zlen q.
Proof.
  intros Hb. pose proof (holds_readable h b q Hb) as Hr. unfold compact. rewrite Hr.
  destruct (Z.ltb_spec 0 (read_pos_ b)) as [Hpos|Hz].
  - unfold holds in *. destruct (block_ b) as [i|]; [|lia].
    destruct Hb as (k & pre & post & E & Hd & Hc & Hm & Hrp & Hwp).
    rewrite (block_read_eq _ _ _ _ _ E), Hd, (read_at_app pre) by done.
    set (tail := drop (length q) (pre ++ q ++ post)).
    assert (Hw : write_at (data_ k) 0 q = Ret (q ++ tail)).
    { rewrite Hd. unfold write_at. by rewrite decide_True by (rewrite !length_app; lia). }
    cbn [mbind outcome_bind]. rewrite (block_write_eq _ _ _ _ _ _ E Hw).
    eexists _, _. split; [done|]. split; [|split; [apply keeps_insert|done]].
    exists (with_data k (q ++ tail)), [], tail. simpl.
    rewrite list_lookup_insert_eq by (eapply lookup_lt_Some; eauto).
    split_and!; try done. rewrite Hc, Hd. subst tail. rewrite !length_app, length_drop, !length_app. lia.
  - assert (read_pos_ b = 0 /\ write_pos_ b = zlen q) as [? ?].
    { unfold holds in Hb. destruct (block_ b).
      - destruct Hb as (? & ? & ? & _ & _ & _ & _ & ? & ?). lia.
      - destruct Hb as (? & ? & ->). done. }
    exists h, b. by split_and!.
Qed.

(** What [ensure_writable(size)] leaves: the same queue, room for [size] bytes. *)
Definition roomy (size : Z) h b : Prop :=
  exists i k, block_ b = Some i /\ h !! i = Some (Some k) /\ write_pos_ b + size <= capacity_ k.

Lemma holds_new capacity h :
  0 <= capacity <= max_capacity ->
  exists h' b, Buffer_new fresh capacity h = Ret (h', b) /\ holds h' b [] /\
    keeps None h h' /\ block_ b = Some (length h) /\ roomy capacity h' b.
Proof.
  unfold max_capacity. intros Hc. unfold Buffer_new, BufferBlock_new, max_alloc.
  destruct (Z.leb_spec capacity (2 ^ 63 - 1)); [|lia]. simpl.
  eexists _, _. split; [done|]. split_and!; [|apply keeps_app|done|].
  - exists (mkBlock (fresh <$> seqZ 0 capacity) capacity 0 1), [], (fresh <$> seqZ 0 capacity).
    rewrite list_lookup_middle by done. split_and!; try done; simpl;
      rewrite ?length_fmap, ?length_seqZ; unfold max_capacity; lia.
  - eexists _, _. split; [done|]. simpl. rewrite list_lookup_middle by done. split; [done|]. simpl. lia.
Qed.

Lemma writable_holds h b q i k :
  holds h b q -> block_ b = Some i -> h !! i = Some (Some k) ->
  writable h b = Ret (capacity_ k - write_pos_ b) /\ Buffer_capacity h b = Ret (capacity_ k) /\
  0 <= capacity_ k <= max_capacity /\ zlen q <= write_pos_ b.
Proof.
  unfold holds, writable, Buffer_capacity, max_capacity. intros Hb Ei Ek. rewrite Ei in *.
  destruct Hb as (k' & pre & post & E & Hd & Hc & Hm & _ & ->). rewrite Ek in E. injection E as <-.
  unfold deref. rewrite Ek. simpl. rewrite wrap_small; [split_and!; done || lia|].
  rewrite Hc, Hd in *. rewrite !length_app in *. unfold is_u. lia.
Qed.

(** The growth path: a new block of the doubled capacity takes over the bytes
    before [write_pos_]. *)
Lemma grow_holds size h b q i k :
  holds h b q -> block_ b = Some i -> h !! i = Some (Some k) -> read_pos_ b = 0 ->
  0 <= size -> capacity_ k < write_pos_ b + size -> zlen q + size <= 2 ^ 61 ->
  exists h' b',
    (let* cap := Buffer_capacity h b in
     let new_capacity := Z.max (u64 (cap * 2)) (u64 (write_pos_ b + size)) in
     let* r := BufferBlock_new fresh new_capacity h in
     let '(new_block, h) := r in
     let* bs := block_read h (block_ b) 0 (write_pos_ b) in
     let* h := block_write h (Some new_block) 0 bs in
     Ret (h, mkBuffer (Some new_block) (read_pos_ b) (write_pos_ b))) = Ret (h', b') /\
    holds h' b' q /\ roomy size h' b' /\ keeps (block_ b) h h' /\
    block_ b' = Some (length h).
Proof.
  intros Hb Ei Ek Hrp Hs Hgt Hb61.
  destruct (writable_holds h b q i k Hb Ei Ek) as (_ & -> & Hcap & _).
  unfold holds in Hb. rewrite Ei in *.
  destruct Hb as (k' & pre & post & E & Hd & Hc & Hm & Hrp' & Hwp).
  rewrite Ek in E. injection E as <-.
  assert (pre = []) as -> by (destruct pre; [done|simpl in *; lia]). simpl in *.
  unfold max_capacity in *. rewrite Hrp.
  set (nc := Z.max _ _).
  assert (Hnc : nc = Z.max (capacity_ k * 2) (write_pos_ b + size)) by
    (subst nc; rewrite !wrap_small by (unfold is_u; lia); done).
  unfold BufferBlock_new, max_alloc. destruct (Z.leb_spec nc (2 ^ 63 - 1)); [|lia].
  cbn [mbind outcome_bind]. set (d0 := fresh <$> seqZ 0 nc).
  assert (Hd0 : zlen d0 = nc) by (subst d0; rewrite length_fmap, length_seqZ; lia).
  rewrite (block_read_eq _ _ k) by (by rewrite lookup_app_l by (eapply lookup_lt_Some; eauto)).
  rewrite Hd, Hwp, (read_at_app [] q post) by done. cbn [mbind outcome_bind].
  rewrite (block_write_eq _ _ (mkBlock d0 nc 0 1) _ _ (q ++ drop (length q) d0)).
  2:{ by rewrite list_lookup_middle. }
  2:{ unfold write_at. rewrite decide_True; [done|]. simpl. lia. }
  eexists _, _. split; [done|]. unfold with_data. simpl.
  rewrite insert_app_r_alt by lia. rewrite Nat.sub_diag. simpl.
  split_and!; try done.
  - eexists _, [], (drop (length q) d0). rewrite list_lookup_middle by done.
    split_and!; try done; simpl; [rewrite length_app, length_drop; lia|unfold max_capacity; lia].
  - eexists _, _. split; [done|]. rewrite list_lookup_middle by done. split; [done|]. simpl. lia.
  - apply keeps_app.
Qed.

Lemma ensure_holds size h b q :
  holds h b q -> 0 <= size -> zlen q + size <= 2 ^ 61 ->
  exists h' b', ensure_writable fresh size h b = Ret (h', b') /\ holds h' b' q /\
    roomy size h' b' /\ keeps (block_ b) h h' /\
    (block_ b' = block_ b \/ exists j, block_ b' = Some j /\ (length h <= j)%nat).
Proof.
  intros Hb Hs Hb61. unfold ensure_writable. destruct (block_ b) as [i|] eqn:Ei.
  - assert (exists k, h !! i = Some (Some k)) as [k Ek].
    { unfold holds in Hb. rewrite Ei in Hb. destruct Hb as (k & ? & ? & ? & _). eauto. }
    destruct (writable_holds h b q i k Hb Ei Ek) as (-> & _ & _ & _). cbn [mbind outcome_bind].
    destruct (Z.leb_spec size (capacity_ k - write_pos_ b)).
    { exists h, b. split_and!; try done; [|left; done]. exists i, k. split_and!; try done. lia. }
    destruct (compact_holds h b q Hb) as (h1 & b1 & -> & Hb1 & K1 & Ei1 & Hr1 & Hw1).
    cbn [mbind outcome_bind]. rewrite Ei in *.
    assert (exists k1, h1 !! i = Some (Some k1)) as [k1 Ek1].
    { unfold holds in Hb1. rewrite Ei1 in Hb1. destruct Hb1 as (k1 & ? & ? & ? & _). eauto. }
    destruct (writable_holds h1 b1 q i k1 Hb1 Ei1 Ek1) as (-> & _ & _ & _). cbn [mbind outcome_bind].
    destruct (Z.leb_spec size (capacity_ k1 - write_pos_ b1)).
    { exists h1, b1. split_and!; try done; [|left; done]. exists i, k1. split_and!; try done. lia. }
    destruct (grow_holds size h1 b1 q i k1 Hb1 Ei1 Ek1) as (h2 & b2 & E2 & Hb2 & R2 & K2 & Ei2);
      [done..|lia|done|].
    exists h2, b2. split; [exact E2|]. split_and!; try done.
    + eapply keeps_trans; [done..|]. left. done.
    + right. rewrite Ei2. destruct K1. eauto.
  - unfold holds in Hb. rewrite Ei in Hb. destruct Hb as (Hr & Hw & ->). rewrite Hr, Hw.
    destruct (holds_new (Z.max size 4096) h) as (h1 & b1 & E1 & Hb1 & K1 & Ei1 & R1);
      [unfold max_capacity; simpl in *; lia|].
    exists h1, b1. unfold Buffer_new in E1. split_and!; try done.
    + destruct R1 as (j & k & Ej & Ek & Hle). exists j, k. split_and!; try done. lia.
    + right. eauto.
Qed.

(** The copy into the free space, seen through the new and the old positions. *)
Lemma store_holds bs h b q i k :
  holds h b q -> block_ b = Some i -> h !! i = Some (Some k) ->
  write_pos_ b + zlen bs <= capacity_ k ->
  exists d, let h' := <[i := Some (with_data k d)]> h in
    block_write h (block_ b) (write_pos_ b) bs = Ret h' /\
    u64 (write_pos_ b + zlen bs) = write_pos_ b + zlen bs /\
    holds h' (mkBuffer (block_ b) (read_pos_ b) (write_pos_ b + zlen bs)) (q ++ bs) /\
    holds h' b q.
Proof.
  intros Hb Ei Ek Hroom. unfold holds in *. rewrite Ei in *. simpl.
  destruct Hb as (k' & pre & post & E & Hd & Hc & Hm & Hrp & Hwp).
  rewrite Ek in E. injection E as <-.
  assert (Hpost : (length bs <= length post)%nat).
  { rewrite Hc, Hd, !length_app, Hwp in Hroom. lia. }
  set (d := (pre ++ q) ++ bs ++ drop (length bs) post).
  assert (Hlen : zlen d = zlen (data_ k)).
  { rewrite Hd. subst d. rewrite !length_app, length_drop. lia. }
  exists d. rewrite list_lookup_insert_eq by (eapply lookup_lt_Some; eauto). split_and!.
  - apply (block_write_eq _ _ _ _ _ _ Ek).
    rewrite Hd, app_assoc. rewrite <- (take_drop (length bs) post) at 1.
    apply write_at_app; [rewrite length_app; lia|rewrite length_take; lia].
  - unfold max_capacity in Hm. apply wrap_small. unfold is_u. lia.
  - exists (with_data k d), pre, (drop (length bs) post). simpl. rewrite Hlen, length_app.
    split_and!; try done; [|lia]. subst d. by rewrite <- !app_assoc.
  - exists (with_data k d), pre, (bs ++ drop (length bs) post). simpl. rewrite Hlen.
    split_and!; try done. subst d. by rewrite <- !app_assoc.
Qed.

Lemma write_holds bs h b q :
  holds h b q -> zlen q + zlen bs <= 2 ^ 61 ->
  exists h' b', write fresh bs h b = Ret (h', b') /\ holds h' b' (q ++ bs) /\
    keeps (block_ b) h h' /\ block_ b' <> None /\
    (block_ b' = block_ b \/ exists j, block_ b' = Some j /\ (length h <= j)%nat).
Proof.
  intros Hb Hb61. unfold write.
  destruct (ensure_holds (zlen bs) h b q Hb)
    as (h1 & b1 & -> & Hb1 & (i & k & Ei & Ek & Hroom) & K1 & Own); [lia..|].
  cbn [mbind outcome_bind].
  destruct (store_holds bs h1 b1 q i k Hb1 Ei Ek Hroom) as (d & -> & -> & Hb2 & _).
  cbn [mbind outcome_bind]. rewrite Ei in *.
  eexists _, _. split; [done|]. split_and!; try done.
  eapply keeps_trans; [done|apply keeps_insert|]. destruct Own as [->|(j & [= ->] & ?)]; eauto.
Qed.

(** With room in the block the write stays in it. *)
Lemma write_in_place bs h b q i k :
  holds h b q -> block_ b = Some i -> h !! i = Some (Some k) ->
  write_pos_ b + zlen bs <= capacity_ k ->
  exists d, let h' := <[i := Some (with_data k d)]> h in
    let b' := mkBuffer (Some i) (read_pos_ b) (write_pos_ b + zlen bs) in
    write fresh bs h b = Ret (h', b') /\ holds h' b' (q ++ bs) /\ holds h' b q.
Proof.
  intros Hb Ei Ek Hroom. unfold write, ensure_writable.
  destruct (store_holds bs h b q i k Hb Ei Ek Hroom) as (d & Hst & Hw & Hb1 & Hb0).
  destruct (writable_holds h b q i k Hb Ei Ek) as (Hwr & _). rewrite Ei in *. rewrite Hwr.
  cbn [mbind outcome_bind]. destruct (Z.leb_spec (zlen bs) (capacity_ k - write_pos_ b)); [|lia].
  exists d. cbn [mbind outcome_bind]. rewrite Ei, Hst, Hw. done.
Qed.
End Rep.

(** ** Runs of one buffer against a byte queue *)

Inductive buffer_op :=
| BWrite (bs : list Z)
| BRead (n : Z)
| BSkip (n : Z)
| BCompact
| BString
| BClear.

Section Runs.
Context (fresh : Z -> Z).
Implicit Types (h : heap) (b : Buffer) (q : list Z).

(** The bytes an operation hands to its caller, and the state after it. *)
Definition buffer_step h b (op : buffer_op) : outcome (list Z * (heap * Buffer)) :=
  match op with
  | BWrite bs => let* r := write fresh bs h b in Ret ([], r)
  | BRead n => let* r := read n h b in Ret (r.1, (h, r.2))
  | BSkip n => Ret ([], (h, skip n b))
  | BCompact => let* r := compact h b in Ret ([], r)
  | BString => let* bs := as_string h b in Ret (bs, (h, b))
  | BClear => Ret ([], (h, Buffer_clear b))
  end.

Fixpoint buffer_run h b (ops : list buffer_op) : outcome (list (list Z) * (heap * Buffer)) :=
  match ops with
  | [] => Ret ([], (h, b))
  | op :: ops =>
      let* r := buffer_step h b op in
      let* rs := buffer_run r.2.1 r.2.2 ops in
      Ret (r.1 :: rs.1, rs.2)
  end.

Definition queue_step q (op : buffer_op) : list Z * list Z :=
  match op with
  | BWrite bs => ([], q ++ bs)
  | BRead n => (take (Z.to_nat n) q, drop (Z.to_nat n) q)
  | BSkip n => ([], drop (Z.to_nat n) q)
  | BCompact => ([], q)
  | BString => (q, q)
  | BClear => ([], [])
  end.

Fixpoint queue_run q (ops : list buffer_op) : list (list Z) * list Z :=
  match ops with
  | [] => ([], q)
  | op :: ops =>
      let r := queue_step q op in
      let rs := queue_run r.2 ops in
      (r.1 :: rs.1, rs.2)
  end.

Definition op_size (op : buffer_op) : Z := match op with BWrite bs => zlen bs | _ => 0 end.
Definition op_valid (op : buffer_op) : Prop :=
  match op with BRead n | BSkip n => 0 <= n | _ => True end.
#[global] Instance op_valid_dec op : Decision (op_valid op).
Proof. destruct op; simpl; apply _. Defined.

Definition ops_size (ops : list buffer_op) : Z := foldr (fun op n => op_size op + n) 0 ops.

Lemma ops_size_nonneg ops : 0 <= ops_size ops.
Proof. induction ops as [|[]]; simpl; lia. Qed.

Lemma clear_holds h b q : holds h b q -> holds h (Buffer_clear b) [].
Proof.
  unfold holds, Buffer_clear. simpl. destruct (block_ b) as [i|]; [|done].
  intros (k & pre & post & E & Hd & Hc & Hm & _). exists k, [], (data_ k). by split_and!.
Qed.

Lemma buffer_step_queue h b q op :
  holds h b q -> block_ b <> None -> op_valid op -> zlen q + op_size op <= 2 ^ 61 ->
  exists h' b', buffer_step h b op = Ret ((queue_step q op).1, (h', b')) /\
    holds h' b' (queue_step q op).2 /\ block_ b' <> None /\ keeps (block_ b) h h' /\
    (block_ b' = block_ b \/ exists j, block_ b' = Some j /\ (length h <= j)%nat).
Proof.
  intros Hb Hsome Hv Hs. pose proof (keeps_refl (block_ b) h). destruct op as [bs|n|n| | |]; simpl in *.
  - destruct (write_holds fresh bs h b q) as (h' & b' & -> & ? & ? & ? & ?); [done..|]. simpl. eauto 9.
  - destruct (read_holds n h b q) as (b' & -> & ? & Eb); [done..|].
    exists h, b'. rewrite Eb. split_and!; auto.
  - eexists h, _. split_and!; try done; [by apply skip_holds|by left].
  - destruct (compact_holds h b q Hb) as (h' & b' & -> & ? & ? & Eb & _).
    exists h', b'. rewrite Eb. split_and!; auto.
  - rewrite (as_string_holds h b q) by done. eauto 9.
  - eexists h, _. split_and!; try done; [by eapply clear_holds|by left].
Qed.

Lemma queue_step_len q op : zlen (queue_step q op).2 <= zlen q + op_size op.
Proof. destruct op; simpl; rewrite ?length_app, ?length_drop; lia. Qed.

Lemma buffer_run_queue ops : forall h b q,
  holds h b q -> block_ b <> None -> Forall op_valid ops -> zlen q + ops_size ops <= 2 ^ 61 ->
  exists h' b', buffer_run h b ops = Ret ((queue_run q ops).1, (h', b')) /\
    holds h' b' (queue_run q ops).2 /\ keeps (block_ b) h h' /\ block_ b' <> None.
Proof.
  induction ops as [|op ops IH]; intros h b q Hb Hsome Hops Hs; simpl in *.
  - exists h, b. split_and!; try done.
  - apply Forall_cons in Hops as [Hop Hops]. pose proof (ops_size_nonneg ops).
    destruct (buffer_step_queue h b q op) as (h1 & b1 & -> & Hb1 & Hs1 & K1 & Own); [done..|lia|].
    pose proof (queue_step_len q op).
    destruct (IH h1 b1 _ Hb1 Hs1 Hops) as (h2 & b2 & E2 & Hb2 & K2 & ?); [lia|].
    exists h2, b2. simpl. rewrite E2. split_and!; try done.
    eapply keeps_trans; [done..|]. destruct Own as [->|(j & -> & ?)]; eauto.
Qed.

(** C13: a [Buffer] is a byte queue.  Every sequence of writes, reads, skips,
    compactions, clears and [as_string] on a new buffer runs without undefined
    behaviour or exception and returns the bytes a FIFO queue returns, through
    every compaction and reallocation, and leaves every other block alone. *)
Theorem buffer_is_queue capacity h ops :
  0 <= capacity <= max_capacity -> Forall op_valid ops -> ops_size ops <= 2 ^ 61 ->
  exists h1 b h2 b2, Buffer_new fresh capacity h = Ret (h1, b) /\
    buffer_run h1 b ops = Ret ((queue_run [] ops).1, (h2, b2)) /\
    as_string h2 b2 = Ret (queue_run [] ops).2 /\
    forall j, (j < length h)%nat -> h2 !! j = h !! j.
Proof.
  intros Hc Hops Hs.
  destruct (holds_new fresh capacity h Hc) as (h1 & b & E & Hb & K & Eb & _).
  destruct (buffer_run_queue ops h1 b []) as (h2 & b2 & E2 & Hb2 & K2 & Hs2);
    [done|by rewrite Eb|done..|].
  exists h1, b, h2, b2. split_and!; [done|done|by apply as_string_holds|].
  intros j Hj. destruct K as [L K], K2 as [L2 K2].
  rewrite K2, K; [done..|lia|]. rewrite Eb. intros [= <-]. lia.
Qed.

Lemma holds_positions h b q :
  holds h b q -> 0 <= read_pos_ b /\ read_pos_ b + zlen q < 2 ^ 64.
Proof.
  unfold holds, max_capacity. destruct (block_ b).
  - intros (k & pre & post & _ & Hd & Hc & Hm & -> & _). rewrite Hc, Hd, !length_app in Hm. lia.
  - intros (-> & _ & ->). simpl. lia.
Qed.

(** Skipping [n] available bytes and retreating [n] gives the buffer back. *)
Lemma skip_retreat h b q n :
  holds h b q -> 0 <= n <= zlen q ->
  retreat n (skip n b) = b /\ readable (skip n b) = zlen q - n.
Proof.
  intros Hb Hn. pose proof (holds_positions h b q Hb) as [H0 Hw]. split.
  - unfold retreat, skip. rewrite (holds_readable h b q Hb), Z.min_l by lia. simpl.
    rewrite (wrap_small 64 (read_pos_ b + n)), Z.min_l by (unfold is_u; lia).
    rewrite wrap_small by (unfold is_u; lia). destruct b. simpl. f_equal. lia.
  - rewrite (holds_readable h (skip n b) (drop (Z.to_nat n) q)) by (apply skip_holds; [done|lia]).
    rewrite length_drop. lia.
Qed.

(** Copies share their block.  After a copy, a write through the original
    followed by a write of the same size through the copy (both within the
    free space) leaves the copy's bytes in both buffers. *)
Theorem copy_aliases_block h b q x y i k :
  holds h b q -> block_ b = Some i -> h !! i = Some (Some k) ->
  write_pos_ b + zlen x <= capacity_ k -> length y = length x ->
  exists h1 b1 h2 c2,
    write fresh x h b = Ret (h1, b1) /\ as_string h1 b1 = Ret (q ++ x) /\
    write fresh y h1 (Buffer_copy b) = Ret (h2, c2) /\
    as_string h2 c2 = Ret (q ++ y) /\ as_string h2 b1 = Ret (q ++ y).
Proof.
  intros Hb Ei Ek Hroom Hlen.
  destruct (write_in_place fresh x h b q i k) as (d1 & E1 & Hb1 & Hb0); [done..|].
  destruct (write_in_place fresh y (<[i := Some (with_data k d1)]> h) b q i (with_data k d1))
    as (d2 & E2 & Hb2 & _); [done|done| |by simpl; rewrite Hlen|].
  { apply list_lookup_insert_eq. eapply lookup_lt_Some; eauto. }
  rewrite Hlen in *. eexists _, _, _, _.
  split_and!; [exact E1| |exact E2|..]; by apply as_string_holds.
Qed.
End Runs.

(** ** Buffers without a block *)

(** A moved-from buffer (as [BufferChain::append] leaves its argument) is
    not an empty buffer: [as_string] and [read] dereference its null block, and,
    because the move keeps [write_pos_], the next write allocates [max(size, 4096)] bytes and copies at
    the old position, past the block's end whenever it does not fit after it. *)
Theorem moved_from_write_overflows fresh h b bs :
  0 <= write_pos_ b -> zlen bs <= max_alloc -> Z.max (zlen bs) 4096 < write_pos_ b + zlen bs ->
  write fresh bs h (Buffer_move b).2 = Undef /\
  as_string h (Buffer_move b).2 = Undef /\ forall n, read n h (Buffer_move b).2 = Undef.
Proof.
  intros H0 Hm Hgt. split; [|done]. unfold write, ensure_writable, BufferBlock_new. unfold max_alloc in *. simpl.
  destruct (Z.leb_spec (Z.max (zlen bs) 4096) (2 ^ 63 - 1)); [|lia]. simpl.
  unfold block_write. simpl. rewrite list_lookup_middle by done. simpl.
  unfold write_at. rewrite decide_False; [done|].
  rewrite length_fmap, length_seqZ. lia.
Qed.

(** ** Chains *)

Section Chain.
Context (fresh : Z -> Z).
Implicit Types (h : heap) (c : BufferChain) (qs : list (list Z)).

Definition chain_holds h c qs : Prop :=
  Forall2 (fun b q => holds h b q /\ block_ b <> None) c qs.

Lemma chain_append_all_holds h c qs acc :
  chain_holds h c qs -> chain_append_all h c acc = Ret (acc ++ concat qs).
Proof.
  intros Hc. revert acc. induction Hc as [|b q c qs [Hb Hs] _ IH]; intros acc; simpl.
  - by rewrite app_nil_r.
  - rewrite (as_string_holds h b q) by done. simpl. by rewrite IH, app_assoc.
Qed.

Lemma chain_total_holds h c qs acc :
  chain_holds h c qs -> 0 <= acc -> acc + zlen (concat qs) < 2 ^ 64 ->
  fold_left (fun total buf => u64 (total + readable buf)) c acc = acc + zlen (concat qs).
Proof.
  intros Hc. revert acc. induction Hc as [|b q c qs [Hb _] _ IH]; intros acc Ha Hl; simpl in *; [lia|].
  rewrite length_app in *. rewrite (holds_readable h b q Hb), wrap_small by (unfold is_u; lia).
  rewrite IH; lia.
Qed.

Lemma chain_iovec_holds h c qs :
  chain_holds h c qs ->
  exists vecs, chain_to_iovec h c = Ret vecs /\ gather h vecs = Ret (concat qs) /\
    Forall (fun v => 0 < iov_len v) vecs.
Proof.
  induction 1 as [|b q c qs [Hb Hs] _ (vecs & E & G & F)]; simpl; [eauto|].
  rewrite (holds_readable h b q Hb). destruct (Z.ltb_spec 0 (zlen q)) as [Hq|Hq].
  - pose proof (as_string_holds h b q Hb Hs) as Hstr. unfold as_string in Hstr.
    rewrite (holds_readable h b q Hb) in Hstr. unfold block_read in *.
    apply bind_Ret_inv in Hstr as ([i k] & Ed & Er). rewrite Ed, E. simpl.
    eexists. split; [done|]. simpl. unfold block_read.
    assert (deref h (Some i) = Ret (i, k)) as ->.
    { unfold deref in Ed. destruct (block_ b) as [j|]; [|done].
      destruct (h !! j) as [[?|]|] eqn:Ej; try done. injection Ed as -> ->. simpl. by rewrite Ej. }
    simpl in *. rewrite Er. simpl. rewrite G. simpl. split; [done|]. by constructor.
  - destruct q; [|simpl in *; lia]. exists vecs. done.
Qed.

(** A chain is the concatenation of its buffers: [to_string] returns it,
    [total_size] is its length, and gathering the [iovec] array of [to_iovec]
    gives the same bytes without empty vectors. *)
Theorem chain_concat h c qs :
  chain_holds h c qs -> zlen (concat qs) <= max_alloc ->
  chain_to_string h c = Ret (concat qs) /\ chain_total_size c = zlen (concat qs) /\
  exists vecs, chain_to_iovec h c = Ret vecs /\ gather h vecs = Ret (concat qs) /\
    Forall (fun v => 0 < iov_len v) vecs.
Proof.
  unfold max_alloc. intros Hc Hl.
  assert (Ht : chain_total_size c = zlen (concat qs)) by
    (unfold chain_total_size; rewrite (chain_total_holds h c qs) by (done || lia); lia).
  split_and!; [|done|by apply chain_iovec_holds].
  unfold chain_to_string, max_alloc. rewrite Ht. destruct (Z.leb_spec (zlen (concat qs)) (2 ^ 63 - 1)); [|lia].
  by apply (chain_append_all_holds h c qs []).
Qed.

(** [append(str)] adds the string as the last buffer and changes no other. *)
Lemma chain_append_string_holds h c qs str :
  chain_holds h c qs -> zlen str <= 2 ^ 61 ->
  exists h' c', chain_append_string fresh str h c = Ret (h', c') /\
    chain_holds h' c' (qs ++ [str]) /\ chain_count c' = chain_count c + 1.
Proof.
  intros Hc Hl. unfold chain_append_string, Buffer_of.
  destruct (holds_new fresh (zlen str) h) as (h1 & b1 & -> & Hb1 & K1 & Eb1 & _);
    [unfold max_capacity; lia|].
  destruct (write_holds fresh str h1 b1 [] Hb1) as (h2 & b2 & E2 & Hb2 & K2 & Hs2 & _); [simpl; lia|].
  cbn [mbind outcome_bind fst snd]. rewrite E2. cbn [mbind outcome_bind fst snd].
  eexists _, _. split; [done|]. split; [|unfold chain_count; rewrite length_app; simpl; lia].
  apply Forall2_app; [|by repeat constructor].
  eapply Forall2_impl; [exact Hc|]. intros b q [Hb Hs]. split; [|done].
  eapply holds_keeps; [|exact Hb|right].
  - eapply keeps_trans; [exact K1|exact K2|]. right. eexists. rewrite Eb1. eauto.
  - done.
Qed.
End Chain.

(** ** Witnesses *)

Lemma buffer_is_queue_witness :
  exists h1 b h2 b2, Buffer_new (fun _ => 0) 4 [] = Ret (h1, b) /\
    buffer_run (fun _ => 0) h1 b [BWrite [1; 2; 3]; BRead 2; BWrite [4; 5; 6]; BWrite [7; 8]; BRead 9]
      = Ret ([[]; [1; 2]; []; []; [3; 4; 5; 6; 7; 8]], (h2, b2)) /\
    as_string h2 b2 = Ret [] /\
    forall j, (j < 0)%nat -> h2 !! j = ([] : heap) !! j.
Proof.
  apply (buffer_is_queue (fun _ => 0) 4 []
    [BWrite [1; 2; 3]; BRead 2; BWrite [4; 5; 6]; BWrite [7; 8]; BRead 9]);
    [unfold max_capacity; lia|compute_done|simpl; lia].
Defined.

Definition sample_block : BufferBlock := mkBlock [9; 5; 6; 0; 0; 0] 6 0 1.
Definition sample_buffer : Buffer := mkBuffer (Some 0%nat) 1 3.

Lemma sample_holds : holds [Some sample_block] sample_buffer [5; 6].
Proof. exists sample_block, [9], [0; 0; 0]. by split_and!. Qed.

Lemma copy_aliases_block_witness :
  exists h1 b1 h2 c2,
    write (fun _ => 0) [1; 2] [Some sample_block] sample_buffer = Ret (h1, b1) /\
    as_string h1 b1 = Ret [5; 6; 1; 2] /\
    write (fun _ => 0) [3; 4] h1 (Buffer_copy sample_buffer) = Ret (h2, c2) /\
    as_string h2 c2 = Ret [5; 6; 3; 4] /\ as_string h2 b1 = Ret [5; 6; 3; 4].
Proof.
  apply (copy_aliases_block (fun _ => 0) [Some sample_block] sample_buffer [5; 6] [1; 2] [3; 4]
           0%nat sample_block); [apply sample_holds|done..].
Defined.

Lemma moved_from_write_overflows_witness :
  let b := mkBuffer (Some 0%nat) 0 4096 in
  write (fun _ => 0) [1] [] (Buffer_move b).2 = Undef /\
  as_string [] (Buffer_move b).2 = Undef /\ forall n, read n [] (Buffer_move b).2 = Undef.
Proof.
  apply (moved_from_write_overflows (fun _ => 0) [] (mkBuffer (Some 0%nat) 0 4096) [1]);
    unfold max_alloc; simpl; lia.
Defined.

Lemma chain_concat_witness :
  let h := [Some sample_block] in let c := [sample_buffer; skip 1 sample_buffer] in
  chain_to_string h c = Ret [5; 6; 6] /\ chain_total_size c = 3 /\
  exists vecs, chain_to_iovec h c = Ret vecs /\ gather h vecs = Ret [5; 6; 6] /\
    Forall (fun v => 0 < iov_len v) vecs.
Proof.
  apply (chain_concat [Some sample_block] [sample_buffer; skip 1 sample_buffer] [[5; 6]; [6]]).
  - repeat constructor; try done; [apply sample_holds|].
    apply (skip_holds 1 _ _ [5; 6]); [apply sample_holds|lia].
  - unfold max_alloc. simpl. lia.
Defined.
