(* ===== verification/Connection.v ===== *)
(** * net/connection.hpp: the TCP connection over the kernel's socket calls

    [socket] is what the kernel holds for one descriptor: the chunks that will
    arrive, the results it will give to successive sends, and the bytes it has
    accepted.  [os_recv] and [os_send] are the documented behaviour of
    [recv(2)] and [send(2)] on it (short reads and writes, end of stream and
    errors included).  [env] adds the trace of [::close] calls and of close
    callbacks.

    [Stream] is what the RPC layer relies on; [Connection] is an instance. *)

From Stdlib Require Import ZArith Lia.
From S2P Require Import Prelude Buffer.

(** ** The kernel's side *)

Inductive recv_ev :=
| Data (bs : list Z)   (* a segment *)
| Fail (err : Z).      (* recv returns -err *)

Record socket := mkSocket {
  sk_in : list recv_ev;
  sk_room : list Z;   (* what successive sends return, capped by the size; then everything *)
  sk_out : list Z;    (* bytes accepted so far *)
}.

(** [recv(fd, buf, size)]: the result and the bytes stored at [buf].  A segment
    longer than [size] stays for the next call; no segment left is the end of
    the stream. *)
Fixpoint recv_from (size : Z) (evs : list recv_ev) : Z * list Z * list recv_ev :=
  match evs with
  | [] => (0, [], [])
  | Data [] :: evs => recv_from size evs
  | Data bs :: evs =>
      let got := take (Z.to_nat size) bs in
      (zlen got, got,
       if decide (drop (Z.to_nat size) bs = []) then evs else Data (drop (Z.to_nat size) bs) :: evs)
  | Fail e :: evs => (- Z.max 1 e, [], evs)
  end.

Definition os_recv (size : Z) (s : socket) : Z * list Z * socket :=
  let '(n, bs, evs) := recv_from size (sk_in s) in
  (n, bs, mkSocket evs (sk_room s) (sk_out s)).

(** [send(fd, buf, size)] *)
Definition os_send (bs : list Z) (s : socket) : Z * socket :=
  match sk_room s with
  | [] => (zlen bs, mkSocket (sk_in s) [] (sk_out s ++ bs))
  | r :: rs =>
      if r <=? 0 then (r, mkSocket (sk_in s) rs (sk_out s))
      else let n := Z.min r (zlen bs) in
           (n, mkSocket (sk_in s) rs (sk_out s ++ take (Z.to_nat n) bs))
  end.

(** ** Data *)

Inductive ConnectionState := Disconnected | Connecting | Connected | Closing | Closed.
#[global] Instance ConnectionState_eq_dec : EqDecision ConnectionState.
Proof. solve_decision. Defined.

Record Connection := mkConn {
  fd_ : Z;
  state_ : ConnectionState;
  close_callback_ : bool;   (* a callback is set *)
}.

Record env := mkEnv {
  sock : socket;
  closed_fds : list Z;      (* ::close calls, in order *)
  callbacks : Z;            (* times the close callback ran *)
}.

Definition conn := (Connection * env)%type.

Definition Connection_create (fd : Z) : Connection :=
  mkConn fd (if 0 <=? fd then Connected else Disconnected) false.

Definition connected (c : Connection) : bool :=
  match state_ c with Connected => true | _ => false end.

Definition set_close_callback (c : Connection) : Connection := mkConn (fd_ c) (state_ c) true.

(** [close()]; [shared_from_this] throws when no [shared_ptr] owns the object
    any more ([owned] false, as in the destructor). *)
Definition close (owned : bool) (x : conn) : outcome conn :=
  let '(c, e) := x in
  match state_ c with
  | Connected =>
      let c' := mkConn (-1) Closed (close_callback_ c) in
      let e' := mkEnv (sock e) (closed_fds e ++ [fd_ c]) (callbacks e) in
      if close_callback_ c then
        if owned then Ret (c', mkEnv (sock e') (closed_fds e') (callbacks e' + 1))
        else Throw "std::bad_weak_ptr"
      else Ret (c', e')
  | _ => Ret (c, e)
  end.

(** An exception that leaves the destructor terminates the program. *)
Definition Connection_destroy (x : conn) : outcome env :=
  match close false x with
  | Ret (_, e) => Ret e
  | Throw _ => Throw "std::terminate"
  | Undef => Undef
  end.

Definition handle_error (x : conn) : conn :=
  match close true x with Ret x' => x' | _ => x end.

Record ConnectionConfig := mkConnectionConfig {
  read_timeout_ms : Z;
  write_timeout_ms : Z;
  connect_timeout_ms : Z;
  read_buffer_size : Z;
  write_buffer_size : Z;
  keep_alive : bool;
  no_delay : bool;
  linger_timeout : Z;
}.

Definition default_connection_config : ConnectionConfig :=
  mkConnectionConfig 30000 30000 5000 65536 65536 true true 0.

(** The [setsockopt] calls. *)
Inductive sockopt := TCP_NODELAY (flag : Z) | SO_KEEPALIVE (flag : Z) | SO_LINGER (l_onoff l_linger : Z).

(** The calls of [apply_socket_options], in order. *)
Definition apply_socket_options (config : ConnectionConfig) (fd : Z) : list sockopt :=
  if fd <? 0 then [] else
  (if no_delay config then [TCP_NODELAY 1] else []) ++
  (if keep_alive config then [SO_KEEPALIVE 1] else []) ++
  (if 0 <=? linger_timeout config
   then [SO_LINGER (if 0 <? linger_timeout config then 1 else 0) (linger_timeout config)] else []).

(** The [::shutdown(fd, SHUT_WR)] calls of [shutdown_write]. *)
Definition shutdown_write (c : Connection) : list Z := if 0 <=? fd_ c then [fd_ c] else [].

(** [async_connect] up to its await: [new_fd] is the result of [socket()] if it
    is called; the flag is false if the coroutine returns there. *)
Definition connect_begin (new_fd : Z) (x : conn) : bool * conn :=
  let '(c, e) := x in
  let fd := if fd_ c <? 0 then new_fd else fd_ c in
  if fd <? 0 then (false, (mkConn fd (state_ c) (close_callback_ c), e))
  else (true, (mkConn fd Connecting (close_callback_ c), e)).

(** The rest of it, with the result of the connect operation. *)
Definition connect_end (ret : Z) (x : conn) : bool * conn :=
  let '(c, e) := x in
  if ret =? 0 then (true, (mkConn (fd_ c) Connected (close_callback_ c), e))
  else (false, (mkConn (fd_ c) Disconnected (close_callback_ c), e)).

(** [async_connect] when nothing happens to the object while it is suspended. *)
Definition async_connect (new_fd ret : Z) (x : conn) : bool * conn :=
  let '(suspended, x) := connect_begin new_fd x in
  if (suspended : bool) then connect_end ret x else (false, x).

Definition with_sock (e : env) (s : socket) : env := mkEnv s (closed_fds e) (callbacks e).

Definition async_read (size : Z) (x : conn) : Z * list Z * conn :=
  let '(c, e) := x in
  if negb (connected c) then (-1, [], x) else
  let '(n, bs, s) := os_recv size (sock e) in
  let x := (c, with_sock e s) in
  (n, bs, if n <=? 0 then handle_error x else x).

Definition async_write (bs : list Z) (x : conn) : Z * conn :=
  let '(c, e) := x in
  if negb (connected c) then (-1, x) else
  let '(n, s) := os_send bs (sock e) in
  let x := (c, with_sock e s) in
  (n, if n <=? 0 then handle_error x else x).

(** [async_read(Buffer&)]: the bytes land at [write_ptr()], [write_pos_] is not
    moved. *)
Definition async_read_buffer (h : heap) (b : Buffer) (x : conn) : outcome (Z * heap * Buffer * conn) :=
  let* w := writable h b in
  if w =? 0 then Ret (0, h, b, x) else
  let '(n, bs, x) := async_read w x in
  let* h := block_write h (block_ b) (write_pos_ b) bs in
  Ret (n, h, b, x).

(** [async_write_all]: every iteration that goes on has written a byte, so the
    number of bytes left bounds the loop. *)
Fixpoint write_all_loop (fuel : nat) (bs : list Z) (written : Z) (x : conn) : Z * conn :=
  match fuel with
  | O => (written, x)
  | S fuel =>
      if (written <? zlen bs) && connected x.1 then
        let '(n, x) := async_write (drop (Z.to_nat written) bs) x in
        if n <=? 0 then (written, x) else write_all_loop fuel bs (written + n) x
      else (written, x)
  end.

Definition async_write_all (bs : list Z) (x : conn) : Z * conn :=
  write_all_loop (S (length bs)) bs 0 x.

(** [async_read_line]: one byte per read; [None] is an exhausted [fuel]. *)
Fixpoint read_line_loop (fuel : nat) (line : list Z) (x : conn) : option (list Z * conn) :=
  match fuel with
  | O => None
  | S fuel =>
      if connected x.1 then
        let '(n, bs, x) := async_read 1 x in
        if n <=? 0 then Some (line, x) else
        let ch := hd 0 bs in
        if ch =? 10 then Some (line, x) else read_line_loop fuel (line ++ [ch]) x
      else Some (line, x)
  end.

(** Bytes still to arrive, and the number of receive events left. *)
Fixpoint in_bytes (evs : list recv_ev) : list Z :=
  match evs with
  | [] => []
  | Data bs :: evs => bs ++ in_bytes evs
  | Fail _ :: _ => []
  end.

Fixpoint in_size (evs : list recv_ev) : nat :=
  match evs with
  | [] => 0
  | Data bs :: evs => length bs + in_size evs
  | Fail _ :: evs => in_size evs
  end.

Definition async_read_line (x : conn) : option (list Z * conn) :=
  read_line_loop (S (S (in_size (sk_in (sock x.2))))) [] x.

(** ** The interface the RPC layer uses *)

(** A reliable byte stream: a read gives at most the bytes asked for, a
    positive result counts them and uses up input; a write does not touch the
    input. *)
Class Stream (T : Type) := {
  st_connected : T -> bool;
  st_read : Z -> T -> Z * list Z * T;
  st_write : list Z -> T -> Z * T;
  st_left : T -> nat;
}.

Class StreamLaws (T : Type) `{!Stream T} := {
  st_read_result n t r bs t' : 0 <= n -> st_read n t = (r, bs, t') ->
    (r <= 0 /\ bs = []) \/ (0 < r <= n /\ zlen bs = r);
  st_read_left n t r bs t' : 0 <= n -> st_read n t = (r, bs, t') ->
    (st_left t' + length bs <= st_left t)%nat;
  st_write_left bs t r t' : st_write bs t = (r, t') -> st_left t' = st_left t;
}.

(** ** Reads *)

Section Reads.
Implicit Types (evs : list recv_ev) (x : conn).

Lemma recv_from_spec size evs n bs evs' :
  0 <= size -> recv_from size evs = (n, bs, evs') ->
  ((n <= 0 /\ bs = []) \/ (0 < n <= size /\ zlen bs = n)) /\
  (in_size evs' + length bs <= in_size evs)%nat /\
  (0 <= n -> in_bytes evs = bs ++ in_bytes evs').
Proof.
  intros Hs. induction evs as [|[bs0|e] evs IH]; simpl.
  - intros [= <- <- <-]. split_and!; [left; done|simpl; lia|done].
  - destruct bs0 as [|b bs0]; [auto|]. set (l := b :: bs0). intros [= <- <- <-].
    assert (Hl : zlen (take (Z.to_nat size) l) = Z.min size (zlen l)) by (rewrite length_take; lia).
    split_and!.
    + destruct (decide (size = 0)) as [->|]; [left; by rewrite Z2Nat.inj_0|].
      right. subst l. simpl length in *. lia.
    + pose proof (take_drop (Z.to_nat size) l) as E. apply (f_equal length) in E.
      rewrite length_app in E. assert (length l = S (length bs0)) by done.
      destruct (decide (drop (Z.to_nat size) l = [])); cbn [in_size]; lia.
    + intros _. pose proof (take_drop (Z.to_nat size) l) as E.
      destruct (decide (drop (Z.to_nat size) l = [])) as [D|D]; simpl.
      * rewrite D, app_nil_r in E. by rewrite E.
      * by rewrite app_assoc, E.
  - intros [= <- <- <-]. split_and!; [left; split; [lia|done]|simpl; lia|lia].
Qed.

Lemma handle_error_sock x : sock (handle_error x).2 = sock x.2.
Proof. destruct x as [c e]. unfold handle_error, close. by destruct (state_ c), (close_callback_ c). Qed.

Lemma async_read_spec n x r bs x' :
  0 <= n -> async_read n x = (r, bs, x') ->
  ((r <= 0 /\ bs = []) \/ (0 < r <= n /\ zlen bs = r /\ x'.1 = x.1)) /\
  (in_size (sk_in (sock x'.2)) + length bs <= in_size (sk_in (sock x.2)))%nat /\
  (0 < r -> in_bytes (sk_in (sock x.2)) = bs ++ in_bytes (sk_in (sock x'.2))).
Proof.
  intros Hn. destruct x as [c e]. unfold async_read, os_recv. destruct (connected c); simpl.
  2:{ intros [= <- <- <-]. split_and!; [by left|simpl; lia|lia]. }
  destruct (recv_from n (sk_in (sock e))) as [[m l] evs'] eqn:E.
  destruct (recv_from_spec n _ _ _ _ Hn E) as (H1 & H2 & H3). intros [= <- <- <-].
  destruct (Z.leb_spec m 0).
  - rewrite handle_error_sock. split_and!; [destruct H1 as [[? ->]|?]; [by left|lia]|exact H2|lia].
  - split_and!; [right; destruct H1 as [?|[? ?]]; [lia|done]|exact H2|]. intros _. apply H3. lia.
Qed.

Lemma async_write_left bs x r x' :
  async_write bs x = (r, x') -> sk_in (sock x'.2) = sk_in (sock x.2).
Proof.
  destruct x as [c e]. unfold async_write, os_send. destruct (connected c); simpl; [|by intros [= <- <-]].
  destruct (sk_room (sock e)) as [|k ks]; [|destruct (k <=? 0)];
    intros [= <- <-]; destruct (_ <=? 0); rewrite ?handle_error_sock; done.
Qed.

(** [Connection] offers the stream interface. *)
#[global] Instance conn_stream : Stream conn := {
  st_connected x := connected x.1;
  st_read := async_read;
  st_write := async_write;
  st_left x := in_size (sk_in (sock x.2));
}.

#[global] Instance conn_stream_laws : StreamLaws conn.
Proof.
  split.
  - intros n t r bs t' Hn E. apply async_read_spec in E as ([?|(? & ? & _)] & _); [by left|by right|done].
  - intros n t r bs t' Hn E. by apply async_read_spec in E as (_ & ? & _).
  - intros bs t r t' E. simpl. by rewrite (async_write_left _ _ _ _ E).
Qed.

(** Reading byte by byte up to the newline. *)
Lemma read_line_total fuel line x :
  (in_size (sk_in (sock x.2)) + 1 < fuel)%nat -> is_Some (read_line_loop fuel line x).
Proof.
  revert line x. induction fuel as [|fuel IH]; intros line x Hf; [lia|]. simpl.
  destruct (connected x.1); [|eauto].
  destruct (async_read 1 x) as [[n bs] x'] eqn:E.
  apply async_read_spec in E as (Hr & Hsz & _); [|done].
  destruct (Z.leb_spec n 0); [eauto|]. destruct (hd 0 bs =? 10); [eauto|].
  apply IH. destruct Hr as [?|(? & ? & _)]; lia.
Qed.

Lemma read_one x b rest :
  connected x.1 = true -> in_bytes (sk_in (sock x.2)) = b :: rest ->
  exists x', async_read 1 x = (1, [b], x') /\ x'.1 = x.1 /\ in_bytes (sk_in (sock x'.2)) = rest.
Proof.
  intros Hc Hin. destruct (async_read 1 x) as [[n bs] x'] eqn:E.
  assert (Hn : 0 < n).
  { destruct x as [c e]. unfold async_read, os_recv in E. simpl in *. rewrite Hc in E. simpl in E.
    destruct (recv_from 1 (sk_in (sock e))) as [[m l] evs'] eqn:E'. injection E as -> -> _.
    clear -E' Hin. induction (sk_in (sock e)) as [|[[|b0 bs0]|err] evs IH]; simpl in *; [done|auto| |done].
    injection E' as <- _ _. lia. }
  apply async_read_spec in E as ([?|(Hr & Hl & Ex)] & _ & Hb); [lia| |done].
  rewrite Hin in Hb. assert (length bs = 1%nat) by lia.
  destruct bs as [|b' [|]]; try done. assert (n = 1) as -> by (simpl in *; lia).
  injection (Hb ltac:(lia)) as -> Hrest. eauto.
Qed.

Lemma read_line_splits fuel line l x rest :
  connected x.1 = true -> in_bytes (sk_in (sock x.2)) = l ++ 10 :: rest -> 10 ∉ l ->
  (length l < fuel)%nat ->
  exists x', read_line_loop fuel line x = Some (line ++ l, x') /\
    in_bytes (sk_in (sock x'.2)) = rest.
Proof.
  revert line l x. induction fuel as [|fuel IH]; intros line l x Hc Hin Hl Hf; [lia|]. simpl. rewrite Hc.
  destruct l as [|b l]; simpl in Hin.
  - destruct (read_one x 10 rest Hc Hin) as (x' & -> & _ & ?). simpl. rewrite app_nil_r. eauto.
  - apply not_elem_of_cons in Hl as [Hb Hl].
    destruct (read_one x b (l ++ 10 :: rest) Hc Hin) as (x' & -> & E1 & Hin'). simpl.
    rewrite (proj2 (Z.eqb_neq b 10)) by done.
    destruct (IH (line ++ [b]) l x') as (x2 & -> & ?); [by rewrite E1|done..|simpl in *; lia|].
    exists x2. by rewrite <- app_assoc.
Qed.

(** C35: [async_read_line] terminates on every input, and when a newline is on
    its way it returns the bytes before it and leaves the rest for the next
    read, however the stream is segmented. *)
Theorem read_line_correct x l rest :
  is_Some (async_read_line x) /\
  (connected x.1 = true -> in_bytes (sk_in (sock x.2)) = l ++ 10 :: rest -> 10 ∉ l ->
   exists x', async_read_line x = Some (l, x') /\ in_bytes (sk_in (sock x'.2)) = rest).
Proof.
  split; [apply read_line_total; lia|]. intros Hc Hin Hl.
  apply (read_line_splits _ []); try done.
  assert (length (in_bytes (sk_in (sock x.2))) <= in_size (sk_in (sock x.2)))%nat as Hle.
  { clear. induction (sk_in (sock x.2)) as [|[]]; simpl; rewrite ?length_app; lia. }
  rewrite Hin, length_app in Hle. lia.
Qed.
End Reads.

(** ** Writes *)

Section Writes.
Implicit Types (x : conn).

Lemma async_write_spec bs x r x' :
  async_write bs x = (r, x') ->
  (r <= 0 /\ sk_out (sock x'.2) = sk_out (sock x.2)) \/
  (0 < r <= zlen bs /\ sk_out (sock x'.2) = sk_out (sock x.2) ++ take (Z.to_nat r) bs /\ x'.1 = x.1).
Proof.
  destruct x as [c e]. unfold async_write, os_send. destruct (connected c); simpl.
  2:{ intros [= <- <-]. by left. }
  destruct (sk_room (sock e)) as [|k ks]; [|destruct (Z.leb_spec k 0)]; intros [= <- <-].
  - destruct (Z.leb_spec (zlen bs) 0).
    + left. rewrite handle_error_sock. destruct bs; [|simpl in *; lia]. simpl. by rewrite app_nil_r.
    + right. simpl. by rewrite Nat2Z.id, firstn_all.
  - left. by rewrite (proj2 (Z.leb_le k 0)), handle_error_sock by done.
  - destruct (Z.leb_spec (Z.min k (zlen bs)) 0).
    + left. rewrite handle_error_sock. split; [done|]. assert (Z.to_nat (k `min` zlen bs) = 0)%nat as -> by lia.
      simpl. by rewrite app_nil_r.
    + right. split; [lia|done].
Qed.

Lemma write_all_loop_spec fuel bs : forall written x n x',
  0 <= written <= zlen bs -> (length bs < fuel + Z.to_nat written)%nat ->
  write_all_loop fuel bs written x = (n, x') ->
  written <= n <= zlen bs /\
  sk_out (sock x.2) ++ take (Z.to_nat (n - written)) (drop (Z.to_nat written) bs) = sk_out (sock x'.2) /\
  (n < zlen bs -> connected x'.1 = false \/ exists x1 r, async_write (drop (Z.to_nat n) bs) x1 = (r, x') /\ r <= 0).
Proof.
  induction fuel as [|fuel IH]; intros written x n x' Hw Hf; simpl; [lia|].
  destruct (Z.ltb_spec written (zlen bs)); simpl.
  2:{ intros [= <- <-]. rewrite Z.sub_diag. simpl. rewrite app_nil_r. split_and!; [lia..|done|lia]. }
  destruct (connected x.1) eqn:Hc.
  2:{ intros [= <- <-]. rewrite Z.sub_diag. simpl. rewrite app_nil_r. split_and!; [lia..|done|by left]. }
  destruct (async_write (drop (Z.to_nat written) bs) x) as [r x1] eqn:E.
  apply async_write_spec in E as Hs. rewrite length_drop in Hs.
  destruct (Z.leb_spec r 0).
  - intros [= <- <-]. destruct Hs as [[_ ->]|?]; [|lia]. rewrite Z.sub_diag. simpl. rewrite app_nil_r.
    split_and!; [lia..|done|eauto].
  - destruct Hs as [?|(Hr & Ho & _)]; [lia|]. intros Hrec.
    destruct (IH (written + r) x1 n x') as (H1 & H2 & H3); [lia..|done|].
    split_and!; [lia..| |done]. rewrite <- H2, Ho, <- app_assoc. f_equal.
    replace (Z.to_nat (n - written)) with (Z.to_nat r + Z.to_nat (n - (written + r)))%nat by lia.
    rewrite take_plus, drop_drop. do 3 f_equal. lia.
Qed.

(** [async_write_all] hands the kernel a prefix of the data, in order and
    without gaps or repetitions whatever the sizes the kernel accepts, and
    returns its length; a result short of the whole means that the connection
    went down or a send failed. *)
Theorem write_all_prefix bs x n x' :
  async_write_all bs x = (n, x') ->
  0 <= n <= zlen bs /\ sk_out (sock x'.2) = sk_out (sock x.2) ++ take (Z.to_nat n) bs /\
  (n < zlen bs -> connected x'.1 = false \/
     exists x1 r, async_write (drop (Z.to_nat n) bs) x1 = (r, x') /\ r <= 0).
Proof.
  unfold async_write_all. intros E.
  destruct (write_all_loop_spec (S (length bs)) bs 0 x n x') as (H1 & H2 & H3); [lia|simpl; lia|done|].
  rewrite Z.sub_0_r in H2. simpl in H2. split_and!; [lia..|done|done].
Qed.
End Writes.

(** ** The descriptor's life *)

(** States reached by a connection object that a [shared_ptr] owns, with one
    connect at a time, which other operations may come between; the first argument
    counts the descriptors it was given. *)
Inductive reach : Z -> conn -> Prop :=
| reach_create fd e : closed_fds e = [] -> callbacks e = 0 ->
    reach (if 0 <=? fd then 1 else 0) (Connection_create fd, e)
| reach_set_callback k c e : reach k (c, e) -> reach k (set_close_callback c, e)
| reach_connect_begin k x new_fd : reach k x -> state_ x.1 <> Connecting ->
    reach (if (fd_ x.1 <? 0) && (0 <=? new_fd) then k + 1 else k) (connect_begin new_fd x).2
| reach_connect_end k x ret : reach k x -> state_ x.1 = Connecting -> reach k (connect_end ret x).2
| reach_read k x n : reach k x -> reach k (async_read n x).2
| reach_write k x bs : reach k x -> reach k (async_write bs x).2
| reach_close k x x' : reach k x -> close true x = Ret x' -> reach k x'.

Definition held (c : Connection) : Z := if 0 <=? fd_ c then 1 else 0.

Definition conn_inv (k : Z) (x : conn) : Prop :=
  zlen (closed_fds x.2) + held x.1 = k /\ (connected x.1 = true \/ state_ x.1 = Connecting -> 0 <= fd_ x.1) /\
  0 <= callbacks x.2 <= zlen (closed_fds x.2) /\ state_ x.1 <> Closing.

Lemma close_inv k x x' : conn_inv k x -> close true x = Ret x' -> conn_inv k x'.
Proof.
  unfold conn_inv, close, held, connected. destruct x as [c e]. simpl. intros (H1 & H2 & H3 & H4).
  destruct (state_ c) eqn:Es; try (intros [= <-]; simpl; by rewrite Es).
  specialize (H2 (or_introl eq_refl)). rewrite (proj2 (Z.leb_le 0 (fd_ c))) in H1 by done.
  destruct (close_callback_ c); intros [= <-]; simpl; rewrite length_app; simpl; split_and!; try done; try lia;
    by intros [?|?].
Qed.

Lemma handle_error_inv k x : conn_inv k x -> conn_inv k (handle_error x).
Proof. intros Hx. unfold handle_error. destruct (close true x) eqn:E; [by eapply close_inv|done..]. Qed.

Lemma with_sock_inv k c e s : conn_inv k (c, e) -> conn_inv k (c, with_sock e s).
Proof. done. Qed.

Lemma connect_begin_inv k c e new_fd :
  conn_inv k (c, e) ->
  conn_inv (if (fd_ c <? 0) && (0 <=? new_fd) then k + 1 else k) (connect_begin new_fd (c, e)).2.
Proof.
  unfold conn_inv, held, connected, connect_begin. simpl. intros (H1 & H2 & H3 & H4). revert H1.
  destruct (Z.ltb_spec (fd_ c) 0) as [Hf|Hf].
  - rewrite (proj2 (Z.leb_gt 0 (fd_ c))) by done. intros H1. destruct (Z.ltb_spec new_fd 0) as [Hn|Hn]; simpl.
    + rewrite (proj2 (Z.leb_gt 0 new_fd)) by done. split_and!; try done; try lia. intros Hc. specialize (H2 Hc). lia.
    + rewrite (proj2 (Z.leb_le 0 new_fd)) by done. split_and!; done || lia.
  - rewrite (proj2 (Z.leb_le 0 (fd_ c))) by done. intros H1. rewrite (proj2 (Z.ltb_ge (fd_ c) 0)) by done. simpl.
    rewrite (proj2 (Z.leb_le 0 (fd_ c))) by done. split_and!; done || lia.
Qed.

Lemma connect_end_inv k c e ret :
  conn_inv k (c, e) -> state_ c = Connecting -> conn_inv k (connect_end ret (c, e)).2.
Proof.
  unfold conn_inv, held, connected, connect_end. simpl. intros (H1 & H2 & H3 & H4) Hs.
  specialize (H2 (or_intror Hs)). destruct (ret =? 0); simpl; split_and!; done || lia.
Qed.

Lemma reach_inv k x : reach k x -> conn_inv k x.
Proof.
  induction 1 as [fd e He Hc|k c e _ IH|k [c e] nfd _ IH _|k [c e] ret _ IH Hs|k [c e] n _ IH|k [c e] bs _ IH
                 |k x x' _ IH E].
  - unfold conn_inv, held, connected, Connection_create. simpl. rewrite He, Hc. simpl.
    destruct (Z.leb_spec 0 fd); split_and!; try done; try lia. by intros [?|?].
  - done.
  - by apply connect_begin_inv.
  - by apply connect_end_inv.
  - unfold async_read. destruct (negb (connected c)); [done|]. destruct (os_recv n (sock e)) as [[m l] s].
    simpl. destruct (m <=? 0); [by apply handle_error_inv|done].
  - unfold async_write. destruct (negb (connected c)); [done|]. destruct (os_send bs (sock e)) as [m s].
    simpl. destruct (m <=? 0); [by apply handle_error_inv|done].
  - by eapply close_inv.
Qed.

(** C33: descriptors are closed at most once: in every reachable state the calls
    to [::close] plus the descriptor still held equal the descriptors acquired,
    a connected object holds one, and the close callback ran at most once per
    descriptor closed; other operations may come while a connect is suspended, but
    no second connect. *)
Theorem descriptor_balance k x :
  reach k x ->
  zlen (closed_fds x.2) + held x.1 = k /\ (connected x.1 = true -> held x.1 = 1) /\
  0 <= callbacks x.2 <= zlen (closed_fds x.2).
Proof.
  intros (H1 & H2 & H3 & _)%reach_inv. split_and!; try done; try lia.
  intros Hc. unfold held. by rewrite (proj2 (Z.leb_le 0 (fd_ x.1))) by auto.
Qed.

(** A failed connect leaks its descriptor: [close] and the destructor act
    only in state [Connected], so the socket of a connection whose
    [async_connect] failed stays open for good. *)
Theorem failed_connect_leaks new_fd ret x :
  ret <> 0 -> 0 <= new_fd ->
  let x' := (async_connect new_fd ret x).2 in
  (async_connect new_fd ret x).1 = false /\ held x'.1 = 1 /\ closed_fds x'.2 = closed_fds x.2 /\
  close true x' = Ret x' /\ Connection_destroy x' = Ret x'.2.
Proof.
  intros Hr Hf. destruct x as [c e]. unfold async_connect, connect_begin, connect_end.
  assert (Hfd : 0 <= (if fd_ c <? 0 then new_fd else fd_ c)) by (destruct (Z.ltb_spec (fd_ c) 0); lia).
  rewrite (proj2 (Z.ltb_ge _ 0)) by done. rewrite (proj2 (Z.eqb_neq ret 0)) by done. simpl.
  unfold held. simpl. by rewrite (proj2 (Z.leb_le 0 _)).
Qed.

(** [async_read(Buffer&)] loses what it reads: on a connected stream with
    data the bytes are stored past [write_pos_], which stays, so the buffer's
    content is what it was. *)
Theorem read_into_buffer_loses h b q i k x n bs x1 :
  holds h b q -> block_ b = Some i -> h !! i = Some (Some k) -> write_pos_ b < capacity_ k ->
  async_read (capacity_ k - write_pos_ b) x = (n, bs, x1) ->
  exists h', async_read_buffer h b x = Ret (n, h', b, x1) /\ as_string h' b = Ret q.
Proof.
  intros Hb Ei Ek Hroom E.
  destruct (writable_holds h b q i k Hb Ei Ek) as (Hw & _ & _ & Hq).
  assert (Hbs : write_pos_ b + zlen bs <= capacity_ k).
  { apply async_read_spec in E as ([[_ ->]|(? & ? & _)] & _); simpl; lia. }
  destruct (store_holds bs h b q i k Hb Ei Ek Hbs) as (d & Hst & _ & _ & Hb').
  unfold async_read_buffer. rewrite Hw. cbn [mbind outcome_bind].
  rewrite (proj2 (Z.eqb_neq _ 0)) by lia. rewrite E, Hst. cbn [mbind outcome_bind].
  eexists. split; [done|]. apply as_string_holds; [done|]. by rewrite Ei.
Qed.

(** ** Witnesses *)

Definition sample_env (evs : list recv_ev) (room : list Z) : env := mkEnv (mkSocket evs room []) [] 0.

Lemma read_line_correct_witness :
  let x := (Connection_create 3, sample_env [Data [104; 105]; Data [33; 10; 7]] []) in
  exists x', async_read_line x = Some ([104; 105; 33], x') /\ in_bytes (sk_in (sock x'.2)) = [7].
Proof.
  apply (read_line_correct (Connection_create 3, sample_env [Data [104; 105]; Data [33; 10; 7]] [])
           [104; 105; 33] [7]); [done..|]. compute_done.
Defined.

Lemma write_all_prefix_witness :
  let x := (Connection_create 3, sample_env [] [2; 1; -32]) in
  exists n x', async_write_all [1; 2; 3; 4] x = (n, x') /\ n = 3 /\
    sk_out (sock x'.2) = sk_out (sock x.2) ++ take (Z.to_nat n) [1; 2; 3; 4].
Proof.
  intros x. destruct (async_write_all [1; 2; 3; 4] x) as [n x'] eqn:E.
  exists n, x'. split; [done|]. split; [vm_compute in E; congruence|].
  exact (proj1 (proj2 (write_all_prefix [1; 2; 3; 4] x n x' E))).
Defined.

Lemma descriptor_balance_witness :
  let x := (async_connect 5 0 (Connection_create (-1), sample_env [] [])).2 in
  zlen (closed_fds x.2) + held x.1 = 1 /\ (connected x.1 = true -> held x.1 = 1) /\
  0 <= callbacks x.2 <= zlen (closed_fds x.2).
Proof.
  apply (descriptor_balance 1).
  apply (reach_connect_end 1 (connect_begin 5 (Connection_create (-1), sample_env [] [])).2 0); [|done].
  apply (reach_connect_begin 0 (Connection_create (-1), sample_env [] []) 5); [|done].
  by apply (reach_create (-1)).
Defined.

(** Two connects at a time: the second one completes after the object was closed
    and makes it a connected object without a descriptor, which [close] closes. *)
Example two_connects_close_nothing :
  let x1 := (connect_end 0 (connect_begin 5 (connect_begin 5 (Connection_create (-1), sample_env [] [])).2).2).2 in
  exists x2 x3, close true x1 = Ret x2 /\ connected (connect_end 0 x2).2.1 = true /\
    close true (connect_end 0 x2).2 = Ret x3 /\ closed_fds x3.2 = [5; -1].
Proof. eexists _, _. by split_and!. Qed.

Lemma failed_connect_leaks_witness :
  let x' := (async_connect 5 (-111) (Connection_create (-1), sample_env [] [])).2 in
  held x'.1 = 1 /\ closed_fds x'.2 = [] /\ Connection_destroy x' = Ret x'.2.
Proof.
  destruct (failed_connect_leaks 5 (-111) (Connection_create (-1), sample_env [] []))
    as (_ & ? & ? & _ & ?); [lia|lia|done].
Defined.

Lemma read_into_buffer_loses_witness :
  let x := (Connection_create 3, sample_env [Data [1; 2]] []) in
  exists h' x1, async_read_buffer [Some sample_block] sample_buffer x = Ret (2, h', sample_buffer, x1) /\
    as_string h' sample_buffer = Ret [5; 6].
Proof.
  intros x. destruct (async_read 3 x) as [[n bs] x1] eqn:E.
  assert (n = 2) as -> by (vm_compute in E; congruence).
  destruct (read_into_buffer_loses [Some sample_block] sample_buffer [5; 6] 0%nat sample_block x 2 bs x1)
    as (h' & ? & ?); [apply sample_holds|done|done|done|done|].
  exists h', x1. done.
Defined.
