(* ===== verification/ServiceRegistry.v ===== *)
(** * rpc/service_registry.hpp: the method registry

    [services_] and the two maps of a [ServiceInfo] are finite maps keyed by
    byte strings.  [Handler] is the type of non-empty [MethodHandler]s; a
    [MethodHandler] is an [option Handler], an empty [std::function] being
    [None].  Each operation is the critical section its lock protects. *)

From Stdlib Require Import ZArith Lia.
From S2P Require Import Prelude.

Record ServiceInfo (Handler : Type) := mkServiceInfo {
  si_name : list Z;
  si_methods : gmap (list Z) (option Handler);
  si_method_descriptions : gmap (list Z) (list Z);
}.
Arguments mkServiceInfo {Handler}.
Arguments si_name {Handler}.
Arguments si_methods {Handler}.
Arguments si_method_descriptions {Handler}.

Section Registry.
Context {Handler : Type}.

Abbreviation registry := (gmap (list Z) (ServiceInfo Handler)).
Implicit Types (r : registry) (s m : list Z).

(** [ServiceInfo{name}] *)
Definition ServiceInfo_new (name : list Z) : ServiceInfo Handler := mkServiceInfo name ∅ ∅.

Definition register_service (name : list Z) r : registry := <[name := ServiceInfo_new name]> r.

Definition register_method (service_name method_name : list Z) (handler : option Handler)
    (description : list Z) r : registry :=
  let it := match r !! service_name with Some si => si | None => ServiceInfo_new service_name end in
  <[service_name :=
      mkServiceInfo (si_name it) (<[method_name := handler]> (si_methods it))
        (if bool_decide (description = []) then si_method_descriptions it
         else <[method_name := description]> (si_method_descriptions it))]> r.

Definition unregister_service (name : list Z) r : registry := delete name r.

Definition find_method (service_name method_name : list Z) r : option Handler :=
  match r !! service_name with
  | None => None
  | Some si => match si_methods si !! method_name with None => None | Some h => h end
  end.

Definition has_service (name : list Z) r : bool :=
  match r !! name with Some _ => true | None => false end.

Definition has_method (service_name method_name : list Z) r : bool :=
  match r !! service_name with
  | None => false
  | Some si => match si_methods si !! method_name with Some _ => true | None => false end
  end.

(** The iteration order of an [unordered_map] is unspecified: only the set of
    names is meaningful. *)
Definition list_services r : list (list Z) := (map_to_list r).*1.

Definition list_methods (service_name : list Z) r : list (list Z) :=
  match r !! service_name with
  | None => []
  | Some si => (map_to_list (si_methods si)).*1
  end.

Definition get_service_info (name : list Z) r : option (ServiceInfo Handler) := r !! name.

(** ** The registry as the history of its calls *)

Inductive registry_op :=
| RegService (name : list Z)
| RegMethod (service method : list Z) (handler : option Handler) (description : list Z)
| Unreg (name : list Z).

Definition registry_step r (op : registry_op) : registry :=
  match op with
  | RegService n => register_service n r
  | RegMethod s m h d => register_method s m h d r
  | Unreg n => unregister_service n r
  end.

Definition registry_run (ops : list registry_op) : registry := fold_left registry_step ops ∅.

(** The last call that concerns a method, the most recent call first. *)
Fixpoint last_registration (recent : list registry_op) s m : option (option Handler) :=
  match recent with
  | [] => None
  | RegService n :: recent => if decide (n = s) then None else last_registration recent s m
  | Unreg n :: recent => if decide (n = s) then None else last_registration recent s m
  | RegMethod s' m' h _ :: recent =>
      if decide (s' = s /\ m' = m) then Some h else last_registration recent s m
  end.

Definition lookup_method s m r : option (option Handler) :=
  si ← r !! s; si_methods si !! m.

Lemma lookup_register_method s m h d s' m' r :
  lookup_method s' m' (register_method s m h d r)
  = if decide (s = s' /\ m = m') then Some h else lookup_method s' m' r.
Proof.
  unfold lookup_method, register_method. destruct (decide (s = s')) as [->|Hs].
  - rewrite lookup_insert_eq. simpl. destruct (decide (m = m')) as [->|Hm].
    + by rewrite lookup_insert_eq, decide_True.
    + rewrite lookup_insert_ne, decide_False by tauto. by destruct (r !! s').
  - rewrite lookup_insert_ne, decide_False by tauto. done.
Qed.

Lemma lookup_run ops s m :
  lookup_method s m (registry_run ops) = last_registration (reverse ops) s m.
Proof.
  induction ops as [|op ops IH] using rev_ind; [done|].
  unfold registry_run in *. rewrite fold_left_app, reverse_snoc. simpl.
  set (r := fold_left registry_step ops ∅) in *.
  destruct op as [n|s' m' h d|n]; simpl.
  - unfold lookup_method, register_service in *. case_decide as E; [subst|].
    + by rewrite lookup_insert_eq.
    + by rewrite lookup_insert_ne.
  - rewrite lookup_register_method. by case_decide.
  - unfold lookup_method, unregister_service in *. case_decide as E; [subst|].
    + by rewrite lookup_delete_eq.
    + by rewrite lookup_delete_ne.
Qed.

Lemma find_method_lookup s m r :
  find_method s m r = match lookup_method s m r with Some h => h | None => None end.
Proof. unfold find_method, lookup_method. by destruct (r !! s). Qed.

Lemma has_method_lookup s m r : has_method s m r = bool_decide (is_Some (lookup_method s m r)).
Proof.
  unfold has_method, lookup_method. destruct (r !! s) as [si|]; simpl; [|done].
  by destruct (si_methods si !! m).
Qed.

(** C37: the registry answers by the last call that concerns the method: after any
    sequence of registrations [find_method] returns the handler registered last,
    unless the service was registered anew ([register_service] drops the methods
    it had) or unregistered since; the has and list queries agree with it. *)
Theorem registry_last_wins ops s m :
  let r := registry_run ops in
  let last := last_registration (reverse ops) s m in
  find_method s m r = match last with Some h => h | None => None end /\
  has_method s m r = bool_decide (is_Some last) /\
  (m ∈ list_methods s r <-> is_Some last).
Proof.
  intros r last. unfold r, last. rewrite find_method_lookup, has_method_lookup, lookup_run.
  split_and!; [done..|]. rewrite <- lookup_run. unfold list_methods, lookup_method.
  destruct (registry_run ops !! s) as [si|]; simpl.
  - rewrite list_elem_of_fmap. split.
    + intros ([m' h] & -> & Hm%elem_of_map_to_list). simpl. by rewrite Hm.
    + intros [h Hh]. exists (m, h). split; [done|]. by apply elem_of_map_to_list.
  - split; [by intros ?%elem_of_nil|]. by intros [].
Qed.

(** Every entry is filed under its own name. *)
Lemma registry_names ops s si : registry_run ops !! s = Some si -> si_name si = s.
Proof.
  revert s si. induction ops as [|op ops IH] using rev_ind; intros s si; [done|].
  unfold registry_run in *. rewrite fold_left_app. simpl.
  set (r := fold_left registry_step ops ∅) in *.
  destruct op as [n|s' m' h d|n]; simpl; unfold register_service, register_method, unregister_service.
  - rewrite lookup_insert_Some. intros [[<- <-]|[_ ?]]; [done|by apply IH].
  - rewrite lookup_insert_Some. intros [[<- <-]|[_ ?]]; [|by apply IH]. simpl.
    destruct (r !! s') as [si'|] eqn:E; [by apply IH|done].
  - rewrite lookup_delete_Some. intros [_ ?]. by apply IH.
Qed.
End Registry.
