(* ===== verification/RpcServer.v ===== *)
(** * rpc/rpc_server.hpp: requests to responses

    [handle_message] and [handle_connection] follow the two coroutines; the
    connection is any [Stream].  [invoke] runs a registered handler on the
    application's own state, whose changes stay when the handler throws. *)

From Stdlib Require Import ZArith Lia.
From S2P Require Import Prelude Protocol Connection ServiceRegistry.

Record RpcServerConfig := mkServerConfig {
  rs_host : list Z;
  rs_port : Z;
  max_connections : Z;
  timeout_ms : Z;
  max_request_size : Z;
  rs_enable_metrics : bool;
}.

Definition default_server_config : RpcServerConfig := 
  mkServerConfig (bytes_of_string "0.0.0.0") 9000 10000 30000 (10 * 1024 * 1024) true.

Record RpcServer (App : Type) := mkServer {
  config_ : RpcServerConfig;
  total_requests_ : Z;
  total_errors_ : Z;
  app : App;
}.
Arguments mkServer {App}.
Arguments config_ {App}.
Arguments total_requests_ {App}.
Arguments total_errors_ {App}.
Arguments app {App}.

(** What awaiting a handler's task gives: a result or an exception, with the
    application state the handler leaves, or undefined behaviour. *)
Inductive handler_run (App : Type) :=
| Replied (result : list Z) (a : App)
| Threw (what : string) (a : App)
| Undefined.
Arguments Replied {App}.
Arguments Threw {App}.
Arguments Undefined {App}.

Section Server.
Context {App Handler : Type}.
Context (invoke : Handler -> list Z -> App -> handler_run App).
Context (pad : list Z).   (* padding bytes of the metadata structs *)
Context (services : gmap (list Z) (ServiceInfo Handler)).
Implicit Types (srv : RpcServer App).

Definition count_error srv : RpcServer App :=
  mkServer (config_ srv) (total_requests_ srv) (u64 (total_errors_ srv + 1)) (app srv).
Definition count_request srv : RpcServer App :=
  mkServer (config_ srv) (u64 (total_requests_ srv + 1)) (total_errors_ srv) (app srv).
Definition set_app srv (a : App) : RpcServer App :=
  mkServer (config_ srv) (total_requests_ srv) (total_errors_ srv) a.

(** The [try] block of [handle_message], once the handler's task is over. *)
Definition answer_run (id : Z) (r : handler_run App) srv : outcome (list Z * RpcServer App) :=
  match r with
  | Replied result a =>
      let* bs := RpcMessage_serialize pad (create_response id result ErrorCode.OK) in
      Ret (bs, set_app srv a)
  | Threw _ a =>
      let error_msg := create_error id ErrorCode.Unknown (bytes_of_string "Internal server error") in
      let* bs := RpcMessage_serialize pad error_msg in
      Ret (bs, count_error (set_app srv a))
  | Undefined => Undef
  end.

(** [handle_message(data, size)]: [mem] is the buffer [data] points into. *)
Definition handle_message (mem : list Z) (size : Z) srv : outcome (list Z * RpcServer App) :=
  let* r := RpcMessage_deserialize mem size RpcMessage_new in
  let '(ok, msg) := r in
  if negb ok then Ret ([], count_error srv) else
  let srv := count_request srv in
  match message_type msg with
  | Request =>
      match find_method (service_ msg) (method_ msg) services with
      | None =>
          let error_msg := create_error (request_id_ msg) ErrorCode.ServiceNotFound
                             (bytes_of_string "Service or method not found") in
          let* bs := RpcMessage_serialize pad error_msg in Ret (bs, srv)
      | Some handler =>
          answer_run (request_id_ msg) (invoke handler (payload_ msg) (app srv)) srv
      end
  | Heartbeat =>
      let* bs := RpcMessage_serialize pad (create_response (request_id_ msg) [] ErrorCode.OK) in
      Ret (bs, srv)
  | _ => Ret ([], srv)
  end.

End Server.

Section Loop.
Context {App : Type} (handle : list Z -> Z -> RpcServer App -> outcome (list Z * RpcServer App)).
Context {T : Type} `{!Stream T}.
Implicit Types (srv : RpcServer App) (t : T) (buffer : list Z).

(** The loop awaits [handle], which is [handle_message].  The end of an iteration: the message is handled and the response sent. *)
Definition respond srv buffer (total_size : Z) t : outcome (bool * (RpcServer App * list Z * T)) :=
  let* m := handle buffer total_size srv in
  let '(response, srv) := m in
  if negb (bool_decide (response = [])) then
    let '(n, t) := st_write response t in
    Ret (negb (n <=? 0), (srv, buffer, t))
  else Ret (true, (srv, buffer, t)).

(** One iteration of the loop of [handle_connection]; the flag is false when
    the coroutine leaves the loop. *)
Definition serve_once srv buffer t : outcome (bool * (RpcServer App * list Z * T)) :=
  let '(n, bs, t) := st_read sizeof_ProtocolHeader t in
  let* buffer := write_at buffer 0 bs in
  if n <=? 0 then Ret (false, (srv, buffer, t)) else
  let* hb := read_at buffer 0 sizeof_ProtocolHeader in
  let header := header_of_bytes hb in
  if negb (header_valid header) then Ret (false, (count_error srv, buffer, t)) else
  let total_size := u64 (sizeof_ProtocolHeader + meta_len header + payload_len header) in
  if max_request_size (config_ srv) <? total_size then Ret (false, (count_error srv, buffer, t)) else
  let buffer := if zlen buffer <? total_size then resize buffer total_size else buffer in
  let remaining := total_size - sizeof_ProtocolHeader in
  let* r :=
    (if 0 <? remaining then
       let '(n, bs, t) := st_read remaining t in
       let* buffer := write_at buffer sizeof_ProtocolHeader bs in
       Ret (n <=? 0, buffer, t)
     else Ret (false, buffer, t)) in
  let '(failed, buffer, t) := r in
  if (failed : bool) then Ret (false, (srv, buffer, t)) else
  respond srv buffer total_size t.

(** [while (conn->connected()) ...]: [None] is an exhausted [fuel]. *)
Fixpoint serve_loop (fuel : nat) srv buffer t : outcome (option (RpcServer App * T)) :=
  match fuel with
  | O => Ret None
  | S fuel =>
      if st_connected t then
        let* r := serve_once srv buffer t in
        let '(go, (srv, buffer, t)) := r in
        if (go : bool) then serve_loop fuel srv buffer t else Ret (Some (srv, t))
      else Ret (Some (srv, t))
  end.

End Loop.

Definition handle_connection {App Handler T : Type} `{!Stream T} (invoke : Handler -> list Z -> App -> handler_run App)
    (pad : list Z) (services : gmap (list Z) (ServiceInfo Handler)) (srv : RpcServer App) (t : T)
  : outcome (option (RpcServer App * T)) :=
  serve_loop (handle_message invoke pad services) (S (S (st_left t))) srv (replicate 4096 0) t.

(** ** Messages *)

Section Messages.
Context {App Handler : Type}.
Context (invoke : Handler -> list Z -> App -> handler_run App).
Context (pad : list Z).
Context (services : gmap (list Z) (ServiceInfo Handler)).
Implicit Types (srv : RpcServer App) (m : RpcMessage) (a : App).

(** What the server promises for a request: the message it answers, the
    application state and the number of errors counted. *)
Definition reply m a : outcome (RpcMessage * App * Z) :=
  match find_method (service_ m) (method_ m) services with
  | None => Ret (create_error (request_id_ m) ErrorCode.ServiceNotFound
                   (bytes_of_string "Service or method not found"), a, 0)
  | Some h =>
      match invoke h (payload_ m) a with
      | Replied result a => Ret (create_response (request_id_ m) result ErrorCode.OK, a, 0)
      | Threw _ a => Ret (create_error (request_id_ m) ErrorCode.Unknown
                            (bytes_of_string "Internal server error"), a, 1)
      | Undefined => Undef
      end
  end.

Lemma reply_shape m a resp a' e :
  reply m a = Ret (resp, a', e) ->
  request_id_ resp = request_id_ m /\ is_request (message_type resp) = false /\
  is_response (message_type resp) = true /\ e = (if error_code_ resp =? ErrorCode.Unknown then 1 else 0).
Proof.
  unfold reply. destruct (find_method _ _ _) as [h|]; [destruct (invoke h _ a) as [res b|w b|]|];
    intros [= <- <- <-] || intros [=]; done.
Qed.

(** Results that fit the 32-bit length field of the response header. *)
Definition result_ok (r : list Z) : Prop := bytes_ok r /\ zlen r < 2 ^ 32.

Lemma response_message_ok id payload error msg :
  is_u 64 id -> result_ok payload -> is_s 32 error -> bytes_ok msg -> zlen msg < 2 ^ 16 ->
  message_ok (mkMessage (header_init Response) id [] [] payload error msg 30000 0).
Proof.
  intros ? [? ?] ? ? ?. split; simpl; try done; try (split; done || lia); try constructor.
  all: unfold meta_size, sizeof_ResponseMeta, is_u; simpl; lia.
Qed.

Lemma reply_ok m a resp a' e :
  message_ok m -> reply m a = Ret (resp, a', e) ->
  (forall h res b, invoke h (payload_ m) a = Replied res b -> result_ok res) ->
  message_ok resp.
Proof.
  intros Hm Hr Hres. pose proof (ok_id m Hm). unfold reply in Hr.
  assert (result_ok []) by by split.
  destruct (find_method _ _ _) as [h|]; [destruct (invoke h _ a) as [res b|w b|] eqn:E|]; try done;
    apply (f_equal (fun o => match o with Ret (r, _, _) => r | _ => RpcMessage_new end)) in Hr;
    cbn beta iota in Hr; rewrite <- Hr; apply response_message_ok;
    first [done|apply bytes_of_string_ok|by eapply Hres|by constructor|compute_done].
Qed.

Lemma received_request m :
  is_request (message_type m) = true ->
  message_type (received m) = Request /\ service_ (received m) = service_ m /\
  method_ (received m) = method_ m /\ payload_ (received m) = payload_ m /\
  request_id_ (received m) = request_id_ m.
Proof.
  intros Ht. unfold received. rewrite Ht. split; [|done].
  change (message_type m = Request). destruct (message_type m); done.
Qed.

Lemma handle_request m rest size srv :
  length pad = 4%nat -> message_ok m -> is_request (message_type m) = true ->
  zlen (frame pad m) <= size ->
  handle_message invoke pad services (frame pad m ++ rest) size srv =
  let* r := reply m (app srv) in
  let '(resp, a, e) := r in
  let srv' := count_request srv in
  Ret (frame pad resp, set_app (if e =? 1 then count_error srv' else srv') a).
Proof.
  intros Hp Hm Ht Hs. unfold handle_message.
  rewrite (deserialize_frame pad m rest size) by auto. cbn [mbind outcome_bind negb].
  destruct (received_request m Ht) as (-> & -> & -> & -> & ->). unfold reply.
  destruct (find_method _ _ _) as [h|].
  - change (app (count_request srv)) with (app srv). unfold answer_run.
    destruct (invoke h (payload_ m) (app srv)) as [res b|w b|]; cbn [mbind outcome_bind];
      rewrite ?serialize_frame by done; done.
  - rewrite serialize_frame by done. by destruct srv.
Qed.

(** C14: every well-formed request is answered with its own id.  Whatever follows
    the frame in the buffer, [handle_message] runs the registered handler on the
    payload and its answer, read by a client, is the response that carries the
    handler's result; an unknown method gives [ServiceNotFound] and a handler
    that throws gives [Unknown], counted as an error, and what it did to the
    application state before stays. *)
Theorem handle_message_answers m rest size srv resp a e tail :
  length pad = 4%nat -> message_ok m -> is_request (message_type m) = true ->
  zlen (frame pad m) <= size ->
  reply m (app srv) = Ret (resp, a, e) ->
  (forall h res b, invoke h (payload_ m) (app srv) = Replied res b -> result_ok res) ->
  exists bs srv',
    handle_message invoke pad services (frame pad m ++ rest) size srv = Ret (bs, srv') /\
    RpcMessage_deserialize (bs ++ tail) (zlen bs) RpcMessage_new = Ret (true, received resp) /\
    request_id_ (received resp) = request_id_ m /\ payload_ (received resp) = payload_ resp /\
    error_code_ (received resp) = error_code_ resp /\
    app srv' = a /\ total_requests_ srv' = u64 (total_requests_ srv + 1) /\
    total_errors_ srv' = if e =? 1 then u64 (total_errors_ srv + 1) else total_errors_ srv.
Proof.
  intros Hp Hm Ht Hs Hr Hres. destruct (reply_shape _ _ _ _ _ Hr) as (Hid & Hq & Hrsp & _).
  rewrite handle_request, Hr by done. cbn [mbind outcome_bind].
  eexists _, _. split; [done|].
  rewrite (deserialize_frame pad resp tail) by (done || by eapply reply_ok || by right).
  unfold received. rewrite Hq. split_and!; try done; by destruct (e =? 1).
Qed.
End Messages.

(** ** Connections *)

Section Connections.
Context {App : Type} (handle : list Z -> Z -> RpcServer App -> outcome (list Z * RpcServer App)).
Context {T : Type} `{!Stream T}.
Implicit Types (srv : RpcServer App) (t : T) (buffer : list Z).

Lemma write_at_in mem off bs :
  0 <= off -> off + zlen bs <= zlen mem ->
  exists mem', write_at mem off bs = Ret mem' /\ length mem' = length mem.
Proof.
  intros. unfold write_at. rewrite decide_True by done. eexists. split; [done|].
  rewrite !length_app, length_take, length_drop. lia.
Qed.

(** The message handler gives a result for every message inside its buffer. *)
Definition total_inside : Prop :=
  forall buf size srv, 0 <= size <= zlen buf -> exists r, handle buf size srv = Ret r.

(** An iteration ends well when the buffer has not shrunk and going on means
    that input was used up; it is [Undef] or throws only if the message handler
    does on some message inside its buffer. *)
Definition ends_well buffer (left : nat) (o : outcome (bool * (RpcServer App * list Z * T))) : Prop :=
  match o with
  | Ret (go, (_, buffer', t')) => zlen buffer <= zlen buffer' /\ (go = true -> (st_left t' < left)%nat)
  | _ => ~ total_inside
  end.

Lemma respond_ends `{!StreamLaws T} srv buffer buf total t left :
  zlen buffer <= zlen buf -> 0 <= total <= zlen buf -> (st_left t < left)%nat ->
  ends_well buffer left (respond handle srv buf total t).
Proof.
  intros Hb Ht Hl. unfold respond.
  destruct (handle buf total srv) as [[resp srv']|w|] eqn:Em; cbn [mbind outcome_bind].
  2,3: intros H; destruct (H buf total srv Ht) as [r Hr]; by rewrite Em in Hr.
  case_bool_decide; cbn [negb]; [done|].
  destruct (st_write resp t) as [n3 t3] eqn:E3. pose proof (st_write_left _ _ _ _ E3).
  split; [done|]. lia.
Qed.

Lemma serve_once_ends `{!StreamLaws T} srv buffer t :
  16 <= zlen buffer -> ends_well buffer (st_left t) (serve_once handle srv buffer t).
Proof.
  intros Hb. unfold serve_once, sizeof_ProtocolHeader.
  destruct (st_read 16 t) as [[n bs] t1] eqn:E1.
  pose proof (st_read_left 16 _ _ _ _ ltac:(done) E1) as L1.
  pose proof (st_read_result 16 _ _ _ _ ltac:(done) E1) as R1.
  destruct (write_at_in buffer 0 bs) as (buf1 & -> & Hl1); [lia|destruct R1 as [[_ ->]|?]; simpl; lia|].
  cbn [mbind outcome_bind]. destruct (Z.leb_spec n 0) as [Hn|Hn]; [by split; [lia|]|].
  assert (Hlt : (st_left t1 < st_left t)%nat) by (destruct R1 as [?|[? ?]]; lia).
  rewrite read_at_ok by lia. cbn [mbind outcome_bind]. set (hd := header_of_bytes _).
  destruct (negb (header_valid hd)); [by split; [lia|]|].
  set (total := u64 _). destruct (max_request_size _ <? total); [by split; [lia|]|].
  assert (Ht : 0 <= total) by (apply wrap_range; lia).
  set (buf2 := if zlen buf1 <? total then _ else _).
  assert (Hl2 : zlen buffer <= zlen buf2 /\ total <= zlen buf2).
  { subst buf2. destruct (Z.ltb_spec (zlen buf1) total); [rewrite length_resize by done|]; lia. }
  destruct (Z.ltb_spec 0 (total - 16)) as [Hrem|_]; [|apply respond_ends; lia].
  destruct (st_read (total - 16) t1) as [[n2 bs2] t2] eqn:E2.
  pose proof (st_read_left (total - 16) _ _ _ _ ltac:(lia) E2) as L2.
  pose proof (st_read_result (total - 16) _ _ _ _ ltac:(lia) E2) as R2.
  destruct (write_at_in buf2 16 bs2) as (buf3 & -> & Hl3); [lia|destruct R2 as [[_ ->]|?]; simpl; lia|].
  cbn [mbind outcome_bind]. destruct (n2 <=? 0); [by split; [lia|]|].
  apply respond_ends; lia.
Qed.

Lemma serve_loop_ends `{!StreamLaws T} fuel srv buffer t :
  16 <= zlen buffer -> (st_left t < fuel)%nat ->
  serve_loop handle fuel srv buffer t <> Ret None /\
  (total_inside -> exists srv' t', serve_loop handle fuel srv buffer t = Ret (Some (srv', t'))).
Proof.
  revert srv buffer t. induction fuel as [|fuel IH]; intros srv buffer t Hb Hf; [lia|]. simpl.
  destruct (st_connected t); [|split; [done|eauto]]. pose proof (serve_once_ends srv buffer t Hb) as Hs.
  destruct (serve_once handle srv buffer t) as [[go [[srv' buffer'] t']]|w|]; [|by split; [|intros []%Hs]..].
  cbn [mbind outcome_bind]. destruct Hs as [Hb' Hgo]. destruct go; [|split; [done|eauto]].
  specialize (Hgo eq_refl). apply IH; lia.
Qed.

(** An iteration whose header read is complete, up to its handler call. *)
Lemma serve_once_body srv buffer t t1 t2 h bs n :
  header_ok h -> magic h = kMagic -> 0 < n -> zlen bs = n ->
  let total := 16 + meta_len h + payload_len h in
  16 < total -> total <= max_request_size (config_ srv) -> total <= zlen buffer -> n <= total - 16 ->
  st_read 16 t = (16, header_bytes h, t1) -> st_read (total - 16) t1 = (n, bs, t2) ->
  serve_once handle srv buffer t =
  respond handle srv (header_bytes h ++ bs ++ drop (16 + length bs) buffer) total t2.
Proof.
  intros Hh Hm Hn Hbs total Htot Hmax Hbuf Hle E1 E2. unfold serve_once, sizeof_ProtocolHeader.
  rewrite E1. pose proof (length_header_bytes h) as Hlh.
  assert (Hw : write_at buffer 0 (header_bytes h) = Ret (header_bytes h ++ drop 16 buffer)).
  { unfold write_at. rewrite decide_True by lia. by rewrite Hlh. }
  rewrite Hw. cbn [mbind outcome_bind]. cbn [Z.leb Z.compare].
  assert (Hr : read_at (header_bytes h ++ drop 16 buffer) 0 16 = Ret (header_bytes h)) by
    (apply (read_at_app []); rewrite ?Hlh; done).
  rewrite Hr. cbn [mbind outcome_bind]. rewrite header_roundtrip by done.
  unfold header_valid. rewrite Hm, Z.eqb_refl. cbn [negb].
  rewrite (wrap_small 64); [|destruct Hh as (_ & _ & _ & ? & ? & _); unfold is_u in *; lia].
  fold total. rewrite (proj2 (Z.ltb_ge _ total)) by done.
  rewrite (proj2 (Z.ltb_ge _ total)) by (rewrite length_app, length_drop; lia).
  rewrite (proj2 (Z.ltb_lt 0 _)), E2 by lia.
  assert (Hw2 : write_at (header_bytes h ++ drop 16 buffer) 16 bs
                = Ret (header_bytes h ++ bs ++ drop (16 + length bs) buffer)).
  { rewrite <- (take_drop (length bs) (drop 16 buffer)), drop_drop.
    apply write_at_app; [by rewrite Hlh|]. rewrite length_take, length_drop. lia. }
  rewrite Hw2. cbn [mbind outcome_bind]. rewrite (proj2 (Z.leb_gt n 0)) by done. done.
Qed.

(** A short body read is not completed.  When the second read delivers fewer
    bytes than the frame's body, the server handles a message whose tail is what
    its buffer held before, bytes of an earlier request included. *)
Theorem short_read_uses_stale_bytes srv buffer t t1 t2 h bs :
  header_ok h -> magic h = kMagic ->
  let total := 16 + meta_len h + payload_len h in
  total <= max_request_size (config_ srv) -> total <= zlen buffer ->
  0 < zlen bs < total - 16 ->
  st_read 16 t = (16, header_bytes h, t1) -> st_read (total - 16) t1 = (zlen bs, bs, t2) ->
  serve_once handle srv buffer t =
  respond handle srv (header_bytes h ++ bs ++ drop (16 + length bs) buffer) total t2.
Proof. intros. eapply serve_once_body; eauto; lia. Qed.
End Connections.

(** C17: [handle_connection] ends on every stream of finite input, whatever the
    peer sends and however the stream is cut, and its loop touches its buffer only
    inside its bounds: with any message handler that gives a result for every
    message lying inside the buffer it is passed, the loop ends without undefined
    behaviour or exception.  So what is undefined in a connection is undefined in
    [handle_message] (the length checks [deserialize] leaves out, or the
    application's handler). *)
Theorem handle_connection_ends {App Handler T : Type} `{!Stream T} `{!StreamLaws T}
    (invoke : Handler -> list Z -> App -> handler_run App) pad services (srv : RpcServer App) (t : T) :
  handle_connection invoke pad services srv t <> Ret None /\
  forall handle, total_inside (App := App) handle ->
    exists srv' t', serve_loop handle (S (S (st_left t))) srv (replicate 4096 0) t = Ret (Some (srv', t')).
Proof.
  split; [|intros handle H].
  - apply (serve_loop_ends (handle_message invoke pad services)); [|lia]. rewrite length_replicate. lia.
  - apply (serve_loop_ends handle); [|lia|done]. rewrite length_replicate. lia.
Qed.

(** ** Witnesses *)

(** Handler [true] answers two bytes, handler [false] throws. *)
Definition demo_invoke (h : bool) (p : list Z) (a : unit) : handler_run unit :=
  if h then Replied [1; 2] a else Threw "failure" a.
Definition demo_services : gmap (list Z) (ServiceInfo bool) :=
  register_method (bytes_of_string "Calculator") (bytes_of_string "add") (Some true) [] ∅.
Definition demo_server : RpcServer unit := mkServer default_server_config 0 0 tt.

Lemma handle_message_answers_witness :
  let resp := create_response 7 [1; 2] ErrorCode.OK in
  exists bs srv',
    handle_message demo_invoke [0; 0; 0; 0] demo_services (frame [0; 0; 0; 0] example_request ++ []) 100 demo_server
      = Ret (bs, srv') /\
    RpcMessage_deserialize (bs ++ []) (zlen bs) RpcMessage_new = Ret (true, received resp) /\
    request_id_ (received resp) = request_id_ example_request /\ payload_ (received resp) = payload_ resp /\
    error_code_ (received resp) = error_code_ resp /\
    app srv' = tt /\ total_requests_ srv' = u64 (total_requests_ demo_server + 1) /\
    total_errors_ srv' = if 0 =? 1 then u64 (total_errors_ demo_server + 1) else total_errors_ demo_server.
Proof.
  apply (handle_message_answers demo_invoke [0; 0; 0; 0] demo_services example_request [] 100 demo_server
           (create_response 7 [1; 2] ErrorCode.OK) tt 0 []).
  - reflexivity.
  - apply example_request_ok.
  - reflexivity.
  - vm_compute. discriminate.
  - vm_compute. reflexivity.
  - intros [] res b; [|done]. intros [= <- <-]. split; compute_done.
Defined.

Lemma handle_connection_ends_witness :
  let t : conn := (Connection_create 3, sample_env [Data [80; 82; 1]; Data [0; 9]] []) in
  handle_connection demo_invoke [0; 0; 0; 0] demo_services demo_server t <> Ret None /\
  exists srv' t', serve_loop (fun _ size srv => Ret ([size], srv)) (S (S (st_left t))) demo_server (replicate 4096 0) t
    = Ret (Some (srv', t')).
Proof.
  intros t. destruct (handle_connection_ends demo_invoke [0; 0; 0; 0] demo_services demo_server t) as [H1 H2].
  split; [exact H1|]. apply H2. intros buf size srv _. by eexists.
Defined.

Lemma short_read_uses_stale_bytes_witness :
  let h := mkHeader kMagic 1 0 40 0 0 in
  let t : conn := (Connection_create 3, sample_env [Data (header_bytes h); Data [1; 2; 3]] []) in
  exists t2,
    serve_once (handle_message demo_invoke [0; 0; 0; 0] demo_services) demo_server (replicate 100 9) t =
    respond (handle_message demo_invoke [0; 0; 0; 0] demo_services) demo_server
      (header_bytes h ++ [1; 2; 3] ++ drop 19 (replicate 100 9)) 56 t2.
Proof.
  intros h t. exists (st_read 40 (st_read 16 t).2).2.
  apply (short_read_uses_stale_bytes (handle_message demo_invoke [0; 0; 0; 0] demo_services) demo_server (replicate 100 9) t
    (st_read 16 t).2 _ h [1; 2; 3]); try (vm_compute; reflexivity || discriminate || (split; reflexivity)).
  vm_compute. split_and!; reflexivity || discriminate.
Defined.
