(* ===== verification/RpcConcurrent.v ===== *)
(** * rpc/rpc_server.hpp: many connections on one event loop

    RpcServer.v runs [handle_connection] to its end.  On the event loop the
    coroutines of all connections interleave: a [conn_session] is one of them
    between two awaits, [step_session] what it does from the completion of the
    operation it awaits to its next await.  A handler is a coroutine too: its
    [handler_task] may await any number of operations, during which the other
    connections are served, and read and change the application's state between
    them.  The statistics counters and that state are shared. *)

From Stdlib Require Import ZArith Lia.
From S2P Require Import Prelude Protocol Connection ServiceRegistry RpcServer.

(** A handler's coroutine: it ends with a result or an exception, awaits an
    operation and goes on with its result, or changes the application's state
    and goes on with what the state was. *)
Inductive handler_task (App : Type) :=
| Done (r : outcome (list Z))
| Await (k : Z -> handler_task App)
| Update (f : App -> App) (k : App -> handler_task App).
Arguments Done {App}.
Arguments Await {App}.
Arguments Update {App}.

(** Where a connection's coroutine is suspended. *)
Inductive phase (App : Type) :=
| InHeader                                          (* reading the protocol header *)
| InBody (total_size : Z)                           (* reading the rest of the frame *)
| InHandler (id : Z) (k : Z -> handler_task App)    (* awaiting the handler of request [id] *)
| InWrite (response : list Z)                       (* writing the response *)
| Ended.
Arguments InHeader {App}.
Arguments InBody {App}.
Arguments InHandler {App}.
Arguments InWrite {App}.
Arguments Ended {App}.

Section Sessions.
Context {App Handler : Type}.
Context (task : Handler -> list Z -> handler_task App).
Context (pad : list Z).
Context (services : gmap (list Z) (ServiceInfo Handler)).
Context {T : Type} `{!Stream T}.
Implicit Types (srv : RpcServer App) (results : list Z) (t : T) (buffer : list Z).

(** A handler run alone, on the application's state and the results its awaits
    receive.  One that awaits more of them never answers: it counts as
    [Undefined], so that no statement about a connection that ends covers it. *)
Fixpoint run_task (c : handler_task App) (a : App) results : handler_run (App * list Z) :=
  match c with
  | Done (Ret r) => Replied r (a, results)
  | Done (Throw e) => Threw e (a, results)
  | Done Undef => Undefined
  | Await k => match results with [] => Undefined | x :: results => run_task (k x) a results end
  | Update f k => run_task (k a) (f a) results
  end.

Definition call_handler (h : Handler) (payload : list Z) (x : App * list Z) : handler_run (App * list Z) :=
  run_task (task h payload) x.1 x.2.

(** [se_results]: what the awaits of this connection's handlers still receive. *)
Record conn_session := mkSession { se_phase : phase App; se_buffer : list Z; se_results : list Z; se_stream : T }.

(** The loop's test; the header read is issued when it goes on. *)
Definition enter_loop buffer results t : conn_session :=
  if st_connected t then mkSession InHeader buffer results t else mkSession Ended buffer results t.

(** The response is written if there is one. *)
Definition send_response (response : list Z) buffer results t : conn_session :=
  if negb (bool_decide (response = [])) then mkSession (InWrite response) buffer results t
  else enter_loop buffer results t.

(** The handler's task, from where it is to its next await or its end. *)
Fixpoint resume_handler srv (id : Z) (c : handler_task App) buffer results t : outcome (RpcServer App * conn_session) :=
  match c with
  | Update f k => resume_handler (set_app srv (f (app srv))) id (k (app srv)) buffer results t
  | Await k => Ret (srv, mkSession (InHandler id k) buffer results t)
  | Done (Ret result) =>
      let* response := RpcMessage_serialize pad (create_response id result ErrorCode.OK) in
      Ret (srv, send_response response buffer results t)
  | Done (Throw _) =>
      let error_msg := create_error id ErrorCode.Unknown (bytes_of_string "Internal server error") in
      let* response := RpcMessage_serialize pad error_msg in
      Ret (count_error srv, send_response response buffer results t)
  | Done Undef => Undef
  end.

(** [handle_message] on a complete frame, up to its first await. *)
Definition answer_message srv buffer (total_size : Z) results t : outcome (RpcServer App * conn_session) :=
  let* r := RpcMessage_deserialize buffer total_size RpcMessage_new in
  let '(ok, msg) := r in
  if negb ok then Ret (count_error srv, send_response [] buffer results t) else
  let srv := count_request srv in
  match message_type msg with
  | Request =>
      match find_method (service_ msg) (method_ msg) services with
      | None =>
          let error_msg := create_error (request_id_ msg) ErrorCode.ServiceNotFound
                             (bytes_of_string "Service or method not found") in
          let* response := RpcMessage_serialize pad error_msg in
          Ret (srv, send_response response buffer results t)
      | Some handler => resume_handler srv (request_id_ msg) (task handler (payload_ msg)) buffer results t
      end
  | Heartbeat =>
      let* response := RpcMessage_serialize pad (create_response (request_id_ msg) [] ErrorCode.OK) in
      Ret (srv, send_response response buffer results t)
  | _ => Ret (srv, send_response [] buffer results t)
  end.

Definition step_session srv (s : conn_session) : outcome (RpcServer App * conn_session) :=
  let '(mkSession ph buffer results t) := s in
  match ph with
  | InHeader =>
      let '(n, bs, t) := st_read sizeof_ProtocolHeader t in
      let* buffer := write_at buffer 0 bs in
      if n <=? 0 then Ret (srv, mkSession Ended buffer results t) else
      let* hb := read_at buffer 0 sizeof_ProtocolHeader in
      let header := header_of_bytes hb in
      if negb (header_valid header) then Ret (count_error srv, mkSession Ended buffer results t) else
      let total_size := u64 (sizeof_ProtocolHeader + meta_len header + payload_len header) in
      if max_request_size (config_ srv) <? total_size
      then Ret (count_error srv, mkSession Ended buffer results t) else
      let buffer := if zlen buffer <? total_size then resize buffer total_size else buffer in
      if 0 <? total_size - sizeof_ProtocolHeader
      then Ret (srv, mkSession (InBody total_size) buffer results t)
      else answer_message srv buffer total_size results t
  | InBody total_size =>
      let '(n, bs, t) := st_read (total_size - sizeof_ProtocolHeader) t in
      let* buffer := write_at buffer sizeof_ProtocolHeader bs in
      if n <=? 0 then Ret (srv, mkSession Ended buffer results t)
      else answer_message srv buffer total_size results t
  | InHandler id k =>
      match results with
      | [] => Ret (srv, s)
      | x :: results => resume_handler srv id (k x) buffer results t
      end
  | InWrite response =>
      let '(n, t) := st_write response t in
      if n <=? 0 then Ret (srv, mkSession Ended buffer results t) else Ret (srv, enter_loop buffer results t)
  | Ended => Ret (srv, s)
  end.

(** A connection's coroutine when the server starts it: the results its
    handlers' awaits will receive and its stream. *)
Definition start_session (p : list Z * T) : conn_session := enter_loop (replicate 4096 0) p.1 p.2.

(** ** Interleavings *)

(** One completion of connection [i]. *)
Definition conc_step (x : RpcServer App * list conn_session) (i : nat) : outcome (RpcServer App * list conn_session) :=
  match x.2 !! i with
  | Some s => let* (y : RpcServer App * conn_session) := step_session x.1 s in Ret (y.1, <[i := y.2]> x.2)
  | None => Ret x
  end.

Fixpoint conc_schedule (sched : list nat) (x : RpcServer App * list conn_session) : outcome (RpcServer App * list conn_session) :=
  match sched with
  | [] => Ret x
  | i :: sched => let* x := conc_step x i in conc_schedule sched x
  end.

(** A connection alone. *)
Fixpoint solo (k : nat) (x : RpcServer App * conn_session) : outcome (RpcServer App * conn_session) :=
  match k with
  | O => Ret x
  | S k => let* (y : RpcServer App * conn_session) := step_session x.1 x.2 in solo k y
  end.

(** ** A connection alone is [handle_connection] *)

Lemma solo_add j k x : solo (j + k) x = let* y := solo j x in solo k y.
Proof.
  revert x. induction j as [|j IH]; intros x; [done|]. cbn [solo Nat.add].
  destruct (step_session x.1 x.2) as [y| |]; cbn [mbind outcome_bind]; done.
Qed.

Lemma solo_ended k srv buffer results t :
  solo k (srv, mkSession Ended buffer results t) = Ret (srv, mkSession Ended buffer results t).
Proof. by induction k. Qed.

(** In [handle_connection] the handlers act on the application's state and the
    results left; a session keeps the results itself. *)
Definition served (sv : RpcServer (App * list Z)) : RpcServer App :=
  mkServer (config_ sv) (total_requests_ sv) (total_errors_ sv) (app sv).1.

(** The session after an iteration of the loop. *)
Definition after_iteration (r : bool * (RpcServer (App * list Z) * list Z * T)) : RpcServer App * conn_session :=
  let '(go, (sv, buffer, t)) := r in
  (served sv, if go then enter_loop buffer (app sv).2 t else mkSession Ended buffer (app sv).2 t).

Lemma handler_solo id buffer t c : forall (sv : RpcServer (App * list Z)) a results bs sv',
  answer_run pad id (run_task c a results) sv = Ret (bs, sv') ->
  exists j x, resume_handler (set_app (served sv) a) id c buffer results t = Ret x /\
    solo j x = Ret (served sv', send_response bs buffer (app sv').2 t).
Proof.
  induction c as [[r|e|]|k IH|f k IH]; intros sv a results bs sv'; cbn [run_task answer_run resume_handler]; [| |done|..].
  - intros (resp & -> & [= <- <-])%bind_Ret_inv. by eexists 0%nat, _.
  - intros (resp & -> & [= <- <-])%bind_Ret_inv. by eexists 0%nat, _.
  - destruct results as [|x results]; [done|]. intros (j & y & Hy & Hj)%(IH x).
    eexists (S j), _. split; [done|]. cbn [solo fst snd step_session]. by rewrite Hy.
  - apply (IH a).
Qed.

Lemma message_solo (sv : RpcServer (App * list Z)) buffer total t bs sv' :
  handle_message call_handler pad services buffer total sv = Ret (bs, sv') ->
  exists j x, answer_message (served sv) buffer total (app sv).2 t = Ret x /\
    solo j x = Ret (served sv', send_response bs buffer (app sv').2 t).
Proof.
  unfold handle_message, answer_message. intros ([ok msg] & -> & H)%bind_Ret_inv. cbn [mbind outcome_bind].
  destruct (negb ok); [injection H as <- <-; by eexists 0%nat, _|].
  destruct (message_type msg); try (injection H as <- <-; by eexists 0%nat, _).
  - destruct (find_method _ _ _) as [h|]; [by apply (handler_solo _ buffer t) in H|].
    apply bind_Ret_inv in H as (resp & -> & [= <- <-]). by eexists 0%nat, _.
Qed.

Lemma respond_solo (sv : RpcServer (App * list Z)) buffer total t r :
  respond (handle_message call_handler pad services) sv buffer total t = Ret r ->
  exists j x, answer_message (served sv) buffer total (app sv).2 t = Ret x /\ solo j x = Ret (after_iteration r).
Proof.
  unfold respond. intros ([resp sv'] & Hm & Hr)%bind_Ret_inv.
  destruct (message_solo _ _ _ t _ _ Hm) as (j & x & Hx & Hj). unfold send_response in Hj.
  case_bool_decide; cbn [negb] in *; [injection Hr as <-; by exists j, x|].
  destruct (st_write resp t) as [n t'] eqn:Hw. injection Hr as <-. exists (j + 1)%nat, x. split; [done|].
  rewrite solo_add, Hj. cbn [mbind outcome_bind solo fst snd step_session]. rewrite Hw. by destruct (n <=? 0).
Qed.

Lemma serve_once_solo (sv : RpcServer (App * list Z)) buffer t r :
  serve_once (handle_message call_handler pad services) sv buffer t = Ret r ->
  exists j, solo j (served sv, mkSession InHeader buffer (app sv).2 t) = Ret (after_iteration r).
Proof.
  unfold serve_once. destruct (st_read sizeof_ProtocolHeader t) as [[n bs] t1] eqn:E1.
  intros (b1 & Hw & H)%bind_Ret_inv. set (s0 := mkSession InHeader buffer (app sv).2 t).
  assert (Hstep : forall y, step_session (served sv) s0 = Ret y ->
    (exists j, solo j y = Ret (after_iteration r)) -> exists j, solo j (served sv, s0) = Ret (after_iteration r)).
  { intros y Hy [j Hj]. exists (S j). cbn [solo fst snd]. by rewrite Hy. }
  subst s0. unfold step_session in Hstep. rewrite E1, Hw in Hstep. cbn [mbind outcome_bind] in Hstep.
  destruct (n <=? 0); [injection H as <-; eapply Hstep; [done|by exists 0%nat]|].
  apply bind_Ret_inv in H as (hb & Hhb & H). rewrite Hhb in Hstep. cbn [mbind outcome_bind] in Hstep.
  destruct (negb (header_valid (header_of_bytes hb))); [injection H as <-; eapply Hstep; [done|by exists 0%nat]|].
  change (config_ (served sv)) with (config_ sv) in Hstep.
  set (total := u64 _) in *. destruct (max_request_size (config_ sv) <? total);
    [injection H as <-; eapply Hstep; [done|by exists 0%nat]|].
  set (b2 := if zlen b1 <? total then _ else _) in *. destruct (0 <? total - sizeof_ProtocolHeader).
  - eapply Hstep; [done|]. destruct (st_read (total - sizeof_ProtocolHeader) t1) as [[n2 bs2] t2] eqn:E2.
    apply bind_Ret_inv in H as ([[failed b3] t3] & Hb & H). apply bind_Ret_inv in Hb as (b4 & Hw4 & Hb). injection Hb as <- <- <-.
    destruct (n2 <=? 0) eqn:Hn2.
    + injection H as <-. exists 1%nat. cbn [solo fst snd step_session].
      rewrite E2, Hw4. cbn [mbind outcome_bind]. by rewrite Hn2.
    + destruct (respond_solo _ _ _ _ _ H) as (j & x & Hx & Hj). exists (S j).
      cbn [solo fst snd step_session]. rewrite E2, Hw4. cbn [mbind outcome_bind]. rewrite Hn2, Hx. done.
  - cbn [mbind outcome_bind] in H. destruct (respond_solo _ _ _ _ _ H) as (j & x & Hx & Hj).
    eapply Hstep; [exact Hx|]. by exists j.
Qed.

(** When [handle_connection] ends, so does the session, with the same effects. *)
Lemma serve_loop_solo fuel : forall (sv : RpcServer (App * list Z)) buffer t sv' t',
  serve_loop (handle_message call_handler pad services) fuel sv buffer t = Ret (Some (sv', t')) ->
  exists k buffer', solo k (served sv, enter_loop buffer (app sv).2 t)
    = Ret (served sv', mkSession Ended buffer' (app sv').2 t').
Proof.
  induction fuel as [|fuel IH]; intros sv buffer t sv' t'; cbn [serve_loop]; [done|]. unfold enter_loop.
  destruct (st_connected t); [|intros [= <- <-]; by exists 0%nat, buffer].
  intros ([go [[sv1 b1] t1]] & Ho & H)%bind_Ret_inv. destruct (serve_once_solo _ _ _ _ Ho) as [j Hj].
  destruct go; simpl in Hj.
  - destruct (IH _ _ _ _ _ H) as (k & b' & Hk). exists (j + k)%nat, b'. rewrite solo_add, Hj. exact Hk.
  - injection H as <- <-. by exists j, b1.
Qed.

(** ** The shared counters *)

(** A server as a connection alone sees it: nothing counted yet. *)
Definition uncounted srv : RpcServer App := mkServer (config_ srv) 0 0 (app srv).

(** [srv] with the counts of [c] added. *)
Definition add_counts (c srv : RpcServer App) : RpcServer App :=
  mkServer (config_ srv) (u64 (total_requests_ srv + total_requests_ c)) (u64 (total_errors_ srv + total_errors_ c)) (app srv).

Definition counts_ok srv : Prop := is_u 64 (total_requests_ srv) /\ is_u 64 (total_errors_ srv).

(** A handler that leaves the application's state alone. *)
Inductive stateless : handler_task App -> Prop :=
| stateless_done r : stateless (Done r)
| stateless_await k : (forall x, stateless (k x)) -> stateless (Await k).

Definition quiet (s : conn_session) : Prop :=
  match se_phase s with InHandler _ k => forall x, stateless (k x) | _ => True end.

Lemma quiet_enter buffer results t : quiet (enter_loop buffer results t).
Proof. unfold enter_loop. by destruct (st_connected t). Qed.

Lemma quiet_send resp buffer results t : quiet (send_response resp buffer results t).
Proof. unfold send_response. case_bool_decide; [apply quiet_enter|done]. Qed.

(** The counts of a step do not depend on the counters, nor does anything else. *)
Definition counts_apart (f : RpcServer App -> outcome (RpcServer App * conn_session)) : Prop :=
  forall srv, counts_ok srv ->
    f srv = (let* (y : RpcServer App * conn_session) := f (uncounted srv) in Ret (add_counts y.1 srv, y.2)) /\
    match f (uncounted srv) with Ret y => quiet y.2 | _ => True end.

Lemma add_uncounted srv : counts_ok srv -> add_counts (uncounted srv) srv = srv.
Proof.
  intros [Hr He]. unfold add_counts, uncounted. cbn [total_requests_ total_errors_]. rewrite !Z.add_0_r, !wrap_small by done.
  by destruct srv.
Qed.

Lemma counts_apart_ret s : quiet s -> counts_apart (fun srv => Ret (srv, s)).
Proof. intros Hq srv Hs. split; [|done]. cbn [mbind outcome_bind fst snd]. by rewrite add_uncounted. Qed.

Lemma counts_apart_error s : quiet s -> counts_apart (fun srv => Ret (count_error srv, s)).
Proof.
  intros Hq srv [Hr He]. split; [|done]. cbn [mbind outcome_bind fst snd]. unfold add_counts, count_error, uncounted.
  cbn [total_requests_ total_errors_ config_ app].
  by rewrite (Z.add_0_r (total_requests_ srv)), (wrap_small 64 (total_requests_ srv)).
Qed.

Lemma counts_apart_bind {B} (o : outcome B) f :
  (forall b, counts_apart (f b)) -> counts_apart (fun srv => let* b := o in f b srv).
Proof. intros Hf srv Hs. destruct o as [b|w|]; cbn [mbind outcome_bind]; [by apply Hf|done..]. Qed.

(** A request counted first. *)
Lemma counts_apart_request f : counts_apart f -> counts_apart (fun srv => f (count_request srv)).
Proof.
  intros Hf srv [Hr He]. cbn beta.
  assert (Hok : forall srv', counts_ok srv' -> counts_ok (count_request srv')) by
    (intros srv' [? ?]; split; [apply wrap_is_u; lia|done]).
  destruct (Hf (count_request srv)) as [E1 _]; [by apply Hok|].
  destruct (Hf (count_request (uncounted srv))) as [E2 Hq]; [apply Hok; split; unfold is_u in *; simpl; lia|].
  change (uncounted (count_request (uncounted srv))) with (uncounted (count_request srv)) in *. rewrite E1, E2.
  destruct (f (uncounted (count_request srv))) as [[c x]|w|]; cbn [mbind outcome_bind fst snd]; [|by split..]. split; [|done].
  do 2 f_equal. unfold add_counts, count_request, uncounted. cbn [total_requests_ total_errors_ config_ app].
  unfold wrap. rewrite !Zplus_mod_idemp_l, !Zplus_mod_idemp_r. do 2 f_equal; lia.
Qed.

Lemma reply_counts_apart (o : outcome (list Z)) buffer results t :
  counts_apart (fun srv => let* response := o in Ret (srv, send_response response buffer results t)).
Proof.
  apply (counts_apart_bind o (fun bs srv => Ret (srv, send_response bs buffer results t))).
  intros bs. apply counts_apart_ret, quiet_send.
Qed.

Lemma resume_counts_apart id c buffer results t :
  stateless c -> counts_apart (fun srv => resume_handler srv id c buffer results t).
Proof.
  destruct 1 as [[r|e|]|k Hk]; cbn [resume_handler]; [apply reply_counts_apart| |by intros srv|by apply counts_apart_ret].
  apply (counts_apart_bind _ (fun bs srv => Ret (count_error srv, send_response bs buffer results t))).
  intros bs. apply counts_apart_error, quiet_send.
Qed.

Section Stateless.
Context (Hquiet : forall h p, stateless (task h p)).

Lemma answer_counts_apart buffer size results t : counts_apart (fun srv => answer_message srv buffer size results t).
Proof.
  unfold answer_message. apply counts_apart_bind. intros [ok msg].
  destruct (negb ok); [apply counts_apart_error, quiet_send|].
  assert (Hreply : forall m, counts_apart (fun srv =>
    let* response := RpcMessage_serialize pad m in Ret (count_request srv, send_response response buffer results t))).
  { intros m. apply (counts_apart_request _ (reply_counts_apart _ buffer results t)). }
  destruct (message_type msg); try exact (counts_apart_request _ (counts_apart_ret _ (quiet_send _ _ _ _))).
  destruct (find_method _ _ _) as [h|]; [|apply Hreply].
  apply (counts_apart_request (fun srv => resume_handler srv _ _ buffer results t)), resume_counts_apart, Hquiet.
Qed.

Lemma step_counts_apart s : quiet s -> counts_apart (fun srv => step_session srv s).
Proof.
  destruct s as [ph buffer results t]. intros Hq srv Hs. unfold step_session. destruct ph as [|total|id k|resp|].
  - destruct (st_read sizeof_ProtocolHeader t) as [[n bs] t1].
    destruct (write_at buffer 0 bs) as [b1|w|]; cbn [mbind outcome_bind]; [|done..].
    destruct (n <=? 0); [by apply (counts_apart_ret (mkSession Ended b1 results t1))|].
    destruct (read_at b1 0 sizeof_ProtocolHeader) as [hb|w|]; cbn [mbind outcome_bind]; [|done..].
    destruct (negb (header_valid (header_of_bytes hb))); [by apply (counts_apart_error (mkSession Ended b1 results t1))|].
    change (config_ (uncounted srv)) with (config_ srv).
    destruct (max_request_size (config_ srv) <? _); [by apply (counts_apart_error (mkSession Ended b1 results t1))|].
    destruct (0 <? _); [by apply (counts_apart_ret (mkSession (InBody _) _ results t1))|by apply answer_counts_apart].
  - destruct (st_read (total - sizeof_ProtocolHeader) t) as [[n bs] t1].
    destruct (write_at buffer sizeof_ProtocolHeader bs) as [b1|w|]; cbn [mbind outcome_bind]; [|done..].
    destruct (n <=? 0); [by apply (counts_apart_ret (mkSession Ended b1 results t1))|by apply answer_counts_apart].
  - destruct results as [|x results]; [by apply (counts_apart_ret (mkSession (InHandler id k) buffer [] t))|].
    by apply (resume_counts_apart id (k x)).
  - destruct (st_write resp t) as [n t1]. destruct (n <=? 0); [by apply (counts_apart_ret (mkSession Ended buffer results t1))|].
    by apply (counts_apart_ret (enter_loop buffer results t1)); [apply quiet_enter|].
  - by apply (counts_apart_ret (mkSession Ended buffer results t)).
Qed.

Lemma step_server srv s srv' s' :
  counts_ok srv -> quiet s -> step_session srv s = Ret (srv', s') ->
  quiet s' /\ exists c, step_session (uncounted srv) s = Ret (c, s') /\ srv' = add_counts c srv.
Proof.
  intros Hs Hq Hst. destruct (step_counts_apart s Hq srv Hs) as [E Hq']. cbn beta in *. rewrite E in Hst.
  apply bind_Ret_inv in Hst as ([c s1] & Hc & [= <- <-]). rewrite Hc in Hq'. split; [done|]. by exists c.
Qed.

(** What a connection alone leaves in its server: only counts. *)
Definition same_server srv0 srv : Prop := config_ srv = config_ srv0 /\ app srv = app srv0 /\ counts_ok srv.

Lemma add_counts_same srv0 c srv : same_server srv0 srv -> same_server srv0 (add_counts c srv).
Proof. intros (Hc & Ha & _). split_and!; [done|done|]. split; apply wrap_is_u; lia. Qed.

Lemma uncounted_same srv0 : same_server srv0 (uncounted srv0).
Proof. split_and!; [done|done|]. split; unfold is_u; simpl; lia. Qed.

Lemma same_uncounted srv0 srv : same_server srv0 srv -> uncounted srv = uncounted srv0.
Proof. intros (Hc & Ha & _). unfold uncounted. by rewrite Hc, Ha. Qed.

Lemma solo_same srv0 k : forall x y,
  same_server srv0 x.1 -> quiet x.2 -> solo k x = Ret y -> same_server srv0 y.1 /\ quiet y.2.
Proof.
  induction k as [|k IH]; intros [srv s] y Hx Hq; cbn [solo fst snd]; [by intros [= <-]|].
  intros ([srv1 s1] & Hs & Hk)%bind_Ret_inv. simpl in Hx, Hq.
  destruct Hx as (? & ? & Hok). destruct (step_server _ _ _ _ Hok Hq Hs) as (Hq1 & c & _ & ->).
  apply (IH _ _) in Hk; [done|by apply add_counts_same|done].
Qed.

Lemma solo_snoc k x : solo (S k) x = let* y := solo k x in step_session y.1 y.2.
Proof.
  rewrite <- Nat.add_1_r, solo_add. destruct (solo k x) as [y| |]; cbn [mbind outcome_bind solo]; [|done..].
  by destruct (step_session y.1 y.2).
Qed.

(** Sums of counts. *)
Definition sum_counts (f : RpcServer App -> Z) (cs : list (RpcServer App)) : Z := foldr (fun c z => f c + z) 0 cs.

Lemma sum_counts_insert f cs i c c' :
  cs !! i = Some c -> sum_counts f (<[i := c']> cs) = sum_counts f cs - f c + f c'.
Proof.
  revert i. induction cs as [|c0 cs IH]; intros [|i] Hi; simplify_eq/=; [lia|].
  change (sum_counts f (c0 :: <[i := c']> cs)) with (f c0 + sum_counts f (<[i := c']> cs)).
  change (sum_counts f (c0 :: cs)) with (f c0 + sum_counts f cs). rewrite IH by done. lia.
Qed.

Lemma wrap_count a s x d : u64 (u64 (a + s) + d) = u64 (a + (s - x + u64 (x + d))).
Proof.
  unfold wrap. rewrite Zplus_mod_idemp_l. replace (a + (s - x + (x + d) mod 2 ^ 64)) with ((a + s - x) + (x + d) mod 2 ^ 64) by lia.
  rewrite Zplus_mod_idemp_r. f_equal. lia.
Qed.

(** After a schedule every connection is where it would be alone after as many
    completions, and the counters hold the sum of what each counted. *)
Definition conc_inv srv0 (starts : list conn_session) (ks : nat -> nat) (x : RpcServer App * list conn_session) : Prop :=
  same_server srv0 x.1 /\ exists cs,
    length x.2 = length starts /\
    (forall i s0, starts !! i = Some s0 -> exists c s, cs !! i = Some c /\ x.2 !! i = Some s /\
       solo (ks i) (uncounted srv0, s0) = Ret (c, s)) /\
    length cs = length starts /\
    total_requests_ x.1 = u64 (total_requests_ srv0 + sum_counts total_requests_ cs) /\
    total_errors_ x.1 = u64 (total_errors_ srv0 + sum_counts total_errors_ cs).

Definition bump (i : nat) (ks : nat -> nat) : nat -> nat := fun j => if decide (i = j) then S (ks j) else ks j.

Lemma conc_step_inv srv0 starts ks x i :
  (forall i s0, starts !! i = Some s0 -> quiet s0 /\ forall k, exists y, solo k (uncounted srv0, s0) = Ret y) ->
  conc_inv srv0 starts ks x -> exists x', conc_step x i = Ret x' /\ conc_inv srv0 starts (bump i ks) x'.
Proof.
  destruct x as [srv ss]. intros Hgood (Hsame & cs & Hl & Hall & Hlc & Hreq & Herr). cbn [fst snd] in *.
  unfold conc_step. cbn [fst snd]. destruct (ss !! i) as [s|] eqn:Hs.
  - destruct (lookup_lt_is_Some_2 starts i) as [s0 Hs0]; [rewrite <- Hl; by eapply lookup_lt_Some|].
    destruct (Hall i s0 Hs0) as (c & s' & Hc & Hss & Hsolo). rewrite Hs in Hss. injection Hss as <-.
    destruct (Hgood i s0 Hs0) as [Hq0 Hall0]. destruct (Hall0 (S (ks i))) as [[c1 s1] Hnext]. rewrite solo_snoc, Hsolo in Hnext. cbn [mbind outcome_bind fst snd] in Hnext.
    destruct (solo_same srv0 _ (uncounted srv0, s0) _ (uncounted_same srv0) Hq0 Hsolo) as [Hcs Hq]. cbn [fst snd] in Hcs, Hq.
    destruct (step_server c s c1 s1 ltac:(apply Hcs) Hq Hnext) as (_ & d & Hd & ->). rewrite (same_uncounted srv0 c Hcs) in Hd.
    exists (add_counts d srv, <[i := s1]> ss). split.
    + rewrite (proj1 (step_counts_apart s Hq srv ltac:(apply Hsame))). cbn beta. rewrite (same_uncounted srv0 srv Hsame), Hd. done.
    + split; [by apply add_counts_same|]. exists (<[i := add_counts d c]> cs). cbn [fst snd]. split_and!.
      * by rewrite length_insert.
      * intros j sj Hj. unfold bump. destruct (decide (i = j)) as [<-|Hne].
        -- exists (add_counts d c), s1. rewrite !list_lookup_insert_eq by (rewrite ?Hlc, ?Hl; by eapply lookup_lt_Some).
           assert (sj = s0) as -> by congruence. rewrite solo_snoc, Hsolo. by split_and!.
        -- destruct (Hall j sj Hj) as (cj & sj' & ? & ? & ?). exists cj, sj'. by rewrite !list_lookup_insert_ne.
      * by rewrite length_insert.
      * rewrite (sum_counts_insert _ _ _ _ _ Hc). cbn [add_counts total_requests_]. rewrite Hreq. apply wrap_count.
      * rewrite (sum_counts_insert _ _ _ _ _ Hc). cbn [add_counts total_errors_]. rewrite Herr. apply wrap_count.
  - exists (srv, ss). split; [done|]. split; [done|]. exists cs. cbn [fst snd]. split_and!; try done.
    intros j sj Hj. unfold bump. destruct (decide (i = j)) as [<-|_]; [|by apply Hall].
    apply lookup_ge_None in Hs. apply lookup_lt_Some in Hj. lia.
Qed.

(** The completions of connection [i] in a schedule. *)
Definition completions (i : nat) (sched : list nat) : nat := length (filter (eq i) sched).

Lemma conc_schedule_inv srv0 starts sched : forall ks x,
  (forall i s0, starts !! i = Some s0 -> quiet s0 /\ forall k, exists y, solo k (uncounted srv0, s0) = Ret y) ->
  conc_inv srv0 starts ks x ->
  exists x', conc_schedule sched x = Ret x' /\ conc_inv srv0 starts (fun i => (ks i + completions i sched)%nat) x'.
Proof.
  induction sched as [|i sched IH]; intros ks x Hgood Hx.
  - exists x. split; [done|]. destruct Hx as (Hs & cs & Hl & Hall & Hr). split; [done|]. exists cs. split_and!; try apply Hr; [done|].
    intros j sj Hj. unfold completions. rewrite filter_nil, Nat.add_0_r. by apply Hall.
  - destruct (conc_step_inv srv0 starts ks x i Hgood Hx) as (x1 & Hst & H1).
    destruct (IH (bump i ks) x1 Hgood H1) as (x2 & Hsch & H2). exists x2. cbn [conc_schedule]. rewrite Hst. split; [done|].
    destruct H2 as (Hs & cs & Hl & Hall & Hr). split; [done|]. exists cs. split_and!; try apply Hr; [done|].
    intros j sj Hj. destruct (Hall j sj Hj) as (c & s & ? & ? & Hsolo). exists c, s. split_and!; try done.
    rewrite <- Hsolo. f_equal. unfold completions, bump. rewrite filter_cons. destruct (decide (i = j)) as [->|Hne].
    + rewrite decide_True by done. simpl. lia.
    + by rewrite decide_False by congruence.
Qed.

(** A connection that ends alone can be cut off after any completion. *)
Lemma ended_solo K x srv buffer results t k :
  solo K x = Ret (srv, mkSession Ended buffer results t) ->
  (exists y, solo k x = Ret y) /\ ((K <= k)%nat -> solo k x = Ret (srv, mkSession Ended buffer results t)).
Proof.
  intros HK. destruct (decide (K <= k)%nat) as [Hle|Hlt].
  - assert (Hk : solo k x = Ret (srv, mkSession Ended buffer results t)).
    { replace k with (K + (k - K))%nat by lia. rewrite solo_add, HK. cbn [mbind outcome_bind]. apply solo_ended. }
    split; [by eexists|done].
  - split; [|lia]. replace K with (k + (K - k))%nat in HK by lia. rewrite solo_add in HK.
    apply bind_Ret_inv in HK as (y & Hy & _). by exists y.
Qed.

(** Where a connection is, compared with where it ends. *)
Lemma solo_compare K k x srv buffer results t c s :
  solo K x = Ret (srv, mkSession Ended buffer results t) -> solo k x = Ret (c, s) ->
  ((K <= k)%nat -> se_phase s = Ended) /\ (se_phase s = Ended -> se_stream s = t /\ c = srv).
Proof.
  intros HK Hk. destruct (ended_solo K _ _ _ _ _ k HK) as [_ H1]. split.
  - intros Hle. rewrite (H1 Hle) in Hk. by injection Hk as _ <-.
  - destruct s as [ph b rs t']. simpl. intros ->. destruct (ended_solo k _ _ _ _ _ K Hk) as [_ H2].
    destruct (Nat.le_ge_cases K k) as [Hle|Hle].
    + rewrite (H1 Hle) in Hk. by injection Hk as -> _ _ ->.
    + rewrite (H2 Hle) in HK. by injection HK as -> _ _ ->.
Qed.

(** What [handle_connection] computes for each connection alone, on a server that
    has counted nothing, with the results its handlers' awaits receive. *)
Definition alone srv (ps : list (list Z * T)) (ends : list (RpcServer (App * list Z) * T)) : Prop :=
  Forall2 (fun p e =>
    handle_connection call_handler pad services (mkServer (config_ srv) 0 0 (app srv, p.1)) p.2 = Ret (Some e)) ps ends.

Lemma alone_solo srv ps ends :
  alone srv ps ends ->
  exists n, forall i p e, ps !! i = Some p -> ends !! i = Some e ->
    exists K buffer, (K <= n)%nat /\
      solo K (uncounted srv, start_session p) = Ret (served e.1, mkSession Ended buffer (app e.1).2 e.2).
Proof.
  induction 1 as [|[results t] [srv' t'] ps ends Ht _ [n IH]]; [by exists 0%nat|].
  destruct (serve_loop_solo _ _ _ _ _ _ Ht) as (K & buffer & HK). exists (K `max` n)%nat.
  intros [|i] pi ei Hpi Hei.
  { injection Hpi as <-. injection Hei as <-. exists K, buffer. split; [lia|]. exact HK. }
  destruct (IH i pi ei Hpi Hei) as (K' & b & Hle & Hk). exists K', b. split; [lia|done].
Qed.

Lemma conc_inv_start srv ps : counts_ok srv -> conc_inv srv (start_session <$> ps) (fun _ => 0%nat) (srv, start_session <$> ps).
Proof.
  intros Hok. split; [by split_and!|]. exists (replicate (length ps) (uncounted srv)). cbn [fst snd].
  assert (Hz : forall f n, f (uncounted srv) = 0 -> sum_counts f (replicate n (uncounted srv)) = 0).
  { intros f n Hf. induction n as [|n IH]; [done|]. change (f (uncounted srv) + sum_counts f (replicate n (uncounted srv)) = 0). lia. }
  split_and!; [done| |by rewrite length_replicate, length_fmap|..].
  - intros i s0 Hs. exists (uncounted srv), s0. split_and!; [|done|done]. apply lookup_replicate_2.
    apply lookup_lt_Some in Hs. by rewrite length_fmap in Hs.
  - rewrite Hz, Z.add_0_r by done. symmetry. apply wrap_small, Hok.
  - rewrite Hz, Z.add_0_r by done. symmetry. apply wrap_small, Hok.
Qed.

(** C6: concurrent connections do not interfere, if their handlers leave the
    application's state alone and each connection alone is served to its end
    without undefined behaviour or exception.  However the completions of any
    number of such connections interleave on the event loop, those of the
    operations their handlers await included, no step goes wrong; a connection
    whose coroutine has ended leaves its peer exactly the bytes and the state that
    [handle_connection] alone produces; enough completions end it; and when all
    have ended the shared counters hold the sum of what each counted. *)
Theorem connections_do_not_interfere srv ps ends :
  counts_ok srv -> alone srv ps ends ->
  exists n, forall sched, exists srv' ss,
    conc_schedule sched (srv, start_session <$> ps) = Ret (srv', ss) /\ length ss = length ps /\
    (forall i s, ss !! i = Some s -> (n <= completions i sched)%nat -> se_phase s = Ended) /\
    (forall i s e, ss !! i = Some s -> ends !! i = Some e -> se_phase s = Ended -> se_stream s = e.2) /\
    (Forall (fun s => se_phase s = Ended) ss ->
       total_requests_ srv' = u64 (total_requests_ srv + sum_counts total_requests_ (served <$> ends.*1)) /\
       total_errors_ srv' = u64 (total_errors_ srv + sum_counts total_errors_ (served <$> ends.*1))).
Proof.
  intros Hok Hal. destruct (alone_solo srv ps ends Hal) as [n Hn]. exists n. intros sched.
  assert (Hst : forall i s0, (start_session <$> ps) !! i = Some s0 -> exists p e, ps !! i = Some p /\ s0 = start_session p /\ ends !! i = Some e).
  { intros i s0 Hs. rewrite list_lookup_fmap in Hs. destruct (ps !! i) as [p|] eqn:Ht; [|done]. injection Hs as <-.
    destruct (Forall2_lookup_l _ _ _ _ _ Hal Ht) as (e & He & _). by exists p, e. }
  assert (Hgood : forall i s0, (start_session <$> ps) !! i = Some s0 ->
    quiet s0 /\ forall k, exists y, solo k (uncounted srv, s0) = Ret y).
  { intros i s0 (p & e & Ht & -> & He)%Hst. split; [apply quiet_enter|]. intros k. destruct (Hn i p e Ht He) as (K & b & _ & HK). by apply (ended_solo K _ _ _ _ _ k HK). }
  destruct (conc_schedule_inv srv _ sched _ _ Hgood (conc_inv_start srv ps Hok)) as ([srv' ss] & Hrun & _ & cs & Hl & Hall & Hlc & Hreq & Herr).
  cbn [fst snd] in *. rewrite length_fmap in Hl, Hlc.
  assert (Hend : forall i s e, ss !! i = Some s -> ends !! i = Some e -> exists K c,
    (K <= n)%nat /\ cs !! i = Some c /\ ((K <= completions i sched)%nat -> se_phase s = Ended) /\
    (se_phase s = Ended -> se_stream s = e.2 /\ c = served e.1)).
  { intros i s e Hs He. destruct (lookup_lt_is_Some_2 ps i) as [p Ht]; [rewrite <- Hl; by eapply lookup_lt_Some|].
    destruct (Hn i p e Ht He) as (K & b & HKn & HK).
    destruct (Hall i (start_session p)) as (c & s' & Hc & Hs' & Hsolo); [by rewrite list_lookup_fmap, Ht|].
    rewrite Hs in Hs'. injection Hs' as <-. exists K, c. split; [done|]. split; [done|]. by eapply solo_compare. }
  assert (Hle : length ends = length ps) by (symmetry; by eapply Forall2_length).
  assert (Hex : forall i s, ss !! i = Some s -> exists e, ends !! i = Some e).
  { intros i s Hs. apply lookup_lt_is_Some_2. rewrite Hle, <- Hl. by eapply lookup_lt_Some. }
  exists srv', ss. split_and!; [done|done| | |].
  - intros i s Hs Hc. destruct (Hex i s Hs) as [e He]. destruct (Hend i s e Hs He) as (K & c & HK & _ & Hd & _). apply Hd. lia.
  - intros i s e Hs He Hp. destruct (Hend i s e Hs He) as (K & c & _ & _ & _ & Hd). by apply Hd.
  - intros Hf. assert (Hcs : cs = served <$> ends.*1).
    { apply list_eq_same_length with (n := length ps); [by rewrite !length_fmap|done|].
      intros i c c' Hi Hc Hc'. rewrite !list_lookup_fmap in Hc'. destruct (ends !! i) as [e|] eqn:He; [|done]. injection Hc' as <-.
      destruct (lookup_lt_is_Some_2 ss i) as [s Hs]; [lia|]. destruct (Hend i s e Hs He) as (K & c1 & _ & Hc1 & _ & Hd).
      destruct (Hd ltac:(by eapply Forall_lookup_1 in Hf)) as [_ ->]. congruence. }
    by rewrite <- Hcs.
Qed.
End Stateless.
End Sessions.

(** ** Witness *)

(** Handler [true] awaits one operation and answers its result, handler [false]
    throws. *)
Definition demo_task (h : bool) (p : list Z) : handler_task unit :=
  if h then Await (fun x => Done (Ret [x; u8 (x + 1)])) else Done (Throw "failure").

(** A peer that sends a request in one piece and closes, whose handler's await
    receives 4, and one that sends garbage. *)
Definition calling_peer : list Z * conn :=
  ([4], (Connection_create 3, sample_env [Data (frame [0; 0; 0; 0] example_request)] [])).
Definition garbage_peer : list Z * conn := ([], (Connection_create 4, sample_env [Data (replicate 20 7)] [])).

Definition end_of (p : list Z * conn) : RpcServer (unit * list Z) * conn :=
  match handle_connection (call_handler demo_task) [0; 0; 0; 0] demo_services
          (mkServer default_server_config 0 0 (tt, p.1)) p.2 with
  | Ret (Some e) => e
  | _ => (mkServer default_server_config 0 0 (tt, []), p.2)
  end.

Lemma demo_task_stateless h p : stateless (demo_task h p).
Proof. destruct h; repeat constructor. Qed.

Definition demo_counts : list (RpcServer unit) := served <$> [(end_of calling_peer).1; (end_of garbage_peer).1].

Lemma connections_do_not_interfere_witness :
  exists n, forall sched, exists srv' ss,
    conc_schedule demo_task [0; 0; 0; 0] demo_services sched
      (mkServer default_server_config 5 1 tt, start_session <$> [calling_peer; garbage_peer]) = Ret (srv', ss) /\
    length ss = 2%nat /\
    (forall i s, ss !! i = Some s -> (n <= completions i sched)%nat -> se_phase s = Ended) /\
    (forall i s e, ss !! i = Some s -> [end_of calling_peer; end_of garbage_peer] !! i = Some e ->
       se_phase s = Ended -> se_stream s = e.2) /\
    (Forall (fun s => se_phase s = Ended) ss ->
       total_requests_ srv' = u64 (5 + sum_counts total_requests_ demo_counts) /\
       total_errors_ srv' = u64 (1 + sum_counts total_errors_ demo_counts)).
Proof.
  apply (connections_do_not_interfere demo_task [0; 0; 0; 0] demo_services demo_task_stateless (mkServer default_server_config 5 1 tt)
    [calling_peer; garbage_peer] [end_of calling_peer; end_of garbage_peer]).
  - split; unfold is_u; simpl; lia.
  - apply Forall2_cons; split; [vm_compute; reflexivity|]. apply Forall2_cons; split; [vm_compute; reflexivity|constructor].
Defined.

Example end_counts :
  sum_counts total_requests_ demo_counts = 1 /\ sum_counts total_errors_ demo_counts = 1 /\
  sk_out (sock (end_of calling_peer).2.2)
    = frame [0; 0; 0; 0] (create_response (request_id_ example_request) [4; 5] ErrorCode.OK).
Proof. by vm_compute. Qed.
