(* ===== verification/RpcClient.v ===== *)
(** * rpc/rpc_client.hpp: calls over a stream

    [call] follows the coroutine; its transport is any [Stream] and its codecs
    any pair of [Codec]s, so the theorems use only [CodecLaws].  The source
    spells the error results [RpcResult<Response>::error], a member the struct
    does not have; the model uses [make_error], whose parameters it matches. *)

From Stdlib Require Import ZArith Lia.
From S2P Require Import Prelude Serializer Protocol Connection ServiceRegistry RpcServer.

Record RpcResult (R : Type) := mkResult {
  success : bool;
  value : option R;      (* [None] is the value-initialised [T{}] *)
  error_code : Z;
  error_message : list Z;
}.
Arguments mkResult {R}.
Arguments success {R}.
Arguments value {R}.
Arguments error_code {R}.
Arguments error_message {R}.

Definition ok {R} (v : R) : RpcResult R := mkResult true (Some v) ErrorCode.OK [].
Definition make_error {R} (code : Z) (msg : list Z) : RpcResult R := mkResult false None code msg.

Record RpcClient (T : Type) := mkClient {
  client_timeout_ms : Z;     (* config_.timeout_ms, an int *)
  next_id : Z;               (* request_id_ *)
  tcp_client_ : option T;
}.
Arguments mkClient {T}.
Arguments client_timeout_ms {T}.
Arguments next_id {T}.
Arguments tcp_client_ {T}.

Section Client.
Context {T : Type} `{!Stream T}.
Context {Req Res : Type} (creq : Codec Req) (cres : Codec Res).
Context (pad : list Z).
Implicit Types (c : RpcClient T) (t : T).

Definition next_request_id c : Z * RpcClient T :=
  (next_id c, mkClient (client_timeout_ms c) (u64 (next_id c + 1)) (tcp_client_ c)).

Definition set_transport c t : RpcClient T := mkClient (client_timeout_ms c) (next_id c) (Some t).

(** From the parsed response to the result. *)
Definition decode_response (resp : RpcMessage) : outcome (RpcResult Res) :=
  if negb (error_code_ resp =? ErrorCode.OK)
  then Ret (make_error (error_code_ resp) (error_message_ resp))
  else
    let* (d : bool * option Res) := deserialize cres (payload_ resp) in
    Ret match d with
        | (true, Some v) => ok v
        | _ => make_error ErrorCode.SerializationError (bytes_of_string "Failed to deserialize result")
        end.

(** The receiving half of [call]. *)
Definition recv_response t : outcome (RpcResult Res * T) :=
  let response_buffer := resize [] 4096 in
  let '(n, bs, t) := st_read sizeof_ProtocolHeader t in
  let* response_buffer := write_at response_buffer 0 bs in
  if n <=? 0 then
    Ret (make_error ErrorCode.ConnectionError (bytes_of_string "Failed to receive response"), t) else
  let* hb := read_at response_buffer 0 sizeof_ProtocolHeader in
  let header := header_of_bytes hb in
  if negb (header_valid header) then
    Ret (make_error ErrorCode.InvalidRequest (bytes_of_string "Invalid response header"), t) else
  let total_size := u64 (sizeof_ProtocolHeader + meta_len header + payload_len header) in
  let response_buffer :=
    if zlen response_buffer <? total_size then resize response_buffer total_size else response_buffer in
  let remaining := total_size - sizeof_ProtocolHeader in
  let* r :=
    (if 0 <? remaining then
       let '(n, bs, t) := st_read remaining t in
       let* response_buffer := write_at response_buffer sizeof_ProtocolHeader bs in
       Ret (n <=? 0, response_buffer, t)
     else Ret (false, response_buffer, t)) in
  let '(failed, response_buffer, t) := r in
  if (failed : bool) then
    Ret (make_error ErrorCode.ConnectionError (bytes_of_string "Failed to receive response"), t) else
  let* d := RpcMessage_deserialize response_buffer total_size RpcMessage_new in
  let '(parsed, response) := d in
  if negb parsed then
    Ret (make_error ErrorCode.SerializationError (bytes_of_string "Failed to deserialize response"), t)
  else let* r := decode_response response in Ret (r, t).

(** The request [call] and [async_call] send; [now] is the clock of
    [create_request]. *)
Definition request_message (now : Z) (service method : list Z) (request : Req) c : RpcMessage :=
  create_request now (next_id c) service method (serialize creq request) (u32 (client_timeout_ms c)).

Definition call (now : Z) (service method : list Z) (request : Req) c
  : outcome (RpcResult Res * RpcClient T) :=
  let msg := request_message now service method request c in
  let c := (next_request_id c).2 in
  let* buffer := RpcMessage_serialize pad msg in
  match tcp_client_ c with
  | None => Undef
  | Some t =>
      let '(n, t) := st_write buffer t in
      if n <=? 0 then
        Ret (make_error ErrorCode.ConnectionError (bytes_of_string "Failed to send request"), set_transport c t)
      else
        let* r := recv_response t in
        Ret (r.1, set_transport c r.2)
  end.

Definition async_call (now : Z) (service method : list Z) (request : Req) c
  : outcome (bool * RpcClient T) :=
  let msg := request_message now service method request c in
  let c := (next_request_id c).2 in
  let* buffer := RpcMessage_serialize pad msg in
  match tcp_client_ c with
  | None => Undef
  | Some t => let '(n, t) := st_write buffer t in Ret (0 <? n, set_transport c t)
  end.

(** ** Receiving a complete response *)

(** The stream delivers the frame of [resp] in two complete reads. *)
Definition delivers (bs : list Z) t t' : Prop :=
  exists t1, st_read 16 t = (16, take 16 bs, t1) /\
    st_read (zlen bs - 16) t1 = (zlen bs - 16, drop 16 bs, t').

Lemma recv_response_frame resp t t' :
  length pad = 4%nat -> message_ok resp -> is_request (message_type resp) = false ->
  is_response (message_type resp) = true -> delivers (frame pad resp) t t' ->
  recv_response t = let* r := decode_response (received resp) in Ret (r, t').
Proof.
  intros Hp Hm Hq Hr (t1 & E1 & E2). pose proof (length_frame pad resp Hp) as Hl.
  set (h := frame_header resp) in *. pose proof (length_header_bytes h) as Hlh.
  destruct (message_ok_lens resp Hm) as (Eml & Epl & _ & _).
  assert (Hmeta : 16 <= meta_size resp).
  { unfold meta_size. rewrite Hq. unfold sizeof_ResponseMeta. lia. }
  assert (Ht : take 16 (frame pad resp) = header_bytes h) by (by apply take_app_length').
  set (body := drop 16 (frame pad resp)) in *.
  assert (Hf : frame pad resp = header_bytes h ++ body) by (by rewrite <- Ht; symmetry; apply take_drop).
  assert (Htot : wrap 64 (16 + meta_len h + payload_len h) = zlen (frame pad resp)).
  { rewrite Hl. subst h. unfold frame_header, header_with_lens. cbn [meta_len payload_len].
    rewrite Eml, Epl. apply wrap_small. destruct Hm. unfold is_u in *. lia. }
  destruct (fill_two (resize [] 4096) (header_bytes h) body (zlen (frame pad resp)))
    as (buf1 & tail & W1 & R1 & W2); [rewrite length_resize, Hlh; lia|rewrite Hf, length_app; lia|].
  rewrite Hlh in R1, W2. change (Z.of_nat 16) with 16 in R1, W2. rewrite Ht in E1.
  unfold recv_response, sizeof_ProtocolHeader. rewrite E1, W1. cbn [mbind outcome_bind Z.leb Z.compare].
  rewrite R1. cbn [mbind outcome_bind]. rewrite header_roundtrip by (by apply frame_header_ok).
  unfold header_valid. assert (magic h = kMagic) as -> by apply Hm. rewrite Z.eqb_refl, Htot. cbn [negb].
  rewrite (proj2 (Z.ltb_lt 0 _)), E2, W2 by lia. cbn [mbind outcome_bind].
  rewrite (proj2 (Z.leb_gt _ 0)) by lia. rewrite app_assoc, <- Hf.
  rewrite (deserialize_frame pad resp tail) by (done || lia || by right). done.
Qed.

Lemma call_frame now service method request c t1 t2 t3 n resp :
  length pad = 4%nat -> message_ok resp -> is_request (message_type resp) = false ->
  is_response (message_type resp) = true ->
  tcp_client_ c = Some t1 ->
  st_write (frame pad (request_message now service method request c)) t1 = (n, t2) -> 0 < n ->
  delivers (frame pad resp) t2 t3 ->
  call now service method request c
  = let* r := decode_response (received resp) in Ret (r, set_transport (next_request_id c).2 t3).
Proof.
  intros Hp Hm Hq Hr Ht Hw Hn Hd. unfold call. rewrite serialize_frame by done.
  cbn [mbind outcome_bind]. unfold next_request_id. cbn [snd tcp_client_]. rewrite Ht, Hw.
  rewrite (proj2 (Z.leb_gt n 0)) by done. rewrite (recv_response_frame resp t2 t3) by done.
  by destruct (decode_response (received resp)).
Qed.

Lemma decode_response_ok valid `{!CodecLaws cres valid} id v resp :
  valid v -> resp = create_response id (serialize cres v) ErrorCode.OK ->
  decode_response (received resp) = Ret (ok v).
Proof.
  intros Hv ->. unfold decode_response, received. cbn [is_request message_type header_ create_response].
  cbn -[deserialize serialize]. rewrite <- (app_nil_r (serialize cres v)).
  unfold deserialize. by rewrite codec_roundtrip by (done || constructor).
Qed.
End Client.

(** ** Client and server together *)

Section EndToEnd.
Context {App Handler : Type}.
Context (invoke : Handler -> list Z -> App -> handler_run App).
Context (pad : list Z) (Hpad : length pad = 4%nat).
Context (services : gmap (list Z) (ServiceInfo Handler)).
Context {T : Type} `{!Stream T}.
Context {Req Res : Type} (creq : Codec Req) (cres : Codec Res).
Context (vreq : Req -> Prop) (vres : Res -> Prop) `{!CodecLaws creq vreq} `{!CodecLaws cres vres}.
Implicit Types (c : RpcClient T) (srv : RpcServer App).

(** Names and payload that fit the header's 32-bit lengths. *)
Definition request_fits (service method : list Z) (request : Req) c : Prop :=
  bytes_ok service /\ bytes_ok method /\ 32 + zlen service + zlen method < 2 ^ 32 /\
  zlen (serialize creq request) < 2 ^ 32 /\ is_u 64 (next_id c).

Lemma request_message_ok now service method request c :
  vreq request -> request_fits service method request c ->
  message_ok (request_message creq now service method request c).
Proof.
  intros Hv (Hsv & Hmt & Hlen & Hpl & Hid). pose proof (codec_bytes request Hv).
  split; first [done|apply wrap_is_u; lia|by apply Forall_nil|idtac].
  - unfold meta_size, sizeof_RequestMeta, is_u. simpl. lia.
  - unfold is_u. simpl. lia.
Qed.

(** C2: a remote call returns what the handler computed.  For any codecs that
    obey the serializer's laws and any registered handler, the frame the client
    sends makes the server answer, and a client that receives the answer whole
    returns [ok r] for a handler that answered [r], the server's error code and
    text for an unknown method or a handler that threw; the client's id counter
    advances by one. *)
Theorem call_end_to_end now service method request c srv t1 t2 t3 n rest size :
  vreq request -> request_fits service method request c ->
  let m := request_message creq now service method request c in
  zlen (frame pad m) <= size ->
  (forall h p a res b, invoke h p a = Replied res b -> result_ok res) ->
  tcp_client_ c = Some t1 -> st_write (frame pad m) t1 = (n, t2) -> 0 < n ->
  forall resp a e, reply invoke services m (app srv) = Ret (resp, a, e) ->
  exists bs srv' c',
    RpcMessage_serialize pad m = Ret (frame pad m) /\
    handle_message invoke pad services (frame pad m ++ rest) size srv = Ret (bs, srv') /\
    app srv' = a /\ next_id c' = u64 (next_id c + 1) /\
    (delivers bs t2 t3 ->
     call creq cres pad now service method request c
     = let* r := decode_response cres (received resp) in Ret (r, c')) /\
    (forall h r b, find_method service method services = Some h ->
       invoke h (serialize creq request) (app srv) = Replied (serialize cres r) b -> vres r ->
       a = b /\ decode_response cres (received resp) = Ret (ok r)) /\
    (forall h w b, find_method service method services = Some h ->
       invoke h (serialize creq request) (app srv) = Threw w b ->
       a = b /\ decode_response cres (received resp)
                = Ret (make_error ErrorCode.Unknown (bytes_of_string "Internal server error"))) /\
    (find_method service method services = None ->
       decode_response cres (received resp)
       = Ret (make_error ErrorCode.ServiceNotFound (bytes_of_string "Service or method not found"))).
Proof.
  intros Hv Hfit m Hs Hres Ht Hw Hn resp a e Hr.
  pose proof (request_message_ok now service method request c Hv Hfit) as Hm. fold m in Hm.
  destruct (reply_shape _ _ _ _ _ _ _ Hr) as (Hid & Hq & Hrsp & _).
  assert (Hok : message_ok resp) by (eapply reply_ok; eauto).
  exists (frame pad resp), (set_app (if e =? 1 then count_error (count_request srv) else count_request srv) a),
    (set_transport (next_request_id c).2 t3).
  split_and!; try done.
  - by apply serialize_frame.
  - rewrite handle_request by done. by rewrite Hr.
  - intros Hd. by eapply call_frame.
  - intros h r b Hf Hi Hvr. unfold reply in Hr.
    change (service_ m) with service in Hr. change (method_ m) with method in Hr.
    change (payload_ m) with (serialize creq request) in Hr. rewrite Hf, Hi in Hr.
    assert (Hresp : resp = create_response (request_id_ m) (serialize cres r) ErrorCode.OK) by congruence.
    split; [congruence|]. by eapply decode_response_ok.
  - intros h w b Hf Hi. unfold reply in Hr.
    change (service_ m) with service in Hr. change (method_ m) with method in Hr.
    change (payload_ m) with (serialize creq request) in Hr. rewrite Hf, Hi in Hr.
    assert (resp = create_error (request_id_ m) ErrorCode.Unknown (bytes_of_string "Internal server error"))
      as -> by congruence.
    split; [congruence|done].
  - intros Hf. unfold reply in Hr.
    change (service_ m) with service in Hr. change (method_ m) with method in Hr. rewrite Hf in Hr.
    assert (resp = create_error (request_id_ m) ErrorCode.ServiceNotFound
                     (bytes_of_string "Service or method not found")) as -> by congruence. done.
Qed.
End EndToEnd.

(** The client does not check which request a response answers: a response
    that carries any other request id is returned as the result of the call. *)
Theorem call_ignores_request_id {T Req Res : Type} `{!Stream T} (creq : Codec Req) (cres : Codec Res)
    (vres : Res -> Prop) `{!CodecLaws cres vres} pad now service method request (c : RpcClient T)
    t1 t2 t3 n id r :
  length pad = 4%nat -> vres r -> zlen (serialize cres r) < 2 ^ 32 -> is_u 64 id -> id <> next_id c ->
  tcp_client_ c = Some t1 ->
  st_write (frame pad (request_message creq now service method request c)) t1 = (n, t2) -> 0 < n ->
  delivers (frame pad (create_response id (serialize cres r) ErrorCode.OK)) t2 t3 ->
  exists c', call creq cres pad now service method request c = Ret (ok r, c').
Proof.
  intros Hp Hv Hl Hid _ Ht Hw Hn Hd. eexists.
  rewrite (call_frame creq cres pad now service method request c t1 t2 t3 n
             (create_response id (serialize cres r) ErrorCode.OK)); try done.
  - by erewrite (decode_response_ok cres vres).
  - apply response_message_ok;
      [done|split; [by apply (codec_bytes r)|done]|done|constructor|done].
Qed.

(** ** Witnesses *)

Definition zero_pad : list Z := [0; 0; 0; 0].

(** A service with one method that increments an [int32] and counts its calls. *)
Definition inc_invoke (h : unit) (p : list Z) (calls : Z) : handler_run Z :=
  match deserialize int32_codec p with
  | Ret (true, Some v) => Replied (serialize int32_codec (i32 (v + 1))) (calls + 1)
  | Undef => Undefined
  | _ => Threw "bad request" (calls + 1)
  end.

Definition inc_services : gmap (list Z) (ServiceInfo unit) :=
  register_method (bytes_of_string "Counter") (bytes_of_string "inc") (Some tt) [] ∅.

Lemma inc_result_ok h p a res b : inc_invoke h p a = Replied res b -> result_ok res.
Proof.
  unfold inc_invoke. destruct (deserialize int32_codec p) as [[[] [v|]]| |]; try done.
  intros [= <- <-]. split; [|done].
  apply (codec_bytes (c := int32_codec) (i32 (v + 1))), sint_is_s. lia.
Qed.

Definition inc_client (answer : list Z) : RpcClient conn :=
  mkClient 30000 7 (Some (Connection_create 3, sample_env [Data answer] [])).
Definition inc_server : RpcServer Z := mkServer default_server_config 0 0 0.

Definition inc_answer : list Z :=
  frame zero_pad (create_response 7 (serialize int32_codec 42) ErrorCode.OK).

Definition inc_t1 : conn := (Connection_create 3, sample_env [Data inc_answer] []).
Definition inc_call (c : RpcClient conn) :=
  request_message int32_codec 5 (bytes_of_string "Counter") (bytes_of_string "inc") 41 c.
Definition inc_t2 : conn := (st_write (frame zero_pad (inc_call (inc_client inc_answer))) inc_t1).2.
Definition inc_t3 : conn := (st_read (zlen inc_answer - 16) (st_read 16 inc_t2).2).2.

Lemma inc_delivers : delivers inc_answer inc_t2 inc_t3.
Proof. exists (st_read 16 inc_t2).2. split; vm_compute; reflexivity. Qed.

Lemma inc_reply :
  reply inc_invoke inc_services (inc_call (inc_client inc_answer)) 0
  = Ret (create_response 7 (serialize int32_codec 42) ErrorCode.OK, 1, 0).
Proof. vm_compute. reflexivity. Qed.

Lemma call_end_to_end_witness :
  exists c', call int32_codec int32_codec zero_pad 5 (bytes_of_string "Counter") (bytes_of_string "inc") 41
               (inc_client inc_answer) = Ret (ok 42, c').
Proof.
  destruct (call_end_to_end inc_invoke zero_pad eq_refl inc_services int32_codec int32_codec (is_s 32) (is_s 32)
    5 (bytes_of_string "Counter") (bytes_of_string "inc") 41 (inc_client inc_answer) inc_server
    inc_t1 inc_t2 inc_t3 62 [] 100)
    with (resp := create_response 7 (serialize int32_codec 42) ErrorCode.OK) (a := 1) (e := 0)
    as (bs & srv' & c' & _ & Hh & _ & _ & Hcall & Hr & _).
  - compute_done.
  - unfold request_fits. split_and!; try compute_done; apply bytes_of_string_ok.
  - vm_compute. discriminate.
  - apply inc_result_ok.
  - reflexivity.
  - vm_compute. reflexivity.
  - reflexivity.
  - apply inc_reply.
  - exists c'. rewrite Hcall.
    + rewrite (proj2 (Hr tt 42 1 ltac:(vm_compute; reflexivity) ltac:(vm_compute; reflexivity)
        ltac:(compute_done))). reflexivity.
    + assert (bs = inc_answer) as -> by (vm_compute in Hh; injection Hh as <- _; vm_compute; reflexivity).
      apply inc_delivers.
Defined.

Lemma call_ignores_request_id_witness :
  let c := mkClient 30000 8 (Some inc_t1) in
  exists c', call int32_codec int32_codec zero_pad 5 (bytes_of_string "Counter") (bytes_of_string "inc") 41 c
             = Ret (ok 42, c').
Proof.
  intros c. set (t2 := (st_write (frame zero_pad (inc_call c)) inc_t1).2).
  apply (call_ignores_request_id int32_codec int32_codec (is_s 32) zero_pad 5
    (bytes_of_string "Counter") (bytes_of_string "inc") 41 c inc_t1 t2
    (st_read (zlen inc_answer - 16) (st_read 16 t2).2).2 62 7 42);
    [done|compute_done|done|compute_done|done|done|vm_compute; reflexivity|done|].
  exists (st_read 16 t2).2. split; vm_compute; reflexivity.
Defined.
