(* ===== verification/ClientCalls.v ===== *)
(** * rpc/rpc_client.hpp: calls in flight at the same time

    RpcClient.v runs [call] to its end.  Several coroutines may call through one
    client: their sends and receives then interleave on its connection.  A
    [call_phase] is a call between two awaits, [step_call] what it does from the
    completion of its send or receive to the next await. *)

From Stdlib Require Import ZArith Lia.
From S2P Require Import Prelude Serializer Protocol Connection ServiceRegistry RpcServer RpcClient.

Section Calls.
Context {T : Type} `{!Stream T}.
Context {Req Res : Type} (creq : Codec Req) (cres : Codec Res).
Context (pad : list Z).
Implicit Types (t : T).

Inductive call_phase :=
| InSend (buffer : list Z)                            (* sending the request *)
| InRespHeader                                        (* receiving the header *)
| InRespBody (response_buffer : list Z) (total : Z)   (* receiving the rest *)
| Returned (r : RpcResult Res).

(** [call] up to its first await: the id is taken and the request serialised. *)
Definition start_call (now : Z) (service method : list Z) (request : Req) (c : RpcClient T)
  : outcome (call_phase * RpcClient T) :=
  let msg := request_message creq now service method request c in
  let c := (next_request_id c).2 in
  let* buffer := RpcMessage_serialize pad msg in
  match tcp_client_ c with None => Undef | Some _ => Ret (InSend buffer, c) end.

(** The response is complete: from the message to the result. *)
Definition finish_call (response_buffer : list Z) (total_size : Z) : outcome call_phase :=
  let* d := RpcMessage_deserialize response_buffer total_size RpcMessage_new in
  let '(parsed, response) := d in
  if negb parsed then
    Ret (Returned (make_error ErrorCode.SerializationError (bytes_of_string "Failed to deserialize response")))
  else let* r := decode_response cres response in Ret (Returned r).

Definition step_call (p : call_phase) t : outcome (call_phase * T) :=
  match p with
  | InSend buffer =>
      let '(n, t) := st_write buffer t in
      if n <=? 0 then
        Ret (Returned (make_error ErrorCode.ConnectionError (bytes_of_string "Failed to send request")), t)
      else Ret (InRespHeader, t)
  | InRespHeader =>
      let response_buffer := resize [] 4096 in
      let '(n, bs, t) := st_read sizeof_ProtocolHeader t in
      let* response_buffer := write_at response_buffer 0 bs in
      if n <=? 0 then
        Ret (Returned (make_error ErrorCode.ConnectionError (bytes_of_string "Failed to receive response")), t) else
      let* hb := read_at response_buffer 0 sizeof_ProtocolHeader in
      let header := header_of_bytes hb in
      if negb (header_valid header) then
        Ret (Returned (make_error ErrorCode.InvalidRequest (bytes_of_string "Invalid response header")), t) else
      let total_size := u64 (sizeof_ProtocolHeader + meta_len header + payload_len header) in
      let response_buffer :=
        if zlen response_buffer <? total_size then resize response_buffer total_size else response_buffer in
      if 0 <? total_size - sizeof_ProtocolHeader then Ret (InRespBody response_buffer total_size, t)
      else let* p := finish_call response_buffer total_size in Ret (p, t)
  | InRespBody response_buffer total_size =>
      let '(n, bs, t) := st_read (total_size - sizeof_ProtocolHeader) t in
      let* response_buffer := write_at response_buffer sizeof_ProtocolHeader bs in
      if n <=? 0 then
        Ret (Returned (make_error ErrorCode.ConnectionError (bytes_of_string "Failed to receive response")), t)
      else let* p := finish_call response_buffer total_size in Ret (p, t)
  | Returned r => Ret (Returned r, t)
  end.

(** ** Interleavings *)

(** The calls through one client and its connection. *)
Definition calls_step (x : list call_phase * T) (i : nat) : outcome (list call_phase * T) :=
  match x.1 !! i with
  | Some p => let* (y : call_phase * T) := step_call p x.2 in Ret (<[i := y.1]> x.1, y.2)
  | None => Ret x
  end.

Fixpoint calls_run (sched : list nat) (x : list call_phase * T) : outcome (list call_phase * T) :=
  match sched with
  | [] => Ret x
  | i :: sched => let* x := calls_step x i in calls_run sched x
  end.

(** One call alone. *)
Fixpoint call_steps (k : nat) (x : call_phase * T) : outcome (call_phase * T) :=
  match k with
  | O => Ret x
  | S k => let* (y : call_phase * T) := step_call x.1 x.2 in call_steps k y
  end.

Lemma returned_steps k r t : call_steps k (Returned r, t) = Ret (Returned r, t).
Proof. by induction k. Qed.

(** ** A call alone *)

(** The two receives of a call are [recv_response]. *)
Lemma recv_response_steps t r t' :
  recv_response cres t = Ret (r, t') -> call_steps 2 (InRespHeader, t) = Ret (Returned r, t').
Proof.
  unfold recv_response. cbn [call_steps fst snd]. set (buf0 := resize [] 4096).
  destruct (st_read sizeof_ProtocolHeader t) as [[n bs] t1] eqn:E1. intros (b1 & Hw & H)%bind_Ret_inv.
  cbn [step_call]. rewrite E1. fold buf0. rewrite Hw. cbn [mbind outcome_bind].
  destruct (n <=? 0); [by injection H as <- <-|].
  apply bind_Ret_inv in H as (hb & Hhb & H). rewrite Hhb. cbn [mbind outcome_bind].
  destruct (negb (header_valid (header_of_bytes hb))); [by injection H as <- <-|].
  set (total := u64 _) in *. set (b2 := if zlen b1 <? total then _ else _) in *.
  assert (Hfin : forall b t2, (let* d := RpcMessage_deserialize b total RpcMessage_new in
      let '(parsed, response) := d in
      if negb parsed then
        Ret (make_error ErrorCode.SerializationError (bytes_of_string "Failed to deserialize response"), t2)
      else let* r := decode_response cres response in Ret (r, t2)) = Ret (r, t') -> finish_call b total = Ret (Returned r) /\ t2 = t').
  { intros b t2 ([parsed resp] & Hd & Hr)%bind_Ret_inv. unfold finish_call. rewrite Hd. cbn [mbind outcome_bind].
    destruct (negb parsed); [by injection Hr as <- <-|]. by destruct (decode_response cres resp); [injection Hr as <- <-|..]. }
  destruct (0 <? total - sizeof_ProtocolHeader); cbn [mbind outcome_bind fst snd step_call].
  - destruct (st_read (total - sizeof_ProtocolHeader) t1) as [[n2 bs2] t2] eqn:E2.
    apply bind_Ret_inv in H as ([[failed b3] t3] & Hb & H). apply bind_Ret_inv in Hb as (b4 & Hw4 & Hb). injection Hb as <- <- <-.
    rewrite Hw4. cbn [mbind outcome_bind]. destruct (n2 <=? 0); [by injection H as <- <-|].
    destruct (Hfin _ _ H) as [-> ->]. done.
  - cbn [mbind outcome_bind] in H. destruct (Hfin _ _ H) as [-> ->]. done.
Qed.

(** A call that nothing interrupts is [RpcClient::call]. *)
Theorem call_in_steps now service method request c r c' t :
  call creq cres pad now service method request c = Ret (r, c') -> tcp_client_ c = Some t ->
  exists p, start_call now service method request c = Ret (p, (next_request_id c).2) /\
    exists t', call_steps 3 (p, t) = Ret (Returned r, t') /\ tcp_client_ c' = Some t'.
Proof.
  unfold call, start_call. intros (buffer & Hser & H)%bind_Ret_inv Ht. rewrite Hser. cbn [mbind outcome_bind].
  change (tcp_client_ (next_request_id c).2) with (tcp_client_ c) in *. rewrite Ht in H |- *.
  exists (InSend buffer). split; [done|]. change 3%nat with (S 2). cbn [call_steps fst snd step_call].
  destruct (st_write buffer t) as [n t1]. destruct (n <=? 0); cbn [mbind outcome_bind].
  - injection H as <- <-. by exists t1.
  - apply bind_Ret_inv in H as ([res t2] & Hrecv & [= <- <-]). exists t2. split; [|done].
    exact (recv_response_steps _ _ _ Hrecv).
Qed.

(** ** Calls at the same time *)

(** The connection delivers the frames of the responses one after the other; each
    payload decodes without undefined behaviour or exception. *)
Inductive delivers_all : list (RpcMessage * RpcResult Res) -> T -> T -> Prop :=
| delivers_nil t : delivers_all [] t t
| delivers_cons resp r resps t t1 t' :
    decode_response cres (received resp) = Ret r -> message_ok resp -> is_request (message_type resp) = false -> is_response (message_type resp) = true ->
    delivers (frame pad resp) t t1 -> delivers_all resps t1 t' ->
    delivers_all ((resp, r) :: resps) t t'.

Lemma calls_step_at i ps t p p' t' :
  ps !! i = Some p -> step_call p t = Ret (p', t') -> calls_step (ps, t) i = Ret (<[i := p']> ps, t').
Proof. intros Hi Hs. unfold calls_step. cbn [fst snd]. by rewrite Hi, Hs. Qed.

Lemma calls_run_twice i rest ps t p r t' :
  ps !! i = Some p -> call_steps 2 (p, t) = Ret (Returned r, t') ->
  calls_run (i :: i :: rest) (ps, t) = calls_run rest (<[i := Returned r]> ps, t').
Proof.
  intros Hi Hs. cbn [call_steps fst snd] in Hs. apply bind_Ret_inv in Hs as ([p1 t1] & H1 & H2).
  apply bind_Ret_inv in H2 as ([p2 t2] & H2 & [= -> ->]). cbn [fst snd] in H2. cbn [calls_run].
  rewrite (calls_step_at i ps t p p1 t1 Hi H1). cbn [mbind outcome_bind].
  rewrite (calls_step_at i (<[i := p1]> ps) t1 p1 (Returned r) t'); [|apply list_lookup_insert_eq; by eapply lookup_lt_Some|done].
  cbn [mbind outcome_bind]. by rewrite list_insert_insert_eq.
Qed.

(** C5: responses go to calls in the order in which the calls read, whatever
    request they answer.  When several calls have sent their requests, the
    responses arrive one after the other, and each call reads its header and its
    body with no read of another call in between, the k-th call that gets to read
    is given the k-th response: with two calls whose reads run in the other order
    each returns the other's result. *)
Theorem responses_by_read_order order : forall resps ps t t',
  length pad = 4%nat -> delivers_all resps t t' -> length order = length resps -> NoDup order ->
  Forall (fun i => ps !! i = Some InRespHeader) order ->
  exists ps', calls_run (concat ((fun i => [i; i]) <$> order)) (ps, t) = Ret (ps', t') /\
    (forall k i resp r, order !! k = Some i -> resps !! k = Some (resp, r) ->
       decode_response cres (received resp) = Ret r /\ ps' !! i = Some (Returned r)) /\
    (forall j, j ∉ order -> ps' !! j = ps !! j).
Proof.
  induction order as [|i order IH]; intros resps ps t t' Hp Hd Hl Hnd Hf.
  - destruct resps; [|done]. inversion Hd; subst. exists ps. done.
  - destruct resps as [|[resp r] resps]; [done|]. inversion Hd as [|? ? ? ? t1 ? Hdec Hm Hq Hr Hdel Hrest]; subst.
    apply NoDup_cons in Hnd as [Hni Hnd]. apply Forall_cons in Hf as [Hi Hf].
    assert (Hrecv : recv_response cres t = Ret (r, t1)) by (rewrite (recv_response_frame cres pad resp t t1) by done; by rewrite Hdec).
    pose proof (recv_response_steps _ _ _ Hrecv) as Hst.
    change (concat ((fun i => [i; i]) <$> i :: order)) with (i :: i :: concat ((fun i => [i; i]) <$> order)).
    rewrite (calls_run_twice _ _ _ _ _ _ _ Hi Hst).
    destruct (IH resps (<[i := Returned r]> ps) t1 t') as (ps' & Hrun & Hres & Hoth);
      [done|done|by injection Hl|done| |].
    { rewrite Forall_forall in Hf |- *. intros j Hj. rewrite list_lookup_insert_ne by (by intros ->). by apply Hf. }
    exists ps'. split; [exact Hrun|]. split.
    + intros [|k] i' resp' r' Hk Hresp; [|by eapply Hres]. injection Hk as <-. injection Hresp as <- <-. split; [done|].
      rewrite Hoth by done. apply list_lookup_insert_eq. by eapply lookup_lt_Some.
    + intros j Hj. apply not_elem_of_cons in Hj as [Hne Hj]. rewrite Hoth by done. by rewrite list_lookup_insert_ne.
Qed.
End Calls.

(** ** Witnesses *)

(** Two calls have sent requests 7 and 8; the answers 42 to 7 and 99 to 8 arrive
    in this order, and the second call reads first. *)
Definition answer_to (id v : Z) : RpcMessage := create_response id (serialize int32_codec v) ErrorCode.OK.

Definition two_answers : conn :=
  (Connection_create 3, sample_env [Data (frame zero_pad (answer_to 7 42)); Data (frame zero_pad (answer_to 8 99))] []).

Lemma answer_to_ok id v : is_u 64 id -> is_s 32 v -> message_ok (answer_to id v).
Proof.
  intros Hid Hv. unfold answer_to. apply response_message_ok; [done| |done|constructor|done].
  split; [by apply (codec_bytes v)|done].
Qed.

Lemma responses_by_read_order_witness :
  exists ps' t', calls_run int32_codec [1; 1; 0; 0]%nat ([InRespHeader; InRespHeader], two_answers) = Ret (ps', t') /\
    ps' = [Returned (ok 99); Returned (ok 42)].
Proof.
  set (t1 := (st_read (zlen (frame zero_pad (answer_to 7 42)) - 16) (st_read 16 two_answers).2).2).
  set (t2 := (st_read (zlen (frame zero_pad (answer_to 8 99)) - 16) (st_read 16 t1).2).2).
  destruct (responses_by_read_order int32_codec zero_pad [1; 0]%nat [(answer_to 7 42, ok 42); (answer_to 8 99, ok 99)]
    [InRespHeader; InRespHeader] two_answers t2) as (ps' & Hrun & Hres & _).
  - reflexivity.
  - econstructor; [by vm_compute|by apply answer_to_ok; compute_done|done|done| |].
    { exists (st_read 16 two_answers).2. split; vm_compute; reflexivity. }
    econstructor; [by vm_compute|by apply answer_to_ok; compute_done|done|done| |constructor].
    exists (st_read 16 t1).2. split; vm_compute; reflexivity.
  - reflexivity.
  - compute_done.
  - by repeat constructor.
  - exists ps', t2. split; [exact Hrun|].
    pose proof (Hres 0%nat 1%nat _ _ eq_refl eq_refl) as [_ H1]. pose proof (Hres 1%nat 0%nat _ _ eq_refl eq_refl) as [_ H0].
    vm_compute in Hrun. injection Hrun as <-. reflexivity.
Defined.

(** When the reads of the two calls alternate, the first call returns 0 as a
    successful result and the second one an invalid-header error. *)
Example alternating_reads_wrong_result :
  match calls_run int32_codec [0; 1; 0; 1]%nat ([InRespHeader; InRespHeader], two_answers) with
  | Ret ([Returned r0; Returned r1], _) => r0 = ok 0 /\ error_code r1 = ErrorCode.InvalidRequest
  | _ => False
  end.
Proof. vm_compute. done. Qed.
