(* ===== verification/RpcSystem.v ===== *)
(** * rpc/: clients and server as one system

    Clients that call one after the other, each over a connection of its own,
    and the server's coroutine for each connection, on one event loop.  The
    coroutines are [step_call] of ClientCalls.v and [step_session] of
    RpcConcurrent.v; a connection is a [pipe] that delivers whole what a send
    accepts.  A coroutine whose read finds nothing stays suspended. *)

From Stdlib Require Import ZArith Lia.
From S2P Require Import Prelude Serializer Protocol Connection ServiceRegistry RpcServer RpcConcurrent RpcClient ClientCalls.

(** One end of a connection: the bytes that have arrived and those sent. *)
Record pipe := mkPipe { p_in : list Z; p_out : list Z }.

#[export] Instance pipe_stream : Stream pipe := {
  st_connected _ := true;
  st_read n p := (Z.min n (zlen (p_in p)), take (Z.to_nat n) (p_in p), mkPipe (drop (Z.to_nat n) (p_in p)) (p_out p));
  st_write bs p := (zlen bs, mkPipe (p_in p) (p_out p ++ bs));
  st_left p := length (p_in p);
}.

#[export] Instance pipe_laws : StreamLaws pipe.
Proof.
  split.
  - intros n p r bs p' Hn [= <- <- <-]. rewrite length_take.
    destruct (decide (n = 0)) as [->|Hne]; [left; split; [lia|done]|].
    destruct (p_in p) as [|b l]; [left; rewrite take_nil; split; [simpl; lia|done]|].
    right. simpl length. lia.
  - intros n p r bs p' Hn [= <- <- <-]. simpl. rewrite length_take, length_drop. lia.
  - by intros bs p r p' [= <- <-].
Qed.

(** The other end. *)
Definition swap (p : pipe) : pipe := mkPipe (p_out p) (p_in p).

Section System.
Context {App Handler Req Res : Type}.
Context (task : Handler -> list Z -> handler_task App).
Context (pad : list Z).
Context (services : gmap (list Z) (ServiceInfo Handler)).
Context (creq : Codec Req) (cres : Codec Res).

(** A call a client makes, at time [c_now]. *)
Record remote_call := mkCall { c_now : Z; c_service : list Z; c_method : list Z; c_request : Req }.

(** A client's coroutine: the call it is in, those it has still to make, the
    results of those it has made. *)
Record caller := mkCaller {
  cl_client : RpcClient unit;
  cl_phase : option (call_phase (Res := Res));
  cl_todo : list remote_call;
  cl_results : list (RpcResult Res);
}.

Definition client_blocked (ph : call_phase (Res := Res)) (p : pipe) : bool :=
  match ph with InRespHeader | InRespBody _ _ => bool_decide (p_in p = []) | _ => false end.

Definition client_step (x : caller) (p : pipe) : outcome (caller * pipe) :=
  let '(mkCaller c ph todo results) := x in
  match ph with
  | None =>
      match todo with
      | [] => Ret (x, p)
      | q :: todo =>
          let* (y : call_phase * RpcClient unit) :=
            start_call creq pad (c_now q) (c_service q) (c_method q) (c_request q) c in
          Ret (mkCaller y.2 (Some y.1) todo results, p)
      end
  | Some ph =>
      if client_blocked ph p then Ret (x, p) else
      let* (y : call_phase * pipe) := step_call cres ph p in
      Ret (match y.1 with
           | Returned r => mkCaller c None todo (results ++ [r])
           | ph => mkCaller c (Some ph) todo results
           end, y.2)
  end.

Definition server_blocked (s : conn_session (App := App) (T := pipe)) : bool :=
  match se_phase s with InHeader | InBody _ => bool_decide (p_in (se_stream s) = []) | _ => false end.

Definition server_step (srv : RpcServer App) (s : conn_session) : outcome (RpcServer App * conn_session) :=
  if server_blocked s then Ret (srv, s) else step_session task pad services srv s.

(** The connections' streams are kept at the server's end. *)
Record sys := mkSys { y_srv : RpcServer App; y_conns : list (caller * conn_session (App := App) (T := pipe)) }.

Inductive actor := Client (i : nat) | Server (i : nat).

#[export] Instance actor_eq_dec : EqDecision actor.
Proof. solve_decision. Defined.

Definition set_stream (p : pipe) (s : conn_session (App := App) (T := pipe)) : conn_session :=
  mkSession (se_phase s) (se_buffer s) (se_results s) p.

Definition sys_step (x : sys) (who : actor) : outcome sys :=
  match who with
  | Client i =>
      match y_conns x !! i with
      | Some (cl, s) =>
          let* (y : caller * pipe) := client_step cl (swap (se_stream s)) in
          Ret (mkSys (y_srv x) (<[i := (y.1, set_stream (swap y.2) s)]> (y_conns x)))
      | None => Ret x
      end
  | Server i =>
      match y_conns x !! i with
      | Some (cl, s) =>
          let* (y : RpcServer App * conn_session) := server_step (y_srv x) s in
          Ret (mkSys y.1 (<[i := (cl, y.2)]> (y_conns x)))
      | None => Ret x
      end
  end.

Fixpoint sys_run (sched : list actor) (x : sys) : outcome sys :=
  match sched with
  | [] => Ret x
  | who :: sched => let* x := sys_step x who in sys_run sched x
  end.

(** Every client with the calls it is to make; the server has accepted its
    connection. *)
Definition sys_start (srv : RpcServer App) (progs : list (RpcClient unit * list remote_call)) : sys :=
  mkSys srv ((fun p => (mkCaller p.1 None p.2 [], start_session ([], mkPipe [] []))) <$> progs).

(** ** What a call is to do *)

(** The handler called in the server's own process; its result goes through the
    client's decoder, which is defined on it by [Hhandlers] below. *)
Definition local_call (q : remote_call) (a : App) : RpcResult Res * App :=
  match find_method (c_service q) (c_method q) services with
  | None => (make_error ErrorCode.ServiceNotFound (bytes_of_string "Service or method not found"), a)
  | Some h =>
      match run_task (task h (serialize creq (c_request q))) a [] with
      | Replied bs x =>
          (match deserialize cres bs with
           | Ret (true, Some v) => ok v
           | _ => make_error ErrorCode.SerializationError (bytes_of_string "Failed to deserialize result")
           end, x.1)
      | Threw _ x => (make_error ErrorCode.Unknown (bytes_of_string "Internal server error"), x.1)
      | Undefined => (make_error ErrorCode.Unknown [], a)
      end
  end.

(** Calls of the clients made one after the other. *)
Fixpoint replay (a : App) (log : list (nat * remote_call)) : list (nat * RpcResult Res) * App :=
  match log with
  | [] => ([], a)
  | (i, q) :: log =>
      let '(r, a) := local_call q a in
      let '(rs, a) := replay a log in
      ((i, r) :: rs, a)
  end.

(** The entries of client [i]. *)
Definition of_client {A} (i : nat) (l : list (nat * A)) : list A := (filter (fun x => x.1 = i) l).*2.

(** The state [x] is explained by the sequence [log] of calls: the application
    is as they leave it, each client's calls are in it in the order it makes
    them, those that returned and at most the one it is in, and each returned
    what the sequence gives. *)
Definition explained (a0 : App) (progs : list (RpcClient unit * list remote_call)) (x : sys) (log : list (nat * remote_call)) : Prop :=
  app (y_srv x) = (replay a0 log).2 /\ length (y_conns x) = length progs /\
  forall i p cl s, progs !! i = Some p -> y_conns x !! i = Some (cl, s) ->
    exists sent answered,
      of_client i log ++ sent ++ cl_todo cl = p.2 /\
      of_client i (replay a0 log).1 = cl_results cl ++ answered /\
      (length sent + length answered <= 1)%nat /\ (cl_phase cl = None -> sent = [] /\ answered = []).

(** ** Frames on a pipe *)

Context (Hpad : length pad = 4%nat).

Lemma frame_shape m :
  message_ok m ->
  take 16 (frame pad m) = header_bytes (frame_header m) /\
  header_of_bytes (header_bytes (frame_header m)) = frame_header m /\
  header_valid (frame_header m) = true /\
  u64 (16 + meta_len (frame_header m) + payload_len (frame_header m)) = zlen (frame pad m) /\
  32 <= zlen (frame pad m).
Proof.
  intros Hm. pose proof (length_frame pad m Hpad) as Hl. destruct (message_ok_lens m Hm) as (Eml & Epl & _ & _).
  assert (Hmeta : 16 <= meta_size m).
  { unfold meta_size, sizeof_RequestMeta, sizeof_ResponseMeta. destruct (is_request _); lia. }
  split_and!.
  - apply take_app_length'. by rewrite length_header_bytes.
  - by apply header_roundtrip, frame_header_ok.
  - unfold header_valid. assert (magic (frame_header m) = kMagic) as -> by apply Hm. by rewrite Z.eqb_refl.
  - rewrite Hl. unfold frame_header, header_with_lens. cbn [meta_len payload_len]. rewrite Eml, Epl. apply wrap_small.
    destruct Hm. unfold is_u in *. lia.
  - lia.
Qed.

Lemma frame_read_header m out :
  message_ok m ->
  st_read 16 (mkPipe (frame pad m) out) = (16, header_bytes (frame_header m), mkPipe (drop 16 (frame pad m)) out).
Proof.
  intros Hm. destruct (frame_shape m Hm) as (Ht & _ & _ & _ & Hl). cbn [st_read pipe_stream p_in p_out].
  rewrite Z.min_l by lia. by rewrite <- Ht.
Qed.

Lemma frame_read_body m out :
  message_ok m ->
  st_read (zlen (frame pad m) - 16) (mkPipe (drop 16 (frame pad m)) out)
  = (zlen (frame pad m) - 16, drop 16 (frame pad m), mkPipe [] out).
Proof.
  intros Hm. destruct (frame_shape m Hm) as (_ & _ & _ & _ & Hl). cbn [st_read pipe_stream p_in p_out].
  assert (Hd : length (drop 16 (frame pad m)) = Z.to_nat (zlen (frame pad m) - 16)) by (rewrite length_drop; lia).
  rewrite take_ge, (drop_ge (drop 16 _)), Hd, Z2Nat.id, Z.min_id by lia. done.
Qed.

(** The frame in a buffer read header first. *)
Lemma frame_fill m buffer :
  message_ok m -> 16 <= zlen buffer ->
  exists buf1 tail, write_at buffer 0 (header_bytes (frame_header m)) = Ret buf1 /\
    read_at buf1 0 16 = Ret (header_bytes (frame_header m)) /\
    write_at (if zlen buf1 <? zlen (frame pad m) then resize buf1 (zlen (frame pad m)) else buf1) 16 (drop 16 (frame pad m))
    = Ret (frame pad m ++ tail).
Proof.
  intros Hm Hb. destruct (frame_shape m Hm) as (Ht & _ & _ & _ & Hl).
  pose proof (length_header_bytes (frame_header m)) as Hh.
  destruct (fill_two buffer (header_bytes (frame_header m)) (drop 16 (frame pad m)) (zlen (frame pad m)))
    as (buf1 & tail & W1 & R1 & W2); [lia|rewrite Hh, length_drop; lia|].
  rewrite Hh in R1, W2. change (Z.of_nat 16) with 16 in R1, W2. exists buf1, tail. split_and!; [done|done|].
  rewrite W2, app_assoc. by rewrite <- Ht, take_drop.
Qed.

Lemma drop_frame_ne m : message_ok m -> drop 16 (frame pad m) <> [].
Proof.
  intros Hm E. destruct (frame_shape m Hm) as (_ & _ & _ & _ & Hl).
  assert (Hd : length (drop 16 (frame pad m)) = 0%nat) by (by rewrite E). rewrite length_drop in Hd. lia.
Qed.

Lemma frame_ne m : message_ok m -> frame pad m <> [].
Proof. intros Hm E. apply (drop_frame_ne m Hm). by rewrite E. Qed.

(** ** The server's side of a call *)

(** A handler that does not suspend. *)
Inductive atomic : handler_task App -> Prop :=
| atomic_done r : atomic (Done r)
| atomic_update f k : (forall a, atomic (k a)) -> atomic (Update f k).

Definition forget (r : handler_run (App * list Z)) : handler_run App :=
  match r with Replied bs x => Replied bs x.1 | Threw w x => Threw w x.1 | Undefined => Undefined end.

Definition invoke_task (h : Handler) (payload : list Z) (a : App) : handler_run App :=
  forget (run_task (task h payload) a []).

Lemma resume_atomic id buffer results (t : pipe) c : atomic c -> forall srv,
  resume_handler pad srv id c buffer results t =
  let* (m : list Z * RpcServer App) := answer_run pad id (forget (run_task c (app srv) [])) srv in
  Ret (m.2, send_response m.1 buffer results t).
Proof.
  induction 1 as [[r|e|]|f k _ IH]; intros [cfg rq er a]; cbn [resume_handler run_task forget answer_run]; [| |done|].
  1, 2: by match goal with |- context [RpcMessage_serialize pad ?m] => destruct (RpcMessage_serialize pad m) end.
  rewrite IH. cbn [set_app app]. by destruct (forget _).
Qed.

Lemma answer_message_atomic srv buffer total results (t : pipe) :
  (forall h p, atomic (task h p)) ->
  answer_message task pad services srv buffer total results t =
  let* (m : list Z * RpcServer App) := handle_message invoke_task pad services buffer total srv in
  Ret (m.2, send_response m.1 buffer results t).
Proof.
  intros Hat. unfold answer_message, handle_message.
  destruct (RpcMessage_deserialize buffer total RpcMessage_new) as [[ok msg]|w|]; [|done..]. cbn [mbind outcome_bind].
  destruct (negb ok); [done|]. destruct (message_type msg); try done.
  destruct (find_method _ _ _) as [h|]; [by rewrite resume_atomic|].
  by match goal with |- context [RpcMessage_serialize pad ?m] => destruct (RpcMessage_serialize pad m) end.
Qed.
Lemma server_header srv m buffer out :
  message_ok m -> zlen (frame pad m) <= max_request_size (config_ srv) -> 16 <= zlen buffer ->
  exists buffer' tail,
    server_step srv (mkSession InHeader buffer [] (mkPipe (frame pad m) out))
    = Ret (srv, mkSession (InBody (zlen (frame pad m))) buffer' [] (mkPipe (drop 16 (frame pad m)) out)) /\
    write_at buffer' 16 (drop 16 (frame pad m)) = Ret (frame pad m ++ tail).
Proof.
  intros Hm Hmax Hb. destruct (frame_shape m Hm) as (_ & Hrt & Hv & Htot & Hl).
  destruct (frame_fill m buffer Hm Hb) as (buf1 & tail & W1 & R1 & W2). eexists _, tail. split; [|exact W2].
  unfold server_step, server_blocked. cbn [se_phase se_stream p_in]. rewrite bool_decide_eq_false_2 by (by apply frame_ne).
  unfold step_session, sizeof_ProtocolHeader. rewrite (frame_read_header m out Hm), W1. cbn [mbind outcome_bind].
  rewrite (proj2 (Z.leb_gt 16 0)) by lia. rewrite R1. cbn [mbind outcome_bind]. rewrite Hrt, Hv, Htot. cbn [negb].
  rewrite (proj2 (Z.ltb_ge _ _)) by done. by rewrite (proj2 (Z.ltb_lt 0 _)) by lia.
Qed.

Lemma server_body srv m buffer tail out resp a e :
  (forall h p, atomic (task h p)) -> message_ok m -> is_request (message_type m) = true -> message_ok resp ->
  write_at buffer 16 (drop 16 (frame pad m)) = Ret (frame pad m ++ tail) ->
  reply invoke_task services m (app srv) = Ret (resp, a, e) ->
  exists srv',
    server_step srv (mkSession (InBody (zlen (frame pad m))) buffer [] (mkPipe (drop 16 (frame pad m)) out))
    = Ret (srv', mkSession (InWrite (frame pad resp)) (frame pad m ++ tail) [] (mkPipe [] out)) /\
    app srv' = a /\ config_ srv' = config_ srv.
Proof.
  intros Hat Hm Hq Hresp W Hr. destruct (frame_shape m Hm) as (_ & _ & _ & _ & Hl).
  unfold server_step, server_blocked. cbn [se_phase se_stream p_in]. rewrite bool_decide_eq_false_2 by (by apply drop_frame_ne).
  unfold step_session, sizeof_ProtocolHeader. rewrite (frame_read_body m out Hm), W. cbn [mbind outcome_bind].
  rewrite (proj2 (Z.leb_gt _ 0)), answer_message_atomic, handle_request, Hr by (done || lia). cbn [mbind outcome_bind fst snd].
  unfold send_response. rewrite bool_decide_eq_false_2 by (by apply frame_ne). cbn [negb].
  eexists. split; [done|]. by destruct (e =? 1).
Qed.

Lemma server_write srv bs buffer p :
  bs <> [] ->
  server_step srv (mkSession (InWrite bs) buffer [] p) = Ret (srv, mkSession InHeader buffer [] (mkPipe (p_in p) (p_out p ++ bs))).
Proof.
  intros Hb. unfold server_step, step_session. cbn [server_blocked se_phase st_write pipe_stream].
  destruct bs; [done|]. by rewrite (proj2 (Z.leb_gt _ 0)) by (simpl; lia).
Qed.

(** ** The client's side *)

Definition request_of (q : remote_call) (c : RpcClient unit) : RpcMessage :=
  request_message creq (c_now q) (c_service q) (c_method q) (c_request q) c.

Lemma client_start c q todo results p :
  tcp_client_ c = Some tt ->
  client_step (mkCaller c None (q :: todo) results) p
  = Ret (mkCaller (next_request_id c).2 (Some (InSend (frame pad (request_of q c)))) todo results, p).
Proof.
  intros Ht. cbn [client_step]. unfold start_call. rewrite serialize_frame by done. cbn [mbind outcome_bind].
  change (tcp_client_ (next_request_id c).2) with (tcp_client_ c). by rewrite Ht.
Qed.

Lemma client_send c bs todo results p :
  bs <> [] ->
  client_step (mkCaller c (Some (InSend bs)) todo results) p
  = Ret (mkCaller c (Some InRespHeader) todo results, mkPipe (p_in p) (p_out p ++ bs)).
Proof.
  intros Hb. cbn [client_step client_blocked step_call st_write pipe_stream].
  destruct bs; [done|]. by rewrite (proj2 (Z.leb_gt _ 0)) by (simpl; lia).
Qed.

(** The call is reading the body of the response that gives [r]. *)
Definition reading (ph : call_phase (Res := Res)) (r : RpcResult Res) (p : pipe) : Prop :=
  (exists b n, ph = InRespBody b n) /\ p_in p <> [] /\ step_call cres ph p = Ret (Returned r, mkPipe [] (p_out p)).

Lemma client_header c resp r todo results out :
  decode_response cres (received resp) = Ret r -> message_ok resp -> is_request (message_type resp) = false -> is_response (message_type resp) = true ->
  exists ph,
    client_step (mkCaller c (Some InRespHeader) todo results) (mkPipe (frame pad resp) out)
    = Ret (mkCaller c (Some ph) todo results, mkPipe (drop 16 (frame pad resp)) out) /\
    reading ph r (mkPipe (drop 16 (frame pad resp)) out).
Proof.
  intros Hdec Hm Hq Hr. destruct (frame_shape resp Hm) as (_ & Hrt & Hv & Htot & Hl).
  destruct (frame_fill resp (resize [] 4096) Hm) as (buf1 & tail & W1 & R1 & W2); [rewrite length_resize by done; done|].
  eexists. split.
  - cbn [client_step client_blocked p_in]. rewrite bool_decide_eq_false_2 by (by apply frame_ne).
    unfold step_call, sizeof_ProtocolHeader. rewrite (frame_read_header resp out Hm), W1. cbn [mbind outcome_bind].
    rewrite (proj2 (Z.leb_gt 16 0)) by lia. rewrite R1. cbn [mbind outcome_bind]. rewrite Hrt, Hv, Htot. cbn [negb].
    by rewrite (proj2 (Z.ltb_lt 0 _)) by lia.
  - split; [by eexists _, _|]. split; [by apply drop_frame_ne|].
    unfold step_call, sizeof_ProtocolHeader. rewrite (frame_read_body resp out Hm), W2. cbn [mbind outcome_bind p_out].
    rewrite (proj2 (Z.leb_gt _ 0)) by lia. unfold finish_call.
    rewrite (deserialize_frame pad resp tail) by (done || by right). cbn [mbind outcome_bind negb]. by rewrite Hdec.
Qed.

(** What the client gets is what the handler computes. *)
Lemma reply_local q c a resp a' e r :
  reply invoke_task services (request_of q c) a = Ret (resp, a', e) -> decode_response cres (received resp) = Ret r ->
  local_call q a = (r, a').
Proof.
  assert (Herr : forall id code what, code <> ErrorCode.OK ->
    decode_response cres (received (create_error id code what)) = Ret (make_error code what)).
  { intros id code what Hc. unfold decode_response. cbn. by rewrite (proj2 (Z.eqb_neq _ _)). }
  assert (Hret : forall x : RpcResult Res, Ret x = Ret r -> (x, a') = (r, a')) by congruence.
  intros Hr Hd. revert Hr Hd Hret. unfold reply, local_call, invoke_task. cbn [service_ method_ payload_ request_of request_message create_request].
  destruct (find_method _ _ _) as [h|]; [|intros [= <- <- <-]; rewrite Herr by done; intros Hx Hret; exact (Hret _ Hx)].
  destruct (run_task _ a []) as [bs x|w x|]; cbn [forget]; intros [= <- <- <-];
    [|rewrite Herr by done; intros Hx Hret; exact (Hret _ Hx)]. unfold decode_response. cbn. intros Hd Hret.
  destruct (deserialize cres bs) as [[[] [v|]]| |]; first [done|exact (Hret _ Hd)].
Qed.

(** ** Where a connection is *)

Context (vreq : Req -> Prop) `{!CodecLaws creq vreq}.
Context (Hatomic : forall h p, atomic (task h p)).
Context (Hhandlers : forall h p a, match invoke_task h p a with 
  Replied r _ => result_ok r /\ exists d, deserialize cres r = Ret d | Threw _ _ => True | Undefined => False end).

(** A call whose frame the server accepts. *)
Definition call_fits (limit : Z) (q : remote_call) : Prop :=
  vreq (c_request q) /\ bytes_ok (c_service q) /\ bytes_ok (c_method q) /\
  48 + zlen (c_service q) + zlen (c_method q) + zlen (serialize creq (c_request q)) <= limit /\ limit < 2 ^ 32.

Definition client_ok (c : RpcClient unit) : Prop := tcp_client_ c = Some tt /\ is_u 64 (next_id c).

Definition good_request (limit : Z) (q : remote_call) (m : RpcMessage) : Prop :=
  (exists c, m = request_of q c) /\ message_ok m /\ is_request (message_type m) = true /\ zlen (frame pad m) <= limit.

Definition good_response (r : RpcResult Res) (resp : RpcMessage) : Prop :=
  message_ok resp /\ is_request (message_type resp) = false /\ is_response (message_type resp) = true /\
  decode_response cres (received resp) = Ret r.

Lemma request_good limit q c : call_fits limit q -> client_ok c -> good_request limit q (request_of q c).
Proof.
  intros (Hv & Hs & Hm & Hl & Hlim) [_ Hid]. split; [by exists c|].
  split; [by apply (request_message_ok pad Hpad creq vreq); [|split_and!; try done; lia]|]. split; [done|].
  rewrite length_frame by done. unfold meta_size, sizeof_RequestMeta.
  cbn [is_request message_type request_of request_message create_request header_ service_ method_ payload_]. simpl. lia.
Qed.

(** The stages of a call: the client's phase, the server's session, the call if
    it is sent and not handled, its result if it is handled and not returned, and
    whether the client is to move. *)
Inductive conn_at (limit : Z) : option (call_phase (Res := Res)) -> conn_session (App := App) (T := pipe) ->
    list remote_call -> list (RpcResult Res) -> bool -> Prop :=
| at_idle b : 16 <= zlen b -> conn_at limit None (mkSession InHeader b [] (mkPipe [] [])) [] [] true
| at_sending b q m : 16 <= zlen b -> good_request limit q m ->
    conn_at limit (Some (InSend (frame pad m))) (mkSession InHeader b [] (mkPipe [] [])) [q] [] true
| at_sent b q m : 16 <= zlen b -> good_request limit q m ->
    conn_at limit (Some InRespHeader) (mkSession InHeader b [] (mkPipe (frame pad m) [])) [q] [] false
| at_body b q m tail : good_request limit q m ->
    write_at b 16 (drop 16 (frame pad m)) = Ret (frame pad m ++ tail) ->
    conn_at limit (Some InRespHeader) (mkSession (InBody (zlen (frame pad m))) b [] (mkPipe (drop 16 (frame pad m)) [])) [q] [] false
| at_handled b r resp : 16 <= zlen b -> good_response r resp ->
    conn_at limit (Some InRespHeader) (mkSession (InWrite (frame pad resp)) b [] (mkPipe [] [])) [] [r] false
| at_answered b r resp : 16 <= zlen b -> good_response r resp ->
    conn_at limit (Some InRespHeader) (mkSession InHeader b [] (mkPipe [] (frame pad resp))) [] [r] true
| at_reading b r ph out : 16 <= zlen b -> reading ph r (mkPipe out []) ->
    conn_at limit (Some ph) (mkSession InHeader b [] (mkPipe [] out)) [] [r] true.

(** Who is to move on a connection. *)
Definition client_to_move (cl : caller) (s : conn_session (App := App) (T := pipe)) : bool :=
  match cl_phase cl, se_phase s with
  | Some InRespHeader, InHeader => bool_decide (p_in (se_stream s) = [])
  | Some InRespHeader, _ => false
  | _, _ => true
  end.

Lemma conn_at_turn limit cl s sent answered turn :
  conn_at limit (cl_phase cl) s sent answered turn -> turn = client_to_move cl s.
Proof.
  destruct cl as [c ph todo results]. unfold client_to_move. cbn [cl_phase].
  by destruct 1 as [| | | | | |b r ph out Hb ((b' & n & ->) & _)].
Qed.

(** What is left to do of a client's calls: seven steps each. *)
Definition conn_work (cl : caller) (s : conn_session (App := App) (T := pipe)) : nat :=
  (7 * length (cl_todo cl) +
   match cl_phase cl with
   | None => 0
   | Some (InSend _) => 6
   | Some InRespHeader =>
       match se_phase s with
       | InHeader => if decide (p_in (se_stream s) = []) then 2 else 5
       | InBody _ => 4
       | _ => 3
       end
   | Some _ => 1
   end)%nat.

Lemma caller_moves limit cl s sent answered turn :
  conn_at limit (cl_phase cl) s sent answered turn -> client_ok (cl_client cl) -> Forall (call_fits limit) (cl_todo cl) ->
  exists cl' p sent' answered' turn',
    client_step cl (swap (se_stream s)) = Ret (cl', p) /\
    conn_at limit (cl_phase cl') (set_stream (swap p) s) sent' answered' turn' /\
    client_ok (cl_client cl') /\ Forall (call_fits limit) (cl_todo cl') /\
    sent' ++ cl_todo cl' = sent ++ cl_todo cl /\ cl_results cl' ++ answered' = cl_results cl ++ answered /\
    ((cl', set_stream (swap p) s) = (cl, s) /\ (turn = true -> conn_work cl s = 0%nat) \/
     (conn_work cl' (set_stream (swap p) s) < conn_work cl s)%nat).
Proof.
  destruct cl as [c ph todo results]. cbn [cl_phase cl_client cl_todo cl_results]. intros Hat Hc Htodo.
  destruct Hat as [b Hb|b q m Hb Hq|b q m Hb Hq|b q m tail Hq Hw|b r resp Hb Hr|b r resp Hb Hr|b r ph out Hb Hr];
    unfold swap; cbn [se_stream p_in p_out].
  - destruct todo as [|q todo].
    { eexists _, _, [], [], true. split; [done|]. split_and!; try done; [by constructor|by left]. }
    apply Forall_cons in Htodo as [Hq Htodo]. rewrite client_start by apply Hc. eexists _, _, [q], [], true.
    split; [done|]. split_and!; [constructor; [done|by apply request_good]|..|right; unfold conn_work; simpl; lia]; try done.
    destruct Hc as [? ?]. split; [done|]. apply wrap_is_u. lia.
  - rewrite client_send by (apply frame_ne, Hq). eexists _, _, [q], [], false. split; [done|].
    split_and!; [by apply at_sent|..]; try done. right. unfold conn_work. cbn. by destruct (decide _); lia.
  - eexists _, _, [q], [], false. split; [done|]. split_and!; [by apply at_sent|..]; try done. by left.
  - eexists _, _, [q], [], false. split; [done|]. split_and!; [by eapply at_body|..]; try done. by left.
  - eexists _, _, [], [r], false. split; [done|]. split_and!; [by apply (at_handled _ _ _ resp)|..]; try done. by left.
  - destruct Hr as (Hm & Hq & Hrs & Hd). destruct (client_header c resp r todo results [] Hd Hm Hq Hrs) as (ph & -> & Hread).
    eexists _, _, [], [_], true. split; [done|]. split_and!; [by apply at_reading|..]; try done.
    right. unfold conn_work. destruct Hread as ((b' & n & ->) & _). cbn. rewrite decide_True by done. lia.
  - destruct Hr as ((b' & n & ->) & Hne & Hst). cbn [client_step client_blocked p_in].
    rewrite bool_decide_eq_false_2, Hst by done. eexists _, _, [], [], true. split; [done|].
    split_and!; [by constructor|..]; try done; [by rewrite app_nil_r|]. right. unfold conn_work. cbn. lia.
Qed.
Lemma handler_reply m a : message_ok m -> exists resp a' e r,
  reply invoke_task services m a = Ret (resp, a', e) /\ good_response r resp.
Proof.
  intros Hm. assert (Hr : exists resp a' e r, reply invoke_task services m a = Ret (resp, a', e) /\
                            decode_response cres (received resp) = Ret r).
  { unfold reply. destruct (find_method _ _ _) as [h|]; [|by eexists _, _, _, _]. specialize (Hhandlers h (payload_ m) a).
    destruct (invoke_task _ _ _) as [bs b|w b|]; [|by eexists _, _, _, _|done]. destruct Hhandlers as [_ [d Hd]].
    eexists _, _, _, _. split; [done|]. unfold decode_response. cbn. by rewrite Hd. }
  destruct Hr as (resp & a' & e & r & Hr & Hd). exists resp, a', e, r. split; [done|].
  destruct (reply_shape _ _ _ _ _ _ _ Hr) as (_ & ? & ? & _). split_and!; [|done..].
  eapply reply_ok; [done|exact Hr|]. intros h res b E. specialize (Hhandlers h (payload_ m) a). rewrite E in Hhandlers.
  apply Hhandlers.
Qed.

(** A step of the server: it is not its turn, or it goes on with the call, or
    it makes the call. *)
Lemma server_moves limit srv cl s sent answered turn :
  conn_at limit (cl_phase cl) s sent answered turn -> limit <= max_request_size (config_ srv) ->
  exists srv' s',
    server_step srv s = Ret (srv', s') /\ config_ srv' = config_ srv /\
    ((srv', s') = (srv, s) /\ turn = true \/
     (conn_work cl s' < conn_work cl s)%nat /\
     ((srv' = srv /\ exists turn', conn_at limit (cl_phase cl) s' sent answered turn') \/
      exists q r turn', sent = [q] /\ answered = [] /\ local_call q (app srv) = (r, app srv') /\
        conn_at limit (cl_phase cl) s' [] [r] turn')).
Proof.
  destruct cl as [c ph todo results]. cbn [cl_phase]. intros Hat Hmax.
  destruct Hat as [b Hb|b q m Hb Hq|b q m Hb Hq|b q m tail Hq Hw|b r resp Hb Hr|b r resp Hb Hr|b r ph out Hb Hr].
  1, 2, 6, 7: by eexists _, _; split; [done|]; split; [done|left].
  - destruct Hq as (Hc & Hm & Hreq & Hl). destruct (server_header srv m b [] Hm) as (b' & tail & -> & Hw); [lia|done|].
    eexists _, _. split; [done|]. split; [done|]. right. split.
    + unfold conn_work. cbn. rewrite decide_False by (by apply frame_ne). lia.
    + left. split; [done|]. exists false. by eapply at_body.
  - destruct Hq as ((c0 & ->) & Hm & Hreq & Hl). destruct (handler_reply _ (app srv) Hm) as (resp & a & e & r & Hr & Hg).
    destruct (server_body srv _ b tail [] resp a e Hatomic Hm Hreq (proj1 Hg) Hw Hr) as (srv' & -> & Happ & Hcfg).
    eexists _, _. split; [done|]. split; [done|]. right. split; [unfold conn_work; cbn; lia|]. right.
    exists q, r, false. split_and!; [done|done|rewrite Happ; eapply reply_local; [exact Hr|apply Hg]|].
    destruct (frame_shape _ Hm) as (_ & _ & _ & _ & Hlen). apply at_handled; [rewrite length_app; lia|done].
  - rewrite server_write by (apply frame_ne, Hr). eexists _, _. split; [done|]. split; [done|]. right. split.
    + unfold conn_work. cbn. rewrite decide_True by done. lia.
    + left. split; [done|]. exists true. by apply at_answered.
Qed.

(** ** Sequences of calls *)

Lemma replay_snoc log i q : forall a,
  replay a (log ++ [(i, q)]) =
  ((replay a log).1 ++ [(i, (local_call q (replay a log).2).1)], (local_call q (replay a log).2).2).
Proof.
  induction log as [|[j p] log IH]; intros a; simpl; [by destruct (local_call q a)|].
  destruct (local_call p a) as [r a1]. rewrite IH. by destruct (replay a1 log).
Qed.

Lemma of_client_snoc {A} i j (l : list (nat * A)) y :
  of_client i (l ++ [(j, y)]) = of_client i l ++ if decide (j = i) then [y] else [].
Proof. unfold of_client. rewrite filter_app, fmap_app. f_equal. rewrite filter_cons, filter_nil. simpl. by destruct (decide _). Qed.

Lemma of_client_others {A} i j (l es : list (nat * A)) :
  Forall (fun e => e.1 = i) es -> j <> i -> of_client j (l ++ es) = of_client j l.
Proof.
  intros Hes Hj. unfold of_client. rewrite filter_app, fmap_app, <- app_nil_r. f_equal.
  induction Hes as [|e es He _ IH]; [done|]. rewrite filter_cons, decide_False by congruence. apply IH.
Qed.

(** ** The system *)

Context (srv0 : RpcServer App) (progs : list (RpcClient unit * list remote_call)).
Context (Hprogs : Forall (fun p => client_ok p.1 /\ Forall (call_fits (max_request_size (config_ srv0))) p.2) progs).
Let limit := max_request_size (config_ srv0).

Definition conn_inv (p : RpcClient unit * list remote_call) (calls : list remote_call) (rs : list (RpcResult Res))
    (x : caller * conn_session (App := App) (T := pipe)) (turn : bool) : Prop :=
  exists sent answered, conn_at limit (cl_phase x.1) x.2 sent answered turn /\ client_ok (cl_client x.1) /\
    Forall (call_fits limit) (cl_todo x.1) /\ calls ++ sent ++ cl_todo x.1 = p.2 /\ rs = cl_results x.1 ++ answered.

Definition sys_inv (x : sys) (log : list (nat * remote_call)) : Prop :=
  app (y_srv x) = (replay (app srv0) log).2 /\ config_ (y_srv x) = config_ srv0 /\ length (y_conns x) = length progs /\
  forall i p y, progs !! i = Some p -> y_conns x !! i = Some y ->
    exists turn, conn_inv p (of_client i log) (of_client i (replay (app srv0) log).1) y turn.

Lemma sys_inv_start : sys_inv (sys_start srv0 progs) [].
Proof.
  split; [done|]. split; [done|]. split; [by apply length_fmap|]. intros i p y Hp Hy. exists true.
  cbn [sys_start y_conns] in Hy. rewrite list_lookup_fmap, Hp in Hy. injection Hy as <-. exists [], [].
  destruct (proj1 (Forall_lookup _ _) Hprogs _ _ Hp) as [Hc Hf].
  split; [|split_and!; done]. apply at_idle. rewrite length_replicate. lia.
Qed.

(** Work left on connection [i]. *)
Definition work (x : sys) (i : nat) : nat :=
  match y_conns x !! i with Some (cl, s) => conn_work cl s | None => 0 end.

Definition conn_of (who : actor) : nat := match who with Client i | Server i => i end.

Lemma work_insert srv conns i y : (i < length conns)%nat -> work (mkSys srv (<[i := y]> conns)) i = conn_work y.1 y.2.
Proof. intros Hi. unfold work. cbn [y_conns]. rewrite list_lookup_insert_eq by done. by destruct y. Qed.

Lemma client_inv p calls rs y turn :
  conn_inv p calls rs y turn ->
  exists cl q, client_step y.1 (swap (se_stream y.2)) = Ret (cl, q) /\
    (exists turn', conn_inv p calls rs (cl, set_stream (swap q) y.2) turn') /\
    ((cl, set_stream (swap q) y.2) = y /\ (turn = true -> conn_work y.1 y.2 = 0%nat) \/
     (conn_work cl (set_stream (swap q) y.2) < conn_work y.1 y.2)%nat).
Proof.
  destruct y as [cl s]. intros (sent & answered & Hat & Hc & Hf & Hcalls & ->). cbn [fst snd] in *.
  destruct (caller_moves limit cl s sent answered turn Hat Hc Hf)
    as (cl' & q & sent' & answered' & turn' & Hst & Hat' & Hc' & Hf' & Hs & Hr & Hw).
  exists cl', q. split; [done|]. split; [|done]. exists turn', sent', answered'.
  split_and!; try done. cbn [fst]. by rewrite Hs.
Qed.

(** A client's step makes no call on the server. *)
Lemma client_step_inv x log i p y turn :
  sys_inv x log -> progs !! i = Some p -> y_conns x !! i = Some y ->
  conn_inv p (of_client i log) (of_client i (replay (app srv0) log).1) y turn ->
  exists x', sys_step x (Client i) = Ret x' /\ sys_inv x' log /\
    (forall j, j <> i -> y_conns x' !! j = y_conns x !! j) /\
    (y_conns x' !! i = y_conns x !! i /\ (turn = true -> work x i = 0%nat) \/ (work x' i < work x i)%nat).
Proof.
  intros (Happ & Hcfg & Hlen & Hall) Hp Hy Hc. assert (Hi : (i < length (y_conns x))%nat) by (by eapply lookup_lt_Some).
  destruct (client_inv _ _ _ _ _ Hc) as (cl & q & Hst & [turn' Hc'] & Hw). destruct y as [cl0 s]. cbn [fst snd] in *.
  eexists. cbn [sys_step]. rewrite Hy, Hst. cbn [mbind outcome_bind fst snd]. split; [done|].
  split; [split_and!; try done; [by cbn [y_conns]; rewrite length_insert|]|].
  { intros j pj yj Hpj Hyj. cbn [y_conns] in Hyj. destruct (decide (i = j)) as [<-|Hne].
    - rewrite list_lookup_insert_eq in Hyj by done. injection Hyj as <-. assert (pj = p) as -> by congruence. by exists turn'.
    - rewrite list_lookup_insert_ne in Hyj by done. by apply Hall. }
  split; [by intros j Hj; cbn [y_conns]; rewrite list_lookup_insert_ne|].
  rewrite work_insert by done. cbn [y_conns fst snd]. rewrite list_lookup_insert_eq by done.
  unfold work. rewrite Hy. destruct Hw as [[<- Hw]|Hw]; [by left|by right].
Qed.

Lemma server_inv p log i srv y turn :
  conn_inv p (of_client i log) (of_client i (replay (app srv0) log).1) y turn ->
  config_ srv = config_ srv0 -> app srv = (replay (app srv0) log).2 ->
  exists srv' s entries,
    server_step srv y.2 = Ret (srv', s) /\ config_ srv' = config_ srv0 /\ app srv' = (replay (app srv0) (log ++ entries)).2 /\
    Forall (fun e => e.1 = i) entries /\
    (forall j, j <> i -> of_client j (replay (app srv0) (log ++ entries)).1 = of_client j (replay (app srv0) log).1) /\
    (exists turn', conn_inv p (of_client i (log ++ entries)) (of_client i (replay (app srv0) (log ++ entries)).1) (y.1, s) turn') /\
    (s = y.2 /\ turn = true \/ (conn_work y.1 s < conn_work y.1 y.2)%nat).
Proof.
  destruct y as [cl s]. intros (sent & answered & Hat & Hc & Hf & Hcalls & Hrs) Hcfg Happ. cbn [fst snd] in *.
  destruct (server_moves limit srv cl s sent answered turn Hat) as (srv' & s' & Hst & Hcfg' & Hcase); [by rewrite Hcfg|].
  rewrite Hcfg in Hcfg'. destruct Hcase as [[[= -> ->] Ht]|(Hw & [[-> [turn' Hat']]|(q & r & turn' & -> & -> & Hloc & Hat')])].
  - exists srv, s, []. rewrite app_nil_r. split_and!; try done; [|by left]. exists turn, sent, answered. by split_and!.
  - exists srv, s', []. rewrite app_nil_r. split_and!; try done; [|by right]. exists turn', sent, answered. by split_and!.
  - exists srv', s', [(i, q)]. rewrite Happ in Hloc. rewrite replay_snoc, Hloc. cbn [fst snd].
    split_and!; try done; [by apply Forall_singleton| | |by right].
    + intros j Hj. rewrite of_client_snoc, decide_False by congruence. apply app_nil_r.
    + exists turn', [], [r]. rewrite !of_client_snoc, decide_True, <- !app_assoc by done. split_and!; try done.
      cbn [fst]. by rewrite Hrs, app_nil_r, decide_True.
Qed.
Lemma server_step_inv x log i p y turn :
  sys_inv x log -> progs !! i = Some p -> y_conns x !! i = Some y ->
  conn_inv p (of_client i log) (of_client i (replay (app srv0) log).1) y turn ->
  exists x' entries, sys_step x (Server i) = Ret x' /\ sys_inv x' (log ++ entries) /\
    (forall j, j <> i -> y_conns x' !! j = y_conns x !! j) /\
    (y_conns x' !! i = y_conns x !! i /\ turn = true \/ (work x' i < work x i)%nat).
Proof.
  intros (Happ & Hcfg & Hlen & Hall) Hp Hy Hc. assert (Hi : (i < length (y_conns x))%nat) by (by eapply lookup_lt_Some).
  destruct (server_inv _ _ _ _ _ _ Hc Hcfg Happ) as (srv' & s' & es & Hst & Hcfg' & Happ' & Hes & Hoth & [turn' Hc'] & Hw).
  destruct y as [cl s]. cbn [fst snd] in *. eexists _, es. cbn [sys_step]. rewrite Hy, Hst. cbn [mbind outcome_bind fst snd].
  split; [done|]. split; [split_and!; try done; [by cbn [y_conns]; rewrite length_insert|]|].
  { intros j pj yj Hpj Hyj. cbn [y_conns] in Hyj. destruct (decide (i = j)) as [<-|Hne].
    - rewrite list_lookup_insert_eq in Hyj by done. injection Hyj as <-. assert (pj = p) as -> by congruence. by exists turn'.
    - rewrite list_lookup_insert_ne in Hyj by done. rewrite Hoth, (of_client_others i) by (done || congruence). by apply Hall. }
  split; [by intros j Hj; cbn [y_conns]; rewrite list_lookup_insert_ne|].
  rewrite work_insert by done. cbn [y_conns fst snd]. rewrite list_lookup_insert_eq by done.
  unfold work. rewrite Hy. destruct Hw as [[-> ->]|Hw]; [by left|by right].
Qed.

(** The one of connection [i] that is to move. *)
Definition mover (x : sys) (i : nat) : actor :=
  match y_conns x !! i with Some (cl, s) => if client_to_move cl s then Client i else Server i | None => Client i end.

Lemma sys_step_spec x log who :
  sys_inv x log ->
  exists x' entries, sys_step x who = Ret x' /\ sys_inv x' (log ++ entries) /\
    (forall j, j <> conn_of who -> y_conns x' !! j = y_conns x !! j) /\
    (y_conns x' !! conn_of who = y_conns x !! conn_of who /\ (mover x (conn_of who) = who -> work x (conn_of who) = 0%nat) \/
     (work x' (conn_of who) < work x (conn_of who))%nat).
Proof.
  intros Hinv. pose proof Hinv as (_ & _ & Hlen & Hall). destruct (y_conns x !! conn_of who) as [[cl s]|] eqn:Hy.
  - destruct (lookup_lt_is_Some_2 progs (conn_of who)) as [p Hp]; [rewrite <- Hlen; by eapply lookup_lt_Some|].
    destruct (Hall _ _ _ Hp Hy) as [turn Hc]. assert (Ht : turn = client_to_move cl s).
    { destruct Hc as (? & ? & Hat & _). by eapply conn_at_turn. }
    unfold mover. rewrite Hy, <- Ht. destruct who as [i|i]; cbn [conn_of] in *.
    + destruct (client_step_inv x log i p _ turn Hinv Hp Hy Hc) as (x' & Hst & Hinv' & Hoth & Hw).
      exists x', []. rewrite app_nil_r. split_and!; try done. rewrite Hy in Hw. destruct Hw as [[? Hw]|Hw]; [left|by right].
      split; [done|]. destruct turn; [by intros _; apply Hw|done].
    + destruct (server_step_inv x log i p _ turn Hinv Hp Hy Hc) as (x' & es & Hst & Hinv' & Hoth & Hw).
      exists x', es. split_and!; try done. rewrite Hy in Hw. destruct Hw as [[? ->]|Hw]; [by left|by right].
  - exists x, []. rewrite app_nil_r. split_and!; try done; [|left; split; [done|]; unfold work; by rewrite Hy].
    destruct who as [i|i]; cbn [conn_of sys_step] in *; by rewrite Hy.
Qed.

(** ** Runs *)

Lemma sys_step_work x log who :
  sys_inv x log ->
  exists x' entries, sys_step x who = Ret x' /\ sys_inv x' (log ++ entries) /\
    forall j, (work x' j < work x j)%nat \/
      (work x' j = work x j /\ mover x' j = mover x j /\ (mover x j = who -> work x j = 0%nat)).
Proof.
  intros Hinv. destruct (sys_step_spec x log who Hinv) as (x' & es & Hst & Hinv' & Hoth & Hw).
  exists x', es. split; [done|]. split; [done|]. intros j. destruct (decide (j = conn_of who)) as [->|Hne].
  - destruct Hw as [[Heq Hw]|Hw]; [right|by left]. unfold work, mover in *. by rewrite Heq.
  - right. pose proof (Hoth j Hne) as Heq. unfold work, mover in *. rewrite Heq. split; [done|]. split; [done|].
    intros <-. destruct (y_conns x !! j) as [[cl s]|]; [|done]. by destruct (client_to_move cl s).
Qed.

Lemma sys_run_work sched : forall x log,
  sys_inv x log ->
  exists x' entries, sys_run sched x = Ret x' /\ sys_inv x' (log ++ entries) /\
    forall j, (work x' j <= work x j)%nat /\ (mover x j ∈ sched -> work x j = 0%nat \/ (work x' j < work x j)%nat).
Proof.
  induction sched as [|who sched IH]; intros x log Hinv.
  { exists x, []. rewrite app_nil_r. split_and!; [done|done|]. intros j. split; [done|]. by intros ?%not_elem_of_nil. }
  destruct (sys_step_work x log who Hinv) as (x1 & es1 & Hst & Hinv1 & Hw1).
  destruct (IH x1 _ Hinv1) as (x2 & es2 & Hrun & Hinv2 & Hw2).
  exists x2, (es1 ++ es2). rewrite app_assoc. cbn [sys_run]. rewrite Hst. cbn [mbind outcome_bind].
  split; [done|]. split; [done|]. intros j. destruct (Hw2 j) as [Hle Hin]. destruct (Hw1 j) as [Hlt|(Heq & Hmv & Hwho)].
  - split; [lia|]. intros _. right. lia.
  - split; [lia|]. rewrite Hmv, Heq in Hin. rewrite Heq in Hle. intros [E|Hs]%elem_of_cons; [left; by apply Hwho|by apply Hin].
Qed.

Lemma sys_run_app s1 : forall s2 x, sys_run (s1 ++ s2) x = (let* x := sys_run s1 x in sys_run s2 x).
Proof. induction s1 as [|who s1 IH]; intros s2 x; simpl; [done|]. by destruct (sys_step x who); simpl. Qed.

(** A round in which everyone has a turn. *)
Definition fair_round (round : list actor) : Prop :=
  forall i, (i < length progs)%nat -> Client i ∈ round /\ Server i ∈ round.

Lemma sys_run_rounds rounds : Forall fair_round rounds -> forall x log,
  sys_inv x log -> (forall j, (work x j <= length rounds)%nat) ->
  exists x' entries, sys_run (concat rounds) x = Ret x' /\ sys_inv x' (log ++ entries) /\ forall j, work x' j = 0%nat.
Proof.
  induction 1 as [|round rounds Hfair _ IH]; intros x log Hinv Hw.
  { exists x, []. rewrite app_nil_r. split_and!; [done|done|]. intros j. specialize (Hw j). simpl in Hw. lia. }
  destruct (sys_run_work round x log Hinv) as (x1 & es1 & Hrun & Hinv1 & Hw1).
  destruct (IH x1 _ Hinv1) as (x2 & es2 & Hrun2 & Hinv2 & Hw2).
  - intros j. specialize (Hw j). destruct (Hw1 j) as [Hle Hin]. simpl in Hw. destruct (decide (work x j = 0)%nat); [lia|].
    destruct Hin; [|lia..]. destruct Hinv as (_ & _ & Hlen & _). unfold work, mover in *.
    destruct (y_conns x !! j) as [[cl s]|] eqn:Hy; [|done]. apply lookup_lt_Some in Hy. rewrite Hlen in Hy.
    destruct (Hfair j Hy), (client_to_move cl s); done.
  - exists x2, (es1 ++ es2). rewrite app_assoc. cbn [concat]. rewrite sys_run_app, Hrun. by split_and!.
Qed.
Lemma sys_inv_explained x log : sys_inv x log -> explained (app srv0) progs x log.
Proof.
  intros (Happ & _ & Hlen & Hall). split; [done|]. split; [done|]. intros i p cl s Hp Hy.
  destruct (Hall i p _ Hp Hy) as (turn & sent & answered & Hat & _ & _ & Hcalls & Hrs). cbn [fst snd] in *.
  exists sent, answered. split; [done|]. split; [done|]. by destruct Hat; split; first [simpl; lia|done].
Qed.

Lemma work_done cl s : conn_work cl s = 0%nat -> cl_todo cl = [] /\ cl_phase cl = None.
Proof.
  unfold conn_work. destruct (cl_todo cl); simpl; [|lia]. intros H. split; [done|]. revert H.
  destruct (cl_phase cl) as [[]|]; try done. destruct (se_phase s); try done. by destruct (decide _).
Qed.

(** C3: remote calls are linearizable on connections that deliver every send whole,
    if the handlers run in one go, never undefined, with results that fit a frame
    and that the client's decoder is defined on, and every request fits the
    server's limit: however the coroutines of the clients and of the server's
    connections are interleaved, no step fails and there is one sequence of calls,
    made one after the other in the server's process, that leaves the application
    as it is and gives every client, in the order it called, the results it got;
    running on only extends the sequence, so a call that returned comes before one
    started later. *)
Theorem remote_calls_linearizable sched sched' :
  exists x x' log log',
    sys_run sched (sys_start srv0 progs) = Ret x /\ explained (app srv0) progs x log /\
    sys_run sched' x = Ret x' /\ explained (app srv0) progs x' (log ++ log').
Proof.
  destruct (sys_run_work sched _ _ sys_inv_start) as (x & log & Hrun & Hinv & _).
  destruct (sys_run_work sched' _ _ Hinv) as (x' & log' & Hrun' & Hinv' & _).
  exists x, x', log, log'. split_and!; try done; by apply sys_inv_explained.
Qed.

(** C4: every remote call returns, under the conditions of the previous theorem
    (connections that deliver sends whole, handlers that run in one go and are
    never undefined, requests and results that fit): after seven rounds for each
    call of the longest program, in each of which every coroutine has at least one
    turn, every client has made all its calls and has got the results of one
    sequence of local calls. *)
Theorem remote_calls_complete rounds :
  Forall fair_round rounds -> Forall (fun p => (7 * length p.2 <= length rounds)%nat) progs ->
  exists x log,
    sys_run (concat rounds) (sys_start srv0 progs) = Ret x /\ app (y_srv x) = (replay (app srv0) log).2 /\
    forall i p, progs !! i = Some p ->
      exists cl s, y_conns x !! i = Some (cl, s) /\ cl_todo cl = [] /\ cl_phase cl = None /\
        of_client i log = p.2 /\ of_client i (replay (app srv0) log).1 = cl_results cl.
Proof.
  intros Hfair Hlong. destruct (sys_run_rounds rounds Hfair _ _ sys_inv_start) as (x & log & Hrun & Hinv & Hw).
  { intros j. unfold work. cbn [sys_start y_conns]. rewrite list_lookup_fmap. destruct (progs !! j) as [p|] eqn:Hp; [|simpl; lia].
    pose proof (proj1 (Forall_lookup _ _) Hlong _ _ Hp) as Hl. cbn beta in Hl. unfold conn_work. simpl in *. lia. }
  apply sys_inv_explained in Hinv as (Happ & Hlen & Hall). exists x, log. split; [done|]. split; [done|]. intros i p Hp.
  destruct (lookup_lt_is_Some_2 (y_conns x) i) as [[cl s] Hy]; [rewrite Hlen; by eapply lookup_lt_Some|].
  specialize (Hw i). unfold work in Hw. rewrite Hy in Hw. destruct (work_done cl s Hw) as [Ht Hph].
  destruct (Hall i p cl s Hp Hy) as (sent & answered & Hc & Hr & _ & Hn). destruct (Hn Hph) as [-> ->].
  exists cl, s. rewrite Ht, !app_nil_r in *. by split_and!.
Qed.
End System.

(** ** Witnesses *)

(** A method that adds its argument to the service's counter and returns the sum. *)
Definition add_task (h : unit) (p : list Z) : handler_task Z :=
  match deserialize int32_codec p with
  | Ret (true, Some v) => Update (fun n => i32 (n + v)) (fun n => Done (Ret (serialize int32_codec (i32 (n + v)))))
  | Undef => Done Undef
  | _ => Done (Throw "bad request")
  end.

Definition add_services : gmap (list Z) (ServiceInfo unit) :=
  register_method (bytes_of_string "Counter") (bytes_of_string "add") (Some tt) [] ∅.

Definition add_call (method : string) (v : Z) : remote_call := mkCall 5 (bytes_of_string "Counter") (bytes_of_string method) v.

Definition adders : list (RpcClient unit * list remote_call) :=
  [ (mkClient 30000 1 (Some tt), [add_call "add" 1; add_call "add" 2]);
    (mkClient 30000 1 (Some tt), [add_call "add" 10; add_call "reset" 0]) ].

Definition add_server : RpcServer Z := mkServer default_server_config 0 0 100.

Lemma add_atomic h p : atomic (add_task h p).
Proof. unfold add_task. destruct (deserialize int32_codec p) as [[[] [v|]]| |]; repeat constructor. Qed.

Lemma add_result h p a :
  match invoke_task add_task h p a with
  | Replied r _ => result_ok r /\ exists d, deserialize int32_codec r = Ret d | Threw _ _ => True | Undefined => False
  end.
Proof.
  assert (Hd : exists d, deserialize int32_codec p = Ret d) by (destruct p as [|? [|? [|? [|? ?]]]]; by eexists).
  unfold invoke_task, add_task. destruct Hd as [[[] [v|]] ->]; try done. cbn [run_task forget].
  assert (Hs : is_s 32 (i32 (a + v))) by (apply sint_is_s; lia).
  split; [split; [by apply (codec_bytes (c := int32_codec) (i32 (a + v)))|done]|]. exists (true, Some (i32 (a + v))).
  rewrite <- (app_nil_r (serialize _ _)). by apply (deserialize_serialize int32_codec (is_s 32)).
Qed.

Lemma adders_ok :
  Forall (fun p => client_ok p.1 /\ Forall (call_fits int32_codec (is_s 32) (max_request_size (config_ add_server))) p.2) adders.
Proof. compute_done. Qed.

Definition add_round : list actor := [Server 1; Client 0; Client 1; Server 0].

Lemma remote_calls_linearizable_witness :
  exists x x' log log',
    sys_run add_task zero_pad add_services int32_codec int32_codec (concat (replicate 5 add_round)) (sys_start add_server adders)
    = Ret x /\ explained add_task add_services int32_codec int32_codec 100 adders x log /\
    sys_run add_task zero_pad add_services int32_codec int32_codec [Server 0; Server 1; Client 1; Client 7; Client 1] x = Ret x' /\
    explained add_task add_services int32_codec int32_codec 100 adders x' (log ++ log').
Proof.
  exact (remote_calls_linearizable add_task zero_pad add_services int32_codec int32_codec eq_refl (is_s 32)
    add_atomic add_result add_server adders adders_ok (concat (replicate 5 add_round)) _).
Defined.

Lemma remote_calls_complete_witness :
  exists x log,
    sys_run add_task zero_pad add_services int32_codec int32_codec (concat (replicate 14 add_round)) (sys_start add_server adders)
    = Ret x /\ app (y_srv x) = (replay add_task add_services int32_codec int32_codec 100 log).2 /\
    of_client 0 log = [add_call "add" 1; add_call "add" 2] /\ of_client 1 log = [add_call "add" 10; add_call "reset" 0].
Proof.
  destruct (remote_calls_complete add_task zero_pad add_services int32_codec int32_codec eq_refl (is_s 32)
    add_atomic add_result add_server adders adders_ok (replicate 14 add_round)) as (x & log & Hrun & Happ & Hall).
  - apply Forall_replicate. intros i Hi. destruct i as [|[|i]]; [| |simpl in Hi; lia]; split; compute_done.
  - compute_done.
  - exists x, log. split; [done|]. split; [done|]. split.
    + by destruct (Hall 0%nat _ eq_refl) as (cl & s & _ & _ & _ & ? & _).
    + by destruct (Hall 1%nat _ eq_refl) as (cl & s & _ & _ & _ & ? & _).
Defined.

(** The additions of the two clients interleave; the unknown method is an error. *)
Example adders_results :
  match sys_run add_task zero_pad add_services int32_codec int32_codec (concat (replicate 14 add_round)) (sys_start add_server adders) with
  | Ret x => Some (app (y_srv x), (fun y => (value <$> cl_results y.1)) <$> y_conns x)
  | _ => None
  end = Some (113, [[Some 101; Some 113]; [Some 111; None]]).
Proof. by vm_compute. Qed.
