(* ===== verification/LoadBalancer.v ===== *)
(** * rpc/loadbalance/load_balancer.hpp and rpc/registry/service_discovery.hpp

    The abstract base class is the type class [LoadBalancer], its contract
    [LoadBalancerLaws]; the three balancers are instances.  The random engine is
    a parameter: [draw n s] is [dist(rng_)] for the distribution on [0, n-1]. *)

From Stdlib Require Import ZArith Lia.
From S2P Require Import Prelude.

Record Endpoint := mkEndpoint {
  host : list Z;
  port : Z;
  weight : Z;
  healthy : bool;
}.
#[global] Instance Endpoint_eq_dec : EqDecision Endpoint.
Proof. solve_decision. Defined.

(** ** The interface *)

Class LoadBalancer (B : Type) := {
  update : list Endpoint -> B -> B;
  select : B -> outcome (option Endpoint * B);
  mark_success : Endpoint -> B -> B;
  mark_failure : Endpoint -> B -> B;
}.

(** What every balancer promises: it only returns endpoints it was given, it
    returns one whenever it has one, and only [update] changes the set. *)
Class LoadBalancerLaws (B : Type) `{!LoadBalancer B} := {
  members : B -> list Endpoint;
  lb_ok : B -> Prop;
  update_ok eps b : lb_ok b -> zlen eps < 2 ^ 32 ->
    Forall (fun e => is_s 32 (weight e)) eps -> lb_ok (update eps b);
  update_members eps b : members (update eps b) = eps;
  select_member b : lb_ok b ->
    exists r b', select b = Ret (r, b') /\ lb_ok b' /\ members b' = members b /\
      match r with Some e => e ∈ members b | None => members b = [] end;
}.

(** Indexing [v[i]] of a vector: out of range is undefined. *)
Definition at_ {A} (l : list A) (i : Z) : outcome A :=
  match l !! Z.to_nat i with Some x => Ret x | None => Undef end.

(** ** Round robin *)

Record RoundRobin := mkRR { rr_endpoints_ : list Endpoint; rr_current_ : Z }.

Definition rr_update (eps : list Endpoint) (b : RoundRobin) : RoundRobin := mkRR eps 0.

Definition rr_select (b : RoundRobin) : outcome (option Endpoint * RoundRobin) :=
  match rr_endpoints_ b with
  | [] => Ret (None, b)
  | eps =>
      let idx := rr_current_ b mod zlen eps in
      let* e := at_ eps idx in
      Ret (Some e, mkRR eps (u64 (rr_current_ b + 1)))
  end.

#[global] Instance rr_balancer : LoadBalancer RoundRobin := {
  update := rr_update; select := rr_select;
  mark_success _ b := b; mark_failure _ b := b;
}.

(** ** Weighted round robin *)

Record WeightedRoundRobin := mkWRR {
  wrr_endpoints_ : list Endpoint;
  weighted_indices_ : list Z;
  wrr_current_ : Z;
}.

(** The loop over the endpoints from index [i]; an endpoint of weight [w] puts
    its index [max(1, w)] times. *)
Fixpoint build_indices (i : Z) (eps : list Endpoint) : list Z :=
  match eps with
  | [] => []
  | e :: eps => replicate (Z.to_nat (Z.max 1 (weight e))) i ++ build_indices (i + 1) eps
  end.

Definition wrr_update (eps : list Endpoint) (b : WeightedRoundRobin) : WeightedRoundRobin :=
  mkWRR eps (build_indices 0 eps) 0.

Definition wrr_select (b : WeightedRoundRobin) : outcome (option Endpoint * WeightedRoundRobin) :=
  match weighted_indices_ b with
  | [] => Ret (None, b)
  | ixs =>
      let idx := wrr_current_ b mod zlen ixs in
      let* i := at_ ixs idx in
      let* e := at_ (wrr_endpoints_ b) i in
      Ret (Some e, mkWRR (wrr_endpoints_ b) ixs (u64 (wrr_current_ b + 1)))
  end.

#[global] Instance wrr_balancer : LoadBalancer WeightedRoundRobin := {
  update := wrr_update; select := wrr_select;
  mark_success _ b := b; mark_failure _ b := b;
}.

(** ** Random *)

Section RandomBalancer.
Context {S : Type} (draw : Z -> S -> Z * S).

Record RandomBalancer := mkRandom { rnd_endpoints_ : list Endpoint; rng_ : S }.

Definition rnd_update (eps : list Endpoint) (b : RandomBalancer) : RandomBalancer := mkRandom eps (rng_ b).

Definition rnd_select (b : RandomBalancer) : outcome (option Endpoint * RandomBalancer) :=
  match rnd_endpoints_ b with
  | [] => Ret (None, b)
  | eps =>
      let '(i, s) := draw (zlen eps) (rng_ b) in
      let* e := at_ eps i in
      Ret (Some e, mkRandom eps s)
  end.

#[global] Instance rnd_balancer : LoadBalancer RandomBalancer := {
  update := rnd_update; select := rnd_select;
  mark_success _ b := b; mark_failure _ b := b;
}.
End RandomBalancer.
Arguments RandomBalancer : clear implicits.

(** ** The contract holds *)

Lemma at_in {A} (l : list A) i : 0 <= i < zlen l -> exists x, at_ l i = Ret x /\ x ∈ l.
Proof.
  intros Hi. unfold at_. destruct (lookup_lt_is_Some_2 l (Z.to_nat i)) as [x Hx]; [lia|].
  rewrite Hx. exists x. split; [done|]. by eapply list_elem_of_lookup_2.
Qed.

#[global] Program Instance rr_laws : LoadBalancerLaws RoundRobin := {
  members := rr_endpoints_; lb_ok _ := True;
}.
Next Obligation. done. Qed.
Next Obligation. done. Qed.
Next Obligation.
  intros [eps cur] _. cbn [select rr_balancer]. unfold rr_select. cbn [rr_endpoints_ rr_current_].
  destruct eps as [|e0 eps]; [by eexists _, _|].
  destruct (at_in (e0 :: eps) (cur mod zlen (e0 :: eps))) as (e & -> & He);
    [apply Z.mod_pos_bound; simpl; lia|]. by eexists _, _.
Qed.

Lemma build_indices_range eps i j : j ∈ build_indices i eps -> i <= j < i + zlen eps.
Proof.
  revert i. induction eps as [|e eps IH]; intros i; simpl; [by intros ?%elem_of_nil|].
  intros [[-> _]%elem_of_replicate|Hj%IH]%elem_of_app; lia.
Qed.

#[global] Program Instance wrr_laws : LoadBalancerLaws WeightedRoundRobin := {
  members := wrr_endpoints_;
  lb_ok b := weighted_indices_ b = build_indices 0 (wrr_endpoints_ b);
}.
Next Obligation. done. Qed.
Next Obligation. done. Qed.
Next Obligation.
  intros [eps ixs cur] Hok. cbn [weighted_indices_ wrr_endpoints_] in Hok. subst ixs.
  cbn [select wrr_balancer]. unfold wrr_select. cbn [wrr_endpoints_ weighted_indices_ wrr_current_].
  destruct (build_indices 0 eps) as [|i0 ixs] eqn:E.
  - exists None. eexists. split_and!; try done. destruct eps; [done|]. simpl in E.
    assert (Hz : (Z.to_nat (Z.max 1 (weight e)) <> 0)%nat) by lia.
    destruct (Z.to_nat (Z.max 1 (weight e))); done.
  - destruct (at_in (i0 :: ixs) (cur mod zlen (i0 :: ixs))) as (i & -> & Hi);
      [apply Z.mod_pos_bound; simpl; lia|].
    rewrite <- E in Hi. apply build_indices_range in Hi. cbn [mbind outcome_bind].
    destruct (at_in eps i) as (e & -> & He); [lia|]. by eexists _, _.
Qed.

(** The documented range of [uniform_int_distribution(0, n - 1)]. *)
Class DrawInRange {S} (draw : Z -> S -> Z * S) := draw_range n s : 0 < n -> 0 <= (draw n s).1 < n.

#[global] Program Instance rnd_laws {S} (draw : Z -> S -> Z * S) `{!DrawInRange draw} :
  LoadBalancerLaws (RandomBalancer S) (LoadBalancer0 := rnd_balancer draw) := {
  members := rnd_endpoints_; lb_ok _ := True;
}.
Next Obligation. done. Qed.
Next Obligation. done. Qed.
Next Obligation.
  intros S draw Hd [eps s] _. cbn [select rnd_balancer]. unfold rnd_select. cbn [rnd_endpoints_ rng_].
  destruct eps as [|e0 eps]; [by eexists _, _|].
  pose proof (draw_range (zlen (e0 :: eps)) s ltac:(simpl; lia)) as Hr.
  destruct (draw (zlen (e0 :: eps)) s) as [i s']. destruct (at_in (e0 :: eps) i Hr) as (e & -> & He).
  by eexists _, _.
Qed.

(** ** Fairness of the round robins *)

Section Fairness.
Context {B : Type} `{!LoadBalancer B}.

(** The endpoints [n] successive calls of [select] return. *)
Fixpoint selects (n : nat) (b : B) : outcome (list (option Endpoint) * B) :=
  match n with
  | O => Ret ([], b)
  | S n =>
      let* r := select b in
      let* rs := selects n r.2 in
      Ret (r.1 :: rs.1, rs.2)
  end.
End Fairness.

(** A balancer that walks through [cycle] from position [k]. *)
Definition walks {B} `{!LoadBalancer B} (at_pos : Z -> B) (cycle : list Endpoint) : Prop :=
  forall k, 0 <= k < 2 ^ 64 - 1 -> exists e,
    cycle !! Z.to_nat (k mod zlen cycle) = Some e /\ select (at_pos k) = Ret (Some e, at_pos (k + 1)).

Lemma walks_selects {B} `{!LoadBalancer B} (at_pos : Z -> B) cycle n k :
  walks at_pos cycle -> 0 <= k -> k + Z.of_nat n < 2 ^ 64 -> cycle <> [] ->
  exists es, selects n (at_pos k) = Ret (Some <$> es, at_pos (k + Z.of_nat n)) /\ length es = n /\
    forall j, (j < n)%nat -> es !! j = cycle !! Z.to_nat ((k + Z.of_nat j) mod zlen cycle).
Proof.
  intros Hw. revert k. induction n as [|n IH]; intros k Hk Hb Hc.
  - exists []. rewrite Z.add_0_r. split_and!; [done..|lia].
  - destruct (Hw k) as (e & He & Hs); [lia|]. destruct (IH (k + 1)) as (es & E & Hl & Hes); [lia..|done|].
    exists (e :: es). cbn [selects]. rewrite Hs. cbn [mbind outcome_bind fst snd]. rewrite E.
    cbn [mbind outcome_bind fst snd]. split_and!; [|simpl; lia|].
    + replace (k + Z.of_nat (S n)) with (k + 1 + Z.of_nat n) by lia. done.
    + intros [|j] Hj; [by rewrite Z.add_0_r|]. simpl. rewrite Hes by lia. do 3 f_equal. lia.
Qed.

Lemma lookup_concat_replicate {A} q (l : list A) j :
  l <> [] -> (j < q * length l)%nat -> concat (replicate q l) !! j = l !! (j mod length l)%nat.
Proof.
  intros Hl. assert (length l <> 0)%nat by (by destruct l). revert j.
  induction q as [|q IH]; intros j Hj; simpl in *; [lia|].
  destruct (decide (j < length l)%nat) as [Hlt|Hge].
  - rewrite lookup_app_l, Nat.mod_small by done. done.
  - rewrite lookup_app_r, IH by lia. f_equal.
    replace j with ((j - length l) + 1 * length l)%nat at 2 by lia. by rewrite Nat.Div0.mod_add.
Qed.

(** [q] rounds of a walk are [q] times the cycle. *)
Lemma walks_rounds {B} `{!LoadBalancer B} (at_pos : Z -> B) cycle q :
  walks at_pos cycle -> cycle <> [] -> Z.of_nat q * zlen cycle < 2 ^ 64 ->
  exists b', selects (q * length cycle) (at_pos 0) = Ret (Some <$> concat (replicate q cycle), b').
Proof.
  intros Hw Hc Hb. destruct (walks_selects at_pos cycle (q * length cycle) 0 Hw) as (es & -> & Hl & Hes);
    [lia..|done|]. assert (Heq : es = concat (replicate q cycle)); [|rewrite Heq; eauto].
  apply list_eq. intros j. destruct (decide (j < q * length cycle)%nat) as [Hj|Hj].
  - rewrite Hes, lookup_concat_replicate by done. f_equal. rewrite Z.add_0_l.
    rewrite <- Nat2Z.inj_mod. apply Nat2Z.id.
  - rewrite lookup_ge_None_2 by lia. symmetry. apply lookup_ge_None_2.
    assert (Hlen : length (concat (replicate q cycle)) = (q * length cycle)%nat); [|lia].
    clear. induction q; simpl; [done|]. rewrite length_app. lia.
Qed.

(** Each endpoint repeated by its effective weight. *)
Definition expand (eps : list Endpoint) : list Endpoint :=
  concat ((fun e => replicate (Z.to_nat (Z.max 1 (weight e))) e) <$> eps).

Lemma build_indices_expand pre eps :
  Forall2 (fun i e => (pre ++ eps) !! Z.to_nat i = Some e) (build_indices (zlen pre) eps) (expand eps).
Proof.
  revert pre. induction eps as [|e eps IH]; intros pre; [constructor|].
  unfold expand. cbn [build_indices fmap list_fmap concat]. apply Forall2_app.
  - apply Forall2_replicate. rewrite Nat2Z.id. by apply list_lookup_middle.
  - specialize (IH (pre ++ [e])). rewrite length_app in IH. simpl in IH. rewrite <- app_assoc in IH.
    replace (zlen pre + 1) with (Z.of_nat (length pre + 1)) by lia. exact IH.
Qed.

Lemma rr_walks eps : eps <> [] -> walks (fun k => mkRR eps k) eps.
Proof.
  intros Hne k Hk. cbn [select rr_balancer]. unfold rr_select. cbn [rr_endpoints_ rr_current_].
  destruct eps as [|e0 eps]; [done|]. unfold at_.
  assert (Hi : 0 <= k mod zlen (e0 :: eps) < zlen (e0 :: eps)) by (apply Z.mod_pos_bound; simpl; lia).
  destruct (lookup_lt_is_Some_2 (e0 :: eps) (Z.to_nat (k mod zlen (e0 :: eps)))) as [e He]; [lia|].
  exists e. rewrite He. split; [done|]. cbn [mbind outcome_bind]. by rewrite wrap_small by (unfold is_u; lia).
Qed.

Lemma wrr_walks eps : eps <> [] -> walks (fun k => mkWRR eps (build_indices 0 eps) k) (expand eps).
Proof.
  intros Hne k Hk. cbn [select wrr_balancer]. unfold wrr_select.
  cbn [wrr_endpoints_ weighted_indices_ wrr_current_].
  pose proof (build_indices_expand [] eps) as HF. simpl in HF. change (Z.of_nat 0) with 0 in HF.
  assert (Hlen : length (build_indices 0 eps) = length (expand eps)) by (by eapply Forall2_length).
  destruct (build_indices 0 eps) as [|i0 ixs] eqn:E.
  { destruct eps as [|e eps]; [done|]. simpl in E.
    destruct (Z.to_nat (Z.max 1 (weight e))) eqn:Ez; [lia|done]. }
  set (l := i0 :: ixs) in *. rewrite <- Hlen.
  assert (Hi : 0 <= k mod zlen l < zlen l) by (apply Z.mod_pos_bound; subst l; simpl; lia).
  destruct (lookup_lt_is_Some_2 l (Z.to_nat (k mod zlen l))) as [i Hix]; [lia|].
  destruct (Forall2_lookup_l _ _ _ _ _ HF Hix) as (e & He & Hie). exists e. split; [done|].
  unfold at_. rewrite Hix. cbn [mbind outcome_bind]. rewrite Hie. cbn [mbind outcome_bind].
  by rewrite wrap_small by (unfold is_u; lia).
Qed.

(** C36: the round robins are fair.  After [update], [q] full rounds of [select]
    return every endpoint exactly [q] times in list order (plain), or [q] times
    [max(1, weight)] times (weighted), for as many selections as the 64-bit
    counter allows. *)
Theorem round_robin_fair eps q (b : RoundRobin) (w : WeightedRoundRobin) :
  eps <> [] -> Z.of_nat q * zlen (expand eps) < 2 ^ 64 -> Z.of_nat q * zlen eps < 2 ^ 64 ->
  (exists b', selects (q * length eps) (update eps b) = Ret (Some <$> concat (replicate q eps), b')) /\
  (exists w', selects (q * length (expand eps)) (update eps w)
              = Ret (Some <$> concat (replicate q (expand eps)), w')).
Proof.
  intros Hne Hb Hb'. split.
  - apply (walks_rounds (fun k => mkRR eps k)); [by apply rr_walks|done..].
  - apply (walks_rounds (fun k => mkWRR eps (build_indices 0 eps) k)); [by apply wrr_walks| |done].
    destruct eps as [|e eps]; [done|]. unfold expand. simpl.
    destruct (Z.to_nat (Z.max 1 (weight e))) eqn:Ez; [lia|done].
Qed.

(** ** Static service discovery *)

Abbreviation discovery := (gmap (list Z) (list Endpoint)).

Definition add_endpoint (service : list Z) (ep : Endpoint) (d : discovery) : discovery :=
  <[service := default [] (d !! service) ++ [ep]]> d.

(** [StaticServiceDiscovery::register_service]. *)
Definition register_endpoint (service : list Z) (ep : Endpoint) (d : discovery) : discovery :=
  add_endpoint service ep d.

Definition discover (service : list Z) (d : discovery) : list Endpoint :=
  match d !! service with Some eps => eps | None => [] end.

Definition same_address (a b : Endpoint) : Prop := host a = host b /\ port a = port b.
#[global] Instance same_address_dec a b : Decision (same_address a b) := _.

Definition deregister_service (service : list Z) (endpoint : Endpoint) (d : discovery) : discovery :=
  match d !! service with
  | Some eps => <[service := filter (fun ep => ~ same_address ep endpoint) eps]> d
  | None => d
  end.

Lemma discover_add (s s' : list Z) (ep : Endpoint) (d : discovery) :
  discover s' (add_endpoint s ep d) = discover s' d ++ (if decide (s = s') then [ep] else []).
Proof.
  unfold discover, add_endpoint. case_decide as E; [subst; rewrite lookup_insert_eq|rewrite lookup_insert_ne by done].
  - by destruct (d !! s').
  - by rewrite app_nil_r.
Qed.

Lemma discover_deregister (s s' : list Z) (ep : Endpoint) (d : discovery) :
  discover s' (deregister_service s ep d) =
  if decide (s = s') then filter (fun x => ~ same_address x ep) (discover s' d) else discover s' d.
Proof.
  unfold discover, deregister_service. destruct (d !! s) as [eps|] eqn:E.
  - case_decide as Es; [subst; by rewrite lookup_insert_eq, E|by rewrite lookup_insert_ne].
  - case_decide as Es; [subst; by rewrite E|done].
Qed.

(** A balancer fed from discovery never picks a deregistered address: for
    every balancer that obeys the interface's laws, after
    [update(discover(service))] on a directory from which the address was
    removed, [select] returns a registered endpoint with another address, or
    nothing when none is left. *)
Theorem deregistered_never_selected {B} `{!LoadBalancer B} `{!LoadBalancerLaws B}
    (s : list Z) (ep : Endpoint) (d : discovery) (b : B) :
  lb_ok b -> zlen (discover s d) < 2 ^ 32 -> Forall (fun e => is_s 32 (weight e)) (discover s d) ->
  let eps := discover s (deregister_service s ep d) in
  exists r b', select (update eps b) = Ret (r, b') /\
    match r with
    | Some e => e ∈ discover s d /\ ~ same_address e ep
    | None => forall e, e ∈ discover s d -> same_address e ep
    end.
Proof.
  intros Hb Hl Hw eps. subst eps. rewrite discover_deregister, decide_True by done.
  set (eps := filter _ _).
  assert (Hl' : (length eps <= length (discover s d))%nat) by apply length_filter.
  destruct (select_member (update eps b)) as (r & b' & E & _ & _ & Hr).
  { apply update_ok; [done|lia|]. by apply Forall_filter_sub. }
  rewrite update_members in Hr. exists r, b'. split; [done|]. destruct r as [e|].
  - apply list_elem_of_filter in Hr. tauto.
  - intros e He. destruct (decide (same_address e ep)); [done|].
    assert (Hin : e ∈ eps) by (by apply list_elem_of_filter). rewrite Hr in Hin. by apply elem_of_nil in Hin.
Qed.

(** ** Witnesses *)

Definition ep_a : Endpoint := mkEndpoint [97] 1 2 true.
Definition ep_b : Endpoint := mkEndpoint [98] 2 0 false.

Lemma round_robin_fair_witness :
  (exists b', selects 4 (update [ep_a; ep_b] (mkRR [] 0)) = Ret (Some <$> [ep_a; ep_b; ep_a; ep_b], b')) /\
  (exists w', selects 6 (update [ep_a; ep_b] (mkWRR [] [] 0))
              = Ret (Some <$> [ep_a; ep_a; ep_b; ep_a; ep_a; ep_b], w')).
Proof.
  apply (round_robin_fair [ep_a; ep_b] 2 (mkRR [] 0) (mkWRR [] [] 0)); [done|vm_compute; reflexivity..].
Defined.

Lemma deregistered_never_selected_witness :
  let d : discovery := add_endpoint [1] ep_b (add_endpoint [1] ep_a ∅) in
  exists r b', select (update (discover [1] (deregister_service [1] ep_a d)) (mkRR [] 0)) = Ret (r, b') /\
    match r with
    | Some e => e ∈ discover [1] d /\ ~ same_address e ep_a
    | None => forall e, e ∈ discover [1] d -> same_address e ep_a
    end.
Proof.
  apply (deregistered_never_selected [1] ep_a (add_endpoint [1] ep_b (add_endpoint [1] ep_a ∅)) (mkRR [] 0));
    [done|vm_compute; reflexivity|compute_done].
Defined.
