(* ===== verification/Discovery.v ===== *)
(** * rpc/registry/service_discovery.hpp: the interface and its implementation

    The abstract class is the type class [ServiceDiscovery], what its operations
    do to each other's answers [ServiceDiscoveryLaws].  [StaticServiceDiscovery]
    is the table of LoadBalancer.v with the stored callback.  What a client sees
    is proved against the laws: every implementation answers by the history of
    its calls. *)

From Stdlib Require Import ZArith Lia.
From S2P Require Import Prelude LoadBalancer.

Record ServiceDiscoveryConfig := mkDiscoveryConfig {
  refresh_interval_ms : Z;
  heartbeat_interval_ms : Z;
  unhealthy_threshold : Z;
}.

Definition default_discovery_config : ServiceDiscoveryConfig := mkDiscoveryConfig 10000 5000 3.

(** ** The interface *)

Class ServiceDiscovery (CB D : Type) := {
  sd_discover : list Z -> D -> list Endpoint;
  sd_register : list Z -> Endpoint -> D -> D;
  sd_deregister : list Z -> Endpoint -> D -> D;
  sd_set_callback : CB -> D -> D;
}.

Class ServiceDiscoveryLaws (CB D : Type) `{!ServiceDiscovery CB D} := {
  discover_registered s s' ep d :
    sd_discover s' (sd_register s ep d) = sd_discover s' d ++ (if decide (s = s') then [ep] else []);
  discover_deregistered s s' ep d :
    sd_discover s' (sd_deregister s ep d) =
    if decide (s = s') then filter (fun x => ~ same_address x ep) (sd_discover s' d) else sd_discover s' d;
  discover_set_callback s cb d : sd_discover s (sd_set_callback cb d) = sd_discover s d;
}.

(** ** The static implementation *)

Record StaticServiceDiscovery (CB : Type) := mkStatic { services_ : discovery; callback_ : option CB }.
Arguments mkStatic {CB}.
Arguments services_ {CB}.
Arguments callback_ {CB}.

Definition static_new {CB} : StaticServiceDiscovery CB := mkStatic ∅ None.

Definition store_callback {CB} (cb : CB) (d : StaticServiceDiscovery CB) : StaticServiceDiscovery CB :=
  mkStatic (services_ d) (Some cb).

#[global] Instance static_discovery CB : ServiceDiscovery CB (StaticServiceDiscovery CB) := {
  sd_discover s d := discover s (services_ d);
  sd_register s ep d := mkStatic (register_endpoint s ep (services_ d)) (callback_ d);
  sd_deregister s ep d := mkStatic (deregister_service s ep (services_ d)) (callback_ d);
  sd_set_callback := store_callback;
}.

#[global] Instance static_laws CB : ServiceDiscoveryLaws CB (StaticServiceDiscovery CB).
Proof.
  split.
  - intros s s' ep d. apply discover_add.
  - intros s s' ep d. apply discover_deregister.
  - done.
Qed.

(** ** Histories *)

Inductive discovery_op (CB : Type) :=
| DRegister (s : list Z) (ep : Endpoint)
| DDeregister (s : list Z) (ep : Endpoint)
| DSetCallback (cb : CB).
Arguments DRegister {CB}.
Arguments DDeregister {CB}.
Arguments DSetCallback {CB}.

(** A later call removes the address from the service. *)
Definition removes {CB} (s : list Z) (ep : Endpoint) (op : discovery_op CB) : Prop :=
  match op with DDeregister s' ep' => s' = s /\ same_address ep ep' | _ => False end.
#[global] Instance removes_dec {CB} s ep (op : discovery_op CB) : Decision (removes s ep op).
Proof. destruct op; simpl; apply _. Defined.

(** The endpoints registered and not removed since, in the order they came. *)
Fixpoint registered {CB} (s : list Z) (ops : list (discovery_op CB)) : list Endpoint :=
  match ops with
  | [] => []
  | DRegister s' ep :: ops =>
      (if decide (s' = s /\ Forall (fun op => ~ removes s ep op) ops) then [ep] else []) ++ registered s ops
  | _ :: ops => registered s ops
  end.

Section Client.
Context {CB D : Type} `{!ServiceDiscovery CB D} `{!ServiceDiscoveryLaws CB D}.

Definition discovery_step (d : D) (op : discovery_op CB) : D :=
  match op with
  | DRegister s ep => sd_register s ep d
  | DDeregister s ep => sd_deregister s ep d
  | DSetCallback cb => sd_set_callback cb d
  end.

Definition discovery_run (ops : list (discovery_op CB)) (d : D) : D := fold_left discovery_step ops d.

(** What was there before and is not removed by [ops]. *)
Definition surviving s (ops : list (discovery_op CB)) (eps : list Endpoint) : list Endpoint :=
  filter (fun ep => Forall (fun op => ~ removes s ep op) ops) eps.

Lemma surviving_cons s op ops eps :
  surviving s (op :: ops) eps = surviving s ops (filter (fun ep => ~ removes s ep op) eps).
Proof.
  unfold surviving. induction eps as [|ep eps IH]; [done|]. destruct (decide (removes s ep op)) as [Hr|Hr].
  - rewrite (filter_cons_False (fun ep => ~ removes s ep op)) by tauto.
    by rewrite filter_cons_False by (by intros [? _]%Forall_cons).
  - rewrite (filter_cons_True (fun ep => ~ removes s ep op)) by done.
    destruct (decide (Forall (fun op => ~ removes s ep op) ops)) as [Hf|Hf].
    + by rewrite !filter_cons_True, IH by (done || by apply Forall_cons).
    + by rewrite !filter_cons_False by (done || by intros [_ ?]%Forall_cons).
Qed.

Lemma filter_removes_other s (op : discovery_op CB) (eps : list Endpoint) :
  (forall ep, ~ removes s ep op) -> filter (fun ep => ~ removes s ep op) eps = eps.
Proof. intros Hn. apply filter_id. intros ep _. apply Hn. Qed.

Lemma discovery_run_spec ops s : forall d,
  sd_discover s (discovery_run ops d) = surviving s ops (sd_discover s d) ++ registered s ops.
Proof.
  unfold discovery_run. induction ops as [|op ops IH]; intros d; cbn [fold_left registered].
  { unfold surviving. rewrite app_nil_r, filter_id; [done|]. intros ep _. constructor. }
  rewrite (IH (discovery_step d op)), surviving_cons. destruct op as [s' ep|s' ep|cb]; cbn [discovery_step].
  - rewrite filter_removes_other by (by intros ep' []). rewrite discover_registered. unfold surviving.
    rewrite filter_app, <- app_assoc. f_equal. f_equal. destruct (decide (s' = s)) as [->|Hne].
    + rewrite filter_cons, filter_nil. destruct (decide (Forall (fun op => ~ removes s ep op) ops)).
      * by rewrite decide_True.
      * by rewrite decide_False by tauto.
    + rewrite filter_nil. by rewrite decide_False by tauto.
  - rewrite discover_deregistered. do 2 f_equal. destruct (decide (s' = s)) as [->|Hne].
    + apply list_filter_iff. intros x. simpl. tauto.
    + symmetry. apply filter_removes_other. intros ep' [? _]. done.
  - rewrite discover_set_callback. by rewrite filter_removes_other by (by intros ep' []).
Qed.

(** Every implementation of the interface that starts empty answers by the
    history of calls: [discover] gives the endpoints registered for the service
    and not deregistered since, in registration order, whatever happened to other
    services and whatever callbacks were set. *)
Theorem discover_by_history d ops s :
  sd_discover s d = [] -> sd_discover s (discovery_run ops d) = registered s ops.
Proof using All. intros Hd. rewrite discovery_run_spec, Hd. done. Qed.
End Client.

(** ** Witness *)

Lemma discover_by_history_witness :
  sd_discover [1] (discovery_run
    [DRegister [1] ep_a; DRegister [2] ep_a; DSetCallback tt; DRegister [1] ep_b; DDeregister [1] ep_a; DRegister [1] ep_a]
    (static_new (CB := unit))) = [ep_b; ep_a].
Proof.
  apply (discover_by_history (static_new (CB := unit))
    [DRegister [1] ep_a; DRegister [2] ep_a; DSetCallback tt; DRegister [1] ep_b; DDeregister [1] ep_a; DRegister [1] ep_a] [1]).
  reflexivity.
Defined.
