(* ===== verification/ConnectionPool.v ===== *)
(** * net/connection_pool.hpp: sharing connections between threads

    [acquire] and [release] are split where the source releases its mutex; the
    steps of several threads interleave in [pool_step].  [idle_connections_] is
    a list whose head is the back of the deque.  A pooled connection is its
    descriptor and whether [connected()] holds. *)

From Stdlib Require Import ZArith Lia.
From S2P Require Import Prelude.

Record pconn := mkPconn { pc_fd : Z; pc_up : bool }.

Record ConnectionPoolConfig := mkPoolConfig {
  max_connections : Z;
  min_idle : Z;
  max_idle : Z;
  idle_timeout_ms : Z;
  pool_connect_timeout_ms : Z;
  enable_health_check : bool;
  health_check_interval_ms : Z;
}.

(** The defaults with other limits; nothing reads the remaining fields. *)
Definition limits (max_connections max_idle : Z) : ConnectionPoolConfig :=
  mkPoolConfig max_connections 10 max_idle 60000 5000 true 30000.

Definition default_pool_config : ConnectionPoolConfig := limits 1000 100.

Record ConnectionPool := mkPool {
  pool_config_ : ConnectionPoolConfig;
  idle_connections_ : list pconn;
  total_connections_ : Z;
  active_connections_ : Z;
}.

Definition ConnectionPool_new (config : ConnectionPoolConfig) : ConnectionPool := mkPool config [] 0 0.

(** [while (!idle_connections_.empty())]: the live connection found, the rest of
    the deque and [total_connections_]. *)
Fixpoint pop_live (l : list pconn) (total : Z) : option pconn * list pconn * Z :=
  match l with
  | [] => (None, [], total)
  | c :: l => if pc_up c then (Some c, l, total) else pop_live l (u64 (total - 1))
  end.

Inductive acquire_result :=
| Acquired (c : pconn)
| MayCreate           (* below the limit: the lock is released *)
| MustWait.           (* cv_.wait *)

(** [acquire] up to the point where it returns, unlocks or waits. *)
Definition acquire_locked (p : ConnectionPool) : acquire_result * ConnectionPool :=
  let '(found, idle, total) := pop_live (idle_connections_ p) (total_connections_ p) in
  match found with
  | Some c => (Acquired c, mkPool (pool_config_ p) idle total (u64 (active_connections_ p + 1)))
  | None =>
      let p := mkPool (pool_config_ p) idle total (active_connections_ p) in
      if total <? max_connections (pool_config_ p) then (MayCreate, p) else (MustWait, p)
  end.

(** [create_connection]: [fd] is the result of [socket()]; the socket is never
    connected, [Connection::create] marks any descriptor as connected. *)
Definition create_connection (fd : Z) : option pconn :=
  if fd <? 0 then None else Some (mkPconn fd true).

(** [active_connections_.fetch_add(1)] and [total_connections_.fetch_add(1)]. *)
Definition count_active (p : ConnectionPool) : ConnectionPool :=
  mkPool (pool_config_ p) (idle_connections_ p) (total_connections_ p) (u64 (active_connections_ p + 1)).
Definition count_total (p : ConnectionPool) : ConnectionPool :=
  mkPool (pool_config_ p) (idle_connections_ p) (u64 (total_connections_ p + 1)) (active_connections_ p).

(** The rest of [acquire] after the unlock, without other threads in between. *)
Definition acquire_create (fd : Z) (p : ConnectionPool) : option pconn * ConnectionPool :=
  match create_connection fd with
  | Some c => (Some c, count_total (count_active p))
  | None => (None, p)
  end.

(** The predicate of [cv_.wait]. *)
Definition may_proceed (p : ConnectionPool) : bool :=
  negb (bool_decide (idle_connections_ p = [])) ||
  (total_connections_ p <? max_connections (pool_config_ p)).

(** [release(conn)]; the flags tell whether [notify_one] and [conn->close()]
    were called. *)
Definition pool_release (c : pconn) (p : ConnectionPool) : bool * bool * ConnectionPool :=
  let active := u64 (active_connections_ p - 1) in
  if pc_up c && (zlen (idle_connections_ p) <? max_idle (pool_config_ p))
  then (true, false, mkPool (pool_config_ p) (c :: idle_connections_ p) (total_connections_ p) active)
  else (false, true, mkPool (pool_config_ p) (idle_connections_ p)
                       (u64 (total_connections_ p - 1)) active).

(** [shutdown()], also the destructor: the connections [close()] acts on, and the pool. *)
Definition pool_shutdown (p : ConnectionPool) : list pconn * ConnectionPool :=
  (filter (fun c => pc_up c = true) (idle_connections_ p), mkPool (pool_config_ p) [] 0 0).

Definition total (p : ConnectionPool) : Z := total_connections_ p.
Definition active (p : ConnectionPool) : Z := active_connections_ p.
Definition idle (p : ConnectionPool) : Z := zlen (idle_connections_ p).

(** ** ConnectionGuard *)

(** [pool_] set or null, [conn_].  The class declares a destructor and no copy
    operations, so a copy duplicates both pointers. *)
Record ConnectionGuard := mkGuard { g_pool : bool; g_conn : option pconn }.

(** The constructor on a pool whose [acquire] returned [conn]. *)
Definition ConnectionGuard_new (pool : bool) (conn : option pconn) : ConnectionGuard :=
  mkGuard pool (if pool then conn else None).

Definition ConnectionGuard_drop (g : ConnectionGuard) (p : ConnectionPool) : ConnectionPool :=
  match g_pool g, g_conn g with
  | true, Some c => (pool_release c p).2
  | _, _ => p
  end.

(** ** Pool manager *)

Record PoolManager := mkManager {
  pools_ : gmap (list Z) nat;        (* shared_ptr: an index into the store *)
  store : list ConnectionPool;
}.

Definition pool_key (host : list Z) (port : Z) : list Z :=
  host ++ bytes_of_string ":" ++ bytes_of_string (pretty.pretty port).

Definition get_pool (host : list Z) (port : Z) (config : ConnectionPoolConfig) (m : PoolManager)
  : nat * PoolManager :=
  match pools_ m !! pool_key host port with
  | Some i => (i, m)
  | None =>
      let i := length (store m) in
      (i, mkManager (<[pool_key host port := i]> (pools_ m)) (store m ++ [ConnectionPool_new config]))
  end.

(** [pool->shutdown()] on the pool [i] of the store; the connections closed so far
    come first. *)
Definition shutdown_at (i : nat) (st : list pconn * list ConnectionPool) : list pconn * list ConnectionPool :=
  match st.2 !! i with
  | Some p => let '(cs, p) := pool_shutdown p in (st.1 ++ cs, <[i := p]> st.2)
  | None => st
  end.

Definition remove_pool (host : list Z) (port : Z) (m : PoolManager) : list pconn * PoolManager :=
  match pools_ m !! pool_key host port with
  | Some i =>
      let '(cs, st) := shutdown_at i ([], store m) in
      (cs, mkManager (delete (pool_key host port) (pools_ m)) st)
  | None => ([], m)
  end.

Definition shutdown_all (m : PoolManager) : list pconn * PoolManager :=
  let '(cs, st) := foldr shutdown_at ([], store m) ((map_to_list (pools_ m)).*2) in
  (cs, mkManager ∅ st).

(** ** Threads *)

(** The pool with its threads.  A critical section is one step; after the unlock
    a thread of [acquire] creates its connection ([creating]), counts it as active
    ([uncounted]), counts it in the total ([half]) and returns it ([handed]), each
    a step of its own.  [waiting]: threads blocked in [cv_.wait], [woken] by
    [notify_one]. *)
Record sys := mkSys {
  the_pool : ConnectionPool;
  creating : nat;
  uncounted : list pconn;
  half : list pconn;
  waiting : nat;
  woken : nat;
  handed : list pconn;
}.

Definition sys_new (config : ConnectionPoolConfig) : sys := mkSys (ConnectionPool_new config) 0 [] [] 0 0 [].

Inductive pool_step : sys -> sys -> Prop :=
| step_acquired s c p : acquire_locked (the_pool s) = (Acquired c, p) ->
    pool_step s (mkSys p (creating s) (uncounted s) (half s) (waiting s) (woken s) (c :: handed s))
| step_may_create s p : acquire_locked (the_pool s) = (MayCreate, p) ->
    pool_step s (mkSys p (S (creating s)) (uncounted s) (half s) (waiting s) (woken s) (handed s))
| step_create_fails s n fd : creating s = S n -> create_connection fd = None ->
    pool_step s (mkSys (the_pool s) n (uncounted s) (half s) (waiting s) (woken s) (handed s))
| step_create s n fd c : creating s = S n -> create_connection fd = Some c ->
    pool_step s (mkSys (the_pool s) n (c :: uncounted s) (half s) (waiting s) (woken s) (handed s))
| step_count_active s c l1 l2 : uncounted s = l1 ++ c :: l2 ->
    pool_step s (mkSys (count_active (the_pool s)) (creating s) (l1 ++ l2) (c :: half s) (waiting s) (woken s) (handed s))
| step_count_total s c l1 l2 : half s = l1 ++ c :: l2 ->
    pool_step s (mkSys (count_total (the_pool s)) (creating s) (uncounted s) (l1 ++ l2) (waiting s) (woken s) (c :: handed s))
| step_must_wait s p : acquire_locked (the_pool s) = (MustWait, p) ->
    pool_step s (mkSys p (creating s) (uncounted s) (half s) (S (waiting s)) (woken s) (handed s))
| step_woken s n : woken s = S n -> may_proceed (the_pool s) = true ->
    pool_step s (mkSys (the_pool s) (creating s) (uncounted s) (half s) (waiting s) n (handed s))
| step_sleep_again s n : woken s = S n -> may_proceed (the_pool s) = false ->
    pool_step s (mkSys (the_pool s) (creating s) (uncounted s) (half s) (S (waiting s)) n (handed s))
| step_release s c c' l1 l2 closed p : handed s = l1 ++ c :: l2 -> pc_fd c' = pc_fd c ->
    pool_release c' (the_pool s) = (false, closed, p) ->
    pool_step s (mkSys p (creating s) (uncounted s) (half s) (waiting s) (woken s) (l1 ++ l2))
| step_release_notify s c c' l1 l2 closed p : handed s = l1 ++ c :: l2 -> pc_fd c' = pc_fd c ->
    pool_release c' (the_pool s) = (true, closed, p) ->
    pool_step s (mkSys p (creating s) (uncounted s) (half s) (pred (waiting s))
                   (match waiting s with O => woken s | S _ => S (woken s) end) (l1 ++ l2)).

(** The connections of the pool, counted or half counted. *)
Definition known (s : sys) : Z := zlen (handed s) + zlen (half s) + zlen (idle_connections_ (the_pool s)).

Inductive pool_reach (config : ConnectionPoolConfig) : sys -> Prop :=
| pool_reach_new : pool_reach config (sys_new config)
| pool_reach_step s s' : pool_reach config s -> pool_step s s' ->
    known s' < 2 ^ 64 -> pool_reach config s'.

(** ** Counting *)

Lemma pop_live_spec l k total :
  total = zlen l + k -> 0 <= k -> total < 2 ^ 64 ->
  match pop_live l total with
  | (Some c, l', t) => t = zlen l' + k + 1 /\ zlen l' < zlen l /\ pc_up c = true
  | (None, l', t) => l' = [] /\ t = k
  end.
Proof.
  revert total. induction l as [|c l IH]; intros total Ht Hk Hb; simpl in *; [split; [done|lia]|].
  destruct (pc_up c) eqn:Ec; [split_and!; [lia..|done]|].
  rewrite wrap_small by (unfold is_u; lia). specialize (IH (total - 1)).
  destruct (pop_live l (total - 1)) as [[[c'|] l'] t]; destruct IH; try lia; split_and!; lia || tauto.
Qed.

Definition pool_inv (config : ConnectionPoolConfig) (s : sys) : Prop :=
  pool_config_ (the_pool s) = config /\
  total_connections_ (the_pool s) = zlen (idle_connections_ (the_pool s)) + zlen (handed s) /\
  active_connections_ (the_pool s) = zlen (handed s) + zlen (half s).

(** What the three critical sections do to the counters. *)
Lemma acquire_locked_counts p h k :
  total_connections_ p = zlen (idle_connections_ p) + h -> active_connections_ p = k -> 0 <= h -> 0 <= k ->
  total_connections_ p < 2 ^ 64 ->
  let '(r, p') := acquire_locked p in
  let d := match r with Acquired _ => 1 | _ => 0 end in
  pool_config_ p' = pool_config_ p /\
  total_connections_ p' = zlen (idle_connections_ p') + (h + d) /\
  (k + d < 2 ^ 64 -> active_connections_ p' = k + d) /\
  (r = MayCreate -> total_connections_ p' < max_connections (pool_config_ p)) /\
  (r = MustWait -> max_connections (pool_config_ p) <= total_connections_ p').
Proof.
  intros Ht Ha Hh Hk Hb. unfold acquire_locked. pose proof (pop_live_spec _ h _ Ht Hh Hb) as Hp.
  destruct (pop_live (idle_connections_ p) (total_connections_ p)) as [[[c|] l'] t].
  - simpl. destruct Hp as (-> & _ & _). split_and!; try done; [lia|].
    intros. rewrite Ha, wrap_small; [done|unfold is_u; lia].
  - destruct Hp as [-> ->]. cbn [pool_config_].
    destruct (Z.ltb_spec h (max_connections (pool_config_ p))); simpl; split_and!; done || lia.
Qed.

Lemma pool_step_inv config s s' :
  pool_inv config s -> pool_step s s' -> known s < 2 ^ 64 -> known s' < 2 ^ 64 -> pool_inv config s'.
Proof.
  intros (Hc & Ht & Ha) Hstep Hb Hb'. unfold known in *.
  pose proof (acquire_locked_counts (the_pool s) (zlen (handed s)) (zlen (handed s) + zlen (half s)) Ht Ha) as Hl.
  unfold pool_inv.
  destruct Hstep as [s c p E|s p E|s n fd _ E|s n fd c _ E|s c l1 l2 Eu|s c l1 l2 Eu|s p E|s n|s n
                    |s c c' l1 l2 cl p Eh _ E|s c c' l1 l2 cl p Eh _ E]; simpl in *; try done.
  1, 2, 5: rewrite E in Hl; destruct Hl as (-> & -> & Hact & _); [lia..|]; rewrite Hact by lia; split_and!; [done|lia..].
  1: rewrite wrap_small by (unfold is_u; lia); split_and!; [done|lia..].
  1: rewrite Eu, length_app in *; simpl in *; rewrite ?length_app, wrap_small by (unfold is_u; rewrite ?length_app in *; lia);
    split_and!; [done|rewrite ?length_app in *; lia..].
  all: unfold pool_release in E; destruct (_ && _); [|try done]; try done; injection E as _ <-; simpl in *;
    rewrite Eh, !length_app in *; simpl in *; rewrite !wrap_small by (unfold is_u; lia); split_and!; [done|lia..].
Qed.

(** C18: the pool's counters are right.  However the critical sections of
    acquisitions and releases of any number of threads and the two increments a
    creating thread makes outside the lock interleave (connections going down
    while handed out), as long as the pool is not shut down, [total()] is the
    number of connections handed out plus the idle ones, and [active()] that of
    the connections handed out plus those between their two increments; so both
    are exact whenever no thread is between them. *)
Theorem pool_counters config s :
  pool_reach config s ->
  total_connections_ (the_pool s) = zlen (idle_connections_ (the_pool s)) + zlen (handed s) /\
  active_connections_ (the_pool s) = zlen (handed s) + zlen (half s) /\
  (half s = [] -> active_connections_ (the_pool s) = zlen (handed s)).
Proof.
  intros Hr. assert (pool_inv config s /\ known s < 2 ^ 64) as [(_ & Ht & Ha) _].
  { induction Hr as [|s s' _ [IH Hb] Hst Hb']; [by split|]. split; [|done]. by eapply pool_step_inv. }
  split_and!; [done..|]. intros E. rewrite Ha, E. simpl. lia.
Qed.

(** The limit is checked and counted in two critical sections: with a limit of
    one connection, [n] threads that pass the check before any of them creates
    take the pool to [n] connections, for every [n]. *)
Theorem pool_exceeds_limit idle_limit n :
  Z.of_nat n < 2 ^ 64 ->
  exists s, pool_reach (limits 1 idle_limit) s /\ total_connections_ (the_pool s) = Z.of_nat n /\
    zlen (handed s) = Z.of_nat n.
Proof.
  intros Hn. set (config := limits 1 idle_limit). set (c := mkPconn 3 true).
  assert (H1 : forall k, pool_reach config (mkSys (ConnectionPool_new config) k [] [] 0 0 [])).
  { induction k as [|k IH]; [constructor|]. eapply pool_reach_step; [exact IH| |unfold known; simpl; lia].
    by apply (step_may_create (mkSys (ConnectionPool_new config) k [] [] 0 0 [])). }
  set (at_ m k := mkSys (mkPool config [] (Z.of_nat m) (Z.of_nat m)) k [] [] 0 0 (replicate m c)).
  assert (H2 : forall m k, Z.of_nat m < 2 ^ 64 -> pool_reach config (at_ m k)).
  { induction m as [|m IH]; intros k Hm; [apply H1|].
    pose proof (IH (S k) ltac:(lia)) as Hr.
    assert (Hlen : zlen (replicate m c) = Z.of_nat m) by (by rewrite length_replicate).
    eapply pool_reach_step in Hr; [|by apply (step_create (at_ m (S k)) k 3 c)|unfold known; simpl; lia].
    eapply pool_reach_step in Hr; [|by apply (step_count_active _ c [] [])|unfold known; simpl; lia].
    eapply pool_reach_step in Hr; [|by apply (step_count_total _ c [] [])|unfold known; simpl; lia].
    unfold count_total, count_active, at_ in *. simpl in *. rewrite !wrap_small in Hr by (unfold is_u; lia).
    by rewrite !Nat2Z.inj_succ. }
  eexists. split; [exact (H2 n 0%nat Hn)|]. simpl. by rewrite length_replicate.
Qed.

(** A release that closes its connection frees capacity without waking
    anyone: [notify_one] is called only when the connection goes back to the idle
    list, so a thread blocked in [acquire] sleeps on although the predicate it
    waits for has become true. *)
Theorem release_loses_wakeup config c p :
  pool_config_ p = config -> pc_up c = false -> idle_connections_ p = [] ->
  0 < total_connections_ p <= max_connections config -> max_connections config < 2 ^ 64 ->
  let '(notified, closed, p') := pool_release c p in
  notified = false /\ closed = true /\ may_proceed p' = true.
Proof.
  intros Hc Hu Hi Ht Hm. unfold pool_release. rewrite Hu. simpl. split_and!; [done..|].
  unfold may_proceed. simpl. rewrite Hi, Hc, wrap_small by (unfold is_u; lia).
  rewrite (proj2 (Z.ltb_lt _ _)) by lia. by rewrite orb_true_r.
Qed.

(** [shutdown] forgets the connections handed out: releasing one afterwards
    wraps [active()] to [SIZE_MAX], and when it is down also [total()], after
    which every [acquire] waits. *)
Theorem release_after_shutdown_wraps c p :
  pc_up c = false -> max_connections (pool_config_ p) < 2 ^ 64 ->
  let p' := (pool_release c (pool_shutdown p).2).2 in
  active_connections_ p' = 2 ^ 64 - 1 /\ total_connections_ p' = 2 ^ 64 - 1 /\
  (acquire_locked p').1 = MustWait.
Proof.
  intros Hu Hm. unfold pool_release. rewrite Hu. cbn [andb fst snd]. split_and!; [done..|].
  unfold pool_shutdown, acquire_locked. cbn [snd idle_connections_ total_connections_ pop_live pool_config_].
  cbn [pool_config_]. rewrite (proj2 (Z.ltb_ge _ _)); [done|]. change (wrap 64 (0 - 1)) with (2 ^ 64 - 1). lia.
Qed.

(** What [shutdown_at] does to one pool of the store, and to the others. *)
Lemma shutdown_at_lookup i st j :
  (shutdown_at i st).2 !! j = if decide (i = j) then snd ∘ pool_shutdown <$> st.2 !! j else st.2 !! j.
Proof.
  unfold shutdown_at. destruct (st.2 !! i) as [p|] eqn:E; simpl; case_decide; subst; rewrite ?E; simpl; try done.
  - apply list_lookup_insert_eq. by apply lookup_lt_is_Some_1.
  - by apply list_lookup_insert_ne.
Qed.

Lemma shutdown_list_lookup js st i :
  (foldr shutdown_at st js).2 !! i = if decide (i ∈ js) then snd ∘ pool_shutdown <$> st.2 !! i else st.2 !! i.
Proof.
  induction js as [|j js IH]; [done|]. cbn [foldr]. rewrite shutdown_at_lookup, IH.
  rewrite (decide_ext (i ∈ j :: js) (j = i \/ i ∈ js)) by (rewrite elem_of_cons; intuition congruence).
  destruct (decide (j = i)), (decide (i ∈ js)); rewrite ?decide_True, ?decide_False by tauto; try done.
  by destruct (st.2 !! i).
Qed.

(** [shutdown_all] leaves every pool the manager knew empty with zero counters,
    keeps the pools it no longer knew, and forgets all of them: the next
    [get_pool] for any address makes a new pool. *)
Theorem shutdown_all_resets m host port config :
  let '(_, m') := shutdown_all m in
  (forall k i p, pools_ m !! k = Some i -> store m !! i = Some p ->
     store m' !! i = Some (mkPool (pool_config_ p) [] 0 0)) /\
  (forall i, (forall k, pools_ m !! k <> Some i) -> store m' !! i = store m !! i) /\
  (get_pool host port config m').1 = length (store m').
Proof.
  unfold shutdown_all. destruct (foldr shutdown_at ([], store m) _) as [cs st] eqn:E.
  assert (Hs : forall i, st !! i = if decide (i ∈ (map_to_list (pools_ m)).*2)
                                   then snd ∘ pool_shutdown <$> store m !! i else store m !! i).
  { intros i. change st with (cs, st).2. rewrite <- E. apply shutdown_list_lookup. }
  split_and!; cbn [store pools_].
  - intros k i p Hk Hp. rewrite Hs, Hp, decide_True; [done|].
    apply list_elem_of_fmap. exists (k, i). split; [done|]. by apply elem_of_map_to_list.
  - intros i Hi. rewrite Hs, decide_False; [done|]. intros ([k j] & -> & Hkj)%list_elem_of_fmap.
    apply elem_of_map_to_list in Hkj. by apply (Hi k).
  - unfold get_pool. cbn [pools_]. by rewrite lookup_empty.
Qed.

(** A copied guard returns its connection twice: with room for both on the idle
    list, the pool then lends that connection to two callers at the same time. *)
Theorem copied_guard_shares_connection c p :
  pc_up c = true -> zlen (idle_connections_ p) + 1 < max_idle (pool_config_ p) ->
  let g := ConnectionGuard_new true (Some c) in
  let p' := ConnectionGuard_drop g (ConnectionGuard_drop g p) in
  exists p1 p2, acquire_locked p' = (Acquired c, p1) /\ acquire_locked p1 = (Acquired c, p2) /\
    idle_connections_ p2 = idle_connections_ p.
Proof.
  intros Hu Hi. unfold ConnectionGuard_drop. simpl. unfold pool_release. rewrite Hu.
  rewrite (proj2 (Z.ltb_lt (zlen (idle_connections_ p)) _)) by lia. simpl.
  rewrite (proj2 (Z.ltb_lt _ _)) by lia. unfold acquire_locked. simpl. rewrite Hu.
  eexists _, _. split; [reflexivity|]. simpl. rewrite Hu. done.
Qed.

(** ** Witnesses *)

(** One connection handed out, another one between its increments. *)
Definition two_creating : sys :=
  mkSys (ConnectionPool_new (limits 2 1)) 0 [mkPconn 3 true; mkPconn 4 true] [] 0 0 [].

Lemma two_creating_reached : pool_reach (limits 2 1) two_creating.
Proof.
  set (p := ConnectionPool_new (limits 2 1)).
  apply (pool_reach_step _ (mkSys p 1 [mkPconn 4 true] [] 0 0 [])); [|by apply (step_create (mkSys p 1 [mkPconn 4 true] [] 0 0 []) 0 3)|by vm_compute].
  apply (pool_reach_step _ (mkSys p 2 [] [] 0 0 [])); [|by apply (step_create (mkSys p 2 [] [] 0 0 []) 1 4)|by vm_compute].
  apply (pool_reach_step _ (mkSys p 1 [] [] 0 0 [])); [|by apply (step_may_create (mkSys p 1 [] [] 0 0 []))|by vm_compute].
  apply (pool_reach_step _ (sys_new (limits 2 1))); [constructor|by apply (step_may_create (sys_new (limits 2 1)))|by vm_compute].
Qed.

Lemma pool_counters_witness :
  let s := mkSys (mkPool (limits 2 1) [] 1 2) 0 [] [mkPconn 4 true] 0 0 [mkPconn 3 true] in
  total_connections_ (the_pool s) = 1 /\ active_connections_ (the_pool s) = 2.
Proof.
  set (s := mkSys _ _ _ _ _ _ _). assert (Hr : pool_reach (limits 2 1) s).
  { apply (pool_reach_step _ (mkSys (mkPool (limits 2 1) [] 0 2) 0 [] [mkPconn 4 true; mkPconn 3 true] 0 0 []));
      [|by apply (step_count_total (mkSys (mkPool (limits 2 1) [] 0 2) 0 [] [mkPconn 4 true; mkPconn 3 true] 0 0 []) (mkPconn 3 true) [mkPconn 4 true] [])|by vm_compute].
    apply (pool_reach_step _ (mkSys (mkPool (limits 2 1) [] 0 1) 0 [mkPconn 4 true] [mkPconn 3 true] 0 0 []));
      [|by apply (step_count_active (mkSys (mkPool (limits 2 1) [] 0 1) 0 [mkPconn 4 true] [mkPconn 3 true] 0 0 []) (mkPconn 4 true) [] [])|by vm_compute].
    apply (pool_reach_step _ two_creating); [apply two_creating_reached| |by vm_compute].
    by apply (step_count_active two_creating (mkPconn 3 true) [] [mkPconn 4 true]). }
  destruct (pool_counters (limits 2 1) s Hr) as (Ht & Ha & _). by split.
Defined.

Lemma pool_exceeds_limit_witness :
  exists s, pool_reach (limits 1 10) s /\ total_connections_ (the_pool s) = 5 /\ zlen (handed s) = 5.
Proof. apply (pool_exceeds_limit 10 5). lia. Defined.

Lemma release_loses_wakeup_witness :
  let '(notified, closed, p') :=
    pool_release (mkPconn 3 false) (mkPool (limits 1 10) [] 1 1) in
  notified = false /\ closed = true /\ may_proceed p' = true.
Proof.
  apply (release_loses_wakeup (limits 1 10) (mkPconn 3 false) (mkPool (limits 1 10) [] 1 1));
    simpl; done || lia.
Defined.

Lemma release_after_shutdown_wraps_witness :
  let p' := (pool_release (mkPconn 3 false) (pool_shutdown (mkPool (limits 1 10) [] 1 1)).2).2 in
  active_connections_ p' = 2 ^ 64 - 1 /\ total_connections_ p' = 2 ^ 64 - 1 /\
  (acquire_locked p').1 = MustWait.
Proof.
  apply (release_after_shutdown_wraps (mkPconn 3 false) (mkPool (limits 1 10) [] 1 1)); simpl; done || lia.
Defined.

Lemma copied_guard_shares_connection_witness :
  let c := mkPconn 3 true in
  let g := ConnectionGuard_new true (Some c) in
  let p' := ConnectionGuard_drop g (ConnectionGuard_drop g (mkPool (limits 1 10) [] 1 1)) in
  exists p1 p2, acquire_locked p' = (Acquired c, p1) /\ acquire_locked p1 = (Acquired c, p2) /\
    idle_connections_ p2 = [].
Proof. apply (copied_guard_shares_connection (mkPconn 3 true) (mkPool (limits 1 10) [] 1 1)); simpl; done || lia. Defined.
