(* ===== verification/IoUring.v ===== *)
(** * io/io_uring.hpp and io/async_io.hpp: submissions, completions, awaiters

    The kernel's queues are lists: [sq] holds the prepared entries, [inflight]
    the submitted ones, [cq] the completions not yet seen.  [callbacks_] is the
    vector of 65536 slots.  A callback is any value of [CB]; [invoke] runs it
    with the result and may use the ring again and change the program's state
    [W]. *)

From Stdlib Require Import ZArith Lia.
From S2P Require Import Prelude.

(** The operations [prepare_*] encode in an SQE. *)
Inductive io_op :=
| OpRead (fd size offset : Z)
| OpWrite (fd : Z) (data : list Z) (offset : Z)
| OpRecv (fd size flags : Z)
| OpSend (fd : Z) (data : list Z) (flags : Z)
| OpAccept (fd flags : Z)
| OpConnect (fd addr : Z)
| OpTimeout (sec nsec count : Z)
| OpLinkTimeout (sec nsec : Z)
| OpAsyncCancel (user_data : Z)
| OpMsgRing (target_fd msg : Z)
| OpNop.

Record sqe := mkSqe { sqe_op : io_op; sqe_user_data : Z; sqe_flags : Z }.
Record cqe := mkCqe { cqe_user_data : Z; cqe_res : Z; cqe_flags : Z }.

Record IoUring (CB : Type) := mkRing {
  queue_depth : Z;
  sq : list sqe;
  inflight : list sqe;
  cq : list cqe;
  callbacks_ : gmap Z CB;
  next_callback_id_ : Z;
  running_ : bool;
}.
Arguments mkRing {CB}.
Arguments queue_depth {CB}.
Arguments sq {CB}.
Arguments inflight {CB}.
Arguments cq {CB}.
Arguments callbacks_ {CB}.
Arguments next_callback_id_ {CB}.
Arguments running_ {CB}.

Definition kMaxCallbacks : Z := 65536.

Inductive IoUringError :=
| SetupFailed | QueueFull | SubmitFailed | InvalidParameter | Overflow | Timeout | Cancelled.

Record IoUringConfig := mkUringConfig {
  cfg_queue_depth : Z;
  sq_thread_cpu : Z;
  sq_thread_idle : Z;
  sq_poll : bool;
  iopoll : bool;
  fixed_files : bool;
  fixed_files_count : Z;
  setup_coop_taskrun : bool;
}.

Definition default_config (depth : Z) : IoUringConfig := mkUringConfig depth 0 2000 false false false 0 false.

(** [io_uring_params] as [setup] fills it. *)
Record uring_params := mkParams { p_flags : Z; p_thread_cpu : Z; p_thread_idle : Z }.

Definition IORING_SETUP_IOPOLL : Z := 1.
Definition IORING_SETUP_SQPOLL : Z := 2.
Definition IORING_SETUP_COOP_TASKRUN : Z := 256.

Definition setup_params (c : IoUringConfig) : uring_params :=
  let p := mkParams 0 0 0 in
  let p := if sq_poll c then mkParams (Z.lor (p_flags p) IORING_SETUP_SQPOLL) (sq_thread_cpu c) (sq_thread_idle c)
           else p in
  let p := if iopoll c then mkParams (Z.lor (p_flags p) IORING_SETUP_IOPOLL) (p_thread_cpu p) (p_thread_idle p)
           else p in
  if setup_coop_taskrun c
  then mkParams (Z.lor (p_flags p) IORING_SETUP_COOP_TASKRUN) (p_thread_cpu p) (p_thread_idle p) else p.

Section Ring.
Context {CB : Type}.
Implicit Types (r : IoUring CB) (cb : CB).

(** The constructor; [queue_init] is [io_uring_queue_init_params], given the
    depth and the parameters. *)
Definition IoUring_new (queue_init : Z -> uring_params -> Z) (c : IoUringConfig) : outcome (IoUring CB) :=
  if queue_init (cfg_queue_depth c) (setup_params c) <? 0 then Throw "io_uring_queue_init_params failed"
  else Ret (mkRing (cfg_queue_depth c) [] [] [] ∅ 1 true).

Definition shutdown r : IoUring CB :=
  mkRing (queue_depth r) (sq r) (inflight r) (cq r) (callbacks_ r) (next_callback_id_ r) false.

(** The move constructor: the new ring, and what is left in the old one.  The
    callback slots and the id counter are not in the initialiser list, so the new
    object has fresh ones. *)
Definition IoUring_move r : IoUring CB * IoUring CB :=
  (mkRing (queue_depth r) (sq r) (inflight r) (cq r) ∅ 1 (running_ r),
   mkRing (queue_depth r) [] [] [] (callbacks_ r) (next_callback_id_ r) false).

(** Move assignment of [other] to [r], a different object: both after it. *)
Definition IoUring_move_assign other r : IoUring CB * IoUring CB :=
  let r := shutdown r in
  (mkRing (queue_depth other) (sq other) (inflight other) (cq other) (callbacks_ r) (next_callback_id_ r)
     (running_ other),
   mkRing (queue_depth other) [] [] [] (callbacks_ other) (next_callback_id_ other) false).

(** [io_uring_sq_space_left] and [io_uring_cq_ready]. *)
Definition available_sqe r : Z := queue_depth r - zlen (sq r).
Definition pending_cqe r : Z := zlen (cq r).

(** [io_uring_get_sqe] has a free entry. *)
Definition sqe_free r : bool := zlen (sq r) <? queue_depth r.

(** [set_callback]: the user data given to the entry, and the ring. *)
Definition set_callback cb r : Z * IoUring CB :=
  let id := next_callback_id_ r mod kMaxCallbacks in
  (id, mkRing (queue_depth r) (sq r) (inflight r) (cq r) (<[id := cb]> (callbacks_ r))
         (u64 (next_callback_id_ r + 1)) (running_ r)).

Definition push_sqe (e : sqe) r : IoUring CB :=
  mkRing (queue_depth r) (sq r ++ [e]) (inflight r) (cq r) (callbacks_ r) (next_callback_id_ r) (running_ r).

(** The common body of the [prepare_*] functions. *)
Definition prepare (op : io_op) (flags : Z) cb r : outcome (Z * IoUring CB) :=
  if sqe_free r then
    let '(id, r) := set_callback cb r in
    Ret (id, push_sqe (mkSqe op id flags) r)
  else Throw "SQE queue is full".

Definition prepare_read fd size offset cb r := prepare (OpRead fd size offset) 0 cb r.
Definition prepare_write fd data offset cb r := prepare (OpWrite fd data offset) 0 cb r.
Definition prepare_recv fd size flags cb r := prepare (OpRecv fd size flags) 0 cb r.
Definition prepare_send fd data flags cb r := prepare (OpSend fd data flags) 0 cb r.
Definition prepare_accept fd flags cb r := prepare (OpAccept fd flags) 0 cb r.
Definition prepare_connect fd addr cb r := prepare (OpConnect fd addr) 0 cb r.
Definition prepare_timeout sec nsec count cb flags r := prepare (OpTimeout sec nsec count) flags cb r.
Definition prepare_link_timeout sec nsec cb r := prepare (OpLinkTimeout sec nsec) 0 cb r.
Definition prepare_async_cancel user_data cb r := prepare (OpAsyncCancel user_data) 0 cb r.
Definition prepare_msg_ring target msg cb r := prepare (OpMsgRing target msg) 0 cb r.
Definition prepare_nop cb r := prepare OpNop 0 cb r.

(** [submit]: [err] is a negative result of [io_uring_submit], if it fails. *)
Definition submit (err : option Z) r : outcome (Z * IoUring CB) :=
  match err with
  | Some _ => Throw "io_uring_submit failed"
  | None => Ret (zlen (sq r), mkRing (queue_depth r) [] (inflight r ++ sq r) (cq r) (callbacks_ r)
                                (next_callback_id_ r) (running_ r))
  end.

(** [submit_and_wait]: as [submit]; the wait ends when the kernel has completed
    [wait_nr] operations, which [complete] steps describe. *)
Definition submit_and_wait (err : option Z) (wait_nr : Z) r : outcome (Z * IoUring CB) :=
  match err with
  | Some _ => Throw "io_uring_submit_and_wait failed"
  | None => submit None r
  end.

(** The kernel completes the [i]-th operation in flight. *)
Definition complete (i : nat) (res flags : Z) r : IoUring CB :=
  match inflight r !! i with
  | Some e => mkRing (queue_depth r) (sq r) (delete i (inflight r))
                (cq r ++ [mkCqe (sqe_user_data e) res flags]) (callbacks_ r) (next_callback_id_ r) (running_ r)
  | None => r
  end.

(** [get_callback]: [None] is the null pointer, otherwise the slot, which holds
    an empty [std::function] if nothing was stored in it. *)
Definition get_callback (c : cqe) r : option (option CB) :=
  if (cqe_user_data c =? 0) || (kMaxCallbacks <=? cqe_user_data c) then None
  else Some (callbacks_ r !! cqe_user_data c).

Definition cqe_seen r : IoUring CB :=
  mkRing (queue_depth r) (sq r) (inflight r) (tail (cq r)) (callbacks_ r) (next_callback_id_ r) (running_ r).

Definition peek_next_callback_id r : Z := next_callback_id_ r.

Definition peek_cqe r : option cqe := head (cq r).
Definition peek_batch_cqe (count : Z) r : list cqe := take (Z.to_nat count) (cq r).

Section Process.
Context {W : Type} (invoke : CB -> Z -> Z -> IoUring CB * W -> outcome (IoUring CB * W)).
Implicit Types (s : IoUring CB * W).

Definition seen s : IoUring CB * W := (cqe_seen s.1, s.2).

(** [process_cqe]; an empty slot ([std::function] without target) throws. *)
Definition process_cqe (c : cqe) s : outcome (IoUring CB * W) :=
  match get_callback c s.1 with
  | None => Ret (seen s)
  | Some None => Throw "std::bad_function_call"
  | Some (Some cb) => let* s := invoke cb (cqe_res c) (cqe_flags c) s in Ret (seen s)
  end.

(** [process_all_cqe]: [None] is an exhausted [fuel]. *)
Fixpoint process_all_loop (fuel : nat) (processed : Z) s : outcome (option (Z * (IoUring CB * W))) :=
  match fuel with
  | O => Ret None
  | S fuel =>
      match cq s.1 with
      | [] => Ret (Some (processed, s))
      | c :: _ => let* s := process_cqe c s in process_all_loop fuel (u32 (processed + 1)) s
      end
  end.

Definition process_all_cqe (fuel : nat) s := process_all_loop fuel 0 s.

(** The timeout [run_once] submits first, an SQE without callback; [err] is a
    failure of the submission. *)
Definition submit_wait_timeout (err : option Z) (timeout_ms : Z) r : outcome (IoUring CB) :=
  if (0 <=? timeout_ms) && sqe_free r then
    let* p := submit err (push_sqe
                (mkSqe (OpTimeout (Z.quot timeout_ms 1000) (Z.rem timeout_ms 1000 * 1000000) 1) 0 0) r) in
    Ret p.2
  else Ret r.

(** [run_once] from [wait_cqe] on.  The wait ends with the first completion, or
    with an empty [cq] when a signal interrupts it. *)
Definition after_wait (fuel : nat) s : outcome (option (Z * (IoUring CB * W))) :=
  let* s :=
    match cq s.1 with
    | [] => Ret s
    | c :: _ => if negb (cqe_user_data c =? 0) then process_cqe c s else Ret (seen s)
    end in
  let* p := process_all_cqe fuel s in
  match p with
  | Some (n, s) => Ret (Some (u32 (1 + n), s))
  | None => Ret None
  end.

(** [run_once(timeout_ms)] when its wait does not block: a completion is there,
    or a signal interrupts it. *)
Definition run_once (fuel : nat) (err : option Z) (timeout_ms : Z) s : outcome (option (Z * (IoUring CB * W))) :=
  let* r := submit_wait_timeout err timeout_ms s.1 in after_wait fuel (r, s.2).
End Process.

(** The ring in which [run_once] waits, once the kernel has its timeout. *)
Definition waiting_ring (timeout_ms : Z) r : IoUring CB :=
  match submit_wait_timeout None timeout_ms r with Ret r => r | _ => r end.

Lemma submit_wait_timeout_None ms r : submit_wait_timeout None ms r = Ret (waiting_ring ms r).
Proof. unfold waiting_ring, submit_wait_timeout. by destruct (_ && _). Qed.
End Ring.

(** ** Awaiters *)

(** An awaiter is its operation and its [result_]; its callback stores the
    result and resumes the coroutine, so it is the awaiter's own index. *)
Record awaiter := mkAwaiter { aw_op : io_op; aw_result : Z }.

Definition AsyncReadAwaiter (fd size offset : Z) := mkAwaiter (OpRead fd size offset) 0.
Definition AsyncWriteAwaiter (fd : Z) (data : list Z) (offset : Z) := mkAwaiter (OpWrite fd data offset) 0.
Definition AsyncRecvAwaiter (fd size flags : Z) := mkAwaiter (OpRecv fd size flags) 0.
Definition AsyncSendAwaiter (fd : Z) (data : list Z) (flags : Z) := mkAwaiter (OpSend fd data flags) 0.
Definition AsyncAcceptAwaiter (fd flags : Z) := mkAwaiter (OpAccept fd flags) (-1).
Definition AsyncConnectAwaiter (fd addr : Z) := mkAwaiter (OpConnect fd addr) (-1).

(** Suspended coroutines by index, each with its awaiter; [resumed] is the order
    in which they were resumed. *)
Record tasks := mkTasks { awaiters : gmap nat awaiter; resumed : list nat }.

(** [await_suspend]: prepare, then submit, which fails if [err] is set; the
    function is [noexcept]. *)
Definition await_suspend {CB} (err : option Z) (h : CB) (a : awaiter) (r : IoUring CB) : outcome (IoUring CB) :=
  match prepare (aw_op a) 0 h r with
  | Ret (_, r) => match submit err r with Ret (_, r) => Ret r | _ => Throw "std::terminate" end
  | _ => Throw "std::terminate"
  end.

(** The callback lambda: [result_ = result; handle.resume();] *)
Definition complete_await (h : nat) (result : Z) (t : tasks) : tasks :=
  mkTasks (alter (fun a => mkAwaiter (aw_op a) result) h (awaiters t)) (resumed t ++ [h]).

(** [await_resume] *)
Definition await_resume (h : nat) (t : tasks) : option Z := aw_result <$> awaiters t !! h.

(** ** Callback slots *)

Section Slots.
Context {CB : Type}.
Implicit Types (r : IoUring CB) (cb : CB).

(** What happens to the ring while an operation is pending. *)
Inductive ring_op :=
| RPrepare (op : io_op) (flags : Z) (cb : CB)
| RSubmit
| RComplete (i : nat) (res flags : Z).

Definition ring_step r (o : ring_op) : outcome (IoUring CB) :=
  match o with
  | RPrepare op flags cb => let* p := prepare op flags cb r in Ret p.2
  | RSubmit => let* p := submit None r in Ret p.2
  | RComplete i res flags => Ret (complete i res flags r)
  end.

Fixpoint ring_run r (os : list ring_op) : outcome (IoUring CB) :=
  match os with
  | [] => Ret r
  | o :: os => let* r := ring_step r o in ring_run r os
  end.

Definition is_prepare (o : ring_op) : Prop := match o with RPrepare _ _ _ => True | _ => False end.
#[global] Instance is_prepare_dec o : Decision (is_prepare o).
Proof. destruct o; simpl; apply _. Defined.

Definition prepares (os : list ring_op) : Z := zlen (filter is_prepare os).

Lemma prepare_Ret op flags cb r p :
  prepare op flags cb r = Ret p ->
  let id := next_callback_id_ r mod kMaxCallbacks in
  p.1 = id /\ callbacks_ p.2 = <[id := cb]> (callbacks_ r) /\
  next_callback_id_ p.2 = u64 (next_callback_id_ r + 1) /\ sq p.2 = sq r ++ [mkSqe op id flags].
Proof. unfold prepare. destruct (sqe_free r); [|done]. by intros [= <-]. Qed.

(** The slots written by a run are those of its own ids. *)
Lemma ring_run_slot os : forall r r' id,
  ring_run r os = Ret r' -> 0 <= next_callback_id_ r -> next_callback_id_ r + prepares os < 2 ^ 64 ->
  (forall j, 0 <= j < prepares os -> (next_callback_id_ r + j) mod kMaxCallbacks <> id) ->
  callbacks_ r' !! id = callbacks_ r !! id.
Proof.
  induction os as [|o os IH]; intros r r' id; simpl; [by intros [= <-]|].
  intros (r1 & E1 & E2)%bind_Ret_inv H0 Hb Hne. unfold prepares in *. rewrite filter_cons in *.
  destruct o as [op fl cb| |i res fl]; simpl in *.
  - apply bind_Ret_inv in E1 as (p & Ep & [= <-]). apply prepare_Ret in Ep as (_ & Ec & En & _).
    rewrite wrap_small in En by (unfold is_u; lia).
    rewrite (IH p.2 r' id E2); [|lia..|].
    + rewrite Ec, lookup_insert_ne; [done|]. specialize (Hne 0). rewrite Z.add_0_r in Hne. apply Hne. lia.
    + intros j Hj. rewrite En. specialize (Hne (1 + j)). rewrite Z.add_assoc in Hne. apply Hne. lia.
  - injection E1 as <-. by rewrite (IH _ r' id E2).
  - injection E1 as <-. rewrite (IH _ r' id E2); unfold complete in *; by destruct (inflight r !! i).
Qed.

(** A completion reaches its own callback.  After [prepare_*] stored callback
    [cb] under [id], whatever is prepared, submitted and completed next, up to
    65535 further operations, the slot still holds [cb] and a completion with
    that id runs it, as long as [id] is not 0. *)
Theorem callback_delivered {W} op flags cb r id r1 os r2 (w : W) invoke res fl :
  0 <= next_callback_id_ r -> prepare op flags cb r = Ret (id, r1) -> id <> 0 ->
  ring_run r1 os = Ret r2 -> prepares os < kMaxCallbacks ->
  next_callback_id_ r + 1 + prepares os < 2 ^ 64 ->
  process_cqe invoke (mkCqe id res fl) (r2, w) = (let* s := invoke cb res fl (r2, w) in Ret (seen s)).
Proof.
  intros H0 Hp Hid Hrun Hn Hb. apply prepare_Ret in Hp as (E1 & Ec & En & _). simpl in *.
  assert (Hr : 0 <= id < kMaxCallbacks) by (subst id; by apply Z.mod_pos_bound).
  assert (0 <= prepares os) by (unfold prepares; lia).
  rewrite wrap_small in En by (unfold is_u; lia).
  assert (Hslot : callbacks_ r2 !! id = Some cb).
  { rewrite (ring_run_slot os r1 r2 id Hrun); [by rewrite Ec, <- E1, lookup_insert_eq|lia|lia|].
    intros j Hj. rewrite En, E1. unfold kMaxCallbacks in *. intros E.
    assert (Hd : (next_callback_id_ r + 1 + j - next_callback_id_ r) mod 65536 = 0) by
      (rewrite Zminus_mod, E, Z.sub_diag; done).
    replace (next_callback_id_ r + 1 + j - next_callback_id_ r) with (1 + j) in Hd by lia.
    rewrite Z.mod_small in Hd; lia. }
  unfold process_cqe, get_callback. cbn [cqe_user_data cqe_res cqe_flags fst].
  rewrite (proj2 (Z.eqb_neq id 0)), (proj2 (Z.leb_gt _ id)) by lia. simpl. by rewrite Hslot.
Qed.

(** Every 65536th operation is lost.  When the id counter is a multiple of
    65536 the operation gets user data 0, which [process_cqe] takes for "no
    callback": its completion is consumed and its callback never runs, whatever
    the callback is. *)
Theorem id_zero_dropped {W} op flags cb r (invoke : CB -> Z -> Z -> IoUring CB * W -> outcome (IoUring CB * W)) res fl :
  next_callback_id_ r mod kMaxCallbacks = 0 -> sqe_free r = true ->
  exists r1, prepare op flags cb r = Ret (0, r1) /\ callbacks_ r1 !! 0 = Some cb /\
    sq r1 = sq r ++ [mkSqe op 0 flags] /\
    forall s, process_cqe invoke (mkCqe 0 res fl) s = Ret (seen s).
Proof.
  intros Hz Hf. unfold prepare, set_callback. rewrite Hf, Hz. eexists. split; [done|].
  simpl. by rewrite lookup_insert_eq.
Qed.

(** A moved ring keeps its operations and loses their callbacks: the first
    completion of an operation prepared before the move throws. *)
Theorem moved_ring_loses_callbacks {W} op flags cb r id r1 (w : W) invoke res fl :
  prepare op flags cb r = Ret (id, r1) -> id <> 0 ->
  sq (IoUring_move r1).1 = sq r ++ [mkSqe op id flags] /\
  process_cqe invoke (mkCqe id res fl) ((IoUring_move r1).1, w) = Throw "std::bad_function_call".
Proof.
  intros (E & _ & _ & Esq)%prepare_Ret Hid. simpl in *. split; [by rewrite E|].
  assert (0 <= id < kMaxCallbacks) by (subst id; by apply Z.mod_pos_bound).
  unfold process_cqe, get_callback. simpl.
  by rewrite (proj2 (Z.eqb_neq id 0)), (proj2 (Z.leb_gt _ id)) by lia.
Qed.

(** Callbacks that leave the completion queue alone: every completion is
    processed once, in order. *)
Lemma process_all_spec {W} (invoke : CB -> Z -> Z -> IoUring CB * W -> outcome (IoUring CB * W)) l :
  forall s fuel processed,
  (forall cb res fl s, exists s', invoke cb res fl s = Ret s' /\ cq s'.1 = cq s.1 /\ callbacks_ s'.1 = callbacks_ s.1) ->
  cq s.1 = l -> Forall (fun c => is_Some (callbacks_ s.1 !! cqe_user_data c) \/ cqe_user_data c = 0) l ->
  (length l < fuel)%nat ->
  exists s', process_all_loop invoke fuel processed s
             = Ret (Some (fold_left (fun n _ => u32 (n + 1)) l processed, s')) /\ cq s'.1 = [].
Proof.
  induction l as [|c l IH]; intros s fuel processed Hi Hq Hs Hf; (destruct fuel as [|fuel]; [simpl in *; lia|]).
  - simpl. rewrite Hq. eauto.
  - apply Forall_cons in Hs as [Hc Hs]. cbn [process_all_loop fold_left]. rewrite Hq.
    assert (Hp : exists s1, process_cqe invoke c s = Ret s1 /\ cq s1.1 = l /\ callbacks_ s1.1 = callbacks_ s.1).
    { unfold process_cqe, get_callback. destruct (cqe_user_data c =? 0) eqn:Ez; simpl.
      { eexists. split; [done|]. simpl. by rewrite Hq. }
      destruct (kMaxCallbacks <=? cqe_user_data c); [eexists; split; [done|]; simpl; by rewrite Hq|].
      apply Z.eqb_neq in Ez. destruct Hc as [[cb Hcb]|]; [|done]. rewrite Hcb.
      destruct (Hi cb (cqe_res c) (cqe_flags c) s) as (s' & -> & Hq' & Hc'). simpl.
      eexists. split; [done|]. simpl. by rewrite Hq', Hq. }
    destruct Hp as (s1 & -> & Hq1 & Hc1). cbn [mbind outcome_bind].
    apply IH; [done|done|by rewrite Hc1|simpl in *; lia].
Qed.
End Slots.
Arguments ring_op : clear implicits.

(** ** Reading a whole file *)

(** A file and the most bytes each of the next reads returns (then no limit; a
    result of 0 or less is an error). *)
Record file := mkFile { content : list Z; limits : list Z }.

(** [pread(fd, buf, n, off)] *)
Definition pread (n off : Z) (f : file) : Z * list Z * file :=
  let avail := take (Z.to_nat n) (drop (Z.to_nat off) (content f)) in
  match limits f with
  | [] => (zlen avail, avail, f)
  | k :: ks =>
      if k <=? 0 then (k, [], mkFile (content f) ks)
      else let bs := take (Z.to_nat k) avail in (zlen bs, bs, mkFile (content f) ks)
  end.

(** [async_read_all]'s loop: every iteration that goes on adds a byte, so
    [max_size] iterations are enough. *)
Fixpoint read_all_loop (fuel : nat) (max_size : Z) (result : list Z) (total : Z) (f : file)
  : outcome (list Z * Z) :=
  match fuel with
  | O => Ret (result, total)
  | S fuel =>
      if total <? max_size then
        let '(n, bs, f) := pread (zlen result - total) total f in
        let* result := write_at result total bs in
        if n <=? 0 then Ret (result, total) else
        let total := total + n in
        let result := if total =? zlen result then resize result (Z.min (zlen result * 2) max_size)
                      else result in
        read_all_loop fuel max_size result total f
      else Ret (result, total)
  end.

Definition async_read_all (max_size : Z) (f : file) : outcome (list Z) :=
  let* r := read_all_loop (S (Z.to_nat max_size)) max_size (resize [] 4096) 0 f in
  Ret (resize r.1 r.2).

(** [pwrite(fd, buf, n, off)] inside the file or at its end. *)
Definition pwrite (bs : list Z) (off : Z) (f : file) : Z * file :=
  let put k ks :=
    let bs := take k bs in
    (zlen bs, mkFile (take (Z.to_nat off) (content f) ++ bs ++ drop (Z.to_nat off + length bs) (content f)) ks) in
  match limits f with
  | [] => put (length bs) []
  | k :: ks => if k <=? 0 then (k, mkFile (content f) ks) else put (Z.to_nat k) ks
  end.

(** [async_write_all]'s loop: every iteration that goes on writes a byte, so the
    number of bytes bounds it. *)
Fixpoint file_write_loop (fuel : nat) (data : list Z) (written : Z) (f : file) : Z * file :=
  match fuel with
  | O => (written, f)
  | S fuel =>
      if written <? zlen data then
        let '(n, f) := pwrite (drop (Z.to_nat written) data) written f in
        if n <=? 0 then (written, f) else file_write_loop fuel data (written + n) f
      else (written, f)
  end.

Definition file_write_all (data : list Z) (f : file) : Z * file := file_write_loop (S (length data)) data 0 f.

Lemma pread_spec n off f r bs f' :
  0 <= off -> 0 < n -> Forall (fun k => 0 < k) (limits f) -> pread n off f = (r, bs, f') ->
  r = zlen bs /\ zlen bs <= n /\ bs = take (length bs) (drop (Z.to_nat off) (content f)) /\
  content f' = content f /\ Forall (fun k => 0 < k) (limits f') /\ (r <= 0 -> zlen (content f) <= off).
Proof.
  intros Ho Hn Hl. unfold pread. set (avail := take _ _).
  assert (Ha : zlen avail = Z.min n (Z.max 0 (zlen (content f) - off))).
  { subst avail. rewrite length_take, length_drop. lia. }
  destruct (limits f) as [|k ks] eqn:E.
  - intros [= <- <- <-]. split_and!; try done; try lia; [by symmetry; apply take_length_take|].
    rewrite E. constructor.
  - apply Forall_cons in Hl as [Hk Hks]. destruct (Z.leb_spec k 0); [lia|]. intros [= <- <- <-].
    split_and!; try done.
    + rewrite length_take. lia.
    + subst avail. rewrite take_take. symmetry. apply take_length_take.
    + rewrite length_take. lia.
Qed.

(** The bytes read so far are the file's, and there is room for more below the
    limit. *)
Definition read_inv (max_size : Z) (result : list Z) (total : Z) (f : file) : Prop :=
  0 <= total <= zlen (content f) /\ total <= max_size /\ zlen result <= max_size /\
  (total < max_size -> total < zlen result) /\ total <= zlen result /\
  take (Z.to_nat total) result = take (Z.to_nat total) (content f) /\
  Forall (fun k => 0 < k) (limits f).

Lemma read_inv_step max_size result total f n bs f' :
  read_inv max_size result total f -> total < max_size ->
  pread (zlen result - total) total f = (n, bs, f') -> 0 < n ->
  exists result', write_at result total bs = Ret result' /\
    read_inv max_size
      (if total + n =? zlen result' then resize result' (Z.min (zlen result' * 2) max_size) else result')
      (total + n) f'.
Proof.
  intros (Ht & Hm & Hr & Hroom & Hle & Htake & Hl) Hlt Hp Hn. specialize (Hroom Hlt).
  apply pread_spec in Hp as (-> & Hbs & Hbs' & Hc & Hl' & _); [|lia|lia|done].
  assert (Hblen : total + zlen bs <= zlen (content f)).
  { rewrite Hbs', length_take, length_drop. lia. }
  set (tail := drop (Z.to_nat total + length bs) result).
  assert (Hw : write_at result total bs = Ret (take (Z.to_nat total + length bs) (content f) ++ tail)).
  { unfold write_at. rewrite decide_True by lia. rewrite Htake, take_plus, <- Hbs', <- app_assoc. done. }
  eexists. split; [exact Hw|]. set (result' := take _ _ ++ tail).
  assert (Hlen : zlen result' = zlen result).
  { subst result' tail. rewrite length_app, length_take, length_drop. lia. }
  assert (Hpre : take (Z.to_nat (total + zlen bs)) result' = take (Z.to_nat (total + zlen bs)) (content f)).
  { subst result'. replace (Z.to_nat (total + zlen bs)) with (Z.to_nat total + length bs)%nat by lia.
    apply take_app_length'. rewrite length_take. lia. }
  rewrite Hlen. unfold read_inv. rewrite Hc.
  destruct (Z.eqb_spec (total + zlen bs) (zlen result)) as [Eq|Ne].
  - rewrite length_resize by lia. split_and!; try done; try lia.
    rewrite <- Hpre. unfold resize. rewrite (take_ge result') by lia. apply take_app_le. lia.
  - rewrite Hlen. split_and!; try done; lia.
Qed.

Lemma read_all_loop_spec fuel max_size : forall result total f,
  read_inv max_size result total f -> (Z.to_nat (max_size - total) < fuel)%nat ->
  exists result' total', read_all_loop fuel max_size result total f = Ret (result', total') /\
    total' = Z.min max_size (zlen (content f)) /\ total' <= zlen result' /\
    take (Z.to_nat total') result' = take (Z.to_nat total') (content f).
Proof.
  induction fuel as [|fuel IH]; intros result total f Hinv Hf; [lia|]. simpl.
  pose proof Hinv as (Ht & Hm & Hr & Hroom & Hle & Htake & Hl).
  destruct (Z.ltb_spec total max_size) as [Hlt|Hge]; [|exists result, total; split_and!; done || lia].
  destruct (pread (zlen result - total) total f) as [[n bs] f'] eqn:Hp.
  pose proof Hp as (Hn & Hbs & _ & Hc & _ & Heof)%pread_spec; [|lia..|done].
  destruct (Z.leb_spec n 0) as [Hn0|Hpos].
  - assert (bs = []) as -> by (destruct bs; [done|simpl in *; lia]).
    unfold write_at. rewrite decide_True by (simpl; lia). simpl.
    rewrite Nat.add_0_r, take_drop. exists result, total. specialize (Heof Hn0). split_and!; done || lia.
  - destruct (read_inv_step _ _ _ _ _ _ _ Hinv Hlt Hp Hpos) as (result' & -> & Hinv').
    cbn [mbind outcome_bind]. rewrite <- Hc. apply IH; [exact Hinv'|lia].
Qed.

(** The first [w] bytes of [data] over the beginning of [old]. *)
Definition overlay (w : nat) (data old : list Z) : list Z := take w data ++ drop w old.

Lemma overlay_step w k data old :
  (w <= length data)%nat ->
  let bs := take k (drop w data) in
  take w (overlay w data old) ++ bs ++ drop (w + length bs) (overlay w data old) = overlay (w + length bs) data old.
Proof.
  intros Hw bs. unfold overlay. assert (Hl : length (take w data) = w) by (rewrite length_take; lia).
  rewrite take_app_length' by done. rewrite drop_app_ge by lia. rewrite drop_drop, Hl.
  replace (w + (w + length bs - w))%nat with (w + length bs)%nat by lia.
  rewrite take_plus, <- app_assoc. do 2 f_equal. unfold bs. symmetry. apply take_length_take.
Qed.

Lemma file_write_loop_spec fuel data old : forall w f,
  (w <= length data)%nat -> content f = overlay w data old -> (length data - w < fuel)%nat ->
  exists w' f', file_write_loop fuel data (Z.of_nat w) f = (Z.of_nat w', f') /\ (w <= w' <= length data)%nat /\
    content f' = overlay w' data old /\ (Forall (fun k => 0 < k) (limits f) -> w' = length data).
Proof.
  induction fuel as [|fuel IH]; intros w f Hw Hc Hf; [lia|]. cbn [file_write_loop].
  destruct (Z.ltb_spec (Z.of_nat w) (zlen data)) as [Hlt|]; [|exists w, f; split_and!; done || lia].
  assert (Hput : forall k ks, (0 < k)%nat -> (Forall (fun k => 0 < k) (limits f) -> Forall (fun k => 0 < k) ks) ->
    let bs := take k (drop w data) in
    let f1 := mkFile (take w (content f) ++ bs ++ drop (w + length bs) (content f)) ks in
    exists w' f', (if zlen bs <=? 0 then (Z.of_nat w, f1) else file_write_loop fuel data (Z.of_nat w + zlen bs) f1)
        = (Z.of_nat w', f') /\ (w <= w' <= length data)%nat /\ content f' = overlay w' data old /\
      (Forall (fun k => 0 < k) (limits f) -> w' = length data)).
  { intros k ks Hk Hks bs f1. assert (Hb : (0 < length bs <= length data - w)%nat)
      by (unfold bs; rewrite length_take, length_drop; lia).
    rewrite (proj2 (Z.leb_gt (zlen bs) 0)) by lia. rewrite <- Nat2Z.inj_add.
    destruct (IH (w + length bs)%nat f1) as (w' & f' & E & Hle & Hc' & Hall); [lia| |lia|].
    - unfold f1. cbn [content]. rewrite Hc. by apply overlay_step.
    - exists w', f'. split_and!; [done|lia|lia|done|]. intros Hp. apply Hall. by apply Hks. }
  unfold pwrite. rewrite !Nat2Z.id. destruct (limits f) as [|k ks] eqn:El.
  - apply (Hput _ []); [rewrite length_drop; lia|done].
  - destruct (Z.leb_spec k 0) as [Hk|Hk].
    + rewrite (proj2 (Z.leb_le k 0)) by done. exists w, (mkFile (content f) ks). split_and!; [done|lia|lia|done|].
      intros [? _]%Forall_cons. lia.
    + apply Hput; [lia|]. by intros [_ ?]%Forall_cons.
Qed.

(** [async_write_all] on a file writes a prefix of the data over the beginning of
    the file and returns its length, however the kernel splits the writes; unless
    a write fails it is all of the data. *)
Theorem file_write_all_prefix data f :
  exists w f', file_write_all data f = (Z.of_nat w, f') /\ (w <= length data)%nat /\
    content f' = overlay w data (content f) /\ (Forall (fun k => 0 < k) (limits f) -> w = length data).
Proof.
  destruct (file_write_loop_spec (S (length data)) data (content f) 0 f) as (w & f' & E & Hw & Hc & Hall);
    [lia|done|lia|]. exists w, f'. split_and!; [exact E|lia|done|done].
Qed.

(** [async_read_all] with a limit of at least its first block of 4096 bytes
    returns the file up to the limit, for every sequence of short reads, growing
    its buffer without ever writing outside it. *)
Theorem read_all_prefix max_size f :
  4096 <= max_size -> Forall (fun k => 0 < k) (limits f) ->
  async_read_all max_size f = Ret (take (Z.to_nat max_size) (content f)).
Proof.
  intros Hm Hl. unfold async_read_all.
  destruct (read_all_loop_spec (S (Z.to_nat max_size)) max_size (resize [] 4096) 0 f)
    as (result & total & -> & Ht & Hle & Htake); [|lia|].
  { unfold read_inv. rewrite length_resize by lia. split_and!; done || lia. }
  cbn [mbind outcome_bind fst snd]. f_equal. unfold resize.
  assert ((Z.to_nat total - length result)%nat = 0%nat) as -> by lia. simpl. rewrite app_nil_r, Htake, Ht.
  destruct (decide (max_size <= zlen (content f))).
  - by rewrite Z.min_l by lia.
  - rewrite Z.min_r, Nat2Z.id, firstn_all, take_ge by lia. done.
Qed.

(** ** Witnesses *)

Definition demo_ring : IoUring nat := mkRing 8 [] [] [] ∅ 5 true.
Definition demo_run (cb : nat) (res flags : Z) (s : IoUring nat * list nat) : outcome (IoUring nat * list nat) :=
  Ret (s.1, s.2 ++ [cb]).

Lemma callback_delivered_witness :
  exists r1 r2, prepare OpNop 0 7%nat demo_ring = Ret (5, r1) /\
    ring_run r1 [RSubmit; RPrepare OpNop 0 9%nat; RComplete 0 3 0] = Ret r2 /\
    process_cqe demo_run (mkCqe 5 3 0) (r2, []) = Ret (cqe_seen r2, [7%nat]).
Proof.
  destruct (prepare OpNop 0 7%nat demo_ring) as [[id r1]| |] eqn:E; [|done..].
  assert (id = 5) as -> by (vm_compute in E; congruence).
  destruct (ring_run r1 [RSubmit; RPrepare OpNop 0 9%nat; RComplete 0 3 0]) as [r2| |] eqn:E2;
    [|injection E as <-; vm_compute in E2; done..].
  exists r1, r2. split; [done|]. split; [done|].
  apply (callback_delivered OpNop 0 7%nat demo_ring 5 r1
    [RSubmit; RPrepare OpNop 0 9%nat; RComplete 0 3 0] r2 [] demo_run); try done.
Defined.

Lemma id_zero_dropped_witness :
  let r : IoUring nat := mkRing 8 [] [] [] ∅ 65536 true in
  exists r1, prepare OpNop 0 7%nat r = Ret (0, r1) /\ callbacks_ r1 !! 0 = Some 7%nat /\
    sq r1 = [mkSqe OpNop 0 0] /\
    forall s, process_cqe demo_run (mkCqe 0 3 0) s = Ret (seen s).
Proof. apply (id_zero_dropped OpNop 0 7%nat (mkRing 8 [] [] [] ∅ 65536 true) demo_run 3 0); done. Defined.

Lemma read_all_prefix_witness :
  async_read_all 5000 (mkFile [1; 2; 3; 4; 5] [2; 1]) = Ret (take 5000 [1; 2; 3; 4; 5]).
Proof. apply (read_all_prefix 5000 (mkFile [1; 2; 3; 4; 5] [2; 1])); [lia|compute_done]. Defined.
