(* ===== verification/Timeouts.v ===== *)
(** * io/timer.hpp: timeouts of operations

    The timespec conversions and the awaiters [TimeoutAwaiter],
    [TimedRecvAwaiter], [TimedSendAwaiter] and [WithTimeoutAwaiter].  An awaiter
    is an object with a lifetime: [handle.resume()] runs [await_resume] and the
    rest of the coroutine, and unless the awaiter is a variable that outlives
    the await ([kept]), it is a temporary that is destroyed there.  A callback
    that touches a destroyed awaiter is [Undef].  The kernel may deliver the
    completions of the operation and of its timeout in any order.

    The timing wheel of the same header is in TimingWheel.v. *)

From Stdlib Require Import ZArith Lia.
From S2P Require Import Prelude IoUring.

Definition ETIME : Z := 62.
Definition ECANCELED : Z := 125.
Definition IOSQE_IO_LINK : Z := 4.

(** ** Timespecs *)

Record kernel_timespec := mkTs { tv_sec : Z; tv_nsec : Z }.

(** [chrono::nanoseconds], counted in an [int64_t]; [/] and [%] truncate. *)
Definition to_kernel_timespec (ns : Z) : kernel_timespec :=
  mkTs (i64 (Z.quot ns 1000000000)) (i64 (Z.rem ns 1000000000)).

(** [duration_cast] to nanoseconds is a signed multiplication. *)
Definition duration_cast (count per : Z) : outcome Z :=
  if bool_decide (is_s 64 (count * per)) then Ret (count * per) else Undef.

Definition to_kernel_timespec_ms (ms : Z) : outcome kernel_timespec :=
  let* ns := duration_cast ms 1000000 in Ret (to_kernel_timespec ns).

Definition to_kernel_timespec_s (s : Z) : outcome kernel_timespec :=
  let* ns := duration_cast s 1000000000 in Ret (to_kernel_timespec ns).

(** The timespec [IoUring::run_once] builds itself from an [int]. *)
Definition run_once_timespec (timeout_ms : Z) : kernel_timespec :=
  mkTs (Z.quot timeout_ms 1000) (Z.rem timeout_ms 1000 * 1000000).

(** A timespec the kernel accepts. *)
Definition ts_valid (ts : kernel_timespec) : Prop := 0 <= tv_sec ts /\ 0 <= tv_nsec ts < 1000000000.

Definition ts_ns (ts : kernel_timespec) : Z := tv_sec ts * 1000000000 + tv_nsec ts.

(** ** Awaiter objects *)

(** [obj]: the awaiter, None once destroyed; [resumes]: what [await_resume] gave
    at each [handle.resume()]. *)
Record await_st (A R : Type) := mkAwait { obj : option A; resumes : list (outcome R) }.
Arguments mkAwait {A R}.
Arguments obj {A R}.
Arguments resumes {A R}.

Section Objects.
Context {A R : Type}.

(** A callback's access to [this]. *)
Definition with_obj (f : A -> await_st A R) (s : await_st A R) : outcome (await_st A R) :=
  match obj s with Some a => Ret (f a) | None => Undef end.

(** [handle.resume()] with the awaiter in state [a]. *)
Definition resume_coro (await_resume : A -> outcome R) (kept : bool) (a : A) (rs : list (outcome R))
  : await_st A R :=
  mkAwait (if kept then Some a else None) (rs ++ [await_resume a]).

Fixpoint callbacks {Ev : Type} (cb : Ev -> await_st A R -> outcome (await_st A R)) (evs : list Ev)
  (s : await_st A R) : outcome (await_st A R) :=
  match evs with
  | [] => Ret s
  | ev :: evs => let* s := cb ev s in callbacks cb evs s
  end.

Lemma callbacks_app {Ev} cb (evs1 evs2 : list Ev) s :
  callbacks cb (evs1 ++ evs2) s = (let* s := callbacks cb evs1 s in callbacks cb evs2 s).
Proof.
  revert s. induction evs1 as [|ev evs1 IH]; intros s; simpl; [done|]. by destruct (cb ev s) as [s'| |]; simpl.
Qed.
End Objects.

(** [sqe->flags |= IOSQE_IO_LINK] on the entry prepared last. *)
Definition link_last {CB} (r : IoUring CB) : IoUring CB :=
  mkRing (queue_depth r)
    (match last (sq r) with
     | Some e => removelast (sq r) ++ [mkSqe (sqe_op e) (sqe_user_data e) (Z.lor (sqe_flags e) IOSQE_IO_LINK)]
     | None => []
     end)
    (inflight r) (cq r) (callbacks_ r) (next_callback_id_ r) (running_ r).

(** [await_suspend] is [noexcept]. *)
Definition noexcept {A} (m : outcome A) : outcome A :=
  match m with Throw _ => Throw "std::terminate" | m => m end.

(** ** TimeoutAwaiter *)

Record TimeoutAwaiter := mkTimeout { to_ts : kernel_timespec; to_result : Z }.

Definition TimeoutAwaiter_new (ns : Z) : TimeoutAwaiter := mkTimeout (to_kernel_timespec ns) 0.

Definition TimeoutAwaiter_new_ms (ms : Z) : outcome TimeoutAwaiter :=
  let* ts := to_kernel_timespec_ms ms in Ret (mkTimeout ts 0).

Definition timeout_await_suspend {CB} (cb : CB) (a : TimeoutAwaiter) (r : IoUring CB) : outcome (IoUring CB) :=
  noexcept (let* p := prepare_timeout (tv_sec (to_ts a)) (tv_nsec (to_ts a)) 0 cb 0 r in
            let* q := submit None p.2 in Ret q.2).

Definition timeout_await_resume (a : TimeoutAwaiter) : outcome Z := Ret (to_result a).
Definition timed_out (a : TimeoutAwaiter) : bool := to_result a =? - ETIME.

Definition timeout_cb (kept : bool) (res : Z) (s : await_st TimeoutAwaiter Z) : outcome (await_st TimeoutAwaiter Z) :=
  with_obj (fun a => resume_coro timeout_await_resume kept (mkTimeout (to_ts a) res) (resumes s)) s.

Definition io_sleep_for_ms (ms : Z) : outcome TimeoutAwaiter := TimeoutAwaiter_new_ms ms.
Definition io_sleep_for_s (s : Z) : outcome TimeoutAwaiter :=
  let* ns := duration_cast s 1000000000 in Ret (TimeoutAwaiter_new ns).

(** ** TimedRecvAwaiter *)

Record TimedRecvAwaiter := mkTimedRecv {
  tr_fd : Z;
  tr_size : Z;
  tr_flags : Z;
  tr_ts : kernel_timespec;
  recv_result_ : Z;
  tr_timeout_result_ : Z;
  recv_completed_ : bool;
  tr_timeout_fired_ : bool;
  tr_done_ : bool;
}.

Definition TimedRecvAwaiter_new (fd size flags timeout : Z) : TimedRecvAwaiter :=
  mkTimedRecv fd size flags (to_kernel_timespec timeout) 0 0 false false false.

Inductive timed_cb := CbMain | CbTimeout | CbNop.

Definition timed_recv_suspend (a : TimedRecvAwaiter) (r : IoUring timed_cb) : outcome (IoUring timed_cb) :=
  noexcept (let* p := prepare_recv (tr_fd a) (tr_size a) (tr_flags a) CbMain r in
            let* q := prepare_link_timeout (tv_sec (tr_ts a)) (tv_nsec (tr_ts a)) CbTimeout (link_last p.2) in
            let* s := submit None q.2 in Ret s.2).

Definition timed_recv_await_resume (a : TimedRecvAwaiter) : outcome Z :=
  if tr_timeout_fired_ a then Throw "recv timed out" else Ret (recv_result_ a).

Definition recv_was_timeout (a : TimedRecvAwaiter) : bool := tr_timeout_fired_ a && negb (recv_completed_ a).

Definition set_recv (res : Z) (a : TimedRecvAwaiter) : TimedRecvAwaiter :=
  mkTimedRecv (tr_fd a) (tr_size a) (tr_flags a) (tr_ts a) res (tr_timeout_result_ a) true
    (tr_timeout_fired_ a) (tr_done_ a).

Definition set_recv_timeout (res : Z) (a : TimedRecvAwaiter) : TimedRecvAwaiter :=
  mkTimedRecv (tr_fd a) (tr_size a) (tr_flags a) (tr_ts a) (recv_result_ a) res (recv_completed_ a)
    true (tr_done_ a).

Definition set_recv_done (a : TimedRecvAwaiter) : TimedRecvAwaiter :=
  mkTimedRecv (tr_fd a) (tr_size a) (tr_flags a) (tr_ts a) (recv_result_ a) (tr_timeout_result_ a)
    (recv_completed_ a) (tr_timeout_fired_ a) true.

Inductive recv_event := RecvDone (res : Z) | LinkTimeout (res : Z).

(** The two completion callbacks: store the result, then [done_.exchange(true)]. *)
Definition timed_recv_cb (kept : bool) (ev : recv_event) (s : await_st TimedRecvAwaiter Z)
  : outcome (await_st TimedRecvAwaiter Z) :=
  with_obj (fun a =>
    let a := match ev with RecvDone res => set_recv res a | LinkTimeout res => set_recv_timeout res a end in
    if tr_done_ a then mkAwait (Some a) (resumes s)
    else resume_coro timed_recv_await_resume kept (set_recv_done a) (resumes s)) s.

Definition timed_recv (fd size flags timeout : Z) : TimedRecvAwaiter := TimedRecvAwaiter_new fd size flags timeout.

Definition timed_recv_ms (fd size flags timeout : Z) : outcome TimedRecvAwaiter :=
  let* ns := duration_cast timeout 1000000 in Ret (TimedRecvAwaiter_new fd size flags ns).

(** ** TimedSendAwaiter *)

Record TimedSendAwaiter := mkTimedSend {
  tsd_fd : Z;
  tsd_data : list Z;
  tsd_flags : Z;
  tsd_ts : kernel_timespec;
  send_result_ : Z;
  tsd_timeout_result_ : Z;
  send_completed_ : bool;
  tsd_timeout_fired_ : bool;
}.

Definition TimedSendAwaiter_new (fd : Z) (data : list Z) (flags timeout : Z) : TimedSendAwaiter :=
  mkTimedSend fd data flags (to_kernel_timespec timeout) 0 0 false false.

Definition timed_send_suspend (a : TimedSendAwaiter) (r : IoUring timed_cb) : outcome (IoUring timed_cb) :=
  noexcept (let* p := prepare_send (tsd_fd a) (tsd_data a) (tsd_flags a) CbMain r in
            let* q := prepare_link_timeout (tv_sec (tsd_ts a)) (tv_nsec (tsd_ts a)) CbTimeout (link_last p.2) in
            let* n := prepare_nop CbNop q.2 in
            let* s := submit None n.2 in Ret s.2).

Definition timed_send_await_resume (a : TimedSendAwaiter) : outcome Z :=
  if tsd_timeout_fired_ a then Throw "send timed out" else Ret (send_result_ a).

Definition send_was_timeout (a : TimedSendAwaiter) : bool := tsd_timeout_fired_ a && negb (send_completed_ a).

Definition set_send (res : Z) (a : TimedSendAwaiter) : TimedSendAwaiter :=
  mkTimedSend (tsd_fd a) (tsd_data a) (tsd_flags a) (tsd_ts a) res (tsd_timeout_result_ a) true
    (tsd_timeout_fired_ a).

Definition set_send_timeout (res : Z) (a : TimedSendAwaiter) : TimedSendAwaiter :=
  mkTimedSend (tsd_fd a) (tsd_data a) (tsd_flags a) (tsd_ts a) (send_result_ a) res (send_completed_ a) true.

Inductive send_event := SendDone (res : Z) | SendTimeout (res : Z) | NopDone.

(** Only the nop's callback resumes. *)
Definition timed_send_cb (kept : bool) (ev : send_event) (s : await_st TimedSendAwaiter Z)
  : outcome (await_st TimedSendAwaiter Z) :=
  with_obj (fun a =>
    match ev with
    | SendDone res => mkAwait (Some (set_send res a)) (resumes s)
    | SendTimeout res => mkAwait (Some (set_send_timeout res a)) (resumes s)
    | NopDone => resume_coro timed_send_await_resume kept a (resumes s)
    end) s.

Definition timed_send (fd : Z) (data : list Z) (flags timeout : Z) : TimedSendAwaiter :=
  TimedSendAwaiter_new fd data flags timeout.

Definition timed_send_ms (fd : Z) (data : list Z) (flags timeout : Z) : outcome TimedSendAwaiter :=
  let* ns := duration_cast timeout 1000000 in Ret (TimedSendAwaiter_new fd data flags ns).

(** ** WithTimeoutAwaiter *)

Record WithTimeoutAwaiter (T : Type) := mkWith {
  wt_ts : kernel_timespec;
  timeout_user_data_ : Z;
  operation_user_data_ : Z;
  result_ : option T;
  exception_ : option string;
  wt_done_ : bool;
  wt_timeout_fired_ : bool;
}.
Arguments mkWith {T}.
Arguments wt_ts {T}.
Arguments timeout_user_data_ {T}.
Arguments operation_user_data_ {T}.
Arguments result_ {T}.
Arguments exception_ {T}.
Arguments wt_done_ {T}.
Arguments wt_timeout_fired_ {T}.

(** The callbacks the awaiter leaves in the ring: its timeout's, and the empty
    ones of its cancellations. *)
Inductive with_cb := CbWithTimeout | CbCancelled.

(** What completes: the operation, through the functions given to [submit_fn_],
    or the timeout. *)
Inductive with_event (T : Type) := OpResult (v : T) | OpError (e : string) | TimeoutDone (res : Z).
Arguments OpResult {T}.
Arguments OpError {T}.
Arguments TimeoutDone {T}.

Section WithTimeout.
Context {T : Type}.
Implicit Types (a : WithTimeoutAwaiter T) (r : IoUring with_cb).

Definition WithTimeoutAwaiter_new (timeout : Z) : WithTimeoutAwaiter T :=
  mkWith (to_kernel_timespec timeout) 0 0 None None false false.

Definition with_await_resume a : outcome T :=
  match exception_ a with
  | Some e => Throw e
  | None => match result_ a with Some v => Ret v | None => Throw "std::bad_optional_access" end
  end.

(** [cancel_timeout] and [cancel_operation]; exceptions are swallowed. *)
Definition cancel_user_data (user_data : Z) r : IoUring with_cb :=
  if user_data =? 0 then r
  else match prepare_async_cancel user_data CbCancelled r with
       | Ret p => match submit None p.2 with Ret s => s.2 | _ => p.2 end
       | _ => r
       end.

Definition with_st := (await_st (WithTimeoutAwaiter T) T * IoUring with_cb)%type.

(** The three callbacks: the first to set [done_] records its outcome, cancels
    the other side and resumes. *)
Definition with_timeout_cb (kept : bool) (ev : with_event T) (s : with_st) : outcome with_st :=
  let '(w, r) := s in
  match obj w with
  | None => Undef
  | Some a =>
      if wt_done_ a then Ret (w, r)
      else
        let '(res, exc, fired, cancelled) :=
          match ev with
          | OpResult v => (Some v, exception_ a, wt_timeout_fired_ a, timeout_user_data_ a)
          | OpError e => (result_ a, Some e, wt_timeout_fired_ a, timeout_user_data_ a)
          | TimeoutDone n =>
              if (n =? - ETIME) || (n =? 0)
              then (result_ a, Some "operation timed out", true, operation_user_data_ a)
              else (result_ a, exception_ a, wt_timeout_fired_ a, operation_user_data_ a)
          end in
        let a := mkWith (wt_ts a) (timeout_user_data_ a) (operation_user_data_ a) res exc true fired in
        Ret (resume_coro with_await_resume kept a (resumes w), cancel_user_data cancelled r)
  end.

(** [await_suspend]; [sync] is what [submit_fn_] reports before it returns, if
    the operation completes at once. *)
Definition with_timeout_suspend (kept : bool) (sync : option (with_event T)) (s : with_st) : outcome with_st :=
  noexcept (
    let* s := match sync with Some ev => with_timeout_cb kept ev s | None => Ret s end in
    let '(w, r) := (s : with_st) in
    match obj w with
    | None => Undef
    | Some a =>
        let a := mkWith (wt_ts a) (peek_next_callback_id r) (operation_user_data_ a) (result_ a)
                   (exception_ a) (wt_done_ a) (wt_timeout_fired_ a) in
        let* p := prepare_timeout (tv_sec (wt_ts a)) (tv_nsec (wt_ts a)) 0 CbWithTimeout 0 r in
        let* q := submit None p.2 in
        Ret (mkAwait (Some a) (resumes w), q.2)
    end).

Fixpoint with_callbacks (kept : bool) (evs : list (with_event T)) (s : with_st) : outcome with_st :=
  match evs with
  | [] => Ret s
  | ev :: evs => let* s := with_timeout_cb kept ev s in with_callbacks kept evs s
  end.

(** What the await gives when [ev] completes first. *)
Definition with_outcome (ev : with_event T) : outcome T :=
  match ev with
  | OpResult v => Ret v
  | OpError e => Throw e
  | TimeoutDone n =>
      if (n =? - ETIME) || (n =? 0) then Throw "operation timed out" else Throw "std::bad_optional_access"
  end.

(** A suspended awaiter, its timeout submitted. *)
Lemma with_timeout_suspend_Ret kept timeout r w r1 :
  with_timeout_suspend kept None (mkAwait (Some (WithTimeoutAwaiter_new timeout)) [], r) = Ret (w, r1) ->
  let ts := to_kernel_timespec timeout in
  w = mkAwait (Some (mkWith ts (next_callback_id_ r) 0 None None false false)) [] /\
  inflight r1 = inflight r ++ sq r ++
    [mkSqe (OpTimeout (tv_sec ts) (tv_nsec ts) 0) (next_callback_id_ r mod kMaxCallbacks) 0] /\
  sq r1 = [] /\ queue_depth r1 = queue_depth r.
Proof.
  unfold with_timeout_suspend. cbn -[prepare_timeout submit to_kernel_timespec]. unfold prepare_timeout, prepare.
  destruct (sqe_free r); [|done]. cbn -[to_kernel_timespec]. intros [= <- <-]. simpl. by rewrite app_assoc.
Qed.

Lemma with_callbacks_done evs : forall a rs r,
  wt_done_ a = true -> with_callbacks true evs (mkAwait (Some a) rs, r) = Ret (mkAwait (Some a) rs, r).
Proof. induction evs as [|ev evs IH]; intros a rs r Hd; simpl; [done|]. rewrite Hd. simpl. by apply IH. Qed.
End WithTimeout.
Arguments with_st : clear implicits.

(** ** Properties of the conversions *)

Lemma i64_small z : is_s 64 z -> i64 z = z.
Proof. apply sint_small. lia. Qed.

Lemma quot_rem_ns ns :
  is_s 64 ns -> is_s 64 (Z.quot ns 1000000000) /\ is_s 64 (Z.rem ns 1000000000) /\
  - 1000000000 < Z.rem ns 1000000000 < 1000000000.
Proof.
  unfold is_s. intros Hr. pose proof (Z.quot_rem' ns 1000000000) as E.
  pose proof (Z.rem_bound_abs ns 1000000000) as Hb.
  destruct (Z.le_gt_cases 0 ns) as [H|H].
  - pose proof (Z.rem_bound_pos ns 1000000000). lia.
  - pose proof (Z.rem_bound_neg_pos ns 1000000000). lia.
Qed.

Lemma to_kernel_timespec_spec ns :
  is_s 64 ns ->
  to_kernel_timespec ns = mkTs (Z.quot ns 1000000000) (Z.rem ns 1000000000) /\
  ts_ns (to_kernel_timespec ns) = ns /\ (ts_valid (to_kernel_timespec ns) <-> 0 <= ns).
Proof.
  intros Hns. destruct (quot_rem_ns ns Hns) as (Hq & Hr & Hb). unfold to_kernel_timespec.
  rewrite !i64_small by done. pose proof (Z.quot_rem' ns 1000000000) as E. split_and!; [done|unfold ts_ns; simpl; lia|].
  unfold ts_valid. simpl. split; [lia|]. intros H0.
  pose proof (Z.rem_bound_pos ns 1000000000 H0). pose proof (Z.quot_pos ns 1000000000 H0). lia.
Qed.

(** C32: the millisecond conversion is exact and its domain is known: it is
    defined exactly for durations within 9223372036854 ms, its result denotes the
    same duration and is one the kernel accepts exactly when the duration is not
    negative, and on every [int] it agrees with the timespec [run_once] computes
    by itself. *)
Theorem timespec_conversions ms :
  (returns (to_kernel_timespec_ms ms) <-> - 9223372036854 <= ms <= 9223372036854) /\
  (forall ts, to_kernel_timespec_ms ms = Ret ts ->
     ts_ns ts = ms * 1000000 /\ (ts_valid ts <-> 0 <= ms)) /\
  (is_s 32 ms -> to_kernel_timespec_ms ms = Ret (run_once_timespec ms)).
Proof.
  unfold to_kernel_timespec_ms, duration_cast, returns. destruct (bool_decide_reflect (is_s 64 (ms * 1000000))) as [Hs|Hs].
  - destruct (to_kernel_timespec_spec _ Hs) as (E & En & Ev). unfold is_s in Hs. simpl. split_and!.
    + split; [intros _; lia|eauto].
    + intros ts [= <-]. split; [done|]. rewrite Ev. lia.
    + intros _. rewrite E. unfold run_once_timespec. do 2 f_equal.
      * apply (Z.quot_mul_cancel_r ms 1000 1000000); lia.
      * apply (Z.mul_rem_distr_r ms 1000 1000000); lia.
  - unfold is_s in *. simpl. split_and!; [split; [by intros [? ?]|lia]|done|lia].
Qed.

(** ** Properties of the awaiters *)

(** The entries a timed receive submits: the receive, linked to the timeout that
    follows it. *)
Lemma timed_recv_submits a r r1 :
  timed_recv_suspend a r = Ret r1 ->
  let id := next_callback_id_ r in
  inflight r1 = inflight r ++ sq r ++
    [mkSqe (OpRecv (tr_fd a) (tr_size a) (tr_flags a)) (id mod kMaxCallbacks) IOSQE_IO_LINK;
     mkSqe (OpLinkTimeout (tv_sec (tr_ts a)) (tv_nsec (tr_ts a))) (u64 (id + 1) mod kMaxCallbacks) 0] /\
  sq r1 = [].
Proof.
  unfold timed_recv_suspend, prepare_recv, prepare_link_timeout, prepare.
  destruct (sqe_free r); [|done]. cbn -[sqe_free]. destruct (sqe_free _); [|done]. cbn.
  intros [= <-]. cbn [inflight sq]. rewrite last_snoc, removelast_last, <- app_assoc. simpl. done.
Qed.

(** A timed receive resumes its coroutine exactly once, in either order of
    its two completions: with the receive's result if that comes first, and with
    a timeout exception if the link timeout's completion comes first, also when
    that only says the timeout was cancelled because the receive succeeded.  The
    second completion is harmless if the awaiter outlives the await and touches a
    destroyed object if it is a temporary. *)
Theorem timed_recv_race kept a n t (recv_first : bool) :
  tr_done_ a = false -> tr_timeout_fired_ a = false ->
  let ev1 := if recv_first then RecvDone n else LinkTimeout t in
  let ev2 := if recv_first then LinkTimeout t else RecvDone n in
  let outcome1 := if recv_first then Ret n else Throw "recv timed out" in
  let s := mkAwait (Some a) [] in
  (exists s1, callbacks (timed_recv_cb kept) [ev1] s = Ret s1 /\ resumes s1 = [outcome1]) /\
  (if kept then exists s2, callbacks (timed_recv_cb kept) [ev1; ev2] s = Ret s2 /\ resumes s2 = [outcome1]
   else callbacks (timed_recv_cb kept) [ev1; ev2] s = Undef).
Proof.
  intros Hd Hf. destruct recv_first, kept; simpl; unfold timed_recv_cb, with_obj; simpl; rewrite Hd;
    (split; [|try done]); eexists; (split; [reflexivity|]); simpl; unfold timed_recv_await_resume; simpl;
    by rewrite ?Hf.
Qed.

(** What a sequence of completions leaves in a send awaiter. *)
Definition send_seen (evs : list send_event) (a : TimedSendAwaiter) : TimedSendAwaiter :=
  fold_left (fun a ev => match ev with
                         | SendDone n => set_send n a
                         | SendTimeout n => set_send_timeout n a
                         | NopDone => a
                         end) evs a.

Definition is_timeout (ev : send_event) : bool := match ev with SendTimeout _ => true | _ => false end.
Definition is_nop (ev : send_event) : bool := match ev with NopDone => true | _ => false end.

Lemma send_before_nop kept evs : forall a rs,
  existsb is_nop evs = false ->
  callbacks (timed_send_cb kept) evs (mkAwait (Some a) rs) = Ret (mkAwait (Some (send_seen evs a)) rs).
Proof.
  induction evs as [|ev evs IH]; intros a rs Hn; [done|]. simpl in Hn. apply orb_false_elim in Hn as [Hn Hns].
  destruct ev; [| |done]; simpl; by rewrite IH.
Qed.

Lemma send_seen_timeout evs : forall a,
  tsd_timeout_fired_ (send_seen evs a) = tsd_timeout_fired_ a || existsb is_timeout evs.
Proof.
  induction evs as [|ev evs IH]; intros a; simpl; [by rewrite orb_false_r|]. unfold send_seen in *. simpl.
  rewrite IH. destruct ev; simpl; by rewrite ?orb_true_r.
Qed.

Lemma send_seen_none evs : forall a,
  existsb is_timeout evs = false -> existsb is_nop evs = false ->
  send_result_ (send_seen evs a) =
  default (send_result_ a) (last (omap (fun ev => match ev with SendDone n => Some n | _ => None end) evs)).
Proof.
  induction evs as [|ev evs IH] using rev_ind; intros a; [done|]. rewrite !existsb_app. simpl.
  intros [Ht Ht']%orb_false_elim [Hn Hn']%orb_false_elim. unfold send_seen in *. rewrite fold_left_app, omap_app.
  destruct ev; simpl in *; [by rewrite last_snoc|done..].
Qed.

(** A timed send resumes when its nop completes, not when the send does:
    whatever completed before decides the result.  A timeout completion, even a
    cancelled one, makes it an exception; otherwise it is the send's result if
    the send was already done and 0 bytes if it was not.  After that every
    completion touches a destroyed object, unless the awaiter outlives the
    await. *)
Theorem timed_send_resumes_at_nop kept a evs ev :
  tsd_timeout_fired_ a = false -> send_result_ a = 0 -> existsb is_nop evs = false ->
  exists s, callbacks (timed_send_cb kept) (evs ++ [NopDone]) (mkAwait (Some a) []) = Ret s /\
    resumes s = [if existsb is_timeout evs then Throw "send timed out"
                 else Ret (default 0 (last (omap (fun ev => match ev with SendDone n => Some n | _ => None end) evs)))] /\
    (kept = false -> timed_send_cb kept ev s = Undef).
Proof.
  intros Hf Hr Hn. rewrite callbacks_app, send_before_nop by done. simpl. eexists. split; [done|]. split.
  - simpl. unfold timed_send_await_resume. rewrite send_seen_timeout, Hf. simpl.
    destruct (existsb is_timeout evs) eqn:Et; [done|]. by rewrite send_seen_none, Hr.
  - by intros ->.
Qed.

(** C31: with a timeout, the side that completes first decides: when the operation
    does not complete inside [await_suspend], its value, its exception or a timeout
    exception is what the await gives, the timeout is asked to be cancelled when
    the operation wins, and the operation is never cancelled.  If the awaiter
    outlives the await the coroutine is resumed exactly once however many
    completions follow; if it is a temporary of the await expression, as in the
    documented use, the next completion touches a destroyed object. *)
Theorem with_timeout_first_wins {T} kept timeout r w r1 (ev : with_event T) :
  with_timeout_suspend kept None (mkAwait (Some (WithTimeoutAwaiter_new timeout)) [], r) = Ret (w, r1) ->
  let r2 := match ev with TimeoutDone _ => r1 | _ => cancel_user_data (next_callback_id_ r) r1 end in
  exists w2, with_callbacks kept [ev] (w, r1) = Ret (w2, r2) /\ resumes w2 = [with_outcome ev] /\
    forall ev' evs, with_callbacks kept (ev :: ev' :: evs) (w, r1) = if kept then Ret (w2, r2) else Undef.
Proof.
  intros (-> & _)%with_timeout_suspend_Ret.
  destruct kept, ev as [v|e|n]; try destruct ((n =? - ETIME) || (n =? 0)) eqn:En; simpl; rewrite ?En; simpl;
    unfold resume_coro; eexists; (split; [reflexivity|]); simpl; rewrite ?En; (split; [done|]); intros ev' evs;
    [by rewrite with_callbacks_done by done..|done|done|done|done].
Qed.

(** [cancel_timeout] names the timeout's submission exactly while fewer than
    65536 callbacks have been registered: the id it peeks is not reduced modulo
    the number of slots, the one in the entry is, so later the timeout is never
    cancelled. *)
Theorem with_timeout_cancels_iff {T} timeout r w r1 (a : WithTimeoutAwaiter T) :
  0 < next_callback_id_ r ->
  with_timeout_suspend true None (mkAwait (Some (WithTimeoutAwaiter_new timeout)) [], r) = Ret (w, r1) ->
  obj w = Some a ->
  exists e, last (inflight r1) = Some e /\ sqe_op e = OpTimeout (tv_sec (wt_ts a)) (tv_nsec (wt_ts a)) 0 /\
    (sqe_user_data e = timeout_user_data_ a <-> next_callback_id_ r < kMaxCallbacks).
Proof.
  intros Hn (-> & Hi & _)%with_timeout_suspend_Ret. simpl. intros [= <-]. rewrite Hi, app_assoc, last_snoc.
  eexists. split; [done|]. split; [done|]. simpl. unfold kMaxCallbacks. split.
  - intros E. pose proof (Z.mod_pos_bound (next_callback_id_ r) 65536). lia.
  - intros H. by rewrite Z.mod_small by lia.
Qed.

(** ** Witnesses *)

Definition sample_ring {CB} : IoUring CB := mkRing 8 [] [] [] ∅ 1 true.

Lemma timed_recv_race_witness :
  let s := mkAwait (Some (timed_recv 3 16 0 5000)) [] in
  (exists s1, callbacks (timed_recv_cb false) [LinkTimeout (- ECANCELED)] s = Ret s1 /\
     resumes s1 = [Throw "recv timed out"]) /\
  callbacks (timed_recv_cb false) [LinkTimeout (- ECANCELED); RecvDone 16] s = Undef.
Proof. apply (timed_recv_race false (timed_recv 3 16 0 5000) 16 (- ECANCELED) false); reflexivity. Defined.

Lemma timed_send_resumes_at_nop_witness :
  exists s, callbacks (timed_send_cb false) [NopDone] (mkAwait (Some (timed_send 3 [1; 2] 0 5000)) []) = Ret s /\
    resumes s = [Ret 0] /\ (false = false -> timed_send_cb false (SendDone 2) s = Undef).
Proof. apply (timed_send_resumes_at_nop false (timed_send 3 [1; 2] 0 5000) [] (SendDone 2)); reflexivity. Defined.

Lemma with_timeout_first_wins_witness :
  exists s w2 r2, with_timeout_suspend true None
      (mkAwait (Some (WithTimeoutAwaiter_new 1000)) [], sample_ring) = Ret s /\
    with_callbacks true [OpResult 7; TimeoutDone (- ECANCELED)] s = Ret (w2, r2) /\ resumes w2 = [Ret 7].
Proof.
  destruct (with_timeout_suspend true None (mkAwait (Some (WithTimeoutAwaiter_new 1000)) [], sample_ring))
    as [[w r1]| |] eqn:E; [|discriminate E..].
  destruct (with_timeout_first_wins true 1000 sample_ring w r1 (OpResult 7) E) as (w2 & _ & E3 & E2).
  exists (w, r1), w2. eexists. split; [reflexivity|]. split; [exact (E2 _ [])|exact E3].
Defined.

Lemma with_timeout_cancels_iff_witness :
  exists w r1 (a : WithTimeoutAwaiter Z), with_timeout_suspend true None
      (mkAwait (Some (@WithTimeoutAwaiter_new Z 1000)) [], mkRing 8 [] [] [] ∅ 65537 true) = Ret (w, r1) /\
    exists e, last (inflight r1) = Some e /\ sqe_user_data e <> timeout_user_data_ a.
Proof.
  destruct (with_timeout_suspend true None
      (mkAwait (Some (@WithTimeoutAwaiter_new Z 1000)) [], mkRing 8 [] [] [] ∅ 65537 true))
    as [[w r1]| |] eqn:E; [|discriminate E..].
  destruct (obj w) as [a|] eqn:Ea; [|injection E as <- _; discriminate Ea].
  destruct (with_timeout_cancels_iff 1000 (mkRing 8 [] [] [] ∅ 65537 true) w r1 a) as (e & He & _ & Hiff);
    [simpl; lia|exact E|exact Ea|].
  exists w, r1, a. split; [reflexivity|]. exists e. split; [exact He|].
  rewrite Hiff. simpl. unfold kMaxCallbacks. lia.
Defined.
