(* ===== verification/Scheduler.v ===== *)
(** * coroutine/scheduler.hpp and coroutine/sync.hpp

    [Scheduler]: one work-stealing deque per thread (head of the list = front).
    A task is a suspended coroutine with what its next resumption schedules, its
    own continuation included ([yield], [schedule_on]).  Each deque operation is
    one critical section; [sched_step] interleaves those of all threads.

    [AsyncMutex] and [AsyncSemaphore]: [await_ready] and [await_suspend] are
    separate steps, so that coroutines on several threads can race between
    them. *)

From Stdlib Require Import ZArith Lia.
From S2P Require Import Prelude.

Definition handle := nat.

(** ** Work-stealing deques *)

(** The coroutine [id], suspended.  Resuming it schedules the tasks [schedules]
    in this order, each on the thread it is for ([thread_id], -1 for any). *)
#[warnings="-register-all"] Inductive task := Task (id : handle) (thread_id : Z) (schedules : list task).

Definition task_id (t : task) : handle := match t with Task i _ _ => i end.
Definition task_thread (t : task) : Z := match t with Task _ z _ => z end.
Definition task_schedules (t : task) : list task := match t with Task _ _ ts => ts end.

(** The coroutines a task resumes, directly or through what it schedules. *)
Fixpoint task_ids (t : task) : list handle :=
  match t with Task i _ ts => i :: concat (List.map task_ids ts) end.

(** A coroutine that yields [n] times before it ends. *)
Fixpoint yielding (n : nat) (id : handle) : task :=
  match n with O => Task id (-1) [] | S n => Task id (-1) [yielding n id] end.

Definition push (t : task) (q : list task) : list task := q ++ [t].

(** [pop] takes the back. *)
Definition pop (q : list task) : option (task * list task) :=
  match last q with
  | None => None
  | Some t => Some (t, removelast q)
  end.

(** [steal] takes the front. *)
Definition steal (q : list task) : option (task * list task) :=
  match q with
  | [] => None
  | t :: q => Some (t, q)
  end.

Lemma pop_Some q t q' : pop q = Some (t, q') -> q = q' ++ [t].
Proof.
  unfold pop. destruct (last q) as [x|] eqn:E; [|done]. intros [= <- <-].
  apply last_Some in E as [l ->]. by rewrite removelast_last.
Qed.

(** ** Scheduler *)

Record Scheduler := mkSched {
  local_queues_ : list (list task);   (* one per thread *)
  resumed : list task;                (* task.resume() calls, in order *)
  running_ : bool;
}.

Definition kDefaultThreadCount : Z := 4.

Definition Scheduler_new (thread_count : Z) : Scheduler :=
  mkSched (replicate (Z.to_nat (if 0 <? thread_count then thread_count else kDefaultThreadCount)) []) [] true.

Definition Scheduler_stop (s : Scheduler) : Scheduler := mkSched (local_queues_ s) (resumed s) false.

(** The scan for the shortest queue: [best] is the index found so far, [i] the
    next one. *)
Fixpoint shortest (i best : nat) (min_size : nat) (sizes : list nat) : nat :=
  match sizes with
  | [] => best
  | s :: sizes => if (s <? min_size)%nat then shortest (S i) i s sizes
                  else shortest (S i) best min_size sizes
  end.

(** The queue [schedule(handle, thread_id)] pushes to; [sizes] are the lengths it
    read, which other threads may have changed since. *)
Definition choose_queue (thread_id : Z) (sizes : list nat) : nat :=
  if (0 <=? thread_id) && (thread_id <? zlen sizes) then Z.to_nat thread_id
  else match sizes with
       | [] => 0%nat
       | s :: rest => shortest 1 0 s rest
       end.

Definition schedule (t : task) (thread_id : Z) (s : Scheduler) : Scheduler :=
  mkSched (alter (push t) (choose_queue thread_id (length <$> local_queues_ s)) (local_queues_ s)) (resumed s) (running_ s).

Definition schedule_batch (ts : list task) (s : Scheduler) : Scheduler :=
  fold_left (fun s t => schedule t (-1) s) ts s.

Definition pending_count (s : Scheduler) : nat := sum_list (length <$> local_queues_ s).

(** The stealing loop of [worker_loop] from queue [i] on. *)
Fixpoint steal_from (me i : nat) (qs : list (list task)) : option (nat * task * list task) :=
  match qs with
  | [] => None
  | q :: qs =>
      if decide (i = me) then steal_from me (S i) qs
      else match steal q with
           | Some (t, q') => Some (i, t, q')
           | None => steal_from me (S i) qs
           end
  end.

(** [task.resume()]: the coroutine runs to its next suspension, scheduling what
    it does on the way. *)
Definition resume_task (t : task) (s : Scheduler) : Scheduler :=
  fold_left (fun s t => schedule t (task_thread t) s) (task_schedules t)
    (mkSched (local_queues_ s) (resumed s ++ [t]) (running_ s)).

Definition set_queue (i : nat) (q : list task) (s : Scheduler) : Scheduler :=
  mkSched (<[i := q]> (local_queues_ s)) (resumed s) (running_ s).

(** The body of [worker_loop] without other threads in between: the task taken,
    if any, is resumed. *)
Definition worker_once (me : nat) (s : Scheduler) : option Scheduler :=
  match local_queues_ s !! me ≫= pop with
  | Some (t, q) => Some (resume_task t (set_queue me q s))
  | None =>
      match steal_from me 0 (local_queues_ s) with
      | Some (i, t, q) => Some (resume_task t (set_queue i q s))
      | None => None
      end
  end.

(** A worker's iteration; one that finds nothing waits and goes round, one that
    finds [running_] false leaves the loop. *)
Definition worker_iteration (s : Scheduler) (me : nat) : Scheduler :=
  if running_ s then default s (worker_once me s) else s.

(** Iterations of the workers [ws], in that order. *)
Definition workers_run (ws : list nat) (s : Scheduler) : Scheduler := fold_left worker_iteration ws s.

(** [await_suspend] of [schedule_on(thread_id)] and of [yield()]. *)
Definition schedule_on (thread_id : Z) (t : task) (s : Scheduler) : Scheduler := schedule t thread_id s.
Definition yield (t : task) (s : Scheduler) : Scheduler := schedule t (-1) s.

(** ** Interleavings *)

(** Every deque operation is atomic, everything between two of them is not: a
    scheduling thread pushes to the queue it chose from sizes read earlier, a
    worker pops its own deque or steals from another one. *)
Inductive sched_step : list task -> Scheduler -> list task -> Scheduler -> Prop :=
| step_schedule hist s t thread_id sizes :
    length sizes = length (local_queues_ s) -> sizes <> [] ->
    sched_step hist s (hist ++ [t])
      (mkSched (alter (push t) (choose_queue thread_id sizes) (local_queues_ s)) (resumed s) (running_ s))
| step_pop hist s me q t q' :
    local_queues_ s !! me = Some q -> pop q = Some (t, q') ->
    sched_step hist s hist (mkSched (<[me := q']> (local_queues_ s)) (resumed s ++ [t]) (running_ s))
| step_steal hist s me i q t q' :
    i <> me -> local_queues_ s !! i = Some q -> steal q = Some (t, q') ->
    sched_step hist s hist (mkSched (<[i := q']> (local_queues_ s)) (resumed s ++ [t]) (running_ s))
| step_stop hist s : sched_step hist s hist (Scheduler_stop s).

(** [hist]: the tasks scheduled so far. *)
Inductive sched_reach (thread_count : Z) : list task -> Scheduler -> Prop :=
| sched_reach_new : sched_reach thread_count [] (Scheduler_new thread_count)
| sched_reach_step hist s hist' s' :
    sched_reach thread_count hist s -> sched_step hist s hist' s' -> sched_reach thread_count hist' s'.

Lemma shortest_bound i best m sizes : (best < i)%nat -> (shortest i best m sizes < i + length sizes)%nat.
Proof.
  revert i best m. induction sizes as [|s sizes IH]; intros i best m Hb; simpl; [lia|].
  destruct (s <? m)%nat; (eapply Nat.lt_le_trans; [apply IH|]); lia.
Qed.

Lemma choose_queue_bound t sizes : sizes <> [] -> (choose_queue t sizes < length sizes)%nat.
Proof.
  intros Hne. unfold choose_queue. destruct (Z.leb_spec 0 t), (Z.ltb_spec t (zlen sizes)); simpl; try lia;
    (destruct sizes as [|s rest]; [done|]); pose proof (shortest_bound 1 0 s rest); simpl in *; lia.
Qed.

Lemma concat_insert (qs : list (list task)) i q q' :
  qs !! i = Some q -> exists a b, qs = a ++ q :: b /\ <[i := q']> qs = a ++ q' :: b.
Proof.
  intros Hq. exists (take i qs), (drop (S i) qs). split.
  - by rewrite take_drop_middle.
  - apply insert_take_drop. by eapply lookup_lt_Some.
Qed.

Lemma alter_as_insert f (qs : list (list task)) i q :
  qs !! i = Some q -> alter f i qs = <[i := f q]> qs.
Proof.
  revert i. induction qs as [|x qs IH]; intros [|i]; simpl; [done..| |].
  - by intros [= ->].
  - intros Hq. change (x :: alter f i qs = x :: <[i := f q]> qs). by rewrite IH.
Qed.

Lemma concat_middle (a b : list (list task)) q : concat (a ++ q :: b) ≡ₚ q ++ concat a ++ concat b.
Proof. rewrite concat_app. simpl. rewrite !app_assoc. f_equiv. apply Permutation_app_comm. Qed.

Lemma concat_replicate_nil n : concat (replicate n (@nil task)) = [].
Proof. induction n as [|n IH]; [done|]. exact IH. Qed.

(** C21: no task is lost or run twice.  With any number of threads scheduling,
    popping and stealing in any order, the tasks scheduled so far are, as a
    multiset, those resumed and those still queued. *)
Theorem scheduler_conserves thread_count hist s :
  sched_reach thread_count hist s -> hist ≡ₚ resumed s ++ concat (local_queues_ s).
Proof.
  induction 1 as [|hist s hist' s' _ IH Hst].
  - unfold Scheduler_new. cbn [resumed local_queues_ app]. by rewrite concat_replicate_nil.
  - destruct Hst as [hist s h tid sizes Hl Hne|hist s me q t q' Hq Hp|hist s me i q t q' _ Hq Hst|]; simpl; [|..|done].
    + destruct (lookup_lt_is_Some_2 (local_queues_ s) (choose_queue tid sizes)) as [q Hq];
        [rewrite <- Hl; by apply choose_queue_bound|].
      destruct (concat_insert _ _ q (push h q) Hq) as (a & b & Eq & Ei).
      rewrite (alter_as_insert _ _ _ q Hq), Ei, IH, Eq, !concat_middle. unfold push. solve_Permutation.
    + destruct (concat_insert _ _ q q' Hq) as (a & b & Eq & ->). apply pop_Some in Hp.
      rewrite IH, Eq, !concat_middle, Hp. solve_Permutation.
    + destruct (concat_insert _ _ q q' Hq) as (a & b & Eq & ->). destruct q as [|x q]; [done|].
      injection Hst as -> ->. rewrite IH, Eq, !concat_middle. solve_Permutation.
Qed.

(** The scan returns the first of the smallest sizes. *)
Lemma shortest_spec sizes : forall i best m pre,
  i = length pre -> pre !! best = Some m -> (forall j s, pre !! j = Some s -> (m <= s)%nat) ->
  exists s, (pre ++ sizes) !! shortest i best m sizes = Some s /\
    forall j s', (pre ++ sizes) !! j = Some s' -> (s <= s')%nat.
Proof.
  induction sizes as [|x sizes IH]; intros i best m pre Hi Hb Hm; simpl.
  - rewrite app_nil_r. eauto.
  - assert (Hsnoc : forall j s, (pre ++ [x]) !! j = Some s -> pre !! j = Some s \/ s = x).
    { intros j s [Hj|[_ Hj]]%lookup_app_Some; [auto|]. right. destruct (j - length pre)%nat; by inversion Hj. }
    destruct (Nat.ltb_spec x m).
    + destruct (IH (S i) i x (pre ++ [x])) as (s & E & Hs); [rewrite length_app; simpl; lia| | |].
      * rewrite Hi. by apply list_lookup_middle.
      * intros j s [Hj| ->]%Hsnoc; [apply Hm in Hj|]; lia.
      * rewrite <- app_assoc in E, Hs. eauto.
    + destruct (IH (S i) best m (pre ++ [x])) as (s & E & Hs); [rewrite length_app; simpl; lia| | |].
      * by apply lookup_app_l_Some.
      * intros j s [Hj| ->]%Hsnoc; [by apply Hm in Hj|done].
      * rewrite <- app_assoc in E, Hs. eauto.
Qed.

Lemma choose_shortest t sizes :
  sizes <> [] -> t < 0 \/ zlen sizes <= t ->
  exists s, sizes !! choose_queue t sizes = Some s /\ forall j s', sizes !! j = Some s' -> (s <= s')%nat.
Proof.
  intros Hne Ht. unfold choose_queue.
  destruct (Z.leb_spec 0 t), (Z.ltb_spec t (zlen sizes)); simpl; try lia;
    (destruct sizes as [|s rest]; [done|]); apply (shortest_spec rest 1 0 s [s]); try done;
    intros [|j] s' Hj; by inversion Hj.
Qed.

Lemma steal_from_None me qs : forall i,
  steal_from me i qs = None -> forall j q, qs !! j = Some q -> (i + j)%nat <> me -> q = [].
Proof.
  induction qs as [|q qs IH]; intros i Hn [|j] q' Hj Hne; simpl in *; try done.
  - injection Hj as <-. rewrite Nat.add_0_r in Hne. rewrite decide_False in Hn by done. by destruct q.
  - apply (IH (S i)) with (j := j); [|done|lia]. destruct (decide (i = me)); [done|]. by destruct q.
Qed.

(** An iteration of [worker_loop] goes to sleep only if every queue is empty. *)
Lemma worker_sleeps_idle me s :
  (me < length (local_queues_ s))%nat -> worker_once me s = None -> pending_count s = 0%nat.
Proof.
  intros Hme. unfold worker_once. destruct (lookup_lt_is_Some_2 _ _ Hme) as [q Hq]. rewrite Hq. simpl.
  destruct (pop q) as [[t q']|] eqn:Ep; [done|].
  destruct (steal_from me 0 (local_queues_ s)) as [[[i t] q']|] eqn:Es; [done|]. intros _.
  assert (Hall : Forall (fun q => q = []) (local_queues_ s)).
  { apply Forall_lookup. intros j q' Hj. destruct (decide (j = me)) as [->|Hne].
    - assert (q' = q) as -> by congruence. unfold pop in Ep. destruct (last q) eqn:El; [done|].
      by apply last_None in El.
    - by eapply (steal_from_None me (local_queues_ s) 0). }
  unfold pending_count. clear -Hall. induction Hall as [|q0 qs -> _ IH]; [done|]. exact IH.
Qed.

Lemma steal_from_Some me qs : forall i k t q',
  steal_from me i qs = Some (k, t, q') -> exists j, k = (i + j)%nat /\ qs !! j = Some (t :: q').
Proof.
  induction qs as [|q qs IH]; intros i k t q' E; simpl in E; [done|].
  assert (Hrec : steal_from me (S i) qs = Some (k, t, q') -> exists j, k = (i + j)%nat /\ (q :: qs) !! j = Some (t :: q')).
  { intros (j & -> & Hj)%IH. exists (S j). split; [lia|done]. }
  destruct (decide (i = me)); [by apply Hrec|]. destruct q as [|x q]; simpl in E; [by apply Hrec|].
  injection E as <- <- <-. exists 0%nat. split; [lia|done].
Qed.

(** The coroutines resumed so far and those that what is queued will resume. *)
Definition ids_of (s : Scheduler) : list handle :=
  (task_id <$> resumed s) ++ concat (task_ids <$> concat (local_queues_ s)).

(** Resumptions left: every queued task and what it will schedule. *)
Definition work (s : Scheduler) : nat := length (concat (task_ids <$> concat (local_queues_ s))).

Lemma task_ids_eq t : task_ids t = task_id t :: concat (task_ids <$> task_schedules t).
Proof.
  by destruct t.
Qed.

Lemma schedule_moves t tid s :
  local_queues_ s <> [] ->
  length (local_queues_ (schedule t tid s)) = length (local_queues_ s) /\ resumed (schedule t tid s) = resumed s /\
  running_ (schedule t tid s) = running_ s /\
  concat (local_queues_ (schedule t tid s)) ≡ₚ t :: concat (local_queues_ s).
Proof.
  intros Hne. unfold schedule. set (sizes := length <$> local_queues_ s). cbn [local_queues_ resumed running_].
  split_and!; [by rewrite length_alter|done|done|].
  destruct (lookup_lt_is_Some_2 (local_queues_ s) (choose_queue tid sizes)) as [q Hq].
  { rewrite <- (length_fmap length (local_queues_ s)). apply choose_queue_bound. by destruct (local_queues_ s). }
  destruct (concat_insert _ _ q (push t q) Hq) as (a & b & Eq & Ei).
  rewrite (alter_as_insert _ _ _ q Hq), Ei, Eq, !concat_middle. unfold push. solve_Permutation.
Qed.

Lemma resume_moves t s :
  local_queues_ s <> [] ->
  length (local_queues_ (resume_task t s)) = length (local_queues_ s) /\ resumed (resume_task t s) = resumed s ++ [t] /\
  running_ (resume_task t s) = running_ s /\
  concat (local_queues_ (resume_task t s)) ≡ₚ task_schedules t ++ concat (local_queues_ s).
Proof.
  assert (Hgen : forall ts s1, local_queues_ s1 <> [] ->
    let s2 := fold_left (fun s t => schedule t (task_thread t) s) ts s1 in
    length (local_queues_ s2) = length (local_queues_ s1) /\ resumed s2 = resumed s1 /\ running_ s2 = running_ s1 /\
    concat (local_queues_ s2) ≡ₚ ts ++ concat (local_queues_ s1)).
  2:{ intros Hne. by apply (Hgen (task_schedules t) (mkSched (local_queues_ s) (resumed s ++ [t]) (running_ s))). }
  induction ts as [|u ts IH]; intros s1 Hne; [done|]. cbn [fold_left].
  destruct (schedule_moves u (task_thread u) s1 Hne) as (Hl & Hr & Hn & Hp).
  destruct (IH (schedule u (task_thread u) s1)) as (Hl2 & Hr2 & Hn2 & Hp2);
    [by destruct (local_queues_ (schedule u (task_thread u) s1)), (local_queues_ s1)|].
  rewrite Hl2, Hr2, Hn2, Hp2, Hp. split_and!; [done..|]. simpl. by rewrite Permutation_middle.
Qed.

(** An iteration that takes a task resumes it once. *)
Lemma worker_once_moves me s s' :
  worker_once me s = Some s' ->
  length (local_queues_ s') = length (local_queues_ s) /\ running_ s' = running_ s /\
  ids_of s' ≡ₚ ids_of s /\ work s = S (work s').
Proof.
  assert (Hmove : forall i q t q', local_queues_ s !! i = Some q -> q ≡ₚ t :: q' ->
    let s' := resume_task t (set_queue i q' s) in
    length (local_queues_ s') = length (local_queues_ s) /\ running_ s' = running_ s /\
    ids_of s' ≡ₚ ids_of s /\ work s = S (work s')).
  { intros i q t q' Hq Hp. destruct (concat_insert _ _ q q' Hq) as (a & b & Eq & Ei).
    destruct (resume_moves t (set_queue i q' s)) as (Hl & Hr & Hn & Hc).
    { unfold set_queue. cbn [local_queues_]. rewrite Ei. by destruct a. }
    unfold set_queue in *. cbn [local_queues_ resumed running_] in *. rewrite length_insert in Hl.
    assert (Hall : concat (task_ids <$> concat (local_queues_ s)) ≡ₚ
      task_id t :: concat (task_ids <$> concat (local_queues_ (resume_task t (set_queue i q' s))))).
    { unfold set_queue. rewrite Hc, Ei, Eq, !concat_middle, Hp. rewrite !fmap_app, fmap_cons. simpl.
      rewrite !concat_app, task_ids_eq. simpl. by rewrite ?app_assoc. }
    unfold set_queue in Hall. split_and!; [done|done| |].
    - unfold ids_of. rewrite Hr, fmap_app, Hall. simpl. rewrite <- app_assoc. done.
    - unfold work. by rewrite Hall. }
  unfold worker_once. destruct (local_queues_ s !! me ≫= pop) as [[t q']|] eqn:Ep.
  - intros [= <-]. apply bind_Some in Ep as (q & Hq & Hpop). apply (Hmove me q t q' Hq).
    rewrite (pop_Some _ _ _ Hpop). solve_Permutation.
  - destruct (steal_from me 0 (local_queues_ s)) as [[[i t] q']|] eqn:Es; [|done]. intros [= <-].
    apply steal_from_Some in Es as (j & -> & Hj). by apply (Hmove j (t :: q') t q').
Qed.

Lemma pending_concat s : pending_count s = length (concat (local_queues_ s)).
Proof.
  unfold pending_count. induction (local_queues_ s) as [|q qs IH]; [done|].
  change (length q + sum_list (length <$> qs) = length (q ++ concat qs))%nat. by rewrite length_app, IH.
Qed.

Lemma work_pending s : work s = 0%nat <-> pending_count s = 0%nat.
Proof.
  rewrite pending_concat. unfold work. destruct (concat (local_queues_ s)) as [|t ts]; [done|].
  rewrite fmap_cons. cbn [concat]. rewrite task_ids_eq. simpl. lia.
Qed.

(** C22: scheduled tasks run.  While the scheduler runs, iterations of
    [worker_loop], done one after the other by any workers in any order, empty
    all queues and resume every queued task and all that these schedule when they
    are resumed (by [yield], [schedule_on] or for others), each exactly once,
    within as many iterations as there are resumptions to make. *)
Theorem workers_drain ws s :
  running_ s = true -> Forall (fun me => (me < length (local_queues_ s))%nat) ws -> (work s <= length ws)%nat ->
  pending_count (workers_run ws s) = 0%nat /\ task_id <$> resumed (workers_run ws s) ≡ₚ ids_of s.
Proof.
  revert s. induction ws as [|me ws IH]; intros s Hrun Hws Hp; cbn [length] in *.
  - assert (H0 : work s = 0%nat) by lia. split; [by apply work_pending|]. unfold ids_of.
    apply length_zero_iff_nil in H0. by rewrite H0, app_nil_r.
  - apply Forall_cons in Hws as [Hme Hws]. unfold workers_run in *. cbn [fold_left].
    unfold worker_iteration at 2 4. rewrite Hrun.
    destruct (worker_once me s) as [s1|] eqn:Ew; simpl.
    + destruct (worker_once_moves _ _ _ Ew) as (Hl & Hr & Hids & Hw). rewrite <- Hids. apply IH; [by rewrite Hr|by rewrite Hl|lia].
    + apply IH; [done..|]. rewrite (proj2 (work_pending s)); [lia|]. by apply (worker_sleeps_idle me).
Qed.

(** ** AsyncMutex *)

(** [entered]: the coroutines resumed with the lock, most recent first. *)
Record AsyncMutex := mkMutex { locked_ : bool; waiters_ : list handle; entered : list handle }.

Definition AsyncMutex_new : AsyncMutex := mkMutex false [] [].

Definition lock_await_ready (m : AsyncMutex) : bool := negb (locked_ m).

(** [await_suspend]: [exchange(true)], then resume or queue. *)
Definition lock_await_suspend (h : handle) (m : AsyncMutex) : AsyncMutex :=
  if negb (locked_ m) then mkMutex true (waiters_ m) (h :: entered m)
  else mkMutex true (waiters_ m ++ [h]) (entered m).

(** [unlock] by the coroutine [h]. *)
Definition mutex_unlock (h : handle) (m : AsyncMutex) : AsyncMutex :=
  let out := filter (fun x => x <> h) (entered m) in
  match waiters_ m with
  | [] => mkMutex false [] out
  | next :: rest => mkMutex (locked_ m) rest (next :: out)
  end.

(** [co_await mutex.lock()] of several coroutines: [checked] are those whose
    [await_ready] returned false and that have not suspended yet. *)
Inductive mutex_step : list handle * AsyncMutex -> list handle * AsyncMutex -> Prop :=
| mstep_ready checked m h : lock_await_ready m = true ->
    mutex_step (checked, m) (checked, mkMutex (locked_ m) (waiters_ m) (h :: entered m))
| mstep_not_ready checked m h : lock_await_ready m = false ->
    mutex_step (checked, m) (h :: checked, m)
| mstep_suspend c1 c2 m h :
    mutex_step (c1 ++ h :: c2, m) (c1 ++ c2, lock_await_suspend h m)
| mstep_unlock checked m h : h ∈ entered m ->
    mutex_step (checked, m) (checked, mutex_unlock h m).

Inductive mutex_reach : list handle * AsyncMutex -> Prop :=
| mutex_reach_new : mutex_reach ([], AsyncMutex_new)
| mutex_reach_step s s' : mutex_reach s -> mutex_step s s' -> mutex_reach s'.

Lemma mutex_inv s : mutex_reach s -> s.1 = [] /\ locked_ s.2 = false /\ waiters_ s.2 = [].
Proof.
  induction 1 as [|s s' _ (Hc & Hl & Hw) Hst]; [done|].
  destruct Hst as [checked m h _|checked m h E|c1 c2 m h|checked m h _]; simpl in *.
  - done.
  - unfold lock_await_ready in E. by rewrite Hl in E.
  - by destruct c1.
  - unfold mutex_unlock. by rewrite Hw.
Qed.

(** [AsyncMutex] never locks.  [await_ready] lets a coroutine in when
    [locked_] is false without setting it, so in every interleaving [locked_]
    stays false and nobody ever waits; in particular any number of coroutines
    can hold the lock at the same time. *)
Theorem mutex_never_excludes s :
  mutex_reach s ->
  locked_ s.2 = false /\ waiters_ s.2 = [] /\
  forall hs, exists s', mutex_reach s' /\ entered s'.2 = hs ++ entered s.2.
Proof.
  intros Hr. split_and!; [by apply mutex_inv..|].
  induction hs as [|h hs ([checked m] & Hr' & He')]; [eauto|]. eexists. split.
  - eapply mutex_reach_step; [exact Hr'|]. apply (mstep_ready checked m h).
    apply mutex_inv in Hr' as (_ & Hl & _). simpl in Hl. unfold lock_await_ready. by rewrite Hl.
  - simpl in *. by rewrite He'.
Qed.

(** ** AsyncSemaphore *)

Record AsyncSemaphore := mkSem { count_ : Z; sem_waiters_ : list handle; sem_entered : list handle }.

Definition AsyncSemaphore_new (count : Z) : AsyncSemaphore := mkSem count [] [].

Definition acquire_await_ready (s : AsyncSemaphore) : bool := 0 <? count_ s.

Definition acquire_await_suspend (h : handle) (s : AsyncSemaphore) : AsyncSemaphore :=
  let old := count_ s in
  let count := u64 (old - 1) in
  if 0 <? old then mkSem count (sem_waiters_ s) (h :: sem_entered s)
  else mkSem count (sem_waiters_ s ++ [h]) (sem_entered s).

Definition sem_release (s : AsyncSemaphore) : AsyncSemaphore :=
  match sem_waiters_ s with
  | [] => mkSem (u64 (count_ s + 1)) [] (sem_entered s)
  | next :: rest => mkSem (count_ s) rest (next :: sem_entered s)
  end.

(** [co_await sem.acquire()] without another coroutine in between. *)
Definition acquire_once (h : handle) (s : AsyncSemaphore) : AsyncSemaphore :=
  if acquire_await_ready s then mkSem (count_ s) (sem_waiters_ s) (h :: sem_entered s)
  else acquire_await_suspend h s.

(** [AsyncSemaphore] does not limit: on a semaphore of any positive count all
    of any number of coroutines acquire at once, and on one of count 0 only the
    first waits, because its [fetch_sub] wraps the count to [SIZE_MAX]. *)
Theorem semaphore_admits_all n h hs :
  0 < n < 2 ^ 64 ->
  sem_entered (fold_left (fun s h => acquire_once h s) hs (AsyncSemaphore_new n)) = reverse hs /\
  sem_entered (fold_left (fun s h => acquire_once h s) (h :: hs) (AsyncSemaphore_new 0)) = reverse hs.
Proof.
  intros Hn.
  assert (Hall : forall n w e, 0 < n -> sem_entered (fold_left (fun s h => acquire_once h s) hs (mkSem n w e))
                   = reverse hs ++ e).
  { clear. induction hs as [|x hs IH]; intros n w e Hn; [done|]. simpl. unfold acquire_once at 2, acquire_await_ready.
    simpl. rewrite (proj2 (Z.ltb_lt 0 n)) by done. rewrite IH, reverse_cons, <- app_assoc by done. done. }
  split; [unfold AsyncSemaphore_new; by rewrite Hall, app_nil_r by lia|]. cbn [fold_left].
  change (acquire_once h (AsyncSemaphore_new 0)) with (mkSem (u64 (0 - 1)) [h] []).
  by rewrite Hall, app_nil_r by done.
Qed.

(** ** AsyncConditionVariable *)

Record AsyncCV := mkCV { cv_waiters_ : list handle; cv_resumed : list handle }.

Definition cv_wait (h : handle) (cv : AsyncCV) (m : AsyncMutex) : AsyncCV * AsyncMutex :=
  (mkCV (cv_waiters_ cv ++ [h]) (cv_resumed cv), mutex_unlock h m).

Definition cv_notify_one (cv : AsyncCV) : AsyncCV :=
  match cv_waiters_ cv with
  | [] => cv
  | next :: rest => mkCV rest (cv_resumed cv ++ [next])
  end.

Fixpoint cv_notify_loop (n : nat) (cv : AsyncCV) : AsyncCV :=
  match n with O => cv | S n => cv_notify_loop n (cv_notify_one cv) end.

(** [notify_all]: the queue's length bounds the loop. *)
Definition cv_notify_all (cv : AsyncCV) : AsyncCV := cv_notify_loop (length (cv_waiters_ cv)) cv.

Lemma cv_notify_all_spec cv :
  cv_notify_all cv = mkCV [] (cv_resumed cv ++ cv_waiters_ cv).
Proof.
  unfold cv_notify_all. destruct cv as [w r]. simpl. revert r.
  induction w as [|h w IH]; intros r; [simpl; by rewrite app_nil_r|].
  cbn [length cv_notify_loop]. unfold cv_notify_one. cbn [cv_waiters_ cv_resumed].
  by rewrite IH, <- app_assoc.
Qed.

(** ** Witnesses *)

Lemma scheduler_conserves_witness :
  let s := mkSched [[]; []] [Task 7%nat (-1) []] true in [Task 7%nat (-1) []] ≡ₚ resumed s ++ concat (local_queues_ s).
Proof.
  apply (scheduler_conserves 2 [Task 7%nat (-1) []] (mkSched [[]; []] [Task 7%nat (-1) []] true)).
  apply (sched_reach_step 2 [Task 7%nat (-1) []] (mkSched [[Task 7%nat (-1) []]; []] [] true)).
  - apply (sched_reach_step 2 [] (Scheduler_new 2)); [constructor|].
    by apply (step_schedule [] (Scheduler_new 2) (Task 7%nat (-1) []) (-1) [0%nat; 0%nat]).
  - by apply (step_steal [Task 7%nat (-1) []] (mkSched [[Task 7%nat (-1) []]; []] [] true) 1 0 [Task 7%nat (-1) []] (Task 7%nat (-1) []) []).
Defined.

(** Coroutine 1 yields twice, coroutine 2 moves to thread 0, coroutine 3 ends. *)
Lemma workers_drain_witness :
  let s := mkSched [[yielding 2 1%nat; Task 2%nat (-1) [Task 2%nat 0 []]]; [Task 3%nat (-1) []]] [] true in
  pending_count (workers_run [1; 1; 0; 1; 0; 1]%nat s) = 0%nat /\
  task_id <$> resumed (workers_run [1; 1; 0; 1; 0; 1]%nat s) ≡ₚ [1; 1; 1; 2; 2; 3]%nat.
Proof.
  apply (workers_drain [1; 1; 0; 1; 0; 1]%nat (mkSched [[yielding 2 1%nat; Task 2%nat (-1) [Task 2%nat 0 []]]; [Task 3%nat (-1) []]] [] true));
    [reflexivity| |vm_compute; lia].
  repeat constructor; simpl; lia.
Defined.

Lemma mutex_never_excludes_witness :
  exists s', mutex_reach s' /\ entered s'.2 = [1%nat; 2%nat].
Proof.
  destruct (mutex_never_excludes ([], AsyncMutex_new) mutex_reach_new) as (_ & _ & H).
  exact (H [1%nat; 2%nat]).
Defined.

Lemma semaphore_admits_all_witness :
  sem_entered (fold_left (fun s h => acquire_once h s) [1%nat; 2%nat] (AsyncSemaphore_new 1))
    = reverse [1%nat; 2%nat] /\
  sem_entered (fold_left (fun s h => acquire_once h s) [0%nat; 1%nat; 2%nat] (AsyncSemaphore_new 0))
    = reverse [1%nat; 2%nat].
Proof. apply (semaphore_admits_all 1 0%nat [1%nat; 2%nat]). lia. Defined.
