(* ===== verification/EventLoop.v ===== *)
(** * io/event_loop.hpp: the event loop

    The task queue, the timer heap and the timer map; [F] is the
    type of callables and [posts f] the tasks that running [f] posts to the same
    loop.  Timer callbacks run under the timer lock and do not touch the timers.
    The last section puts the loop on the ring of IoUring.v. *)

From Stdlib Require Import ZArith Lia.
From stdpp Require Import sorting.
From S2P Require Import Prelude IoUring.

(** ** Event loop *)

Record TimerHandle (F : Type) := mkTimer { th_id : Z; expire_time : Z; th_callback : F; cancelled : bool }.
Arguments mkTimer {F}.
Arguments th_id {F}.
Arguments expire_time {F}.
Arguments th_callback {F}.
Arguments cancelled {F}.

Record EventLoop (F : Type) := mkLoop {
  pending_tasks_ : list F;
  timers_ : list (TimerHandle F);   (* the heap, as a multiset *)
  timer_map_ : gmap Z nat;          (* id to position *)
  next_timer_id_ : Z;
  ran : list F;                     (* callables run so far *)
}.
Arguments mkLoop {F}.
Arguments pending_tasks_ {F}.
Arguments timers_ {F}.
Arguments timer_map_ {F}.
Arguments next_timer_id_ {F}.
Arguments ran {F}.

Section Loop.
Context {F : Type} (posts : F -> list F).
Implicit Types (l : EventLoop F) (t : TimerHandle F).

Definition EventLoop_new : EventLoop F := mkLoop [] [] ∅ 0 [].

Definition post (f : F) l : EventLoop F :=
  mkLoop (pending_tasks_ l ++ [f]) (timers_ l) (timer_map_ l) (next_timer_id_ l) (ran l).

(** [now]: [steady_clock::now()] in milliseconds. *)
Definition set_timer (now delay_ms : Z) (callback : F) l : Z * EventLoop F :=
  (next_timer_id_ l,
   mkLoop (pending_tasks_ l) (timers_ l ++ [mkTimer (next_timer_id_ l) (now + delay_ms) callback false])
     (timer_map_ l) (u64 (next_timer_id_ l + 1)) (ran l)).

Definition cancel_at (i : nat) (ts : list (TimerHandle F)) : list (TimerHandle F) :=
  alter (fun t => mkTimer (th_id t) (expire_time t) (th_callback t) true) i ts.

Definition cancel_timer (timer_id : Z) l : bool * EventLoop F :=
  match timer_map_ l !! timer_id with
  | Some i => (true, mkLoop (pending_tasks_ l) (cancel_at i (timers_ l)) (delete timer_id (timer_map_ l))
                       (next_timer_id_ l) (ran l))
  | None => (false, l)
  end.

(** [timers_.top()] and the heap after [timers_.pop()]: an earliest timer. *)
Fixpoint pop_min (ts : list (TimerHandle F)) : option (TimerHandle F * list (TimerHandle F)) :=
  match ts with
  | [] => None
  | t :: ts =>
      match pop_min ts with
      | None => Some (t, [])
      | Some (m, rest) =>
          if expire_time t <=? expire_time m then Some (t, m :: rest) else Some (m, t :: rest)
      end
  end.

(** [process_timers]'s loop; the heap's size bounds it. *)
Fixpoint timers_loop (fuel : nat) (now : Z) l : EventLoop F :=
  match fuel with
  | O => l
  | S fuel =>
      match pop_min (timers_ l) with
      | None => l
      | Some (t, rest) =>
          if expire_time t <=? now then
            timers_loop fuel now
              (mkLoop (pending_tasks_ l) rest (delete (th_id t) (timer_map_ l)) (next_timer_id_ l)
                 (if cancelled t then ran l else ran l ++ [th_callback t]))
          else l
      end
  end.

Definition process_timers (now : Z) l : EventLoop F := timers_loop (length (timers_ l)) now l.

(** [process_tasks]: the queue is moved out first, so what a task posts waits
    for the next round. *)
Definition process_tasks l : EventLoop F :=
  mkLoop (concat (posts <$> pending_tasks_ l)) (timers_ l) (timer_map_ l) (next_timer_id_ l)
    (ran l ++ pending_tasks_ l).

(** [run_once] without the completions of the ring. *)
Definition loop_once (now : Z) l : EventLoop F := process_tasks (process_timers now l).

(** ** Timers fire in order *)

Lemma pop_min_spec ts t rest :
  pop_min ts = Some (t, rest) -> ts ≡ₚ t :: rest /\ Forall (fun x => expire_time t <= expire_time x) rest.
Proof.
  revert t rest. induction ts as [|x ts IH]; intros t rest; simpl; [done|].
  destruct (pop_min ts) as [[m r]|] eqn:E.
  - destruct (IH m r eq_refl) as [Hp Hm]. destruct (Z.leb_spec (expire_time x) (expire_time m)).
    + intros [= <- <-]. split; [by rewrite Hp|]. constructor; [done|].
      eapply Forall_impl; [exact Hm|]. simpl. lia.
    + intros [= <- <-]. split; [rewrite Hp; apply Permutation_swap|]. constructor; [lia|done].
  - intros [= <- <-]. destruct ts as [|y ts]; [done|]. simpl in E. destruct (pop_min ts) as [[]|]; [|done].
    by destruct (_ <=? _).
Qed.

Lemma pop_min_None ts : pop_min ts = None -> ts = [].
Proof.
  destruct ts as [|t ts]; [done|]. simpl. destruct (pop_min ts) as [[m r]|]; [|done]. by destruct (_ <=? _).
Qed.

(** Earliest first. *)
Definition in_order (ts : list (TimerHandle F)) : Prop := Sorted (fun a b => expire_time a <= expire_time b) ts.

Lemma timers_loop_spec fuel now : forall l,
  (length (timers_ l) <= fuel)%nat -> Forall (fun t => cancelled t = false) (timers_ l) ->
  exists fired, ran (timers_loop fuel now l) = ran l ++ (th_callback <$> fired) /\
    fired ≡ₚ filter (fun t => expire_time t <= now) (timers_ l) /\ in_order fired /\
    timers_ (timers_loop fuel now l) ≡ₚ filter (fun t => ~ expire_time t <= now) (timers_ l) /\
    pending_tasks_ (timers_loop fuel now l) = pending_tasks_ l.
Proof.
  induction fuel as [|fuel IH]; intros l Hf Hc; simpl.
  { destruct (timers_ l); [|simpl in *; lia]. exists []. rewrite app_nil_r. split_and!; done || constructor. }
  destruct (pop_min (timers_ l)) as [[t rest]|] eqn:E.
  2:{ apply pop_min_None in E. rewrite E. exists []. rewrite app_nil_r. split_and!; done || constructor. }
  destruct (pop_min_spec _ _ _ E) as [Hp Hmin]. rewrite Hp in Hc. apply Forall_cons in Hc as [Hct Hc].
  assert (Hlen : length (timers_ l) = S (length rest)) by (by rewrite Hp).
  destruct (Z.leb_spec (expire_time t) now) as [Hle|Hgt].
  - rewrite Hct. edestruct IH as (fired & Hr & Hfp & Hs & Hrest & Hpt); [| |].
    3:{ exists (t :: fired). rewrite Hr, Hpt, Hrest. simpl. rewrite <- app_assoc. split_and!; try done.
        - rewrite Hp, filter_cons_True by done. by rewrite <- Hfp.
        - constructor; [done|]. destruct fired as [|x fired]; constructor.
          rewrite Forall_forall in Hmin. apply Hmin.
          assert (Hx : x ∈ x :: fired) by left. rewrite Hfp in Hx. by apply list_elem_of_filter in Hx as [_ Hx].
        - rewrite Hp, filter_cons_False by tauto. done. }
    + simpl. lia.
    + done.
  - exists []. rewrite app_nil_r. split_and!; try done; [|constructor|].
    + symmetry. rewrite filter_none; [done|]. intros x Hx. rewrite Hp in Hx.
      apply elem_of_cons in Hx as [->|Hx]; [lia|]. rewrite Forall_forall in Hmin. apply Hmin in Hx. lia.
    + symmetry. rewrite filter_id; [done|]. intros x Hx. rewrite Hp in Hx.
      apply elem_of_cons in Hx as [->|Hx]; [lia|]. rewrite Forall_forall in Hmin. apply Hmin in Hx. lia.
Qed.

(** What a loop's owner can do between rounds. *)
Inductive loop_op :=
| LPost (f : F)
| LSetTimer (now delay_ms : Z) (f : F)
| LCancel (id : Z)
| LRunOnce (now : Z).

Definition loop_step l (o : loop_op) : EventLoop F :=
  match o with
  | LPost f => post f l
  | LSetTimer now d f => (set_timer now d f l).2
  | LCancel id => (cancel_timer id l).2
  | LRunOnce now => loop_once now l
  end.

Definition loop_run (os : list loop_op) : EventLoop F := fold_left loop_step os EventLoop_new.

Lemma timers_loop_inv fuel now : forall l,
  timer_map_ l = ∅ -> Forall (fun t => cancelled t = false) (timers_ l) ->
  timer_map_ (timers_loop fuel now l) = ∅ /\
  Forall (fun t => cancelled t = false) (timers_ (timers_loop fuel now l)).
Proof.
  induction fuel as [|fuel IH]; intros l Hm Hc; simpl; [done|].
  destruct (pop_min (timers_ l)) as [[t rest]|] eqn:E; [|done]. destruct (_ <=? now); [|done].
  destruct (pop_min_spec _ _ _ E) as [Hp _]. rewrite Hp in Hc. apply Forall_cons in Hc as [_ Hc].
  apply IH; simpl; [|done]. by rewrite Hm, delete_empty.
Qed.

Lemma loop_run_inv os :
  timer_map_ (loop_run os) = ∅ /\ Forall (fun t => cancelled t = false) (timers_ (loop_run os)).
Proof.
  induction os as [|o os IH] using rev_ind; [done|]. unfold loop_run in *. rewrite fold_left_app. simpl.
  set (l := fold_left loop_step os EventLoop_new) in *. destruct IH as [Hm Hc].
  destruct o as [f|now d f|id|now]; simpl.
  - done.
  - split; [done|]. apply Forall_app. by repeat constructor.
  - unfold cancel_timer. by rewrite Hm, lookup_empty.
  - unfold loop_once, process_timers. simpl. by apply timers_loop_inv.
Qed.

(** [cancel_timer] never cancels: nothing inserts into [timer_map_], so in
    every state of the loop it returns false and changes nothing, and the timer
    fires. *)
Theorem cancel_timer_never_cancels os id :
  cancel_timer id (loop_run os) = (false, loop_run os).
Proof. unfold cancel_timer. destruct (loop_run_inv os) as [-> _]. by rewrite lookup_empty. Qed.

(** In every state of the loop [process_timers] runs the callbacks of exactly
    the timers that are due, each once, earliest first, and keeps the others. *)
Theorem timers_fire_in_order os now :
  let l := loop_run os in
  exists fired, ran (process_timers now l) = ran l ++ (th_callback <$> fired) /\
    fired ≡ₚ filter (fun t => expire_time t <= now) (timers_ l) /\ in_order fired /\
    timers_ (process_timers now l) ≡ₚ filter (fun t => ~ expire_time t <= now) (timers_ l) /\
    pending_tasks_ (process_timers now l) = pending_tasks_ l.
Proof. intros l. apply timers_loop_spec; [done|]. apply loop_run_inv. Qed.
End Loop.

(** ** The loop on the ring *)

Record EventLoopConfig := mkLoopConfig {
  io_uring_depth : Z;
  loop_sq_poll : bool;
  loop_sq_thread_cpu : Z;
  loop_sq_thread_idle : Z;
  worker_threads : Z;
}.

Definition default_loop_config : EventLoopConfig := mkLoopConfig 4096 true 0 2000 4.

Section OnRing.
Context {F CB : Type} (posts : F -> list F).
Context (invoke : CB -> Z -> Z -> IoUring CB * EventLoop F -> outcome (IoUring CB * EventLoop F)).
(** The callback of the no-op, [[](int, uint32_t) {}]. *)
Context (nothing : CB) (Hnothing : forall res fl s, invoke nothing res fl s = Ret s).
Implicit Types (r : IoUring CB) (l : EventLoop F).

Definition wakeup (err : option Z) r : outcome (IoUring CB) :=
  let* p := prepare_nop nothing r in
  let* q := submit err p.2 in
  Ret q.2.

(** [post]: the task is queued, then the loop is woken; when waking throws the
    task is queued all the same. *)
Definition post_and_wake (err : option Z) (f : F) (s : IoUring CB * EventLoop F)
  : outcome (IoUring CB) * EventLoop F := (wakeup err s.1, post f s.2).

(** [EventLoop::run_once(timeout_ms)]. *)
Definition loop_run_once (fuel : nat) (err : option Z) (timeout_ms now : Z) (s : IoUring CB * EventLoop F)
  : outcome (option (Z * (IoUring CB * EventLoop F))) :=
  run_once invoke fuel err timeout_ms (s.1, loop_once posts now s.2).

(** [run_loop]: one entry per round, with a failure of its submission, the time and what the kernel and other
    threads do to the ring and the queues before it; [stop()] ends the list. *)
Fixpoint run_loop (fuel : nat)
    (rounds : list (option Z * Z * (IoUring CB * EventLoop F -> IoUring CB * EventLoop F)))
    (s : IoUring CB * EventLoop F) : outcome (option (IoUring CB * EventLoop F)) :=
  match rounds with
  | [] => Ret (Some s)
  | (err, now, others) :: rounds =>
      let* (r : option (Z * (IoUring CB * EventLoop F))) := loop_run_once fuel err 10 now (others s) in
      match r with
      | Some (_, s) => run_loop fuel rounds s
      | None => Ret None
      end
  end.

(** A ring whose only completion is that of the no-op just submitted. *)
Lemma wakeup_completes err r r1 res :
  wakeup err r = Ret r1 -> cq r = [] ->
  let id := next_callback_id_ r mod kMaxCallbacks in
  let r2 := complete (length (inflight r) + length (sq r)) res 0 r1 in
  cq r2 = [mkCqe id res 0] /\ callbacks_ r2 !! id = Some nothing.
Proof.
  unfold wakeup. intros (p & Ep & H)%bind_Ret_inv Hcq. apply bind_Ret_inv in H as (q & Eq & [= <-]).
  unfold prepare_nop, prepare in Ep. destruct (sqe_free r); [|done]. injection Ep as <-. destruct err; [done|]. injection Eq as <-.
  simpl. unfold complete. cbn [inflight].
  assert (E : (inflight r ++ sq r ++ [mkSqe OpNop (next_callback_id_ r mod kMaxCallbacks) 0])
              !! (length (inflight r) + length (sq r))%nat
            = Some (mkSqe OpNop (next_callback_id_ r mod kMaxCallbacks) 0)).
  { rewrite app_assoc. apply list_lookup_middle. by rewrite length_app. }
  rewrite E. simpl. rewrite Hcq. split; [done|]. apply lookup_insert_eq.
Qed.

Lemma process_timers_pending now l : pending_tasks_ (process_timers now l) = pending_tasks_ l.
Proof.
  unfold process_timers. generalize (length (timers_ l)) as fuel. intros fuel. revert l.
  induction fuel as [|fuel IH]; intros l; simpl; [done|]. destruct (pop_min (timers_ l)) as [[t rest]|]; [|done].
  destruct (_ <=? now); [|done]. by rewrite IH.
Qed.

Lemma wait_timeout_keeps timeout_ms r :
  cq (waiting_ring timeout_ms r) = cq r /\ callbacks_ (waiting_ring timeout_ms r) = callbacks_ r.
Proof. unfold waiting_ring, submit_wait_timeout. by destruct (_ && _). Qed.

(** A posted task runs in the next round, which does not wait.  When [post]
    returned and the kernel has completed its no-op, the next [run_once] finds
    that completion, runs the task and everything queued before it in order,
    consumes the completion and returns with the completion queue empty,
    whatever the slot its id falls in. *)
Theorem posted_task_runs_next_round err f r l r1 l1 res timeout_ms now fuel :
  post_and_wake err f (r, l) = (Ret r1, l1) -> cq r = [] -> (2 <= fuel)%nat ->
  let r2 := complete (length (inflight r) + length (sq r)) res 0 r1 in
  exists n r3 l3, loop_run_once fuel None timeout_ms now (r2, l1) = Ret (Some (n, (r3, l3))) /\
    cq r3 = [] /\ ran l3 = ran (process_timers now l1) ++ pending_tasks_ l ++ [f].
Proof.
  intros [= Ew <-] Hcq Hf r2. cbn [fst snd] in *.
  destruct (wakeup_completes err r r1 res Ew Hcq) as [Ecq Ecb]. fold r2 in Ecq, Ecb.
  set (id := next_callback_id_ r mod kMaxCallbacks) in *.
  assert (Hid : 0 <= id < kMaxCallbacks) by (apply Z.mod_pos_bound; done).
  unfold loop_run_once, run_once. cbn [fst snd]. rewrite submit_wait_timeout_None.
  cbn [mbind outcome_bind]. unfold after_wait. cbn [fst snd].
  destruct (wait_timeout_keeps timeout_ms r2) as [E1 E2]. set (r2' := waiting_ring timeout_ms r2) in *. rewrite E1, Ecq. cbn [cqe_user_data].
  set (l3 := loop_once posts now (post f l)).
  assert (Hran : ran l3 = ran (process_timers now (post f l)) ++ pending_tasks_ l ++ [f]).
  { unfold l3, loop_once, process_tasks. cbn [ran]. by rewrite process_timers_pending. }
  exists 1, (cqe_seen r2'), l3.
  assert (Hseen : cq (cqe_seen r2') = []) by (simpl; by rewrite E1, Ecq).
  assert (Hone : (if negb (id =? 0) then process_cqe invoke (mkCqe id res 0) (r2', l3) else Ret (seen (r2', l3)))
                 = Ret (cqe_seen r2', l3)).
  { destruct (Z.eqb_spec id 0) as [|Hne]; [done|]. cbn [negb]. unfold process_cqe, get_callback. cbn [cqe_user_data fst].
    rewrite (proj2 (Z.eqb_neq id 0)) by done. rewrite (proj2 (Z.leb_gt _ id)) by lia. cbn [orb].
    rewrite E2, Ecb, Hnothing. done. }
  rewrite Hone. cbn [mbind outcome_bind]. unfold process_all_cqe. destruct fuel as [|fuel]; [lia|].
  cbn [process_all_loop fst]. rewrite Hseen. cbn [mbind outcome_bind]. done.
Qed.
End OnRing.

(** ** Witnesses *)

Lemma posted_task_runs_next_round_witness :
  let r := mkRing 8 [] [] [] ∅ 65536 true in
  let l := mkLoop [1%nat] [] ∅ 0 [] in
  exists r1 l1 n r3 l3, post_and_wake tt None 7%nat (r, l) = (Ret r1, l1) /\
    loop_run_once (fun _ => []) (fun _ _ _ s => Ret s) 2 None 10 5 (complete 0 0 0 r1, l1) = Ret (Some (n, (r3, l3))) /\
    cq r3 = [] /\ ran l3 = [1%nat; 7%nat].
Proof.
  intros r l. eexists _, _.
  destruct (posted_task_runs_next_round (fun _ => []) (fun _ _ _ s => Ret s) tt (fun _ _ _ => eq_refl) None 7%nat r l _ _ 0 10 5 2
    eq_refl eq_refl (le_n 2)) as (n & r3 & l3 & E & Hq & Hr).
  exists n, r3, l3. split_and!; [reflexivity|exact E|exact Hq|exact Hr].
Defined.
