(* ===== verification/LoopThreads.v ===== *)
(** * io/event_loop_pool.hpp: loop threads and their pool

    [EventLoopThread]: a ring of its own, tasks posted from other threads through
    a map (announced by a ring message) or a queue, and the loop that runs them.
    [own_step] is a step of the loop's thread, [env_step] what other threads and
    the kernel do in between.  The thread blocks in [wait_cqe] while there is no
    completion.  Each access to a ring is one step, whichever thread makes it; the
    code does not lock the rings.  [F] is the type of callables; running one is
    recorded in [ran].  [EventLoopPool]: the main thread first, then the workers;
    dispatch by round robin or least connections. *)

From Stdlib Require Import ZArith Lia.
From S2P Require Import Prelude IoUring Timeouts.

Record CrossThreadTask (F : Type) := mkCross { ct_type : Z; ct_data : Z; ct_fn : option F }.
Arguments mkCross {F}.
Arguments ct_type {F}.
Arguments ct_data {F}.
Arguments ct_fn {F}.

(** The callbacks in a thread's ring: empty lambdas and timers. *)
Inductive loop_cb (F : Type) := CbNone | CbTimer (f : F).
Arguments CbNone {F}.
Arguments CbTimer {F}.

(** Where the loop's thread is. *)
Inductive loop_pc :=
| Idle      (* no loop has been started *)
| AtTest    (* while (running_) *)
| InTasks   (* process_tasks *)
| InRing    (* io_uring_.run_once(10), up to its wait *)
| InWait    (* wait_cqe, and the rest of run_once *)
| Exited.

Record EventLoopThread (F : Type) := mkThread {
  thread_id_ : Z;
  ring_fd_ : Z;
  io_uring_ : IoUring (loop_cb F);
  lt_running_ : bool;
  joinable : bool;                          (* thread_ *)
  pc : loop_pc;
  connection_count_ : Z;
  pending_tasks_ : gmap Z (CrossThreadTask F);
  task_queue_ : list (CrossThreadTask F);
  next_task_id_ : Z;
  next_timer_id_ : Z;
  ran : list F;
}.
Arguments mkThread {F}.
Arguments thread_id_ {F}.
Arguments ring_fd_ {F}.
Arguments io_uring_ {F}.
Arguments lt_running_ {F}.
Arguments joinable {F}.
Arguments pc {F}.
Arguments connection_count_ {F}.
Arguments pending_tasks_ {F}.
Arguments task_queue_ {F}.
Arguments next_task_id_ {F}.
Arguments next_timer_id_ {F}.
Arguments ran {F}.

Section Threads.
Context {F : Type}.
Implicit Types (w : EventLoopThread F) (t : CrossThreadTask F) (r : IoUring (loop_cb F)).

(** ** Updates of a member *)

Definition set_ring r w := mkThread (thread_id_ w) (ring_fd_ w) r (lt_running_ w) (joinable w) (pc w)
  (connection_count_ w) (pending_tasks_ w) (task_queue_ w) (next_task_id_ w) (next_timer_id_ w) (ran w).
Definition set_loop (run join : bool) (k : loop_pc) w := mkThread (thread_id_ w) (ring_fd_ w) (io_uring_ w) run join k
  (connection_count_ w) (pending_tasks_ w) (task_queue_ w) (next_task_id_ w) (next_timer_id_ w) (ran w).
Definition set_pc (k : loop_pc) w := set_loop (lt_running_ w) (joinable w) k w.
Definition set_count (n : Z) w := mkThread (thread_id_ w) (ring_fd_ w) (io_uring_ w) (lt_running_ w) (joinable w)
  (pc w) n (pending_tasks_ w) (task_queue_ w) (next_task_id_ w) (next_timer_id_ w) (ran w).
Definition set_tasks (pending : gmap Z (CrossThreadTask F)) (queue : list (CrossThreadTask F)) (next : Z) w :=
  mkThread (thread_id_ w) (ring_fd_ w) (io_uring_ w) (lt_running_ w) (joinable w) (pc w) (connection_count_ w)
    pending queue next (next_timer_id_ w) (ran w).
Definition set_timer_id (n : Z) w := mkThread (thread_id_ w) (ring_fd_ w) (io_uring_ w) (lt_running_ w) (joinable w)
  (pc w) (connection_count_ w) (pending_tasks_ w) (task_queue_ w) (next_task_id_ w) n (ran w).
Definition set_ran (l : list F) w := mkThread (thread_id_ w) (ring_fd_ w) (io_uring_ w) (lt_running_ w) (joinable w)
  (pc w) (connection_count_ w) (pending_tasks_ w) (task_queue_ w) (next_task_id_ w) (next_timer_id_ w) l.

(** ** Lifecycle *)

(** The constructor; the ring's constructor throws if the kernel refuses. *)
Definition EventLoopThread_new (queue_init : Z -> uring_params -> Z) (thread_id fd queue_depth : Z)
  : outcome (EventLoopThread F) :=
  let* r := IoUring_new queue_init (default_config queue_depth) in
  Ret (mkThread thread_id fd r false false Idle 0 ∅ [] 1 1 []).

(** Assigning to a joinable [std::thread] terminates the program. *)
Definition thread_start w : outcome (EventLoopThread F) :=
  if joinable w then Throw "std::terminate" else Ret (set_loop true true AtTest w).

Definition thread_run w : EventLoopThread F := set_loop true (joinable w) AtTest w.

(** A nop is submitted to wake the ring; exceptions are swallowed.  [err] is a
    failure of the submission. *)
Definition wake (err : option Z) w : EventLoopThread F :=
  match prepare_nop CbNone (io_uring_ w) with
  | Ret p => match submit err p.2 with Ret q => set_ring q.2 w | _ => set_ring p.2 w end
  | _ => w
  end.

(** [stop] up to its join. *)
Definition stop_request (err : option Z) w : EventLoopThread F :=
  if lt_running_ w then wake err (set_loop false (joinable w) (pc w) w) else w.

(** ** Posting *)

Definition inc_connections w : EventLoopThread F := set_count (u64 (connection_count_ w + 1)) w.
Definition dec_connections w : EventLoopThread F := set_count (u64 (connection_count_ w - 1)) w.

(** The task is stored under an id and the id sent to this thread's ring through
    the caller's; if that throws the task is taken back. *)
Definition post_via_msg_ring (err : option Z) (caller : IoUring (loop_cb F)) t w
  : bool * IoUring (loop_cb F) * EventLoopThread F :=
  let task_id := next_task_id_ w in
  let w := set_tasks (<[task_id := t]> (pending_tasks_ w)) (task_queue_ w) (u64 (task_id + 1)) w in
  let erased := set_tasks (delete task_id (pending_tasks_ w)) (task_queue_ w) (next_task_id_ w) w in
  match prepare_msg_ring (ring_fd_ w) task_id CbNone caller with
  | Ret p => match submit err p.2 with Ret q => (true, q.2, w) | _ => (false, p.2, erased) end
  | _ => (false, caller, erased)
  end.

Definition thread_post (err : option Z) t w : EventLoopThread F :=
  wake err (set_tasks (pending_tasks_ w) (task_queue_ w ++ [t]) (next_task_id_ w) w).

Definition thread_post_fn (err : option Z) (fn : F) w : EventLoopThread F :=
  thread_post err (mkCross 0 0 (Some fn)) w.

(** [spawn]: [start] is the callable that starts the task. *)
Definition thread_spawn (err : option Z) (start : F) w : EventLoopThread F := thread_post_fn err start w.

(** The id, or what the call throws, and the thread. *)
Definition thread_set_timer (err : option Z) (delay : Z) (callback : F) w : outcome Z * EventLoopThread F :=
  let id := next_timer_id_ w in
  let w := set_timer_id (u64 (id + 1)) w in
  match to_kernel_timespec_ms delay with
  | Ret ts =>
      match prepare_timeout (tv_sec ts) (tv_nsec ts) 0 (CbTimer callback) 0 (io_uring_ w) with
      | Ret p => match submit err p.2 with
                 | Ret q => (Ret id, set_ring q.2 w)
                 | Throw e => (Throw e, set_ring p.2 w)
                 | Undef => (Undef, w)
                 end
      | Throw e => (Throw e, w)
      | Undef => (Undef, w)
      end
  | Throw e => (Throw e, w)
  | Undef => (Undef, w)
  end.

(** ** The loop *)

(** [process_tasks]: the stored tasks (in the map's order), then the queue; empty
    callables are skipped. *)
Definition thread_process_tasks w : EventLoopThread F :=
  set_ran (ran w ++ omap ct_fn ((map_to_list (pending_tasks_ w)).*2) ++ omap ct_fn (task_queue_ w))
    (set_tasks ∅ [] (next_task_id_ w) w).

(** The ring's callbacks; a timer runs its callable unless it was cancelled. *)
Definition loop_invoke (cb : loop_cb F) (res flags : Z) (s : IoUring (loop_cb F) * list F)
  : outcome (IoUring (loop_cb F) * list F) :=
  match cb with
  | CbNone => Ret s
  | CbTimer f => Ret (s.1, if (res =? - ETIME) || (res =? 0) then s.2 ++ [f] else s.2)
  end.

(** [run_once] from its wait on; the callbacks leave the completions alone, so
    their number is fuel enough. *)
Definition ring_round w : outcome (EventLoopThread F) :=
  let* x := after_wait loop_invoke (S (length (cq (io_uring_ w)))) (io_uring_ w, ran w) in
  match x with
  | Some (_, (r, l)) => Ret (set_ran l (set_ring r w))
  | None => Undef
  end.

(** The wait ends; an exception that leaves [run_loop] ends the program. *)
Definition end_wait w : outcome (EventLoopThread F) :=
  noexcept (let* w := ring_round w in Ret (set_pc AtTest w)).

(** A step of the loop's thread; [err] is a failure of the submission it makes.
    Without a completion it stays blocked. *)
Definition own_step (err : option Z) w : outcome (EventLoopThread F) :=
  match pc w with
  | Idle | Exited => Ret w
  | AtTest => Ret (set_pc (if lt_running_ w then InTasks else Exited) w)
  | InTasks => Ret (set_pc InRing (thread_process_tasks w))
  | InRing => noexcept (let* r := submit_wait_timeout err 10 (io_uring_ w) in Ret (set_pc InWait (set_ring r w)))
  | InWait => if bool_decide (cq (io_uring_ w) = []) then Ret w else end_wait w
  end.

(** The operations that complete by themselves. *)
Definition prompt (e : sqe) : bool := match sqe_op e with OpNop | OpTimeout _ _ _ => true | _ => false end.

(** The kernel: when the thread is blocked, one of these completes before its next
    turn, if there is one. *)
Definition kernel_turn w : EventLoopThread F :=
  match pc w, cq (io_uring_ w), list_find (fun e => prompt e = true) (inflight (io_uring_ w)) with
  | InWait, [], Some (i, e) =>
      set_ring (complete i (match sqe_op e with OpNop => 0 | _ => - ETIME end) 0 (io_uring_ w)) w
  | _, _, _ => w
  end.

(** None: the loop has not ended within [fuel] steps, or it is blocked for ever. *)
Fixpoint until_exit (fuel : nat) w : outcome (option (EventLoopThread F)) :=
  match pc w, fuel with
  | Exited, _ => Ret (Some w)
  | _, O => Ret None
  | _, S fuel => let* w := own_step None (kernel_turn w) in until_exit fuel w
  end.


(** ** The pool *)

Record EventLoopPool := mkLoopPool {
  worker_count_ : Z;      (* uint32_t *)
  queue_depth_ : Z;
  next_worker_ : Z;       (* uint32_t *)
  pool_running_ : bool;
  threads_ : list (EventLoopThread F);   (* main first *)
}.

Definition set_threads (ts : list (EventLoopThread F)) (p : EventLoopPool) : EventLoopPool :=
  mkLoopPool (worker_count_ p) (queue_depth_ p) (next_worker_ p) (pool_running_ p) ts.

(** The threads with ids [i], [i+1], ...; [fds] are the descriptors of the
    rings. *)
Fixpoint new_threads (queue_init : Z -> uring_params -> Z) (fds : Z -> Z) (n : nat) (i queue_depth : Z)
  : outcome (list (EventLoopThread F)) :=
  match n with
  | O => Ret []
  | S n =>
      let* th := EventLoopThread_new queue_init i (fds i) queue_depth in
      let* ts := new_threads queue_init fds n (i + 1) queue_depth in
      Ret (th :: ts)
  end.

Definition EventLoopPool_new (queue_init : Z -> uring_params -> Z) (fds : Z -> Z) (worker_count queue_depth : Z)
  : outcome EventLoopPool :=
  let* ts := new_threads queue_init fds (S (Z.to_nat worker_count)) 0 queue_depth in
  Ret (mkLoopPool worker_count queue_depth 0 false ts).

Fixpoint start_all (ts : list (EventLoopThread F)) : outcome (list (EventLoopThread F)) :=
  match ts with
  | [] => Ret []
  | th :: ts => let* th := thread_start th in let* ts := start_all ts in Ret (th :: ts)
  end.

(** [start]: the workers; the main loop is run by its owner. *)
Definition pool_start (p : EventLoopPool) : outcome EventLoopPool :=
  let* ts := start_all (tail (threads_ p)) in
  Ret (mkLoopPool (worker_count_ p) (queue_depth_ p) (next_worker_ p) true (take 1 (threads_ p) ++ ts)).



Definition main_loop (p : EventLoopPool) : outcome (EventLoopThread F) :=
  match threads_ p !! 0%nat with Some th => Ret th | None => Undef end.

Definition worker_loop (worker_id : Z) (p : EventLoopPool) : outcome (EventLoopThread F) :=
  match threads_ p !! Z.to_nat (worker_id + 1) with Some th => Ret th | None => Undef end.

Definition thread_count (p : EventLoopPool) : Z := u32 (zlen (threads_ p)).

(** The scan of [select_worker_least_connections] over the workers; [threads_[1]]
    is undefined without a worker. *)
Fixpoint least (i best best_count : Z) (counts : list Z) : Z :=
  match counts with
  | [] => best
  | c :: counts => if c <? best_count then least (i + 1) i c counts else least (i + 1) best best_count counts
  end.

Definition worker_counts (p : EventLoopPool) : list Z := connection_count_ <$> tail (threads_ p).

Definition select_worker_least_connections (p : EventLoopPool) : outcome Z :=
  match worker_counts p with
  | [] => Undef
  | c :: counts => Ret (least 0 0 c (c :: counts))
  end.

Definition select_worker_round_robin (p : EventLoopPool) : outcome (Z * EventLoopPool) :=
  if worker_count_ p =? 0 then Undef else
  Ret (next_worker_ p mod worker_count_ p,
       mkLoopPool (worker_count_ p) (queue_depth_ p) (u32 (next_worker_ p + 1)) (pool_running_ p) (threads_ p)).

(** [dispatch_to_worker(fd, on_ready, strategy)]; [task] is the callable made of
    [on_ready] and [fd], [err] a failure of the main ring's submission. *)
Definition dispatch_to_worker (lc : bool) (err : option Z) (fd : Z) (task : F) (p : EventLoopPool)
  : outcome (Z * EventLoopPool) :=
  let* sel := (if lc then let* i := select_worker_least_connections p in Ret (i, p)
               else select_worker_round_robin p) in
  let '(worker_id, p) := (sel : Z * EventLoopPool) in
  let* worker := worker_loop worker_id p in
  let* main := main_loop p in
  let worker := inc_connections worker in
  let '(sent, ring, worker) :=
    post_via_msg_ring err (io_uring_ main) (mkCross 1 (u64 fd) (Some task)) worker in
  let worker := if sent then worker else thread_post_fn None task worker in
  Ret (worker_id, set_threads (<[0%nat := set_ring ring main]>
                                 (<[Z.to_nat (worker_id + 1) := worker]> (threads_ p))) p).

Definition post_to_worker (worker_id : Z) (fn : F) (p : EventLoopPool) : outcome EventLoopPool :=
  let* w := worker_loop worker_id p in
  Ret (set_threads (<[Z.to_nat (worker_id + 1) := thread_post_fn None fn w]> (threads_ p)) p).

Definition post_to_main (fn : F) (p : EventLoopPool) : outcome EventLoopPool :=
  let* w := main_loop p in
  Ret (set_threads (<[0%nat := thread_post_fn None fn w]> (threads_ p)) p).

Definition connection_counts (p : EventLoopPool) : list Z := connection_count_ <$> threads_ p.

(** ** Schedules *)

(** What other threads and the kernel do to a loop thread: posts, ring messages,
    timers, counting, completions of its own operations, a message of another
    ring arriving, a stop request. *)
Inductive env_op :=
| EPost (err : option Z) (t : CrossThreadTask F)
| EMsg (err : option Z) (caller : IoUring (loop_cb F)) (t : CrossThreadTask F)
| ETimer (err : option Z) (delay : Z) (f : F)
| EInc
| EDec
| EComplete (i : nat) (res flags : Z)
| EArrive (id : Z)
| EStop (err : option Z).

Definition msg_arrives (id : Z) r : IoUring (loop_cb F) :=
  mkRing (queue_depth r) (sq r) (inflight r) (cq r ++ [mkCqe id 0 0]) (callbacks_ r) (next_callback_id_ r)
    (running_ r).

Definition env_step (o : env_op) w : EventLoopThread F :=
  match o with
  | EPost err t => thread_post err t w
  | EMsg err caller t => (post_via_msg_ring err caller t w).2
  | ETimer err delay f => (thread_set_timer err delay f w).2
  | EInc => inc_connections w
  | EDec => dec_connections w
  | EComplete i res flags => set_ring (complete i res flags (io_uring_ w)) w
  | EArrive id => set_ring (msg_arrives id (io_uring_ w)) w
  | EStop err => stop_request err w
  end.

(** [Own]: a turn of the loop's thread, with a failure of its submission; [Signal]:
    a signal interrupts its wait. *)
Inductive event := Own (err : option Z) | Signal | Env (o : env_op).

Fixpoint sched (evs : list event) w : outcome (EventLoopThread F) :=
  match evs with
  | [] => Ret w
  | Own err :: evs => let* w := own_step err (kernel_turn w) in sched evs w
  | Signal :: evs => let* w := match pc w with InWait => end_wait w | _ => Ret w end in sched evs w
  | Env o :: evs => sched evs (env_step o w)
  end.

Definition is_own (ev : event) : bool := match ev with Own _ => true | _ => false end.
Definition is_refused (ev : event) : bool := match ev with Own (Some _) => true | _ => false end.
Definition is_arrive (ev : event) : bool := match ev with Env (EArrive _) => true | _ => false end.
Definition is_stop (ev : event) : bool := match ev with Env (EStop _) => true | _ => false end.

(** No ring message arrives and the loop's own submissions are accepted. *)
Definition regular (evs : list event) : Prop := Forall (fun ev => is_refused ev = false /\ is_arrive ev = false) evs.

Definition owns (evs : list event) : nat := length (List.filter is_own evs).

(** ** The ring never calls an empty slot *)

Definition users r : list Z :=
  (sqe_user_data <$> sq r) ++ (sqe_user_data <$> inflight r) ++ (cqe_user_data <$> cq r).

(** Every operation prepared, in flight or completed has its callback. *)
Definition slots_ok r : Prop := Forall (fun u => u = 0 \/ is_Some (callbacks_ r !! u)) (users r).

Lemma slots_grow r r' :
  slots_ok r -> (forall u, u ∈ users r' -> u ∈ users r \/ u = 0 \/ is_Some (callbacks_ r' !! u)) ->
  (forall u, is_Some (callbacks_ r !! u) -> is_Some (callbacks_ r' !! u)) -> slots_ok r'.
Proof.
  unfold slots_ok. rewrite !Forall_forall. intros H Hu Hc u Hin. destruct (Hu u Hin) as [Hold|Hnew]; [|done].
  destruct (H u Hold); auto.
Qed.

Lemma prepare_slots op flags cb r p : slots_ok r -> prepare op flags cb r = Ret p -> slots_ok p.2.
Proof.
  intros H Hp. unfold prepare in Hp. destruct (sqe_free r); [|done]. injection Hp as <-.
  eapply slots_grow; [exact H| |]; unfold users; simpl.
  - intros u. rewrite fmap_app. simpl. rewrite !elem_of_app, list_elem_of_singleton. intros [[?| ->]|[?|?]]; auto.
    right. right. rewrite lookup_insert_eq. by eexists.
  - intros u Hu. destruct (decide (next_callback_id_ r mod kMaxCallbacks = u)) as [->|].
    + rewrite lookup_insert_eq. by eexists.
    + by rewrite lookup_insert_ne.
Qed.

Lemma submit_slots err r p : slots_ok r -> submit err r = Ret p -> slots_ok p.2.
Proof.
  intros H Hp. destruct err; [done|]. injection Hp as <-. eapply slots_grow; [exact H| |done].
  unfold users. simpl. intros u. rewrite fmap_app, !elem_of_app. tauto.
Qed.

Lemma complete_slots i res flags r : slots_ok r -> slots_ok (complete i res flags r).
Proof.
  intros H. unfold complete. destruct (inflight r !! i) as [e|] eqn:E; [|done].
  eapply slots_grow; [exact H| |done]. unfold users. simpl. intros u Hu. left. revert Hu.
  rewrite fmap_app, !elem_of_app. simpl. rewrite list_elem_of_singleton.
  assert (He : sqe_user_data e ∈ sqe_user_data <$> inflight r)
    by (apply list_elem_of_fmap_2; by eapply list_elem_of_lookup_2).
  intros [?|[Hd|[?| ->]]]; auto. right. left. apply list_elem_of_fmap in Hd as (x & -> & Hx).
  apply list_elem_of_fmap_2. by eapply list_elem_of_delete_inv.
Qed.

Lemma seen_slots r : slots_ok r -> slots_ok (cqe_seen r).
Proof.
  intros H. eapply slots_grow; [exact H| |done]. unfold users. simpl. intros u. rewrite !elem_of_app.
  intros [?|[?|Hu]]; auto. left. right. right. destruct (cq r); [done|]. simpl. by right.
Qed.

Lemma wait_timeout_slots ms r :
  slots_ok r -> slots_ok (waiting_ring ms r) /\ cq (waiting_ring ms r) = cq r /\
    forall e, e ∈ inflight r -> e ∈ inflight (waiting_ring ms r).
Proof.
  intros H. unfold waiting_ring, submit_wait_timeout. destruct (_ && _); [|done]. simpl. split; [|split; [done|intros e He; apply elem_of_app; by left]].
  eapply slots_grow; [exact H| |done]. unfold users. simpl. intros u.
  rewrite !fmap_app, !elem_of_app. simpl. rewrite list_elem_of_singleton. tauto.
Qed.

Lemma process_cqe_ok c rest r (l : list F) :
  cq r = c :: rest -> slots_ok r ->
  exists l', process_cqe loop_invoke c (r, l) = Ret (cqe_seen r, l ++ l').
Proof.
  intros Hq H. unfold process_cqe, get_callback. cbn [fst].
  destruct (cqe_user_data c =? 0) eqn:Ez; cbn [orb]; [exists []; by rewrite app_nil_r|].
  destruct (kMaxCallbacks <=? cqe_user_data c); [exists []; by rewrite app_nil_r|]. apply Z.eqb_neq in Ez.
  unfold slots_ok, users in H. rewrite Hq, Forall_app, Forall_app in H. destruct H as (_ & _ & H).
  simpl in H. apply Forall_cons in H as [[?|[cb Hcb]] _]; [done|]. rewrite Hcb.
  destruct cb as [|f]; simpl; [exists []; by rewrite app_nil_r|].
  destruct (_ || _); [by exists [f]|exists []; by rewrite app_nil_r].
Qed.

Lemma process_all_ok fuel : forall r (l : list F) n,
  slots_ok r -> (length (cq r) < fuel)%nat ->
  exists m r' l', process_all_loop loop_invoke fuel n (r, l) = Ret (Some (m, (r', l ++ l'))) /\
    slots_ok r' /\ cq r' = [].
Proof.
  induction fuel as [|fuel IH]; intros r l n H Hf; [lia|]. cbn [process_all_loop fst].
  destruct (cq r) as [|c rest] eqn:Hq.
  - exists n, r, []. by rewrite app_nil_r.
  - destruct (process_cqe_ok c rest r l Hq H) as [l1 ->]. cbn [mbind outcome_bind].
    destruct (IH (cqe_seen r) (l ++ l1) (u32 (n + 1))) as (m & r' & l' & -> & Hs & Hc).
    + by apply seen_slots.
    + simpl in *. rewrite Hq. simpl. lia.
    + exists m, r', (l1 ++ l'). by rewrite app_assoc.
Qed.

(** The ring's part of a round ends without an exception. *)
Lemma end_wait_ok w :
  slots_ok (io_uring_ w) ->
  exists r l, end_wait w = Ret (set_pc AtTest (set_ran (ran w ++ l) (set_ring r w))) /\ slots_ok r.
Proof.
  intros H. unfold end_wait, ring_round, after_wait. cbn [fst snd]. set (r1 := io_uring_ w) in *.
  assert (Hfirst : exists r2 l2, match cq r1 with
      | [] => Ret (r1, ran w)
      | c :: _ => if negb (cqe_user_data c =? 0) then process_cqe loop_invoke c (r1, ran w) else Ret (seen (r1, ran w))
      end = Ret (r2, ran w ++ l2) /\ slots_ok r2 /\ (length (cq r2) <= length (cq r1))%nat).
  { destruct (cq r1) as [|c rest] eqn:Hc.
    - exists r1, []. rewrite app_nil_r, Hc. done.
    - destruct (negb _).
      + destruct (process_cqe_ok c rest r1 (ran w) Hc H) as [l2 ->]. exists (cqe_seen r1), l2.
        split_and!; [done|by apply seen_slots|simpl; rewrite Hc; simpl; lia].
      + exists (cqe_seen r1), []. rewrite app_nil_r. split_and!; [done|by apply seen_slots|simpl; rewrite Hc; simpl; lia]. }
  destruct Hfirst as (r2 & l2 & -> & H2 & Hlen). cbn [mbind outcome_bind].
  destruct (process_all_ok (S (length (cq r1))) r2 (ran w ++ l2) 0 H2) as (m & r' & l' & E & Hs & _); [lia|].
  unfold process_all_cqe. rewrite E. cbn [mbind outcome_bind]. exists r', (l2 ++ l'). by rewrite app_assoc.
Qed.

(** ** Waking up *)

(** A completion is there or will be. *)
Definition wakeable r : Prop := cq r <> [] \/ exists e, e ∈ inflight r /\ prompt e = true.

Lemma wakeable_grow r r' :
  wakeable r -> cq r' = cq r -> (forall e, e ∈ inflight r -> e ∈ inflight r') -> wakeable r'.
Proof. intros [?|(e & ? & ?)] Hc Hi; [left; congruence|right; eauto]. Qed.

Lemma prepare_wakeable op flags cb r p : wakeable r -> prepare op flags cb r = Ret p -> wakeable p.2.
Proof. intros H Hp. unfold prepare in Hp. destruct (sqe_free r); [|done]. injection Hp as <-. by eapply wakeable_grow. Qed.

Lemma submit_wakeable err r p : wakeable r -> submit err r = Ret p -> wakeable p.2.
Proof.
  intros H Hp. destruct err; [done|]. injection Hp as <-. eapply wakeable_grow; [exact H|done|].
  intros e He. simpl. apply elem_of_app. by left.
Qed.

Lemma complete_wakeable i res flags r : wakeable r -> wakeable (complete i res flags r).
Proof.
  intros H. unfold complete. destruct (inflight r !! i) as [e|]; [|done]. left. simpl. by destruct (cq r).
Qed.

(** A wake-up that is accepted wakes. *)
Lemma wake_wakeable err w :
  wakeable (io_uring_ w) \/ err = None /\ sqe_free (io_uring_ w) = true -> wakeable (io_uring_ (wake err w)).
Proof.
  unfold wake. intros H. destruct (prepare_nop CbNone (io_uring_ w)) as [p| |] eqn:Ep.
  - destruct H as [H|[-> Hf]].
    + pose proof (prepare_wakeable _ _ _ _ _ H Ep) as Hp. destruct (submit err p.2) as [q| |] eqn:Eq; [|done..].
      by eapply submit_wakeable.
    + unfold prepare_nop, prepare in Ep. rewrite Hf in Ep. injection Ep as <-. simpl. right.
      eexists. split; [apply elem_of_app; right; apply elem_of_app; right; by apply list_elem_of_singleton|done].
  - destruct H as [?|[_ Hf]]; [done|]. unfold prepare_nop, prepare in Ep. by rewrite Hf in Ep.
  - destruct H as [?|[_ Hf]]; [done|]. unfold prepare_nop, prepare in Ep. by rewrite Hf in Ep.
Qed.

(** The kernel's turn leaves a thread that can wake with a completion. *)
Lemma kernel_turn_spec w :
  slots_ok (io_uring_ w) ->
  exists r, kernel_turn w = set_ring r w /\ slots_ok r /\ (wakeable (io_uring_ w) -> wakeable r) /\
    (pc w = InWait -> wakeable (io_uring_ w) -> cq r <> []).
Proof.
  intros Hs. unfold kernel_turn.
  destruct (pc w) eqn:Ep; try (exists (io_uring_ w); by destruct w).
  destruct (cq (io_uring_ w)) as [|c cs] eqn:Hc.
  2:{ exists (io_uring_ w). split_and!; [by destruct w|done|done|by rewrite Hc]. }
  destruct (list_find _ _) as [[i e]|] eqn:Hf.
  - eexists. split; [done|]. split; [by apply complete_slots|]. split; [by apply complete_wakeable|].
    intros _ _. apply list_find_Some in Hf as (Hi & _ & _). unfold complete. rewrite Hi. simpl. by rewrite Hc.
  - exists (io_uring_ w). split_and!; [by destruct w|done|done|]. intros _ [?|(e & He & Hpe)]; [done|].
    apply list_find_None in Hf. rewrite Forall_forall in Hf. by destruct (Hf e He).
Qed.

Lemma wake_slots err w : slots_ok (io_uring_ w) -> exists r, wake err w = set_ring r w /\ slots_ok r.
Proof.
  intros H. unfold wake. destruct (prepare_nop CbNone (io_uring_ w)) as [p| |] eqn:Ep.
  2,3: exists (io_uring_ w); by destruct w.
  apply prepare_slots in Ep; [|done]. destruct (submit err p.2) as [q| |] eqn:Eq; [|by exists p.2..].
  exists q.2. split; [done|]. by eapply submit_slots.
Qed.

(** ** Progress *)

Definition thread_inv w : Prop :=
  slots_ok (io_uring_ w) /\ 0 <= next_task_id_ w /\
  forall id, is_Some (pending_tasks_ w !! id) -> id < next_task_id_ w.

(** Callable [f] is waiting in [w]'s map or queue. *)
Definition queued (f : F) w : Prop :=
  exists t, ct_fn t = Some f /\ ((exists id, pending_tasks_ w !! id = Some t) \/ t ∈ task_queue_ w).

(** What an environment step keeps. *)
Definition env_keeps (stop : bool) w w' : Prop :=
  thread_inv w' /\ pc w' = pc w /\ ran w' = ran w /\ joinable w' = joinable w /\
  lt_running_ w' = (if stop then false else lt_running_ w) /\
  next_task_id_ w' <= next_task_id_ w + 1 /\ (forall f, queued f w -> queued f w') /\
  (wakeable (io_uring_ w) -> wakeable (io_uring_ w')).

Lemma wake_keeps err w : thread_inv w -> env_keeps false w (wake err w).
Proof.
  intros (Hs & H0 & Hid). pose proof (fun H => wake_wakeable err w (or_introl H)) as Hw. revert Hw.
  destruct (wake_slots err w Hs) as (r & -> & Hr). unfold env_keeps, thread_inv. simpl. intros Hw. split_and!; done || lia.
Qed.

Lemma keeps_then b1 b2 w1 w2 w3 :
  env_keeps b1 w1 w2 -> env_keeps b2 w2 w3 -> next_task_id_ w2 = next_task_id_ w1 ->
  env_keeps (b2 || b1) w1 w3.
Proof.
  intros (_ & ? & ? & ? & Hr & _ & Hq & ?) (Hi & ? & ? & ? & Hr' & ? & Hq' & ?) ?. unfold env_keeps.
  split_and!; try done; try congruence; try lia; auto. rewrite Hr', Hr. by destruct b1, b2.
Qed.

Lemma post_keeps err t w : thread_inv w -> env_keeps false w (thread_post err t w).
Proof.
  intros Hi. unfold thread_post. set (w1 := set_tasks _ _ _ w).
  apply (keeps_then false false w w1); [|apply wake_keeps; exact Hi|done].
  unfold env_keeps. simpl. split_and!; try done; [lia|].
  intros f (u & Hu & [?|?]); exists u; split; auto. right. simpl. by apply elem_of_app; left.
Qed.

Lemma msg_keeps err caller t w :
  thread_inv w -> next_task_id_ w + 1 < 2 ^ 64 -> env_keeps false w (post_via_msg_ring err caller t w).2.
Proof.
  intros (Hs & H0 & Hid) Hb.
  assert (Hn : pending_tasks_ w !! next_task_id_ w = None).
  { destruct (pending_tasks_ w !! next_task_id_ w) eqn:E; [|done]. specialize (Hid (next_task_id_ w)).
    rewrite E in Hid. specialize (Hid ltac:(by eexists)). lia. }
  assert (Hboth : forall m, (m = <[next_task_id_ w := t]> (pending_tasks_ w) \/ m = pending_tasks_ w) ->
            env_keeps false w (set_tasks m (task_queue_ w) (u64 (next_task_id_ w + 1)) w)).
  { intros m Hm. unfold env_keeps, thread_inv. simpl. rewrite wrap_small by (unfold is_u; lia).
    split_and!; try done; try lia.
    - intros id Hin. destruct Hm as [-> | ->]; [|apply Hid in Hin; lia].
      destruct (decide (next_task_id_ w = id)) as [->|?]; [lia|]. rewrite lookup_insert_ne in Hin by done.
      apply Hid in Hin. lia.
    - intros f (u & Hu & [[id E]|?]); exists u; (split; [done|]); [left; exists id|by right].
      simpl. destruct Hm as [-> | ->]; [|done]. rewrite lookup_insert_ne; [done|]. congruence. }
  unfold post_via_msg_ring. destruct (prepare_msg_ring _ _ _ caller) as [p| |]; [destruct (submit err p.2)| |];
    cbn [snd]; try (apply Hboth; by left).
  all: unfold set_tasks; simpl; rewrite delete_insert_id by done; apply (Hboth _ (or_intror eq_refl)).
Qed.

Lemma timer_keeps err delay f w : thread_inv w -> env_keeps false w (thread_set_timer err delay f w).2.
Proof.
  intros (Hs & H0 & Hid). unfold thread_set_timer.
  assert (Hr : forall r, slots_ok r -> (wakeable (io_uring_ w) -> wakeable r) ->
                env_keeps false w (set_ring r (set_timer_id (u64 (next_timer_id_ w + 1)) w)))
    by (intros r Hr Hk; unfold env_keeps, thread_inv; simpl; split_and!; done || lia).
  destruct (to_kernel_timespec_ms delay) as [ts| |]; [|apply (Hr _ Hs id)..].
  destruct (prepare_timeout _ _ _ _ _ _) as [p| |] eqn:Ep; [|apply (Hr _ Hs id)..].
  pose proof (fun H => prepare_wakeable _ _ _ _ _ H Ep) as Hw. apply prepare_slots in Ep; [|exact Hs].
  destruct (submit err p.2) as [q| |] eqn:Eq; [|by apply Hr|apply (Hr _ Hs id)].
  apply Hr; [by eapply submit_slots|]. intros H. eapply submit_wakeable, Eq. by apply Hw.
Qed.

Lemma stop_keeps err w : thread_inv w -> env_keeps true w (stop_request err w).
Proof.
  intros Hi. unfold stop_request. destruct (lt_running_ w) eqn:Er.
  - apply (keeps_then true false w (set_loop false (joinable w) (pc w) w)); [|by apply wake_keeps|done].
    unfold env_keeps. simpl. split_and!; done || lia.
  - unfold env_keeps. split_and!; done || lia.
Qed.

Lemma env_step_keeps o w :
  is_arrive (Env o) = false -> thread_inv w -> next_task_id_ w + 1 < 2 ^ 64 ->
  env_keeps (is_stop (Env o)) w (env_step o w).
Proof.
  intros Ha Hi Hb. pose proof Hi as (Hs & H0 & Hid).
  destruct o as [err t|err caller t|err delay f| | |i res flags|id|err]; simpl; try done.
  - by apply post_keeps.
  - by apply msg_keeps.
  - by apply timer_keeps.
  - unfold env_keeps, thread_inv. simpl. split_and!; done || lia.
  - unfold env_keeps, thread_inv. simpl. split_and!; done || lia.
  - unfold env_keeps, thread_inv. simpl. split_and!; try done; [by apply complete_slots|lia|].
    by apply complete_wakeable.
  - by apply stop_keeps.
Qed.

(** A turn of the loop's own thread never throws when its submission is accepted;
    it runs all that waits when it is at its tasks, and ends its wait when a
    completion can come. *)
Lemma own_step_ok w :
  thread_inv w ->
  exists w', own_step None (kernel_turn w) = Ret w' /\ thread_inv w' /\ next_task_id_ w' = next_task_id_ w /\
    lt_running_ w' = lt_running_ w /\ joinable w' = joinable w /\ (forall f, f ∈ ran w -> f ∈ ran w') /\
    (pc w <> InWait -> wakeable (io_uring_ w) -> wakeable (io_uring_ w')) /\
    match pc w with
    | AtTest => pc w' = (if lt_running_ w then InTasks else Exited) /\ (forall f, queued f w -> queued f w')
    | InTasks => pc w' = InRing /\ (forall f, queued f w -> f ∈ ran w')
    | InRing => pc w' = InWait /\ (forall f, queued f w -> queued f w')
    | InWait => (pc w' = AtTest \/ ~ wakeable (io_uring_ w) /\ pc w' = InWait) /\ (forall f, queued f w -> queued f w')
    | _ => pc w' = pc w /\ ran w' = ran w
    end.
Proof.
  intros Hi. pose proof Hi as (Hs & H0 & Hid). destruct (kernel_turn_spec w Hs) as (r & -> & Hr & Hk & Hc).
  unfold own_step. simpl pc. destruct (pc w) eqn:Epc.
  - eexists. split; [done|]. by split_and!.
  - eexists. split; [done|]. by split_and!.
  - eexists. split; [done|]. unfold thread_inv. simpl. split_and!; try done.
    + intros id. rewrite lookup_empty. by intros [? ?].
    + intros f Hf. apply elem_of_app. by left.
    + intros f (t & Ht & Hq). rewrite !elem_of_app, !list_elem_of_omap. right. destruct Hq as [[id E]|Hin].
      * left. exists t. split; [|done]. apply list_elem_of_fmap. exists (id, t). split; [done|].
        by apply elem_of_map_to_list.
      * right. by exists t.
  - simpl io_uring_. rewrite submit_wait_timeout_None. eexists. split; [done|].
    destruct (wait_timeout_slots 10 r Hr) as (Hr1 & Hcq & Hin). unfold thread_inv. simpl. split_and!; try done.
    intros _ H. apply (wakeable_grow r); auto.
  - simpl io_uring_. case_bool_decide as E.
    + eexists. split; [done|]. unfold thread_inv. simpl. split_and!; try done. right. split; [|done].
      intros H. by apply Hc.
    + destruct (end_wait_ok (set_ring r w) Hr) as (r' & l & -> & Hr'). eexists. split; [done|].
      unfold thread_inv. simpl. split_and!; try done; [|by left]. intros f Hf. apply elem_of_app. by left.
  - eexists. split; [done|]. by split_and!.
Qed.

(** An interrupted wait ends. *)
Lemma signal_ok w :
  thread_inv w ->
  exists w', match pc w with InWait => end_wait w | _ => Ret w end = Ret w' /\ thread_inv w' /\
    next_task_id_ w' = next_task_id_ w /\ lt_running_ w' = lt_running_ w /\ joinable w' = joinable w /\
    (forall f, f ∈ ran w -> f ∈ ran w') /\ (forall f, queued f w -> queued f w') /\
    (w' = w \/ pc w = InWait /\ pc w' = AtTest).
Proof.
  intros Hi. destruct (pc w) eqn:Epc; try (exists w; split_and!; auto; fail).
  destruct Hi as (Hs & H0 & Hid). destruct (end_wait_ok w Hs) as (r & l & -> & Hr). eexists. split; [done|].
  unfold thread_inv. simpl. split_and!; try done; [|by right]. intros f Hf. apply elem_of_app. by left.
Qed.

(** Steps the loop still needs: to run what waits, and to exit once it has been
    stopped. *)
Definition to_tasks (k : loop_pc) : nat :=
  match k with InTasks => 1 | AtTest => 2 | InWait => 3 | InRing => 4 | _ => 5 end.
Definition to_exit (k : loop_pc) : nat :=
  match k with Exited => 0 | AtTest => 1 | InWait => 2 | InRing => 3 | InTasks => 4 | Idle => 5 end.

Definition looping (k : loop_pc) : Prop := match k with AtTest | InTasks | InRing | InWait => True | _ => False end.

(** Before its tasks the loop waits at most for what is there to end the wait. *)
Definition can_pass w : Prop := match pc w with InRing | InWait => wakeable (io_uring_ w) | _ => True end.

Lemma posted_progress evs : forall w f,
  thread_inv w -> next_task_id_ w + zlen evs < 2 ^ 64 -> regular evs -> existsb is_stop evs = false ->
  lt_running_ w = true -> looping (pc w) ->
  f ∈ ran w \/ (queued f w /\ can_pass w /\ (to_tasks (pc w) <= owns evs)%nat) ->
  exists w', sched evs w = Ret w' /\ f ∈ ran w'.
Proof.
  unfold owns. induction evs as [|ev evs IH]; intros w f Hi Hb Hg Hst Hr Hl Hf; simpl.
  { destruct Hf as [?|(_ & _ & Hle)]; [eauto|]. destruct (pc w); simpl in Hle; done || lia. }
  apply Forall_cons in Hg as [[Hre Ha] Hg]. simpl in Hst. apply orb_false_elim in Hst as [Hst Hsts]. simpl length in Hb.
  destruct ev as [[e|]| |o]; [done|..].
  - destruct (own_step_ok w Hi) as (w1 & -> & Hi1 & Hn1 & Hr1 & _ & Hk1 & Hw1 & Hpc). cbn [mbind outcome_bind].
    simpl in Hf. rewrite Hr in Hr1, Hpc. apply IH; [done|lia|done|done|done| |].
    + destruct (pc w); try done; destruct Hpc as [Hpc _]; [by rewrite Hpc..|by destruct Hpc as [-> |[_ ->]]].
    + destruct Hf as [?|(Hq & Hc & Hle)]; [auto|]. unfold can_pass in *.
      destruct (pc w); try done; destruct Hpc as [Epc Hpc]; [right|left; auto|right|right];
        [rewrite Epc; simpl in *; split_and!; auto; lia..|].
      destruct Epc as [-> |[? _]]; [|done]. simpl in *. split_and!; auto; lia.
  - destruct (signal_ok w Hi) as (w1 & -> & Hi1 & Hn1 & Hr1 & _ & Hk1 & Hq1 & Hpc). cbn [mbind outcome_bind].
    simpl in Hf. apply IH; [done|lia|done|done|congruence| |].
    + by destruct Hpc as [-> |[_ ->]].
    + destruct Hf as [?|(Hq & Hc & Hle)]; [auto|]. right. split; [auto|]. unfold can_pass.
      destruct Hpc as [-> |[E ->]]; [done|]. rewrite E in Hle. simpl in *. split; [done|lia].
  - destruct (env_step_keeps o w Ha Hi) as (Hi1 & Hp1 & Hran & _ & Hr1 & Hn1 & Hq1 & Hw1); [lia|].
    rewrite Hst in Hr1. apply IH; [done|lia|done|done|congruence|by rewrite Hp1|].
    unfold can_pass in *. rewrite Hran, Hp1. destruct Hf as [?|(? & ? & Hle)]; [auto|]. right.
    split_and!; [auto|by destruct (pc w); auto|exact Hle].
Qed.

(** C19: a posted task runs: when the wake-up of its post is accepted and the loop
    is running, whatever other threads post, time, count and complete and signals
    interrupt in between, four turns of the loop's thread later at most the task has
    been run, and no exception has stopped the loop.  A turn of the blocked thread
    comes after the completion of a no-op or timeout, if one is in flight; accesses
    to the ring are taken one at a time, no stop is requested, no ring message
    arrives, and the loop's own submissions are accepted. *)
Theorem posted_task_runs evs w f :
  thread_inv w -> next_task_id_ w + zlen evs + 1 < 2 ^ 64 ->
  lt_running_ w = true -> looping (pc w) -> sqe_free (io_uring_ w) = true ->
  regular evs -> existsb is_stop evs = false -> (4 <= owns evs)%nat ->
  exists w', sched (Env (EPost None (mkCross 0 0 (Some f))) :: evs) w = Ret w' /\ f ∈ ran w'.
Proof.
  intros Hi Hb Hr Hl Hf Hg Hs Ho. cbn [sched env_step].
  destruct (post_keeps None (mkCross 0 0 (Some f)) w Hi) as (Hi1 & Hp1 & _ & _ & Hr1 & Hn1 & _).
  set (w1 := set_tasks (pending_tasks_ w) (task_queue_ w ++ [mkCross 0 0 (Some f)]) (next_task_id_ w) w).
  assert (Hw : wakeable (io_uring_ (wake None w1))) by (apply wake_wakeable; by right).
  apply posted_progress; try done; [lia|congruence|by rewrite Hp1|]. right. split_and!.
  - exists (mkCross 0 0 (Some f)). split; [done|]. right. unfold thread_post. fold w1.
    destruct (wake_slots None w1) as (r & -> & _); [apply Hi|]. simpl. apply elem_of_app. right.
    by apply list_elem_of_singleton.
  - unfold can_pass. rewrite Hp1. destruct (pc w); try exact I; exact Hw.
  - rewrite Hp1. destruct (pc w); try done; simpl; lia.
Qed.

(** A stopped loop waits at most once more, for what is there to end the wait. *)
Definition can_end w : Prop := match pc w with InTasks | InRing | InWait => wakeable (io_uring_ w) | _ => True end.

Lemma exit_step w :
  thread_inv w -> lt_running_ w = false -> pc w <> Idle -> can_end w ->
  exists w', own_step None (kernel_turn w) = Ret w' /\ thread_inv w' /\ next_task_id_ w' = next_task_id_ w /\
    lt_running_ w' = false /\ pc w' <> Idle /\ can_end w' /\ to_exit (pc w') = pred (to_exit (pc w)) /\
    (pc w = Exited -> ran w' = ran w).
Proof.
  intros Hi Hr Hp Hc. destruct (own_step_ok w Hi) as (w1 & -> & Hi1 & Hn1 & Hr1 & _ & _ & Hw1 & Hpc).
  exists w1. rewrite Hr in Hr1, Hpc. unfold can_end in *. split; [done|].
  destruct (pc w); try (destruct Hpc as [Epc Hran]; rewrite Epc; split_and!; done || auto; fail).
  destruct Hpc as [[-> |[? _]] _]; by split_and!.
Qed.

Lemma stop_wakes w :
  thread_inv w -> lt_running_ w = true -> sqe_free (io_uring_ w) = true ->
  thread_inv (stop_request None w) /\ pc (stop_request None w) = pc w /\
  lt_running_ (stop_request None w) = false /\ next_task_id_ (stop_request None w) = next_task_id_ w /\
  can_end (stop_request None w).
Proof.
  intros Hi Hr Hf. destruct (stop_keeps None w Hi) as (Hi1 & Hp1 & _ & _ & Hr1 & _). split_and!; [done..| |].
  - unfold stop_request. rewrite Hr. by destruct (wake_slots None (set_loop false (joinable w) (pc w) w) (proj1 Hi)) as (r & -> & _).
  - assert (wakeable (io_uring_ (stop_request None w))); [|unfold can_end; by destruct (pc _)].
    unfold stop_request. rewrite Hr. apply wake_wakeable. by right.
Qed.

Lemma exits evs : forall w,
  thread_inv w -> next_task_id_ w + zlen evs < 2 ^ 64 -> regular evs ->
  lt_running_ w = false -> pc w <> Idle -> can_end w -> (to_exit (pc w) <= owns evs)%nat ->
  exists w', sched evs w = Ret w' /\ pc w' = Exited /\ thread_inv w' /\
    next_task_id_ w' <= next_task_id_ w + zlen evs.
Proof.
  unfold owns. induction evs as [|ev evs IH]; intros w Hi Hb Hg Hr Hl Hc Hle; simpl.
  { exists w. split_and!; [done|destruct (pc w); simpl in Hle; done || lia|done|simpl; lia]. }
  apply Forall_cons in Hg as [[Hre Ha] Hg]. simpl length in *. destruct ev as [[e|]| |o]; [done|..].
  - destruct (exit_step w) as (w1 & -> & Hi1 & Hn1 & Hr1 & Hl1 & Hc1 & He1 & _); [done..|]. cbn [mbind outcome_bind].
    destruct (IH w1) as (w' & E' & ? & ? & ?); try done; [lia|rewrite He1; simpl in Hle; lia|].
    exists w'. split_and!; done || lia.
  - destruct (signal_ok w Hi) as (w1 & -> & Hi1 & Hn1 & Hr1 & _ & _ & _ & Hpc). cbn [mbind outcome_bind].
    unfold can_end in *. simpl in Hle.
    destruct (IH w1) as (w' & E' & ? & ? & ?); [done|lia|done|congruence|..|exists w'; split_and!; done || lia].
    + by destruct Hpc as [-> |[_ ->]].
    + by destruct Hpc as [-> |[_ ->]].
    + destruct Hpc as [-> |[E ->]]; [done|]. rewrite E in Hle. simpl in *. lia.
  - destruct (env_step_keeps o w Ha Hi) as (Hi1 & Hp1 & _ & _ & Hr1 & Hn1 & _ & Hw1); [lia|].
    destruct (IH (env_step o w)) as (w' & E' & ? & ? & ?); [done|lia|done|..|exists w'; split_and!; done || lia].
    + rewrite Hr1. by destruct (is_stop _).
    + by rewrite Hp1.
    + unfold can_end in *. rewrite Hp1. destruct (pc w); auto.
    + by rewrite Hp1.
Qed.

Lemma exited_stays evs : forall w w',
  sched evs w = Ret w' -> pc w = Exited -> regular evs -> thread_inv w ->
  next_task_id_ w + zlen evs < 2 ^ 64 -> ran w' = ran w.
Proof.
  induction evs as [|ev evs IH]; intros w w' Hs Hp Hg Hi Hb; simpl in Hs; [by injection Hs as <-|].
  apply Forall_cons in Hg as [[Hre Ha] Hg]. simpl length in Hb. destruct ev as [[e|]| |o]; [done|..].
  - unfold kernel_turn, own_step in Hs. rewrite Hp in Hs. rewrite Hp in Hs. apply (IH w w' Hs Hp Hg Hi). lia.
  - rewrite Hp in Hs. apply (IH w w' Hs Hp Hg Hi). lia.
  - destruct (env_step_keeps o w Ha Hi) as (Hi1 & Hp1 & Hran & _ & _ & Hn1 & _); [lia|].
    rewrite <- Hran. apply (IH _ w' Hs); [by rewrite Hp1|done|done|lia].
Qed.

(** A stopped loop ends: once [stop] has cleared [running_] and its wake-up is
    accepted, the loop's thread exits within four of its own turns, whatever the
    others do meanwhile, so the join in [stop] returns; what is still queued then
    is never run. *)
Theorem stopped_loop_ends evs w :
  thread_inv w -> next_task_id_ w + zlen evs < 2 ^ 64 -> lt_running_ w = true -> looping (pc w) ->
  sqe_free (io_uring_ w) = true -> regular evs -> (4 <= owns evs)%nat ->
  exists w', sched evs (stop_request None w) = Ret w' /\ pc w' = Exited /\
    forall evs' w'', regular evs' -> next_task_id_ w' + zlen evs' < 2 ^ 64 ->
      sched evs' w' = Ret w'' -> ran w'' = ran w'.
Proof.
  intros Hi Hb Hr Hl Hf Hg Ho. destruct (stop_wakes w Hi Hr Hf) as (Hi1 & Hp1 & Hr1 & Hn1 & Hc).
  destruct (exits evs (stop_request None w)) as (w' & E & Hp & Hi' & Hn); try done; [lia|..].
  - rewrite Hp1. by destruct (pc w).
  - rewrite Hp1. destruct (pc w); try done; simpl; lia.
  - exists w'. split_and!; [done..|]. intros evs' w'' Hg' Hb' Hs. by eapply exited_stays.
Qed.

(** ** Stopping the pool *)








(** ** Ring messages *)

(** The id in a ring message is taken for a callback slot: while the thread
    waits in its ring, the message of a task sent to it ends the program if the
    slot with the task's id is empty, and runs the timer that slot belongs to,
    long before it is due, if it holds one. *)
Theorem message_hits_callback_slot err caller ring t w w1 :
  pc w = InWait -> cq (io_uring_ w) = [] -> 0 < next_task_id_ w < kMaxCallbacks ->
  post_via_msg_ring err caller t w = (true, ring, w1) ->
  match callbacks_ (io_uring_ w) !! next_task_id_ w with
  | None => sched [Env (EArrive (next_task_id_ w)); Own None] w1 = Throw "std::terminate"
  | Some CbNone => True
  | Some (CbTimer f) => exists w2, sched [Env (EArrive (next_task_id_ w)); Own None] w1 = Ret w2 /\ ran w2 = ran w ++ [f]
  end.
Proof.
  intros Hp Hq Hn Hm. assert (E : w1 = set_tasks (<[next_task_id_ w := t]> (pending_tasks_ w)) (task_queue_ w)
                                      (u64 (next_task_id_ w + 1)) w).
  { unfold post_via_msg_ring in Hm. destruct (prepare_msg_ring _ _ _ caller) as [q| |]; [|done..].
    destruct (submit err q.2); [|done..]. by injection Hm as _ <-. }
  assert (Hg : get_callback (mkCqe (next_task_id_ w) 0 0) (io_uring_ w) = Some (callbacks_ (io_uring_ w) !! next_task_id_ w)).
  { unfold get_callback. cbn [cqe_user_data].
    by rewrite (proj2 (Z.eqb_neq _ 0)), (proj2 (Z.leb_gt _ (next_task_id_ w))) by lia. }
  subst w1. set (c := mkCqe (next_task_id_ w) 0 0) in *. cbn [sched env_step]. unfold kernel_turn. simpl pc.
  unfold own_step. simpl. rewrite Hp, Hq. simpl. rewrite Hp, Hq. simpl.
  unfold end_wait, ring_round, after_wait. simpl. rewrite Hq. simpl. rewrite (proj2 (Z.eqb_neq _ 0)) by lia. cbn [negb].
  unfold process_cqe. cbn [fst]. unfold get_callback in *. cbn [cqe_user_data c callbacks_ msg_arrives] in *. rewrite Hg.
  destruct (callbacks_ (io_uring_ w) !! next_task_id_ w) as [[|f]|]; [done| |done].
  unfold process_all_cqe, seen, cqe_seen. simpl. rewrite Hq. by eexists.
Qed.

(** ** Least connections keeps the workers balanced *)

Lemma least_spec counts : forall i best m pre,
  i = zlen pre -> 0 <= best -> pre !! Z.to_nat best = Some m -> (forall j c, pre !! j = Some c -> m <= c) ->
  exists c, 0 <= least i best m counts /\ (pre ++ counts) !! Z.to_nat (least i best m counts) = Some c /\
    forall j c', (pre ++ counts) !! j = Some c' -> c <= c'.
Proof.
  induction counts as [|x counts IH]; intros i best m pre Hi Hb0 Hb Hm; simpl.
  - rewrite app_nil_r. eauto.
  - assert (Hsnoc : forall j c, (pre ++ [x]) !! j = Some c -> pre !! j = Some c \/ c = x).
    { intros j s [Hj|[_ Hj]]%lookup_app_Some; [auto|]. right. destruct (j - length pre)%nat; by inversion Hj. }
    destruct (Z.ltb_spec x m).
    + destruct (IH (i + 1) i x (pre ++ [x])) as (c & H0 & E & Hs); [rewrite length_app; simpl; lia|lia| | |].
      * rewrite Hi, Nat2Z.id. by apply list_lookup_middle.
      * intros j s [Hj| ->]%Hsnoc; [apply Hm in Hj|]; lia.
      * rewrite <- app_assoc in E, Hs. eauto.
    + destruct (IH (i + 1) best m (pre ++ [x])) as (c & H0 & E & Hs); [rewrite length_app; simpl; lia|done| | |].
      * by apply lookup_app_l_Some.
      * intros j s [Hj| ->]%Hsnoc; [by apply Hm in Hj|done].
      * rewrite <- app_assoc in E, Hs. eauto.
Qed.

Lemma select_least p i :
  select_worker_least_connections p = Ret i ->
  exists c, 0 <= i /\ worker_counts p !! Z.to_nat i = Some c /\
    forall j c', worker_counts p !! j = Some c' -> c <= c'.
Proof.
  unfold select_worker_least_connections. destruct (worker_counts p) as [|c counts]; [done|]. intros [= <-].
  cbn [least]. rewrite Z.ltb_irrefl. apply (least_spec counts 1 0 c [c]); try done.
  intros [|j] c' Hj; by inversion Hj.
Qed.

(** Two workers never differ by more than one connection. *)
Definition balanced (counts : list Z) : Prop :=
  forall i j a b, counts !! i = Some a -> counts !! j = Some b -> a <= b + 1.

Lemma balanced_insert counts k c :
  balanced counts -> counts !! k = Some c -> (forall j c', counts !! j = Some c' -> c <= c') ->
  balanced (<[k := c + 1]> counts).
Proof.
  intros Hbal Hk Hmin i j a b Ha Hb. apply list_lookup_insert_Some in Ha as [(<- & <- & _)|[? Ha]];
    apply list_lookup_insert_Some in Hb as [(<- & <- & _)|[? Hb]]; [lia|apply Hmin in Hb; lia| |by eapply Hbal].
  pose proof (Hbal _ _ _ _ Ha Hk). lia.
Qed.

Lemma tail_insert {A} k (x : A) l : tail (<[S k := x]> l) = <[k := x]> (tail l).
Proof. by destruct l. Qed.

Lemma post_count err caller t w : connection_count_ (post_via_msg_ring err caller t w).2 = connection_count_ w.
Proof.
  unfold post_via_msg_ring. destruct (prepare_msg_ring _ _ _ caller) as [q| |]; [|done..].
  by destruct (submit err q.2).
Qed.

Lemma wake_count err w : connection_count_ (wake err w) = connection_count_ w.
Proof. unfold wake. destruct (prepare_nop _ _) as [q| |]; [|done..]. by destruct (submit err q.2). Qed.

(** Least-connections dispatch sends each connection to one worker with a
    minimal count, whose count it raises by one (whether or not the ring message
    could be sent), and so keeps balanced workers within one connection of each
    other. *)
Theorem dispatch_keeps_balance err fd task p id p' :
  Forall (fun c => 0 <= c < 2 ^ 64 - 1) (worker_counts p) ->
  dispatch_to_worker true err fd task p = Ret (id, p') ->
  exists c, worker_counts p !! Z.to_nat id = Some c /\
    worker_counts p' = <[Z.to_nat id := c + 1]> (worker_counts p) /\
    (balanced (worker_counts p) -> balanced (worker_counts p')).
Proof.
  intros Hb. unfold dispatch_to_worker. intros ([i q] & (i' & Hsel & [= -> <-])%bind_Ret_inv & E)%bind_Ret_inv.
  destruct (select_least p i Hsel) as (c & Hi & Hc & Hmin).
  apply bind_Ret_inv in E as (w & Ew & (m & Em & E)%bind_Ret_inv). unfold worker_loop in Ew.
  replace (Z.to_nat (i + 1)) with (S (Z.to_nat i)) in * by lia.
  destruct (threads_ p !! S (Z.to_nat i)) as [w'|] eqn:El; [|done]. injection Ew as ->.
  assert (Hcw : connection_count_ w = c).
  { unfold worker_counts in Hc. rewrite list_lookup_fmap, lookup_tail, El in Hc. by injection Hc. }
  assert (Hcb : 0 <= c < 2 ^ 64 - 1).
  { rewrite Forall_forall in Hb. apply Hb. by eapply list_elem_of_lookup_2. }
  assert (Hcount : worker_counts p' = <[Z.to_nat id := c + 1]> (worker_counts p) /\ id = i).
  { pose proof (post_count err (io_uring_ m) (mkCross 1 (u64 fd) (Some task)) (inc_connections w)) as Hpc.
    destruct (post_via_msg_ring _ _ _ _) as [[sent ring] w1]. simpl in Hpc. injection E as <- <-. split; [|done].
    unfold worker_counts. cbn [threads_ set_threads].
    assert (Ht : forall (x : EventLoopThread F) l, tail (<[0%nat := x]> l) = tail l) by (by intros x []).
    rewrite Ht, tail_insert, list_fmap_insert. f_equal.
    rewrite wrap_small in Hpc by (unfold is_u; lia).
    destruct sent; [congruence|]. unfold thread_post_fn, thread_post. rewrite wake_count. simpl. congruence. }
  destruct Hcount as [Hcount ->]. exists c. split_and!; [done..|].
  rewrite Hcount. intros Hbal. by apply balanced_insert.
Qed.
End Threads.
Arguments EventLoopPool : clear implicits.

(** ** Witnesses *)

Definition sample_loop (k : loop_pc) : EventLoopThread nat :=
  mkThread 1 5 (mkRing 8 [] [] [] ∅ 1 true) true true k 0 ∅ [] 1 1 [].

Lemma sample_inv k : thread_inv (sample_loop k).
Proof.
  split_and!; [constructor|simpl; lia|]. intros id. simpl. rewrite lookup_empty. by intros [? ?].
Qed.

Lemma posted_task_runs_witness :
  exists w', sched [Env (EPost None (mkCross 0 0 (Some 7%nat))); Own None; Env EInc; Own None; Signal;
                    Env (EComplete 0 0 0); Own None; Own None] (sample_loop InRing) = Ret w' /\ 7%nat ∈ ran w'.
Proof.
  apply (posted_task_runs [Own None; Env EInc; Own None; Signal; Env (EComplete 0 0 0); Own None; Own None]
           (sample_loop InRing) 7%nat);
    [apply sample_inv|simpl; lia|reflexivity|exact I|reflexivity|by repeat constructor|reflexivity|vm_compute; lia].
Defined.

Lemma stopped_loop_ends_witness :
  exists w', sched [Own None; Own None; Own None; Own None] (stop_request None (sample_loop InTasks)) = Ret w' /\
    pc w' = Exited.
Proof.
  destruct (stopped_loop_ends [Own None; Own None; Own None; Own None] (sample_loop InTasks)) as (w' & E & Hp & _).
  - apply sample_inv.
  - simpl. lia.
  - reflexivity.
  - exact I.
  - reflexivity.
  - by repeat constructor.
  - vm_compute. lia.
  - by exists w'.
Defined.



(** Without a wake-up a blocked loop with no timeout in flight never ends. *)
Example blocked_loop_never_ends : until_exit 50 (set_loop false true InWait (sample_loop InWait)) = Ret None.
Proof. reflexivity. Qed.

Lemma message_hits_callback_slot_witness :
  exists w1, (post_via_msg_ring None (mkRing 8 [] [] [] ∅ 1 true) (mkCross 1 3 (Some 7%nat)) (sample_loop InWait)).2 = w1 /\
    sched [Env (EArrive 1); Own None] w1 = Throw "std::terminate".
Proof.
  destruct (post_via_msg_ring None (mkRing 8 [] [] [] ∅ 1 true) (mkCross 1 3 (Some 7%nat)) (sample_loop InWait))
    as [[sent ring] w1] eqn:E.
  exists w1. split; [done|]. assert (sent = true) as -> by (vm_compute in E; congruence).
  apply (message_hits_callback_slot None (mkRing 8 [] [] [] ∅ 1 true) ring (mkCross 1 3 (Some 7%nat)) (sample_loop InWait) w1);
    [reflexivity|reflexivity|vm_compute; done|exact E].
Defined.

Definition sample_pool : EventLoopPool nat :=
  mkLoopPool 2 8 0 false [sample_loop Idle; sample_loop AtTest; sample_loop InRing].

Lemma dispatch_keeps_balance_witness :
  exists id p', dispatch_to_worker true None 9 7%nat sample_pool = Ret (id, p') /\ balanced (worker_counts p').
Proof.
  destruct (dispatch_to_worker true None 9 7%nat sample_pool) as [[id p']| |] eqn:E; [|vm_compute in E; done..].
  exists id, p'. split; [done|].
  destruct (dispatch_keeps_balance None 9 7%nat sample_pool id p') as (c & _ & _ & Hb); [compute_done|exact E|].
  apply Hb. intros [|[|[]]] [|[|[]]] a b; simpl; intros [= <-] [= <-] || intros; lia || done.
Defined.
