(* ===== verification/IdlParser.v ===== *)
(** * idl/idl_parser.hpp: the line-based IDL parser

    Strings are byte lists; [getlines] is [std::getline] over a string stream,
    which is the list of the lines left.  [npos] is [None] and the
    unsigned arithmetic on positions is on [Z] with [substr] clamping the count
    as the library does. *)

From Stdlib Require Import ZArith Lia.
From S2P Require Import Prelude.

Abbreviation str := bytes_of_string (only parsing).

(** ** Data *)

Inductive FieldType :=
| INT8 | INT16 | INT32 | INT64 | UINT8 | UINT16 | UINT32 | UINT64
| FLOAT | DOUBLE | STRING | BOOL | VECTOR | MAP | CUSTOM.

Record Field := mkField {
  f_name : list Z; f_type : FieldType; f_type_name : list Z; f_element_type : FieldType; f_field_id : Z }.

Record StructDef := mkStruct { s_name : list Z; s_fields : list Field }.

Record MethodParam := mkParam { p_name : list Z; p_type : FieldType; p_type_name : list Z }.

Record MethodDef := mkMethod { m_name : list Z; m_params : list MethodParam; m_return_type : MethodParam }.

Record ServiceDef := mkService { sv_name : list Z; sv_methods : list MethodDef }.

Record IDLDocument := mkDoc {
  namespace_name : list Z; structs : list StructDef; services : list ServiceDef }.

(** ** Strings *)

(** The lines of a stream with delimiter [d]; [cur] is the line being read. *)
Fixpoint getlines (d : Z) (cur l : list Z) : list (list Z) :=
  match l with
  | [] => match cur with [] => [] | _ => [cur] end
  | x :: l => if x =? d then cur :: getlines d [] l else getlines d (cur ++ [x]) l
  end.

Definition is_space (c : Z) : bool := (c =? 32) || (c =? 9) || (c =? 13) || (c =? 10).

Fixpoint drop_spaces (l : list Z) : list Z :=
  match l with
  | [] => []
  | x :: l' => if is_space x then drop_spaces l' else l
  end.

(** [find_first_not_of], [find_last_not_of], [substr]. *)
Definition trim (s : list Z) : list Z := reverse (drop_spaces (reverse (drop_spaces s))).

(** [find(c)] and [find_last_of(c)] for a character. *)
Fixpoint find (c : Z) (l : list Z) : option Z :=
  match l with
  | [] => None
  | x :: l => if x =? c then Some 0 else (fun i => i + 1) <$> find c l
  end.

Definition find_last (c : Z) (l : list Z) : option Z := (fun i => zlen l - 1 - i) <$> find c (reverse l).

(** [substr(pos, n)] for a position inside the string; [n] is a [size_t]. *)
Definition substr (l : list Z) (pos n : Z) : list Z := take (Z.to_nat (u64 n)) (drop (Z.to_nat pos) l).
Definition substr_from (l : list Z) (pos : Z) : list Z := drop (Z.to_nat pos) l.

Definition starts_with (l p : list Z) : bool := bool_decide (take (length p) l = p).

Definition skipped (line : list Z) : bool :=
  match line with [] => true | c :: _ => c =? 35 end.   (* empty or '#' *)

(** ** Parser *)

Definition parse_namespace (line : list Z) : list Z := trim (substr_from line 9).

Definition parse_type (s : list Z) : FieldType :=
  if bool_decide (s = str "int8") then INT8
  else if bool_decide (s = str "int16") then INT16
  else if bool_decide (s = str "int32") then INT32
  else if bool_decide (s = str "int64") then INT64
  else if bool_decide (s = str "uint8") then UINT8
  else if bool_decide (s = str "uint16") then UINT16
  else if bool_decide (s = str "uint32") then UINT32
  else if bool_decide (s = str "uint64") then UINT64
  else if bool_decide (s = str "float") then FLOAT
  else if bool_decide (s = str "double") then DOUBLE
  else if bool_decide (s = str "string") then STRING
  else if bool_decide (s = str "bool") then BOOL
  else if starts_with s (str "vector") then VECTOR
  else if starts_with s (str "map") then MAP
  else CUSTOM.

(** The closing line both loops compare with: the three characters quote, brace,
    quote. *)
Definition closing : list Z := [34; 125; 34].

Definition pop_semicolon (s : list Z) : list Z :=
  match last s with Some 59 => removelast s | _ => s end.

(** A field line that is not skipped: [None] without a space. *)
Definition parse_field (line : list Z) : option Field :=
  match find 32 line with
  | None => None
  | Some space_pos =>
      let type_str := trim (substr line 0 space_pos) in
      let name_str := pop_semicolon (trim (substr_from line space_pos)) in
      Some (mkField name_str (parse_type type_str) type_str INT32 0)
  end.

(** The loop of [parse_struct]: the fields and the lines left in the stream. *)
Fixpoint struct_loop (lines : list (list Z)) : list Field * list (list Z) :=
  match lines with
  | [] => ([], [])
  | line :: lines =>
      let line := trim line in
      if bool_decide (line = closing) then ([], lines)
      else if skipped line then struct_loop lines
      else let '(fields, rest) := struct_loop lines in
           match parse_field line with
           | None => (fields, rest)
           | Some f => (f :: fields, rest)
           end
  end.

Definition parse_struct (lines : list (list Z)) (first_line : list Z)
  : option StructDef * list (list Z) :=
  match find 123 first_line with
  | None => (None, lines)
  | Some brace_pos =>
      let name := trim (substr first_line 6 (brace_pos - 6)) in
      let '(fields, rest) := struct_loop lines in
      (Some (mkStruct name fields), rest)
  end.

Definition parse_param (param : list Z) : option MethodParam :=
  let param := trim param in
  match find 32 param with
  | None => None
  | Some space =>
      let ty := trim (substr param 0 space) in
      Some (mkParam (trim (substr_from param space)) (parse_type ty) ty)
  end.

(** A method line that is not skipped. *)
Definition parse_method (line : list Z) : option MethodDef :=
  match find 40 line, find 41 line with
  | Some paren_open, Some paren_close =>
      let before_paren := trim (substr line 0 paren_open) in
      match find_last 32 before_paren with
      | None => None
      | Some last_space =>
          let ret := trim (substr before_paren 0 last_space) in
          let params_str := substr line (paren_open + 1) (paren_close - paren_open - 1) in
          Some (mkMethod (trim (substr_from before_paren last_space))
                  (omap parse_param (getlines 44 [] params_str))
                  (mkParam [] (parse_type ret) ret))
      end
  | _, _ => None
  end.

Fixpoint service_loop (lines : list (list Z)) : list MethodDef * list (list Z) :=
  match lines with
  | [] => ([], [])
  | line :: lines =>
      let line := trim line in
      if bool_decide (line = closing) then ([], lines)
      else if skipped line then service_loop lines
      else let '(methods, rest) := service_loop lines in
           match parse_method line with
           | None => (methods, rest)
           | Some m => (m :: methods, rest)
           end
  end.

Definition parse_service (lines : list (list Z)) (first_line : list Z)
  : option ServiceDef * list (list Z) :=
  match find 123 first_line with
  | None => (None, lines)
  | Some brace_pos =>
      let name := trim (substr first_line 7 (brace_pos - 7)) in
      let '(methods, rest) := service_loop lines in
      (Some (mkService name methods), rest)
  end.

Definition add_struct (doc : IDLDocument) (s : option StructDef) : IDLDocument :=
  match s with
  | Some s => mkDoc (namespace_name doc) (structs doc ++ [s]) (services doc)
  | None => doc
  end.
Definition add_service (doc : IDLDocument) (s : option ServiceDef) : IDLDocument :=
  match s with
  | Some s => mkDoc (namespace_name doc) (structs doc) (services doc ++ [s])
  | None => doc
  end.

(** The loop of [parse]; every iteration takes at least one line. *)
Fixpoint parse_loop (fuel : nat) (doc : IDLDocument) (lines : list (list Z)) : option IDLDocument :=
  match fuel with
  | O => None
  | S fuel =>
      match lines with
      | [] => Some doc
      | line :: lines =>
          let line := trim line in
          if skipped line then parse_loop fuel doc lines
          else if starts_with line (str "namespace") then
            parse_loop fuel (mkDoc (parse_namespace line) (structs doc) (services doc)) lines
          else if starts_with line (str "struct") then
            let '(s, rest) := parse_struct lines line in parse_loop fuel (add_struct doc s) rest
          else if starts_with line (str "service") then
            let '(s, rest) := parse_service lines line in parse_loop fuel (add_service doc s) rest
          else parse_loop fuel doc lines
      end
  end.

Definition parse (content : list Z) : option IDLDocument :=
  let lines := getlines 10 [] content in
  parse_loop (S (length lines)) (mkDoc [] [] []) lines.

(** ** The parser always returns *)

Lemma struct_loop_le lines : (length (struct_loop lines).2 <= length lines)%nat.
Proof.
  induction lines as [|line lines IH]; simpl; [done|]. destruct (bool_decide _); simpl; [lia|].
  destruct (skipped _); [lia|]. destruct (struct_loop lines) as [fs rest]. simpl in IH.
  destruct (parse_field _); simpl; lia.
Qed.

Lemma service_loop_le lines : (length (service_loop lines).2 <= length lines)%nat.
Proof.
  induction lines as [|line lines IH]; simpl; [done|]. destruct (bool_decide _); simpl; [lia|].
  destruct (skipped _); [lia|]. destruct (service_loop lines) as [fs rest]. simpl in IH.
  destruct (parse_method _); simpl; lia.
Qed.

Lemma parse_loop_total fuel doc lines :
  (length lines < fuel)%nat -> is_Some (parse_loop fuel doc lines).
Proof.
  revert doc lines. induction fuel as [|fuel IH]; intros doc lines Hf; [lia|].
  destruct lines as [|line lines]; cbn [parse_loop length] in *; [eauto|].
  destruct (skipped _); [apply IH; lia|].
  destruct (starts_with _ (str "namespace")); [apply IH; lia|].
  destruct (starts_with _ (str "struct")).
  { unfold parse_struct. destruct (find 123 _); [|apply IH; lia]. pose proof (struct_loop_le lines).
    destruct (struct_loop lines) as [fs rest]. apply IH. simpl in *. lia. }
  destruct (starts_with _ (str "service")); [|apply IH; lia].
  unfold parse_service. destruct (find 123 _); [|apply IH; lia]. pose proof (service_loop_le lines).
  destruct (service_loop lines) as [fs rest]. apply IH. simpl in *. lia.
Qed.

(** ** String lemmas *)

Definition edge_free (l : list Z) : Prop :=
  (forall c, head l = Some c -> is_space c = false) /\ (forall c, last l = Some c -> is_space c = false).

Lemma drop_spaces_pad pre l :
  Forall (fun c => is_space c = true) pre -> (forall c, head l = Some c -> is_space c = false) ->
  drop_spaces (pre ++ l) = l.
Proof.
  intros Hp Hl. induction Hp as [|c pre Hc _ IH]; simpl; [|by rewrite Hc].
  destruct l as [|c l]; [done|]. simpl. by rewrite (Hl c eq_refl).
Qed.

Lemma trim_pad pre l post :
  Forall (fun c => is_space c = true) pre -> Forall (fun c => is_space c = true) post ->
  edge_free l -> l <> [] -> trim (pre ++ l ++ post) = l.
Proof.
  intros Hpre Hpost [Hh Ht] Hne. unfold trim. rewrite drop_spaces_pad; [|done|].
  2:{ intros c. destruct l; [done|]. apply Hh. }
  rewrite reverse_app, drop_spaces_pad; [by rewrite reverse_involutive|by apply Forall_reverse|].
  intros c. rewrite head_reverse. apply Ht.
Qed.

Lemma trim_id l : edge_free l -> l <> [] -> trim l = l.
Proof. intros. rewrite <- (app_nil_r l) at 1. apply (trim_pad []); try done; constructor. Qed.

Lemma find_app c l r : c ∉ l -> find c (l ++ c :: r) = Some (zlen l).
Proof.
  induction l as [|x l IH]; intros Hc; simpl; [by rewrite Z.eqb_refl|].
  apply not_elem_of_cons in Hc as [Hx Hc]. rewrite (proj2 (Z.eqb_neq x c)) by done.
  rewrite IH by done. simpl. f_equal. lia.
Qed.

Lemma substr_prefix l r : zlen l < 2 ^ 64 -> substr (l ++ r) 0 (zlen l) = l.
Proof.
  intros Hl. unfold substr. rewrite wrap_small by (unfold is_u; lia).
  change (drop (Z.to_nat 0) (l ++ r)) with (l ++ r). by rewrite Nat2Z.id, take_app_length.
Qed.

(** A word: what a type or a name is made of in a well-formed file. *)
Definition word_char (c : Z) : Prop :=
  is_space c = false /\ c <> 35 /\ c <> 59 /\ c <> 123 /\ c <> 34.
#[global] Instance word_char_dec c : Decision (word_char c) := _.
Definition word (w : list Z) : Prop := w <> [] /\ Forall word_char w /\ zlen w < 2 ^ 32.
#[global] Instance word_dec w : Decision (word w) := _.

Lemma word_not w c : word w -> ~ word_char c -> c ∉ w.
Proof. intros (_ & Hw & _) Hc Hin. rewrite Forall_forall in Hw. by apply Hc, Hw. Qed.

Lemma word_edges w : word w -> edge_free w.
Proof.
  intros (_ & Hw & _). rewrite Forall_forall in Hw. split.
  - intros c Hc. apply Hw. destruct w; [done|]. injection Hc as <-. by left.
  - intros c [l ->]%last_Some. apply Hw, elem_of_app. right. by left.
Qed.

Lemma edge_free_join a b m : word a -> edge_free b -> b <> [] -> edge_free (a ++ m ++ b).
Proof.
  intros Ha [_ Hb] Hne. destruct (word_edges a Ha) as [Hh _], Ha as [Hna _]. split; intros c.
  - destruct a; [done|]. simpl. apply Hh.
  - rewrite app_assoc, last_app. destruct (last b) as [d|] eqn:E; [|by apply last_None in E].
    intros [= ->]. by apply Hb.
Qed.

(** ** Printing in the parser's syntax *)

Definition print_field (f : Field) : list Z := str "    " ++ f_type_name f ++ [32] ++ f_name f ++ [59].

Definition print_struct (s : StructDef) : list (list Z) :=
  (str "struct " ++ s_name s ++ str " {") :: (print_field <$> s_fields s) ++ [closing].

Definition field_ok (f : Field) : Prop :=
  word (f_type_name f) /\ word (f_name f) /\ f_type f = parse_type (f_type_name f) /\
  f_element_type f = INT32 /\ f_field_id f = 0.
Definition struct_ok (s : StructDef) : Prop := word (s_name s) /\ Forall field_ok (s_fields s).

Lemma semicolon_edges w : word w -> edge_free (w ++ [59]).
Proof. intros Hw. apply (edge_free_join w [59] []); [done| |done]. by split; intros c [= <-]. Qed.

Lemma field_line f :
  field_ok f -> trim (print_field f) = f_type_name f ++ [32] ++ f_name f ++ [59].
Proof.
  intros (Ht & Hn & _). unfold print_field.
  rewrite <- (app_nil_r (f_type_name f ++ [32] ++ f_name f ++ [59])) at 1.
  apply trim_pad; [by repeat constructor|constructor| |].
  - apply edge_free_join; [done|by apply semicolon_edges|]. intros E. by apply app_nil in E as [_ ?].
  - intros E. apply app_nil in E as [? _]. by destruct Ht.
Qed.

Lemma parse_field_line f :
  field_ok f -> parse_field (f_type_name f ++ [32] ++ f_name f ++ [59]) = Some f.
Proof.
  intros (Ht & Hn & Ety & Eel & Eid). unfold parse_field.
  assert (H32 : 32 ∉ f_type_name f) by (apply word_not; [done|]; by intros [? _]).
  simpl. rewrite (find_app 32 (f_type_name f)) by done. destruct Ht as (Hne & Hw & Hl).
  rewrite substr_prefix by lia. unfold substr_from. rewrite Nat2Z.id, drop_app_length.
  rewrite (trim_id (f_type_name f)) by (done || by apply word_edges).
  assert (Htr : trim (32 :: f_name f ++ [59]) = f_name f ++ [59]).
  { rewrite <- (app_nil_r (f_name f ++ [59])) at 1.
    apply (trim_pad [32]); [by repeat constructor|constructor|by apply semicolon_edges|].
    intros E. by apply app_nil in E as [_ ?]. }
  rewrite Htr.
  unfold pop_semicolon. rewrite last_snoc, removelast_last, <- Ety. destruct f. simpl in *. by subst.
Qed.

Lemma struct_loop_print fs rest :
  Forall field_ok fs -> struct_loop ((print_field <$> fs) ++ closing :: rest) = (fs, rest).
Proof.
  induction 1 as [|f fs Hf _ IH]; [done|]. rewrite fmap_cons. cbn [app struct_loop].
  rewrite field_line, IH, parse_field_line by done. destruct Hf as ((Hne & Hw & _) & _).
  destruct (f_type_name f) as [|c ty]; [done|]. apply Forall_cons in Hw as [(_ & H35 & _ & _ & H34) _].
  rewrite bool_decide_eq_false_2 by (intros [= -> _]; done). simpl.
  by rewrite (proj2 (Z.eqb_neq c 35)).
Qed.

Definition struct_header (name : list Z) : list Z := str "struct " ++ name ++ str " {".

Lemma struct_header_trim name : word name -> trim (struct_header name) = struct_header name.
Proof.
  intros Hw. apply trim_id; [|done]. split; [by intros c [= <-]|]. intros c. unfold struct_header.
  rewrite app_assoc, last_app. simpl. by intros [= <-].
Qed.

Lemma parse_struct_header name lines fields rest :
  word name -> struct_loop lines = (fields, rest) ->
  parse_struct lines (struct_header name) = (Some (mkStruct name fields), rest).
Proof.
  intros Hw Hl. unfold parse_struct, struct_header.
  assert (H123 : 123 ∉ name) by (apply word_not; [done|]; by intros (_ & _ & _ & ? & _)).
  assert (Hf : find 123 (str "struct " ++ name ++ str " {") = Some (8 + zlen name)).
  { rewrite app_assoc. change (str " {") with ([32] ++ 123 :: []). rewrite app_assoc, find_app.
    - rewrite !length_app. simpl. f_equal. lia.
    - intros [[Hin|Hin]%elem_of_app|Hin%list_elem_of_singleton]%elem_of_app; [|done|done].
      revert Hin. apply (bool_decide_unpack (_ ∉ _)). vm_compute. done. }
  rewrite Hf, Hl. pose proof Hw as (Hne & _ & Hlen).
  assert (Hs : substr (str "struct " ++ name ++ str " {") 6 (8 + zlen name - 6) = [32] ++ name ++ [32]).
  { unfold substr. rewrite wrap_small by (unfold is_u; lia).
    change (drop (Z.to_nat 6) (str "struct " ++ name ++ str " {")) with (32 :: name ++ [32; 123]).
    replace (Z.to_nat (8 + zlen name - 6)) with (S (length name + 1)) by lia.
    cbn [take app]. f_equal. rewrite take_plus, take_app_length, drop_app_length. done. }
  rewrite Hs, trim_pad; [done|by repeat constructor..| |done]. by apply word_edges.
Qed.

Lemma parse_loop_structs ss : forall fuel doc,
  Forall struct_ok ss -> (length (concat (print_struct <$> ss)) < fuel)%nat ->
  parse_loop fuel doc (concat (print_struct <$> ss))
  = Some (mkDoc (namespace_name doc) (structs doc ++ ss) (services doc)).
Proof.
  induction ss as [|s ss IH]; intros fuel doc Hss Hf; (destruct fuel as [|fuel]; [lia|]).
  - simpl. rewrite app_nil_r. by destruct doc.
  - apply Forall_cons in Hss as [[Hw Hfs] Hss]. rewrite fmap_cons in *. cbn [concat] in *.
    unfold print_struct at 1. fold (struct_header (s_name s)). rewrite <- app_comm_cons. cbn [parse_loop].
    rewrite struct_header_trim by done.
    rewrite (parse_struct_header _ _ (s_fields s) (concat (print_struct <$> ss))); [|done|].
    2:{ rewrite <- app_assoc. by apply struct_loop_print. }
    change (skipped (struct_header (s_name s))) with false.
    change (starts_with (struct_header (s_name s)) (str "namespace")) with false.
    change (starts_with (struct_header (s_name s)) (str "struct")) with true. cbn iota.
    rewrite IH; [|done|rewrite length_app in Hf; simpl in Hf; lia].
    unfold add_struct. cbn [namespace_name structs services]. destruct s. by rewrite <- app_assoc.
Qed.

(** Lines to text. *)
Definition unlines (lines : list (list Z)) : list Z := concat ((fun l => l ++ [10]) <$> lines).

Lemma getlines_line l rest cur :
  10 ∉ l -> getlines 10 cur (l ++ 10 :: rest) = (cur ++ l) :: getlines 10 [] rest.
Proof.
  revert cur. induction l as [|x l IH]; intros cur Hl; simpl; [by rewrite app_nil_r|].
  apply not_elem_of_cons in Hl as [Hx Hl]. rewrite (proj2 (Z.eqb_neq x 10)) by done.
  rewrite IH by done. by rewrite <- app_assoc.
Qed.

Lemma getlines_unlines lines : Forall (fun l => 10 ∉ l) lines -> getlines 10 [] (unlines lines) = lines.
Proof.
  induction 1 as [|l lines Hl _ IH]; [done|]. unfold unlines in *. rewrite fmap_cons. cbn [concat].
  rewrite <- app_assoc. simpl app at 2. rewrite getlines_line by done. by rewrite IH.
Qed.

(** The text of a document with a namespace and structs. *)
Definition print_doc (ns : list Z) (ss : list StructDef) : list Z :=
  unlines ((str "namespace " ++ ns) :: concat (print_struct <$> ss)).

Lemma word_no_newline w : word w -> 10 ∉ w.
Proof. intros Hw. apply word_not; [done|]. by intros [? _]. Qed.

Lemma print_struct_lines s : struct_ok s -> Forall (fun l => 10 ∉ l) (print_struct s).
Proof.
  intros [Hw Hfs]. unfold print_struct. constructor.
  - rewrite !not_elem_of_app. split_and!; [|by apply word_no_newline|];
      apply (bool_decide_unpack (_ ∉ _)); vm_compute; done.
  - apply Forall_app. split; [|repeat constructor; apply (bool_decide_unpack (_ ∉ _)); vm_compute; done].
    apply Forall_fmap. eapply Forall_impl; [exact Hfs|]. intros f (Ht & Hn & _). simpl. unfold print_field.
    rewrite !not_elem_of_app. split_and!; try (by apply word_no_newline);
      apply (bool_decide_unpack (_ ∉ _)); vm_compute; done.
Qed.

(** C39: what is written in the parser's syntax is read back: a document of a
    namespace and any number of structs, each closed by the line the parser
    compares with, parses to exactly that document. *)
Theorem parse_print_roundtrip ns ss :
  word ns -> Forall struct_ok ss -> parse (print_doc ns ss) = Some (mkDoc ns ss []).
Proof.
  intros Hns Hss. unfold parse, print_doc. rewrite getlines_unlines.
  2:{ constructor.
      - rewrite not_elem_of_app. split; [|by apply word_no_newline].
        apply (bool_decide_unpack (_ ∉ _)). vm_compute. done.
      - apply Forall_concat, Forall_fmap. eapply Forall_impl; [exact Hss|]. apply print_struct_lines. }
  assert (Htrim : trim (str "namespace " ++ ns) = str "namespace " ++ ns).
  { apply trim_id; [|done]. split; [by intros c [= <-]|]. intros c. rewrite last_app.
    destruct (word_edges ns Hns) as [_ Hl]. destruct (last ns) as [d|] eqn:E; [|by apply last_None in E; destruct Hns].
    intros [= ->]. by apply Hl. }
  set (fuel := length _). assert (Hf : (length (concat (print_struct <$> ss)) < fuel)%nat) by
    (subst fuel; cbn [length]; lia).
  clearbody fuel. cbn [parse_loop]. rewrite Htrim.
  change (skipped (str "namespace " ++ ns)) with false.
  change (starts_with (str "namespace " ++ ns) (str "namespace")) with true. cbn iota.
  rewrite parse_loop_structs by (done || lia). f_equal. f_equal. unfold parse_namespace, substr_from.
  change (drop (Z.to_nat 9) (str "namespace " ++ ns)) with ([32] ++ ns).
  rewrite <- (app_nil_r ns) at 1. apply (trim_pad [32]); [by repeat constructor|constructor|by apply word_edges|].
  by destruct Hns.
Qed.

(** A struct closed by a plain brace swallows the rest of the file: the loop
    looks for the brace between quotes, so unless a line consists of that, every
    struct and service after the first struct is read as its fields and lost,
    whatever they are. *)
Theorem struct_swallows_rest name lines content :
  word name -> getlines 10 [] content = struct_header name :: lines ->
  Forall (fun l => trim l <> closing) lines ->
  exists fields, parse content = Some (mkDoc [] [mkStruct name fields] []).
Proof.
  intros Hw Hc Hl. unfold parse. rewrite Hc. cbn [length parse_loop]. rewrite struct_header_trim by done.
  assert (Hrest : (struct_loop lines).2 = []).
  { clear Hc. induction Hl as [|l lines Hne _ IH]; [done|]. cbn [struct_loop].
    rewrite bool_decide_eq_false_2 by done. destruct (skipped _); [done|].
    destruct (struct_loop lines) as [fs rest]. by destruct (parse_field _). }
  destruct (struct_loop lines) as [fields rest] eqn:E. simpl in Hrest. subst rest.
  rewrite (parse_struct_header name lines fields []) by done.
  change (skipped (struct_header name)) with false.
  change (starts_with (struct_header name) (str "namespace")) with false.
  change (starts_with (struct_header name) (str "struct")) with true. cbn iota. by exists fields.
Qed.

(** ** Witnesses *)

Definition sample_struct : StructDef :=
  mkStruct (str "AddRequest")
    [mkField (str "a") INT32 (str "int32") INT32 0; mkField (str "b") CUSTOM (str "Op") INT32 0].

Lemma parse_print_roundtrip_witness :
  parse (print_doc (str "calculator") [sample_struct]) = Some (mkDoc (str "calculator") [sample_struct] []).
Proof.
  apply (parse_print_roundtrip (str "calculator") [sample_struct]); [compute_done|].
  repeat constructor; try compute_done; vm_compute; done.
Defined.

Lemma struct_swallows_rest_witness :
  exists fields,
    parse (unlines [str "struct A {"; str "int32 a;"; str "}"; str "service S {"; str "A f(A x);"; str "}"])
    = Some (mkDoc [] [mkStruct (str "A") fields] []).
Proof.
  apply (struct_swallows_rest (str "A")
    [str "int32 a;"; str "}"; str "service S {"; str "A f(A x);"; str "}"]);
    [compute_done|vm_compute; reflexivity|compute_done].
Defined.
