(* ===== verification/CodeGenerator.v ===== *)
(** * idl/code_generator.hpp: the C++ header printed from a parsed file

    Text is a byte list; [oss << a << b] is concatenation.  The printed code is
    not given a meaning: it does not compile against the library. *)

From Stdlib Require Import ZArith Lia.
From S2P Require Import Prelude IdlParser.

Record GenConfig := mkGenConfig {
  output_dir : list Z;
  generate_serialization : bool;
  generate_client : bool;
  generate_server : bool;
}.

(** [oss << ... << "\n"]. *)
Definition line (parts : list (list Z)) : list Z := concat parts ++ [10].

Definition quote : list Z := [34].

(** [std::toupper] in the C locale. *)
Definition to_upper (s : list Z) : list Z :=
  (fun c => if (97 <=? c) && (c <=? 122) then c - 32 else c) <$> s.

Definition to_cpp_type (type : FieldType) (type_name : list Z) : list Z :=
  match type with
  | INT8 => str "int8_t"
  | INT16 => str "int16_t"
  | INT32 => str "int32_t"
  | INT64 => str "int64_t"
  | UINT8 => str "uint8_t"
  | UINT16 => str "uint16_t"
  | UINT32 => str "uint32_t"
  | UINT64 => str "uint64_t"
  | FLOAT => str "float"
  | DOUBLE => str "double"
  | STRING => str "std::string"
  | BOOL => str "bool"
  | VECTOR => type_name
  | MAP => type_name
  | CUSTOM => type_name
  end.

Definition generate_serialization_code (s : StructDef) : list Z :=
  line [str "namespace rpc::rpc {"] ++
  line [str "template<>"] ++
  line [str "std::vector<uint8_t> serialize(const "; s_name s; str "& obj) {"] ++
  line [str "    std::vector<uint8_t> buffer;"] ++
  concat ((fun f => line [str "    BinarySerializer::encode(buffer, obj."; f_name f; str ");"]) <$> s_fields s) ++
  line [str "    return buffer;"] ++
  line [str "}"; [10]] ++
  line [str "template<>"] ++
  line [str "bool deserialize(const std::vector<uint8_t>& buffer, "; s_name s; str "& obj) {"] ++
  line [str "    size_t offset = 0;"] ++
  concat ((fun f =>
    line [str "    auto r_"; f_name f; str " = BinarySerializer::decode("] ++
    line [str "        buffer.data() + offset, buffer.size() - offset, obj."; f_name f; str ");"] ++
    line [str "    if (!r_"; f_name f; str ".success) return false;"] ++
    line [str "    offset += r_"; f_name f; str ".bytes_read;"]) <$> s_fields s) ++
  line [str "    return true;"] ++
  line [str "}"] ++
  line [str "} // namespace rpc::rpc"; [10]].

Definition generate_struct (config : GenConfig) (s : StructDef) : list Z :=
  line [str "struct "; s_name s; str " {"] ++
  concat ((fun f => line [str "    "; to_cpp_type (f_type f) (f_type_name f); str " "; f_name f; str ";"])
            <$> s_fields s) ++
  line [str "};"; [10]] ++
  (if generate_serialization config then generate_serialization_code s else []).

(** The parameter list; [i > 0] puts a separator first. *)
Definition param_text (p : MethodParam) : list Z := to_cpp_type (p_type p) (p_type_name p) ++ str " " ++ p_name p.

Fixpoint params_text (i : nat) (ps : list MethodParam) : list Z :=
  match ps with
  | [] => []
  | p :: ps => (match i with O => [] | S _ => str ", " end) ++ param_text p ++ params_text (S i) ps
  end.

Definition return_text (m : MethodDef) : list Z :=
  to_cpp_type (p_type (m_return_type m)) (p_type_name (m_return_type m)).

Definition interface_method (m : MethodDef) : list Z :=
  str "    virtual " ++ return_text m ++ str " " ++ m_name m ++ str "(" ++ params_text 0 (m_params m) ++
  line [str ") = 0;"].

Definition client_method (s : ServiceDef) (m : MethodDef) : list Z :=
  str "    coroutine::Task<" ++ return_text m ++ str "> " ++ m_name m ++ str "(" ++ params_text 0 (m_params m) ++
  line [str ") {"] ++
  match m_params m with
  | [] =>
      line [str "        auto resp = co_await client_.call<"; m_name m; str "Response>("; quote; sv_name s; quote;
            str ", "; quote; m_name m; quote; str ");"]
  | ps =>
      line [str "        "; m_name m; str "Request req;"] ++
      concat ((fun p => line [str "        req."; p_name p; str " = "; p_name p; str ";"]) <$> ps) ++
      line [str "        auto resp = co_await client_.call<"; m_name m; str "Response>("; quote; sv_name s; quote;
            str ", "; quote; m_name m; quote; str ", req);"]
  end ++
  line [str "        co_return resp;"] ++
  line [str "    }"; [10]].

Definition generate_service (config : GenConfig) (s : ServiceDef) : list Z :=
  line [str "class "; sv_name s; str "Service {"] ++
  line [str "public:"] ++
  line [str "    virtual ~"; sv_name s; str "Service() = default;"; [10]] ++
  concat (interface_method <$> sv_methods s) ++
  line [str "};"; [10]] ++
  if generate_client config then
    line [str "class "; sv_name s; str "Client {"] ++
    line [str "public:"] ++
    line [str "    explicit "; sv_name s; str "Client(RpcClient& client)"] ++
    line [str "        : client_(client) {}"; [10]] ++
    concat (client_method s <$> sv_methods s) ++
    line [str "private:"] ++
    line [str "    RpcClient& client_;"] ++
    line [str "};"; [10]]
  else [].

Definition generate_header (config : GenConfig) (doc : IDLDocument) (filename : list Z) : list Z :=
  line [str "/**"] ++
  line [str " * @file "; filename; str ".hpp"] ++
  line [str " * @brief Auto-generated from IDL"] ++
  line [str " * @author RPC Framework IDL Generator"] ++
  line [str " */"; [10]] ++
  line [str "#pragma once"; [10]] ++
  line [str "#include "; quote; str "../framework.hpp"; quote; [10]] ++
  (match namespace_name doc with [] => [] | ns => line [str "namespace "; ns; str " {"; [10]] end) ++
  concat (generate_struct config <$> structs doc) ++
  concat (generate_service config <$> services doc) ++
  (match namespace_name doc with [] => [] | ns => line [str "} // namespace "; ns] end).

(** [generate]: [can_open path] tells whether the output file can be opened; the
    result, and the file written. *)
Definition generate (config : GenConfig) (can_open : list Z -> bool) (doc : IDLDocument) (filename : list Z)
  : bool * option (list Z * list Z) :=
  let header := generate_header config doc filename in
  let header_path := output_dir config ++ str "/" ++ filename ++ str ".hpp" in
  if can_open header_path then (true, Some (header_path, header)) else (false, None).

(** ** Braces *)

(** Nesting depth after a text; None: a brace closes nothing. *)
Fixpoint depth (d : nat) (l : list Z) : option nat :=
  match l with
  | [] => Some d
  | c :: l =>
      if c =? 123 then depth (S d) l
      else if c =? 125 then match d with O => None | S d => depth d l end
      else depth d l
  end.

Definition braces_balanced (l : list Z) : Prop := depth 0 l = Some 0%nat.

(** From [a] open braces to [b], whatever is open outside. *)
Definition moves (a b : nat) (l : list Z) : Prop := forall d, depth (a + d) l = Some (b + d)%nat.

Lemma depth_app d l r : depth d (l ++ r) = d' ← depth d l; depth d' r.
Proof.
  revert d. induction l as [|c l IH]; intros d; simpl; [done|].
  destruct (c =? 123); [done|]. destruct (c =? 125); [|done]. by destruct d.
Qed.

Lemma moves_app a b c l r : moves a b l -> moves b c r -> moves a c (l ++ r).
Proof. intros Hl Hr d. rewrite depth_app, Hl. simpl. apply Hr. Qed.

Definition brace_free (l : list Z) : Prop := Forall (fun c => c <> 123 /\ c <> 125) l.
#[global] Instance brace_free_dec l : Decision (brace_free l) := _.

Lemma brace_free_moves l k : brace_free l -> moves k k l.
Proof.
  intros Hl d. induction Hl as [|c l [H1 H2] _ IH]; simpl; [done|].
  by rewrite (proj2 (Z.eqb_neq c 123)), (proj2 (Z.eqb_neq c 125)).
Qed.

Lemma moves_lift k l : moves 0 0 l -> moves k k l.
Proof. intros H d. apply (H (k + d)%nat). Qed.

Lemma concat_moves {A} (f : A -> list Z) k l : Forall (fun x => moves 0 0 (f x)) l -> moves k k (concat (f <$> l)).
Proof. induction 1 as [|x l Hx _ IH]; simpl; [by intros d|]. eapply moves_app; [by apply moves_lift|done]. Qed.

(** A text of known depth, e.g. a literal. *)
Lemma depth_moves a b l : depth a l = Some b -> moves a b l.
Proof.
  revert a. induction l as [|c l IH]; intros a; simpl; [by intros [= <-] d|].
  intros H d. simpl. destruct (c =? 123); [by apply (IH (S a))|]. destruct (c =? 125); [|by apply IH].
  destruct a as [|a]; [done|]. by apply IH.
Qed.

Lemma line_moves a b parts : moves a b (concat parts) -> moves a b (line parts).
Proof. intros H. eapply moves_app; [exact H|]. by apply depth_moves. Qed.

(** Follows the structure of a text: pieces in sequence, literals by their depth,
    other pieces by the hints. *)
Ltac moves_solve :=
  lazymatch goal with
  | |- moves _ _ (line _) => apply line_moves; cbn [concat]; moves_solve
  | |- moves _ _ (_ ++ _) => eapply moves_app; [moves_solve|moves_solve]
  | |- moves _ _ (str _) => eapply depth_moves; vm_compute; reflexivity
  | |- moves _ _ [] => eapply depth_moves; reflexivity
  | |- moves _ _ [_] => eapply depth_moves; reflexivity
  | |- moves _ _ quote => eapply depth_moves; reflexivity
  | |- moves _ _ (concat (_ <$> _)) => apply concat_moves; assumption
  | |- _ => first [apply brace_free_moves; assumption | apply moves_lift; assumption]
  end.

(** The names in a document. *)
Definition field_free (f : Field) : Prop := brace_free (f_name f) /\ brace_free (f_type_name f).
Definition param_free (p : MethodParam) : Prop := brace_free (p_name p) /\ brace_free (p_type_name p).
Definition method_free (m : MethodDef) : Prop :=
  brace_free (m_name m) /\ Forall param_free (m_params m) /\ param_free (m_return_type m).
Definition doc_free (doc : IDLDocument) : Prop :=
  brace_free (namespace_name doc) /\
  Forall (fun s => brace_free (s_name s) /\ Forall field_free (s_fields s)) (structs doc) /\
  Forall (fun s => brace_free (sv_name s) /\ Forall method_free (sv_methods s)) (services doc).

Lemma cpp_type_free t n : brace_free n -> brace_free (to_cpp_type t n).
Proof. intros H. destruct t; simpl; try exact H; apply (bool_decide_unpack _); vm_compute; exact I. Qed.

Lemma param_moves p : param_free p -> moves 0 0 (param_text p).
Proof. intros [Hn Ht]. unfold param_text. pose proof (cpp_type_free (p_type p) _ Ht). moves_solve. Qed.

Lemma params_moves ps : forall i, Forall param_free ps -> moves 0 0 (params_text i ps).
Proof.
  induction ps as [|p ps IH]; intros i Hps; cbn [params_text]; [by apply depth_moves|].
  apply Forall_cons in Hps as [Hp Hps]. eapply moves_app; [destruct i; by apply depth_moves|].
  eapply moves_app; [by apply param_moves|by apply IH].
Qed.

Lemma encode_line_moves f :
  field_free f -> moves 0 0 (line [str "    BinarySerializer::encode(buffer, obj."; f_name f; str ");"]).
Proof. intros [Hn _]. moves_solve. Qed.

Lemma decode_lines_moves f :
  field_free f ->
  moves 0 0 (line [str "    auto r_"; f_name f; str " = BinarySerializer::decode("] ++
    line [str "        buffer.data() + offset, buffer.size() - offset, obj."; f_name f; str ");"] ++
    line [str "    if (!r_"; f_name f; str ".success) return false;"] ++
    line [str "    offset += r_"; f_name f; str ".bytes_read;"]).
Proof. intros [Hn _]. moves_solve. Qed.

Lemma serialization_moves s :
  brace_free (s_name s) -> Forall field_free (s_fields s) -> moves 0 0 (generate_serialization_code s).
Proof.
  intros Hn Hf. unfold generate_serialization_code.
  pose proof (Forall_impl _ _ _ Hf encode_line_moves). pose proof (Forall_impl _ _ _ Hf decode_lines_moves). moves_solve.
Qed.

Lemma struct_moves config s :
  brace_free (s_name s) -> Forall field_free (s_fields s) -> moves 0 0 (generate_struct config s).
Proof.
  intros Hn Hf. unfold generate_struct. pose proof (serialization_moves s Hn Hf).
  assert (Forall (fun f => moves 0 0 (line [str "    "; to_cpp_type (f_type f) (f_type_name f); str " "; f_name f; str ";"]))
            (s_fields s)).
  { eapply Forall_impl; [exact Hf|]. intros f [Hfn Hft]. pose proof (cpp_type_free (f_type f) _ Hft). moves_solve. }
  destruct (generate_serialization config); moves_solve.
Qed.

Lemma interface_moves m : method_free m -> moves 0 0 (interface_method m).
Proof.
  intros (Hn & Hp & [_ Hr]). pose proof (params_moves _ 0 Hp). unfold interface_method, return_text.
  pose proof (cpp_type_free (p_type (m_return_type m)) _ Hr). moves_solve.
Qed.

Lemma client_moves s m : brace_free (sv_name s) -> method_free m -> moves 0 0 (client_method s m).
Proof.
  intros Hs (Hn & Hp & [_ Hr]). pose proof (params_moves _ 0 Hp). unfold client_method, return_text.
  pose proof (cpp_type_free (p_type (m_return_type m)) _ Hr).
  assert (Forall (fun p => moves 0 0 (line [str "        req."; p_name p; str " = "; p_name p; str ";"])) (m_params m)).
  { eapply Forall_impl; [exact Hp|]. intros p [Hpn _]. moves_solve. }
  destruct (m_params m) as [|p ps]; moves_solve.
Qed.

Lemma service_moves config s :
  brace_free (sv_name s) -> Forall method_free (sv_methods s) -> moves 0 0 (generate_service config s).
Proof.
  intros Hn Hm. unfold generate_service. pose proof (Forall_impl _ _ _ Hm interface_moves).
  assert (Forall (fun m => moves 0 0 (client_method s m)) (sv_methods s))
    by (eapply Forall_impl; [exact Hm|]; intros m; by apply client_moves).
  destruct (generate_client config); moves_solve.
Qed.

(** C40: a generated header is well nested: for every document whose names are
    free of braces and every configuration, each brace the generator prints is
    closed, in order, and the namespace is closed last. *)
Theorem header_braces_balanced config doc filename :
  doc_free doc -> brace_free filename -> braces_balanced (generate_header config doc filename).
Proof.
  intros (Hns & Hst & Hsv) Hfile.
  assert (Hs : Forall (fun s => moves 0 0 (generate_struct config s)) (structs doc))
    by (eapply Forall_impl; [exact Hst|]; intros s []; by apply struct_moves).
  assert (Hv : Forall (fun s => moves 0 0 (generate_service config s)) (services doc))
    by (eapply Forall_impl; [exact Hsv|]; intros s []; by apply service_moves).
  assert (Hm : moves 0 0 (generate_header config doc filename)).
  { unfold generate_header. destruct (namespace_name doc) as [|c ns]; moves_solve. }
  apply (Hm 0%nat).
Qed.

(** ** Witnesses *)

Definition user_struct : StructDef :=
  mkStruct (str "User")
    [mkField (str "id") INT32 (str "int32") INT32 0; mkField (str "name") STRING (str "string") INT32 0].

Definition user_doc : IDLDocument :=
  mkDoc (str "demo") [user_struct]
    [mkService (str "Users")
       [mkMethod (str "find") [mkParam (str "id") INT32 (str "int32")] (mkParam [] CUSTOM (str "User"))]].

Lemma header_braces_balanced_witness :
  braces_balanced (generate_header (mkGenConfig (str ".") true true true) user_doc (str "users")).
Proof. apply header_braces_balanced; [repeat split; compute_done|compute_done]. Defined.
