(* ===== verification/Task.v ===== *)
(** * coroutine/task.hpp: tasks and their frames

    A coroutine body is a tree [coro]: it returns, throws, suspends on an I/O
    awaiter or awaits the task another coroutine returned.  [direct] gives it the
    meaning of ordinary nested calls.  The machine below runs it the way the
    promise and awaiter types do: frames in a heap, symmetric transfer to the
    callee, the final awaiter resuming the continuation, [~Task] destroying a
    frame.  Resuming or reading a destroyed frame is [Undef].

    [V] is the result type, [E] the type of exceptions; the I/O results are
    integers.  Handles are natural numbers that are never reused. *)

From Stdlib Require Import ZArith Lia.
From S2P Require Import Prelude.

Inductive CoroutineState := Created | Running | Suspended | Completed | Cancelled.

#[global] Instance CoroutineState_eq_dec : EqDecision CoroutineState.
Proof. solve_decision. Defined.

(** A coroutine body.  [co_call callee k] is [co_await f(...)] where the body of
    [f] is [callee]; [k] goes on with the value or, in a catch block or by
    unwinding, with the exception. *)
Inductive coro (V E : Type) : Type :=
| co_return (v : V)
| co_throw (e : E)
| co_io (k : Z -> coro V E)
| co_call (callee : coro V E) (k : V + E -> coro V E).
Arguments co_return {V E}.
Arguments co_throw {V E}.
Arguments co_io {V E}.
Arguments co_call {V E}.

Record TaskPromise (V E : Type) := mkPromise {
  result : option V;               (* shared_ptr<T>, null at first *)
  exception : option E;
  state : CoroutineState;
  continuation : option nat;
  ref_count : Z;
}.
Arguments mkPromise {V E}.
Arguments result {V E}.
Arguments exception {V E}.
Arguments state {V E}.
Arguments continuation {V E}.
Arguments ref_count {V E}.

(** Where a frame is suspended (or was, while it runs). *)
Inductive point (V E : Type) : Type :=
| at_start (b : coro V E)                        (* initial_suspend *)
| at_io (k : Z -> coro V E)
| at_call (callee : nat) (k : V + E -> coro V E)
| at_final.                                      (* final_suspend *)
Arguments at_start {V E}.
Arguments at_io {V E}.
Arguments at_call {V E}.
Arguments at_final {V E}.

Record coro_frame (V E : Type) := mkFrame { promise : TaskPromise V E; pt : point V E }.
Arguments mkFrame {V E}.
Arguments promise {V E}.
Arguments pt {V E}.

Record heap (V E : Type) := mkHeap { frames : gmap nat (coro_frame V E); next : nat }.
Arguments mkHeap {V E}.
Arguments frames {V E}.
Arguments next {V E}.

(** Who has control: a frame runs, the event loop waits for the completion that
    resumes a frame, or the outermost [resume()] has returned for good. *)
Inductive control (V E : Type) : Type :=
| Run (i : nat) (b : coro V E)
| Waiting (i : nat)
| Finished.
Arguments Run {V E}.
Arguments Waiting {V E}.
Arguments Finished {V E}.

Section Task.
Context {V E : Type}.
Implicit Types (h : heap V E) (b : coro V E) (p : TaskPromise V E).

(** ** Promise operations *)

Definition update (g : TaskPromise V E -> TaskPromise V E) (i : nat) h : heap V E :=
  mkHeap (alter (fun f => mkFrame (g (promise f)) (pt f)) i (frames h)) (next h).

Definition suspend_at (x : point V E) (i : nat) h : heap V E :=
  mkHeap (alter (fun f => mkFrame (promise f) x) i (frames h)) (next h).

Definition set_state (s : CoroutineState) p : TaskPromise V E :=
  mkPromise (result p) (exception p) s (continuation p) (ref_count p).

Definition set_continuation (c : nat) p : TaskPromise V E :=
  mkPromise (result p) (exception p) (state p) (Some c) (ref_count p).

Definition return_value (v : V) p : TaskPromise V E :=
  mkPromise (Some v) (exception p) (state p) (continuation p) (ref_count p).

Definition unhandled_exception (e : E) p : TaskPromise V E :=
  mkPromise (result p) (Some e) (state p) (continuation p) (ref_count p).

Definition new_promise : TaskPromise V E := mkPromise None None Created None 1.

(** Calling a coroutine: the frame is allocated, [get_return_object] returns the
    task and [initial_suspend] suspends. *)
Definition call_coroutine b h : nat * heap V E :=
  (next h, mkHeap (<[next h := mkFrame new_promise (at_start b)]> (frames h)) (S (next h))).

(** [handle_.destroy()]: the locals go too, so the task a frame awaits is
    destroyed with it.  The fuel bounds the depth of awaiting frames. *)
Fixpoint destroy_chain (fuel : nat) (i : nat) (m : gmap nat (coro_frame V E)) : gmap nat (coro_frame V E) :=
  match fuel with
  | O => m
  | S fuel =>
      match m !! i with
      | Some (mkFrame _ (at_call j _)) => destroy_chain fuel j (delete i m)
      | Some _ => delete i m
      | None => m
      end
  end.

Definition destroy (i : nat) h : heap V E := mkHeap (destroy_chain (S (next h)) i (frames h)) (next h).

(** ** The awaiter of a task *)

Definition await_ready (j : nat) h : outcome bool :=
  match frames h !! j with
  | Some f => Ret (bool_decide (state (promise f) = Completed \/ state (promise f) = Cancelled))
  | None => Undef
  end.

(** The handle control goes to: the task's, or the awaiting coroutine's own. *)
Definition await_suspend (j cont : nat) h : outcome (nat * heap V E) :=
  match frames h !! j with
  | Some f =>
      let h1 := update (set_continuation cont) j h in
      if decide (state (promise f) = Created) then Ret (j, update (set_state Running) j h1)
      else Ret (cont, h1)
  | None => Undef
  end.

Definition await_resume (j : nat) h : outcome (V + E) :=
  match frames h !! j with
  | Some f =>
      match exception (promise f) with
      | Some e => Ret (inr e)
      | None => match result (promise f) with Some v => Ret (inl v) | None => Undef end
      end
  | None => Undef
  end.

(** [co_await] of task [j] in coroutine [i]: the value at once, or a transfer of
    control. *)
Definition co_await_task (i j : nat) h : outcome (heap V E * (V + E + nat)) :=
  let* (ready : bool) := await_ready j h in
  if ready then let* r := await_resume j h in Ret (h, inl r)
  else
    let* (x : nat * heap V E) := await_suspend j i h in
    let '(t, h1) := x in
    if decide (t = i) then let* r := await_resume j h1 in Ret (h1, inl r) else Ret (h1, inr t).

(** ** Running *)

Definition config := (heap V E * control V E * list Z)%type.

(** [handle.resume()], with the completion's result for an I/O awaiter: the code
    that runs next.  The temporary task is destroyed when its value was taken. *)
Definition resume (i : nat) (x : Z) h : outcome (heap V E * coro V E) :=
  match frames h !! i with
  | Some (mkFrame _ (at_start b)) => Ret (h, b)
  | Some (mkFrame _ (at_io k)) => Ret (h, k x)
  | Some (mkFrame _ (at_call j k)) => let* r := await_resume j h in Ret (destroy j h, k r)
  | Some (mkFrame _ at_final) | None => Undef
  end.

(** [final_suspend]: state [Completed], then the continuation is resumed. *)
Definition final_suspend (i : nat) (ins : list Z) h : outcome config :=
  let h1 := suspend_at at_final i (update (set_state Completed) i h) in
  match frames h1 !! i with
  | Some f =>
      match continuation (promise f) with
      | Some c => let* (y : heap V E * coro V E) := resume c 0 h1 in Ret (y.1, Run c y.2, ins)
      | None => Ret (h1, Finished, ins)
      end
  | None => Undef
  end.

Definition step (c : config) : outcome config :=
  let '(h, ctl, ins) := c in
  match ctl with
  | Run i (co_return v) => final_suspend i ins (update (return_value v) i h)
  | Run i (co_throw e) => final_suspend i ins (update (unhandled_exception e) i h)
  | Run i (co_io k) => Ret (suspend_at (at_io k) i h, Waiting i, ins)
  | Run i (co_call callee k) =>
      let '(j, h1) := call_coroutine callee h in
      let* (y : heap V E * (V + E + nat)) := co_await_task i j h1 in
      match y with
      | (h2, inl r) => Ret (destroy j h2, Run i (k r), ins)
      | (h2, inr t) =>
          let h3 := suspend_at (at_call j k) i h2 in
          let* (z : heap V E * coro V E) := resume t 0 h3 in Ret (z.1, Run t z.2, ins)
      end
  | Waiting i =>
      match ins with
      | [] => Ret c
      | x :: ins => let* (z : heap V E * coro V E) := resume i x h in Ret (z.1, Run i z.2, ins)
      end
  | Finished => Ret c
  end.

Definition halted (c : config) : bool :=
  match c with (_, Finished, _) | (_, Waiting _, []) => true | _ => false end.

(** None: out of fuel. *)
Fixpoint run (fuel : nat) (c : config) : option (outcome config) :=
  if halted c then Some (Ret c)
  else
    match fuel with
    | O => None
    | S fuel =>
        match step c with
        | Ret c' => run fuel c'
        | Throw e => Some (Throw e)
        | Undef => Some Undef
        end
    end.

(** [Task::start()] on a valid handle. *)
Definition start (i : nat) (ins : list Z) h : outcome config :=
  match frames h !! i with
  | Some f =>
      if decide (state (promise f) = Created) then
        let* (z : heap V E * coro V E) := resume i 0 (update (set_state Running) i h) in Ret (z.1, Run i z.2, ins)
      else Ret (h, Finished, ins)
  | None => Undef
  end.

(** [Task::cancel()]. *)
Definition cancel (i : nat) h : heap V E :=
  match frames h !! i with
  | Some f => if decide (state (promise f) = Completed) then h else update (set_state Cancelled) i h
  | None => h
  end.

(** [Task::get()], with the completions [ins] that arrive while it spins; None:
    it still spins, or the fuel ran out.  A rethrown exception is [inr]. *)
Definition get (fuel : nat) (t : option nat) (ins : list Z) h : option (outcome ((V + E) * config)) :=
  match t with
  | None => Some (Throw "Task is null")
  | Some i =>
      match start i ins h with
      | Ret c =>
          match run fuel c with
          | Some (Ret c') =>
              match frames c'.1.1 !! i with
              | Some f =>
                  if decide (state (promise f) = Completed \/ state (promise f) = Cancelled)
                  then Some (let* r := await_resume i c'.1.1 in Ret (r, c')) else None
              | None => Some Undef
              end
          | Some (Throw e) => Some (Throw e)
          | Some Undef => Some Undef
          | None => None
          end
      | Throw e => Some (Throw e)
      | Undef => Some Undef
      end
  end.

(** [EventLoop::spawn]'s lambda: [start()], until control comes back to the
    loop; popping the lambda destroys the only [shared_ptr] to the task. *)
Definition spawn_run (fuel i : nat) h : option (outcome config) :=
  match start i [] h with
  | Ret c =>
      match run fuel c with
      | Some (Ret (h1, ctl, ins)) => Some (Ret (destroy i h1, ctl, ins))
      | r => r
      end
  | Throw e => Some (Throw e)
  | Undef => Some Undef
  end.

(** ** The meaning of a body as nested calls

    None: the body waits for an I/O result that is not among [ins]. *)
Fixpoint direct b (ins : list Z) : option ((V + E) * list Z) :=
  match b with
  | co_return v => Some (inl v, ins)
  | co_throw e => Some (inr e, ins)
  | co_io k => match ins with [] => None | x :: ins => direct (k x) ins end
  | co_call callee k =>
      match direct callee ins with Some (r, ins) => direct (k r) ins | None => None end
  end.

(** ** Steps *)

Definition goes (c c' : config) : Prop := halted c = false /\ step c = Ret c'.

Lemma run_halts c c' :
  rtc goes c c' -> halted c' = true -> exists n, forall fuel, (n <= fuel)%nat -> run fuel c = Some (Ret c').
Proof.
  intros Hs Hh. induction Hs as [c|c c1 c' [Hn Hst] _ IH].
  - exists 0%nat. intros [|fuel] _; simpl; by rewrite Hh.
  - destruct (IH Hh) as [n Hf]. exists (S n). intros [|fuel] Hle; [lia|]. simpl. rewrite Hn, Hst.
    apply Hf. lia.
Qed.

Definition wf h : Prop := forall i f, frames h !! i = Some f -> (i < next h)%nat.

Definition co_value (r : V + E) : coro V E :=
  match r with inl v => co_return v | inr e => co_throw e end.

(** The promise after the body ended with [r]. *)
Definition settled (r : V + E) p : TaskPromise V E :=
  set_state Completed (match r with inl v => return_value v p | inr e => unhandled_exception e p end).

Lemma update_at g i h p x :
  frames h !! i = Some (mkFrame p x) -> update g i h = mkHeap (<[i := mkFrame (g p) x]> (frames h)) (next h).
Proof. intros H. unfold update. by rewrite (alter_alt_Some _ _ _ _ H). Qed.

Lemma suspended_at y i h p x :
  frames h !! i = Some (mkFrame p x) -> suspend_at y i h = mkHeap (<[i := mkFrame p y]> (frames h)) (next h).
Proof. intros H. unfold suspend_at. by rewrite (alter_alt_Some _ _ _ _ H). Qed.

(** The promise of a callee awaited by [i], and the heap while frame [i], whose
    promise is [p], awaits the new frame of a call of [c]. *)
Definition callee_promise (i : nat) : TaskPromise V E := mkPromise None None Running (Some i) 1.

Definition calling i p (c : coro V E) k h : heap V E :=
  mkHeap (<[i := mkFrame p (at_call (next h) k)]>
            (<[next h := mkFrame (callee_promise i) (at_start c)]> (frames h))) (S (next h)).

Lemma step_call h i p x c k ins :
  wf h -> frames h !! i = Some (mkFrame p x) ->
  goes (h, Run i (co_call c k), ins) (calling i p c k h, Run (next h) c, ins).
Proof.
  intros Hw Hi. split; [done|]. assert (Hne : next h <> i) by (apply Hw in Hi; lia).
  unfold step, call_coroutine, co_await_task, await_ready. cbn -[update suspend_at].
  rewrite lookup_insert_eq. cbn -[update suspend_at]. rewrite bool_decide_false by (intros [|]; done).
  unfold await_suspend. cbn [frames].
  rewrite lookup_insert_eq. cbn [promise state new_promise]. rewrite decide_True by done.
  erewrite (update_at (set_continuation i)) by apply lookup_insert_eq. cbn [frames next].
  rewrite insert_insert_eq. erewrite update_at by apply lookup_insert_eq. cbn [frames next].
  rewrite insert_insert_eq. cbn -[suspend_at]. rewrite decide_False by done. cbn -[suspend_at].
  erewrite suspended_at by (simpl; by rewrite lookup_insert_ne). cbn [frames next].
  unfold resume. simpl. rewrite lookup_insert_ne by done. by rewrite lookup_insert_eq.
Qed.

Lemma settle i p x r ins h :
  frames h !! i = Some (mkFrame p x) ->
  step (h, Run i (co_value r), ins) =
  let h1 := mkHeap (<[i := mkFrame (settled r p) at_final]> (frames h)) (next h) in
  match continuation p with
  | Some c => let* (y : heap V E * coro V E) := resume c 0 h1 in Ret (y.1, Run c y.2, ins)
  | None => Ret (h1, Finished, ins)
  end.
Proof.
  intros Hi. destruct r as [v|e]; simpl.
  all: rewrite (update_at _ _ _ _ _ Hi); unfold final_suspend;
    erewrite update_at by apply lookup_insert_eq; cbn [frames next]; rewrite insert_insert_eq;
    erewrite suspended_at by apply lookup_insert_eq; cbn [frames next];
    rewrite insert_insert_eq, lookup_insert_eq; done.
Qed.

Lemma await_settled j r p x h :
  result p = None -> exception p = None -> frames h !! j = Some (mkFrame (settled r p) x) ->
  await_resume j h = Ret r.
Proof.
  intros Hr He Hj. unfold await_resume. rewrite Hj. destruct r as [v|e]; simpl; [by rewrite He|done].
Qed.

Lemma destroy_final j h p : frames h !! j = Some (mkFrame p at_final) ->
  destroy j h = mkHeap (delete j (frames h)) (next h).
Proof. intros Hj. unfold destroy. simpl. by rewrite Hj. Qed.

(** A callee that ends hands its result to the caller and its frame is gone. *)
Lemma settle_call i j p q x k r ins h :
  frames h !! j = Some (mkFrame q x) -> result q = None -> exception q = None -> continuation q = Some i ->
  frames h !! i = Some (mkFrame p (at_call j k)) -> i <> j ->
  step (h, Run j (co_value r), ins) = Ret (mkHeap (delete j (frames h)) (next h), Run i (k r), ins).
Proof.
  intros Hj Hr He Hc Hi Hne. rewrite (settle _ _ _ _ _ _ Hj). cbv zeta. rewrite Hc.
  unfold resume. cbn [frames next]. rewrite lookup_insert_ne, Hi by done. simpl.
  erewrite await_settled; [|done|done|apply lookup_insert_eq]. simpl.
  erewrite destroy_final by apply lookup_insert_eq. simpl. by rewrite delete_insert_eq.
Qed.

Lemma wf_insert h i f n m :
  wf h -> (i < n)%nat -> (next h <= n)%nat -> m = <[i := f]> (frames h) -> wf (mkHeap m n).
Proof.
  intros Hw Hi Hn -> i' f'. simpl. destruct (decide (i = i')) as [->|?].
  - done.
  - rewrite lookup_insert_ne by done. intros H. apply Hw in H. lia.
Qed.

Lemma calling_spec h i p x c k :
  wf h -> frames h !! i = Some (mkFrame p x) ->
  i <> next h /\ wf (calling i p c k h) /\
  frames (calling i p c k h) !! i = Some (mkFrame p (at_call (next h) k)) /\
  frames (calling i p c k h) !! next h = Some (mkFrame (callee_promise i) (at_start c)) /\
  delete (next h) (frames (calling i p c k h)) = <[i := mkFrame p (at_call (next h) k)]> (frames h).
Proof.
  intros Hw Hi. assert (Hni : (i < next h)%nat) by (by eapply Hw).
  assert (Hj : frames h !! next h = None).
  { destruct (frames h !! next h) eqn:E'; [|done]. apply Hw in E'. lia. }
  unfold calling. cbn [frames next]. split_and!.
  - lia.
  - eapply (wf_insert (mkHeap (<[next h := mkFrame (callee_promise i) (at_start c)]> (frames h)) (S (next h))) i); [|lia|simpl; lia|done].
    eapply (wf_insert h (next h)); [done|lia|lia|done].
  - apply lookup_insert_eq.
  - rewrite lookup_insert_ne by lia. apply lookup_insert_eq.
  - by rewrite delete_insert_ne, delete_insert_eq, delete_id by (done || lia).
Qed.

(** The call of [c] returned [r]: the caller goes on and the heap is as before
    the call, up to the point where the caller is suspended. *)
Lemma call_returns h h2 i p x c k y r ins :
  wf h -> frames h !! i = Some (mkFrame p x) ->
  frames h2 = <[next h := mkFrame (callee_promise i) y]> (frames (calling i p c k h)) ->
  (S (next h) <= next h2)%nat ->
  exists h3, goes (h2, Run (next h) (co_value r), ins) (h3, Run i (k r), ins) /\
    wf h3 /\ frames h3 = <[i := mkFrame p (at_call (next h) k)]> (frames h) /\ next h3 = next h2.
Proof.
  intros Hw Hi Hf Hn. destruct (calling_spec h i p x c k Hw Hi) as (Hne & _ & Hci & _ & Hdel).
  exists (mkHeap (delete (next h) (frames h2)) (next h2)).
  assert (Hd2 : delete (next h) (frames h2) = <[i := mkFrame p (at_call (next h) k)]> (frames h))
    by (by rewrite Hf, delete_insert_eq).
  split_and!; [|eapply wf_insert; [exact Hw| |lia|exact Hd2]; apply Hw in Hi; lia|exact Hd2|done].
  split; [by destruct r|]. eapply (settle_call i (next h) p (callee_promise i)); rewrite ?Hf; try done.
  - apply lookup_insert_eq.
  - by rewrite lookup_insert_ne.
Qed.

Lemma io_resumes h i p x k y ins :
  wf h -> frames h !! i = Some (mkFrame p x) ->
  exists h1, rtc goes (h, Run i (co_io k), y :: ins) (h1, Run i (k y), ins) /\
    wf h1 /\ frames h1 = <[i := mkFrame p (at_io k)]> (frames h) /\ next h1 = next h.
Proof.
  intros Hw Hi. exists (mkHeap (<[i := mkFrame p (at_io k)]> (frames h)) (next h)).
  split_and!; [|eapply wf_insert; [done| |simpl; lia|done]; by eapply Hw|done|done].
  eapply rtc_l; [split; [done|]; simpl; by rewrite (suspended_at _ _ _ _ _ Hi)|].
  eapply rtc_l; [|apply rtc_refl]. split; [done|]. simpl. unfold resume. cbn [frames].
  by rewrite lookup_insert_eq.
Qed.

(** A running frame computes what the direct meaning says; the frames it made
    are gone and no other frame changed. *)
Lemma body_returns b : forall ins r rest, direct b ins = Some (r, rest) -> forall h i p x,
  wf h -> frames h !! i = Some (mkFrame p x) ->
  exists h' x', rtc goes (h, Run i b, ins) (h', Run i (co_value r), rest) /\
    frames h' = <[i := mkFrame p x']> (frames h) /\ (next h <= next h')%nat.
Proof.
  induction b as [v|e|k IH|c IHc k IH]; intros ins r rest Hd h i p x Hw Hi; simpl in Hd.
  1,2: injection Hd as <- <-; exists h, x; rewrite insert_id by done; split_and!; done || apply rtc_refl.
  - destruct ins as [|y ins]; [done|]. destruct (io_resumes h i p x k y ins Hw Hi) as (h1 & Hs1 & Hw1 & Hf1 & Hn1).
    destruct (IH y ins r rest Hd h1 i p (at_io k)) as (h' & x' & Hs & Hf & Hn);
      [done|rewrite Hf1; apply lookup_insert_eq|].
    exists h', x'. rewrite Hf, Hf1, insert_insert_eq. split_and!; [by etrans|done|lia].
  - destruct (direct c ins) as [[r1 ins1]|] eqn:Hc; [|done].
    destruct (calling_spec h i p x c k Hw Hi) as (_ & Hw1 & _ & Hcj & _).
    destruct (IHc ins r1 ins1 Hc _ _ _ _ Hw1 Hcj) as (h2 & x2 & Hs2 & Hf2 & Hn2).
    destruct (call_returns h h2 i p x c k x2 r1 ins1 Hw Hi Hf2 Hn2) as (h3 & Hs3 & Hw3 & Hf3 & Hn3).
    destruct (IH r1 ins1 r rest Hd h3 i p (at_call (next h) k)) as (h' & x' & Hs & Hf & Hn);
      [done|rewrite Hf3; apply lookup_insert_eq|].
    exists h', x'. rewrite Hf, Hf3, insert_insert_eq. split_and!; [|done|simpl in *; lia].
    eapply rtc_l; [by eapply step_call|]. etrans; [exact Hs2|]. by eapply rtc_l.
Qed.

(** ** Suspension *)

(** Frame [i] awaits, through the tasks it called, the I/O that will resume
    frame [l]. *)
Inductive awaits (m : gmap nat (coro_frame V E)) : nat -> nat -> Prop :=
| awaits_io i p k : m !! i = Some (mkFrame p (at_io k)) -> awaits m i i
| awaits_call i j l p k :
    m !! i = Some (mkFrame p (at_call j k)) -> (i < j)%nat -> awaits m j l -> awaits m i l.

Lemma body_waits b : forall ins, direct b ins = None -> forall h i p x,
  wf h -> frames h !! i = Some (mkFrame p x) ->
  exists h' l, rtc goes (h, Run i b, ins) (h', Waiting l, []) /\ awaits (frames h') i l /\ wf h' /\
    (forall j, (j < next h)%nat -> j <> i -> frames h' !! j = frames h !! j) /\
    (exists x', frames h' !! i = Some (mkFrame p x')).
Proof.
  induction b as [v|e|k IH|c IHc k IH]; intros ins Hd h i p x Hw Hi; simpl in Hd; [done|done| |].
  - destruct ins as [|y ins].
    + exists (mkHeap (<[i := mkFrame p (at_io k)]> (frames h)) (next h)), i. split_and!.
      * apply rtc_once. split; [done|]. simpl. by rewrite (suspended_at _ _ _ _ _ Hi).
      * eapply awaits_io, lookup_insert_eq.
      * eapply (wf_insert h i); [done|by eapply Hw|lia|done].
      * intros j _ Hne. simpl. by rewrite lookup_insert_ne.
      * eexists. apply lookup_insert_eq.
    + destruct (io_resumes h i p x k y ins Hw Hi) as (h1 & Hs1 & Hw1 & Hf1 & Hn1).
      destruct (IH y ins Hd h1 i p (at_io k)) as (h' & l & Hs & Ha & Hw' & Hf & Hx);
        [done|rewrite Hf1; apply lookup_insert_eq|].
      exists h', l. split_and!; try done; [by etrans|].
      intros j Hj Hne. rewrite Hf by (lia || done). by rewrite Hf1, lookup_insert_ne.
  - destruct (calling_spec h i p x c k Hw Hi) as (Hne & Hw1 & Hci & Hcj & Hdel).
    assert (Hni : (i < next h)%nat) by (by eapply Hw).
    destruct (direct c ins) as [[r1 ins1]|] eqn:Hc.
    + destruct (body_returns c ins r1 ins1 Hc _ _ _ _ Hw1 Hcj) as (h2 & x2 & Hs2 & Hf2 & Hn2).
      destruct (call_returns h h2 i p x c k x2 r1 ins1 Hw Hi Hf2 Hn2) as (h3 & Hs3 & Hw3 & Hf3 & Hn3).
      destruct (IH r1 ins1 Hd h3 i p (at_call (next h) k)) as (h' & l & Hs & Ha & Hw' & Hf & Hx);
        [done|rewrite Hf3; apply lookup_insert_eq|].
      exists h', l. split_and!; try done.
      * eapply rtc_l; [by eapply step_call|]. etrans; [exact Hs2|]. by eapply rtc_l.
      * intros j Hj Hji. rewrite Hf by (simpl in *; lia || done). by rewrite Hf3, lookup_insert_ne.
    + destruct (IHc ins Hc _ _ _ _ Hw1 Hcj) as (h' & l & Hs & Ha & Hw' & Hf & _). simpl in Hf.
      assert (Hi' : frames h' !! i = Some (mkFrame p (at_call (next h) k))).
      { rewrite Hf by lia. apply lookup_insert_eq. }
      exists h', l. split_and!; [| |done| |by eexists].
      * eapply rtc_l; [by eapply step_call|]. done.
      * by eapply awaits_call.
      * intros j Hj Hji. rewrite Hf by lia. rewrite !lookup_insert_ne by lia. done.
Qed.

Lemma awaits_delete m i j l : awaits m j l -> (i < j)%nat -> awaits (delete i m) j l.
Proof.
  induction 1 as [j p k Hj|j j' l p k Hj Hlt _ IH]; intros Hi.
  - eapply awaits_io. rewrite lookup_delete_ne by lia. done.
  - eapply awaits_call; [rewrite lookup_delete_ne by lia; done|done|]. apply IH. lia.
Qed.

(** Destroying a suspended task destroys the frame its I/O would resume. *)
Lemma destroy_awaited fuel n : forall m i l,
  awaits m i l -> (forall j f, m !! j = Some f -> (j < n)%nat) -> (n - i < fuel)%nat ->
  destroy_chain fuel i m !! l = None.
Proof.
  induction fuel as [|fuel IH]; intros m i l Ha Hb Hf; [lia|]. simpl.
  destruct Ha as [i p k Hi|i j l p k Hi Hlt Ha]; rewrite Hi; [apply lookup_delete_eq|].
  pose proof (Hb _ _ Hi). apply IH; [by apply awaits_delete| |lia].
  intros j' f Hj. apply lookup_delete_Some in Hj as [_ Hj]. by eapply Hb.
Qed.

(** ** Starting a task *)

Definition started_promise : TaskPromise V E := mkPromise None None Running None 1.

Definition started b h : heap V E :=
  mkHeap (<[next h := mkFrame started_promise (at_start b)]> (frames h)) (S (next h)).

Lemma start_new b h ins :
  start (next h) ins (call_coroutine b h).2 = Ret (started b h, Run (next h) b, ins).
Proof.
  unfold start. simpl. rewrite lookup_insert_eq. simpl. erewrite update_at by apply lookup_insert_eq.
  simpl. rewrite insert_insert_eq. unfold resume. simpl. by rewrite lookup_insert_eq.
Qed.

Lemma started_wf b h :
  wf h -> wf (started b h) /\
  frames (started b h) !! next h = Some (mkFrame started_promise (at_start b)).
Proof.
  intros Hw. split; [eapply (wf_insert h (next h)); [done|lia|lia|done]|apply lookup_insert_eq].
Qed.

Lemma fresh_frame h : wf h -> frames h !! next h = None.
Proof. intros Hw. destruct (frames h !! next h) eqn:E'; [|done]. apply Hw in E'. lia. Qed.

(** The machine finishes a task whose meaning has a result. *)
Lemma started_finishes b h ins r rest :
  wf h -> direct b ins = Some (r, rest) ->
  exists h2, rtc goes (started b h, Run (next h) b, ins) (h2, Finished, rest) /\
    frames h2 = <[next h := mkFrame (settled r started_promise) at_final]> (frames h).
Proof.
  intros Hw Hd. destruct (started_wf b h Hw) as [Hw1 Hj].
  destruct (body_returns b ins r rest Hd _ _ _ _ Hw1 Hj) as (h1 & x & Hs & Hf & _).
  exists (mkHeap (<[next h := mkFrame (settled r started_promise) at_final]> (frames h1)) (next h1)).
  split; [|simpl; by rewrite Hf, insert_insert_eq; simpl; rewrite insert_insert_eq].
  eapply rtc_r; [exact Hs|]. split; [by destruct r|]. erewrite settle by (rewrite Hf; apply lookup_insert_eq).
  done.
Qed.

(** C8: a task is a call: for every body, however deeply its coroutines await
    each other and whatever they throw and catch, starting the task and feeding
    it I/O completions makes [get()] return (or rethrow) what the same body
    computes as ordinary nested calls, consuming the same completions; every
    frame made on the way is destroyed once, and destroying the task restores the
    heap. *)
Theorem task_runs_like_call b h ins r rest :
  wf h -> direct b ins = Some (r, rest) ->
  exists n h2, (forall fuel, (n <= fuel)%nat ->
      get fuel (Some (next h)) ins (call_coroutine b h).2 = Some (Ret (r, (h2, Finished, rest)))) /\
    frames (destroy (next h) h2) = frames h.
Proof.
  intros Hw Hd. destruct (started_finishes b h ins r rest Hw Hd) as (h2 & Hs & Hf).
  assert (Hl : frames h2 !! next h = Some (mkFrame (settled r started_promise) at_final))
    by (rewrite Hf; apply lookup_insert_eq).
  destruct (run_halts _ _ Hs eq_refl) as [n Hn]. exists n, h2. split.
  - intros fuel Hle. unfold get. rewrite start_new, (Hn fuel Hle). cbn [fst]. rewrite Hl. cbn [promise].
    rewrite decide_True by (destruct r; by left). by rewrite (await_settled _ r started_promise at_final).
  - rewrite (destroy_final _ _ _ Hl). cbn [frames]. rewrite Hf, delete_insert_eq. by apply delete_id, fresh_frame.
Qed.

(** A task that waits is safe but does not survive [spawn]: if the body
    needs a completion, [start()] leaves it suspended without undefined
    behaviour, and since [spawn]'s lambda is popped and destroyed right after,
    the completion resumes a destroyed frame. *)
Theorem spawn_destroys_suspended b h :
  wf h -> direct b [] = None ->
  exists n h2 l, (forall fuel, (n <= fuel)%nat ->
      spawn_run fuel (next h) (call_coroutine b h).2 = Some (Ret (h2, Waiting l, []))) /\
    forall x ins, step (h2, Waiting l, x :: ins) = Undef.
Proof.
  intros Hw Hd. destruct (started_wf b h Hw) as [Hw1 Hj].
  destruct (body_waits b [] Hd _ _ _ _ Hw1 Hj) as (h1 & l & Hs & Ha & Hw' & _).
  destruct (run_halts _ _ Hs eq_refl) as [n Hn]. exists n, (destroy (next h) h1), l. split.
  - intros fuel Hle. unfold spawn_run. by rewrite start_new, (Hn fuel Hle).
  - intros x ins. simpl. unfold resume. cbn [frames destroy].
    rewrite (destroy_awaited _ (next h1) _ _ _ Ha); [done|apply Hw'|lia].
Qed.

(** Awaiting a task that was started or cancelled before it has a result
    does not wait: [await_suspend] gives control straight back (or [await_ready]
    is true) and [await_resume] dereferences the null result. *)
Theorem await_unfinished_undefined i j p x h :
  frames h !! j = Some (mkFrame p x) -> state p = Running \/ state p = Cancelled ->
  result p = None -> exception p = None -> co_await_task i j h = Undef.
Proof.
  intros Hj Hs Hr He. unfold co_await_task, await_ready. rewrite Hj. cbn [promise mbind outcome_bind].
  destruct Hs as [Hs|Hs]; rewrite Hs.
  - rewrite bool_decide_false by (intros [|]; done). unfold await_suspend. rewrite Hj. cbn [promise].
    rewrite Hs, decide_False by done. cbn [mbind outcome_bind]. rewrite decide_True by done.
    unfold await_resume. erewrite update_at by done. cbn [frames]. rewrite lookup_insert_eq. simpl.
    by rewrite He, Hr.
  - rewrite bool_decide_true by (by right). unfold await_resume. by rewrite Hj; simpl; rewrite He, Hr.
Qed.

End Task.

(** ** Witnesses *)

(** A caller that awaits a callee, catches what it throws and waits for I/O. *)
Definition sample_callee : coro Z Z := co_io (fun x => if x <? 0 then co_throw x else co_return (x + 1)).

Definition sample_caller : coro Z Z :=
  co_call sample_callee (fun r => co_io (fun y => co_return match r with inl v => v + y | inr e => e end)).

Definition empty_heap : heap Z Z := mkHeap ∅ 0.

Lemma empty_wf : wf empty_heap.
Proof. intros i f. unfold empty_heap. simpl. by rewrite lookup_empty. Qed.

Lemma task_runs_like_call_witness :
  exists n h2, (forall fuel, (n <= fuel)%nat ->
      get fuel (Some 0%nat) [-5; 7; 9] (call_coroutine sample_caller empty_heap).2 =
        Some (Ret (inl (-5), (h2, Finished, [9])))) /\
    frames (destroy 0 h2) = ∅.
Proof. apply (task_runs_like_call sample_caller empty_heap); [apply empty_wf|reflexivity]. Defined.

Lemma spawn_destroys_suspended_witness :
  exists n h2 l, (forall fuel, (n <= fuel)%nat ->
      spawn_run fuel 0 (call_coroutine sample_caller empty_heap).2 = Some (Ret (h2, Waiting l, []))) /\
    forall x ins, step (h2, Waiting l, x :: ins) = Undef.
Proof. apply (spawn_destroys_suspended sample_caller empty_heap); [apply empty_wf|reflexivity]. Defined.

Lemma await_unfinished_undefined_witness :
  co_await_task 1 0 (cancel 0 (call_coroutine sample_callee empty_heap).2) = Undef.
Proof.
  apply (await_unfinished_undefined 1 0 (mkPromise None None Cancelled None 1) (at_start sample_callee));
    [reflexivity|by right|done|done].
Defined.
