(* ===== verification/TaskVoid.v ===== *)
(** * coroutine/task.hpp: Task<void>, and who owns a frame

    [TaskPromise<void>] has no result, so its heaps are those of Task.v in which
    every [result] is null; [erase] forgets the results.  The void machine is the
    one of Task.v except that [return_void] stores nothing and [await_resume] and
    [get] read nothing, and [void_run] shows that it does what [Task<unit>] does.

    The second part is the move-only handles: [Task<T>], [Task<void>] and
    [Generator<T>] each own a frame; [Owner] is what their special members do,
    and the theorem about sequences of moves, assignments and destructions is
    proved from [OwnerLaws] for all three. *)

From Stdlib Require Import ZArith Lia.
From S2P Require Import Prelude Task.

Section Void.
Context {E : Type}.
Implicit Types (h : heap unit E) (b : coro unit E) (p : TaskPromise unit E).

(** ** Task<void> *)

Definition return_void p : TaskPromise unit E := p.

Definition await_resume_void (j : nat) h : outcome (unit + E) :=
  match frames h !! j with
  | Some f => match exception (promise f) with Some e => Ret (inr e) | None => Ret (inl tt) end
  | None => Undef
  end.

Definition co_await_void (i j : nat) h : outcome (heap unit E * (unit + E + nat)) :=
  let* (ready : bool) := await_ready j h in
  if ready then let* r := await_resume_void j h in Ret (h, inl r)
  else
    let* (x : nat * heap unit E) := await_suspend j i h in
    let '(t, h1) := x in
    if decide (t = i) then let* r := await_resume_void j h1 in Ret (h1, inl r) else Ret (h1, inr t).

Definition resume_void (i : nat) (x : Z) h : outcome (heap unit E * coro unit E) :=
  match frames h !! i with
  | Some (mkFrame _ (at_start b)) => Ret (h, b)
  | Some (mkFrame _ (at_io k)) => Ret (h, k x)
  | Some (mkFrame _ (at_call j k)) => let* r := await_resume_void j h in Ret (destroy j h, k r)
  | Some (mkFrame _ at_final) | None => Undef
  end.

Definition final_suspend_void (i : nat) (ins : list Z) h : outcome (config (V := unit) (E := E)) :=
  let h1 := suspend_at at_final i (update (set_state Completed) i h) in
  match frames h1 !! i with
  | Some f =>
      match continuation (promise f) with
      | Some c => let* (y : heap unit E * coro unit E) := resume_void c 0 h1 in Ret (y.1, Run c y.2, ins)
      | None => Ret (h1, Finished, ins)
      end
  | None => Undef
  end.

Definition step_void (c : config (V := unit) (E := E)) : outcome (config (V := unit) (E := E)) :=
  let '(h, ctl, ins) := c in
  match ctl with
  | Run i (co_return _) => final_suspend_void i ins (update return_void i h)
  | Run i (co_throw e) => final_suspend_void i ins (update (unhandled_exception e) i h)
  | Run i (co_io k) => Ret (suspend_at (at_io k) i h, Waiting i, ins)
  | Run i (co_call callee k) =>
      let '(j, h1) := call_coroutine callee h in
      let* (y : heap unit E * (unit + E + nat)) := co_await_void i j h1 in
      match y with
      | (h2, inl r) => Ret (destroy j h2, Run i (k r), ins)
      | (h2, inr t) =>
          let h3 := suspend_at (at_call j k) i h2 in
          let* (z : heap unit E * coro unit E) := resume_void t 0 h3 in Ret (z.1, Run t z.2, ins)
      end
  | Waiting i =>
      match ins with
      | [] => Ret c
      | x :: ins => let* (z : heap unit E * coro unit E) := resume_void i x h in Ret (z.1, Run i z.2, ins)
      end
  | Finished => Ret c
  end.

Fixpoint run_void (fuel : nat) (c : config (V := unit) (E := E)) : option (outcome (config (V := unit) (E := E))) :=
  if halted c then Some (Ret c)
  else
    match fuel with
    | O => None
    | S fuel =>
        match step_void c with
        | Ret c' => run_void fuel c'
        | Throw e => Some (Throw e)
        | Undef => Some Undef
        end
    end.

Definition start_void (i : nat) (ins : list Z) h : outcome (config (V := unit) (E := E)) :=
  match frames h !! i with
  | Some f =>
      if decide (state (promise f) = Created) then
        let* (z : heap unit E * coro unit E) := resume_void i 0 (update (set_state Running) i h) in
        Ret (z.1, Run i z.2, ins)
      else Ret (h, Finished, ins)
  | None => Undef
  end.

Definition get_void (fuel : nat) (t : option nat) (ins : list Z) h
  : option (outcome ((unit + E) * config (V := unit) (E := E))) :=
  match t with
  | None => Some (Throw "Task is null")
  | Some i =>
      match start_void i ins h with
      | Ret c =>
          match run_void fuel c with
          | Some (Ret c') =>
              match frames c'.1.1 !! i with
              | Some f =>
                  if decide (state (promise f) = Completed \/ state (promise f) = Cancelled)
                  then Some (let* r := await_resume_void i c'.1.1 in Ret (r, c')) else None
              | None => Some Undef
              end
          | Some (Throw e) => Some (Throw e)
          | Some Undef => Some Undef
          | None => None
          end
      | Throw e => Some (Throw e)
      | Undef => Some Undef
      end
  end.

(** [valid()] and [state()]; a null task is cancelled. *)
Definition Task_valid (t : option nat) : bool := match t with Some _ => true | None => false end.

Definition Task_state (t : option nat) h : outcome CoroutineState :=
  match t with
  | None => Ret Cancelled
  | Some i => match frames h !! i with Some f => Ret (state (promise f)) | None => Undef end
  end.

(** [Task<void>::cancel()]; a null task is left alone. *)
Definition cancel_void (t : option nat) h : heap unit E :=
  match t with
  | Some i =>
      match frames h !! i with
      | Some f => if decide (state (promise f) = Completed) then h else update (set_state Cancelled) i h
      | None => h
      end
  | None => h
  end.

Definition make_ready_task (value : unit) : coro unit E := co_return value.

(** ** Forgetting the results *)

Definition erase_promise p : TaskPromise unit E := mkPromise None (exception p) (state p) (continuation p) (ref_count p).
Definition erase_frame (f : coro_frame unit E) : coro_frame unit E := mkFrame (erase_promise (promise f)) (pt f).
Definition erase h : heap unit E := mkHeap (erase_frame <$> frames h) (next h).
Definition erase_config (c : config (V := unit) (E := E)) : config (V := unit) (E := E) := (erase c.1.1, c.1.2, c.2).

Lemma erase_lookup i h : frames (erase h) !! i = erase_frame <$> frames h !! i.
Proof. apply lookup_fmap. Qed.

Lemma erase_update g g' i h :
  (forall p, erase_promise (g p) = g' (erase_promise p)) -> erase (update g i h) = update g' i (erase h).
Proof.
  intros Hg. unfold erase, update. simpl. f_equal. apply map_eq. intros j.
  rewrite !lookup_fmap. destruct (decide (i = j)) as [->|].
  - rewrite !lookup_alter_eq, lookup_fmap. destruct (frames h !! j) as [[p x]|]; [|done]. simpl.
    unfold erase_frame. simpl. by rewrite Hg.
  - by rewrite !lookup_alter_ne, lookup_fmap.
Qed.

Lemma erase_suspend x i h : erase (suspend_at x i h) = suspend_at x i (erase h).
Proof.
  unfold erase, suspend_at. simpl. f_equal. apply map_eq. intros j.
  rewrite !lookup_fmap. destruct (decide (i = j)) as [->|].
  - rewrite !lookup_alter_eq, lookup_fmap. by destruct (frames h !! j) as [[p y]|].
  - by rewrite !lookup_alter_ne, lookup_fmap.
Qed.

Lemma erase_call b h : call_coroutine b (erase h) = (next h, erase (call_coroutine b h).2).
Proof. unfold call_coroutine, erase. simpl. by rewrite fmap_insert. Qed.

Lemma erase_destroy_chain fuel : forall i (m : gmap nat (coro_frame unit E)),
  destroy_chain fuel i (erase_frame <$> m) = erase_frame <$> destroy_chain fuel i m.
Proof.
  induction fuel as [|fuel IH]; intros i m; simpl; [done|]. rewrite lookup_fmap.
  destruct (m !! i) as [[p []]|]; simpl; rewrite ?fmap_delete; try done. by rewrite <- IH, fmap_delete.
Qed.

Lemma erase_destroy i h : erase (destroy i h) = destroy i (erase h).
Proof. unfold erase, destroy. cbn [frames next]. by rewrite erase_destroy_chain. Qed.

(** ** The void machine simulates *)

Lemma erase_await_resume j h r : await_resume j h = Ret r -> await_resume_void j (erase h) = Ret r.
Proof.
  unfold await_resume, await_resume_void. rewrite erase_lookup. destruct (frames h !! j) as [f|]; [|done]. simpl.
  destruct (exception (promise f)); [done|]. destruct (result (promise f)) as [[]|]; [|done]. done.
Qed.

Lemma erase_await_ready j h : await_ready j (erase h) = await_ready j h.
Proof. unfold await_ready. rewrite erase_lookup. by destruct (frames h !! j). Qed.

Lemma erase_await_suspend j c h t h' :
  await_suspend j c h = Ret (t, h') -> await_suspend j c (erase h) = Ret (t, erase h').
Proof.
  unfold await_suspend. rewrite erase_lookup. destruct (frames h !! j) as [f|]; [|done]. simpl.
  destruct (decide (state (promise f) = Created)); intros [= <- <-]; do 2 f_equal; symmetry.
  - rewrite (erase_update (set_state Running) (set_state Running)) by done. f_equal.
    by rewrite (erase_update (set_continuation c) (set_continuation c)).
  - by rewrite (erase_update (set_continuation c) (set_continuation c)).
Qed.

Lemma erase_co_await i j h h' y : co_await_task i j h = Ret (h', y) -> co_await_void i j (erase h) = Ret (erase h', y).
Proof.
  unfold co_await_task, co_await_void. rewrite erase_await_ready. destruct (await_ready j h) as [[]| |]; simpl; try done.
  - destruct (await_resume j h) as [r| |] eqn:Er; try done. simpl. intros [= <- <-].
    by rewrite (erase_await_resume _ _ _ Er).
  - destruct (await_suspend j i h) as [[t h1]| |] eqn:Es; try done. simpl. rewrite (erase_await_suspend _ _ _ _ _ Es). simpl.
    destruct (decide (t = i)); [|by intros [= <- <-]].
    destruct (await_resume j h1) as [r| |] eqn:Er; try done. simpl. intros [= <- <-].
    by rewrite (erase_await_resume _ _ _ Er).
Qed.

Lemma erase_resume i x h h' b : resume i x h = Ret (h', b) -> resume_void i x (erase h) = Ret (erase h', b).
Proof.
  unfold resume, resume_void. rewrite erase_lookup. destruct (frames h !! i) as [[p [c|k|j k|]]|]; simpl; try done.
  - by intros [= <- <-].
  - by intros [= <- <-].
  - destruct (await_resume j h) as [r| |] eqn:Er; try done. simpl. intros [= <- <-].
    rewrite (erase_await_resume _ _ _ Er). simpl. by rewrite erase_destroy.
Qed.

Lemma erase_final i ins h c : final_suspend i ins h = Ret c -> final_suspend_void i ins (erase h) = Ret (erase_config c).
Proof.
  unfold final_suspend, final_suspend_void.
  rewrite <- (erase_update (set_state Completed) (set_state Completed)), <- erase_suspend by done.
  set (h1 := suspend_at _ _ _). rewrite erase_lookup. destruct (frames h1 !! i) as [f|]; [|done]. simpl.
  destruct (continuation (promise f)) as [k|]; [|by intros [= <-]].
  destruct (resume k 0 h1) as [[h2 b]| |] eqn:Er; try done. simpl. intros [= <-].
  by rewrite (erase_resume _ _ _ _ _ Er).
Qed.

Lemma erase_step c c' : step c = Ret c' -> step_void (erase_config c) = Ret (erase_config c').
Proof.
  destruct c as [[h ctl] ins]. destruct ctl as [i [v|e|k|callee k]|i|]; cbn [step step_void erase_config fst snd].
  - intros Hs. rewrite <- (erase_update (return_value v) return_void) by done. by apply erase_final.
  - intros Hs. rewrite <- (erase_update (unhandled_exception e) (unhandled_exception e)) by done. by apply erase_final.
  - intros [= <-]. by rewrite <- erase_suspend.
  - rewrite erase_call. destruct (call_coroutine callee h) as [j h1] eqn:Ec. injection Ec as <- Eh1. cbn [snd].
    destruct (co_await_task i (next h) h1) as [[h2 [r|t]]| |] eqn:Ea; try done; simpl; rewrite (erase_co_await _ _ _ _ _ Ea); simpl.
    + intros [= <-]. unfold erase_config. simpl. by rewrite erase_destroy.
    + rewrite <- erase_suspend. destruct (resume t 0 (suspend_at _ _ _)) as [[h3 b]| |] eqn:Er; try done. simpl.
      intros [= <-]. by rewrite (erase_resume _ _ _ _ _ Er).
  - destruct ins as [|x ins]; [by intros [= <-]|]. destruct (resume i x h) as [[h2 b]| |] eqn:Er; try done. simpl.
    intros [= <-]. by rewrite (erase_resume _ _ _ _ _ Er).
  - by intros [= <-].
Qed.

Lemma erase_run fuel : forall c c', run fuel c = Some (Ret c') -> run_void fuel (erase_config c) = Some (Ret (erase_config c')).
Proof.
  assert (Hh : forall c, halted (erase_config c) = halted c) by by intros [[h []] []].
  induction fuel as [|fuel IH]; intros c c'; cbn [run run_void]; rewrite Hh; destruct (halted c); try (by intros [= <-]).
  destruct (step c) as [c1| |] eqn:Es; try done. rewrite (erase_step _ _ Es). apply IH.
Qed.

Lemma erase_start i ins h c : start i ins h = Ret c -> start_void i ins (erase h) = Ret (erase_config c).
Proof.
  unfold start, start_void. rewrite erase_lookup. destruct (frames h !! i) as [f|]; [|done]. simpl.
  destruct (decide (state (promise f) = Created)); [|by intros [= <-]].
  rewrite <- (erase_update (set_state Running) (set_state Running)) by done.
  destruct (resume i 0 _) as [[h1 b]| |] eqn:Er; try done. simpl. intros [= <-]. by rewrite (erase_resume _ _ _ _ _ Er).
Qed.

(** C9: [Task<void>] is [Task<unit>] without the result: whatever [get()] of the
    latter returns or rethrows, for every body and every sequence of completions,
    [get()] of the former does, in the same number of steps and with the same
    frames left. *)
Theorem void_task_equivalent fuel t ins h r c :
  get fuel t ins h = Some (Ret (r, c)) -> get_void fuel t ins (erase h) = Some (Ret (r, erase_config c)).
Proof.
  unfold get, get_void. destruct t as [i|]; [|done]. destruct (start i ins h) as [c0| |] eqn:Es; try done.
  rewrite (erase_start _ _ _ _ Es). destruct (run fuel c0) as [[c1| |]|] eqn:Er; try done.
  rewrite (erase_run _ _ _ Er). cbn [erase_config fst]. rewrite erase_lookup.
  destruct (frames c1.1.1 !! i) as [f|]; [|done]. cbn [fmap option_fmap option_map erase_frame promise erase_promise state].
  destruct (decide _); [|done]. destruct (await_resume i c1.1.1) as [r0| |] eqn:Ea; try done. simpl. intros [= <- <-].
  by rewrite (erase_await_resume _ _ _ Ea).
Qed.

(** Cancelling a task that was not started makes [get()] skip its body: a
    [Task<void>] answers as if it had run, a task with a result dereferences its
    null result. *)
Theorem cancel_then_get (b : coro unit E) h ins fuel :
  let h1 := cancel_void (Some (next h)) (call_coroutine b h).2 in
  get_void fuel (Some (next h)) ins h1 = Some (Ret (inl tt, (h1, Finished, ins))) /\
  get fuel (Some (next h)) ins h1 = Some Undef.
Proof.
  intros h1. assert (Hh : h1 = mkHeap (<[next h := mkFrame (set_state Cancelled new_promise) (at_start b)]> (frames h)) (S (next h))).
  { unfold h1, cancel_void, call_coroutine. cbn [snd frames]. rewrite lookup_insert_eq. cbn [promise].
    rewrite decide_False by done. erewrite update_at by apply lookup_insert_eq. cbn [frames next]. by rewrite insert_insert_eq. }
  assert (Hl : frames h1 !! next h = Some (mkFrame (set_state Cancelled new_promise) (at_start b)))
    by (rewrite Hh; apply lookup_insert_eq).
  split; unfold get_void, get, start_void, start; rewrite Hl; cbn [promise]; rewrite decide_False by done.
  - replace (run_void fuel (h1, Finished, ins)) with (Some (Ret (h1, Finished (V := unit) (E := E), ins))) by (by destruct fuel).
    cbn [fst]. rewrite Hl. cbn [promise]. rewrite decide_True by (by right). unfold await_resume_void. by rewrite Hl.
  - replace (run fuel (h1, Finished, ins)) with (Some (Ret (h1, Finished (V := unit) (E := E), ins))) by (by destruct fuel).
    cbn [fst]. rewrite Hl. cbn [promise]. rewrite decide_True by (by right). unfold await_resume. by rewrite Hl.
Qed.

(** Awaiting a [Task<void>] that runs or was cancelled goes on at once, as if it
    had finished, where [Task<T>] dereferences null. *)
Theorem await_void_does_not_wait i j p x h :
  frames h !! j = Some (mkFrame p x) -> state p = Running \/ state p = Cancelled -> exception p = None ->
  exists h', co_await_void i j h = Ret (h', inl (inl tt)).
Proof.
  intros Hj Hs He. unfold co_await_void, await_ready. rewrite Hj. cbn [promise mbind outcome_bind].
  destruct Hs as [Hs|Hs]; rewrite Hs.
  - rewrite bool_decide_false by (intros [|]; done). unfold await_suspend. rewrite Hj. cbn [promise].
    rewrite Hs, decide_False by done. cbn [mbind outcome_bind]. rewrite decide_True by done.
    unfold await_resume_void. erewrite update_at by done. cbn [frames]. rewrite lookup_insert_eq. simpl. rewrite He. eauto.
  - rewrite bool_decide_true by (by right). unfold await_resume_void. rewrite Hj. simpl. rewrite He. simpl. eauto.
Qed.
End Void.

(** ** Owners of a frame *)

(** The special members of a move-only handle class: [o_move source] is the
    [handle_] of the object constructed and the one left in the source;
    [o_assign self target source] the frame destroyed and the two handles after
    an assignment, [self] when both are the same object; [o_drop] the frame the
    destructor destroys. *)
Class Owner := {
  o_move : option nat -> option nat * option nat;
  o_assign : bool -> option nat -> option nat -> option nat * option nat * option nat;
  o_drop : option nat -> option nat;
}.

Class OwnerLaws (O : Owner) := {
  o_move_law h : o_move h = (h, None);
  o_assign_law t s : o_assign false t s = (t, s, None);
  o_assign_self h : o_assign true h h = (None, h, h);
  o_drop_law h : o_drop h = h;
}.

(** [Task<T>]: [destroy()] and the members that use it. *)
Definition Task_destroy (handle : option nat) : option nat * option nat :=
  match handle with Some i => (Some i, None) | None => (None, None) end.

Definition Task_move (other : option nat) : option nat * option nat := (other, None).

Definition Task_assign (self : bool) (this other : option nat) : option nat * option nat * option nat :=
  if self then (None, this, other) else ((Task_destroy this).1, other, None).

Definition Task_drop (handle : option nat) : option nat := (Task_destroy handle).1.

#[export] Instance Task_owner : Owner := {| o_move := Task_move; o_assign := Task_assign; o_drop := Task_drop |}.
#[export] Instance Task_owner_laws : OwnerLaws Task_owner.
Proof. by split; try done; intros [i|]. Qed.

(** [Task<void>]. *)
Definition Task_void_destroy (handle : option nat) : option nat * option nat :=
  match handle with Some i => (Some i, None) | None => (None, None) end.

Definition Task_void_move (other : option nat) : option nat * option nat := (other, None).

Definition Task_void_assign (self : bool) (this other : option nat) : option nat * option nat * option nat :=
  if self then (None, this, other) else ((Task_void_destroy this).1, other, None).

Definition Task_void_drop (handle : option nat) : option nat := (Task_void_destroy handle).1.

#[export] Instance Task_void_owner : Owner :=
  {| o_move := Task_void_move; o_assign := Task_void_assign; o_drop := Task_void_drop |}.
#[export] Instance Task_void_owner_laws : OwnerLaws Task_void_owner.
Proof. by split; try done; intros [i|]. Qed.

(** [Generator<T>]: the members test [handle_] themselves. *)
Definition Generator_move (other : option nat) : option nat * option nat := (other, None).

Definition Generator_assign (self : bool) (this other : option nat) : option nat * option nat * option nat :=
  if negb self then (match this with Some i => Some i | None => None end, other, None) else (None, this, other).

Definition Generator_drop (handle : option nat) : option nat := match handle with Some i => Some i | None => None end.

#[export] Instance Generator_owner : Owner :=
  {| o_move := Generator_move; o_assign := Generator_assign; o_drop := Generator_drop |}.
#[export] Instance Generator_owner_laws : OwnerLaws Generator_owner.
Proof. by split; try done; intros [i|]. Qed.

(** Variables of the class, the frames that exist and the next one to be made. *)
Record own_sys := mkOwn { vars : gmap nat (option nat); alive : gset nat; fresh : nat }.

Definition own_empty : own_sys := mkOwn ∅ ∅ 0.

Inductive own_op :=
| OCall (v : nat)            (* auto v = coroutine(); *)
| ODefault (v : nat)         (* Task v; *)
| OMove (v w : nat)          (* Task v(std::move(w)); *)
| OAssign (v w : nat)        (* v = std::move(w); *)
| ODrop (v : nat).           (* end of v's lifetime *)

(** [handle.destroy()]: destroying a frame that is gone is undefined. *)
Definition destroy_frame (o : option nat) (live : gset nat) : outcome (gset nat) :=
  match o with
  | None => Ret live
  | Some i => if decide (i ∈ live) then Ret (live ∖ {[i]}) else Undef
  end.

Section Owners.
Context {O : Owner}.

(** A statement on variables that are not declared, or declared twice, is no
    program. *)
Definition own_do (op : own_op) (s : own_sys) : outcome own_sys :=
  match op with
  | OCall v =>
      match vars s !! v with
      | None => Ret (mkOwn (<[v := Some (fresh s)]> (vars s)) ({[fresh s]} ∪ alive s) (S (fresh s)))
      | Some _ => Throw "redeclared"
      end
  | ODefault v =>
      match vars s !! v with
      | None => Ret (mkOwn (<[v := None]> (vars s)) (alive s) (fresh s))
      | Some _ => Throw "redeclared"
      end
  | OMove v w =>
      match vars s !! v, vars s !! w with
      | None, Some h => let '(n, h) := o_move h in Ret (mkOwn (<[v := n]> (<[w := h]> (vars s))) (alive s) (fresh s))
      | _, _ => Throw "undeclared"
      end
  | OAssign v w =>
      match vars s !! v, vars s !! w with
      | Some t, Some h =>
          let '(gone, t, h) := o_assign (bool_decide (v = w)) t h in
          let* live := destroy_frame gone (alive s) in
          Ret (mkOwn (<[v := t]> (<[w := h]> (vars s))) live (fresh s))
      | _, _ => Throw "undeclared"
      end
  | ODrop v =>
      match vars s !! v with
      | Some h => let* live := destroy_frame (o_drop h) (alive s) in Ret (mkOwn (delete v (vars s)) live (fresh s))
      | None => Throw "undeclared"
      end
  end.

Fixpoint own_run (ops : list own_op) (s : own_sys) : outcome own_sys :=
  match ops with
  | [] => Ret s
  | op :: ops => let* s := own_do op s in own_run ops s
  end.

(** Every frame has exactly one owner. *)
Definition owned (s : own_sys) : Prop :=
  (forall i, i ∈ alive s <-> exists v, vars s !! v = Some (Some i)) /\
  (forall v w i, vars s !! v = Some (Some i) -> vars s !! w = Some (Some i) -> v = w) /\
  (forall v i, vars s !! v = Some (Some i) -> (i < fresh s)%nat).

Context `{!OwnerLaws O}.

(** The frames of all variables but [v]. *)
Definition owned_by_others (v : nat) (s : own_sys) (live : gset nat) : Prop :=
  forall i, i ∈ live <-> exists w, w <> v /\ vars s !! w = Some (Some i).

Lemma destroy_owned v (h : option nat) s :
  owned s -> vars s !! v = Some h ->
  exists live, destroy_frame h (alive s) = Ret live /\ owned_by_others v s live.
Proof.
  intros (H1 & H2 & _) Hv. destruct h as [k|]; simpl.
  - rewrite decide_True by (apply H1; eauto). eexists. split; [reflexivity|]. intros i.
    rewrite elem_of_difference, elem_of_singleton, H1. split.
    + intros [[w Hw] Hi]. exists w. split; [|done]. intros ->. rewrite Hv in Hw. congruence.
    + intros (w & Hne & Hw). split; [eauto|]. intros ->. by apply Hne, (H2 w v k).
  - eexists. split; [reflexivity|]. intros i. rewrite H1. split; [|by intros (w & _ & Hw); exists w].
    intros [w Hw]. exists w. split; [|done]. intros ->. congruence.
Qed.

Lemma undeclared_others v s : owned s -> (forall i, vars s !! v <> Some (Some i)) -> owned_by_others v s (alive s).
Proof.
  intros (H1 & _) Hv i. rewrite H1. split; [|by intros (w & _ & Hw); exists w].
  intros [w Hw]. exists w. split; [|done]. intros ->. by apply (Hv i).
Qed.

(** The variable [v] ends up owning nothing. *)
Lemma owned_shrink v s vars' live :
  owned s -> owned_by_others v s live ->
  (forall w i, vars' !! w = Some (Some i) <-> w <> v /\ vars s !! w = Some (Some i)) -> owned (mkOwn vars' live (fresh s)).
Proof.
  intros (_ & H2 & H3) Hl Hv. split_and!; simpl.
  - intros i. rewrite (Hl i). by setoid_rewrite Hv.
  - intros a b i [_ Ha]%Hv [_ Hb]%Hv. by eapply H2.
  - intros a i [_ Ha]%Hv. by eapply H3.
Qed.

(** The frame of [w] goes to [v]. *)
Lemma owned_transfer v w s vars' live :
  owned s -> v <> w -> owned_by_others v s live ->
  (forall u i, vars' !! u = Some (Some i) <->
     (u = v /\ vars s !! w = Some (Some i)) \/ (u <> v /\ u <> w /\ vars s !! u = Some (Some i))) ->
  owned (mkOwn vars' live (fresh s)).
Proof.
  intros (_ & H2 & H3) Hne Hl Hv. split_and!; simpl.
  - intros i. rewrite (Hl i). setoid_rewrite Hv. split.
    + intros (u & Hu & Eu). destruct (decide (u = w)) as [->|]; [by exists v; left|]. exists u. by right.
    + intros (u & [[-> Eu]|(Hu & Hw & Eu)]); [exists w|exists u]; split; congruence || done.
  - intros a b i [[-> Ha]|(? & ? & Ha)]%Hv [[-> Hb]|(? & ? & Hb)]%Hv; [done| | |by eapply H2].
    + by pose proof (H2 _ _ _ Ha Hb).
    + by pose proof (H2 _ _ _ Ha Hb).
  - intros a i [[_ Ha]|(_ & _ & Ha)]%Hv; by eapply H3.
Qed.

Lemma owned_call v s :
  owned s -> vars s !! v = None ->
  owned (mkOwn (<[v := Some (fresh s)]> (vars s)) ({[fresh s]} ∪ alive s) (S (fresh s))).
Proof.
  intros (H1 & H2 & H3) Ev.
  assert (Hf : forall u, vars s !! u <> Some (Some (fresh s))) by (intros u E; apply H3 in E; lia).
  split_and!; simpl.
  - intros i. rewrite elem_of_union, elem_of_singleton, H1. setoid_rewrite lookup_insert_Some. split.
    + intros [->|[w Hw]]; [by exists v; left|]. exists w. right. split; [congruence|done].
    + intros [w [[_ [= ->]]|[_ Hw]]]; [by left|right; by exists w].
  - intros a b i. rewrite !lookup_insert_Some. intros [[<- [= <-]]|[Ha Ea]] [[<- Eb]|[Hb Eb]]; try done.
    + by apply Hf in Eb.
    + injection Eb as <-. by apply Hf in Ea.
    + by eapply H2.
  - intros a i. rewrite lookup_insert_Some. intros [[_ [= <-]]|[_ Ha%H3]]; lia.
Qed.

Lemma insert_two v w (x : option nat) (m : gmap nat (option nat)) u i :
  v <> w -> (<[v := x]> (<[w := None]> m)) !! u = Some (Some i) <->
    (u = v /\ x = Some i) \/ (u <> v /\ u <> w /\ m !! u = Some (Some i)).
Proof.
  intros Hne. rewrite !lookup_insert_Some. split.
  - intros [[-> [= ->]]|[Hv [[_ [=]]|[Hw Hu]]]]; [by left|right; by split_and!].
  - intros [[-> ->]|(Hv & Hw & Hu)]; [by left|]. right. split; [done|]. by right.
Qed.

Lemma own_do_owned op s :
  owned s -> (exists s', own_do op s = Ret s' /\ owned s') \/ (exists e, own_do op s = Throw e).
Proof.
  intros Hs. destruct op as [v|v|v w|v w|v]; cbn [own_do].
  - destruct (vars s !! v) eqn:Ev; [by right; eexists|]. left. eexists. split; [reflexivity|]. by apply owned_call.
  - destruct (vars s !! v) eqn:Ev; [by right; eexists|]. left. eexists. split; [reflexivity|].
    apply (owned_shrink v s); [done|apply undeclared_others; [done|by rewrite Ev]|].
    intros u i. rewrite lookup_insert_Some. split; [|by intros [? ?]; right].
    intros [[_ [=]]|[? ?]]. done.
  - destruct (vars s !! v) eqn:Ev; [by right; eexists|]. destruct (vars s !! w) as [h|] eqn:Ew; [|by right; eexists].
    assert (Hne : v <> w) by congruence. left. rewrite o_move_law. eexists. split; [reflexivity|].
    apply (owned_transfer v w s); [done|done|apply undeclared_others; [done|by rewrite Ev]|].
    intros u i. rewrite insert_two, Ew by done. intuition congruence.
  - destruct (vars s !! v) as [t|] eqn:Ev; [|by right; eexists]. destruct (vars s !! w) as [h|] eqn:Ew; [|by right; eexists].
    left. destruct (decide (v = w)) as [->|Hne].
    + rewrite bool_decide_true by done. rewrite Ev in Ew. injection Ew as <-. rewrite o_assign_self. simpl.
      eexists. split; [reflexivity|]. rewrite insert_insert_eq, insert_id by done. by destruct s.
    + rewrite bool_decide_false by done. rewrite o_assign_law. destruct (destroy_owned v t s Hs Ev) as (live & -> & Hl).
      simpl. eexists. split; [reflexivity|]. apply (owned_transfer v w s); [done..|].
      intros u i. rewrite insert_two, Ew by done. intuition congruence.
  - destruct (vars s !! v) as [h|] eqn:Ev; [|by right; eexists]. left. rewrite o_drop_law.
    destruct (destroy_owned v h s Hs Ev) as (live & -> & Hl). simpl. eexists. split; [reflexivity|].
    apply (owned_shrink v s); [done..|]. intros u i. rewrite lookup_delete_Some. intuition.
Qed.

(** C26: the owners of coroutine frames neither leak nor destroy twice.  For
    [Task<T>], [Task<void>] and [Generator<T>] alike, every well-formed sequence
    of calls, moves, assignments (also to oneself) and ends of lifetime runs
    without destroying a frame that is gone; afterwards the frames that exist are
    exactly those some variable holds, each held by one, and none is left when no
    variable is. *)
Theorem frames_owned_once ops :
  own_run ops own_empty <> Undef /\
  forall s, own_run ops own_empty = Ret s ->
    (forall i, i ∈ alive s <-> exists v, vars s !! v = Some (Some i)) /\
    (forall v w i, vars s !! v = Some (Some i) -> vars s !! w = Some (Some i) -> v = w) /\
    (vars s = ∅ -> alive s = ∅).
Proof.
  assert (Hr : forall s, owned s -> (exists s', own_run ops s = Ret s' /\ owned s') \/ (exists e, own_run ops s = Throw e)).
  { induction ops as [|op ops IH]; intros s Hs; cbn [own_run]; [by left; exists s|].
    destruct (own_do_owned op s Hs) as [(s1 & -> & Hs1)|[e ->]]; [by apply IH|by right; exists e]. }
  destruct (Hr own_empty) as [(s & -> & Hs)|[e ->]]; [|split; [done|]|by split].
  { split_and!; simpl; [|by intros ? ? ?; rewrite lookup_empty|by intros ? ?; rewrite lookup_empty].
    intros i. split; [by intros ?%not_elem_of_empty|]. intros [v Hv]. by rewrite lookup_empty in Hv. }
  intros s' [= <-]. destruct Hs as (H1 & H2 & _). split_and!; [done|done|].
  intros Hv. apply elem_of_equiv_empty_L. intros i [v Ei]%H1. by rewrite Hv, lookup_empty in Ei.
Qed.
End Owners.

(** ** Witnesses *)

Definition void_callee : coro unit Z := co_io (fun x => if x <? 0 then co_throw x else co_return tt).

Definition void_caller : coro unit Z :=
  co_call void_callee (fun r => match r with inl _ => co_return tt | inr e => co_throw (e - 1) end).

Definition void_heap : heap unit Z := (call_coroutine void_caller (mkHeap ∅ 0)).2.

Lemma void_task_equivalent_witness :
  exists c, get_void 20 (Some 0%nat) [-5] (erase void_heap) = Some (Ret (inr (-6), c)).
Proof.
  eexists. apply (void_task_equivalent 20 (Some 0%nat) [-5] void_heap). vm_compute. reflexivity.
Defined.

Lemma await_void_does_not_wait_witness :
  exists h', co_await_void 1 0 (cancel 0 void_heap) = Ret (h', inl (inl tt)).
Proof.
  apply (await_void_does_not_wait 1 0 (mkPromise None None Cancelled None 1) (at_start void_caller));
    [reflexivity|by right|done].
Defined.

(** Two tasks; the first is moved over the second, which destroys its frame. *)
Definition move_program : list own_op := [OCall 0; OCall 1; OAssign 1 0; OAssign 1 1; OMove 2 1; ODrop 2; ODrop 1; ODrop 0].

Lemma frames_owned_once_witness :
  (forall s, own_run (O := Task_owner) move_program own_empty = Ret s -> vars s = ∅ -> alive s = ∅) /\
  (forall s, own_run (O := Generator_owner) move_program own_empty = Ret s -> vars s = ∅ -> alive s = ∅) /\
  exists s, own_run (O := Task_void_owner) move_program own_empty = Ret s /\ vars s = ∅.
Proof.
  split_and!.
  - intros s E. by apply (frames_owned_once (O := Task_owner) move_program).
  - intros s E. by apply (frames_owned_once (O := Generator_owner) move_program).
  - eexists. split; [vm_compute; reflexivity|reflexivity].
Defined.
