(* ===== verification/Concurrency.v ===== *)
(** * coroutine/task.hpp: several tasks on one thread

    Task.v runs one task.  Here any number of tasks share the heap of frames, the
    way the coroutines of an event loop do: [launch] calls a coroutine and starts
    it, [deliver] is the completion callback of the operation a task waits for
    ([handle.resume()] on the innermost frame), [DropTask] is [~Task].  Each runs
    until control is back at the loop.

    [residue] is what is left of a body: [to_await] runs it to its next await,
    [feed] gives it one completion.  The specification of the system is the list
    of bodies with the completions each has received. *)

From Stdlib Require Import ZArith Lia.
From S2P Require Import Prelude Task.

Section Concurrency.
Context {V E : Type}.
Implicit Types (h : heap V E) (b c : coro V E) (m : gmap nat (coro_frame V E)).

(** ** What is left of a body *)

Fixpoint to_await b : coro V E :=
  match b with
  | co_call c k =>
      match to_await c with
      | co_return v => to_await (k (inl v))
      | co_throw e => to_await (k (inr e))
      | c' => co_call c' k
      end
  | _ => b
  end.

Fixpoint feed b (x : Z) : coro V E :=
  match b with
  | co_io k => to_await (k x)
  | co_call c k =>
      match feed c x with
      | co_return v => to_await (k (inl v))
      | co_throw e => to_await (k (inr e))
      | c' => co_call c' k
      end
  | _ => b
  end.

Definition residue (task : coro V E * list Z) : coro V E := fold_left feed task.2 (to_await task.1).

(** ** The loop's operations *)

(** Control comes back to the loop: the heap it finds. *)
Definition run_until_idle (fuel : nat) (c : config (V := V) (E := E)) : option (outcome (heap V E)) :=
  match run fuel c with
  | Some (Ret (h, _, _)) => Some (Ret h)
  | Some (Throw e) => Some (Throw e)
  | Some Undef => Some Undef
  | None => None
  end.

Definition launch (fuel : nat) b h : option (outcome (nat * heap V E)) :=
  let '(i, h) := call_coroutine b h in
  match start i [] h with
  | Ret c => fmap (M := option) (fun o => let* h := o in Ret (i, h)) (run_until_idle fuel c)
  | Throw e => Some (Throw e)
  | Undef => Some Undef
  end.

(** The frame whose awaiter has an operation in flight for the task [i]. *)
Fixpoint leaf (fuel i : nat) m : option nat :=
  match fuel with
  | O => None
  | S fuel =>
      match m !! i with
      | Some (mkFrame _ (at_io _)) => Some i
      | Some (mkFrame _ (at_call j _)) => leaf fuel j m
      | _ => None
      end
  end.

(** The callback of the operation the frame [l] awaits. *)
Definition callback (fuel : nat) (l : nat) (x : Z) h : option (outcome (heap V E)) :=
  match resume l x h with
  | Ret (h, b) => run_until_idle fuel (h, Run l b, [])
  | Throw e => Some (Throw e)
  | Undef => Some Undef
  end.

(** A completion for the task [i]; without an operation in flight there is none. *)
Definition deliver (fuel : nat) (i : nat) (x : Z) h : option (outcome (heap V E)) :=
  match leaf (S (next h)) i (frames h) with
  | None => Some (Ret h)
  | Some l => callback fuel l x h
  end.

Inductive conc_op :=
| Launch (b : coro V E)
| Deliver (t : nat) (x : Z)
| DropTask (t : nat).

(** The heap and the tasks in the order they were launched. *)
Definition conc_sys := (heap V E * list (option nat))%type.

(** With the operations still in flight of destroyed tasks: [~Task] cancels
    nothing, the callback keeps the handle of the frame it is to resume. *)
Definition conc_state := (conc_sys * gmap nat nat)%type.

Definition conc_do (fuel : nat) (op : conc_op) (s : conc_state) : option (outcome conc_state) :=
  let '(h, roots, orphans) := s in
  match op with
  | Launch b =>
      fmap (M := option) (fun o => let* (r : nat * heap V E) := o in Ret (r.2, roots ++ [Some r.1], orphans)) (launch fuel b h)
  | Deliver t x =>
      match roots !! t with
      | Some (Some i) => fmap (M := option) (fun o => let* h := o in Ret (h, roots, orphans)) (deliver fuel i x h)
      | Some None =>
          match orphans !! t with
          | Some l => fmap (M := option) (fun o => let* h := o in Ret (h, roots, delete t orphans)) (callback fuel l x h)
          | None => Some (Ret s)
          end
      | None => Some (Ret s)
      end
  | DropTask t =>
      match roots !! t with
      | Some (Some i) =>
          Some (Ret (destroy i h, <[t := None]> roots,
                     match leaf (S (next h)) i (frames h) with Some l => <[t := l]> orphans | None => orphans end))
      | _ => Some (Ret s)
      end
  end.

Fixpoint conc_run (fuel : nat) (ops : list conc_op) (s : conc_state) : option (outcome conc_state) :=
  match ops with
  | [] => Some (Ret s)
  | op :: ops =>
      match conc_do fuel op s with
      | Some (Ret s) => conc_run fuel ops s
      | r => r
      end
  end.

(** The result of a finished task, as [get()] reads it. *)
Definition task_result (t : nat) (s : conc_sys) : option (V + E) :=
  match s.2 !! t with
  | Some (Some i) =>
      match frames s.1 !! i with
      | Some f => if decide (state (promise f) = Completed) then
                    match await_resume i s.1 with Ret r => Some r | _ => None end
                  else None
      | None => None
      end
  | _ => None
  end.

(** ** The specification *)

Definition spec_sys := list (option (coro V E * list Z)).

Definition spec_do (op : conc_op) (s : spec_sys) : spec_sys :=
  match op with
  | Launch b => s ++ [Some (b, [])]
  | Deliver t x => alter (fmap (M := option) (fun task => (task.1, task.2 ++ [x]))) t s
  | DropTask t => alter (fun _ => None) t s
  end.

Definition spec_run (ops : list conc_op) : spec_sys := fold_left (flip spec_do) ops [].

(** No completion arrives for a task that was destroyed. *)
Fixpoint outlive (spec : spec_sys) (ops : list conc_op) : bool :=
  match ops with
  | [] => true
  | op :: ops =>
      match op with Deliver t _ => match spec !! t with Some None => false | _ => true end | _ => true end &&
      outlive (spec_do op spec) ops
  end.

(** ** Bodies *)

(** A body whose next step is an await of I/O. *)
Fixpoint waiting b : Prop :=
  match b with
  | co_io _ => True
  | co_call c _ => waiting c
  | _ => False
  end.

Lemma advance_cases b : (exists r, to_await b = co_value r) \/ waiting (to_await b).
Proof.
  induction b as [v|e|k IH|c IHc k IH]; simpl; [by left; exists (inl v)|by left; exists (inr e)|by right|].
  destruct IHc as [[[v|e] ->]|Hw]; simpl; [apply IH..|].
  right. by destruct (to_await c).
Qed.

Lemma direct_advance b ins : direct (to_await b) ins = direct b ins.
Proof.
  revert ins. induction b as [v|e|k IH|c IHc k IH]; intros ins; simpl; try done.
  rewrite <- (IHc ins). destruct (to_await c); simpl; by rewrite ?IH.
Qed.

Lemma waiting_stuck b : waiting b -> direct b [] = None.
Proof. induction b as [v|e|k IH|c IHc k IH]; simpl; try done. intros Hw. by rewrite IHc. Qed.

Lemma feed_cases b x : (exists r, feed b x = co_value r) \/ waiting (feed b x).
Proof.
  induction b as [v|e|k IH|c IHc k IH]; simpl; [by left; exists (inl v)|by left; exists (inr e)|apply advance_cases|].
  destruct IHc as [[[v|e] ->]|Hw]; simpl; [apply advance_cases..|].
  right. by destruct (feed c x).
Qed.

Lemma direct_feed b x ins : waiting b -> direct b (x :: ins) = direct (feed b x) ins.
Proof.
  revert ins. induction b as [v|e|k IH|c IHc k IH]; intros ins; simpl; try done.
  - intros _. by rewrite direct_advance.
  - intros Hw. rewrite (IHc ins Hw). destruct (feed c x); simpl; by rewrite ?direct_advance.
Qed.

(** The residue after a task's completions is its meaning on them. *)
Lemma direct_residue b xs :
  match direct b xs with
  | Some (r, _) => fold_left feed xs (to_await b) = co_value r
  | None => waiting (fold_left feed xs (to_await b))
  end.
Proof.
  rewrite <- direct_advance. generalize (advance_cases b). generalize (to_await b) as a. clear b.
  induction xs as [|x xs IH]; intros a Ha; simpl.
  - destruct Ha as [[[v|e] ->]|Hw]; [done|done|]. by rewrite waiting_stuck.
  - destruct Ha as [[[v|e] ->]|Hw]; simpl.
    + by clear IH; induction xs.
    + by clear IH; induction xs.
    + rewrite direct_feed by done. apply IH, feed_cases.
Qed.

(** ** The frames of a task

    [owns i p b l m]: the frames of a task are exactly [m]; frame [i] has the
    promise [p], what is left of its body is [b], and the operation in flight
    resumes frame [l]. *)
Inductive owns : nat -> TaskPromise V E -> coro V E -> nat -> gmap nat (coro_frame V E) -> Prop :=
| owns_io i p k : owns i p (co_io k) i {[i := mkFrame p (at_io k)]}
| owns_call i j p c k l m :
    (i < j)%nat -> owns j (callee_promise i) c l m -> m !! i = None ->
    owns i p (co_call c k) l (<[i := mkFrame p (at_call j k)]> m).

Lemma owns_root i p b l m' m : owns i p b l m' -> m' ##ₘ m -> m !! i = None.
Proof.
  intros Ho Hd. assert (Hi : is_Some (m' !! i)).
  { destruct Ho; [rewrite lookup_singleton_eq|rewrite lookup_insert_eq]; by eexists. }
  destruct Hi as [g Hi]. by eapply map_disjoint_Some_r; [symmetry|].
Qed.

(** From [c], frame [i] gets to the end of its body or to its next await; [F] are
    the frames of the others. *)
Definition gets_to (c : config (V := V) (E := E)) (i : nat) (p : TaskPromise V E) b m : Prop :=
  exists h, wf h /\
    ((exists r x, b = co_value r /\ rtc goes c (h, Run i b, []) /\ frames h = <[i := mkFrame p x]> m) \/
     (exists l m', owns i p b l m' /\ rtc goes c (h, Waiting l, []) /\ frames h = m' ∪ m /\ m' ##ₘ m)).

Lemma gets_to_step (c c' : config) i p b m : rtc goes c c' -> gets_to c' i p b m -> gets_to c i p b m.
Proof.
  intros Hs (h & Hw & [(r & x & -> & Hc & Hf)|(l & m' & Ho & Hc & Hf)]); exists h; split; [done| |done|].
  - left. exists r, x. split_and!; [done|by etrans|done].
  - right. exists l, m'. split_and!; [done|by etrans|apply Hf..].
Qed.

(** What is left of a caller when [b] is left of its callee. *)
Definition call_left b (k : V + E -> coro V E) : coro V E :=
  match b with
  | co_return v => to_await (k (inl v))
  | co_throw e => to_await (k (inr e))
  | _ => co_call b k
  end.

Lemma advance_call c k : to_await (co_call c k) = call_left (to_await c) k.
Proof. simpl. by destruct (to_await c). Qed.

Lemma feed_call c k x : feed (co_call c k) x = call_left (feed c x) k.
Proof. simpl. by destruct (feed c x). Qed.

(** What a callee [j] gets to decides what its caller [i] gets to. *)
Lemma gets_to_call (c : config) i j p b k m :
  (i < j)%nat -> m !! i = None -> m !! j = None ->
  gets_to c j (callee_promise i) b (<[i := mkFrame p (at_call j k)]> m) ->
  (forall r h, b = co_value r -> wf h -> frames h = <[i := mkFrame p (at_call j k)]> m ->
     gets_to (h, Run i (k r), []) i p (to_await (k r)) m) ->
  gets_to c i p (call_left b k) m.
Proof.
  intros Hij Hi Hj (h & Hw & [(r & x & -> & Hc & Hf)|(l & m' & Ho & Hc & Hf & Hd)]) Hk.
  - assert (Hdel : delete j (frames h) = <[i := mkFrame p (at_call j k)]> m).
    { rewrite Hf, delete_insert_id; [done|]. by rewrite lookup_insert_ne by lia. }
    assert (Hs : goes (h, Run j (co_value r), []) (mkHeap (delete j (frames h)) (next h), Run i (k r), [])).
    { split; [by destruct r|]. eapply (settle_call i j p (callee_promise i)); rewrite ?Hf; try done; try lia.
      - apply lookup_insert_eq.
      - rewrite lookup_insert_ne by lia. apply lookup_insert_eq. }
    apply (gets_to_step _ (mkHeap (delete j (frames h)) (next h), Run i (k r), [])); [by eapply rtc_r|].
    assert (Hg : gets_to (mkHeap (delete j (frames h)) (next h), Run i (k r), []) i p (to_await (k r)) m).
    { apply Hk; [done| |done]. intros n f. simpl. intros Hn. apply lookup_delete_Some in Hn as [_ Hn]. by eapply Hw. }
    by destruct r.
  - apply map_disjoint_insert_r in Hd as [Hmi Hd].
    assert (Hg : gets_to c i p (co_call b k) m).
    { exists h. split; [done|]. right. exists l, (<[i := mkFrame p (at_call j k)]> m'). split_and!.
      - by apply owns_call.
      - done.
      - by rewrite Hf, <- insert_union_l, insert_union_r.
      - by apply map_disjoint_insert_l_2. }
    by destruct Ho.
Qed.

Lemma wf_fresh h n m i f : wf h -> frames h = <[i := f]> m -> (next h <= n)%nat -> m !! n = None.
Proof.
  intros Hw Hf Hn. destruct (m !! n) as [g|] eqn:Hm; [|done]. destruct (decide (i = n)) as [->|Hne].
  - assert (Hi : frames h !! n = Some f) by (rewrite Hf; apply lookup_insert_eq). apply Hw in Hi. lia.
  - assert (Hi : frames h !! n = Some g) by (by rewrite Hf, lookup_insert_ne). apply Hw in Hi. lia.
Qed.

(** A running frame gets to its next await and no frame of another task changes. *)
Lemma body_advances b : forall h i p x m,
  wf h -> frames h = <[i := mkFrame p x]> m -> m !! i = None ->
  gets_to (h, Run i b, []) i p (to_await b) m.
Proof.
  induction b as [v|e|k IH|c IHc k IH]; intros h i p x m Hw Hf Hm.
  - exists h. split; [done|]. left. exists (inl v), x. split_and!; [done|apply rtc_refl|done].
  - exists h. split; [done|]. left. exists (inr e), x. split_and!; [done|apply rtc_refl|done].
  - assert (Hi : frames h !! i = Some (mkFrame p x)) by (rewrite Hf; apply lookup_insert_eq).
    exists (mkHeap (<[i := mkFrame p (at_io k)]> (frames h)) (next h)).
    split; [eapply (wf_insert h i); [done|by eapply Hw|lia|done]|]. right.
    exists i, {[i := mkFrame p (at_io k)]}. split_and!; [apply owns_io| | |by apply map_disjoint_singleton_l_2].
    + apply rtc_once. split; [done|]. simpl. by rewrite (suspended_at _ _ _ _ _ Hi).
    + simpl. by rewrite Hf, insert_insert_eq, insert_union_singleton_l.
  - assert (Hi : frames h !! i = Some (mkFrame p x)) by (rewrite Hf; apply lookup_insert_eq).
    pose proof (Hw _ _ Hi) as Hlt. pose proof (wf_fresh _ (next h) _ _ _ Hw Hf (Nat.le_refl _)) as Hn.
    destruct (calling_spec h i p x c k Hw Hi) as (_ & Hw1 & _ & _ & _).
    eapply gets_to_step; [apply rtc_once; by eapply step_call|].
    rewrite advance_call. apply (gets_to_call _ i (next h)); [done..| |].
    + eapply IHc; [done| |by rewrite lookup_insert_ne by lia].
      unfold calling. cbn [frames]. rewrite Hf, insert_insert_ne by lia. by rewrite insert_insert_eq.
    + intros r h3 _ Hw3 Hf3. eapply IH; [done|exact Hf3|done].
Qed.

(** A completion resumes the innermost frame, and the task gets to what [feed]
    says is left. *)
Lemma completion_advances i p b l m' : owns i p b l m' -> forall h x m,
  wf h -> frames h = m' ∪ m -> m' ##ₘ m ->
  exists b', resume l x h = Ret (h, b') /\ gets_to (h, Run l b', []) i p (feed b x) m.
Proof.
  induction 1 as [i p k|i j p c k l m' Hij Ho IH Hi']; intros h x m Hw Hf Hd.
  - rewrite <- insert_union_singleton_l in Hf. apply map_disjoint_singleton_l in Hd.
    exists (k x). split; [|by eapply body_advances]. unfold resume. by rewrite Hf, lookup_insert_eq.
  - apply map_disjoint_insert_l in Hd as [Hmi Hd].
    rewrite <- insert_union_l, insert_union_r in Hf by done.
    destruct (IH h x _ Hw Hf) as (b' & Hr & Hg); [by apply map_disjoint_insert_r_2|].
    exists b'. split; [done|]. rewrite feed_call. apply (gets_to_call _ i j); [done|done| |done|].
    + by eapply owns_root.
    + intros r h3 _ Hw3 Hf3. eapply body_advances; [done|exact Hf3|done].
Qed.

Lemma owns_waiting i p b l m : owns i p b l m -> waiting b.
Proof. by induction 1. Qed.

(** Reads and deletions through the chain only see the task's own frames. *)
Lemma owns_leaf i p b l m' : owns i p b l m' -> forall n fuel m,
  (forall j f, (m' ∪ m) !! j = Some f -> (j < n)%nat) -> (n - i < fuel)%nat ->
  leaf fuel i (m' ∪ m) = Some l.
Proof.
  induction 1 as [i p k|i j p c k l m' Hij Ho IH Hi]; intros n [|fuel] m Hb Hf; try lia.
  - rewrite <- insert_union_singleton_l. simpl. by rewrite lookup_insert_eq.
  - rewrite <- insert_union_l in Hb |- *. simpl. rewrite lookup_insert_eq, insert_union_r in * by done.
    apply (IH n); [done|]. pose proof (Hb i _ ltac:(rewrite <- insert_union_r by done; apply lookup_insert_eq)). lia.
Qed.

Lemma owns_destroy i p b l m' : owns i p b l m' -> forall n fuel m,
  (forall j f, (m' ∪ m) !! j = Some f -> (j < n)%nat) -> (n - i < fuel)%nat -> m' ##ₘ m ->
  destroy_chain fuel i (m' ∪ m) = m.
Proof.
  induction 1 as [i p k|i j p c k l m' Hij Ho IH Hi]; intros n [|fuel] m Hb Hf Hd; try lia.
  - apply map_disjoint_singleton_l in Hd. rewrite <- insert_union_singleton_l. simpl.
    by rewrite lookup_insert_eq, delete_insert_id.
  - apply map_disjoint_insert_l in Hd as [Hmi Hd]. rewrite <- insert_union_l in Hb |- *. simpl.
    rewrite lookup_insert_eq, delete_insert_id by (apply lookup_union_None; done).
    pose proof (Hb i _ (lookup_insert_eq _ _ _)). apply (IH n); [|lia|done].
    intros j' f Hj. destruct (decide (i = j')) as [->|Hne]; [done|].
    apply (Hb j' f). by rewrite lookup_insert_ne.
Qed.

(** The frames of a launched task, with [b] left of its body. *)
Definition task_frames (i : nat) b m : Prop :=
  (exists r, b = co_value r /\ m = {[i := mkFrame (settled r started_promise) at_final]}) \/
  (exists l, owns i started_promise b l m).

Lemma task_frames_destroy i b m' m h :
  wf h -> frames h = m' ∪ m -> m' ##ₘ m -> task_frames i b m' -> frames (destroy i h) = m.
Proof.
  intros Hw Hf Hd [(r & -> & ->)|[l Ho]].
  - apply map_disjoint_singleton_l in Hd. rewrite <- insert_union_singleton_l in Hf.
    erewrite destroy_final by (rewrite Hf; apply lookup_insert_eq). simpl. by rewrite Hf, delete_insert_id.
  - unfold destroy. cbn [frames]. rewrite Hf. eapply (owns_destroy _ _ _ _ _ Ho (next h)); [|lia|done].
    rewrite <- Hf. apply Hw.
Qed.

(** Where control is when a task has [b] left. *)
Definition idle_control (i : nat) b m (ctl : control V E) : Prop :=
  (exists r, b = co_value r /\ m = {[i := mkFrame (settled r started_promise) at_final]} /\ ctl = Finished) \/
  (exists l, owns i started_promise b l m /\ ctl = Waiting l).

Lemma idle_control_frames i b m ctl : idle_control i b m ctl -> task_frames i b m.
Proof. intros [(r & -> & -> & _)|(l & Ho & _)]; [left; by exists r|right; by exists l]. Qed.

(** A launched task that gets to [b] halts with [b] left. *)
Lemma gets_to_halts (c : config) i b m :
  m !! i = None -> gets_to c i started_promise b m ->
  exists n h m' ctl, (forall fuel, (n <= fuel)%nat -> run fuel c = Some (Ret (h, ctl, []))) /\
    wf h /\ frames h = m' ∪ m /\ m' ##ₘ m /\ idle_control i b m' ctl.
Proof.
  intros Hm (h & Hw & [(r & x & -> & Hc & Hf)|(l & m' & Ho & Hc & Hf & Hd)]).
  - set (h1 := mkHeap (<[i := mkFrame (settled r started_promise) at_final]> (frames h)) (next h)).
    assert (Hi : frames h !! i = Some (mkFrame started_promise x)) by (rewrite Hf; apply lookup_insert_eq).
    assert (Hs : rtc goes c (h1, Finished, [])).
    { eapply rtc_r; [exact Hc|]. split; [by destruct r|]. by rewrite (settle _ _ _ _ _ _ Hi). }
    destruct (run_halts _ _ Hs eq_refl) as [n Hn].
    exists n, h1, {[i := mkFrame (settled r started_promise) at_final]}, Finished. split_and!.
    + done.
    + eapply (wf_insert h i); [done|by eapply Hw|lia|done].
    + simpl. by rewrite Hf, insert_insert_eq, insert_union_singleton_l.
    + by apply map_disjoint_singleton_l_2.
    + left. by exists r.
  - destruct (run_halts _ _ Hc eq_refl) as [n Hn]. exists n, h, m', (Waiting l). split_and!; try done.
    right. by exists l.
Qed.

Lemma gets_to_idle (c : config) i b m :
  m !! i = None -> gets_to c i started_promise b m ->
  exists n h m', (forall fuel, (n <= fuel)%nat -> run_until_idle fuel c = Some (Ret h)) /\
    wf h /\ frames h = m' ∪ m /\ m' ##ₘ m /\ task_frames i b m'.
Proof.
  intros Hm Hg. destruct (gets_to_halts c i b m Hm Hg) as (n & h & m' & ctl & Hr & Hw & Hf & Hd & Hi).
  exists n, h, m'. split_and!; try done; [|by eapply idle_control_frames].
  intros fuel Hle. unfold run_until_idle. by rewrite (Hr fuel Hle).
Qed.

Lemma launch_idle b h :
  wf h -> exists n h' m', (forall fuel, (n <= fuel)%nat -> launch fuel b h = Some (Ret (next h, h'))) /\
    wf h' /\ frames h' = m' ∪ frames h /\ m' ##ₘ frames h /\ task_frames (next h) (to_await b) m'.
Proof.
  intros Hw. pose proof (fresh_frame h Hw) as Hn. destruct (started_wf b h Hw) as [Hw1 _].
  destruct (gets_to_idle (started b h, Run (next h) b, []) (next h) (to_await b) (frames h))
    as (n & h' & m' & Hr & H'); [done|by eapply body_advances|].
  exists n, h', m'. split; [|done]. intros fuel Hle. unfold launch, call_coroutine. cbv iota beta.
  pose proof (start_new b h []) as Hs. unfold call_coroutine in Hs. cbn [snd] in Hs. rewrite Hs.
  by rewrite (Hr fuel Hle).
Qed.

Lemma feed_value r x : feed (co_value r) x = co_value r.
Proof. by destruct r. Qed.

Lemma deliver_idle i b m' m x h :
  wf h -> frames h = m' ∪ m -> m' ##ₘ m -> task_frames i b m' ->
  exists n h' m1, (forall fuel, (n <= fuel)%nat -> deliver fuel i x h = Some (Ret h')) /\
    wf h' /\ frames h' = m1 ∪ m /\ m1 ##ₘ m /\ task_frames i (feed b x) m1.
Proof.
  intros Hw Hf Hd Ht. unfold deliver. destruct Ht as [(r & -> & ->)|[l Ho]].
  - exists 0%nat, h, {[i := mkFrame (settled r started_promise) at_final]}. split_and!; try done.
    + intros fuel _. rewrite Hf, <- insert_union_singleton_l. simpl. by rewrite lookup_insert_eq.
    + left. exists r. by rewrite feed_value.
  - rewrite Hf, (owns_leaf _ _ _ _ _ Ho (next h)) by (rewrite <- ?Hf; (apply Hw || lia)).
    destruct (completion_advances _ _ _ _ _ Ho h x m Hw Hf Hd) as (b' & Hr & Hg). unfold callback. rewrite Hr.
    apply gets_to_idle; [by eapply owns_root|done].
Qed.

Lemma alter_at {A} (g : A -> A) t x (l : list A) : l !! t = Some x -> alter g t l = <[t := g x]> l.
Proof. intros Hx. rewrite list_insert_alter. apply list_alter_ext; congruence. Qed.

(** ** The frames of a system

    The heap is the disjoint union of the frames of the tasks that are held;
    [owned i task m] says what the frames [m] of one task are. *)
Section Holds.
Context {T : Type} (owned : nat -> T -> gmap nat (coro_frame V E) -> Prop).

Inductive holds : list (option nat) -> list (option T) -> gmap nat (coro_frame V E) -> Prop :=
| holds_nil : holds [] [] ∅
| holds_task i task roots spec m' m :
    owned i task m' -> m' ##ₘ m -> holds roots spec m ->
    holds (Some i :: roots) (Some task :: spec) (m' ∪ m)
| holds_gone roots spec m : holds roots spec m -> holds (None :: roots) (None :: spec) m.

Lemma holds_cast roots spec m m1 : holds roots spec m -> m = m1 -> holds roots spec m1.
Proof. by intros H ->. Qed.

Lemma holds_launch roots spec m i task m' :
  holds roots spec m -> owned i task m' -> m' ##ₘ m ->
  holds (roots ++ [Some i]) (spec ++ [Some task]) (m' ∪ m).
Proof.
  intros H Ht. revert m'  Ht. induction H as [|i1 t1 roots spec m1 m Ht1 Hd1 H IH|roots spec m H IH]; intros m' Ht Hd; simpl.
  - by apply holds_task; [done|done|apply holds_nil].
  - apply map_disjoint_union_r in Hd as [Hd2 Hd3]. eapply holds_cast.
    + apply holds_task; [exact Ht1| |by apply (IH m')]. by apply map_disjoint_union_r_2.
    + rewrite (map_union_assoc m1 m' m), (map_union_comm m1 m') by done. by rewrite map_union_assoc.
  - apply holds_gone. by apply IH.
Qed.

(** One task of the system and the frames of the others. *)
Lemma holds_focus roots spec m t i :
  holds roots spec m -> roots !! t = Some (Some i) ->
  exists task m' m0, spec !! t = Some (Some task) /\ owned i task m' /\
    m = m' ∪ m0 /\ m' ##ₘ m0 /\ holds (<[t := None]> roots) (<[t := None]> spec) m0 /\
    forall task1 m1, owned i task1 m1 -> m1 ##ₘ m0 ->
      holds roots (<[t := Some task1]> spec) (m1 ∪ m0).
Proof.
  intros H. revert t. induction H as [|i1 t1 roots spec m1 m Ht1 Hd1 H IH|roots spec m H IH];
    intros [|t] Ht; simpl in Ht; try done.
  - injection Ht as ->. exists t1, m1, m. split_and!; try done; [by apply holds_gone|].
    intros task1 m2 Ht2 Hd2. by apply holds_task.
  - destruct (IH t Ht) as (task & m' & m0 & Hs & Hf & -> & Hd & Hg & Hk).
    apply map_disjoint_union_r in Hd1 as [Hd2 Hd3]. exists task, m', (m1 ∪ m0). split_and!; try done.
    + rewrite (map_union_assoc m1 m' m0), (map_union_comm m1 m') by done. by rewrite map_union_assoc.
    + by apply map_disjoint_union_r_2.
    + by apply holds_task.
    + intros task1 m2 Ht2 Hd4. apply map_disjoint_union_r in Hd4 as [Hd4 Hd5]. eapply holds_cast.
      * apply holds_task; [exact Ht1| |by apply (Hk task1 m2)]. by apply map_disjoint_union_r_2.
      * rewrite (map_union_assoc m1 m2 m0), (map_union_comm m1 m2) by done. by rewrite map_union_assoc.
  - destruct (IH t Ht) as (task & m' & m0 & Hs & Hf & -> & Hd & Hg & Hk).
    exists task, m', m0. split_and!; try done; [by apply holds_gone|].
    intros task1 m2 Ht2 Hd4. by apply holds_gone, Hk.
Qed.

Lemma holds_none roots spec m t g :
  holds roots spec m -> (forall i, roots !! t <> Some (Some i)) -> g None = None -> alter g t spec = spec.
Proof.
  intros H. revert t. induction H as [|i1 t1 roots spec m1 m Ht1 Hd1 H IH|roots spec m H IH]; intros t Ht Hg;
    [done|..]; destruct t as [|t]; simpl.
  - by destruct (Ht i1).
  - f_equal. apply IH; [|done]. intros i. apply (Ht i).
  - by f_equal.
  - f_equal. apply IH; [|done]. intros i. apply (Ht i).
Qed.

Lemma holds_gone_spec roots spec m t : holds roots spec m -> roots !! t = Some None -> spec !! t = Some None.
Proof. intros H. revert t. induction H; intros [|t] Ht; simpl in *; try done; auto. Qed.

Lemma holds_length roots spec m : holds roots spec m -> length roots = length spec.
Proof. induction 1; simpl; lia. Qed.

Lemma holds_dropped roots spec m : holds roots spec m -> Forall (eq None) spec -> m = ∅.
Proof. induction 1 as [|i t roots spec m' m _ _ H IH|roots spec m H IH]; intros Ha; inversion Ha; subst; auto. done. Qed.

Lemma holds_spec roots spec m t : holds roots spec m ->
  (forall i, roots !! t <> Some (Some i)) -> forall task, spec !! t <> Some (Some task).
Proof.
  intros H Ht task Hs. pose proof (holds_none _ _ _ t (fun o => match o with Some _ => None | None => None end) H Ht eq_refl) as Ha.
  rewrite (alter_at _ _ _ _ Hs) in Ha. assert (Hn : spec !! t = Some None); [|congruence].
  rewrite <- Ha. apply list_lookup_insert_eq. by eapply lookup_lt_Some.
Qed.
End Holds.

(** ** The system *)

(** Each task has the residue of its body for the completions it received. *)
Definition represents (s : conc_sys) (spec : spec_sys) : Prop :=
  wf s.1 /\ holds (fun i task => task_frames i (residue task)) s.2 spec (frames s.1).

Lemma conc_do_represents op s orphans spec :
  represents s spec -> outlive spec [op] = true ->
  exists n s' orphans', (forall fuel, (n <= fuel)%nat -> conc_do fuel op (s, orphans) = Some (Ret (s', orphans'))) /\
    represents s' (spec_do op spec).
Proof.
  destruct s as [h roots]. intros [Hw H] Ho. simpl in Hw, H. destruct op as [b|t x|t]; simpl.
  - destruct (launch_idle b h Hw) as (n & h' & m' & Hl & Hw' & Hf & Hd & Ht).
    exists n, (h', roots ++ [Some (next h)]), orphans. split; [intros fuel Hle; by rewrite (Hl fuel Hle)|].
    split; [done|]. simpl. rewrite Hf. by apply holds_launch.
  - destruct (roots !! t) as [[i|]|] eqn:Hr.
    + destruct (holds_focus _ _ _ _ _ _ H Hr) as ([b xs] & m' & m0 & Hs & Ht & Hf & Hd & _ & Hk).
      destruct (deliver_idle i _ m' m0 x h Hw Hf Hd Ht) as (n & h' & m1 & Hdl & Hw' & Hf' & Hd' & Ht').
      exists n, (h', roots), orphans. split; [intros fuel Hle; by rewrite (Hdl fuel Hle)|]. split; [done|].
      simpl. rewrite (alter_at _ _ _ _ Hs). rewrite Hf'. apply Hk; [|done].
      unfold residue. simpl. by rewrite fold_left_app.
    + exfalso. assert (Hsp : spec !! t = Some None) by by eapply holds_gone_spec.
      cbn [outlive] in Ho. by rewrite Hsp in Ho.
    + exists 0%nat, (h, roots), orphans. split; [done|]. split; [done|].
      rewrite (holds_none _ _ _ _ _ _ H); [done|by intros i; rewrite Hr|done].
  - destruct (roots !! t) as [[i|]|] eqn:Hr.
    2,3: exists 0%nat, (h, roots), orphans; split; [done|]; split; [done|];
      rewrite (holds_none _ _ _ _ _ _ H); [done|by intros i; rewrite Hr|done].
    destruct (holds_focus _ _ _ _ _ _ H Hr) as (task & m' & m0 & Hs & Ht & Hf & Hd & Hg & _).
    eexists 0%nat, (destroy i h, <[t := None]> roots), _. split; [done|].
    pose proof (task_frames_destroy _ _ _ _ _ Hw Hf Hd Ht) as Hds. split.
    + intros j f. cbn [fst]. rewrite Hds. intros Hj.
      apply (Hw j f). rewrite Hf. by apply lookup_union_Some_r.
    + cbn [fst snd]. by rewrite (alter_at _ _ _ _ Hs), Hds.
Qed.

Lemma conc_run_app ops1 : forall fuel ops2 s,
  conc_run fuel (ops1 ++ ops2) s = match conc_run fuel ops1 s with Some (Ret s) => conc_run fuel ops2 s | r => r end.
Proof. induction ops1 as [|op ops1 IH]; intros fuel ops2 s; simpl; [done|]. by destruct (conc_do fuel op s) as [[]|]. Qed.

Lemma conc_run_represents ops : forall s orphans spec, represents s spec -> outlive spec ops = true ->
  exists n s' orphans', (forall fuel, (n <= fuel)%nat -> conc_run fuel ops (s, orphans) = Some (Ret (s', orphans'))) /\
    represents s' (fold_left (flip spec_do) ops spec).
Proof.
  induction ops as [|op ops IH]; intros s orphans spec H Ho; [by exists 0%nat, s, orphans|].
  cbn [outlive] in Ho. apply andb_prop in Ho as [Ho1 Ho].
  destruct (conc_do_represents op s orphans spec H) as (n1 & s1 & o1 & H1 & Hr1); [cbn [outlive]; by rewrite Ho1|].
  destruct (IH s1 o1 _ Hr1 Ho) as (n2 & s2 & o2 & H2 & Hr2). exists (n1 `max` n2)%nat, s2, o2. split; [|done].
  intros fuel Hle. cbn [conc_run]. rewrite H1 by lia. apply H2. lia.
Qed.

Lemma owns_leaf_frame i p b l m : owns i p b l m -> is_Some (m !! l).
Proof.
  induction 1 as [i p k|i j p c k l m Hij _ IH Hi]; [rewrite lookup_singleton_eq; by eexists|].
  destruct (decide (i = l)) as [->|Hne]; [rewrite lookup_insert_eq; by eexists|by rewrite lookup_insert_ne].
Qed.

(** A task destroyed while it waits: the completion of its operation resumes a
    frame that is gone. *)
Lemma orphan_undefined s orphans spec t b xs x fuel :
  represents s spec -> spec !! t = Some (Some (b, xs)) -> direct b xs = None ->
  conc_run fuel [DropTask t; Deliver t x] (s, orphans) = Some Undef.
Proof.
  destruct s as [h roots]. intros [Hw H] Hs Hb. simpl in Hw, H.
  destruct (roots !! t) as [[i|]|] eqn:Hr; [|by destruct (holds_spec _ _ _ _ t H ltac:(intros i; by rewrite Hr) _ Hs)..].
  destruct (holds_focus _ _ _ _ _ _ H Hr) as (task & m' & m0 & Hs' & Ht & Hf & Hd & _).
  pose proof (eq_trans (eq_sym Hs) Hs') as Heq. injection Heq as <-.
  assert (Hds : frames (destroy i h) = m0) by by eapply task_frames_destroy.
  destruct Ht as [(r & Hv & _)|[l Ho]].
  { pose proof (direct_residue b xs) as Hd'. rewrite Hb in Hd'. unfold residue in Hv. simpl in Hv. rewrite Hv in Hd'.
    by destruct r. }
  simpl. rewrite Hr. simpl. rewrite list_lookup_insert_eq by by eapply lookup_lt_Some.
  assert (Hl : leaf (S (next h)) i (frames h) = Some l).
  { rewrite Hf. apply (owns_leaf _ _ _ _ _ Ho (next h)); [rewrite <- Hf; apply Hw|lia]. }
  simpl in Hl. rewrite Hl, lookup_insert_eq. unfold callback, resume. rewrite Hds.
  destruct (owns_leaf_frame _ _ _ _ _ Ho) as [g Hg].
  rewrite (map_disjoint_Some_l _ _ l g Hd Hg). done.
Qed.

(** What a task's frames say of its result. *)
Lemma task_frames_result h roots t i task m' m :
  roots !! t = Some (Some i) -> frames h = m' ∪ m -> task_frames i (residue task) m' ->
  task_result t (h, roots) = fmap (M := option) fst (direct task.1 task.2).
Proof.
  intros Hr Hf Ht. pose proof (direct_residue task.1 task.2) as Hd. unfold residue in Ht.
  unfold task_result. simpl. rewrite Hr, Hf. destruct Ht as [(r & Hb & ->)|[l Ho]].
  - rewrite <- insert_union_singleton_l, lookup_insert_eq. cbn [promise]. rewrite decide_True by (by destruct r).
    rewrite (await_settled i r started_promise at_final)
      by (done || by rewrite Hf, <- insert_union_singleton_l, lookup_insert_eq).
    rewrite Hb in Hd. destruct (direct _ _) as [[r' rest]|]; simpl; [|by destruct r].
    by destruct r, r'; simplify_eq/=.
  - assert (Hi : exists x, (m' ∪ m) !! i = Some (mkFrame started_promise x)).
    { inversion Ho; subst; [rewrite <- insert_union_singleton_l|rewrite <- insert_union_l];
        rewrite lookup_insert_eq; by eexists. }
    destruct Hi as [x ->]. cbn [promise]. rewrite decide_False by done.
    destruct (direct _ _) as [[r' rest]|]; [|done]. apply owns_waiting in Ho. rewrite Hd in Ho. by destruct r'.
Qed.

Definition idle_sys : conc_sys := (mkHeap ∅ 0, []).
Definition idle_state : conc_state := (idle_sys, ∅).

(** C10: tasks on one event loop do not interfere.  For every sequence of task
    launches, I/O completions and destroyed tasks, in any interleaving, in which
    no completion arrives for a task already destroyed, the loop gets through all
    of it without undefined behaviour; a task that is still held has exactly the
    result its body computes, as ordinary nested calls, from the completions
    delivered to it, or is still waiting if they are not enough; once every task
    is destroyed no coroutine frame is left.  The condition is needed: a task
    destroyed while it waits leaves its operation in flight, and the completion
    that follows is undefined behaviour. *)
Theorem tasks_do_not_interfere ops :
  outlive [] ops = true ->
  exists n s orphans, (forall fuel, (n <= fuel)%nat -> conc_run fuel ops idle_state = Some (Ret (s, orphans))) /\
    length s.2 = length (spec_run ops) /\
    (forall t b xs, spec_run ops !! t = Some (Some (b, xs)) -> task_result t s = fmap (M := option) fst (direct b xs)) /\
    (Forall (eq None) (spec_run ops) -> frames s.1 = ∅) /\
    (forall t b xs x fuel, spec_run ops !! t = Some (Some (b, xs)) -> direct b xs = None -> (n <= fuel)%nat ->
       conc_run fuel (ops ++ [DropTask t; Deliver t x]) idle_state = Some Undef).
Proof.
  intros Hout. destruct (conc_run_represents ops idle_sys ∅ []) as (n & [h roots] & o & Hr & Hrep); [|done|].
  { split; [intros i f; simpl; by rewrite lookup_empty|apply holds_nil]. }
  pose proof Hrep as [Hw H]. exists n, (h, roots), o. split_and!; [done|by eapply holds_length| |by eapply holds_dropped|].
  - cbn [fst snd] in Hw, H. intros t b xs Ht. destruct (roots !! t) as [[i|]|] eqn:Hroot.
    + destruct (holds_focus _ _ _ _ _ _ H Hroot) as (task & m' & m0 & Hs & Hf & Hm & _).
      pose proof (eq_trans (eq_sym Hs) Ht) as Heq. injection Heq as ->. by eapply (task_frames_result _ _ _ _ (b, xs)).
    + by destruct (holds_spec _ _ _ _ t H ltac:(intros i; by rewrite Hroot) _ Ht).
    + by destruct (holds_spec _ _ _ _ t H ltac:(intros i; by rewrite Hroot) _ Ht).
  - intros t b xs x fuel Ht Hb Hle. rewrite conc_run_app. unfold idle_state. rewrite (Hr fuel Hle).
    by eapply orphan_undefined.
Qed.
End Concurrency.

(** Two tasks whose completions interleave, one that finishes and one that is
    dropped while it waits. *)
Lemma tasks_do_not_interfere_witness :
  let ops := [Launch sample_caller; Launch sample_caller; Deliver 0 (-5); Launch sample_callee;
              Deliver 1 3; Deliver 0 7; DropTask 2; Deliver 3 1; Deliver 1 10] in
  exists n s orphans, (forall fuel, (n <= fuel)%nat -> conc_run fuel ops idle_state = Some (Ret (s, orphans))) /\
    task_result 0 s = Some (inl (-5)) /\ task_result 1 s = Some (inl 14).
Proof.
  intros ops. destruct (tasks_do_not_interfere ops eq_refl) as (n & s & o & Hrun & _ & Hres & _).
  exists n, s, o. split; [exact Hrun|]. split.
  - exact (Hres 0%nat sample_caller [-5; 7] eq_refl).
  - exact (Hres 1%nat sample_caller [3; 10] eq_refl).
Defined.
