(* ===== verification/Runtime.v ===== *)
(** * The ring and the coroutines together

    IoUring.v has the ring with opaque callbacks, Task.v and Concurrency.v the
    frames with completions that arrive by magic.  Here the awaiters of
    io/async_io.hpp tie them: a coroutine that suspends has prepared an operation
    whose callback is its own handle and submitted it; [process_cqe] runs the
    callback, which resumes that coroutine until it suspends again, preparing the
    next operation inside the callback.

    The specification has no ids, slots or frames: it knows which task each
    operation in the kernel and each completion belongs to.  [operation l] is
    what the awaiter in frame [l] asks the kernel for. *)

From Stdlib Require Import ZArith Lia.
From S2P Require Import Prelude Task Concurrency IoUring.

Section Runtime.
Context {V E : Type} (operation : nat -> io_op).
Implicit Types (h : heap V E) (b : coro V E) (r : IoUring nat).

(** ** The loop's steps *)

(** Control is back at the loop: the coroutine [l] that suspended did so in the
    [await_suspend] of its awaiter; [err] is a failure of the submission there.
    Too little fuel counts as undefined. *)
Definition arm (fuel : nat) (err : option Z) (c : Task.config (V := V) (E := E)) r : outcome (IoUring nat * heap V E) :=
  match Task.run fuel c with
  | Some (Ret (h, Waiting l, _)) => let* r := IoUring.await_suspend err l (mkAwaiter (operation l) 0) r in Ret (r, h)
  | Some (Ret (h, _, _)) => Ret (r, h)
  | Some (Throw e) => Throw e
  | Some Undef | None => Undef
  end.

(** The callback of an awaiter: [result_ = result; handle.resume();] *)
Definition resume_callback (fuel : nat) (err : option Z) (l : nat) (res flags : Z) (s : IoUring nat * heap V E)
  : outcome (IoUring nat * heap V E) :=
  let* (y : heap V E * coro V E) := Task.resume l res s.2 in
  arm fuel err (y.1, Run l y.2, []) s.1.

(** [err]: the kernel refuses the submission made in the step. *)
Inductive rt_op :=
| RtLaunch (err : option Z) (b : coro V E)       (* a task is started *)
| RtWait (err : option Z) (timeout_ms : Z)       (* [run_once] submits its timeout *)
| RtComplete (i : nat) (res flags : Z)           (* the kernel completes an operation *)
| RtCqe (err : option Z).                        (* the loop takes a completion, if any *)

(** The kernel accepts what the step submits. *)
Definition accepted (op : rt_op) : Prop :=
  match op with RtLaunch err _ | RtWait err _ | RtCqe err => err = None | RtComplete _ _ _ => True end.
#[global] Instance accepted_dec op : Decision (accepted op).
Proof. destruct op; simpl; apply _. Defined.

Record rt_sys := mkRt { rt_ring : IoUring nat; rt_heap : heap V E; rt_roots : list nat }.

Definition rt_do (fuel : nat) (s : rt_sys) (op : rt_op) : outcome rt_sys :=
  match op with
  | RtLaunch err b =>
      let '(i, h) := call_coroutine b (rt_heap s) in
      let* c := Task.start i [] h in
      let* (y : IoUring nat * heap V E) := arm fuel err c (rt_ring s) in
      Ret (mkRt y.1 y.2 (rt_roots s ++ [i]))
  | RtWait err ms => let* r := submit_wait_timeout err ms (rt_ring s) in Ret (mkRt r (rt_heap s) (rt_roots s))
  | RtComplete i res flags => Ret (mkRt (complete i res flags (rt_ring s)) (rt_heap s) (rt_roots s))
  | RtCqe err =>
      match peek_cqe (rt_ring s) with
      | None => Ret s
      | Some c =>
          let* (y : IoUring nat * heap V E) := process_cqe (resume_callback fuel err) c (rt_ring s, rt_heap s) in
          Ret (mkRt y.1 y.2 (rt_roots s))
      end
  end.

Fixpoint rt_run (fuel : nat) (s : rt_sys) (ops : list rt_op) : outcome rt_sys :=
  match ops with
  | [] => Ret s
  | op :: ops => let* s := rt_do fuel s op in rt_run fuel s ops
  end.

Lemma rt_run_cons fuel s op ops : rt_run fuel s (op :: ops) = let* s := rt_do fuel s op in rt_run fuel s ops.
Proof. done. Qed.

(** ** The specification *)

Fixpoint waitingb b : bool :=
  match b with co_io _ => true | co_call c _ => waitingb c | _ => false end.

(** The tasks with the completions they received; whom each operation in the
    kernel and each completion belongs to (None: the loop's own timeout). *)
Record rt_spec := mkRtSpec {
  sp_tasks : list (coro V E * list Z);
  sp_kernel : list (option nat);
  sp_done : list (option nat * Z);
}.

(** A task that is not finished has issued an operation. *)
Definition issue (t : nat) (task : coro V E * list Z) (kernel : list (option nat)) : list (option nat) :=
  if waitingb (residue task) then kernel ++ [Some t] else kernel.

Definition receive (x : Z) (task : coro V E * list Z) : coro V E * list Z := (task.1, task.2 ++ [x]).

Definition rt_spec_do (sp : rt_spec) (op : rt_op) : rt_spec :=
  match op with
  | RtLaunch _ b => mkRtSpec (sp_tasks sp ++ [(b, [])]) (issue (length (sp_tasks sp)) (b, []) (sp_kernel sp)) (sp_done sp)
  | RtWait _ ms => if 0 <=? ms then mkRtSpec (sp_tasks sp) (sp_kernel sp ++ [None]) (sp_done sp) else sp
  | RtComplete i res _ =>
      match sp_kernel sp !! i with
      | Some o => mkRtSpec (sp_tasks sp) (delete i (sp_kernel sp)) (sp_done sp ++ [(o, res)])
      | None => sp
      end
  | RtCqe _ =>
      match sp_done sp with
      | [] => sp
      | (None, _) :: d => mkRtSpec (sp_tasks sp) (sp_kernel sp) d
      | (Some t, x) :: d =>
          match sp_tasks sp !! t with
          | Some task => mkRtSpec (<[t := receive x task]> (sp_tasks sp)) (issue t (receive x task) (sp_kernel sp)) d
          | None => sp
          end
      end
  end.

Definition rt_spec_run (ops : list rt_op) : rt_spec := fold_left rt_spec_do ops (mkRtSpec [] [] []).

(** The tasks with an operation in the kernel or a completion not yet taken. *)
Definition outstanding (sp : rt_spec) : list nat := omap id (sp_kernel sp) ++ omap fst (sp_done sp).

(** The steps in which a coroutine may prepare an operation. *)
Definition may_prepare (op : rt_op) : Prop := match op with RtLaunch _ _ | RtCqe _ => True | _ => False end.
#[global] Instance may_prepare_dec op : Decision (may_prepare op).
Proof. destruct op; simpl; apply _. Defined.

(** ** The specification's own invariant *)

Lemma waitingb_spec b : waitingb b = true <-> waiting b.
Proof. induction b; simpl; try done. Qed.

(** One operation per unfinished task, and none for a finished one. *)
Definition sp_inv (sp : rt_spec) : Prop :=
  NoDup (outstanding sp) /\
  forall t, t ∈ outstanding sp <-> exists task, sp_tasks sp !! t = Some task /\ waitingb (residue task) = true.

Lemma outstanding_issue t task ts kernel d :
  outstanding (mkRtSpec ts (issue t task kernel) d) ≡ₚ
  (if waitingb (residue task) then [t] else []) ++ outstanding (mkRtSpec ts kernel d).
Proof.
  unfold outstanding, issue. simpl. destruct (waitingb (residue task)); simpl; [|done].
  rewrite omap_app. simpl. rewrite <- app_assoc. simpl. by rewrite <- Permutation_middle.
Qed.

Lemma sp_inv_perm sp sp' :
  outstanding sp ≡ₚ outstanding sp' -> sp_tasks sp = sp_tasks sp' -> sp_inv sp -> sp_inv sp'.
Proof.
  intros Hp Ht [Hn Hw]. split; [by rewrite <- Hp|]. intros t. rewrite <- Hp, <- Ht. apply Hw.
Qed.

(** The task [t] becomes [task], the others stay as they are. *)
Lemma sp_inv_issue t task ts ts' kernel d :
  ts' !! t = Some task -> (forall t', t' <> t -> ts' !! t' = ts !! t') ->
  NoDup (t :: outstanding (mkRtSpec ts kernel d)) ->
  (forall t', t' <> t -> t' ∈ outstanding (mkRtSpec ts kernel d) <->
     exists task, ts !! t' = Some task /\ waitingb (residue task) = true) ->
  sp_inv (mkRtSpec ts' (issue t task kernel) d).
Proof.
  intros Ht Hne [Hnt Hnd]%NoDup_cons Hw. pose proof (outstanding_issue t task ts' kernel d) as Hp.
  change (outstanding (mkRtSpec ts' kernel d)) with (outstanding (mkRtSpec ts kernel d)) in Hp.
  split; [rewrite Hp; destruct (waitingb (residue task)); [by apply NoDup_cons|done]|].
  intros t'. rewrite Hp, elem_of_app. cbn [sp_tasks]. destruct (decide (t' = t)) as [->|Hn].
  - rewrite Ht. destruct (waitingb (residue task)) eqn:Hb; split.
    + intros _. by exists task.
    + intros _. left. by apply list_elem_of_singleton.
    + by intros [?%elem_of_nil|].
    + intros (task' & [= <-] & Hb'). congruence.
  - rewrite (Hne t' Hn), <- (Hw t' Hn). split; [|by right]. intros [Hin|]; [|done].
    destruct (waitingb (residue task)); [by apply list_elem_of_singleton in Hin|by apply elem_of_nil in Hin].
Qed.

Lemma sp_inv_do sp op : sp_inv sp -> sp_inv (rt_spec_do sp op).
Proof.
  destruct sp as [ts kernel d]. intros Hi. destruct op as [err b|err ms|i res fl|err]; simpl.
  - destruct Hi as [Hnd Hw]. eapply (sp_inv_issue (length ts) (b, []) ts).
    + by rewrite lookup_app_r, Nat.sub_diag by lia.
    + intros t Ht. destruct (decide (t < length ts)%nat); [by rewrite lookup_app_l|].
      rewrite lookup_app_r, (lookup_ge_None_2 ts) by lia.
      apply lookup_ge_None_2. simpl. lia.
    + apply NoDup_cons. split; [|done]. intros (task & Hl%lookup_lt_Some & _)%Hw. simpl in Hl. lia.
    + intros t _. apply Hw.
  - destruct (0 <=? ms); [|done]. apply (sp_inv_perm (mkRtSpec ts kernel d)); [|done|done].
    unfold outstanding. simpl. by rewrite omap_app, app_nil_r.
  - destruct (kernel !! i) as [o|] eqn:Hk; [|done]. apply (sp_inv_perm (mkRtSpec ts kernel d)); [|done|done].
    unfold outstanding. cbn [sp_kernel sp_done]. rewrite omap_app. rewrite (delete_Permutation _ _ _ Hk) at 1.
    simpl. destruct o as [t|]; simpl; [|by rewrite app_nil_r].
    by rewrite app_assoc, Permutation_cons_append.
  - destruct d as [|[[t|] x] d]; [done| |done]. destruct (ts !! t) as [task|] eqn:Ht; [|done].
    destruct Hi as [Hnd Hw].
    assert (Hp : outstanding (mkRtSpec ts kernel ((Some t, x) :: d)) ≡ₚ t :: outstanding (mkRtSpec ts kernel d)).
    { unfold outstanding. simpl. by rewrite <- Permutation_middle. }
    eapply (sp_inv_issue t (receive x task) ts).
    + apply list_lookup_insert_eq. by eapply lookup_lt_Some.
    + intros t' Hne. by rewrite list_lookup_insert_ne.
    + by rewrite <- Hp.
    + intros t' Hne. specialize (Hw t'). rewrite Hp, elem_of_cons in Hw. cbn [sp_tasks] in Hw. rewrite <- Hw.
      intuition congruence.
Qed.

(** ** The refinement *)

(** A task with where it is: finished, or waiting at a frame. *)
Local Abbreviation located := ((coro V E * list Z) * control V E)%type.
Implicit Types (tcs : list located).

Definition owned_at (i : nat) (tc : located) m : Prop := idle_control i (residue tc.1) m tc.2.

(** The user data [id] leads to the owner [o]: the slot holds the frame at which
    that task waits. *)
Definition owner (cbs : gmap Z nat) (n : Z) tcs (id : Z) (o : option nat) : Prop :=
  match o with
  | None => id = 0
  | Some t => 0 < id < n /\ exists task l, tcs !! t = Some (task, Waiting l) /\ cbs !! id = Some l
  end.

Definition ring_owners r tcs (kernel : list (option nat)) (d : list (option nat * Z)) : Prop :=
  Forall2 (fun e o => owner (callbacks_ r) (next_callback_id_ r) tcs (sqe_user_data e) o) (inflight r) kernel /\
  Forall2 (fun c x => owner (callbacks_ r) (next_callback_id_ r) tcs (cqe_user_data c) x.1 /\ cqe_res c = x.2) (cq r) d.

Definition ring_ok (k : Z) r : Prop := sq r = [] /\ 0 < queue_depth r /\ 1 <= next_callback_id_ r <= k.

Definition refines (k : Z) (s : rt_sys) (sp : rt_spec) : Prop :=
  exists tcs, tcs.*1 = sp_tasks sp /\ wf (rt_heap s) /\
    holds owned_at (Some <$> rt_roots s) (Some <$> tcs) (frames (rt_heap s)) /\
    ring_ok k (rt_ring s) /\ ring_owners (rt_ring s) tcs (sp_kernel sp) (sp_done sp).

Lemma ring_ok_mono k k' r : ring_ok k r -> k <= k' -> ring_ok k' r.
Proof. intros (Hs & Hq & Hn) Hk. unfold ring_ok. split_and!; done || lia. Qed.

Lemma ring_owners_results r tcs kernel d : ring_owners r tcs kernel d -> cqe_res <$> cq r = d.*2.
Proof.
  intros [_ Hd]. induction Hd as [|c x cs d [_ Hc] _ IH]; [done|]. by rewrite !fmap_cons, Hc, IH.
Qed.

(** The ring after a coroutine suspended in an awaiter. *)
Definition armed (ctl : control V E) r : IoUring nat :=
  match ctl with
  | Waiting l =>
      mkRing (queue_depth r) [] (inflight r ++ [mkSqe (operation l) (next_callback_id_ r) 0]) (cq r)
        (<[next_callback_id_ r := l]> (callbacks_ r)) (next_callback_id_ r + 1) (running_ r)
  | _ => r
  end.

Lemma armed_ok k ctl r : ring_ok k r -> ring_ok (k + 1) (armed ctl r).
Proof. intros (Hs & Hq & Hn). unfold ring_ok. destruct ctl; simpl; split_and!; done || lia. Qed.

Lemma await_suspend_armed k l r :
  ring_ok k r -> k < kMaxCallbacks -> IoUring.await_suspend None l (mkAwaiter (operation l) 0) r = Ret (armed (Waiting l) r).
Proof.
  intros (Hs & Hq & Hn) Hk. unfold kMaxCallbacks in *. unfold IoUring.await_suspend, prepare, sqe_free. rewrite Hs. simpl.
  rewrite (proj2 (Z.ltb_lt 0 _)) by done. unfold kMaxCallbacks. rewrite Z.mod_small by lia.
  rewrite wrap_small by (unfold is_u; lia). by rewrite Hs.
Qed.

Lemma arm_halts k c i b m r :
  ring_ok k r -> k < kMaxCallbacks -> m !! i = None -> gets_to c i started_promise b m ->
  exists n h m' ctl, (forall fuel, (n <= fuel)%nat -> arm fuel None c r = Ret (armed ctl r, h)) /\
    wf h /\ frames h = m' ∪ m /\ m' ##ₘ m /\ idle_control i b m' ctl.
Proof.
  intros Hr Hk Hm Hg. destruct (gets_to_halts c i b m Hm Hg) as (n & h & m' & ctl & Hrun & Hw & Hf & Hd & Hi).
  exists n, h, m', ctl. split_and!; try done. intros fuel Hle. unfold arm. rewrite (Hrun fuel Hle).
  destruct Hi as [(x & _ & _ & ->)|(l & _ & ->)]; [done|]. by rewrite (await_suspend_armed k).
Qed.

Lemma idle_waits i b m ctl :
  idle_control i b m ctl -> (ctl = Finished /\ waitingb b = false) \/ (exists l, ctl = Waiting l /\ waitingb b = true).
Proof.
  intros [(x & -> & _ & ->)|(l & Ho & ->)]; [left; by destruct x|]. right. exists l. split; [done|].
  by apply waitingb_spec, (owns_waiting _ _ _ _ _ Ho).
Qed.

(** Owners other than [t] survive what [t] does. *)
Lemma owner_armed ctl r tcs tcs' t id o :
  o <> Some t -> (forall t', t' <> t -> tcs' !! t' = tcs !! t') ->
  owner (callbacks_ r) (next_callback_id_ r) tcs id o ->
  owner (callbacks_ (armed ctl r)) (next_callback_id_ (armed ctl r)) tcs' id o.
Proof.
  destruct o as [t'|]; [|done]. intros Hne Heq [Hid (task & l & Ht & Hc)]. simpl.
  assert (Hne' : t' <> t) by congruence. split; [destruct ctl; simpl; lia|].
  exists task, l. split; [by rewrite Heq|]. destruct ctl; simpl; try done. by rewrite lookup_insert_ne by lia.
Qed.

Lemma ring_owners_armed i m k r tcs tcs' t task ctl kernel d :
  ring_ok k r -> ring_owners r tcs kernel d -> t ∉ omap id kernel ++ omap fst d ->
  idle_control i (residue task) m ctl -> tcs' !! t = Some (task, ctl) ->
  (forall t', t' <> t -> tcs' !! t' = tcs !! t') ->
  ring_owners (armed ctl r) tcs' (issue t task kernel) d.
Proof.
  intros Hok [Hk Hd] Hn Hi Ht Hne. apply not_elem_of_app in Hn as [Hnk Hnd].
  assert (Hk' : Forall2 (fun e o => owner (callbacks_ (armed ctl r)) (next_callback_id_ (armed ctl r)) tcs' (sqe_user_data e) o) (inflight r) kernel).
  { apply Forall2_same_length_lookup. apply Forall2_same_length_lookup in Hk as [Hl Hk]. split; [done|].
    intros n e o He Ho. eapply owner_armed; [|done|by eapply Hk]. intros ->. apply Hnk.
    apply list_elem_of_omap. exists (Some t). split; [by eapply list_elem_of_lookup_2|done]. }
  assert (Hd' : Forall2 (fun c x => owner (callbacks_ (armed ctl r)) (next_callback_id_ (armed ctl r)) tcs' (cqe_user_data c) x.1 /\ cqe_res c = x.2) (cq r) d).
  { apply Forall2_same_length_lookup. apply Forall2_same_length_lookup in Hd as [Hl Hd]. split; [done|].
    intros n c [o x] Hc Ho. destruct (Hd n c (o, x) Hc Ho) as [Hown Hres]. split; [|done].
    eapply owner_armed; [|done|exact Hown]. simpl. intros ->. apply Hnd.
    apply list_elem_of_omap. exists (Some t, x). split; [by eapply list_elem_of_lookup_2|done]. }
  destruct Hok as (_ & _ & Hnid). unfold issue.
  destruct (idle_waits _ _ _ _ Hi) as [[-> ->]|(l & -> & ->)]; (split; [|done]); [done|].
  apply Forall2_app; [done|]. apply Forall2_cons; split; [|done]. simpl. split; [lia|].
  exists task, l. by rewrite lookup_insert_eq.
Qed.

Lemma residue_receive x task : residue (receive x task) = feed (residue task) x.
Proof. unfold residue, receive. cbn [fst snd]. by rewrite fold_left_app. Qed.

Lemma launch_refines k s sp b :
  refines k s sp -> sp_inv sp -> k < kMaxCallbacks ->
  exists n s', (forall fuel, (n <= fuel)%nat -> rt_do fuel s (RtLaunch None b) = Ret s') /\
    refines (k + 1) s' (rt_spec_do sp (RtLaunch None b)).
Proof.
  destruct s as [r h roots], sp as [ts kernel d]. intros (tcs & Hts & Hw & Hh & Hok & Hro) [_ Hinv] Hk. cbn [rt_ring rt_heap rt_roots sp_tasks sp_kernel sp_done] in *.
  destruct (started_wf b h Hw) as [Hw1 _]. pose proof (fresh_frame h Hw) as Hfr.
  destruct (arm_halts k (started b h, Run (next h) b, []) (next h) (to_await b) (frames h) r)
    as (n & h' & m' & ctl & Harm & Hw' & Hf & Hd & Hi); [done..|by eapply body_advances|].
  exists n, (mkRt (armed ctl r) h' (roots ++ [next h])). split.
  - intros fuel Hle. cbn [rt_do rt_heap rt_ring rt_roots]. unfold call_coroutine. cbv iota beta.
    pose proof (start_new b h []) as Hs. unfold call_coroutine in Hs. cbn [snd] in Hs. rewrite Hs.
    cbn [mbind outcome_bind]. by rewrite (Harm fuel Hle).
  - assert (Hlen : length ts = length tcs) by (by rewrite <- Hts, length_fmap).
    exists (tcs ++ [((b, []), ctl)]). cbn [rt_ring rt_heap rt_roots rt_spec_do sp_tasks sp_kernel sp_done]. split_and!.
    + by rewrite fmap_app, Hts.
    + done.
    + rewrite !fmap_app, Hf. by apply holds_launch.
    + by apply armed_ok.
    + eapply (ring_owners_armed (next h) m' k r tcs); [done|done| |exact Hi| |].
      * intros (task & Hl%lookup_lt_Some & _)%Hinv. simpl in Hl. lia.
      * by apply list_lookup_middle.
      * intros t Ht. destruct (decide (t < length tcs)%nat); [by rewrite lookup_app_l|].
        rewrite lookup_app_r, (lookup_ge_None_2 tcs) by lia. apply lookup_ge_None_2. simpl. lia.
Qed.

Lemma wait_refines k s sp ms fuel :
  refines k s sp ->
  exists s', rt_do fuel s (RtWait None ms) = Ret s' /\ refines k s' (rt_spec_do sp (RtWait None ms)).
Proof.
  destruct s as [r h roots], sp as [ts kernel d]. intros (tcs & Hts & Hw & Hh & Hok & Hro). eexists. cbn [rt_do rt_ring rt_heap rt_roots].
  rewrite submit_wait_timeout_None. split; [done|].
  exists tcs. cbn [rt_ring rt_heap rt_roots sp_tasks sp_kernel sp_done rt_spec_do] in *.
  unfold waiting_ring, submit_wait_timeout. pose proof Hok as (Hs & Hq & Hn). unfold sqe_free. rewrite Hs.
  rewrite (proj2 (Z.ltb_lt (zlen []) _)), andb_true_r by (simpl; lia).
  destruct (0 <=? ms); [|by split_and!]. simpl. rewrite Hs. do 3 (split; [done|]). split; [by unfold ring_ok|].
  destruct Hro as [Hk Hd]. split; [|done]. simpl. apply Forall2_app; [done|]. by apply Forall2_cons.
Qed.

Lemma complete_refines k s sp i res fl fuel :
  refines k s sp ->
  exists s', rt_do fuel s (RtComplete i res fl) = Ret s' /\ refines k s' (rt_spec_do sp (RtComplete i res fl)).
Proof.
  destruct s as [r h roots], sp as [ts kernel d]. intros (tcs & Hts & Hw & Hh & Hok & Hk & Hd). eexists. split; [done|].
  exists tcs. cbn [rt_ring rt_heap rt_roots sp_tasks sp_kernel sp_done rt_spec_do] in *.
  unfold complete. destruct (inflight r !! i) as [e|] eqn:He.
  - destruct (Forall2_lookup_l _ _ _ _ _ Hk He) as (o & Ho & Hown). rewrite Ho. split_and!; try done. split; simpl.
    + by apply Forall2_delete.
    + apply Forall2_app; [done|]. by apply Forall2_cons.
  - apply lookup_ge_None in He. rewrite (lookup_ge_None_2 kernel) by (by rewrite <- (Forall2_length _ _ _ Hk)).
    by split_and!.
Qed.

(** The task that waits at frame [l] and the frames of the others. *)
Lemma waiting_focus h roots tcs t task l :
  holds owned_at (Some <$> roots) (Some <$> tcs) (frames h) -> tcs !! t = Some (task, Waiting l) ->
  exists i m' m0, roots !! t = Some i /\ owns i started_promise (residue task) l m' /\
    frames h = m' ∪ m0 /\ m' ##ₘ m0 /\
    forall tc m1, owned_at i tc m1 -> m1 ##ₘ m0 ->
      holds owned_at (Some <$> roots) (Some <$> <[t := tc]> tcs) (m1 ∪ m0).
Proof.
  intros Hh Ht. destruct (roots !! t) as [i|] eqn:Hr.
  2:{ apply lookup_ge_None in Hr. apply lookup_lt_Some in Ht. apply holds_length in Hh. rewrite !length_fmap in Hh. lia. }
  destruct (holds_focus _ _ _ _ t i Hh) as (tc & m' & m0 & Htc & Hown & Hf & Hd & _ & Hk); [by rewrite list_lookup_fmap, Hr|].
  rewrite list_lookup_fmap, Ht in Htc. injection Htc as <-.
  destruct Hown as [(x & _ & _ & [=])|(l' & Ho & [= <-])]. exists i, m', m0. split_and!; try done.
  intros tc m1 H1 H2. rewrite list_fmap_insert. by apply Hk.
Qed.

Lemma cqe_refines k s sp :
  refines k s sp -> sp_inv sp -> k < kMaxCallbacks ->
  exists n s', (forall fuel, (n <= fuel)%nat -> rt_do fuel s (RtCqe None) = Ret s') /\
    refines (k + 1) s' (rt_spec_do sp (RtCqe None)).
Proof.
  destruct s as [r h roots], sp as [ts kernel d]. intros (tcs & Hts & Hw & Hh & Hok & Hk & Hd) [Hnd _] Hlt.
  cbn [rt_ring rt_heap rt_roots sp_tasks sp_kernel sp_done rt_do rt_spec_do] in *.
  assert (Hok0 : ring_ok k (cqe_seen r)) by exact Hok.
  pose proof (ring_ok_mono k (k + 1) _ Hok0 ltac:(lia)) as Hok1.
  unfold peek_cqe. destruct (cq r) as [|c cs] eqn:Hcq.
  { apply Forall2_nil_inv_l in Hd as ->. exists 0%nat, (mkRt r h roots). split; [done|]. exists tcs.
    do 3 (split; [done|]). split; [by apply (ring_ok_mono k); [|lia]|].
    split; [done|]. simpl. rewrite Hcq. constructor. }
  apply Forall2_cons_inv_l in Hd as ([o x] & d' & [Hown Hres] & Hd & ->). simpl in Hown, Hres.
  cbn [head]. unfold process_cqe, get_callback. cbn [fst]. destruct o as [t|]; simpl in Hown.
  - destruct Hown as (Hid & task & l & Ht & Hcb). destruct Hok as (Hsq & Hq & Hnid).
    rewrite (proj2 (Z.eqb_neq _ 0)), (proj2 (Z.leb_gt kMaxCallbacks _)) by lia. cbn [orb]. rewrite Hcb.
    destruct (waiting_focus h roots tcs t task l Hh Ht) as (i & m' & m0 & Hroot & Ho & Hf & Hdj & Hset).
    destruct (completion_advances _ _ _ _ _ Ho h x m0 Hw Hf Hdj) as (b' & Hres' & Hg).
    rewrite <- residue_receive in Hg.
    destruct (arm_halts k (h, Run l b', []) i (residue (receive x task)) m0 r) as (n & h' & m1 & ctl & Harm & Hw' & Hf' & Hd' & Hi);
      [done|done|by eapply owns_root|exact Hg|].
    exists n, (mkRt (armed ctl (cqe_seen r)) h' roots). split.
    { intros fuel Hle. unfold resume_callback. cbn [fst snd]. rewrite Hres, Hres'. cbn [mbind outcome_bind fst snd].
      rewrite (Harm fuel Hle). simpl. unfold seen. simpl. by destruct ctl. }
    assert (Htask : ts !! t = Some task) by (by rewrite <- Hts, list_lookup_fmap, Ht). rewrite Htask.
    exists (<[t := (receive x task, ctl)]> tcs). cbn [rt_ring rt_heap rt_roots sp_tasks sp_kernel sp_done].
    assert (Hnt : t ∉ omap id kernel ++ omap fst d').
    { unfold outstanding in Hnd. simpl in Hnd. rewrite <- Permutation_middle in Hnd. by apply NoDup_cons in Hnd as [? _]. }
    split_and!; [by rewrite list_fmap_insert, Hts|done|rewrite Hf'; by apply Hset|by apply armed_ok|].
    eapply (ring_owners_armed i m1 k (cqe_seen r) tcs); try done.
    + split; simpl; [done|by rewrite Hcq].
    + apply list_lookup_insert_eq. by eapply lookup_lt_Some.
    + intros t' Hne. by rewrite list_lookup_insert_ne.
  - rewrite Hown. simpl. exists 0%nat, (mkRt (cqe_seen r) h roots). split; [done|]. exists tcs.
    split_and!; try done. split; simpl; [done|by rewrite Hcq].
Qed.

(** ** Whole runs *)

Definition prepares_of (ops : list rt_op) : Z := zlen (filter may_prepare ops).

Lemma rt_run_refines ops : forall k s sp,
  Forall accepted ops -> refines k s sp -> sp_inv sp -> k + prepares_of ops <= kMaxCallbacks ->
  exists n s' k', (forall fuel, (n <= fuel)%nat -> rt_run fuel s ops = Ret s') /\
    refines k' s' (fold_left rt_spec_do ops sp) /\ sp_inv (fold_left rt_spec_do ops sp) /\ k' <= kMaxCallbacks.
Proof.
  unfold prepares_of. induction ops as [|op ops IH]; intros k s sp Hacc Hr Hi Hk; [exists 0%nat, s, k; simpl in *; split_and!; done || lia|].
  apply Forall_cons in Hacc as [Ha Hacc].
  assert (Hstep : exists n s1 k1, (forall fuel, (n <= fuel)%nat -> rt_do fuel s op = Ret s1) /\
    refines k1 s1 (rt_spec_do sp op) /\ k1 + zlen (filter may_prepare ops) <= kMaxCallbacks).
  { rewrite filter_cons in Hk. destruct op as [err b|err ms|i res fl|err]; simpl in Hk, Ha; subst.
    - destruct (launch_refines k s sp b Hr Hi) as (n & s1 & Hd & H1); [lia|]. exists n, s1, (k + 1). split_and!; done || lia.
    - destruct (wait_refines k s sp ms 0 Hr) as (s1 & Hd & H1). exists 0%nat, s1, k. by split_and!.
    - destruct (complete_refines k s sp i res fl 0 Hr) as (s1 & Hd & H1). exists 0%nat, s1, k. by split_and!.
    - destruct (cqe_refines k s sp Hr Hi) as (n & s1 & Hd & H1); [lia|]. exists n, s1, (k + 1). split_and!; done || lia. }
  destruct Hstep as (n1 & s1 & k1 & Hd & Hr1 & Hk1).
  destruct (IH k1 s1 _ Hacc Hr1 (sp_inv_do _ _ Hi) Hk1) as (n2 & s2 & k2 & Hrun & H2).
  exists (n1 `max` n2)%nat, s2, k2. split; [|exact H2]. intros fuel Hle. simpl. rewrite Hd by lia. simpl. apply Hrun. lia.
Qed.

(** A new ring, no frames, no tasks. *)
Definition rt_init (depth : Z) : rt_sys := mkRt (mkRing depth [] [] [] ∅ 1 true) (mkHeap ∅ 0) [].

Definition rt_result (t : nat) (s : rt_sys) : option (V + E) := task_result t (rt_heap s, Some <$> rt_roots s).

Lemma init_refines depth : 0 < depth -> refines 1 (rt_init depth) (mkRtSpec [] [] []) /\ sp_inv (mkRtSpec [] [] []).
Proof.
  intros Hd. split.
  - exists []. split_and!; [done| |by constructor|done|by split]. intros i f. simpl. by rewrite lookup_empty.
  - split; [constructor|]. intros t. split; [by intros ?%elem_of_nil|]. by intros (task & [=] & _).
Qed.

Lemma refines_result k s sp t task :
  refines k s sp -> sp_tasks sp !! t = Some task -> rt_result t s = fmap (M := option) fst (direct task.1 task.2).
Proof.
  destruct s as [r h roots]. intros (tcs & Hts & Hw & Hh & _) Ht. simpl in *.
  rewrite <- Hts, list_lookup_fmap in Ht. destruct (tcs !! t) as [[task' ctl]|] eqn:Htc; [|done]. injection Ht as ->.
  destruct (roots !! t) as [i|] eqn:Hr.
  2:{ apply lookup_ge_None in Hr. apply lookup_lt_Some in Htc. apply holds_length in Hh. rewrite !length_fmap in Hh. lia. }
  assert (Hr' : (Some <$> roots) !! t = Some (Some i)) by (by rewrite list_lookup_fmap, Hr).
  destruct (holds_focus _ _ _ _ t i Hh Hr') as (tc & m' & m0 & Htc' & Hown & Hf & Hd & _).
  rewrite list_lookup_fmap, Htc in Htc'. injection Htc' as <-.
  unfold rt_result. simpl. eapply task_frames_result; [exact Hr'|exact Hf|]. by eapply idle_control_frames.
Qed.

Lemma waitingb_direct task : waitingb (residue task) = true <-> direct task.1 task.2 = None.
Proof.
  rewrite waitingb_spec. unfold residue. pose proof (direct_residue task.1 task.2) as Hd.
  destruct (direct task.1 task.2) as [[x rest]|]; [|done]. rewrite Hd. by destruct x.
Qed.

(** C7: the runtime routes completions.  Whatever tasks are started and in
    whatever order the kernel completes their operations, through the callback
    slots of the ring, with the coroutines preparing their next operation inside
    the callbacks and the loop's own timeouts in between, as long as the kernel
    accepts the submissions and fewer than 65536 operations are prepared: nothing
    undefined and no exception happens; every task
    has the result its body computes from the completions of its own operations;
    an unfinished task has exactly one operation in the kernel or completion in
    the queue, a finished one none; so when both are empty every task is done. *)
Theorem runtime_routes_completions depth ops :
  0 < depth -> Forall accepted ops -> prepares_of ops < kMaxCallbacks ->
  let sp := rt_spec_run ops in
  exists n s, (forall fuel, (n <= fuel)%nat -> rt_run fuel (rt_init depth) ops = Ret s) /\
    (forall t task, sp_tasks sp !! t = Some task -> rt_result t s = fmap (M := option) fst (direct task.1 task.2)) /\
    NoDup (outstanding sp) /\
    (forall t, t ∈ outstanding sp <-> exists task, sp_tasks sp !! t = Some task /\ direct task.1 task.2 = None) /\
    length (inflight (rt_ring s)) = length (sp_kernel sp) /\ cqe_res <$> cq (rt_ring s) = (sp_done sp).*2.
Proof.
  intros Hd Ha Hn sp. destruct (init_refines depth Hd) as [Hr Hi].
  destruct (rt_run_refines ops 1 _ _ Ha Hr Hi) as (n & s & k & Hrun & Href & [Hnd Hout] & _); [lia|].
  exists n, s. split_and!; [done| |done| | |].
  - intros t task. by eapply refines_result.
  - intros t. etrans; [exact (Hout t)|]. split; intros (task & Ht & Hw); exists task; (split; [done|]); by apply waitingb_direct.
  - destruct Href as (tcs & _ & _ & _ & _ & Hk & _). by eapply Forall2_length.
  - destruct Href as (tcs & _ & _ & _ & _ & Hro). by eapply ring_owners_results.
Qed.

(** ** What breaks it *)

(** [~Task] of the task [t]. *)
Definition rt_drop (t : nat) (s : rt_sys) : rt_sys :=
  match rt_roots s !! t with
  | Some i => mkRt (rt_ring s) (destroy i (rt_heap s)) (rt_roots s)
  | None => s
  end.

(** A task must outlive its operation.  In every reachable state, if the next
    completion belongs to a task, destroying that task first makes the callback
    resume a destroyed coroutine. *)
Theorem drop_in_flight_undefined depth ops t x d :
  0 < depth -> Forall accepted ops -> prepares_of ops < kMaxCallbacks -> sp_done (rt_spec_run ops) = (Some t, x) :: d ->
  exists n s, (forall fuel, (n <= fuel)%nat -> rt_run fuel (rt_init depth) ops = Ret s) /\
    forall err fuel, rt_do fuel (rt_drop t s) (RtCqe err) = Undef.
Proof.
  intros Hd Ha Hn Hdone. destruct (init_refines depth Hd) as [Hr Hi].
  destruct (rt_run_refines ops 1 _ _ Ha Hr Hi) as (n & [r h roots] & k & Hrun & Href & _ & Hk); [lia|].
  exists n, (mkRt r h roots). split; [done|]. intros err fuel.
  destruct Href as (tcs & _ & Hw & Hh & (_ & _ & Hnid) & _ & Hown). unfold rt_spec_run in Hdone. rewrite Hdone in Hown.
  apply Forall2_cons_inv_r in Hown as (c & cs & [(Hid & task & l & Ht & Hcb) Hres] & _ & Hcq). simpl in *.
  destruct (waiting_focus h roots tcs t task l Hh Ht) as (i & m' & m0 & Hroot & Ho & Hf & Hdj & _).
  assert (Hgone : frames (destroy i h) !! l = None).
  { rewrite (task_frames_destroy i (residue task) m' m0 h Hw Hf Hdj); [|right; by exists l].
    destruct (owns_leaf_frame _ _ _ _ _ Ho) as [g Hg]. by eapply map_disjoint_Some_r; [symmetry|]. }
  unfold rt_drop. simpl. rewrite Hroot. cbn [rt_do rt_ring rt_heap]. unfold peek_cqe. rewrite Hcq. cbn [head].
  unfold process_cqe, get_callback. cbn [fst].
  rewrite (proj2 (Z.eqb_neq _ 0)), (proj2 (Z.leb_gt kMaxCallbacks _)) by lia. cbn [orb]. rewrite Hcb.
  unfold resume_callback, resume. cbn [snd]. by rewrite Hgone.
Qed.

(** A ring in which only the loop's own timeouts, without callback, are left. *)
Definition quiet r : Prop :=
  sq r = [] /\ Forall (fun e => sqe_user_data e = 0) (inflight r) /\ Forall (fun c => cqe_user_data c = 0) (cq r).

Definition launches (op : rt_op) : Prop := match op with RtLaunch _ _ => True | _ => False end.

Lemma quiet_step fuel r h roots op :
  quiet r -> accepted op -> ~ launches op ->
  exists r', rt_do fuel (mkRt r h roots) op = Ret (mkRt r' h roots) /\ quiet r'.
Proof.
  intros (Hs & Hi & Hc) Ha Hl. destruct op as [err b|err ms|i res fl|err]; simpl in Ha, Hl; subst; [done|..];
    cbn [rt_do rt_ring rt_heap rt_roots].
  - rewrite submit_wait_timeout_None. eexists. split; [done|]. unfold waiting_ring, submit_wait_timeout.
    destruct (_ && _); [|done]. simpl. rewrite Hs. split_and!; [done| |done]. apply Forall_app. split; [done|]. by constructor.
  - eexists. split; [done|]. unfold complete. destruct (inflight r !! i) as [e|] eqn:E'; [|done].
    split_and!; [done|by apply Forall_delete|]. apply Forall_app. split; [done|]. constructor; [|done].
    by eapply Forall_lookup_1 in E'; [|exact Hi].
  - unfold peek_cqe. destruct (cq r) as [|c cs] eqn:E'; cbn [head]; [by exists r; split; [|rewrite <- E' in Hc]|].
    apply Forall_cons in Hc as [Hz Hc]. unfold process_cqe, get_callback. rewrite Hz. simpl. eexists. split; [done|].
    split_and!; [done|done|]. simpl. by rewrite E'.
Qed.

Lemma quiet_run fuel h roots ops : forall r,
  quiet r -> Forall accepted ops -> Forall (fun op => ~ launches op) ops ->
  exists r', rt_run fuel (mkRt r h roots) ops = Ret (mkRt r' h roots).
Proof.
  induction ops as [|op ops IH]; intros r Hr Ha Hl; [by eexists|].
  apply Forall_cons in Ha as [Ha1 Ha], Hl as [Hl1 Hl].
  destruct (quiet_step fuel r h roots op Hr Ha1 Hl1) as (r' & E' & Hr'). cbn [rt_run]. rewrite E'. by apply IH.
Qed.

(** C28: the 65536th operation is a lost wake-up.  When the id counter is at a
    multiple of 65536, a task that suspends gets user data 0; the kernel completes
    its operation, the loop takes the completion, and the task is not resumed: it
    is as it was when it suspended, and its operation is gone from the ring.  When
    no other operation was in flight it is never resumed: whatever rounds of the
    loop and completions follow, short of starting other tasks, no coroutine
    changes any more. *)
Theorem lost_wakeup s b res fl :
  wf (rt_heap s) -> next_callback_id_ (rt_ring s) mod kMaxCallbacks = 0 -> 0 < queue_depth (rt_ring s) ->
  sq (rt_ring s) = [] -> cq (rt_ring s) = [] -> direct b [] = None ->
  exists n s1 s2, (forall fuel, (n <= fuel)%nat ->
      rt_run fuel s [RtLaunch None b] = Ret s1 /\
      rt_run fuel s [RtLaunch None b; RtComplete (length (inflight (rt_ring s))) res fl; RtCqe None] = Ret s2) /\
    rt_heap s2 = rt_heap s1 /\ rt_roots s2 = rt_roots s1 /\
    inflight (rt_ring s2) = inflight (rt_ring s) /\ sq (rt_ring s2) = [] /\ cq (rt_ring s2) = [] /\
    (inflight (rt_ring s) = [] -> forall fuel ops, Forall accepted ops -> Forall (fun op => ~ launches op) ops ->
       exists r, rt_run fuel s2 ops = Ret (mkRt r (rt_heap s1) (rt_roots s1))).
Proof.
  destruct s as [r h roots]. cbn [rt_ring rt_heap]. intros Hw Hz Hq Hsq Hcq Hb.
  destruct (started_wf b h Hw) as [Hw1 Hj]. destruct (body_waits b [] Hb _ _ _ _ Hw1 Hj) as (h' & l & Hs & _).
  destruct (run_halts _ _ Hs eq_refl) as [n Hn].
  set (r1 := mkRing (queue_depth r) [] (inflight r ++ [mkSqe (operation l) 0 0]) []
               (<[0 := l]> (callbacks_ r)) (u64 (next_callback_id_ r + 1)) (running_ r)).
  assert (Hl : forall fuel, (n <= fuel)%nat -> rt_do fuel (mkRt r h roots) (RtLaunch None b) = Ret (mkRt r1 h' (roots ++ [next h]))).
  { intros fuel Hle. cbn [rt_do rt_heap rt_ring rt_roots]. unfold call_coroutine. cbv iota beta.
    pose proof (start_new b h []) as Hst. unfold call_coroutine in Hst. cbn [snd] in Hst. rewrite Hst.
    cbn [mbind outcome_bind]. unfold arm. rewrite (Hn fuel Hle). unfold IoUring.await_suspend, prepare, sqe_free.
    rewrite Hsq. cbn [zlen length]. rewrite (proj2 (Z.ltb_lt _ _)) by (simpl; lia). unfold set_callback. rewrite Hz.
    unfold submit, push_sqe. simpl. by rewrite Hsq, Hcq. }
  exists n, (mkRt r1 h' (roots ++ [next h])),
    (mkRt (cqe_seen (complete (length (inflight r)) res fl r1)) h' (roots ++ [next h])).
  assert (Hc : complete (length (inflight r)) res fl r1 =
    mkRing (queue_depth r) [] (inflight r) [mkCqe 0 res fl] (<[0 := l]> (callbacks_ r)) (u64 (next_callback_id_ r + 1)) (running_ r)).
  { unfold complete, r1. cbn [inflight]. rewrite list_lookup_middle by done. f_equal. by rewrite delete_middle, app_nil_r. }
  split_and!; [|done|done|by rewrite Hc..|].
  2:{ intros Hin fuel ops Ha Hno. apply quiet_run; [|done..]. rewrite Hc. unfold quiet. simpl. by rewrite Hin. }
  intros fuel Hle. rewrite !rt_run_cons, (Hl fuel Hle). split; [done|].
  cbn [mbind outcome_bind]. rewrite !rt_run_cons. cbn [mbind outcome_bind rt_do rt_ring rt_heap rt_roots]. by rewrite Hc.
Qed.

(** ** [run_once] *)

(** A round of the loop is its timeout followed by one step per completion. *)
Lemma process_all_steps f err fuel roots : forall n r h n' r' h',
  process_all_loop (resume_callback f err) fuel n (r, h) = Ret (Some (n', (r', h'))) ->
  exists j, rt_run f (mkRt r h roots) (repeat (RtCqe err) j) = Ret (mkRt r' h' roots) /\ cq r' = [].
Proof.
  induction fuel as [|fuel IH]; intros n r h n' r' h'; simpl; [done|].
  destruct (cq r) as [|c cs] eqn:Hcq; [intros [= _ <- <-]; by exists 0%nat|].
  intros ([r1 h1] & Hp & Hl)%bind_Ret_inv. destruct (IH _ _ _ _ _ _ Hl) as (j & Hj & Hc). exists (S j). split; [|done].
  cbn [repeat rt_run rt_do]. unfold peek_cqe. cbn [rt_ring rt_heap rt_roots]. rewrite Hcq. cbn [head]. by rewrite Hp.
Qed.

(** One [run_once] is the timeout's submission followed by steps that take
    one completion each, until none is left. *)
Theorem run_once_is_steps f err err' fuel ms roots r h n r' h' :
  run_once (resume_callback f err) fuel err' ms (r, h) = Ret (Some (n, (r', h'))) ->
  exists j, rt_run f (mkRt r h roots) (RtWait err' ms :: repeat (RtCqe err) j) = Ret (mkRt r' h' roots) /\ cq r' = [].
Proof.
  unfold run_once. cbn [fst snd]. intros (r0 & Hw & Hl)%bind_Ret_inv. cbn [rt_run rt_do rt_ring rt_heap rt_roots].
  rewrite Hw. cbn [mbind outcome_bind]. unfold after_wait in Hl. cbn [fst snd] in Hl.
  apply bind_Ret_inv in Hl as ([r1 h1] & Hp & Hl).
  apply bind_Ret_inv in Hl as ([[n2 [r2 h2]]|] & Hall & Hr); [|done]. injection Hr as _ <- <-.
  destruct (process_all_steps f err fuel roots _ _ _ _ _ _ Hall) as (j & Hj & Hc).
  destruct (cq r0) as [|c cs] eqn:Hcq; [injection Hp as <- <-; by exists j|].
  exists (S j). split; [|done]. cbn [repeat rt_run rt_do]. unfold peek_cqe. cbn [rt_ring rt_heap rt_roots].
  rewrite Hcq. cbn [head].
  assert (Hpc : process_cqe (resume_callback f err) c (r0, h) = Ret (r1, h1)).
  { destruct (Z.eqb_spec (cqe_user_data c) 0) as [Hz|]; [|exact Hp]. unfold process_cqe, get_callback.
    rewrite Hz. exact Hp. }
  by rewrite Hpc.
Qed.
End Runtime.

(** ** Witnesses *)

Definition any_op (l : nat) : io_op := OpRecv (Z.of_nat l) 64 0.

(** Two tasks; the kernel completes the second one's operations first. *)
Definition sample_run : list rt_op :=
  [RtLaunch None sample_caller; RtLaunch None sample_caller; RtComplete 1 (-5) 0; RtWait None 10; RtComplete 0 3 0; RtCqe None; RtCqe None;
   RtComplete 1 7 0; RtCqe None; RtComplete 1 10 0; RtComplete 0 (-62) 0; RtCqe None; RtCqe None].

Lemma runtime_routes_completions_witness :
  exists n s, (forall fuel, (n <= fuel)%nat -> rt_run any_op fuel (rt_init 64) sample_run = Ret s) /\
    rt_result 0 s = Some (inl 14) /\ rt_result 1 s = Some (inl (-5)) /\
    inflight (rt_ring s) = [] /\ cq (rt_ring s) = [].
Proof.
  destruct (runtime_routes_completions any_op 64 sample_run ltac:(lia) ltac:(compute_done) ltac:(compute_done))
    as (n & s & Hrun & Hres & _ & _ & Hk & Hd).
  exists n, s. split; [exact Hrun|]. split; [exact (Hres 0%nat (sample_caller, [3; 10]) eq_refl)|].
  split; [exact (Hres 1%nat (sample_caller, [-5; 7]) eq_refl)|]. split.
  - apply nil_length_inv. exact Hk.
  - destruct (cq (rt_ring s)); [done|]. vm_compute in Hd. done.
Defined.

Lemma drop_in_flight_undefined_witness :
  exists n s, (forall fuel, (n <= fuel)%nat ->
      rt_run any_op fuel (rt_init 64) [RtLaunch None sample_callee; RtComplete 0 5 0] = Ret s) /\
    forall err fuel, rt_do any_op fuel (rt_drop 0 s) (RtCqe err) = Undef.
Proof.
  apply (drop_in_flight_undefined any_op 64 [RtLaunch None sample_callee; RtComplete 0 5 0] 0 5 []);
    [lia|compute_done|compute_done|reflexivity].
Defined.

Definition wrapped_sys : rt_sys (V := Z) (E := Z) := mkRt (mkRing 64 [] [] [] ∅ 65536 true) empty_heap [].

Lemma lost_wakeup_witness :
  exists n s1 s2, (forall fuel, (n <= fuel)%nat ->
      rt_run any_op fuel wrapped_sys [RtLaunch None sample_caller] = Ret s1 /\
      rt_run any_op fuel wrapped_sys [RtLaunch None sample_caller; RtComplete 0 5 0; RtCqe None] = Ret s2) /\
    rt_heap s2 = rt_heap s1 /\ rt_roots s2 = rt_roots s1 /\
    inflight (rt_ring s2) = [] /\ sq (rt_ring s2) = [] /\ cq (rt_ring s2) = [] /\
    forall fuel ops, Forall accepted ops -> Forall (fun op => ~ launches op) ops ->
      exists r, rt_run any_op fuel s2 ops = Ret (mkRt r (rt_heap s1) (rt_roots s1)).
Proof.
  destruct (lost_wakeup any_op wrapped_sys sample_caller 5 0) as (n & s1 & s2 & Hrun & Hh & Hr & Hi & Hs & Hc & Hq);
    [apply empty_wf|reflexivity..|].
  exists n, s1, s2. split_and!; try done. by apply Hq.
Defined.
