(* ===== verification/Generator.v ===== *)
(** * coroutine/generator.hpp: lazy sequences

    The body of a generator is a step function on its local state [S], so that it
    may yield for ever; the frame is shared by the generator and its iterators.
    [range_for n] is a range-for loop whose body breaks in its [n + 1]st
    execution. *)

From Stdlib Require Import ZArith Lia.
From S2P Require Import Prelude.

(** What the body does next from a local state. *)
Inductive gen_step (V E S : Type) : Type :=
| Yield (v : V) (s : S)
| Return
| Raise (e : E).
Arguments Yield {V E S}.
Arguments Return {V E S}.
Arguments Raise {V E S}.

(** The frame: the promise's members, and the state to go on from (None at
    [final_suspend]). *)
Record gen_frame (V E S : Type) := mkGen {
  current_value : option V;     (* default-initialised until the first yield *)
  gen_exception : option E;
  position : option S;
}.
Arguments mkGen {V E S}.
Arguments current_value {V E S}.
Arguments gen_exception {V E S}.
Arguments position {V E S}.

Section Generator.
Context {V E S : Type} (body : S -> gen_step V E S) (what : E -> string).
Implicit Types (f : gen_frame V E S) (s : S).

(** Calling the generator coroutine. *)
Definition new_generator s : gen_frame V E S := mkGen None None (Some s).

Definition done f : bool := match position f with None => true | Some _ => false end.

Definition yield_value (v : V) s f : gen_frame V E S := mkGen (Some v) (gen_exception f) (Some s).

Definition gen_unhandled_exception (e : E) f : gen_frame V E S := mkGen (current_value f) (Some e) (position f).

Definition gen_final_suspend f : gen_frame V E S := mkGen (current_value f) (gen_exception f) None.

(** [handle_.resume()]: up to the next suspension. *)
Definition gen_advance s f : gen_frame V E S :=
  match body s with
  | Yield v s' => yield_value v s' f
  | Return => gen_final_suspend f
  | Raise e => gen_final_suspend (gen_unhandled_exception e f)
  end.

Definition gen_resume f : outcome (gen_frame V E S) :=
  match position f with
  | None => Undef
  | Some s => Ret (gen_advance s f)
  end.

(** An iterator holds the handle (true) or null. *)
Definition GeneratorIterator := bool.

Definition gen_deref (it : GeneratorIterator) f : outcome V :=
  if it then match current_value f with Some v => Ret v | None => Undef end else Undef.

Definition increment (it : GeneratorIterator) f : outcome (GeneratorIterator * gen_frame V E S) :=
  if it then let* (f1 : gen_frame V E S) := gen_resume f in Ret (negb (done f1), f1) else Undef.

Definition gen_end : GeneratorIterator := false.

(** [begin()]; [valid] tells whether the generator has a handle. *)
Definition gen_begin (valid : bool) f : outcome (GeneratorIterator * gen_frame V E S) :=
  if valid then
    let* (f1 : gen_frame V E S) := gen_resume f in
    if done f1 then Ret (gen_end, f1)
    else match gen_exception f1 with Some e => Throw (what e) | None => Ret (true, f1) end
  else Ret (gen_end, f).

(** The loop: the values its body saw, and whether it ended without the break. *)
Fixpoint for_loop (n : nat) (it : GeneratorIterator) f : outcome (list V * bool * gen_frame V E S) :=
  if Bool.eqb it gen_end then Ret ([], true, f)
  else
    let* v := gen_deref it f in
    match n with
    | O => Ret ([v], false, f)
    | Datatypes.S n =>
        let* (x : GeneratorIterator * gen_frame V E S) := increment it f in
        let* (y : list V * bool * gen_frame V E S) := for_loop n x.1 x.2 in
        Ret (v :: y.1.1, y.1.2, y.2)
    end.

Definition range_for (n : nat) (valid : bool) f : outcome (list V * bool * gen_frame V E S) :=
  let* (x : GeneratorIterator * gen_frame V E S) := gen_begin valid f in for_loop n x.1 x.2.

(** ** The sequence a body stands for *)

(** Up to [n + 1] values; then how it ended, with the exception if there was
    one, or None if it has more. *)
Fixpoint sequence (n : nat) s : list V * option (option E) :=
  match body s with
  | Return => ([], Some None)
  | Raise e => ([], Some (Some e))
  | Yield v s' =>
      match n with
      | O => ([v], None)
      | Datatypes.S n => (v :: (sequence n s').1, (sequence n s').2)
      end
  end.

(** The loop from a frame that was just resumed. *)
Lemma for_loop_sequence n : forall s f, gen_exception f = None ->
  exists f', for_loop n (negb (done (gen_advance s f))) (gen_advance s f) =
    Ret ((sequence n s).1, bool_decide (is_Some (sequence n s).2), f') /\
    gen_exception f' = default None (sequence n s).2.
Proof.
  induction n as [|n IH]; intros s f Hf.
  all: destruct (body s) as [v s'| |e] eqn:Hb.
  all: assert (Ha := eq_refl (gen_advance s f)); unfold gen_advance in Ha at 2; rewrite Hb in Ha; rewrite Ha; simpl;
    rewrite Hb; try (eexists; split; [reflexivity|]; simpl; congruence).
  destruct (IH s' (yield_value v s' f) Hf) as (f' & E1 & E2). rewrite E1. simpl. by exists f'.
Qed.

(** C38: a range-for over a generator sees exactly the values its body yields, in
    order, whether the sequence is finite, infinite or
    cut short by a break, without undefined behaviour; an exception of the body
    ends the loop like a normal return and stays in the promise, also when it is
    raised before the first value. *)
Theorem range_for_sequence n s :
  exists f', range_for n true (new_generator s) =
    Ret ((sequence n s).1, bool_decide (is_Some (sequence n s).2), f') /\
    gen_exception f' = default None (sequence n s).2.
Proof.
  destruct (for_loop_sequence n s (new_generator s) eq_refl) as (f' & E1 & E2). exists f'. split; [|done].
  rewrite <- E1. unfold range_for, gen_begin, gen_resume. simpl. unfold gen_advance.
  by destruct (body s) as [v s'| |e].
Qed.

End Generator.
