(* ===== verification/Awaitable.v ===== *)
(** * coroutine/awaitable.hpp: awaiters completed from another thread

    [AsyncAwaiter] is shared by the coroutine that awaits it and the thread that
    completes it; each side is a list of atomic actions and [async_step]
    interleaves them.  The sleep and condition awaiters resume from a detached
    thread: [sleep_duration] is the time that thread sleeps, [poll] its loop over
    the predicate. *)

From Stdlib Require Import ZArith Lia.
From S2P Require Import Prelude.

(** ** AsyncAwaiter *)

Section Async.
Context {T : Type}.

(** [result_] is [None] as long as nothing was stored; for [AsyncAwaiter<void>]
    nothing ever is. *)
Record AsyncAwaiter := mkAsync {
  ready_ : bool;
  continuation_ : option nat;      (* coroutine handle *)
  result_ : option T;
  exception_ : option string;
}.

Definition AsyncAwaiter_new : AsyncAwaiter := mkAsync false None None None.

Definition await_ready (a : AsyncAwaiter) : bool := ready_ a.

Definition await_suspend (handle : nat) (a : AsyncAwaiter) : AsyncAwaiter :=
  mkAsync (ready_ a) (Some handle) (result_ a) (exception_ a).

Definition await_resume (a : AsyncAwaiter) : outcome (option T) :=
  match exception_ a with Some e => Throw e | None => Ret (result_ a) end.

(** The completing thread's actions. *)
Inductive action :=
| WriteResult (v : T)
| WriteException (e : string)
| StoreReady
| ResumeIfSet.

Definition set_result (v : T) : list action := [WriteResult v; StoreReady; ResumeIfSet].
Definition set_exception (e : string) : list action := [WriteException e; StoreReady; ResumeIfSet].
Definition set_completed : list action := [StoreReady; ResumeIfSet].

(** Where the awaiting coroutine is. *)
Inductive consumer :=
| AtAwait                        (* before await_ready *)
| NotReady                       (* await_ready answered false *)
| Suspended                      (* await_suspend stored the handle *)
| Resumed (r : outcome (option T)).

Record async_state := mkAS { aw : AsyncAwaiter; who : consumer; todo : list action }.

Definition async_new (completion : list action) : async_state := mkAS AsyncAwaiter_new AtAwait completion.

Definition do_action (act : action) (a : AsyncAwaiter) (c : consumer) : AsyncAwaiter * consumer :=
  match act with
  | WriteResult v => (mkAsync (ready_ a) (continuation_ a) (Some v) (exception_ a), c)
  | WriteException e => (mkAsync (ready_ a) (continuation_ a) (result_ a) (Some e), c)
  | StoreReady => (mkAsync true (continuation_ a) (result_ a) (exception_ a), c)
  | ResumeIfSet => (a, match continuation_ a with Some _ => Resumed (await_resume a) | None => c end)
  end.

Definition handle_of_coroutine : nat := 0%nat.

Inductive async_step : async_state -> async_state -> Prop :=
| step_check a todo :
    async_step (mkAS a AtAwait todo) (mkAS a (if await_ready a then Resumed (await_resume a) else NotReady) todo)
| step_suspend a todo :
    async_step (mkAS a NotReady todo) (mkAS (await_suspend handle_of_coroutine a) Suspended todo)
| step_complete a c act todo a' c' :
    do_action act a c = (a', c') -> async_step (mkAS a c (act :: todo)) (mkAS a' c' todo).

(** Neither side can move. *)
Definition finished (s : async_state) : Prop :=
  todo s = [] /\ match who s with Suspended | Resumed _ => True | _ => False end.

(** ** Sleeping *)

Record SleepAwaiter := mkSleep { duration_ : Z }.   (* milliseconds *)

Definition sleep_ready (a : SleepAwaiter) : bool := duration_ a =? 0.

(** [std::this_thread::sleep_for] returns at once for a duration that is not positive. *)
Definition sleep_duration (ms : Z) : Z := Z.max 0 ms.

(** The time at which the awaiting coroutine goes on. *)
Definition sleep_resumes_at (now : Z) (a : SleepAwaiter) : Z :=
  if sleep_ready a then now else now + sleep_duration (duration_ a).

(** ** Waiting for a predicate *)

(** [predicate i] is what the [i]-th call answers. *)
Definition wait_until_ready (predicate : nat -> bool) : bool := predicate 0%nat.

(** The detached thread's loop: the index of the call that answered true. *)
Fixpoint poll (fuel : nat) (predicate : nat -> bool) (i : nat) : option nat :=
  match fuel with
  | O => None
  | S fuel => if predicate i then Some i else poll fuel predicate (S i)
  end.

(** [co_await wait_until(p)]: the call after which the coroutine goes on. *)
Definition wait_until (fuel : nat) (predicate : nat -> bool) : option nat :=
  if wait_until_ready predicate then Some 0%nat else poll fuel predicate 1.

(** ** What a completion delivers *)

Inductive completes : list action -> outcome (option T) -> Prop :=
| completes_result v : completes (set_result v) (Ret (Some v))
| completes_exception e : completes (set_exception e) (Throw e)
| completes_void : completes set_completed (Ret None).

(** The coroutine read the flag before it was stored and has not stored its
    handle when the completing thread has already looked for one. *)
Definition in_gap (s : async_state) : Prop := who s = NotReady /\ todo s = [].

Definition lost (s : async_state) : Prop :=
  finished s /\ who s = Suspended /\ ready_ (aw s) = true /\ continuation_ (aw s) = Some handle_of_coroutine.

(** What the completing thread has still to do, and what it has done by then. *)
Definition is_write (act : action) : bool :=
  match act with WriteResult _ | WriteException _ => true | _ => false end.

Definition progress (r : outcome (option T)) (a : AsyncAwaiter) (todo : list action) : Prop :=
  (exists act, is_write act = true /\ todo = [act; StoreReady; ResumeIfSet] /\ ready_ a = false /\
     await_resume (do_action act a AtAwait).1 = r) \/
  (todo = [StoreReady; ResumeIfSet] /\ ready_ a = false /\ await_resume a = r) \/
  ((todo = [ResumeIfSet] \/ todo = []) /\ ready_ a = true /\ await_resume a = r).

Definition async_inv (r : outcome (option T)) (s : async_state) : Prop :=
  progress r (aw s) (todo s) /\
  match who s with
  | AtAwait | NotReady => continuation_ (aw s) = None
  | Suspended => continuation_ (aw s) = Some handle_of_coroutine
  | Resumed r' => r' = r /\ (continuation_ (aw s) = None \/ todo s = [])
  end.

Lemma async_inv_new prog r : completes prog r -> async_inv r (async_new prog).
Proof. intros H. split; [|done]. destruct H as [v|e|]; [left; by exists (WriteResult v)|left; by exists (WriteException e)|by right; left]. Qed.

Lemma progress_ready r a todo : progress r a todo -> ready_ a = true -> await_resume a = r.
Proof. intros [(? & _ & _ & ? & _)|[(_ & ? & _)|(_ & _ & ?)]] ?; congruence. Qed.

Lemma progress_continuation r a todo k : progress r a todo ->
  progress r (mkAsync (ready_ a) k (result_ a) (exception_ a)) todo.
Proof.
  intros [(act & Hw & ? & ? & Hr)|H]; [left|right; exact H]. exists act. by destruct act.
Qed.

Lemma async_step_inv r s s' : async_inv r s -> async_step s s' -> async_inv r s'.
Proof.
  intros [Hp Hw] Hs. destruct Hs as [a todo|a todo|a c act todo a' c' E]; simpl in *.
  - split; [done|]. unfold await_ready. destruct (ready_ a) eqn:Er; [|done]. split; [|by left]. by eapply progress_ready.
  - split; [by apply progress_continuation|done].
  - destruct Hp as [(w & Hwr & [= -> ->] & Hf & Hr)|[([= -> ->] & Hf & Hr)|([[= -> ->]|[=]] & Ht & Hr)]].
    + assert (continuation_ a' = continuation_ a /\ c' = c /\ ready_ a' = false /\ await_resume a' = r) as (Ec & -> & ? & ?)
        by (destruct w; try done; injection E as <- <-; done).
      split; [by right; left|]. simpl. rewrite Ec. by destruct c as [| | |r']; intuition.
    + injection E as <- <-. split; [by right; right; auto|]. simpl. by destruct c as [| | |r']; intuition.
    + injection E as <- <-. split; [by right; right; auto|]. simpl. destruct c as [| | |r']; [by rewrite Hw..|rewrite Hw; auto|].
      destruct (continuation_ a); simpl; [auto|by intuition].
Qed.

(** States from which the coroutine is certainly resumed. *)
Definition resumes (s : async_state) : Prop :=
  (who s = Suspended /\ todo s <> []) \/ (who s = AtAwait /\ ready_ (aw s) = true) \/ (exists r, who s = Resumed r).

Lemma resumes_step r s s' : async_inv r s -> async_step s s' -> resumes s -> resumes s'.
Proof.
  intros [Hp Hw] Hs Hr. destruct Hs as [a todo|a todo|a c act todo a' c' E]; simpl in *.
  - destruct Hr as [[? _]|[[_ Ht]|[? ?]]]; try done. right; right. simpl in *. unfold await_ready. rewrite Ht. eauto.
  - by destruct Hr as [[? _]|[[? _]|[? ?]]].
  - unfold resumes. simpl in *. destruct Hr as [[Ec _]|[[Ec Ht]|[r' Ec]]]; simpl in *; subst c.
    + destruct Hp as [(w & Hwr & [= -> ->] & _)|[([= -> ->] & _)|([[= -> ->]|[=]] & _)]].
      * left. by destruct w; injection E as <- <-.
      * left. by injection E as <- <-.
      * right; right. injection E as <- <-. rewrite Hw. eauto.
    + right; left. destruct Hp as [(w & _ & _ & ? & _)|[(_ & ? & _)|([[= -> ->]|[=]] & _)]]; [congruence..|].
      injection E as <- <-. by rewrite Hw.
    + right; right. destruct act; injection E as _ <-; eauto. destruct (continuation_ a); eauto.
Qed.

Lemma steps_inv r s s' : async_inv r s -> rtc async_step s s' -> async_inv r s'.
Proof. intros H Hs. induction Hs; eauto using async_step_inv. Qed.

Lemma steps_resumes r s s' : async_inv r s -> rtc async_step s s' -> resumes s -> resumes s'.
Proof. intros H Hs. induction Hs; eauto using async_step_inv, resumes_step. Qed.

(** Every state can be driven to an end. *)
Lemma async_finishes s : exists s', rtc async_step s s' /\ finished s'.
Proof.
  destruct s as [a c todo]. revert a c. induction todo as [|act todo IH]; intros a c.
  - assert (Hn : forall a, exists s', rtc async_step (mkAS a NotReady []) s' /\ finished s').
    { intros b. eexists. split; [eapply rtc_once, step_suspend|by split]. }
    destruct c as [| | |r]; [|apply Hn|eexists; split; [apply rtc_refl|by split]..].
    destruct (await_ready a) eqn:Er.
    + eexists. split; [eapply rtc_once, step_check|]. rewrite Er. by split.
    + destruct (Hn a) as (s' & Hs & ?). exists s'. split; [|done]. eapply rtc_l; [apply step_check|]. by rewrite Er.
  - destruct (do_action act a c) as [a' c'] eqn:E. destruct (IH a' c') as (s' & ? & ?). exists s'. split; [|done].
    eapply rtc_l; [by apply step_complete|done].
Qed.

Lemma run_todo l : forall a, continuation_ a = None ->
  exists a', rtc async_step (mkAS a NotReady l) (mkAS a' NotReady []).
Proof.
  induction l as [|act l IH]; intros a Ek; [eexists; apply rtc_refl|].
  destruct (do_action act a NotReady) as [a1 c1] eqn:E.
  assert (c1 = NotReady /\ continuation_ a1 = None) as [-> Ek1].
  { destruct act; injection E as <- <-; simpl; by rewrite ?Ek. }
  destruct (IH a1) as [a' Ha']; [done|]. exists a'. eapply rtc_l; [by apply step_complete|done].
Qed.

Lemma gap_reachable prog r : completes prog r -> exists g, rtc async_step (async_new prog) g /\ in_gap g.
Proof.
  intros _. destruct (run_todo prog AsyncAwaiter_new) as [a' Ha']; [done|].
  eexists. split; [eapply rtc_l; [apply step_check|exact Ha']|by split].
Qed.

(** C25: an [AsyncAwaiter] loses the wake-up in exactly one window.  For each of the
    three completions, from every reachable state the two threads can run to an
    end, and at the end the coroutine was resumed with the completion's result or
    exception, or it sleeps for ever with the result stored.  The latter is what
    every run through the window ends in where the coroutine has seen the flag
    unset and the completing thread has looked for the handle before it is there;
    a handle stored before the look, and a flag stored before the check, always
    lead to a resumption.  The window is reachable. *)
Theorem async_awaiter_delivers prog r s :
  completes prog r -> rtc async_step (async_new prog) s ->
  (exists s', rtc async_step s s' /\ finished s') /\
  (forall s', rtc async_step s s' -> finished s' ->
     (who s' = Resumed r \/ lost s') /\ (in_gap s -> lost s') /\ (resumes s -> who s' = Resumed r)) /\
  exists g, rtc async_step (async_new prog) g /\ in_gap g.
Proof.
  intros Hc Hs. pose proof (steps_inv _ _ _ (async_inv_new _ _ Hc) Hs) as Hinv.
  assert (Hend : forall s', async_inv r s' -> finished s' -> who s' = Resumed r \/ lost s').
  { intros s' [Hp Hw] Hf. pose proof Hf as [Ht Hwho]. destruct (who s') as [| | |r'] eqn:Ew; try done.
    - right. split; [done|]. split_and!; [done| |done]. rewrite Ht in Hp.
      by destruct Hp as [(? & _ & [=] & _)|[([=] & _)|(_ & ? & _)]].
    - left. by destruct Hw as [-> _]. }
  split_and!.
  - apply async_finishes.
  - intros s' Hs' Hf. pose proof (steps_inv _ _ _ Hinv Hs') as Hinv'. split_and!; [by apply Hend| |].
    + intros [Hn Ht]. destruct (Hend s' Hinv' Hf) as [Hr|]; [|done]. exfalso.
      destruct Hs' as [|s s1 s2 H1 Hs']; [congruence|].
      destruct H1 as [|a todo|? ? ? ? ? ?]; simpl in *; [done| |done]. subst todo.
      inversion Hs' as [|? ? ? H2]; [by subst|]. inversion H2.
    + intros Hr. pose proof (steps_resumes _ _ _ Hinv Hs' Hr) as [[_ Hne]|[[Hat _]|[r' Hr']]].
      * by destruct Hf.
      * destruct Hf as [_ Hf]. by rewrite Hat in Hf.
      * destruct (Hend s' Hinv' Hf) as [|(_ & ? & _)]; [done|congruence].
  - by apply (gap_reachable prog r).
Qed.
End Async.

(** ** Polling *)

Lemma poll_first fuel predicate : forall i n,
  predicate (i + n)%nat = true -> (forall k, (k < n)%nat -> predicate (i + k)%nat = false) -> (n < fuel)%nat ->
  poll fuel predicate i = Some (i + n)%nat.
Proof.
  induction fuel as [|fuel IH]; intros i n Hn Hk Hf; [lia|]. simpl. destruct n as [|n].
  - rewrite Nat.add_0_r in *. by rewrite Hn.
  - specialize (Hk 0%nat) as H0. rewrite Nat.add_0_r in H0. rewrite H0 by lia.
    replace (i + S n)%nat with (S i + n)%nat in * by lia. apply IH; [done| |lia].
    intros k ?. specialize (Hk (S k)). replace (i + S k)%nat with (S i + k)%nat in Hk by lia. apply Hk. lia.
Qed.

Lemma poll_never fuel predicate : forall i, (forall k, predicate k = false) -> poll fuel predicate i = None.
Proof. induction fuel as [|fuel IH]; intros i H; simpl; [done|]. rewrite H. by apply IH. Qed.

(** Waiting for a predicate goes on at the first call that answers true, and
    never when none does: with the index of that call as fuel the loop finds it,
    every earlier call having answered false. *)
Theorem wait_until_first_true predicate n fuel :
  (predicate n = true -> (forall k, (k < n)%nat -> predicate k = false) -> (n <= fuel)%nat ->
   wait_until fuel predicate = Some n) /\
  ((forall k, predicate k = false) -> wait_until fuel predicate = None).
Proof.
  unfold wait_until, wait_until_ready. split.
  - intros Hn Hk Hf. destruct n as [|n]; [by rewrite Hn|]. rewrite (Hk 0%nat) by lia.
    apply (poll_first fuel predicate 1 n); [done| |lia]. intros k ?. apply Hk. lia.
  - intros H. rewrite H. by apply poll_never.
Qed.

(** ** Witnesses *)

Lemma async_awaiter_delivers_witness :
  let s := mkAS (mkAsync false None (Some 7) None) NotReady [StoreReady; ResumeIfSet] in
  (exists s', rtc async_step s s' /\ finished s') /\
  (forall s', rtc async_step s s' -> finished s' -> who s' = Resumed (Ret (Some 7)) \/ lost s').
Proof.
  intros s. destruct (async_awaiter_delivers (set_result 7) (Ret (Some 7)) s) as (H1 & H2 & _).
  - constructor.
  - eapply rtc_l; [apply step_check|]. eapply rtc_once, step_complete. reflexivity.
  - split; [exact H1|]. intros s' Hs Hf. by destruct (H2 s' Hs Hf).
Defined.

Lemma wait_until_first_true_witness : wait_until 5 (fun i => 3 <=? Z.of_nat i) = Some 3%nat.
Proof.
  apply (wait_until_first_true (fun i => 3 <=? Z.of_nat i) 3 5); [done| |lia].
  intros k ?. apply Z.leb_gt. lia.
Defined.
