(* ===== verification/TcpClient.v ===== *)
(** * net/tcp_client.hpp: the client over a connection or a connection pool

    The coroutine [Connection] operations of Connection.v run here against a
    process: [world] has the results of the coming [socket] and [connect] calls,
    the sockets that are connected to a peer, the descriptors opened, closed and
    refused so far, and the pool manager.  An operation returns [None] when its
    thread blocks in [ConnectionPool::acquire]. *)

From Stdlib Require Import ZArith Lia.
From S2P Require Import Prelude Buffer Awaitable Connection ConnectionPool.

Record TcpClientConfig := mkTcpClientConfig {
  tc_connect_timeout_ms : Z;
  tc_read_timeout_ms : Z;
  tc_write_timeout_ms : Z;
  auto_reconnect : bool;
  reconnect_delay_ms : Z;
  max_reconnect_attempts : Z;
  enable_connection_pool : bool;
  tc_pool_size : Z;
}.

Definition default_client_config : TcpClientConfig := mkTcpClientConfig 5000 30000 30000 true 1000 3 true 10.

Record TcpClient := mkClient {
  tc_config : TcpClientConfig;
  host_ : list Z;
  port_ : Z;
  connection_ : option Connection;
  pool_ : option nat;               (* shared_ptr: an index into the manager's store *)
  connected_ : bool;
}.

Definition TcpClient_new (config : TcpClientConfig) : TcpClient := mkClient config [] 0 None None false.

(** ** The process around the client *)

Record world := mkWorld {
  w_sockets : list Z;               (* results of the coming socket() calls; then failure *)
  w_connects : list (Z * socket);   (* results of the coming connects, with the peer behind; then refusal *)
  w_kernel : gmap Z socket;         (* descriptors connected to a peer *)
  w_opened : list Z;
  w_closed : list Z;
  w_refused : list Z;               (* descriptors whose connect failed *)
  w_slept : Z;                      (* milliseconds *)
  w_manager : PoolManager;
}.

(** What [send] and [recv] do on a socket that was never connected: EPIPE, ENOTCONN. *)
Definition unconnected : socket := mkSocket [Fail 107] [-32] [].

(** [::socket]: a new descriptor is not connected. *)
Definition socket_call (w : world) : Z * world :=
  match w_sockets w with
  | [] => (-1, w)
  | fd :: l =>
      (fd, mkWorld l (w_connects w) (if fd <? 0 then w_kernel w else delete fd (w_kernel w))
             (if fd <? 0 then w_opened w else w_opened w ++ [fd]) (w_closed w) (w_refused w) (w_slept w) (w_manager w))
  end.

(** [rpc::io::async_connect] on [fd]. *)
Definition connect_call (fd : Z) (w : world) : Z * world :=
  let '(ret, peer, l) := match w_connects w with [] => (-111, unconnected, []) | (r, s) :: l => (r, s, l) end in
  (ret, mkWorld (w_sockets w) l (if ret =? 0 then <[fd := peer]> (w_kernel w) else w_kernel w)
          (w_opened w) (w_closed w) (if ret =? 0 then w_refused w else w_refused w ++ [fd]) (w_slept w) (w_manager w)).

(** A connection operation on the descriptor's socket. *)
Definition conn_env (c : Connection) (w : world) : env :=
  mkEnv (default unconnected (w_kernel w !! fd_ c)) (w_closed w) 0.

Definition on_conn {A} (op : conn -> A * conn) (c : Connection) (w : world) : A * Connection * world :=
  let '(a, (c', e)) := op (c, conn_env c w) in
  (a, c', mkWorld (w_sockets w) (w_connects w) (alter (fun _ => sock e) (fd_ c) (w_kernel w))
            (w_opened w) (closed_fds e) (w_refused w) (w_slept w) (w_manager w)).

(** [connection_->close()], with [connection_] an owner. *)
Definition close_connection (c : Connection) (w : world) : outcome (Connection * world) :=
  let* '(c', e) := close true (c, conn_env c w) in
  Ret (c', mkWorld (w_sockets w) (w_connects w) (w_kernel w)
             (w_opened w) (closed_fds e) (w_refused w) (w_slept w) (w_manager w)).

(** The last [shared_ptr] to a connection goes away. *)
Definition drop_connection (o : option Connection) (w : world) : outcome world :=
  match o with
  | None => Ret w
  | Some c =>
      let* e := Connection_destroy (c, conn_env c w) in
      Ret (mkWorld (w_sockets w) (w_connects w) (w_kernel w)
             (w_opened w) (closed_fds e) (w_refused w) (w_slept w) (w_manager w))
  end.

Definition set_manager (m : PoolManager) (w : world) : world :=
  mkWorld (w_sockets w) (w_connects w) (w_kernel w) (w_opened w) (w_closed w) (w_refused w) (w_slept w) m.

Definition set_pool (i : nat) (p : ConnectionPool) (w : world) : world :=
  set_manager (mkManager (pools_ (w_manager w)) (<[i := p]> (store (w_manager w)))) w.

(** [co_await sleep(ms)]. *)
Definition sleep_ms (ms : Z) (w : world) : world :=
  mkWorld (w_sockets w) (w_connects w) (w_kernel w) (w_opened w) (w_closed w) (w_refused w) (sleep_resumes_at (w_slept w) (mkSleep ms)) (w_manager w).

(** ** Operations *)

Definition connect (host : list Z) (port : Z) (cl : TcpClient) (w : world) : outcome (bool * TcpClient * world) :=
  let config := tc_config cl in
  let cl := mkClient config host port (connection_ cl) (pool_ cl) (connected_ cl) in
  if enable_connection_pool config then
    let pool_config := mkPoolConfig (tc_pool_size config) 10 100 60000 (tc_connect_timeout_ms config) true 30000 in
    let '(i, m) := get_pool host port pool_config (w_manager w) in
    Ret (true, mkClient config host port (connection_ cl) (Some i) (connected_ cl), set_manager m w)
  else
    let '(fd, w) := socket_call w in
    if fd <? 0 then Ret (false, cl, w) else
    let c := Connection_create fd in
    let* w := drop_connection (connection_ cl) w in
    let '(ret, w) := connect_call fd w in
    let '(ok, (c, _)) := async_connect (-1) ret (c, conn_env c w) in
    Ret (ok, mkClient config host port (Some c) (pool_ cl) ok, w).

Definition disconnect (cl : TcpClient) (w : world) : outcome (TcpClient * world) :=
  let* w := match connection_ cl with
            | None => Ret w
            | Some c => let* '(c, w) := close_connection c w in drop_connection (Some c) w
            end in
  Ret (mkClient (tc_config cl) (host_ cl) (port_ cl) None None false, w).

Fixpoint reconnect_loop (attempts : nat) (cl : TcpClient) (w : world) : outcome (bool * TcpClient * world) :=
  match attempts with
  | O => Ret (false, cl, w)
  | S attempts =>
      let* '(ok, cl, w) := connect (host_ cl) (port_ cl) cl (sleep_ms (reconnect_delay_ms (tc_config cl)) w) in
      if (ok : bool) then Ret (true, cl, w) else reconnect_loop attempts cl w
  end.

Definition try_reconnect (cl : TcpClient) (w : world) : outcome (bool * TcpClient * world) :=
  reconnect_loop (Z.to_nat (max_reconnect_attempts (tc_config cl))) cl w.

(** [pool_->acquire()]: [None] waits for another thread. *)
Definition pool_acquire (i : nat) (w : world) : outcome (option (option pconn * world)) :=
  match store (w_manager w) !! i with
  | None => Undef
  | Some p =>
      match acquire_locked p with
      | (Acquired c, p) => Ret (Some (Some c, set_pool i p w))
      | (MayCreate, p) =>
          let '(fd, w) := socket_call (set_pool i p w) in
          let '(c, p) := acquire_create fd p in
          Ret (Some (c, set_pool i p w))
      | (MustWait, _) => Ret None
      end
  end.

(** [pool_->release(conn)]. *)
Definition pool_give_back (i : nat) (fd : Z) (c : Connection) (w : world) : outcome world :=
  match store (w_manager w) !! i with
  | None => Undef
  | Some p =>
      let '(_, closed, p) := pool_release (mkPconn fd (connected c)) p in
      let w := set_pool i p w in
      if (closed : bool) then let* '(_, w) := close_connection c w in Ret w else Ret w
  end.

Definition pooled_connection (c : pconn) : Connection :=
  mkConn (pc_fd c) (if pc_up c then Connected else Closed) false.

Definition set_connection (c : Connection) (cl : TcpClient) : TcpClient :=
  mkClient (tc_config cl) (host_ cl) (port_ cl) (Some c) (pool_ cl) (connected_ cl).

(** The body [send], [recv] and [send_all] share: [none] without a connection,
    [failed] decides whether to reconnect. *)
Definition client_op {A} (none : A) (failed : A -> bool) (op : conn -> A * conn) (cl : TcpClient) (w : world)
  : outcome (option (A * TcpClient * world)) :=
  match pool_ cl with
  | Some i =>
      let* acquired := pool_acquire i w in
      match acquired with
      | None => Ret None
      | Some (None, _) => Undef      (* conn-> on a null pointer *)
      | Some (Some c, w) =>
          let '(a, c', w) := on_conn op (pooled_connection c) w in
          let* w := pool_give_back i (pc_fd c) c' w in
          Ret (Some (a, cl, w))
      end
  | None =>
      match connection_ cl with
      | None => Ret (Some (none, cl, w))
      | Some c =>
          if negb (connected_ cl) then Ret (Some (none, cl, w)) else
          let '(a, c, w) := on_conn op c w in
          let cl := set_connection c cl in
          if failed a && auto_reconnect (tc_config cl) then
            let* '(_, cl, w) := try_reconnect cl w in Ret (Some (a, cl, w))
          else Ret (Some (a, cl, w))
      end
  end.

Definition send (data : list Z) : TcpClient -> world -> outcome (option (Z * TcpClient * world)) :=
  client_op (-1) (fun n => n <=? 0) (async_write data).

(** The result and the bytes stored at [buffer]. *)
Definition recv (size : Z) : TcpClient -> world -> outcome (option (Z * list Z * TcpClient * world)) :=
  client_op (-1, []) (fun r => r.1 <=? 0) (async_read size).

Definition send_all (data : list Z) : TcpClient -> world -> outcome (option (Z * TcpClient * world)) :=
  client_op 0 (fun n => n <? zlen data) (async_write_all data).

Definition request (data : list Z) (cl : TcpClient) (w : world) : outcome (option (list Z * TcpClient * world)) :=
  let* sent := send data cl w in
  match sent with
  | None => Ret None
  | Some (sent, cl, w) =>
      if sent <=? 0 then Ret (Some ([], cl, w)) else
      let* got := recv 4096 cl w in
      match got with
      | None => Ret None
      | Some (n, buffer, cl, w) => Ret (Some (if n <=? 0 then [] else take (Z.to_nat n) buffer, cl, w))
      end
  end.

(** ** Sequences of calls *)

Inductive client_call :=
| CConnect (host : list Z) (port : Z)
| CDisconnect
| CSend (data : list Z)
| CRecv (size : Z)
| CSendAll (data : list Z)
| CRequest (data : list Z).

Inductive call_result :=
| RConnect (ok : bool)
| RDisconnect
| RSend (n : Z)
| RRecv (n : Z) (bs : list Z)
| RSendAll (n : Z)
| RRequest (bs : list Z).

Definition tag {A} (f : A -> call_result) (o : outcome (option (A * TcpClient * world)))
  : outcome (option (call_result * TcpClient * world)) :=
  let* r := o in
  match r with
  | None => Ret None
  | Some (a, cl, w) => Ret (Some (f a, cl, w))
  end.

Definition do_call (call : client_call) (cl : TcpClient) (w : world)
  : outcome (option (call_result * TcpClient * world)) :=
  match call with
  | CConnect host port => let* '(ok, cl, w) := connect host port cl w in Ret (Some (RConnect ok, cl, w))
  | CDisconnect => let* '(cl, w) := disconnect cl w in Ret (Some (RDisconnect, cl, w))
  | CSend data => tag RSend (send data cl w)
  | CRecv size => tag (fun r => RRecv r.1 r.2) (recv size cl w)
  | CSendAll data => tag RSendAll (send_all data cl w)
  | CRequest data => tag RRequest (request data cl w)
  end.

Fixpoint do_calls (calls : list client_call) (cl : TcpClient) (w : world)
  : outcome (option (list call_result * TcpClient * world)) :=
  match calls with
  | [] => Ret (Some ([], cl, w))
  | call :: calls =>
      let* r := do_call call cl w in
      match r with
      | None => Ret None
      | Some (r, cl, w) =>
          let* rs := do_calls calls cl w in
          match rs with
          | None => Ret None
          | Some (rs, cl, w) => Ret (Some (r :: rs, cl, w))
          end
      end
  end.

(** ** Descriptors *)

Definition conn_live (c : Connection) : list Z := if connected c then [fd_ c] else [].

Definition live (cl : TcpClient) : list Z := match connection_ cl with Some c => conn_live c | None => [] end.

Lemma close_plain owned c e :
  close_callback_ c = false ->
  exists c' e', close owned (c, e) = Ret (c', e') /\ close_callback_ c' = false /\ connected c' = false /\
    closed_fds e' = closed_fds e ++ conn_live c.
Proof.
  intros Hcb. unfold close, conn_live, connected. rewrite Hcb.
  destruct (state_ c) eqn:E; eexists _, _; split; try reflexivity; simpl; rewrite ?E, ?app_nil_r; done.
Qed.

(** An operation keeps the descriptor or closes it, and adds no callback. *)
Definition frames {A} (op : conn -> A * conn) : Prop := forall x a x',
  close_callback_ x.1 = false -> op x = (a, x') ->
  close_callback_ x'.1 = false /\ closed_fds x'.2 ++ conn_live x'.1 = closed_fds x.2 ++ conn_live x.1.

Lemma handle_error_frames x :
  close_callback_ x.1 = false ->
  close_callback_ (handle_error x).1 = false /\
  closed_fds (handle_error x).2 ++ conn_live (handle_error x).1 = closed_fds x.2 ++ conn_live x.1.
Proof.
  destruct x as [c e]. intros Hcb. unfold handle_error.
  destruct (close_plain true c e Hcb) as (c' & e' & -> & Hc' & Hl & He). split; [done|]. simpl. rewrite He.
  unfold conn_live at 2. by rewrite Hl, app_nil_r.
Qed.

Lemma async_write_frames bs : frames (async_write bs).
Proof.
  intros [c e] a x' Hcb. unfold async_write. destruct (negb (connected c)); [by intros [= <- <-]|].
  destruct (os_send bs (sock e)) as [n s]. intros [= <- <-].
  destruct (n <=? 0); [|done]. by apply (handle_error_frames (c, with_sock e s)).
Qed.

Lemma async_read_frames size : frames (async_read size).
Proof.
  intros [c e] a x' Hcb. unfold async_read. destruct (negb (connected c)); [by intros [= <- <-]|].
  destruct (os_recv size (sock e)) as [[n bs] s]. intros [= <- <-].
  destruct (n <=? 0); [|done]. by apply (handle_error_frames (c, with_sock e s)).
Qed.

Lemma write_all_frames fuel bs : forall written, frames (write_all_loop fuel bs written).
Proof.
  induction fuel as [|fuel IH]; intros written x a x' Hcb; simpl; [by intros [= <- <-]|].
  destruct (_ && _); [|by intros [= <- <-]].
  destruct (async_write (drop (Z.to_nat written) bs) x) as [n x1] eqn:E.
  destruct (async_write_frames _ _ _ _ Hcb E) as [Hcb1 Hf].
  destruct (n <=? 0); [by intros [= <- <-]|]. intros E'. destruct (IH _ _ _ _ Hcb1 E') as [? ->]. done.
Qed.

Lemma async_write_all_frames bs : frames (async_write_all bs).
Proof. apply write_all_frames. Qed.

(** What a client that never uses the pool maintains. *)
Definition direct_inv (cl : TcpClient) (w : world) : Prop :=
  enable_connection_pool (tc_config cl) = false /\ pool_ cl = None /\
  (forall c, connection_ cl = Some c -> close_callback_ c = false) /\
  w_opened w ≡ₚ w_closed w ++ w_refused w ++ live cl.

Lemma on_conn_frames {A} (op : conn -> A * conn) c w a c' w' :
  frames op -> close_callback_ c = false -> on_conn op c w = (a, c', w') ->
  close_callback_ c' = false /\ w_closed w' ++ conn_live c' = w_closed w ++ conn_live c /\
  w_opened w' = w_opened w /\ w_refused w' = w_refused w.
Proof.
  intros Hop Hcb. unfold on_conn. destruct (op (c, conn_env c w)) as [b [c1 e1]] eqn:E. intros [= <- <- <-].
  destruct (Hop (c, conn_env c w) _ _ Hcb E) as [? Hf]. by split_and!.
Qed.

Lemma drop_connection_plain o w :
  (forall c, o = Some c -> close_callback_ c = false) ->
  exists w', drop_connection o w = Ret w' /\
    w_closed w' = w_closed w ++ (match o with Some c => conn_live c | None => [] end) /\
    w_opened w' = w_opened w /\ w_refused w' = w_refused w /\ w_slept w' = w_slept w /\
    w_connects w' = w_connects w /\ w_sockets w' = w_sockets w /\ w_kernel w' = w_kernel w.
Proof.
  destruct o as [c|]; intros Hcb; simpl; [|exists w; by rewrite app_nil_r].
  unfold Connection_destroy. destruct (close_plain false c (conn_env c w) (Hcb c eq_refl)) as (c' & e' & -> & _ & _ & He).
  eexists. split; [reflexivity|]. by split_and!.
Qed.

(** One connection attempt. *)
Lemma connect_direct host port cl w :
  direct_inv cl w ->
  exists ok cl' w', connect host port cl w = Ret (ok, cl', w') /\ direct_inv cl' w' /\
    tc_config cl' = tc_config cl.
Proof.
  intros (Hp & Hpool & Hcb & Hacc). unfold connect. rewrite Hp.
  destruct (socket_call w) as [fd w1] eqn:Es.
  assert (H1 : w_closed w1 = w_closed w /\ w_refused w1 = w_refused w /\
    w_opened w1 = w_opened w ++ (if fd <? 0 then [] else [fd])).
  { unfold socket_call in Es. destruct (w_sockets w) as [|fd0 l]; injection Es as <- <-; simpl;
      [by rewrite app_nil_r|]. destruct (fd0 <? 0); by rewrite ?app_nil_r. }
  destruct H1 as (Hc1 & Hr1 & Ho1). destruct (Z.ltb_spec fd 0) as [Hfd|Hfd].
  { eexists _, _, _. split; [reflexivity|]. split; [|done]. split_and!; [done..|].
    by rewrite Ho1, Hc1, Hr1, app_nil_r. }
  cbn [connection_]. destruct (drop_connection_plain (connection_ cl) w1 Hcb) as (w2 & -> & Hc2 & Ho2 & Hr2 & _).
  cbn [mbind outcome_bind]. unfold connect_call.
  destruct (match w_connects w2 with [] => _ | _ => _ end) as [[ret peer] l].
  unfold async_connect, connect_begin, connect_end, Connection_create. simpl. rewrite (proj2 (Z.ltb_ge fd 0)) by done.
  rewrite (proj2 (Z.ltb_ge fd 0)) by done.
  assert (Hperm : w_opened w2 ≡ₚ w_closed w2 ++ w_refused w2 ++ [fd]).
  { rewrite Ho2, Ho1, Hc2, Hr2, Hc1, Hr1, Hacc. fold (live cl). solve_Permutation. }
  destruct (Z.eqb_spec ret 0); (eexists _, _, _; split; [reflexivity|]; split; [|done]; split_and!;
    [done|done|by intros c [= <-]|]); unfold live, conn_live; simpl; [exact Hperm|].
  by rewrite app_nil_r.
Qed.

Lemma reconnect_direct n : forall cl w,
  direct_inv cl w ->
  exists ok cl' w', reconnect_loop n cl w = Ret (ok, cl', w') /\ direct_inv cl' w' /\ tc_config cl' = tc_config cl.
Proof.
  induction n as [|n IH]; intros cl w Hinv; simpl; [eauto 6|].
  destruct (connect_direct (host_ cl) (port_ cl) cl (sleep_ms (reconnect_delay_ms (tc_config cl)) w))
    as (ok & cl1 & w1 & -> & Hinv1 & Hcfg); [done|].
  simpl. destruct ok; [eauto 6|]. destruct (IH cl1 w1 Hinv1) as (ok & cl2 & w2 & -> & ? & ?).
  eexists _, _, _. split_and!; [done|done|congruence].
Qed.

Lemma client_op_direct {A} none failed (op : conn -> A * conn) cl w :
  frames op -> direct_inv cl w ->
  exists a cl' w', client_op none failed op cl w = Ret (Some (a, cl', w')) /\ direct_inv cl' w'.
Proof.
  intros Hop Hinv. pose proof Hinv as (Hp & Hpool & Hcb & Hacc). unfold client_op. rewrite Hpool.
  unfold live in Hacc. destruct (connection_ cl) as [c|] eqn:Ec; [|eauto 6]. destruct (negb (connected_ cl)); [eauto 6|].
  destruct (on_conn op c w) as [[a c1] w1] eqn:Eo.
  destruct (on_conn_frames _ _ _ _ _ _ Hop (Hcb c eq_refl) Eo) as (Hcb1 & Hf & Ho & Hr).
  assert (Hinv1 : direct_inv (set_connection c1 cl) w1).
  { split_and!; [done|done|by intros ? [= <-]|]. rewrite Ho, Hr, Hacc. unfold live. simpl.
    rewrite (Permutation_app_comm (w_refused w) (conn_live c)), (Permutation_app_comm (w_refused w) (conn_live c1)).
    by rewrite !app_assoc, Hf. }
  destruct (_ && _); [|eauto 6]. unfold try_reconnect.
  destruct (reconnect_direct (Z.to_nat (max_reconnect_attempts (tc_config (set_connection c1 cl)))) _ _ Hinv1)
    as (ok & cl2 & w2 & -> & ? & _). simpl. eauto 6.
Qed.

Lemma disconnect_direct cl w :
  direct_inv cl w -> exists cl' w', disconnect cl w = Ret (cl', w') /\ direct_inv cl' w'.
Proof.
  intros (Hp & Hpool & Hcb & Hacc). unfold disconnect, live in *. destruct (connection_ cl) as [c|].
  - unfold close_connection.
    destruct (close_plain true c (conn_env c w) (Hcb c eq_refl)) as (c' & e' & -> & Hcb' & Hl & He).
    cbn [mbind outcome_bind]. destruct (drop_connection_plain (Some c')
      (mkWorld (w_sockets w) (w_connects w) (w_kernel w) (w_opened w) (closed_fds e') (w_refused w) (w_slept w) (w_manager w)))
      as (w2 & -> & Hc2 & Ho2 & Hr2 & _); [by intros ? [= <-]|].
    eexists _, _. split; [reflexivity|]. split_and!; [done..|].
    rewrite Ho2, Hc2, Hr2. simpl. rewrite He, Hacc. unfold conn_live at 3. rewrite Hl. unfold live. simpl. solve_Permutation.
  - eexists _, _. split; [reflexivity|]. by split_and!.
Qed.

#[local] Hint Resolve async_write_frames async_read_frames async_write_all_frames : core.

Lemma do_call_direct call cl w :
  direct_inv cl w -> exists r cl' w', do_call call cl w = Ret (Some (r, cl', w')) /\ direct_inv cl' w'.
Proof.
  intros Hinv. destruct call as [host port| |data|size|data|data]; simpl.
  - destruct (connect_direct host port cl w Hinv) as (ok & cl' & w' & -> & ? & _). simpl. eauto 6.
  - destruct (disconnect_direct cl w Hinv) as (cl' & w' & -> & ?). simpl. eauto 6.
  - destruct (client_op_direct (-1) (fun n => n <=? 0) (async_write data) cl w) as (a & cl' & w' & E & ?); [done..|].
    unfold send. rewrite E. simpl. eauto 6.
  - destruct (client_op_direct (-1, []) (fun r => r.1 <=? 0) (async_read size) cl w) as (a & cl' & w' & E & ?); [done..|].
    unfold recv. rewrite E. simpl. eauto 6.
  - destruct (client_op_direct 0 (fun n => n <? zlen data) (async_write_all data) cl w) as (a & cl' & w' & E & ?); [done..|].
    unfold send_all. rewrite E. simpl. eauto 6.
  - unfold request.
    destruct (client_op_direct (-1) (fun n => n <=? 0) (async_write data) cl w) as (a & cl' & w' & E & Hinv'); [done..|].
    unfold send. rewrite E. simpl. destruct (a <=? 0); simpl; [eauto 6|].
    destruct (client_op_direct (-1, []) (fun r => r.1 <=? 0) (async_read 4096) cl' w') as ([n bs] & cl2 & w2 & E2 & ?); [done..|].
    unfold recv. rewrite E2. simpl. eauto 6.
Qed.

(** C34: without the pool, every sequence of calls completes, and afterwards each
    descriptor the client has opened was closed once, is the one of the live
    connection, or belongs to a connection attempt that failed: closing is exact,
    and failed attempts are the only leak. *)
Theorem descriptors_accounted calls config w :
  enable_connection_pool config = false -> w_opened w = [] -> w_closed w = [] -> w_refused w = [] ->
  exists rs cl' w', do_calls calls (TcpClient_new config) w = Ret (Some (rs, cl', w')) /\
    w_opened w' ≡ₚ w_closed w' ++ w_refused w' ++ live cl'.
Proof.
  intros Hp Ho Hc Hr. assert (Hinv : direct_inv (TcpClient_new config) w).
  { split_and!; [done|done|done|]. by rewrite Ho, Hc, Hr. }
  clear Ho Hc Hr. revert Hinv. generalize (TcpClient_new config) as cl. revert w.
  induction calls as [|call calls IH]; intros w cl Hinv; simpl; [destruct Hinv as (_ & _ & _ & ?); eauto 6|].
  destruct (do_call_direct call cl w Hinv) as (r & cl1 & w1 & -> & Hinv1). simpl.
  destruct (IH w1 cl1 Hinv1) as (rs & cl2 & w2 & -> & ?). simpl. eauto 6.
Qed.

(** ** Reconnecting *)

Lemma sleep_adds ms w : w_slept (sleep_ms ms w) = w_slept w + sleep_duration ms.
Proof.
  unfold sleep_ms, sleep_resumes_at, sleep_ready, sleep_duration. simpl. destruct (Z.eqb_spec ms 0); lia.
Qed.

(** A direct attempt whose [socket] call succeeds. *)
Lemma connect_attempt host port cl w fd fds ret peer conns :
  enable_connection_pool (tc_config cl) = false -> (forall c, connection_ cl = Some c -> close_callback_ c = false) ->
  w_sockets w = fd :: fds -> 0 <= fd -> w_connects w = (ret, peer) :: conns ->
  let c' := mkConn fd (if ret =? 0 then Connected else Disconnected) false in
  exists w', connect host port cl w
      = Ret (ret =? 0, mkClient (tc_config cl) host port (Some c') (pool_ cl) (ret =? 0), w') /\
    w_sockets w' = fds /\ w_connects w' = conns /\ w_slept w' = w_slept w /\
    w_refused w' = w_refused w ++ (if ret =? 0 then [] else [fd]) /\
    (ret = 0 -> w_kernel w' !! fd = Some peer).
Proof.
  intros Hp Hcb Hs Hfd Hc c'. unfold connect, socket_call. rewrite Hp, Hs.
  rewrite (proj2 (Z.ltb_ge fd 0)) by done. cbn [connection_].
  edestruct (drop_connection_plain (connection_ cl)) as (w2 & -> & _ & _ & Hr2 & Hsl2 & Hc2 & Hs2 & _); [exact Hcb|].
  cbn [mbind outcome_bind]. unfold connect_call. rewrite Hc2. simpl. rewrite Hc.
  unfold async_connect, connect_begin, connect_end, Connection_create. simpl. rewrite (proj2 (Z.ltb_ge fd 0)), (proj2 (Z.ltb_ge fd 0)) by done.
  subst c'. destruct (Z.eqb_spec ret 0) as [->|]; (eexists; split; [reflexivity|]); simpl; rewrite Hr2; split_and!; try done.
  - by rewrite app_nil_r.
  - intros _. apply lookup_insert_eq.
Qed.

Lemma reconnect_failing n : forall bad fds cl w socks conns,
  length fds = length bad -> Forall (Z.le 0) fds -> Forall (fun r => r.1 <> 0) bad ->
  enable_connection_pool (tc_config cl) = false -> (forall c, connection_ cl = Some c -> close_callback_ c = false) ->
  w_sockets w = fds ++ socks -> w_connects w = bad ++ conns ->
  exists cl' w', reconnect_loop (length bad + n) cl w = reconnect_loop n cl' w' /\
    tc_config cl' = tc_config cl /\ (forall c, connection_ cl' = Some c -> close_callback_ c = false) /\
    w_sockets w' = socks /\ w_connects w' = conns /\ connected_ cl' = (match bad with [] => connected_ cl | _ => false end) /\
    w_slept w' = w_slept w + zlen bad * sleep_duration (reconnect_delay_ms (tc_config cl)) /\
    w_refused w' = w_refused w ++ fds.
Proof.
  induction bad as [|[ret peer] bad IH]; intros [|fd fds] cl w socks conns Hl Hfds Hbad Hp Hcb Hs Hc; try done.
  { exists cl, w. simpl in *. rewrite app_nil_r. split_and!; try done; lia. }
  apply Forall_cons in Hfds as [Hfd Hfds]. apply Forall_cons in Hbad as [Hr Hbad]. simpl in Hr.
  cbn [length Nat.add reconnect_loop].
  destruct (connect_attempt (host_ cl) (port_ cl) cl (sleep_ms (reconnect_delay_ms (tc_config cl)) w)
    fd (fds ++ socks) ret peer (bad ++ conns)) as (w1 & -> & Hs1 & Hc1 & Hsl1 & Hr1 & _); [done..|].
  rewrite (proj2 (Z.eqb_neq ret 0)) in * by done. cbn [mbind outcome_bind].
  edestruct (IH fds (mkClient (tc_config cl) (host_ cl) (port_ cl) (Some (mkConn fd Disconnected false)) (pool_ cl) false)
    w1 socks conns) as (cl2 & w2 & -> & Hcfg & Hcb2 & Hs2 & Hc2 & Hn & Hsl2 & Hr2);
    [by injection Hl|done|done|done|by intros ? [= <-]|done|done|].
  exists cl2, w2. split_and!; [done|done|done|done|done| | |].
  - rewrite Hn. by destruct bad.
  - rewrite Hsl2, Hsl1, sleep_adds. cbn [length tc_config]. lia.
  - rewrite Hr2, Hr1, <- app_assoc. done.
Qed.

(** Reconnecting stops at the first attempt that succeeds and otherwise gives
    up after the configured number.  With [k] refusals before an acceptance and
    [k] below the limit it answers true after [k + 1] attempts and delays, on a
    connected descriptor with the accepting peer behind it; when the first
    [max_reconnect_attempts] are all refused it answers false with [connected()]
    false.  Either way the descriptor of every refused attempt stays open. *)
Theorem reconnect_first_success cl w bad fds socks conns :
  let config := tc_config cl in
  length fds = length bad -> Forall (Z.le 0) fds -> Forall (fun r => r.1 <> 0) bad ->
  enable_connection_pool config = false -> (forall c, connection_ cl = Some c -> close_callback_ c = false) ->
  w_sockets w = fds ++ socks -> w_connects w = bad ++ conns ->
  (forall fd socks' peer conns', socks = fd :: socks' -> 0 <= fd -> conns = (0, peer) :: conns' ->
     zlen bad < max_reconnect_attempts config ->
     exists cl' w', try_reconnect cl w = Ret (true, cl', w') /\
       connected_ cl' = true /\ connection_ cl' = Some (mkConn fd Connected false) /\ w_kernel w' !! fd = Some peer /\
       w_connects w' = conns' /\ w_slept w' = w_slept w + (zlen bad + 1) * sleep_duration (reconnect_delay_ms config) /\
       w_refused w' = w_refused w ++ fds) /\
  (zlen bad = max_reconnect_attempts config -> bad <> [] ->
     exists cl' w', try_reconnect cl w = Ret (false, cl', w') /\ connected_ cl' = false /\
       w_slept w' = w_slept w + zlen bad * sleep_duration (reconnect_delay_ms config) /\ w_refused w' = w_refused w ++ fds).
Proof.
  intros config Hl Hfds Hbad Hp Hcb Hs Hc. unfold try_reconnect. fold config.
  destruct (reconnect_failing 0 bad fds cl w socks conns) as (cl0 & w0 & E0 & _ & _ & _ & _ & Hn0 & Hsl0 & Hr0); [done..|].
  split.
  - intros fd socks' peer conns' -> Hfd -> Hmax.
    destruct (reconnect_failing (Z.to_nat (max_reconnect_attempts config) - length bad) bad fds cl w (fd :: socks')
      ((0, peer) :: conns')) as (cl1 & w1 & E1 & Hcfg & Hcb1 & Hs1 & Hc1 & _ & Hsl1 & Hr1); [done..|].
    replace (length bad + _)%nat with (Z.to_nat (max_reconnect_attempts config)) in E1 by lia. rewrite E1.
    destruct (Z.to_nat (max_reconnect_attempts config) - length bad)%nat as [|m] eqn:Em; [lia|].
    cbn [reconnect_loop].
    destruct (connect_attempt (host_ cl1) (port_ cl1) cl1 (sleep_ms (reconnect_delay_ms (tc_config cl1)) w1)
      fd socks' 0 peer conns') as (w2 & -> & _ & Hc2 & Hsl2 & Hr2 & Hk2); [by rewrite ?Hcfg..|].
    cbn [mbind outcome_bind]. change (0 =? 0) with true. cbn iota.
    eexists _, _. split; [reflexivity|]. split_and!; [done|done|by apply Hk2|done| |].
    + rewrite Hsl2, sleep_adds, Hsl1, Hcfg. unfold config. lia.
    + rewrite Hr2. simpl. by rewrite Hr1, app_nil_r.
  - intros Hmax Hne. rewrite <- Hmax, Nat2Z.id. rewrite Nat.add_0_r in E0. rewrite E0. simpl.
    eexists _, _. split; [reflexivity|]. split_and!; [by rewrite Hn0; destruct bad|done|done].
Qed.

(** ** The pool *)

Section Pooled.
Variable size : Z.
Hypothesis Hsize : 1 <= size < 2 ^ 64.

(** A pool between the calls of one thread. *)
Definition pool_ok (p : ConnectionPool) : Prop :=
  max_connections (pool_config_ p) = size /\ max_idle (pool_config_ p) = 100 /\
  active_connections_ p = 0 /\ total_connections_ p = zlen (idle_connections_ p) /\
  (idle_connections_ p = [] \/ exists c, idle_connections_ p = [c] /\ pc_up c = true).

Definition pooled_inv (n : nat) (cl : TcpClient) (w : world) : Prop :=
  (enable_connection_pool (tc_config cl) = true /\ tc_pool_size (tc_config cl) = size) /\
  (connection_ cl = None /\ connected_ cl = false) /\ w_kernel w = ∅ /\
  Forall pool_ok (store (w_manager w)) /\
  (forall k i, pools_ (w_manager w) !! k = Some i -> (i < length (store (w_manager w)))%nat) /\
  (forall i, pool_ cl = Some i -> (i < length (store (w_manager w)))%nat) /\
  (Forall (Z.le 0) (w_sockets w) /\ (n <= length (w_sockets w))%nat).

(** [acquire] finds the idle connection or makes one. *)
Lemma acquire_ok n cl i w :
  pooled_inv (S n) cl w -> pool_ cl = Some i ->
  exists c p p' w', store (w_manager w) !! i = Some p /\ pool_ok p /\
    pool_acquire i w = Ret (Some (Some c, w')) /\ pc_up c = true /\
    p' = mkPool (pool_config_ p) [] 1 1 /\
    w_manager w' = mkManager (pools_ (w_manager w)) (<[i := p']> (store (w_manager w))) /\
    w_kernel w' = ∅ /\ Forall (Z.le 0) (w_sockets w') /\ (n <= length (w_sockets w'))%nat.
Proof.
  intros (_ & _ & Hk & Hst & _ & Hi & Hs & Hn) Hpool. specialize (Hi i Hpool).
  destruct (lookup_lt_is_Some_2 _ _ Hi) as [p Ep]. pose proof (proj1 (Forall_lookup _ _) Hst i p Ep) as Hp.
  unfold pool_acquire. rewrite Ep. destruct p as [cfg idle tot act].
  destruct Hp as (Hmax & Hmi & Ha & Ht & Hidle). simpl in *. subst act tot.
  destruct Hidle as [->|(c & -> & Hc)]; unfold acquire_locked; cbn [idle_connections_ pop_live].
  - change (zlen []) with 0. cbn [total_connections_ pool_config_ active_connections_].
    rewrite (proj2 (Z.ltb_lt _ _)) by lia. unfold socket_call. simpl.
    destruct (w_sockets w) as [|fd l]; simpl in Hn; [lia|]. apply Forall_cons in Hs as [Hfd Hs].
    unfold acquire_create, create_connection. rewrite (proj2 (Z.ltb_ge fd 0)) by done. simpl.
    eexists _, _, _, _. split_and!; try reflexivity; try done.
    + split_and!; auto.
    + unfold set_pool, set_manager. simpl. by rewrite list_insert_insert_eq.
    + simpl. by rewrite Hk, delete_empty.
    + simpl. lia.
  - rewrite Hc. eexists _, _, _, _. split_and!; try reflexivity; try done; [split_and!; eauto|simpl; lia].
Qed.

(** [release] restores the pool, whatever became of the connection. *)
Lemma give_back_ok i fd c w p :
  store (w_manager w) !! i = Some (mkPool (pool_config_ p) [] 1 1) -> pool_ok p -> close_callback_ c = false ->
  exists p' w', pool_give_back i fd c w = Ret w' /\ pool_ok p' /\
    w_manager w' = mkManager (pools_ (w_manager w)) (<[i := p']> (store (w_manager w))) /\
    w_kernel w' = w_kernel w /\ w_sockets w' = w_sockets w.
Proof.
  intros Ep (Hmax & Hmi & _) Hcb. unfold pool_give_back. rewrite Ep. unfold pool_release. cbn [pc_up idle_connections_ pool_config_].
  rewrite Hmi. change (zlen [] <? 100) with true. rewrite andb_true_r. destruct (connected c) eqn:Ec.
  - eexists _, _. split; [reflexivity|]. split; [|by split_and!]. split_and!; try done. right. eauto.
  - unfold close_connection. edestruct (close_plain true c) as (c' & e' & -> & _); [done|]. simpl.
    eexists _, _. split; [reflexivity|]. split; [|by split_and!]. split_and!; try done. by left.
Qed.

Lemma client_op_pooled {A} (P : A -> Prop) none failed (op : conn -> A * conn) n cl w :
  frames op -> P none ->
  (forall c e, close_callback_ c = false -> sock e = unconnected -> P (op (c, e)).1) ->
  pooled_inv (S n) cl w ->
  exists a w', client_op none failed op cl w = Ret (Some (a, cl, w')) /\ P a /\ pooled_inv n cl w'.
Proof.
  intros Hop Hnone HP Hinv. pose proof Hinv as (H1 & (Hc & H2) & Hk & Hst & Hpm & Hi & Hs & Hn).
  unfold client_op. destruct (pool_ cl) as [i|] eqn:Epool.
  2:{ rewrite Hc. eexists _, _. split_and!; [done|done|]. unfold pooled_inv. rewrite Epool. split_and!; done || lia || by destruct H1. }
  destruct (acquire_ok n cl i w Hinv Epool) as (c & p & p' & w1 & Ep & Hp & -> & Hup & -> & Hm1 & Hk1 & Hs1 & Hn1).
  cbn [mbind outcome_bind]. destruct (on_conn op (pooled_connection c) w1) as [[a c'] w2] eqn:Eo.
  destruct (on_conn_frames op (pooled_connection c) w1 a c' w2 Hop eq_refl Eo) as (Hcb & _).
  assert (HPa : P a).
  { pose proof (HP (pooled_connection c) (conn_env (pooled_connection c) w1) eq_refl) as HPc.
    unfold on_conn in Eo. destruct (op _) as [b [c1 e1]] in Eo, HPc. injection Eo as <- _ _. apply HPc.
    unfold conn_env. simpl. by rewrite Hk1, lookup_empty. }
  assert (H2w : w_manager w2 = w_manager w1 /\ w_kernel w2 = ∅ /\ w_sockets w2 = w_sockets w1).
  { unfold on_conn in Eo. destruct (op _) as [b [c1 e1]]. injection Eo as _ _ <-. simpl. split_and!; [done| |done].
    rewrite Hk1. apply alter_empty. }
  destruct H2w as (Hm2 & Hk2 & Hs2).
  destruct (give_back_ok i (pc_fd c) c' w2 p) as (p' & w3 & -> & Hp' & Hm3 & Hk3 & Hs3); [|done|done|].
  { rewrite Hm2, Hm1. simpl. apply list_lookup_insert_eq. by apply lookup_lt_is_Some_1. }
  cbn [mbind outcome_bind]. exists a, w3. split_and!; [done|done|].
  unfold pooled_inv. rewrite Epool, Hm3, Hm2, Hm1, Hk3, Hs3, Hs2. cbn [store pools_]. rewrite !length_insert, list_insert_insert_eq.
  split_and!; done || (by apply Forall_insert) || by destruct H1.
Qed.

(** A socket that was never connected transfers nothing. *)
Lemma unconnected_write bs c e : sock e = unconnected -> (async_write bs (c, e)).1 <= 0.
Proof. intros E. unfold async_write. destruct (negb (connected c)); [done|]. by rewrite E. Qed.

Lemma unconnected_read k c e :
  sock e = unconnected -> (async_read k (c, e)).1.1 <= 0 /\ (async_read k (c, e)).1.2 = [].
Proof. intros E. unfold async_read. destruct (negb (connected c)); [done|]. by rewrite E. Qed.

Lemma unconnected_write_all bs c e : sock e = unconnected -> (async_write_all bs (c, e)).1 = 0.
Proof.
  intros E. unfold async_write_all. cbn [write_all_loop fst]. destruct (_ && _); [|done]. change (drop (Z.to_nat 0) bs) with bs.
  pose proof (unconnected_write bs c e E) as Hw. destruct (async_write bs (c, e)) as [n x]. simpl in Hw.
  simpl. by rewrite (proj2 (Z.leb_le n 0)).
Qed.

Definition no_transfer (r : call_result) : Prop :=
  match r with
  | RConnect _ | RDisconnect => True
  | RSend n => n <= 0
  | RRecv n bs => n <= 0 /\ bs = []
  | RSendAll n => n = 0
  | RRequest bs => bs = []
  end.

Lemma connect_pooled n host port cl w :
  pooled_inv (S n) cl w -> exists cl' w', connect host port cl w = Ret (true, cl', w') /\ pooled_inv n cl' w'.
Proof.
  intros ((Hen & Hsz) & (Hc & Hcd) & Hk & Hst & Hpm & Hi & Hs & Hn). unfold connect. rewrite Hen. unfold get_pool.
  destruct (pools_ (w_manager w) !! pool_key host port) as [i|] eqn:Ek; (eexists _, _; split; [reflexivity|]).
  - split_and!; simpl; try done; [|lia]. intros j [= <-]. by eapply Hpm.
  - split_and!; simpl; try done; rewrite ?length_app; simpl; [| | |lia].
    + apply Forall_app. split; [done|]. repeat constructor; done.
    + intros k j. rewrite lookup_insert_Some. intros [[_ <-]|[_ Hj%Hpm]]; lia.
    + intros j [= <-]. lia.
Qed.

Ltac answer := eexists _, _, _; split; [reflexivity|]; by split.

Lemma do_call_pooled n call cl w :
  pooled_inv (S n) cl w ->
  exists r cl' w', do_call call cl w = Ret (Some (r, cl', w')) /\ no_transfer r /\ pooled_inv n cl' w'.
Proof.
  intros Hinv. destruct call as [host port| |data|k|data|data]; cbn [do_call].
  - destruct (connect_pooled n host port cl w Hinv) as (cl' & w' & -> & ?). simpl. answer.
  - unfold disconnect. destruct Hinv as (? & (-> & _) & ? & ? & ? & _ & ? & ?). simpl.
    eexists _, _, _. split; [reflexivity|]. split; [done|]. split_and!; done || lia || intuition.
  - destruct (client_op_pooled (fun a => a <= 0) (-1) (fun n => n <=? 0) (async_write data) n cl w)
      as (a & w' & E & ? & ?); [done|done|by intros; apply unconnected_write|done|].
    unfold send. rewrite E. simpl. answer.
  - destruct (client_op_pooled (fun a => a.1 <= 0 /\ a.2 = []) (-1, []) (fun r => r.1 <=? 0) (async_read k) n cl w)
      as (a & w' & E & ? & ?); [done|done|by intros; apply unconnected_read|done|].
    unfold recv. rewrite E. simpl. answer.
  - destruct (client_op_pooled (fun a => a = 0) 0 (fun n => n <? zlen data) (async_write_all data) n cl w)
      as (a & w' & E & ? & ?); [done|done|by intros; apply unconnected_write_all|done|].
    unfold send_all. rewrite E. simpl. answer.
  - destruct (client_op_pooled (fun a => a <= 0) (-1) (fun n => n <=? 0) (async_write data) n cl w)
      as (a & w' & E & Ha & ?); [done|done|by intros; apply unconnected_write|done|].
    unfold request, send. rewrite E. simpl. rewrite (proj2 (Z.leb_le a 0)) by done. simpl. answer.
Qed.
End Pooled.

(** With the pool enabled, which is the default, the client never transfers a
    byte: the pool's sockets are never connected.  For every sequence of calls,
    with a socket available for each, every call returns, [connect] answers true,
    every send and receive fails, every request gives the empty string, and
    [connected()] is false to the end. *)
Theorem pool_mode_never_transfers calls config w :
  enable_connection_pool config = true -> 1 <= tc_pool_size config < 2 ^ 64 ->
  w_manager w = mkManager ∅ [] -> w_kernel w = ∅ ->
  Forall (Z.le 0) (w_sockets w) -> (length calls <= length (w_sockets w))%nat ->
  exists rs cl' w', do_calls calls (TcpClient_new config) w = Ret (Some (rs, cl', w')) /\
    Forall no_transfer rs /\ connected_ cl' = false /\ w_kernel w' = ∅.
Proof.
  intros Hen Hsz Hm Hk Hs Hl.
  assert (Hinv : pooled_inv (tc_pool_size config) (length calls) (TcpClient_new config) w).
  { unfold pooled_inv. rewrite Hm. by split_and!. }
  clear Hm Hk Hs Hl. revert Hinv. generalize (TcpClient_new config) as cl. revert w.
  induction calls as [|call calls IH]; intros w cl Hinv; simpl.
  { destruct Hinv as (_ & (_ & ?) & ? & _). eauto 8. }
  destruct (do_call_pooled _ Hsz _ call cl w Hinv) as (r & cl1 & w1 & -> & Hr & Hinv1). simpl.
  destruct (IH w1 cl1 Hinv1) as (rs & cl2 & w2 & -> & ? & ? & ?). simpl. eauto 8.
Qed.

(** ** Requests *)

(** An operation that succeeds on the live connection. *)
Lemma client_op_healthy {A} none failed (op : conn -> A * conn) cl w c s a s' :
  pool_ cl = None -> connection_ cl = Some c -> connected_ cl = true -> w_kernel w !! fd_ c = Some s ->
  op (c, mkEnv s (w_closed w) 0) = (a, (c, mkEnv s' (w_closed w) 0)) -> failed a = false ->
  exists w', client_op none failed op cl w = Ret (Some (a, set_connection c cl, w')) /\
    w_kernel w' !! fd_ c = Some s' /\ w_closed w' = w_closed w.
Proof.
  intros Hp Hc Hcd Hk Hop Hf. unfold client_op, on_conn, conn_env. rewrite Hp, Hc, Hcd, Hk. cbn [negb].
  change (from_option id unconnected (Some s)) with s. rewrite Hop, Hf. eexists. split; [reflexivity|].
  simpl. by rewrite lookup_alter_eq, Hk.
Qed.

Lemma healthy_write data c s closed k room :
  connected c = true -> sk_room s = k :: room -> 0 < k -> data <> [] ->
  async_write data (c, mkEnv s closed 0) =
    (Z.min k (zlen data), (c, mkEnv (mkSocket (sk_in s) room (sk_out s ++ take (Z.to_nat k) data)) closed 0)).
Proof.
  intros Hc Hr Hk Hd. unfold async_write, os_send. rewrite Hc. cbn [negb sock]. rewrite Hr, (proj2 (Z.leb_gt k 0)) by done.
  assert (0 < zlen data) by (destruct data; [done|simpl; lia]).
  rewrite (proj2 (Z.leb_gt (Z.min k (zlen data)) 0)) by lia. unfold with_sock. cbn [closed_fds callbacks].
  replace (take (Z.to_nat k) data) with (take (Z.to_nat (Z.min k (zlen data))) data); [done|].
  destruct (Z.le_gt_cases k (zlen data)); [by rewrite Z.min_l|].
  rewrite Z.min_r by lia. rewrite !take_ge; [done|lia..].
Qed.

Lemma healthy_read size c s closed bs evs :
  connected c = true -> sk_in s = Data bs :: evs -> bs <> [] -> 0 < size ->
  exists s', async_read size (c, mkEnv s closed 0)
      = (zlen (take (Z.to_nat size) bs), take (Z.to_nat size) bs, (c, mkEnv s' closed 0)) /\
    sk_out s' = sk_out s /\ in_bytes (sk_in s') = drop (Z.to_nat size) bs ++ in_bytes evs /\
    0 < zlen (take (Z.to_nat size) bs) /\
    (drop (Z.to_nat size) bs <> [] -> sk_in s' = Data (drop (Z.to_nat size) bs) :: evs).
Proof.
  intros Hc Hi Hb Hs. assert (Hl : 0 < zlen (take (Z.to_nat size) bs)).
  { rewrite length_take. destruct bs; [done|]. cbn [length]. lia. }
  unfold async_read, os_recv. rewrite Hc. cbn [negb sock]. rewrite Hi. destruct bs as [|b bs]; [done|]. cbn [recv_from].
  rewrite (proj2 (Z.leb_gt _ 0)) by done. unfold with_sock. cbn [closed_fds callbacks]. eexists. split; [reflexivity|].
  cbn [sk_out sk_in]. split_and!; [done| |done|]; by destruct (decide (drop _ _ = [])) as [->|].
Qed.

(** A request on a healthy connection sends as much as one [send] accepts and
    returns the next segment of the stream up to 4096 bytes: when the kernel
    accepts [k] of the bytes, the peer gets those [k], and the rest is dropped
    while the client waits for the answer. *)
Theorem request_one_send_one_recv data cl w c s k room bs evs :
  pool_ cl = None -> connection_ cl = Some c -> connected_ cl = true -> connected c = true ->
  w_kernel w !! fd_ c = Some s -> sk_room s = k :: room -> 0 < k -> data <> [] ->
  sk_in s = Data bs :: evs -> bs <> [] ->
  let sent := take (Z.to_nat k) data in
  exists cl' w', request data cl w = Ret (Some (take 4096 bs, cl', w')) /\
    connection_ cl' = Some c /\
    exists s', w_kernel w' !! fd_ c = Some s' /\ sk_out s' = sk_out s ++ sent /\
      in_bytes (sk_in s') = drop 4096 bs ++ in_bytes evs.
Proof.
  intros Hpool Hc Hcd Hup Hk Hroom Hk0 Hd Hin Hbs sent.
  assert (Hd0 : 0 < zlen data) by (destruct data; [done|cbn [length]; lia]).
  unfold request, send.
  edestruct (client_op_healthy (-1) (fun n => n <=? 0) (async_write data) cl w c s) as (w1 & -> & Hk1 & Hcl1);
    [done..|by eapply healthy_write|apply Z.leb_gt; lia|].
  cbn [mbind outcome_bind]. rewrite (proj2 (Z.leb_gt _ 0)) by lia. unfold recv.
  edestruct (healthy_read 4096 c (mkSocket (sk_in s) room (sk_out s ++ sent)) (w_closed w1) bs evs)
    as (s2 & Er & Ho & Hi2 & Hp & _); [done..|].
  edestruct (client_op_healthy (-1, []) (fun r => r.1 <=? 0) (async_read 4096) (set_connection c cl) w1 c)
    as (w2 & -> & Hk2 & _); [done..|exact Hk1|exact Er|by apply Z.leb_gt|].
  cbn [mbind outcome_bind]. rewrite (proj2 (Z.leb_gt _ 0)) by done.
  rewrite Nat2Z.id, firstn_all. eexists _, w2. split; [reflexivity|]. split; [done|]. by exists s2.
Qed.

(** ** Witnesses *)

Definition direct_config : TcpClientConfig := mkTcpClientConfig 5000 30000 30000 true 1000 3 false 10.

(** A process with two refusals and then a peer that answers. *)
Definition sample_peer : socket := mkSocket [Data (bytes_of_string "pong")] [2] [].

Definition sample_world : world :=
  mkWorld [3; 4; 5; 6] [(-111, unconnected); (-111, unconnected); (0, sample_peer)] ∅ [] [] [] 0 (mkManager ∅ []).

Lemma descriptors_accounted_witness :
  exists rs cl' w', do_calls [CConnect [] 80; CConnect [] 80; CConnect [] 80; CRequest [1; 2; 3]; CDisconnect]
      (TcpClient_new direct_config) sample_world = Ret (Some (rs, cl', w')) /\
    w_opened w' ≡ₚ w_closed w' ++ w_refused w' ++ live cl'.
Proof. by apply descriptors_accounted. Defined.

Lemma reconnect_first_success_witness :
  exists cl' w', try_reconnect (TcpClient_new direct_config) sample_world = Ret (true, cl', w') /\
    connection_ cl' = Some (mkConn 5 Connected false) /\ w_slept w' = 3000 /\ w_refused w' = [3; 4].
Proof.
  destruct (reconnect_first_success (TcpClient_new direct_config) sample_world
    [(-111, unconnected); (-111, unconnected)] [3; 4] [5; 6] [(0, sample_peer)]) as [H _];
    [done|compute_done|by repeat constructor|done..|].
  destruct (H 5 [6] sample_peer []) as (cl' & w' & E & _ & Hc & _ & _ & Hs & Hr); [done..|].
  exists cl', w'. split_and!; [exact E|exact Hc|exact Hs|exact Hr].
Defined.

Lemma pool_mode_never_transfers_witness :
  exists rs cl' w', do_calls [CConnect [] 80; CSend [1]; CRequest [1; 2]]
      (TcpClient_new default_client_config) sample_world = Ret (Some (rs, cl', w')) /\
    Forall no_transfer rs /\ connected_ cl' = false /\ w_kernel w' = ∅.
Proof. apply pool_mode_never_transfers; try done; [compute_done|simpl; lia]. Defined.

Lemma request_one_send_one_recv_witness :
  let c := mkConn 5 Connected false in
  let cl := mkClient direct_config [] 80 (Some c) None true in
  let w := mkWorld [] [] {[5 := sample_peer]} [5] [] [] 0 (mkManager ∅ []) in
  exists cl' w', request [1; 2; 3] cl w = Ret (Some (take 4096 (bytes_of_string "pong"), cl', w')) /\
    connection_ cl' = Some c /\
    exists s', w_kernel w' !! 5 = Some s' /\ sk_out s' = [1; 2] /\ in_bytes (sk_in s') = drop 4096 (bytes_of_string "pong") ++ [].
Proof.
  intros c cl w. apply (request_one_send_one_recv [1; 2; 3] cl w c sample_peer 2 [] (bytes_of_string "pong") []); done.
Defined.
