(* ===== verification/TcpServer.v ===== *)
(** * net/tcp_server.hpp: accepting connections

    [accept_one] is what an accept coroutine does with an accepted descriptor;
    accept loops, handler coroutines and the owner's calls interleave as steps,
    handlers using the operations of Connection.v.  A connection counts in
    [connections_] until its close callback runs.

    The steps of [net_step] are those of a server whose spawned coroutines, and the
    lambdas they were called on, stay alive while they are suspended, as the code
    means them to.  [EventLoop::spawn] does not keep them: Serving.v has the server
    as it is. *)

From Stdlib Require Import ZArith Lia.
From S2P Require Import Prelude Connection.

Record TcpServerConfig := mkTcpConfig {
  host : list Z;
  port : Z;
  backlog : Z;
  reuse_addr : bool;
  reuse_port : bool;
  max_connections : Z;
  read_timeout_ms : Z;
  write_timeout_ms : Z;
  enable_metrics : bool;
}.

Definition default_tcp_config : TcpServerConfig :=
  mkTcpConfig (bytes_of_string "0.0.0.0") 8080 128 true true 100000 30000 30000 true.

(** The [setsockopt] calls of [apply_socket_options] on the listening socket. *)
Inductive listen_opt := SO_REUSEADDR (opt : Z) | SO_REUSEPORT (opt : Z).

Definition listen_options (config : TcpServerConfig) : list listen_opt :=
  (if reuse_addr config then [SO_REUSEADDR 1] else []) ++ (if reuse_port config then [SO_REUSEPORT 1] else []).

Record TcpServer := mkTcp {
  config_ : TcpServerConfig;
  listen_fd_ : Z;
  running_ : bool;
  connection_handler_ : bool;    (* a handler is set *)
  connections_ : Z;
  total_accepted_ : Z;
  total_bytes_read_ : Z;
  total_bytes_written_ : Z;
}.

Definition TcpServer_new (config : TcpServerConfig) : TcpServer := mkTcp config (-1) false false 0 0 0 0.

Definition set_connection_handler (handler : bool) (s : TcpServer) : TcpServer :=
  mkTcp (config_ s) (listen_fd_ s) (running_ s) handler (connections_ s) (total_accepted_ s)
    (total_bytes_read_ s) (total_bytes_written_ s).

Definition set_listening (fd : Z) (run : bool) (s : TcpServer) : TcpServer :=
  mkTcp (config_ s) fd run (connection_handler_ s) (connections_ s) (total_accepted_ s)
    (total_bytes_read_ s) (total_bytes_written_ s).

Definition set_counts (n total : Z) (s : TcpServer) : TcpServer :=
  mkTcp (config_ s) (listen_fd_ s) (running_ s) (connection_handler_ s) n total
    (total_bytes_read_ s) (total_bytes_written_ s).

(** [start]: [fd], [bind_ok] and [listen_ok] are the results of the three system
    calls; [failure] is an exception of [accept_loop], which has queued its
    coroutine when the wake-up of the event loop fails (the global ring cannot be
    set up, its queue is full, the submission is refused).  The result or the
    exception, whether a coroutine is queued, the descriptors closed, and the
    server. *)
Definition start (fd : Z) (bind_ok listen_ok : bool) (failure : option string) (s : TcpServer)
  : outcome bool * bool * list Z * TcpServer :=
  if running_ s then (Ret true, false, [], s)
  else if fd <? 0 then (Ret false, false, [], set_listening fd false s)
  else if negb bind_ok then (Ret false, false, [fd], set_listening (-1) false s)
  else if negb listen_ok then (Ret false, false, [fd], set_listening (-1) false s)
  else (match failure with None => Ret true | Some e => Throw e end, true, [], set_listening fd true s).

Definition stop (s : TcpServer) : list Z * TcpServer :=
  if running_ s then
    if 0 <=? listen_fd_ s then ([listen_fd_ s], set_listening (-1) false s)
    else ([], set_listening (listen_fd_ s) false s)
  else ([], s).

Inductive accept_result :=
| NotAccepted             (* accept failed: continue *)
| Refused (fd : Z)        (* over the limit: ::close(client_fd) *)
| Accepted (c : Connection) (handled : bool).

(** The accept loop's body after its await, with the accept's result. *)
Definition accept_one (client_fd : Z) (s : TcpServer) : accept_result * TcpServer :=
  if client_fd <? 0 then (NotAccepted, s)
  else if max_connections (config_ s) <=? connections_ s then (Refused client_fd, s)
  else (Accepted (Connection_create client_fd) (connection_handler_ s),
        set_counts (u64 (connections_ s + 1)) (u64 (total_accepted_ s + 1)) s).

(** The close callback [handle_connection] sets. *)
Definition on_close (s : TcpServer) : TcpServer :=
  set_counts (u64 (connections_ s - 1)) (total_accepted_ s) s.

(** ** The server with its coroutines *)

(** An accept coroutine is about to test [running_], or suspended in its
    accept; one that found [running_] false is gone. *)
Inductive acceptor := AtTest | InAccept.

(** [handled]: connections whose handler coroutine runs, with their
    environments; [dropped]: how many were accepted without a handler, whose
    object is destroyed at once. *)
Record net_sys := mkNet { tcp : TcpServer; acceptors : list acceptor; handled : list conn; dropped : Z }.

Definition close_count (x x' : conn) : Z := callbacks x'.2 - callbacks x.2.

(** Running [on_close] for the callbacks an operation made. *)
Definition after_close (n : Z) (s : TcpServer) : TcpServer :=
  Nat.iter (Z.to_nat n) on_close s.

(** What a handler does with its connection. *)
Inductive conn_op : conn -> conn -> Prop :=
| op_read size x : conn_op x (async_read size x).2
| op_write bs x : conn_op x (async_write bs x).2
| op_close x x' : close true x = Ret x' -> conn_op x x'.

Inductive net_step : net_sys -> net_sys -> Prop :=
| net_start n fd bind_ok listen_ok failure r spawned fds s :
    start fd bind_ok listen_ok failure (tcp n) = (r, spawned, fds, s) ->
    net_step n (mkNet s (if spawned : bool then AtTest :: acceptors n else acceptors n) (handled n) (dropped n))
| net_stop n :
    net_step n (mkNet (stop (tcp n)).2 (acceptors n) (handled n) (dropped n))
| net_set_handler n b :
    net_step n (mkNet (set_connection_handler b (tcp n)) (acceptors n) (handled n) (dropped n))
| net_test n l1 l2 : acceptors n = l1 ++ AtTest :: l2 ->
    net_step n (mkNet (tcp n) (l1 ++ (if running_ (tcp n) then [InAccept] else []) ++ l2) (handled n) (dropped n))
| net_accept n l1 l2 fd r s e : acceptors n = l1 ++ InAccept :: l2 -> accept_one fd (tcp n) = (r, s) ->
    closed_fds e = [] -> callbacks e = 0 ->
    net_step n
      match r with
      | Accepted c true => mkNet s (l1 ++ AtTest :: l2) ((set_close_callback c, e) :: handled n) (dropped n)
      | Accepted _ false => mkNet s (l1 ++ AtTest :: l2) (handled n) (dropped n + 1)
      | _ => mkNet s (l1 ++ AtTest :: l2) (handled n) (dropped n)
      end
| net_op n l1 x l2 x' : handled n = l1 ++ x :: l2 -> conn_op x x' ->
    net_step n (mkNet (after_close (close_count x x') (tcp n)) (acceptors n) (l1 ++ x' :: l2) (dropped n))
| net_finish n l1 x l2 x' : handled n = l1 ++ x :: l2 -> close true x = Ret x' ->
    net_step n (mkNet (after_close (close_count x x') (tcp n)) (acceptors n) (l1 ++ l2) (dropped n)).

Definition net_reach (config : TcpServerConfig) (n : net_sys) : Prop :=
  rtc net_step (mkNet (TcpServer_new config) [] [] 0) n.

(** ** Counting *)

(** Connections of running handlers that have not been closed yet. *)
Definition live (l : list conn) : Z := zlen (filter (fun x => connected x.1 = true) l).

(** A handled connection has its callback and runs it when it leaves state
    [Connected]. *)
Definition hooked (x : conn) : Prop := close_callback_ x.1 = true.

Lemma close_hooked x x' :
  hooked x -> close true x = Ret x' ->
  hooked x' /\ close_count x x' = (if connected x.1 then 1 else 0) /\ connected x'.1 = false.
Proof.
  destruct x as [c e]. unfold hooked, close, close_count, connected. simpl. intros Hh.
  rewrite Hh. destruct (state_ c) eqn:Es; intros [= <-]; simpl; rewrite ?Es; split_and!; done || lia.
Qed.

Lemma handle_error_hooked x :
  hooked x -> connected x.1 = true ->
  hooked (handle_error x) /\ close_count x (handle_error x) = 1 /\ connected (handle_error x).1 = false.
Proof.
  intros Hh Hc. unfold handle_error. destruct (close true x) as [x'| |] eqn:E.
  - destruct (close_hooked x x' Hh E) as (? & Hcc & ?). by rewrite Hc in Hcc.
  - destruct x as [c e]. unfold hooked, close in *. simpl in *. rewrite Hh in E. by destruct (state_ c).
  - destruct x as [c e]. unfold hooked, close in *. simpl in *. rewrite Hh in E. by destruct (state_ c).
Qed.

(** An I/O operation either leaves the connection as it was or closes it. *)
Definition io_effect (x x' : conn) : Prop :=
  hooked x' /\
  ((close_count x x' = 0 /\ connected x'.1 = connected x.1) \/
   (close_count x x' = 1 /\ connected x.1 = true /\ connected x'.1 = false)).

Lemma read_effect size x : hooked x -> io_effect x (async_read size x).2.
Proof.
  intros Hh. destruct x as [c e]. unfold async_read. destruct (connected c) eqn:Hc; cbn [negb].
  2:{ split; [done|]. left. split; [unfold close_count; simpl; lia|done]. }
  destruct (os_recv size (sock e)) as [[n bs] s]. cbn [snd]. destruct (n <=? 0).
  - destruct (handle_error_hooked (c, with_sock e s)) as (? & ? & ?); [done|done|]. split; [done|]. right. done.
  - split; [done|]. left. split; [unfold close_count; simpl; lia|done].
Qed.

Lemma write_effect bs x : hooked x -> io_effect x (async_write bs x).2.
Proof.
  intros Hh. destruct x as [c e]. unfold async_write. destruct (connected c) eqn:Hc; cbn [negb].
  2:{ split; [done|]. left. split; [unfold close_count; simpl; lia|done]. }
  destruct (os_send bs (sock e)) as [n s]. cbn [snd]. destruct (n <=? 0).
  - destruct (handle_error_hooked (c, with_sock e s)) as (? & ? & ?); [done|done|]. split; [done|]. right. done.
  - split; [done|]. left. split; [unfold close_count; simpl; lia|done].
Qed.

Lemma live_middle l1 x l2 :
  live (l1 ++ x :: l2) = live (l1 ++ l2) + (if connected x.1 then 1 else 0).
Proof.
  unfold live. rewrite !filter_app, filter_cons, !length_app. destruct (connected x.1) eqn:E.
  - rewrite decide_True by done. simpl. lia.
  - rewrite decide_False by done. lia.
Qed.

Definition net_inv (config : TcpServerConfig) (n : net_sys) : Prop :=
  config_ (tcp n) = config /\ Forall hooked (handled n) /\ 0 <= dropped n /\
  connections_ (tcp n) = live (handled n) + dropped n /\
  connections_ (tcp n) <= max_connections config.

Lemma after_close_fields k s :
  (k = 0 \/ k = 1) -> 0 <= connections_ s - k -> connections_ s < 2 ^ 64 ->
  config_ (after_close k s) = config_ s /\ connections_ (after_close k s) = connections_ s - k.
Proof.
  intros [-> | ->] H0 Hb; unfold after_close; simpl; [split; [done|lia]|].
  by rewrite wrap_small by (unfold is_u; lia).
Qed.

Lemma conn_op_effect x x' : hooked x -> conn_op x x' -> io_effect x x'.
Proof.
  intros Hh Ho. destruct Ho as [size x|bs x|x x' Ec]; [by apply read_effect|by apply write_effect|].
  destruct (close_hooked x x' Hh Ec) as (? & Hc & Hx). split; [done|].
  destruct (connected x.1) eqn:E; [right|left]; split; congruence || done.
Qed.

Lemma live_nonneg l : 0 <= live l.
Proof. unfold live. lia. Qed.

Lemma op_step_inv config n l1 x x' l2 :
  max_connections config < 2 ^ 64 -> net_inv config n -> handled n = l1 ++ x :: l2 -> io_effect x x' ->
  net_inv config (mkNet (after_close (close_count x x') (tcp n)) (acceptors n) (l1 ++ x' :: l2) (dropped n)).
Proof.
  intros Hm (Hc & Hh & Hd & Hn & Hle) El [Hh' He]. rewrite El in *. rewrite live_middle in Hn.
  pose proof (live_nonneg (l1 ++ l2)).
  assert (Hk : close_count x x' = 0 \/ close_count x x' = 1) by (destruct He as [[-> _]|[-> _]]; auto).
  assert (Hl : (if connected x'.1 then 1 else 0) = (if connected x.1 then 1 else 0) - close_count x x').
  { destruct He as [[-> ->]|(-> & -> & ->)]; lia. }
  destruct (after_close_fields (close_count x x') (tcp n)) as [Ec Ek]; [done| |lia|].
  { destruct (connected x'.1), (connected x.1); lia. }
  unfold net_inv. cbn [tcp handled dropped]. rewrite Ec, Ek, live_middle. split_and!; try done; try lia.
  apply Forall_app in Hh as [? [? ?]%Forall_cons]. apply Forall_app. by repeat constructor.
Qed.

Lemma finish_step_inv config n l1 x x' l2 :
  max_connections config < 2 ^ 64 -> net_inv config n -> handled n = l1 ++ x :: l2 -> close true x = Ret x' ->
  net_inv config (mkNet (after_close (close_count x x') (tcp n)) (acceptors n) (l1 ++ l2) (dropped n)).
Proof.
  intros Hm (Hc & Hh & Hd & Hn & Hle) El Ecl. rewrite El in *.
  pose proof Hh as [Hh1 [Hx Hh2]%Forall_cons]%Forall_app.
  destruct (close_hooked x x' Hx Ecl) as (_ & Hcc & _). rewrite live_middle in Hn.
  pose proof (live_nonneg (l1 ++ l2)).
  destruct (after_close_fields (close_count x x') (tcp n)) as [Ec Ek];
    [rewrite Hcc; destruct (connected x.1); auto|lia|lia|].
  unfold net_inv. cbn [tcp handled dropped]. rewrite Ec, Ek. split_and!; try done; [by apply Forall_app|lia|].
  destruct (connected x.1); lia.
Qed.

Lemma accept_step_inv config n fd r s e ls :
  0 <= max_connections config < 2 ^ 64 -> net_inv config n -> accept_one fd (tcp n) = (r, s) ->
  net_inv config
    match r with
    | Accepted c true => mkNet s ls ((set_close_callback c, e) :: handled n) (dropped n)
    | Accepted _ false => mkNet s ls (handled n) (dropped n + 1)
    | _ => mkNet s ls (handled n) (dropped n)
    end.
Proof.
  intros Hm (Hc & Hh & Hd & Hn & Hle) Ha. unfold accept_one in Ha. pose proof (live_nonneg (handled n)).
  destruct (Z.ltb_spec fd 0) as [|Hfd]; [by injection Ha as <- <-|]. rewrite Hc in Ha.
  destruct (Z.leb_spec (max_connections config) (connections_ (tcp n))); injection Ha as <- <-; [done|].
  assert (El : live ((set_close_callback (Connection_create fd), e) :: handled n) = live (handled n) + 1).
  { etrans; [exact (live_middle [] _ (handled n))|]. simpl. unfold connected, Connection_create. simpl.
    by rewrite (proj2 (Z.leb_le 0 fd)) by done. }
  destruct (connection_handler_ (tcp n)); unfold net_inv; simpl; rewrite wrap_small by (unfold is_u; lia).
  - rewrite El. split_and!; try done; try lia. by constructor.
  - split_and!; try done; lia.
Qed.

Lemma net_step_inv config n n' :
  0 <= max_connections config < 2 ^ 64 -> net_inv config n -> net_step n n' -> net_inv config n'.
Proof.
  intros Hm Hi Hst. pose proof Hi as (_ & Hh & _).
  destruct Hst as [n fd bo lo fl r sp fds s Hs|n|n b|n l1 l2 _|n l1 l2 fd r s e _ Ha _ _|n l1 x l2 x' El Ho
                  |n l1 x l2 x' El Ec].
  - unfold start in Hs. destruct (running_ (tcp n)), (fd <? 0), bo, lo; injection Hs as <- <- <- <-; done.
  - unfold stop. by destruct (running_ (tcp n)), (0 <=? listen_fd_ (tcp n)).
  - done.
  - done.
  - by apply (accept_step_inv config n fd r s e).
  - apply op_step_inv; try done; [lia|]. apply conn_op_effect; [|done].
    rewrite El in Hh. by apply Forall_app in Hh as [_ [? _]%Forall_cons].
  - apply finish_step_inv; done || lia.
Qed.

(** The server's connection count is right and bounded, if spawned coroutines
    stay alive: through every
    interleaving of start and stop, accepts, reads, writes and closes of any
    number of handlers, [active_connections()] is the number of open connections
    of running handlers plus the connections accepted without a handler (which
    are never counted down), and never exceeds [max_connections]. *)
Theorem connection_count_bounded config n :
  0 <= max_connections config < 2 ^ 64 -> net_reach config n ->
  connections_ (tcp n) = live (handled n) + dropped n /\
  0 <= connections_ (tcp n) <= max_connections config.
Proof.
  intros Hm Hr. assert (Hi : net_inv config n).
  { unfold net_reach in Hr. revert Hr. apply (rtc_ind_r (net_inv config)); [|by eauto using net_step_inv].
    unfold net_inv. simpl. split_and!; done || lia || constructor. }
  destruct Hi as (_ & _ & Hd & Hn & Hle). pose proof (live_nonneg (handled n)). split_and!; [done|lia..].
Qed.

Definition sample_config : TcpServerConfig := mkTcpConfig [] 8080 128 true true 2 30000 30000 true.

Lemma connection_count_bounded_witness :
  let n := mkNet (mkTcp sample_config 3 true true 1 1 0 0) [AtTest]
             [(set_close_callback (Connection_create 7), sample_env [] [])] 0 in
  connections_ (tcp n) = live (handled n) + dropped n /\ 0 <= connections_ (tcp n) <= 2.
Proof.
  intros n. apply (connection_count_bounded sample_config n); [simpl; lia|].
  eapply rtc_l; [apply (net_set_handler _ true)|].
  eapply rtc_l; [by eapply (net_start _ 3 true true None)|].
  eapply rtc_l; [by apply (net_test _ [] [])|].
  apply rtc_once. by apply (net_accept (mkNet (mkTcp sample_config 3 true true 0 0 0 0) [InAccept] [] 0) [] [] 7
                        (Accepted (Connection_create 7) true) (mkTcp sample_config 3 true true 1 1 0 0)
                        (sample_env [] [])).
Defined.
