(* ===== verification/Serving.v ===== *)
(** * A TCP server on its event loop

    TcpServer.v describes the accept loop as if its coroutine stayed alive.  Here
    [TcpServer::start] runs on the event loop, the ring and the coroutine frames
    as they are: [accept_loop] calls the coroutine on a lambda that is one of its
    locals and hands it to [EventLoop::spawn], which posts a callable that starts
    it; [post] wakes the loop with a nop; [run_once] runs the callables, popping
    each one after it ran, and then the completions.  The coroutine is lazy: its
    body runs, and reads [running_] through the lambda, when the loop starts it.

    The callables of the loop are the tasks they own; a callback of the ring is
    the coroutine it resumes, or None for the empty lambda of [wakeup].  The loop
    has no timers here and its submissions are accepted.  [rest fd] is the accept
    loop's body after its first await.

    [keep] is false in the code.  With true, the lambdas outlive [accept_loop], as
    a repair of that alone would have it. *)

From Stdlib Require Import ZArith Lia.
From S2P Require Import Prelude Task Concurrency EventLoop IoUring TcpServer.

Section Serving.
Context {V E : Type} (rest : Z -> coro V E) (done : V).
Implicit Types (h : heap V E) (b : coro V E) (r : IoUring (option nat)).

Record program := mkProgram {
  pg_ring : IoUring (option nat);
  pg_heap : heap V E;
  pg_pending : list nat;        (* pending_tasks_: each owns a task *)
  pg_closures : gset nat;       (* tasks whose lambda is alive *)
  pg_tcp : TcpServer;
}.
Implicit Types (p : program).

(** [spawn]: the task is moved into the callable, which is posted; an exception
    of the wake-up leaves it. *)
Definition loop_spawn (err : option Z) (i : nat) p : outcome program :=
  let* (r : IoUring (option nat)) := EventLoop.wakeup None err (pg_ring p) in
  Ret (mkProgram r (pg_heap p) (pg_pending p ++ [i]) (pg_closures p) (pg_tcp p)).

(** The body of [accept_loop]'s coroutine up to its first await, on its lambda;
    [captured] is what the lambda's [this] points to, None once it is destroyed. *)
Definition accept_task (captured : option TcpServer) : outcome (coro V E) :=
  match captured with
  | None => Undef
  | Some s => Ret (if running_ s then co_io rest else co_return done)
  end.

(** [accept_loop]: the lambda is destroyed on return.  The frame's body is put
    into it by [first_resume]. *)
Definition accept_loop (keep : bool) (err : option Z) p : outcome program :=
  let '(i, h) := call_coroutine (co_return done) (pg_heap p) in
  let* p := loop_spawn err i (mkProgram (pg_ring p) h (pg_pending p) ({[i]} ∪ pg_closures p) (pg_tcp p)) in
  Ret (if keep then p
       else mkProgram (pg_ring p) (pg_heap p) (pg_pending p) (pg_closures p ∖ {[i]}) (pg_tcp p)).

(** [TcpServer::start] with [accept_loop]; [err] is a failure of its submission. *)
Definition serve_start (keep : bool) (fd : Z) (bind_ok listen_ok : bool) (err : option Z) p : outcome (bool * program) :=
  let '(ok, spawned, _, s) := TcpServer.start fd bind_ok listen_ok None (pg_tcp p) in
  let p := mkProgram (pg_ring p) (pg_heap p) (pg_pending p) (pg_closures p) s in
  let* p := if spawned : bool then accept_loop keep err p else Ret p in
  let* (ok : bool) := ok in Ret (ok, p).

(** Control is back at the loop; a coroutine that suspended awaits an accept on
    [lfd].  Too little fuel counts as undefined. *)
Definition suspend_in_accept (fuel : nat) (lfd : Z) (c : Task.config (V := V) (E := E)) r
  : outcome (IoUring (option nat) * heap V E) :=
  match Task.run fuel c with
  | Some (Ret (h, Waiting l, _)) =>
      let* (r : IoUring (option nat)) := IoUring.await_suspend None (Some l) (AsyncAcceptAwaiter lfd 0) r in Ret (r, h)
  | Some (Ret (h, _, _)) => Ret (r, h)
  | Some (Throw e) => Throw e
  | Some Undef | None => Undef
  end.

(** [task->start()] on a lazy accept coroutine: the body begins. *)
Definition first_resume (closures : gset nat) (s : TcpServer) (i : nat) h : outcome (Task.config (V := V) (E := E)) :=
  let* b := accept_task (if decide (i ∈ closures) then Some s else None) in
  Task.start i [] (mkHeap (alter (fun f => mkFrame (promise f) (at_start b)) i (frames h)) (next h)).

(** [process_tasks]: each callable starts its task and is popped, which destroys
    the only [shared_ptr] to it. *)
Fixpoint run_tasks (fuel : nat) (closures : gset nat) (s : TcpServer) (tasks : list nat) r h
  : outcome (IoUring (option nat) * heap V E) :=
  match tasks with
  | [] => Ret (r, h)
  | i :: tasks =>
      let* c := first_resume closures s i h in
      let* (x : IoUring (option nat) * heap V E) := suspend_in_accept fuel (listen_fd_ s) c r in
      run_tasks fuel closures s tasks x.1 (destroy i x.2)
  end.

(** The callbacks. *)
Definition serve_callback (fuel : nat) (lfd : Z) (cb : option nat) (res flags : Z) (s : IoUring (option nat) * heap V E)
  : outcome (IoUring (option nat) * heap V E) :=
  match cb with
  | None => Ret s
  | Some l =>
      let* (y : heap V E * coro V E) := Task.resume l res s.2 in
      suspend_in_accept fuel lfd (y.1, Run l y.2, []) s.1
  end.

(** [EventLoop::run_once]; None: the ring's own loop ran out of fuel. *)
Definition loop_round (fuel : nat) (ms : Z) p : outcome (option program) :=
  let* (x : IoUring (option nat) * heap V E) :=
    run_tasks fuel (pg_closures p) (pg_tcp p) (pg_pending p) (pg_ring p) (pg_heap p) in
  let* y := IoUring.run_once (serve_callback fuel (listen_fd_ (pg_tcp p))) fuel None ms x in
  match y with
  | Some (_, (r, h)) => Ret (Some (mkProgram r h [] (pg_closures p) (pg_tcp p)))
  | None => Ret None
  end.

Definition kernel_completes (i : nat) (res flags : Z) p : program :=
  mkProgram (complete i res flags (pg_ring p)) (pg_heap p) (pg_pending p) (pg_closures p) (pg_tcp p).

(** A program with a new ring, a new event loop and a new server. *)
Definition program_new (depth : Z) (config : TcpServerConfig) : program :=
  mkProgram (mkRing depth [] [] [] ∅ 1 true) (mkHeap ∅ 0) [] ∅ (TcpServer_new config).

(** What happens while the server runs: rounds of the loop and completions. *)
Inductive serve_op := SRound (ms : Z) | SComplete (i : nat) (res flags : Z).

Fixpoint serve_run (fuel : nat) (ops : list serve_op) p : outcome (option program) :=
  match ops with
  | [] => Ret (Some p)
  | SRound ms :: ops =>
      let* (q : option program) := loop_round fuel ms p in
      match q with Some q => serve_run fuel ops q | None => Ret None end
  | SComplete i res flags :: ops => serve_run fuel ops (kernel_completes i res flags p)
  end.

Definition is_round (op : serve_op) : bool := match op with SRound _ => true | _ => false end.

(** ** The first round *)

(** Before the loop's first round only the kernel acts; that round starts the
    coroutine, whose lambda is gone. *)
Lemma dead_closure_run fuel ops : forall p i tasks,
  pg_pending p = i :: tasks -> i ∉ pg_closures p -> existsb is_round ops = true -> serve_run fuel ops p = Undef.
Proof.
  induction ops as [|[ms|j res fl] ops IH]; intros p i tasks Hp Hi Hr; [done| |].
  - cbn [serve_run]. unfold loop_round. rewrite Hp. cbn [run_tasks]. unfold first_resume.
    by rewrite decide_False.
  - simpl in Hr. cbn [serve_run]. by apply (IH _ i tasks).
Qed.

(** ** The first accept *)

(** The user data in the ring: 0 for the loop's timeouts, 1 for the nop, 2 for the
    accept, whose coroutine no longer exists. *)
Definition doomed_ring r : Prop :=
  sq r = [] /\ 0 < queue_depth r /\ callbacks_ r !! 1 = Some None /\ callbacks_ r !! 2 = Some (Some 0%nat) /\
  Forall (fun e => (sqe_user_data e = 0 \/ sqe_user_data e = 1 \/ sqe_user_data e = 2) /\
                   (forall fd flags, sqe_op e = OpAccept fd flags -> sqe_user_data e = 2)) (inflight r) /\
  Forall (fun c => cqe_user_data c = 0 \/ cqe_user_data c = 1 \/ cqe_user_data c = 2) (cq r).

Definition accept_pending r : Prop :=
  2 ∈ (sqe_user_data <$> inflight r) ++ (cqe_user_data <$> cq r).

Definition doomed p : Prop :=
  doomed_ring (pg_ring p) /\ accept_pending (pg_ring p) /\ frames (pg_heap p) = ∅ /\ pg_pending p = [].

Lemma doomed_cqe fuel lfd c r h :
  doomed_ring r -> frames h = ∅ -> (cqe_user_data c = 0 \/ cqe_user_data c = 1 \/ cqe_user_data c = 2) ->
  process_cqe (serve_callback fuel lfd) c (r, h) =
  if cqe_user_data c =? 2 then Undef else Ret (cqe_seen r, h).
Proof.
  intros (_ & _ & H1 & H2 & _) Hh Hc. unfold process_cqe, get_callback. cbn [fst].
  destruct Hc as [Hc|[Hc|Hc]]; rewrite Hc; cbn -[callbacks_]; [done|by rewrite H1|]. rewrite H2. simpl.
  unfold resume. by rewrite Hh, lookup_empty.
Qed.

Lemma doomed_seen r c cs : doomed_ring r -> cq r = c :: cs -> doomed_ring (cqe_seen r).
Proof.
  intros (Hs & Hq & H1 & H2 & Hi & Hc) E'. rewrite E' in Hc. apply Forall_cons in Hc as [_ Hc].
  unfold doomed_ring. simpl. rewrite E'. by split_and!.
Qed.

(** Taking all completions: undefined as soon as the accept's is among them. *)
Lemma doomed_process fuel lfd h k : forall n m r,
  doomed_ring r -> frames h = ∅ -> length (cq r) = k -> (k < n)%nat ->
  (2 ∈ (cqe_user_data <$> cq r) -> process_all_loop (serve_callback fuel lfd) n m (r, h) = Undef) /\
  (2 ∉ (cqe_user_data <$> cq r) -> exists m' r',
     process_all_loop (serve_callback fuel lfd) n m (r, h) = Ret (Some (m', (r', h))) /\
     doomed_ring r' /\ inflight r' = inflight r /\ cq r' = []).
Proof.
  induction k as [|k IH]; intros [|n] m r Hd Hh Hl Hn; try lia; cbn [process_all_loop fst]; destruct (cq r) as [|c cs] eqn:Hcq; try done.
  - split; [by intros ?%elem_of_nil|]. intros _. by exists m, r.
  - pose proof Hd as (_ & _ & _ & _ & _ & Hc). rewrite Hcq in Hc. apply Forall_cons in Hc as [Hc _].
    rewrite (doomed_cqe fuel lfd c r h Hd Hh Hc). rewrite fmap_cons, elem_of_cons.
    destruct (Z.eqb_spec (cqe_user_data c) 2) as [E2|Ne]; [split; [done|intros Hn2; destruct Hn2; by left]|].
    cbn [mbind outcome_bind]. pose proof (doomed_seen r c cs Hd Hcq) as Hd'.
    destruct (IH n (u32 (m + 1)) (cqe_seen r) Hd' Hh) as [Hin Hout]; [simpl; rewrite Hcq; simpl in *; lia|lia|].
    simpl in Hin, Hout. rewrite Hcq in Hin, Hout. cbn [tail] in Hin, Hout. split.
    + intros [?|Hi]; [congruence|]. by apply Hin.
    + intros Hni. apply Hout. intros Hi. apply Hni. by right.
Qed.

Lemma doomed_timeout ms r :
  doomed_ring r -> doomed_ring (waiting_ring ms r) /\ cq (waiting_ring ms r) = cq r /\
    (accept_pending r -> accept_pending (waiting_ring ms r)).
Proof.
  intros Hd. pose proof Hd as (Hs & Hq & H1 & H2 & Hi & Hc). unfold waiting_ring, submit_wait_timeout, sqe_free. rewrite Hs.
  rewrite (proj2 (Z.ltb_lt (zlen []) _)), andb_true_r by (simpl; lia). destruct (0 <=? ms); [|done].
  simpl. rewrite Hs. split_and!; [|done|].
  - unfold doomed_ring. simpl. split_and!; try done. apply Forall_app. split; [done|].
    apply Forall_singleton. simpl. split; [by left|done].
  - unfold accept_pending. simpl. rewrite fmap_app, !elem_of_app. tauto.
Qed.

(** A round of the loop. *)
Lemma doomed_round fuel ms p :
  doomed p -> (length (cq (pg_ring p)) < fuel)%nat ->
  (2 ∈ (cqe_user_data <$> cq (pg_ring p)) -> loop_round fuel ms p = Undef) /\
  (2 ∉ (cqe_user_data <$> cq (pg_ring p)) ->
     exists q, loop_round fuel ms p = Ret (Some q) /\ doomed q /\ cq (pg_ring q) = [] /\ pg_tcp q = pg_tcp p).
Proof.
  destruct p as [r h tasks cl s]. intros (Hd & Ha & Hh & Hp) Hf. simpl in Hp, Hh, Hf, Hd, Ha. subst tasks.
  unfold loop_round. cbn [pg_tcp pg_pending pg_ring pg_heap run_tasks mbind outcome_bind]. unfold run_once. cbn [fst snd].
  rewrite submit_wait_timeout_None. cbn [mbind outcome_bind]. unfold after_wait. cbn [fst snd].
  destruct (doomed_timeout ms r Hd) as (Hd1 & Hc1 & Ha1). specialize (Ha1 Ha). set (r1 := waiting_ring ms r) in *.
  rewrite <- Hc1 in *. destruct (cq r1) as [|c cs] eqn:Hcq.
  - split; [by intros ?%elem_of_nil|]. intros _. cbn [mbind outcome_bind]. unfold process_all_cqe.
    destruct (doomed_process fuel (listen_fd_ s) h 0 fuel 0 r1 Hd1 Hh) as [_ Hout]; [by rewrite Hcq|simpl in *; lia|].
    destruct Hout as (m' & r' & -> & Hd' & Hi' & Hc'); [rewrite Hcq; by intros ?%elem_of_nil|].
    eexists. split; [done|]. unfold doomed. cbn [pg_ring pg_heap pg_pending pg_tcp]. split_and!; try done.
    unfold accept_pending in *. rewrite Hi', Hc'. by rewrite Hcq in Ha1.
  - pose proof Hd1 as (_ & _ & _ & _ & _ & Hc). rewrite Hcq in Hc. apply Forall_cons in Hc as [Hc _].
    assert (Hfirst : (if negb (cqe_user_data c =? 0) then process_cqe (serve_callback fuel (listen_fd_ s)) c (r1, h) else Ret (seen (r1, h)))
      = if cqe_user_data c =? 2 then Undef else Ret (cqe_seen r1, h)).
    { rewrite (doomed_cqe fuel _ c r1 h Hd1 Hh Hc). by destruct Hc as [->|[->| ->]]. }
    rewrite Hfirst, fmap_cons, elem_of_cons. destruct (Z.eqb_spec (cqe_user_data c) 2) as [E2|Ne];
      [split; [done|intros Hn; destruct Hn; by left]|]. cbn [mbind outcome_bind]. unfold process_all_cqe.
    pose proof (doomed_seen r1 c cs Hd1 Hcq) as Hd2.
    destruct (doomed_process fuel (listen_fd_ s) h (length cs) fuel 0 (cqe_seen r1) Hd2 Hh) as [Hin Hout];
      [by simpl; rewrite Hcq|simpl in *; lia|]. simpl in Hin, Hout. rewrite Hcq in Hin, Hout. cbn [tail] in Hin, Hout. split.
    + intros [?|Hi]; [congruence|]. by rewrite (Hin Hi).
    + intros Hn. destruct Hout as (m' & r' & -> & Hd' & Hi' & Hc'); [tauto|]. eexists. split; [done|].
      unfold doomed. cbn [pg_ring pg_heap pg_pending pg_tcp]. split_and!; try done.
      unfold accept_pending in *. rewrite Hi', Hc'. rewrite Hcq in Ha1. cbn [inflight cqe_seen].
      apply elem_of_app. apply elem_of_app in Ha1 as [Hin2|Hin2]; [by left|]. rewrite fmap_cons, elem_of_cons in Hin2.
      destruct Hin2 as [?|?]; [congruence|tauto].
Qed.

Lemma doomed_completes i res fl p :
  doomed p -> doomed (kernel_completes i res fl p) /\
    forall e, inflight (pg_ring p) !! i = Some e -> sqe_user_data e = 2 ->
      2 ∈ (cqe_user_data <$> cq (pg_ring (kernel_completes i res fl p))).
Proof.
  destruct p as [r h tasks cl s]. intros (Hd & Ha & Hh & Hp). unfold doomed, kernel_completes. simpl in *. unfold complete.
  destruct (inflight r !! i) as [e|] eqn:He; [|by split; [|done]]. simpl.
  destruct Hd as (Hs & Hq & H1 & H2 & Hi & Hc). split.
  - split_and!; try done.
    + unfold doomed_ring. simpl. split_and!; try done; [by apply Forall_delete|]. apply Forall_app. split; [done|].
      apply Forall_singleton. simpl. by eapply Forall_lookup_1 in Hi as [? _].
    + unfold accept_pending in *. simpl. rewrite fmap_app. simpl. rewrite (delete_Permutation _ _ _ He) in Ha.
      simpl in Ha. rewrite !elem_of_cons, !elem_of_app in Ha. rewrite !elem_of_app, list_elem_of_singleton. tauto.
  - intros e' [= <-] He2. rewrite fmap_app. simpl. rewrite He2. apply elem_of_app. right. by apply list_elem_of_singleton.
Qed.

Lemma doomed_run fuel ops : forall p,
  doomed p -> (length (cq (pg_ring p)) + length ops < fuel)%nat ->
  serve_run fuel ops p = Undef \/
  exists q, serve_run fuel ops p = Ret (Some q) /\ doomed q /\ pg_tcp q = pg_tcp p /\
    (length (cq (pg_ring q)) <= length (cq (pg_ring p)) + length ops)%nat.
Proof.
  induction ops as [|[ms|i res fl] ops IH]; intros p Hd Hf; simpl in Hf.
  - right. exists p. split_and!; [done..|lia].
  - destruct (doomed_round fuel ms p Hd) as [Hin Hout]; [lia|]. cbn [serve_run].
    destruct (decide (2 ∈ (cqe_user_data <$> cq (pg_ring p)))) as [H2|H2]; [left; by rewrite (Hin H2)|].
    destruct (Hout H2) as (q & -> & Hq & Hc & Ht). cbn [mbind outcome_bind].
    destruct (IH q Hq) as [Hu|(q' & Hr & Hd' & Ht' & Hl)]; [rewrite Hc; simpl; lia|by left|].
    right. exists q'. rewrite Hc in Hl. simpl in *. split_and!; [done|done|congruence|lia].
  - destruct (doomed_completes i res fl p Hd) as [Hd' _]. cbn [serve_run].
    assert (Hl : (length (cq (pg_ring (kernel_completes i res fl p))) <= S (length (cq (pg_ring p))))%nat).
    { simpl. unfold complete. destruct (inflight (pg_ring p) !! i); simpl; rewrite ?length_app; simpl; lia. }
    destruct (IH _ Hd') as [Hu|(q' & Hr & Hq & Ht' & Hl')]; [lia|by left|].
    right. exists q'. simpl in *. split_and!; [done..|lia].
Qed.

(** The program after [start], and, had its lambda lived, after the first round of
    the loop. *)
Definition started_program (keep : bool) depth config fd : program :=
  mkProgram (mkRing depth [] [mkSqe OpNop 1 0] [] {[1 := None]} 2 true)
    (mkHeap {[0%nat := mkFrame new_promise (at_start (co_return done))]} 1) [0%nat]
    (if keep then {[0%nat]} ∪ ∅ else ({[0%nat]} ∪ ∅) ∖ {[0%nat]}) (set_listening fd true (TcpServer_new config)).

Definition accepting_ring depth fd : IoUring (option nat) :=
  mkRing depth [] [mkSqe OpNop 1 0; mkSqe (OpAccept fd 0) 2 0] [] (<[2 := Some 0%nat]> {[1 := None]}) 3 true.

Definition accepting_program depth config fd ms : program :=
  mkProgram (waiting_ring ms (accepting_ring depth fd)) (mkHeap ∅ 1) [] ({[0%nat]} ∪ ∅)
    (set_listening fd true (TcpServer_new config)).

Lemma accepting_cq depth fd ms : cq (waiting_ring ms (accepting_ring depth fd)) = [].
Proof. unfold waiting_ring, submit_wait_timeout. by destruct ((0 <=? ms) && _). Qed.

Lemma accepting_doomed depth config fd ms : 0 < depth -> doomed (accepting_program depth config fd ms).
Proof.
  intros Hdep. assert (Hr : doomed_ring (accepting_ring depth fd)).
  { unfold doomed_ring. simpl. split_and!; try done. apply Forall_cons. split; [split; [by right; left|done]|].
    apply Forall_singleton. simpl. split; [by right; right|done]. }
  destruct (doomed_timeout ms _ Hr) as (Hd & _ & Ha). unfold doomed. cbn [accepting_program pg_ring pg_heap pg_pending].
  split_and!; try done. apply Ha. unfold accept_pending. simpl. apply elem_of_cons. right. apply elem_of_cons. by left.
Qed.

Lemma start_spawns keep depth config fd :
  0 < depth -> 0 <= fd ->
  serve_start keep fd true true None (program_new depth config) = Ret (true, started_program keep depth config fd).
Proof.
  intros Hdep Hfd. unfold serve_start, TcpServer.start. cbn [pg_tcp program_new TcpServer_new running_].
  rewrite (proj2 (Z.ltb_ge fd 0)) by lia. by destruct depth as [|d|d], keep.
Qed.

Lemma first_round depth config fd ms fuel :
  0 < depth -> (2 <= fuel)%nat ->
  loop_round fuel ms (started_program true depth config fd) = Ret (Some (accepting_program depth config fd ms)).
Proof.
  intros Hdep Hf. destruct fuel as [|[|fuel]]; try lia. unfold loop_round. set (s := pg_tcp _).
  assert (Hrun : run_tasks (S (S fuel)) (pg_closures (started_program true depth config fd)) s [0%nat]
    (pg_ring (started_program true depth config fd)) (pg_heap (started_program true depth config fd))
    = Ret (accepting_ring depth fd, mkHeap ∅ 1)).
  { cbn [run_tasks]. unfold first_resume. rewrite decide_True by set_solver. cbn. by destruct depth as [|d|d]. }
  change (pg_pending (started_program true depth config fd)) with [0%nat].
  rewrite Hrun. cbn [mbind outcome_bind]. unfold run_once. cbn [fst snd]. rewrite submit_wait_timeout_None.
  cbn [mbind outcome_bind]. unfold after_wait. cbn [fst snd]. rewrite accepting_cq. cbn [mbind outcome_bind].
  unfold process_all_cqe. cbn [process_all_loop fst]. by rewrite accepting_cq.
Qed.

(** C27: a started server never accepts a connection.  [start] succeeds and posts the
    accept coroutine; the first round of the loop, whatever the kernel completes
    before it, starts the coroutine, whose first statement reads [running_] through
    the lambda that [accept_loop] has destroyed: undefined behaviour.  Keeping the
    lambda alive would not be enough: the round then suspends the coroutine in its
    accept and destroys it with the callable that owned it; from then on, whatever
    the kernel completes and however often the loop goes round, either it has
    already run into undefined behaviour, or no connection was accepted, no
    coroutine exists, and when the kernel completes the accept, with a connection
    or an error, the next round resumes the destroyed coroutine. *)
Theorem started_server_cannot_accept depth config fd ms :
  0 < depth -> 0 <= fd ->
  (exists p1, serve_start false fd true true None (program_new depth config) = Ret (true, p1) /\
    forall ops fuel, existsb is_round ops = true -> serve_run fuel ops p1 = Undef) /\
  exists p1 p2, serve_start true fd true true None (program_new depth config) = Ret (true, p1) /\
    (forall fuel, (2 <= fuel)%nat -> loop_round fuel ms p1 = Ret (Some p2)) /\
    forall ops fuel, (length ops + 2 <= fuel)%nat ->
      serve_run fuel ops p2 = Undef \/
      exists p, serve_run fuel ops p2 = Ret (Some p) /\ accept_pending (pg_ring p) /\
        frames (pg_heap p) = ∅ /\ total_accepted_ (pg_tcp p) = 0 /\
        forall i e res fl ms, inflight (pg_ring p) !! i = Some e -> sqe_op e = OpAccept fd 0 ->
          loop_round fuel ms (kernel_completes i res fl p) = Undef.
Proof.
  intros Hdep Hfd. split.
  { exists (started_program false depth config fd). split; [by apply start_spawns|]. intros ops fuel Hr.
    eapply dead_closure_run; [done| |done]. simpl. intros [_ Hn]%elem_of_difference. by apply Hn, elem_of_singleton. }
  exists (started_program true depth config fd), (accepting_program depth config fd ms).
  split; [by apply start_spawns|]. split; [intros fuel Hf; by apply first_round|]. intros ops fuel Hf.
  destruct (doomed_run fuel ops (accepting_program depth config fd ms)) as [Hu|(q & Hr & Hd & Ht & Hl)];
    [by apply accepting_doomed|simpl; rewrite accepting_cq; simpl; lia|by left|].
  right. exists q. pose proof Hd as (Hdr & Ha & Hh & _). split_and!; [done|done|done|by rewrite Ht|].
  intros i e res fl ms' He Hop. destruct (doomed_completes i res fl q Hd) as [Hd' H2].
  destruct (doomed_round fuel ms' _ Hd') as [Hin _].
  - simpl. unfold complete. rewrite He. simpl in *. rewrite length_app, accepting_cq in *. simpl in *. lia.
  - apply Hin, (H2 e He). destruct Hdr as (_ & _ & _ & _ & Hi & _). eapply Forall_lookup_1 in Hi as [_ Hi]; [|exact He].
    by apply (Hi fd 0).
Qed.
End Serving.

(** ** Witness *)

Lemma started_server_cannot_accept_witness :
  exists p1, serve_start (V := unit) (E := Z) tt false 3 true true None (program_new 64 default_tcp_config) = Ret (true, p1) /\
    serve_run (fun _ => co_return tt) tt 10 [SComplete 0 0 0; SRound 10] p1 = Undef.
Proof.
  destruct (started_server_cannot_accept (V := unit) (E := Z) (fun _ => co_return tt) tt 64 default_tcp_config 3 10)
    as [(p1 & E1 & Hrun) _]; [lia|lia|]. exists p1. split; [exact E1|]. apply Hrun. reflexivity.
Defined.

(** With the lambda kept: the wake-up completes, and after another round the
    accept, with descriptor 7. *)
Example first_accept_undefined :
  (let* (x : bool * program (V := unit) (E := Z)) :=
     serve_start tt true 3 true true None (program_new 64 default_tcp_config) in
   let* (y : option (program (V := unit) (E := Z))) :=
     serve_run (fun _ => co_return tt) tt 10 [SRound 10; SComplete 0 0 0; SRound 10] x.2 in
   Ret (match y with Some _ => true | None => false end)) = Ret true /\
  (let* (x : bool * program (V := unit) (E := Z)) :=
     serve_start tt true 3 true true None (program_new 64 default_tcp_config) in
   serve_run (fun _ => co_return tt) tt 10 [SRound 10; SComplete 0 0 0; SRound 10; SComplete 0 7 0; SRound 10] x.2) = Undef.
Proof. split; vm_compute; reflexivity. Qed.
