(* ===== verification/Endpoints.v ===== *)
(** * rpc/rpc_client.hpp and rpc/rpc_server.hpp: the two ends on TCP

    [RpcClient] over [TcpClient]: connecting, calling and the proxy; [RpcServer]
    over [TcpServer]: starting and stopping.  RpcClient.v and RpcServer.v have
    what they do with a stream, TcpClient.v and TcpServer.v the transport. *)

From Stdlib Require Import ZArith Lia.
From S2P Require Import Prelude Serializer Protocol Connection ServiceRegistry RpcServer RpcClient ConnectionPool Awaitable TcpClient TcpServer.

(** ** TcpClient as the transport of a call *)

(** A call that blocks in the pool or dereferences a null connection has no
    stream result; [send_is_write] and [recv_is_read] say when it has one. *)
#[global] Instance client_stream : Stream (TcpClient.TcpClient * world) := {
  st_connected x := connected_ x.1;
  st_read n x :=
    match TcpClient.recv n x.1 x.2 with
    | Ret (Some (r, bs, cl, w)) => (r, bs, (cl, w))
    | _ => (-1, [], x)
    end;
  st_write bs x :=
    match TcpClient.send bs x.1 x.2 with
    | Ret (Some (n, cl, w)) => (n, (cl, w))
    | _ => (-1, x)
    end;
  st_left x :=
    match connection_ x.1 with
    | Some c => in_size (sk_in (default unconnected (w_kernel x.2 !! fd_ c)))
    | None => O
    end;
}.

Lemma send_is_write bs cl w n cl' w' :
  TcpClient.send bs cl w = Ret (Some (n, cl', w')) -> st_write bs (cl, w) = (n, (cl', w')).
Proof. intros E. simpl. by rewrite E. Qed.

Lemma recv_is_read k cl w n bs cl' w' :
  TcpClient.recv k cl w = Ret (Some (n, bs, cl', w')) -> st_read k (cl, w) = (n, bs, (cl', w')).
Proof. intros E. simpl. by rewrite E. Qed.

(** ** RpcClient *)

Record RpcClientConfig := mkRpcClientConfig {
  rc_host : list Z;
  rc_port : Z;
  rc_timeout_ms : Z;
  rc_auto_reconnect : bool;
  rc_max_retries : Z;
}.

Definition default_rpc_client_config : RpcClientConfig :=
  mkRpcClientConfig (bytes_of_string "127.0.0.1") 9000 30000 true 3.

(** The client with the process it runs in. *)
Record session := mkSession {
  ss_config : RpcClientConfig;
  ss_next_id : Z;
  ss_tcp : option TcpClient.TcpClient;
  ss_world : world;
}.

Definition RpcClient_new (config : RpcClientConfig) (w : world) : session := mkSession config 0 None w.

(** The new [TcpClient], made with its default configuration, replaces the old
    one, whose destructor disconnects. *)
Definition RpcClient_connect (host : list Z) (port : Z) (s : session) : outcome (bool * session) :=
  let config := mkRpcClientConfig host port (rc_timeout_ms (ss_config s)) (rc_auto_reconnect (ss_config s))
                  (rc_max_retries (ss_config s)) in
  let tcp := TcpClient_new default_client_config in
  let* w := match ss_tcp s with
            | None => Ret (ss_world s)
            | Some old => let* '(_, w) := disconnect old (ss_world s) in Ret w
            end in
  let* '(ok, tcp, w) := TcpClient.connect host port tcp w in
  Ret (ok, mkSession config (ss_next_id s) (Some tcp) w).

Definition RpcClient_connect_configured (s : session) : outcome (bool * session) :=
  RpcClient_connect (rc_host (ss_config s)) (rc_port (ss_config s)) s.

Definition RpcClient_disconnect (s : session) : outcome session :=
  match ss_tcp s with
  | None => Ret s
  | Some tcp =>
      let* '(tcp, w) := disconnect tcp (ss_world s) in Ret (mkSession (ss_config s) (ss_next_id s) (Some tcp) w)
  end.

Definition RpcClient_connected (s : session) : bool :=
  match ss_tcp s with None => false | Some tcp => connected_ tcp end.

(** The client RpcClient.v describes, and back. *)
Definition as_client (s : session) : RpcClient.RpcClient (TcpClient.TcpClient * world) :=
  RpcClient.mkClient (rc_timeout_ms (ss_config s)) (ss_next_id s) ((fun t => (t, ss_world s)) <$> ss_tcp s).

Definition of_client (s : session) (c : RpcClient.RpcClient (TcpClient.TcpClient * world)) : session :=
  mkSession (ss_config s) (next_id c) (fst <$> tcp_client_ c) (from_option snd (ss_world s) (tcp_client_ c)).

Section Calls.
Context {Req Res : Type} (creq : Codec Req) (cres : Codec Res) (pad : list Z).

Definition session_call (now : Z) (service method : list Z) (request : Req) (s : session)
  : outcome (RpcResult Res * session) :=
  let* '(r, c) := call creq cres pad now service method request (as_client s) in
  Ret (r, of_client s c).

(** [RpcClientProxy<Service>::call]. *)
Definition proxy_call (service_name : list Z) (now : Z) (method : list Z) (request : Req) (s : session)
  : outcome (RpcResult Res * session) :=
  session_call now service_name method request s.

(** One call after the other, with their times, methods and requests. *)
Fixpoint session_calls (calls : list (Z * list Z * list Z * Req)) (s : session)
  : outcome (list (RpcResult Res) * session) :=
  match calls with
  | [] => Ret ([], s)
  | (now, service, method, request) :: calls =>
      let* '(r, s) := session_call now service method request s in
      let* '(rs, s) := session_calls calls s in
      Ret (r :: rs, s)
  end.
End Calls.

(** ** RpcServer *)

(** [config_], [running_] and [tcp_server_]; the counters are in RpcServer.v. *)
Record server := mkEndpoint {
  es_config : RpcServerConfig;
  es_running : bool;
  es_tcp : option TcpServer.TcpServer;
}.

Definition RpcServer_new (config : RpcServerConfig) : server := mkEndpoint config false None.

Definition tcp_config_of (config : RpcServerConfig) : TcpServerConfig :=
  mkTcpConfig (rs_host config) (rs_port config) (backlog default_tcp_config) (reuse_addr default_tcp_config)
    (reuse_port default_tcp_config) (RpcServer.max_connections config) (timeout_ms config)
    (TcpServer.write_timeout_ms default_tcp_config) (enable_metrics default_tcp_config).

(** [start()] with the results of [socket], [bind] and [listen] and the exception
    of the TCP server's [accept_loop], which leaves [start] before [running_] is
    set; the descriptors closed come with the result. *)
Definition RpcServer_start (fd : Z) (bind_ok listen_ok : bool) (failure : option string) (s : server)
  : outcome bool * list Z * server :=
  if es_running s then (Ret true, [], s) else
  let closed := match es_tcp s with None => [] | Some old => (TcpServer.stop old).1 end in
  let tcp := set_connection_handler true (TcpServer_new (tcp_config_of (es_config s))) in
  let '(r, _, fds, tcp) := TcpServer.start fd bind_ok listen_ok failure tcp in
  (r, closed ++ fds, mkEndpoint (es_config s) (match r with Ret ok => ok | _ => false end) (Some tcp)).

Definition RpcServer_stop (s : server) : list Z * server :=
  if negb (es_running s) then ([], s) else
  match es_tcp s with
  | None => ([], mkEndpoint (es_config s) false None)
  | Some tcp => let '(fds, tcp) := TcpServer.stop tcp in (fds, mkEndpoint (es_config s) false (Some tcp))
  end.

Definition RpcServer_active_connections (s : server) : Z :=
  match es_tcp s with None => 0 | Some tcp => connections_ tcp end.

(** The owner's calls, with the descriptors opened and closed. *)
Inductive server_call := SStart (fd : Z) (bind_ok listen_ok : bool) (failure : option string) | SStop.

Definition server_do (call : server_call) (x : server * list Z * list Z) : server * list Z * list Z :=
  let '(s, opened, closed) := x in
  match call with
  | SStart fd bind_ok listen_ok failure =>
      let '(_, fds, s') := RpcServer_start fd bind_ok listen_ok failure s in
      (s', if es_running s then opened else if 0 <=? fd then opened ++ [fd] else opened, closed ++ fds)
  | SStop => let '(fds, s') := RpcServer_stop s in (s', opened, closed ++ fds)
  end.

(** ** Calls with the default transport *)

Section Unreachable.
Context {Req Res : Type} (creq : Codec Req) (cres : Codec Res) (pad : list Z) (Hpad : length pad = 4%nat).

Abbreviation send_failed := (make_error (R := Res) ErrorCode.ConnectionError (bytes_of_string "Failed to send request")).

Definition unreachable (n : nat) (s : session) : Prop :=
  exists tcp, ss_tcp s = Some tcp /\ pooled_inv 10 n tcp (ss_world s).

Lemma session_call_fails n now service method request s :
  unreachable (S n) s ->
  exists s', session_call creq cres pad now service method request s = Ret (send_failed, s') /\ unreachable n s'.
Proof.
  intros (tcp & Ht & Hinv). unfold session_call, call. rewrite serialize_frame by done. cbn [mbind outcome_bind].
  unfold next_request_id. cbn [snd tcp_client_ as_client]. rewrite Ht. cbn [fmap option_fmap option_map].
  set (buffer := frame pad _).
  destruct (client_op_pooled 10 ltac:(lia) (fun a => a <= 0) (-1) (fun n => n <=? 0) (async_write buffer) n tcp (ss_world s))
    as (a & w' & E & Ha & Hinv'); [apply async_write_frames|done|by intros; apply unconnected_write|done|].
  rewrite (send_is_write buffer _ _ _ _ _ E), (proj2 (Z.leb_le a 0)) by done.
  eexists. split; [reflexivity|]. by exists tcp.
Qed.

(** C29: a client that connects the way the class does cannot complete a call,
    in a process without pools of earlier connections and with as many successful
    [socket] calls as are needed.  [connect] builds its [TcpClient] with the default configuration, whose pool
    never connects its sockets: it answers true, [connected()] is false, and each
    call after it returns, for every service, method, request and codec, the
    ConnectionError of a request that could not be sent. *)
Theorem default_client_cannot_call host port config w calls :
  w_manager w = mkManager ∅ [] -> w_kernel w = ∅ ->
  Forall (Z.le 0) (w_sockets w) -> (length calls < length (w_sockets w))%nat ->
  exists s1 s2, RpcClient_connect host port (RpcClient_new config w) = Ret (true, s1) /\
    RpcClient_connected s1 = false /\
    session_calls creq cres pad calls s1 = Ret (replicate (length calls) send_failed, s2).
Proof.
  intros Hm Hk Hs Hl. unfold RpcClient_connect. cbn [RpcClient_new ss_tcp ss_world mbind outcome_bind].
  assert (Hinv : pooled_inv 10 (S (length calls)) (TcpClient_new default_client_config) w).
  { unfold pooled_inv. rewrite Hm. by split_and!. }
  destruct (connect_pooled 10 (length calls) host port _ w Hinv) as (tcp & w1 & -> & Hinv1).
  cbn [mbind outcome_bind]. set (s1 := mkSession _ _ _ _).
  assert (Hu : unreachable (length calls) s1) by by exists tcp.
  assert (exists s2, session_calls creq cres pad calls s1 = Ret (replicate (length calls) send_failed, s2)) as [s2 E2].
  { clearbody s1. clear -Hu Hpad. revert s1 Hu. induction calls as [|[[[now sv] m] rq] calls IH]; intros s1 Hu; [eauto|].
    cbn [session_calls length replicate]. destruct (session_call_fails (length calls) now sv m rq s1 Hu) as (s' & -> & Hu').
    cbn [mbind outcome_bind]. destruct (IH s' Hu') as [s2 ->]. simpl. eauto. }
  exists s1, s2. split_and!; [done| |done]. by destruct Hinv1 as (_ & (_ & Hcd) & _).
Qed.
End Unreachable.

(** ** Starting and stopping the server *)

Definition listening (s : server) : list Z :=
  match es_tcp s with Some tcp => if running_ tcp then [listen_fd_ tcp] else [] | None => [] end.

(** No start ended in an exception. *)
Definition undisturbed (calls : list server_call) : Prop :=
  Forall (fun call => match call with SStart _ _ _ (Some _) => False | _ => True end) calls.

Definition server_inv (config : RpcServerConfig) (calls : list server_call) (x : server * list Z * list Z) : Prop :=
  let '(s, opened, closed) := x in
  es_config s = config /\ opened ≡ₚ closed ++ listening s /\
  match es_tcp s with
  | None => es_running s = false
  | Some tcp =>
      (es_running s = true -> running_ tcp = true) /\ (undisturbed calls -> es_running s = running_ tcp) /\
      TcpServer.config_ tcp = tcp_config_of config /\ connection_handler_ tcp = true /\
      (running_ tcp = true -> 0 <= listen_fd_ tcp)
  end.

Lemma server_start_inv config calls fd bind_ok listen_ok failure x :
  server_inv config calls x ->
  server_inv config (SStart fd bind_ok listen_ok failure :: calls) (server_do (SStart fd bind_ok listen_ok failure) x).
Proof.
  destruct x as [[s opened] closed]. intros (Hc & Hp & Ht). cbn [server_do]. unfold RpcServer_start.
  assert (Hu : forall calls', undisturbed (SStart fd bind_ok listen_ok failure :: calls') -> failure = None /\ undisturbed calls').
  { intros calls' [Hf Hu]%Forall_cons. by destruct failure. }
  destruct (es_running s) eqn:Er.
  { cbn [server_inv]. rewrite app_nil_r, Er in *. split_and!; [done|done|]. destruct (es_tcp s); [|done].
    destruct Ht as (? & Hn & ? & ? & ?). split_and!; try done. intros [_ Hx]%Hu. by apply Hn. }
  set (old := match es_tcp s with None => [] | Some old => (TcpServer.stop old).1 end).
  assert (Hold : old = listening s).
  { unfold old, listening. destruct (es_tcp s) as [tcp|]; [|done]. destruct Ht as (_ & _ & _ & _ & Hl).
    unfold TcpServer.stop. destruct (running_ tcp); [|done]. by rewrite (proj2 (Z.leb_le 0 _)) by by apply Hl. }
  clearbody old. subst old. unfold TcpServer.start. simpl. destruct (Z.ltb_spec fd 0) as [Hfd|Hfd].
  { rewrite (proj2 (Z.leb_gt 0 fd)) by done. cbn. rewrite !app_nil_r. by rewrite Hc; split_and!. }
  rewrite (proj2 (Z.leb_le 0 fd)) by done.
  destruct bind_ok, listen_ok; cbn; rewrite ?app_nil_r, ?Hc, <- ?app_assoc, ?(assoc (++)), <- ?Hp;
    try (by split_and!). destruct failure as [e|]; cbn; split_and!; try done. by intros [? _]%Hu.
Qed.

Lemma server_do_inv config calls call x :
  server_inv config calls x -> server_inv config (call :: calls) (server_do call x).
Proof.
  intros Hi. destruct call as [fd bind_ok listen_ok failure|]; [by apply server_start_inv|].
  destruct x as [[s opened] closed]. destruct Hi as (Hc & Hp & Ht). cbn [server_do].
  assert (Hu : undisturbed (SStop :: calls) -> undisturbed calls) by by intros [_ ?]%Forall_cons.
  unfold RpcServer_stop. destruct (es_running s) eqn:Er; cbn [negb].
  2:{ cbn [server_inv]. rewrite app_nil_r, Er in *. split_and!; [done|done|]. destruct (es_tcp s); [|done].
      destruct Ht as (? & Hn & ? & ? & ?). split_and!; try done. intros Hx. by apply Hn, Hu. }
  unfold listening in Hp. destruct (es_tcp s) as [tcp|] eqn:Et; [|done]. destruct Ht as (Hr & Hn & Hcf & Hh & Hfd).
  unfold TcpServer.stop. rewrite (Hr eq_refl) in *. rewrite (proj2 (Z.leb_le 0 _)) by by apply Hfd.
  cbn. rewrite app_nil_r. by split_and!.
Qed.

(** C15: a server's listening sockets are in order: through every sequence of starts
    and stops, with any results of the system calls and any exceptions of the
    accept loop, each descriptor opened is closed once or is the one listened on,
    and a server that says it runs has a TCP server that runs, with its limits and
    handler.  Without such an exception it says so exactly when that one runs.  A
    start that throws leaves a TCP server that listens behind a server that says
    it does not run, which [stop] does not close. *)
Theorem server_lifecycle config calls :
  let '(s, opened, closed) := foldr server_do (RpcServer_new config, [], []) calls in
  opened ≡ₚ closed ++ listening s /\ (es_running s = true -> listening s <> []) /\
  (undisturbed calls -> es_running s = bool_decide (listening s <> [])) /\
  match es_tcp s with
  | Some tcp => TcpServer.config_ tcp = tcp_config_of config /\ connection_handler_ tcp = true
  | None => es_running s = false
  end /\
  forall fd e, es_running s = false -> 0 <= fd ->
    let '(r, fds, s') := RpcServer_start fd true true (Some e) s in
    r = Throw e /\ fds = listening s /\ es_running s' = false /\ listening s' = [fd] /\ RpcServer_stop s' = ([], s').
Proof.
  assert (Hinv : server_inv config calls (foldr server_do (RpcServer_new config, [], []) calls)).
  { induction calls as [|c calls IH]; [by split_and!|]. by apply server_do_inv. }
  destruct (foldr _ _ _) as [[s opened] closed]. destruct Hinv as (_ & Hp & Ht). split_and!; [done|..].
  - intros Hr. unfold listening. destruct (es_tcp s); [|congruence]. destruct Ht as (H & _). by rewrite H.
  - intros Hu. unfold listening. destruct (es_tcp s) as [tcp|]; [|done]. destruct Ht as (_ & H & _).
    rewrite (H Hu). by destruct (running_ tcp).
  - destruct (es_tcp s); [|done]. tauto.
  - intros fd e Hr Hfd. unfold RpcServer_start. rewrite Hr. unfold TcpServer.start. simpl.
    rewrite (proj2 (Z.ltb_ge fd 0)) by done. cbn. split_and!; try done. rewrite app_nil_r. unfold listening.
    destruct (es_tcp s) as [tcp|]; [|done]. destruct Ht as (_ & _ & _ & _ & Hl). unfold TcpServer.stop.
    destruct (running_ tcp); [|done]. by rewrite (proj2 (Z.leb_le 0 _)) by by apply Hl.
Qed.

(** ** Witnesses *)

Lemma default_client_cannot_call_witness :
  exists s1 s2, RpcClient_connect [] 9000 (RpcClient_new default_rpc_client_config sample_world) = Ret (true, s1) /\
    RpcClient_connected s1 = false /\
    session_calls int32_codec int32_codec zero_pad [(5, [], [], 41); (6, [], [], 42)] s1
    = Ret (replicate 2 (make_error ErrorCode.ConnectionError (bytes_of_string "Failed to send request")), s2).
Proof.
  apply (default_client_cannot_call int32_codec int32_codec zero_pad eq_refl [] 9000 default_rpc_client_config sample_world
    [(5, [], [], 41); (6, [], [], 42)]); try done; [compute_done|simpl; lia].
Defined.

(** A start, a stop, a start that throws, and another start, which closes the
    socket the third one left open. *)
Lemma server_lifecycle_witness :
  let '(s, opened, closed) := foldr server_do (RpcServer_new default_server_config, [], [])
    [SStart 7 true true None; SStart 6 true true (Some "SQE queue is full"%string); SStop; SStart 5 true true None] in
  opened ≡ₚ closed ++ listening s /\ (es_running s, listening s, closed) = (true, [7], [5; 6]).
Proof.
  destruct (foldr _ _ _) as [[s opened] closed] eqn:E.
  pose proof (server_lifecycle default_server_config
    [SStart 7 true true None; SStart 6 true true (Some "SQE queue is full"%string); SStop; SStart 5 true true None]) as H.
  rewrite E in H. split; [apply H|]. vm_compute in E. by injection E as <- <- <-.
Defined.
