(* ===== verification/Framework.v ===== *)
(** * framework.hpp and the example programs

    The process-wide objects are function-local statics: the ring is made by the
    first [global_io_uring()], and made again by the next call if its constructor
    threw.  [queue_init] is [io_uring_queue_init_params], [ring_sz] the size of
    the submission queue liburing maps for a ring of a given depth.

    A program's result is its exit status with the lines it wrote to [cout] and
    [cerr].  [run] of framework.hpp is [EventLoop::run]: a callable stops the loop
    if [stops] says that it calls [EventLoop::stop]. *)

From Stdlib Require Import ZArith Lia.
From S2P Require Import Prelude ServiceRegistry ConnectionPool IoUring EventLoop TcpServer TcpClient.

(** ** The framework *)

Definition kFrameworkVersion : string := "1.0.0".
Definition kFrameworkName : string := "RPC Framework".

Definition Handler : Type := list Z -> list Z.

Record process := mkProcess {
  gl_ring : option (IoUring nat);
  gl_registry : gmap (list Z) (ServiceInfo Handler);
  gl_pools : PoolManager;
}.

Definition process_new : process := mkProcess None ∅ (mkManager ∅ []).

Section Framework.
Context (queue_init : Z -> uring_params -> Z) (ring_sz : Z -> Z).
(** A ring liburing has set up has a submission queue. *)
Hypothesis ring_sz_mapped : forall depth params, 0 <= queue_init depth params -> ring_sz depth <> 0.

Definition global_io_uring (p : process) : outcome (IoUring nat * process) :=
  match gl_ring p with
  | Some r => Ret (r, p)
  | None =>
      let* (r : IoUring nat) := IoUring_new queue_init (default_config 1024) in
      Ret (r, mkProcess (Some r) (gl_registry p) (gl_pools p))
  end.

Definition is_valid (r : IoUring nat) : bool := negb (ring_sz (queue_depth r) =? 0).

Definition init (p : process) : outcome (bool * process) :=
  let* (x : IoUring nat * process) := global_io_uring p in
  Ret (is_valid x.1, x.2).

(** [rpc::shutdown]: the connections closed, and the process. *)
Definition framework_shutdown (p : process) : list pconn * process :=
  let '(cs, m) := shutdown_all (gl_pools p) in (cs, mkProcess (gl_ring p) (gl_registry p) m).

(** ** The examples *)

Record output := mkOutput { status : Z; cout : list string; cerr : list string }.

(** The lines printed before and after [init], and the failure branch. *)
Definition echo_server_main (p : process) : outcome output :=
  let banner := ["Echo Server Example"; "==================="]%string in
  let* (x : bool * process) := init p in
  if negb x.1 then Ret (mkOutput 1 banner ["Failed to initialize framework"]%string) else
  let config := mkTcpConfig (host default_tcp_config) 8080 (backlog default_tcp_config) (reuse_addr default_tcp_config)
    (reuse_port default_tcp_config) (max_connections default_tcp_config) (read_timeout_ms default_tcp_config)
    (write_timeout_ms default_tcp_config) (enable_metrics default_tcp_config) in
  let server := TcpServer_new config in
  Ret (mkOutput 0 (banner ++ ["Echo server listening on port 8080"; "Server created successfully"]%string) []).

Definition echo_client_main (p : process) : outcome output :=
  let banner := ["Echo Client Example"; "==================="]%string in
  let* (x : bool * process) := init p in
  if negb x.1 then Ret (mkOutput 1 banner ["Failed to initialize framework"]%string) else
  let client := TcpClient_new default_client_config in
  Ret (mkOutput 0 (banner ++ ["Echo client created successfully"]%string) []).

(** The handler [rpc_example] registers: [co_return data]. *)
Definition add_handler : Handler := fun data => data.

Definition string_of_bytes (bs : list Z) : string :=
  foldr (fun b s => String (Ascii.ascii_of_N (Z.to_N b)) s) EmptyString bs.

Definition rpc_example_main (p : process) : outcome output :=
  let banner := ["RPC Framework Example"; "===================="]%string in
  let* (x : bool * process) := init p in
  if negb x.1 then Ret (mkOutput 1 banner ["Failed to initialize framework"]%string) else
  let r := register_method (bytes_of_string "Calculator") (bytes_of_string "add") (Some add_handler)
             (bytes_of_string "Add two numbers") (gl_registry x.2) in
  let services := list_services r in
  let listing := concat ((fun svc => ("  - " ++ string_of_bytes svc)%string ::
    ((fun m => ("    * " ++ string_of_bytes m)%string) <$> list_methods svc r)) <$> services) in
  Ret (mkOutput 0 (banner ++ ["Registered service: Calculator"; "  Methods: add"; ""; "All registered services:"]%string
                     ++ listing) []).

(** [init] is true or throws: its false result and the examples' failure branch
    are unreachable. *)
Theorem init_true_or_throws p :
  gl_ring p = None ->
  init p = Throw "io_uring_queue_init_params failed" \/
  exists p', init p = Ret (true, p') /\ (exists r, gl_ring p' = Some r /\ IoUring.running_ r = true) /\
    gl_registry p' = gl_registry p /\ init p' = Ret (true, p').
Proof using ring_sz_mapped.
  intros Hn. unfold init, global_io_uring. rewrite Hn. unfold IoUring_new.
  change (cfg_queue_depth (default_config 1024)) with 1024.
  destruct (Z.ltb_spec (queue_init 1024 (setup_params (default_config 1024))) 0) as [Hlt|Hge]; [by left|]. right.
  assert (Hv : is_valid (mkRing 1024 [] [] [] ∅ 1 true) = true).
  { unfold is_valid. cbn [queue_depth]. by rewrite (proj2 (Z.eqb_neq _ 0) (ring_sz_mapped 1024 _ Hge)). }
  exists (mkProcess (Some (mkRing 1024 [] [] [] ∅ 1 true)) (gl_registry p) (gl_pools p)).
  cbn [mbind outcome_bind gl_ring fst snd gl_registry]. rewrite Hv. split_and!; try done. by eexists.
Qed.

(** Where the ring can be set up the three examples exit with status 0; the rpc
    example lists the service it registered. *)
Theorem examples_succeed :
  (forall depth params, 0 <= queue_init depth params) ->
  (exists lines, echo_server_main process_new = Ret (mkOutput 0 lines [])) /\
  (exists lines, echo_client_main process_new = Ret (mkOutput 0 lines [])) /\
  rpc_example_main process_new = Ret (mkOutput 0
    ["RPC Framework Example"; "===================="; "Registered service: Calculator"; "  Methods: add"; "";
     "All registered services:"; "  - Calculator"; "    * add"]%string []).
Proof using ring_sz_mapped.
  intros Hq. destruct (init_true_or_throws process_new eq_refl) as [Hi|(p' & Hi & _ & Hreg & _)].
  - exfalso. unfold init, global_io_uring, IoUring_new in Hi. simpl in Hi.
    rewrite (proj2 (Z.ltb_ge _ 0) (Hq _ _)) in Hi. done.
  - unfold echo_server_main, echo_client_main, rpc_example_main. rewrite Hi. cbn [mbind outcome_bind fst snd negb].
    split_and!; [by eexists..|]. rewrite Hreg. vm_compute. done.
Qed.
End Framework.

(** ** [run] *)

Section Run.
Context {F : Type} (posts : F -> list F) (stops : F -> bool).
Implicit Types (l : EventLoop F).

(** The callables a round ran. *)
Definition ran_since l l' : list F := drop (length (ran l)) (ran l').

(** [run_loop] without the completions, entered with [running_] set: a round follows while it is;
    [clock] gives the time at each round.  None: it still runs after [fuel]
    rounds. *)
Fixpoint run_until_stop (fuel : nat) (clock : nat -> Z) l : option (EventLoop F) :=
  match fuel with
  | O => None
  | S fuel =>
      let l' := loop_once posts (clock 0%nat) l in
      if existsb stops (ran_since l l') then Some l' else run_until_stop fuel (fun k => clock (S k)) l'
  end.

(** [EventLoop::run] sets [running_], whatever it was, and enters [run_loop]. *)
Definition EventLoop_run (fuel : nat) (clock : nat -> Z) (running : bool) l : option (EventLoop F) :=
  let running := true in
  if running then run_until_stop fuel clock l else Some l.

(** [rpc::run] *)
Definition framework_run (fuel : nat) (clock : nat -> Z) (running : bool) l : option (EventLoop F) :=
  EventLoop_run fuel clock running l.

Lemma timers_loop_ran (P : F -> Prop) now fuel : forall l,
  Forall (fun t => P (th_callback t)) (timers_ l) ->
  exists fs, ran (timers_loop fuel now l) = ran l ++ fs /\ Forall P fs /\
    Forall (fun t => P (th_callback t)) (timers_ (timers_loop fuel now l)) /\
    pending_tasks_ (timers_loop fuel now l) = pending_tasks_ l.
Proof.
  induction fuel as [|fuel IH]; intros l Hl; simpl; [exists []; by rewrite app_nil_r|].
  destruct (pop_min (timers_ l)) as [[t ts]|] eqn:Hp; [|exists []; by rewrite app_nil_r].
  destruct (pop_min_spec _ _ _ Hp) as [Hperm _]. rewrite Hperm in Hl. apply Forall_cons in Hl as [Ht Hts].
  destruct (expire_time t <=? now); [|exists []; rewrite app_nil_r; rewrite Hperm; split_and!; try done; by apply Forall_cons].
  destruct (IH (mkLoop (pending_tasks_ l) ts (delete (th_id t) (timer_map_ l)) (next_timer_id_ l)
    (if cancelled t then ran l else ran l ++ [th_callback t])) Hts) as (fs & Hr & Hfs & Hrest & Hpend).
  destruct (cancelled t); [by exists fs|]. exists (th_callback t :: fs). rewrite Hr. simpl. rewrite <- app_assoc.
  split_and!; try done. by apply Forall_cons.
Qed.

(** A round runs the due timers' callables and then all that was posted. *)
Lemma loop_once_ran (P : F -> Prop) now l :
  Forall (fun t => P (th_callback t)) (timers_ l) ->
  exists fs, ran_since l (loop_once posts now l) = fs ++ pending_tasks_ l /\ Forall P fs /\
    Forall (fun t => P (th_callback t)) (timers_ (loop_once posts now l)) /\
    pending_tasks_ (loop_once posts now l) = concat (posts <$> pending_tasks_ l).
Proof.
  intros Hl. destruct (timers_loop_ran P now (length (timers_ l)) l Hl) as (fs & Hr & Hfs & Ht & Hp).
  exists fs. unfold loop_once, process_timers, ran_since. cbn [process_tasks ran timers_ pending_tasks_].
  rewrite Hr, Hp, <- app_assoc, drop_app_length. done.
Qed.

(** [run] returns after the round in which a callable stops the loop, and
    whatever else was posted has run by then. *)
Theorem run_returns_when_stopped fuel clock running l :
  Exists (fun f => stops f = true) (pending_tasks_ l) ->
  exists l' fs, framework_run (S fuel) clock running l = Some l' /\ ran_since l l' = fs ++ pending_tasks_ l.
Proof.
  intros Hs. destruct (loop_once_ran (fun _ => True) (clock 0%nat) l) as (fs & Hr & _); [by apply Forall_true|].
  exists (loop_once posts (clock 0%nat) l), fs. split; [|done]. unfold framework_run, EventLoop_run. cbn [run_until_stop].
  assert (Hex : existsb stops (ran_since l (loop_once posts (clock 0%nat) l)) = true); [|by rewrite Hex].
  rewrite Hr, existsb_app. apply orb_true_intro. right. apply existsb_exists.
  apply Exists_exists in Hs as (f & Hf & Hsf). exists f. split; [by apply list_elem_of_In|done].
Qed.

(** [run] goes on for ever when no callable stops the loop: [stop] from outside,
    before [run] set the flag, is lost. *)
Theorem run_never_returns fuel clock running l :
  (forall f, stops f = false -> Forall (fun g => stops g = false) (posts f)) ->
  Forall (fun f => stops f = false) (pending_tasks_ l) ->
  Forall (fun t => stops (th_callback t) = false) (timers_ l) ->
  framework_run fuel clock running l = None.
Proof.
  unfold framework_run, EventLoop_run. clear running. revert clock l.
  induction fuel as [|fuel IH]; intros clock l Hposts Hp Ht; [done|]. cbn [run_until_stop].
  destruct (loop_once_ran (fun f => stops f = false) (clock 0%nat) l Ht) as (fs & Hr & Hfs & Ht' & Hp').
  assert (Hex : existsb stops (ran_since l (loop_once posts (clock 0%nat) l)) = false).
  { apply not_true_is_false. rewrite Hr, existsb_exists. intros (f & Hf & Hs). apply list_elem_of_In in Hf.
    assert (Hall : Forall (fun f => stops f = false) (fs ++ pending_tasks_ l)) by (by apply Forall_app).
    rewrite Forall_forall in Hall. by rewrite (Hall f Hf) in Hs. }
  rewrite Hex. apply IH; [done| |done]. rewrite Hp'. apply Forall_concat, Forall_fmap.
  eapply Forall_impl; [exact Hp|]. intros f Hf. simpl. by apply Hposts.
Qed.
End Run.

(** ** Witnesses *)

Lemma init_true_or_throws_witness :
  let init := init (fun _ _ => 0) (fun _ => 4096) in
  init process_new = Throw "io_uring_queue_init_params failed" \/
  exists p', init process_new = Ret (true, p') /\ (exists r, gl_ring p' = Some r /\ IoUring.running_ r = true) /\
    gl_registry p' = gl_registry process_new /\ init p' = Ret (true, p').
Proof. apply (init_true_or_throws (fun _ _ => 0) (fun _ => 4096)); done. Defined.

Lemma examples_succeed_witness :
  rpc_example_main (fun _ _ => 0) (fun _ => 4096) process_new = Ret (mkOutput 0
    ["RPC Framework Example"; "===================="; "Registered service: Calculator"; "  Methods: add"; "";
     "All registered services:"; "  - Calculator"; "    * add"]%string []).
Proof. apply (examples_succeed (fun _ _ => 0) (fun _ => 4096)); done. Defined.

(** Three posted callables, the second one stops the loop. *)
Lemma run_returns_when_stopped_witness :
  let l := post 3 (post 2 (post 1 EventLoop_new)) in
  exists l' fs, framework_run (fun _ => []) (Z.eqb 2) 1 (fun _ => 0) false l = Some l' /\ ran_since l l' = fs ++ [1; 2; 3].
Proof.
  apply (run_returns_when_stopped (fun _ => []) (Z.eqb 2) 0 (fun _ => 0) false (post 3 (post 2 (post 1 EventLoop_new)))).
  compute_done.
Defined.

Lemma run_never_returns_witness :
  framework_run (fun f => [f]) (Z.eqb 2) 100 (fun _ => 0) true (post 1 EventLoop_new) = None.
Proof.
  apply (run_never_returns (fun f => [f]) (Z.eqb 2) 100); [intros f Hf; by repeat constructor|by repeat constructor|constructor].
Defined.
